(* ===== verification/_CoqProject ===== *)
-Q . S2P
Prelude.v
Text.v
Json.v
JsonLoads.v
Runtime.v
Signals.v
Loops.v
Retry.v
Gates.v
Settlement.v
Summary.v
ContextEngine.v
Conversation.v
Retention.v
Guardrails.v
McpTrust.v
CommandSafety.v
PreTool.v
Outbox.v
Capture.v
UsageContract.v
OutboxQueue.v
Ledger.v
Drain.v
HostRecords.v
Delivery.v
Admission.v
Framing.v
AcpSettlement.v
TurnControl.v
OutboundWriter.v
TurnSends.v
