(* ===== verification/Prelude.v ===== *)
(** Optimus Cost Agent: a verification development of its core.

    Optimus is a coding agent that plans, asks for approval, changes a workspace
    and accounts for what its model calls cost. Its Python sources are under
    [src/src]. This library models the parts of it that decide something: what
    may be changed and when, what a tool call must pass, when a loop or a retry
    ends, what a turn has cost, what of a conversation is kept and shown to a
    model, how sessions are held and given up, and how a turn's messages reach the
    client. Every definition translates the
    code named with it; the theorems are about those definitions for all inputs
    and all behaviours of what the code calls.

    * The parts, their files and their sources

    - [Prelude] (this file), [Text], [Json], [JsonLoads]: results of fallible code,
      effects, insertion-ordered dictionaries, sums; Python's [str] and [pathlib] as
      far as they are used; [json.dumps], Unicode white space, and [json.loads] with
      the theorems that it reads back what was written.
    - [Runtime], [optimus/runtime/{modes,state,mutation}.py]: execution modes, the
      lifecycle state machine ([transition], approvals) and the mutation guard
      ([assert_mutation_allowed]). The lifecycle is also a step relation, and the
      guard's theorem is about all its reachable contexts.
    - [Signals], [optimus/loops/{signals,detector}.py]: what an agent's step
      brought (read coverage as merged intervals, MCP results), and the detector of
      repetition over a bounded window ([observe]).
    - [Loops], [optimus/loops/{models,ledger,controller}.py]: the goal loop ([run])
      over any ledger that meets the laws of [ProgressLedgerLaws]; the in-memory
      ledger is an instance.
    - [Retry], [optimus/retry/policy.py]: classification of failures, decision,
      back-off, and the controller's loop ([retry_run]).
    - [Gates], [optimus/gates/*.py] and [optimus/retry/gated_run.py]: fitness gates,
      the shadow copy of a workspace, promotion and rollback of its changes
      ([promote_shadow_changes]), the mutation runner ([mutation_run], which asks the
      guard of [Runtime]) and the retried run ([gated_run], which uses the policy of
      [Retry]). I/O errors are injected while the shadow is made, scanned and removed,
      at each change of a promotion and at each step of its rollback ([IoFaults]).
    - [Settlement], [optimus/usage/turn_settlement.py]: receipts of model calls,
      worker invocations, recording with conflicts, subscriptions, and the cost
      summary of a turn. Calls are serialized by the store's lock, so a history is a
      list of calls ([run_ops]). Durable capture is the class [Capture].
    - [Summary], [context_engine/summary.py]: the format of model-written summaries
      and the inert block they are shown in.
    - [ContextEngine], [context_engine/{contracts,selection,checkpoints,engine}.py]:
      the view of a history for a model: turns kept exact, a summary of the rest made
      by bounded maintenance calls, reuse of checkpoints, digests. It uses [Summary].
    - [Conversation], [optimus/acp/conversation.py]: a session's turn records, the
      byte budget, admission, commit and shortening, the warning and the cost.
    - [Retention], [optimus/acp/session_retention.py]: bounded creation of sessions,
      leases on them, and their retirement by tasks; entries and leases are objects
      on a heap, and a history is a list of calls and task steps.
    - [Guardrails], [optimus/guardrails/{secret_paths,runtime_tree,validation,
      path_safety,permissions}.py]: the rules tool calls are judged by.
    - [McpTrust], [optimus/guardrails/mcp_trust.py]: manifests of MCP servers and the
      registry of approved ones.
    - [CommandSafety], [optimus/guardrails/command_safety.py]: the validator of shell
      commands: dangerous patterns, credential reads ([Guardrails]), egress, git
      bypasses, and commands nested in interpreter payloads ([validate_nested]).
    - [PreTool], [optimus/guardrails/{pre_tool,audit}.py]: the guard that composes
      [Guardrails], [CommandSafety] and [McpTrust], and its audit.
    - [Outbox], [optimus_security/durable_outbox.py]: append-only streams of framed
      lines: the reader ([scan_stream]) with damage, gaps and anchors, the writer
      ([append]) on a file system that may fail after any byte, acknowledgements and
      compaction.
    - [OutboxQueue], the same file's [OutboxWriter]: bounded admission with tickets and
      the thread that serves it, one step a turn.
    - [Capture], [optimus/usage/{durable_capture,capture_events}.py]: the epochs of
      turns and the records written about them. It is proved against the class
      [OutboxPort] with its laws; [OutboxQueue] is the instance.
    - [UsageContract], [optimus_security/usage_capture_contract.py]: what the Gateway
      accepts of those records, and the payloads and batches the host builds.
    - [Ledger], [optimus_gateway/usage_store.py]: the Gateway's tables; a parsed batch is
      one transaction ([ingest_batch]) that stores records in order, charges receipts
      once and certifies epochs from what is stored ([certify]).
    - [Drain], [optimus_security/outbox_drain.py] with the host's post
      ([optimus/usage/capture_delivery.py]), the Gateway's route for it and the Gateway's
      own send ([optimus_gateway/usage_capture.py]): batches, passes over streams
      ([deliver], [drain_once]), the backlog and its warnings.
    - [HostRecords]: what a [Capture] writes against what [UsageContract] accepts, and the
      batches [Drain] makes of it.
    - [Delivery]: what a pass of [Drain] achieves, against the class [SendLaws]; both sends
      are instances over [Ledger]. It joins [Outbox], [UsageContract], [Ledger] and
      [Drain].
    - [Admission], [optimus/acp/admission.py]: limits, accounts of what is in custody and
      reservations of it.
    - [Framing], [optimus/acp/framing.py]: messages behind a [Content-Length] header, read
      from a stream in pieces of any sizes.
    - [AcpSettlement], [optimus/acp/settlement.py]: classes of work, states and outcomes of
      sends, and what they mean for a turn.
    - [TurnControl], [optimus/acp/lifecycle.py]: the control of one turn: which operations
      and sends may start, cancellation, teardown of the transport, the one finalization.
    - [OutboundWriter], [optimus/acp/outbound_writer.py]: the bounded queue of messages and
      the thread that writes them, in any interleaving with the other threads. It uses
      [Admission] and is proved against the class [SendOwner] with its laws.
    - [TurnSends]: [TurnControl] as an instance of [SendOwner], and the two together.

    * How the code is translated

    - A Python [str] is the [string] of its UTF-8 bytes; slices and lengths in
      characters go through [code_points]. A [Decimal] amount is an integer number
      of a fixed quantum ([amount]), a time an integer ([timestamp]).
    - A function that may raise returns [res E A]; code with state is [eff S E A],
      which keeps the state also when it raises. Dictionaries are [odict] where
      their order matters and [gmap] elsewhere.
    - Callbacks, clocks, SHA-256, sanitizers, scanners and the file system's path
      resolution are parameters: functions that may answer anything, or what the
      theorem's hypotheses say of them. Calls that a lock or the event loop makes
      atomic are single steps, and theorems quantify over all sequences of steps.
    - Loops with a data-dependent number of turns have fuel: [Loops.run],
      [Retry.retry_run] and [Gates.gated_run] (the policy's number of turns, at
      least one), [ContextEngine.plan_loop] (the number of turns to summarize, each
      chunk takes one), [Conversation.shorten_search] (the length of the text, the
      search halves its range), [CommandSafety.validate_nested] (one more than the
      bytes of the command, a payload has fewer than its command),
      [JsonLoads.json_loads] (twice the bytes of the text, one for each value and
      each list it opens), [Framing.read_header] (one more than
      the header's limit, each turn reads one byte), [Framing.read_body] (the bytes the
      header announces, each turn reads at least one),
      [OutboundWriter.get_loop] (the length of the schedule) and [OutboundWriter.run] (one
      more than the calls in it, each submits at most one message). In each case the
      stated fuel is shown to be enough; running out of it is [None], except for
      [plan_loop], whose result is then the empty plan, and for [get_loop], where it
      means that nothing is left to come.
    - A segment of an outbox is found by the order of its name, six digits: theorems
      about streams are for writers that opened fewer than a million segments
      ([Outbox.few_segments]).

    * What the theorems show

    - Safety of changes: [mutation_guard_exact], [transition_refines_edges],
      [approval_expiry] (Runtime); [gated_mutation_atomic], [failing_gate_blocks],
      [gated_retry_exact] (Gates).
    - Safety of tool calls: [guard_allow_sound], [audit_complete] (PreTool);
      [command_allow_exact] (CommandSafety); [secret_path_exact],
      [approval_monotone] (Guardrails); [mcp_trust_exact] (McpTrust).
    - Loops that end and are told apart from progress: [goal_loop_terminates],
      [goal_loop_accounting] (Loops); [retry_run_exact] (Retry);
      [read_novelty_exact], [detector_unbounded], [polling_never_fires] (Signals).
    - Costs: [settlement_exactly_once], [settlement_order_independent],
      [settlement_complete_exact], [publications_current] (Settlement);
      [conversation_cost_exact] (Conversation).
    - What is kept and shown: [context_view_sound], [context_maintenance_bounded],
      [newest_suffix_optimal], [checkpoint_reuse_exact], [history_digest_binding]
      (ContextEngine); [summary_block_contained] (Summary);
      [committed_result_fits], [admission_exact], [renderings_same_length]
      (Conversation).
    - Sessions: [sessions_bounded], [retirement_waits_for_uses],
      [slot_freed_only_when_clean] (Retention).
    - Durable usage: [outbox_scan_exact] (Outbox); [queue_drains], [queue_durable]
      (OutboxQueue); [capture_epochs_sound], [host_complete_sound],
      [identity_parts_complete] (Capture); [captured_batch_accepted] (UsageContract);
      [ledger_stream_exact], [ledger_charges_once], [complete_epochs_covered] (Ledger);
      [host_payload_accepted], [drained_batches_accepted] (HostRecords): what a stream
      holds is what was confirmed, the contract accepts it, and the ledger stores it
      once and in order. [host_delivery_exact] (Delivery) shows that passes of the drain
      deliver a stream exactly once, given that each pass's scan shows the stream's
      remaining records and that acknowledgements are written whole or not at all.
    - Messages: [reservations_exact] (Admission); [framing_round_trip], [framing_bounded]
      (Framing); [turn_settlement_exact], [commit_needs_flush], [halt_is_final],
      [teardown_honest] (TurnControl); [writer_settles_everything] (OutboundWriter);
      [committed_turn_is_on_the_wire] (TurnSends): every message ends, what is reported
      of it is true, and a turn is committed only if it reached the client.

    Some examples show faults: [Outbox.compaction_loses_records], that compaction may
    delete the gap that explains an earlier damage;
    [Ledger.straggler_intent_unnoticed], that an intent stored behind the close of its
    epoch goes unnoticed; [Delivery.compaction_races_writer], that a pass can delete a
    confirmed record its scan did not see; [Delivery.torn_ack_lost], that an
    acknowledgement after a torn one is lost; [Gates.rollback_loses_replaced_file], why
    the atomicity of a mutation needs that no changed path lies below another, and
    [CommandSafety.payload_list_allowed], that the allowlist judges a payload by its
    first words. [OutboxQueue.unencodable_payload_stops_thread] shows that a payload JSON
    cannot encode ends the writer's thread, and [HostRecords.host_payload_accepted] that
    the end of a stream with more than 256 open epochs is written and then refused.

    * What is not modelled

    The network and file-policy validators (the former a parameter of
    [CommandSafety] and [PreTool]), the sanitizer, the ACP dispatcher and the handles of
    responses, warnings and permissions beside the turn control, the tool registry and
    the Gateway's tools are the next parts to model, the network validator and the tool
    registry first. The Gateway service, the MCP clients, Redis, telemetry, process
    supervision and prompt texts are I/O and glue and stay out.
    Inside the modelled files, what is left out is said at the head of each file:
    diagnostics, symbolic links and file modes, Windows path rules, rounding of
    [Decimal] to 28 digits, strings with lone surrogates. *)
From stdpp Require Export prelude gmap strings.
From Stdlib Require Export ZArith Lia.

(** * Results of fallible code

    Python code that may raise is a function into [res E A]: [Ok a] is a normal
    return and [Err e] a raised exception, [E] being the component's own type of
    exceptions. *)

Inductive res (E A : Type) : Type :=
| Ok (a : A)
| Err (e : E).
Arguments Ok {E A} a.
Arguments Err {E A} e.

Definition res_bind {E A B : Type} (r : res E A) (k : A → res E B) : res E B :=
  match r with
  | Ok a => k a
  | Err e => Err e
  end.

Definition res_map {E A B : Type} (f : A → B) (r : res E A) : res E B :=
  res_bind r (λ a, Ok (f a)).

#[export] Instance res_fmap {E} : FMap (res E) := λ A B f r, res_map f r.

(** [raise_if b e] is the statement [if b: raise e]. *)
Definition raise_if {E : Type} (b : bool) (e : E) : res E unit :=
  if b then Err e else Ok tt.

Definition is_ok {E A : Type} (r : res E A) : bool :=
  match r with Ok _ => true | Err _ => false end.

Declare Scope optimus_scope.
Delimit Scope optimus_scope with optimus.
Notation "'let*' x ':=' e 'in' k" := (res_bind e (λ x, k))
  (at level 10, x name, e at level 100, k at level 200) : optimus_scope.
Notation "e ';;*' k" := (res_bind e (λ _, k))
  (at level 100, right associativity) : optimus_scope.
Open Scope optimus_scope.

Lemma res_bind_ok {E A B} (r : res E A) (k : A → res E B) b :
  res_bind r k = Ok b ↔ ∃ a, r = Ok a ∧ k a = Ok b.
Proof. destruct r; simpl; naive_solver. Qed.

Lemma res_bind_err {E A B} (r : res E A) (k : A → res E B) e :
  res_bind r k = Err e ↔ r = Err e ∨ ∃ a, r = Ok a ∧ k a = Err e.
Proof. destruct r; simpl; naive_solver. Qed.

Lemma raise_if_ok {E} (b : bool) (e : E) u :
  raise_if b e = Ok u ↔ b = false.
Proof. destruct b, u; simpl; naive_solver. Qed.

Lemma raise_if_err {E} (b : bool) (e e' : E) :
  raise_if b e = Err e' ↔ b = true ∧ e = e'.
Proof. destruct b; simpl; naive_solver. Qed.

(** * Tactics *)

(** [inv_res] turns every hypothesis saying that a sequence of fallible steps
    returned into the facts that each step returned. *)
Ltac inv_res :=
  repeat match goal with
  | H : Ok _ = Ok _ |- _ => injection H as H; try subst
  | H : Err _ = Err _ |- _ => injection H as H; try subst
  | H : Ok _ = Err _ |- _ => discriminate H
  | H : Err _ = Ok _ |- _ => discriminate H
  | H : res_bind _ _ = Ok _ |- _ =>
      apply res_bind_ok in H; destruct H as (? & ? & H)
  | H : raise_if _ _ = Ok _ |- _ => apply raise_if_ok in H
  | H : raise_if _ _ = Err _ |- _ => apply raise_if_err in H; destruct H as [? ?]
  end.

(** [split_ifs] cases on every test of the goal and the hypotheses, and drops
    the branches whose equations are absurd. *)
Ltac split_ifs :=
  repeat (case_match; simplify_eq/=; try done).

(** Boolean tests as propositions. *)
Ltac bool_to_prop :=
  repeat match goal with
  | H : _ && _ = true |- _ => apply andb_true_iff in H; destruct H
  | H : _ || _ = false |- _ => apply orb_false_iff in H; destruct H
  | H : negb _ = true |- _ => apply negb_true_iff in H
  | H : negb _ = false |- _ => apply negb_false_iff in H
  | H : bool_decide _ = true |- _ => apply bool_decide_eq_true_1 in H
  | H : bool_decide _ = false |- _ => apply bool_decide_eq_false_1 in H
  | H : (_ <? _)%Z = true |- _ => apply Z.ltb_lt in H
  | H : (_ <? _)%Z = false |- _ => apply Z.ltb_ge in H
  | H : (_ <=? _)%Z = true |- _ => apply Z.leb_le in H
  | H : (_ <=? _)%Z = false |- _ => apply Z.leb_gt in H
  | H : (_ =? _)%Z = true |- _ => apply Z.eqb_eq in H
  | H : (_ =? _)%Z = false |- _ => apply Z.eqb_neq in H
  end.

(** * Insertion-ordered dictionaries

    A Python [dict] keeps its keys in insertion order and assigning to a present
    key keeps the key's place. [odict] is used where the order is observable;
    elsewhere a dictionary is a [gmap]. *)

Abbreviation odict K V := (list (K * V)).

Section odict.
Context {K V : Type} `{EqDecision K}.
Implicit Types d : odict K V.

Fixpoint od_get (k : K) (d : odict K V) : option V :=
  match d with
  | [] => None
  | (k', v) :: d' => if decide (k = k') then Some v else od_get k d'
  end.

Fixpoint od_set (k : K) (v : V) (d : odict K V) : odict K V :=
  match d with
  | [] => [(k, v)]
  | (k', v') :: d' => if decide (k = k') then (k, v) :: d' else (k', v') :: od_set k v d'
  end.

Fixpoint od_del (k : K) (d : odict K V) : odict K V :=
  match d with
  | [] => []
  | (k', v') :: d' => if decide (k = k') then d' else (k', v') :: od_del k d'
  end.

Definition od_keys (d : odict K V) : list K := fst <$> d.
Definition od_values (d : odict K V) : list V := snd <$> d.
Definition od_mem (k : K) (d : odict K V) : bool := bool_decide (is_Some (od_get k d)).

Lemma od_get_set_eq k v d : od_get k (od_set k v d) = Some v.
Proof.
  induction d as [|[k' v'] d IH]; simpl; [by rewrite decide_True|].
  destruct (decide (k = k')); simpl; [by rewrite decide_True|].
  by rewrite decide_False.
Qed.

Lemma od_get_set_ne k k' v d : k ≠ k' → od_get k (od_set k' v d) = od_get k d.
Proof.
  intros Hne. induction d as [|[k0 v0] d IH]; simpl; [by rewrite decide_False|].
  destruct (decide (k' = k0)) as [<-|]; simpl; [by rewrite !decide_False|].
  by destruct (decide (k = k0)).
Qed.

Lemma od_get_None k d : od_get k d = None ↔ k ∉ od_keys d.
Proof.
  induction d as [|[k' v] d IH]; simpl; [set_solver|].
  destruct (decide (k = k')); set_solver.
Qed.

Lemma od_get_Some_in k v d : od_get k d = Some v → (k, v) ∈ d.
Proof.
  induction d as [|[k' v'] d IH]; simpl; [done|].
  destruct (decide (k = k')); set_solver.
Qed.

Lemma od_in_get k v d : NoDup (od_keys d) → (k, v) ∈ d → od_get k d = Some v.
Proof.
  induction d as [|[k' v'] d IH]; simpl; [set_solver|].
  intros [Hn Hd]%NoDup_cons Hin. apply elem_of_cons in Hin as [?|Hin].
  - simplify_eq. by rewrite decide_True.
  - rewrite decide_False; [auto|]. intros ->. apply Hn.
    apply list_elem_of_fmap. by exists (k', v).
Qed.

Lemma od_set_fresh k v d : od_get k d = None → od_set k v d = d ++ [(k, v)].
Proof.
  induction d as [|[k' v'] d IH]; simpl; [done|].
  destruct (decide (k = k')); [done|]. intros ?. by rewrite IH.
Qed.

Lemma od_keys_set k v d :
  od_keys (od_set k v d) = if od_mem k d then od_keys d else od_keys d ++ [k].
Proof.
  unfold od_mem. induction d as [|[k' v'] d IH]; simpl; [done|].
  destruct (decide (k = k')) as [<-|]; simpl; [done|].
  rewrite IH. by destruct (od_get k d).
Qed.

Lemma od_set_nodup k v d : NoDup (od_keys d) → NoDup (od_keys (od_set k v d)).
Proof.
  intros Hd. rewrite od_keys_set. unfold od_mem.
  destruct (od_get k d) eqn:Hg; simpl; [done|].
  apply NoDup_app. apply od_get_None in Hg.
  split_and!; [done|set_solver|apply NoDup_singleton].
Qed.

Lemma od_keys_del_sub k d : od_keys (od_del k d) ⊆ od_keys d.
Proof.
  induction d as [|[k' v'] d IH]; simpl; [done|].
  destruct (decide (k = k')); set_solver.
Qed.

Lemma od_del_nodup k d : NoDup (od_keys d) → NoDup (od_keys (od_del k d)).
Proof.
  induction d as [|[k' v'] d IH]; simpl; [done|].
  intros [Hn Hd]%NoDup_cons. destruct (decide (k = k')); [done|].
  apply NoDup_cons. split; [|auto]. intros Hin. by apply Hn, (od_keys_del_sub k).
Qed.

Lemma od_get_del_eq k d : NoDup (od_keys d) → od_get k (od_del k d) = None.
Proof.
  induction d as [|[k' v'] d IH]; simpl; [done|].
  intros [Hn Hd]%NoDup_cons. destruct (decide (k = k')) as [<-|]; simpl.
  - by apply od_get_None.
  - rewrite decide_False by done. auto.
Qed.

Lemma od_get_del_ne k k' d : k ≠ k' → od_get k (od_del k' d) = od_get k d.
Proof.
  intros Hne. induction d as [|[k0 v0] d IH]; simpl; [done|].
  destruct (decide (k' = k0)) as [<-|]; simpl; [by rewrite decide_False|].
  by destruct (decide (k = k0)).
Qed.
End odict.

(** * Sums of integers *)

(** [sumZ] is Python's [sum] of integers or of decimal amounts. *)
Definition sumZ (l : list Z) : Z := foldr Z.add 0%Z l.

Lemma sumZ_cons x l : sumZ (x :: l) = (x + sumZ l)%Z.
Proof. done. Qed.

Lemma sumZ_app l1 l2 : sumZ (l1 ++ l2) = (sumZ l1 + sumZ l2)%Z.
Proof. induction l1; simpl; lia. Qed.

Lemma sumZ_nonneg l : Forall (λ x, 0 ≤ x)%Z l → (0 ≤ sumZ l)%Z.
Proof. induction 1; simpl; lia. Qed.

#[export] Instance sumZ_proper : Proper (Permutation ==> eq) sumZ.
Proof. intros l1 l2. induction 1; simpl; lia. Qed.

Lemma sumZ_fold_left l z : fold_left Z.add l z = (z + sumZ l)%Z.
Proof. revert z. induction l as [|x l IH]; intros z; simpl; [lia|]. rewrite IH. lia. Qed.

(** * List slices *)

(** [l[-n:]] for a positive [n]. *)
Definition last_n {A} (n : nat) (l : list A) : list A := drop (length l - n) l.

Lemma last_n_length {A} n (l : list A) : length (last_n n l) = Nat.min n (length l).
Proof. unfold last_n. rewrite length_drop. lia. Qed.

Lemma last_n_app {A} n (l k : list A) : length k = n → last_n n (l ++ k) = k.
Proof.
  intros <-. unfold last_n. rewrite length_app.
  replace (length l + length k - length k) with (length l) by lia.
  apply drop_app_length.
Qed.

(** * Counting *)

Lemma filter_insert_length {A} (P : A → Prop) `{∀ x, Decision (P x)} (l : list A) i x y :
  l !! i = Some y →
  (length (filter P (<[i := x]> l)) + (if decide (P y) then 1 else 0) =
   length (filter P l) + (if decide (P x) then 1 else 0))%nat.
Proof.
  revert i. induction l as [|z l IH]; intros [|i] Hi; simplify_eq/=.
  - rewrite !filter_cons. repeat case_decide; simpl; lia.
  - specialize (IH i Hi). rewrite !filter_cons. destruct (decide (P z)); simpl; lia.
Qed.

Lemma filter_nil_iff {A} (P : A → Prop) `{∀ x, Decision (P x)} (l : list A) :
  filter P l = [] ↔ ∀ x, x ∈ l → ¬ P x.
Proof.
  induction l as [|y l IH]; simpl; [split; [set_solver|done]|].
  rewrite filter_cons. setoid_rewrite elem_of_cons. case_decide as Hd.
  - split; [done|]. intros Hn. by destruct (Hn y (or_introl eq_refl)).
  - rewrite IH. split; [intros Hn x [->|?]; auto|auto].
Qed.

Lemma fmap_nil_iff {A B} (f : A → B) (l : list A) : f <$> l = [] ↔ l = [].
Proof. by destruct l. Qed.

Lemma length_zero {A} (l : list A) : Z.of_nat (length l) = 0%Z ↔ l = [].
Proof. destruct l; simpl; [done|]. split; [lia|done]. Qed.

Create HintDb optimus.
#[export] Hint Resolve od_set_nodup od_del_nodup sumZ_nonneg : optimus.

(** * Effects

    Code that reads and changes state and may raise is a function from the state
    to its result and the state it leaves, which it leaves also when it raises. *)

Definition eff (S E A : Type) : Type := S → res E A * S.

Definition eff_ret {S E A} (a : A) : eff S E A := λ s, (Ok a, s).
Definition eff_raise {S E A} (e : E) : eff S E A := λ s, (Err e, s).
Definition eff_bind {S E A B} (c : eff S E A) (k : A → eff S E B) : eff S E B :=
  λ s, match c s with
       | (Ok a, s') => k a s'
       | (Err e, s') => (Err e, s')
       end.

Notation "'let!' x ':=' c 'in' k" := (eff_bind c (λ x, k))
  (at level 10, x name, c at level 100, k at level 200) : optimus_scope.
Notation "c ';;!' k" := (eff_bind c (λ _, k))
  (at level 100, right associativity) : optimus_scope.

Lemma eff_bind_eq {S E A B} (c : eff S E A) (k : A → eff S E B) s r s' :
  eff_bind c k s = (r, s') ↔
  (∃ a s1, c s = (Ok a, s1) ∧ k a s1 = (r, s')) ∨
  (∃ e, c s = (Err e, s') ∧ r = Err e).
Proof. unfold eff_bind. destruct (c s) as [[a|e] s1]; naive_solver. Qed.

(** [run_eff] names the intermediate state of every step of a sequence of
    effects that is known to have run. *)
Ltac run_eff :=
  repeat match goal with
  | H : eff_bind _ _ _ = (_, _) |- _ =>
      apply eff_bind_eq in H;
      destruct H as [(? & ? & ? & H)|(? & ? & ?)]; simplify_eq/=
  | H : eff_ret _ _ = (_, _) |- _ => unfold eff_ret in H; simplify_eq/=
  | H : eff_raise _ _ = (_, _) |- _ => unfold eff_raise in H; simplify_eq/=
  end.

(** * Amounts

    A cost is a Python [Decimal]. It is modelled by the integer number of a fixed
    decimal quantum, small enough for every amount in play, so that addition and
    comparison are exact; the rounding of a [Decimal] context to 28 significant
    digits is not modelled, nor are the non-finite decimals, which the code's own
    validation refuses. *)
Abbreviation amount := Z.

(** A point in time, in microseconds. *)
Abbreviation timestamp := Z.

Lemma existsb_false {A} (p : A → bool) (l : list A) : existsb p l = false ↔ ∀ x, x ∈ l → p x = false.
Proof.
  rewrite <- not_true_iff_false, existsb_exists. setoid_rewrite <- list_elem_of_In. split.
  - intros H x Hx. apply not_true_iff_false. eauto.
  - intros H (x & Hx & Hp). rewrite (H x Hx) in Hp. done.
Qed.
