(* ===== verification/Text.v ===== *)
(** Text: the parts of Python's [str] and [pathlib] that the modelled code uses.

    A Python [str] is modelled by its UTF-8 bytes, a Rocq [string]. Strings with
    lone surrogates, which have no UTF-8 encoding, are outside the model. With
    this representation [len(s.encode("utf-8"))] is [String.length s],
    concatenation is [+:+], and tests against ASCII text are byte tests. *)
From Stdlib Require Ascii.
Import (notations) Ascii.
From S2P Require Import Prelude.

Local Open Scope string_scope.

(** * Substrings *)

Fixpoint starts_with (p s : string) : bool :=
  match p, s with
  | EmptyString, _ => true
  | String a p', String b s' => Ascii.eqb a b && starts_with p' s'
  | String _ _, EmptyString => false
  end.

Fixpoint contains (needle s : string) : bool :=
  starts_with needle s ||
  match s with
  | EmptyString => false
  | String _ s' => contains needle s'
  end.

Fixpoint ends_with (suffix s : string) : bool :=
  String.eqb suffix s ||
  match s with
  | EmptyString => false
  | String _ s' => ends_with suffix s'
  end.

(** [s.replace(a, b)] for one-character [a] and [b]. *)
Fixpoint replace_char (a b : Ascii.ascii) (s : string) : string :=
  match s with
  | EmptyString => EmptyString
  | String c s' => String (if Ascii.eqb c a then b else c) (replace_char a b s')
  end.

(** [s.split(sep)] for a one-character [sep]: never the empty list. *)
Fixpoint split_char (sep : Ascii.ascii) (s : string) : list string :=
  match s with
  | EmptyString => [""]
  | String c s' =>
      if Ascii.eqb c sep then "" :: split_char sep s'
      else match split_char sep s' with
           | [] => [String c ""]
           | w :: ws => String c w :: ws
           end
  end.

(** [sep.join(l)]. *)
Fixpoint join (sep : string) (l : list string) : string :=
  match l with
  | [] => ""
  | [w] => w
  | w :: ws => w +:+ sep +:+ join sep ws
  end.

(** * Case folding

    [str.lower] on ASCII letters, and on the two other characters whose lower
    case contains an ASCII letter: U+212A KELVIN SIGN (bytes E2 84 AA) gives
    k, and U+0130 (bytes C4 B0) gives i followed by U+0307 (bytes CC 87). Every
    other non-ASCII character lowers to non-ASCII text and is left as it is, so
    a comparison of the result with ASCII text agrees with Python's. *)
Definition lower_ascii (c : Ascii.ascii) : Ascii.ascii :=
  let n := Ascii.nat_of_ascii c in
  if ((65 <=? n) && (n <=? 90))%nat then Ascii.ascii_of_nat (n + 32) else c.

Fixpoint lower (s : string) : string :=
  match s with
  | EmptyString => EmptyString
  | String c s1 =>
      let rest := String (lower_ascii c) (lower s1) in
      match s1 with
      | EmptyString => rest
      | String c2 s2 =>
          if Ascii.eqb c "196" && Ascii.eqb c2 "176"
          then String "i" (String "204" (String "135" (lower s2)))
          else match s2 with
          | EmptyString => rest
          | String c3 s3 =>
              if Ascii.eqb c "226" && Ascii.eqb c2 "132" && Ascii.eqb c3 "170"
              then String "k" (lower s3) else rest
          end
      end
  end%char.

(** * Pure POSIX paths *)

(** The root of a POSIX path: two leading slashes, and only two, are kept. *)
Definition posix_root (path : string) : list string :=
  if starts_with "//" path && negb (starts_with "///" path) then ["//"]
  else if starts_with "/" path then ["/"] else [].

(** [PurePosixPath(path).parts]: the root, then the components that are neither
    empty nor a dot. *)
Definition posix_parts (path : string) : list string :=
  posix_root path ++
  filter (λ w, w ≠ "" ∧ w ≠ ".") (split_char "/" path).

(** [PurePosixPath(path).as_posix()]. *)
Definition as_posix (path : string) : string :=
  let tail := join "/" (filter (λ w, w ≠ "" ∧ w ≠ ".") (split_char "/" path)) in
  match posix_root path with
  | [] => if decide (tail = "") then "." else tail
  | root :: _ => root +:+ tail
  end.

(** [PurePosixPath(path.replace("\\", "/"))]: both separator styles. *)
Definition normalize_separators (path : string) : string :=
  replace_char "092" "/" path.

(** [c in s] for one character. *)
Fixpoint has_char (c : Ascii.ascii) (s : string) : bool :=
  match s with EmptyString => false | String c' s' => Ascii.eqb c' c || has_char c s' end.

(** * Characters

    The characters (code points) of a string are the groups of a byte and the
    continuation bytes (10xxxxxx) that follow it. *)
Definition continuation (c : Ascii.ascii) : bool :=
  let n := Ascii.nat_of_ascii c in ((128 <=? n) && (n <? 192))%nat.

Fixpoint code_points (s : string) : list string :=
  match s with
  | EmptyString => []
  | String c s' =>
      match code_points s' with
      | (String c' _ as w) :: ws => if continuation c' then String c w :: ws else String c "" :: w :: ws
      | ws => String c "" :: ws
      end
  end.

(** [len(s)] and [s[:n]]. *)
Definition py_len (s : string) : nat := length (code_points s).
Fixpoint concat_all (l : list string) : string :=
  match l with [] => "" | w :: ws => w +:+ concat_all ws end.
Definition py_prefix (n : nat) (s : string) : string := concat_all (take n (code_points s)).

(** * Lemmas *)

Lemma string_length_app s1 s2 :
  String.length (s1 +:+ s2) = (String.length s1 + String.length s2)%nat.
Proof. induction s1; simpl; [done|]. by rewrite IHs1. Qed.

Lemma string_app_nil (s : string) : s +:+ "" = s.
Proof. induction s as [|c s IH]; [done|]. change (String c (s +:+ "") = String c s). by rewrite IH. Qed.

Lemma string_app_assoc (a b c : string) : (a +:+ b) +:+ c = a +:+ b +:+ c.
Proof.
  induction a as [|x a IH]; [done|].
  change (String x ((a +:+ b) +:+ c) = String x (a +:+ b +:+ c)). by rewrite IH.
Qed.

Lemma concat_all_app l k : concat_all (l ++ k) = concat_all l +:+ concat_all k.
Proof. induction l as [|w l IH]; simpl; [done|]. by rewrite IH, string_app_assoc. Qed.

Lemma code_points_concat s : concat_all (code_points s) = s.
Proof.
  assert (∀ c a b, String c a +:+ b = String c (a +:+ b)) as Hc by done.
  induction s as [|c s IH]; simpl; [done|].
  destruct (code_points s) as [|[|c' w] ws]; simpl in *; rewrite ?Hc in *; [by rewrite <- IH..|].
  destruct (continuation c'); simpl; rewrite ?Hc; by rewrite <- IH.
Qed.

(** A prefix is a prefix: the longer of two extends the shorter. *)
Lemma py_prefix_extends m n s : (m ≤ n)%nat → ∃ rest, py_prefix n s = py_prefix m s +:+ rest.
Proof.
  intros Hle. unfold py_prefix. exists (concat_all (drop m (take n (code_points s)))).
  rewrite <- concat_all_app. f_equal.
  rewrite <- (take_drop m (take n (code_points s))) at 1. f_equal.
  rewrite take_take. f_equal. lia.
Qed.

Lemma split_char_nonempty sep s : split_char sep s ≠ [].
Proof.
  induction s as [|c s IH]; simpl; [done|].
  destruct (Ascii.eqb c sep); [done|]. by destruct (split_char sep s).
Qed.

Lemma split_char_app sep s1 s2 :
  split_char sep (s1 +:+ String sep s2) = (split_char sep s1 ++ split_char sep s2)%list.
Proof.
  induction s1 as [|c s1 IH]; simpl.
  - by rewrite Ascii.eqb_refl.
  - rewrite IH. destruct (Ascii.eqb c sep); [done|].
    by destruct (split_char sep s1) eqn:E; [by apply split_char_nonempty in E|].
Qed.

(** ** Splitting and joining *)

Lemma has_char_app c a b : has_char c (a +:+ b) = has_char c a || has_char c b.
Proof.
  induction a as [|x a IH]; [done|]. change (String x a +:+ b) with (String x (a +:+ b)).
  simpl. by rewrite IH, orb_assoc.
Qed.

Lemma split_char_single sep s : has_char sep s = false → split_char sep s = [s].
Proof.
  induction s as [|c s IH]; [done|]. cbn [has_char split_char]. intros [Hc Hs]%orb_false_iff.
  by rewrite Hc, (IH Hs).
Qed.

Lemma split_char_no_sep sep s : Forall (λ w, has_char sep w = false) (split_char sep s).
Proof.
  induction s as [|c s IH]; [by repeat constructor|]. cbn [split_char].
  destruct (Ascii.eqb c sep) eqn:Hc; [by constructor|].
  destruct (split_char sep s) as [|w ws]; [constructor; [|done]|inversion IH; subst; constructor; [|done]];
    cbn [has_char]; rewrite Hc; done.
Qed.

Lemma join_cons sep w w' ws : join sep (w :: w' :: ws) = w +:+ sep +:+ join sep (w' :: ws).
Proof. done. Qed.

Lemma split_char_join sep l :
  l ≠ [] → Forall (λ w, has_char sep w = false) l → split_char sep (join (String sep "") l) = l.
Proof.
  intros Hne Hl. induction Hl as [|w l Hw Hl IH]; [done|]. destruct l as [|w' l].
  - by apply split_char_single.
  - rewrite join_cons. change (String sep "" +:+ join (String sep "") (w' :: l))
      with (String sep (join (String sep "") (w' :: l))).
    rewrite split_char_app, split_char_single, IH by done. done.
Qed.

(** A string has no separator, or a first one. *)
Lemma first_sep sep s :
  has_char sep s = false ∨
  ∃ a b, s = a +:+ String sep b ∧ has_char sep a = false ∧ (String.length b < String.length s)%nat.
Proof.
  induction s as [|c s IH]; [by left|]. cbn [has_char]. destruct (Ascii.eqb_spec c sep) as [->|Hc].
  - right. exists "", s. split_and!; [done|done|simpl; lia].
  - destruct IH as [IH|(a & b & -> & Ha & Hl)]; [by left|right].
    exists (String c a), b. split_and!; [done| |simpl; lia]. cbn [has_char].
    by rewrite (proj2 (Ascii.eqb_neq _ _) Hc), Ha.
Qed.

(** ** Case folding and separators *)

(** [lower], one character at a time. *)
Lemma lower_ind (P : string → string → Prop) :
  P "" "" →
  (∀ c s, P s (lower s) → lower (String c s) = String (lower_ascii c) (lower s) →
          P (String c s) (String (lower_ascii c) (lower s))) →
  (∀ s, P s (lower s) →
        P (String "196" (String "176" s)) (String "i" (String "204" (String "135" (lower s))))) →
  (∀ s, P s (lower s) → P (String "226" (String "132" (String "170" s))) (String "k" (lower s))) →
  ∀ s, P s (lower s).
Proof.
  intros H0 H1 H2 H3 s. remember (String.length s) as n eqn:Hn.
  assert (String.length s ≤ n)%nat as Hle by lia. clear Hn. revert s Hle.
  induction n as [|n IH]; intros [|c s1] Hle; try done; simpl in Hle; [lia|].
  assert (P s1 (lower s1)) as Hs1 by (apply IH; lia).
  destruct s1 as [|c2 s2]; [by apply (H1 c "")|].
  destruct (Ascii.eqb c "196" && Ascii.eqb c2 "176") eqn:E1.
  { apply andb_true_iff in E1 as [->%Ascii.eqb_eq ->%Ascii.eqb_eq].
    apply H2, IH. simpl in Hle. lia. }
  destruct s2 as [|c3 s3].
  { specialize (H1 c _ Hs1). cbn [lower] in *. rewrite E1 in *. by apply H1. }
  destruct (Ascii.eqb c "226" && Ascii.eqb c2 "132" && Ascii.eqb c3 "170") eqn:E2.
  { apply andb_true_iff in E2 as [E2 ->%Ascii.eqb_eq].
    apply andb_true_iff in E2 as [->%Ascii.eqb_eq ->%Ascii.eqb_eq]. apply H3, IH. simpl in Hle. lia. }
  assert (lower (String c (String c2 (String c3 s3))) =
          String (lower_ascii c) (lower (String c2 (String c3 s3)))) as E.
  { remember (String c2 (String c3 s3)) as s1 eqn:Es. cbn [lower]. rewrite Es, E1, E2. done. }
  rewrite E. by apply H1.
Qed.

Lemma lower_ascii_slash c : Ascii.eqb (lower_ascii c) "/" = Ascii.eqb c "/".
Proof. by destruct c as [[] [] [] [] [] [] [] []]. Qed.

Lemma lower_has_slash s : has_char "/" (lower s) = has_char "/" s.
Proof.
  apply (lower_ind (λ s l, has_char "/" l = has_char "/" s)); [done|..].
  - intros c s' IH _. cbn [has_char]. by rewrite lower_ascii_slash, IH.
  - intros s' IH. cbn [has_char]. by rewrite IH.
  - intros s' IH. cbn [has_char]. by rewrite IH.
Qed.

Lemma lower_slash b : lower (String "/" b) = String "/" (lower b).
Proof. by destruct b as [|c2 [|c3 b]]. Qed.

(** One character before a slash is lowered on its own. *)
Lemma lower_head_slash c s b :
  lower (String c s) = String (lower_ascii c) (lower s) →
  lower (String c (s +:+ String "/" b)) = String (lower_ascii c) (lower (s +:+ String "/" b)).
Proof.
  intros E. destruct s as [|c2 [|c3 s]].
  - change ("" +:+ String "/" b) with (String "/" b).
    remember (String "/" b) as s1 eqn:Es. cbn [lower]. rewrite Es.
    change (Ascii.eqb "/" "176") with false. change (Ascii.eqb "/" "132") with false.
    rewrite !andb_false_r. by destruct b.
  - change (String c2 "" +:+ String "/" b) with (String c2 (String "/" b)).
    remember (String c2 (String "/" b)) as s1 eqn:Es. cbn [lower] in E |- *. rewrite Es.
    destruct (Ascii.eqb c "196" && Ascii.eqb c2 "176") eqn:E1.
    { apply andb_true_iff in E1 as [->%Ascii.eqb_eq _]. by vm_compute in E. }
    change (Ascii.eqb "/" "170") with false. by rewrite andb_false_r.
  - change (String c2 (String c3 s) +:+ String "/" b) with (String c2 (String c3 (s +:+ String "/" b))).
    remember (String c2 (String c3 (s +:+ String "/" b))) as s1 eqn:Es.
    remember (String c2 (String c3 s)) as s2 eqn:Es2. cbn [lower] in E |- *. rewrite Es. rewrite Es2 in E.
    destruct (Ascii.eqb c "196" && Ascii.eqb c2 "176") eqn:E1.
    { apply andb_true_iff in E1 as [->%Ascii.eqb_eq _]. discriminate E. }
    destruct (Ascii.eqb c "226" && Ascii.eqb c2 "132" && Ascii.eqb c3 "170") eqn:E2; [|done].
    apply andb_true_iff in E2 as [[->%Ascii.eqb_eq _]%andb_true_iff _]. discriminate E.
Qed.

Lemma lower_app_slash a b : lower (a +:+ String "/" b) = lower a +:+ String "/" (lower b).
Proof.
  apply (lower_ind (λ a l, lower (a +:+ String "/" b) = l +:+ String "/" (lower b))).
  - apply lower_slash.
  - intros c s IH E.
    change (String c s +:+ String "/" b) with (String c (s +:+ String "/" b)).
    by rewrite lower_head_slash, IH.
  - intros s IH. change (String "i" (String "204" (String "135" (lower (s +:+ String "/" b)))) =
      String "i" (String "204" (String "135" (lower s +:+ String "/" (lower b))))).
    by rewrite IH.
  - intros s IH. change (String "k" (lower (s +:+ String "/" b)) =
      String "k" (lower s +:+ String "/" (lower b))).
    by rewrite IH.
Qed.

Lemma split_lower s : split_char "/" (lower s) = lower <$> split_char "/" s.
Proof.
  remember (String.length s) as n eqn:Hn. revert s Hn.
  induction (lt_wf n) as [n _ IH]. intros s ->.
  destruct (first_sep "/" s) as [Hs|(a & b & E & Ha & Hlt)].
  - rewrite (split_char_single _ s Hs), split_char_single; [done|]. by rewrite lower_has_slash.
  - rewrite E, lower_app_slash, !split_char_app, fmap_app. rewrite (split_char_single _ a Ha).
    rewrite split_char_single by (by rewrite lower_has_slash). f_equal. by apply (IH (String.length b)).
Qed.

Example posix_parts_examples :
  posix_parts "src//./a.py" = ["src"; "a.py"] ∧ posix_parts "/etc/x" = ["/"; "etc"; "x"] ∧
  posix_parts "." = [] ∧ as_posix "" = "." ∧ as_posix "a/./b/" = "a/b" ∧
  as_posix (normalize_separators "a\b") = "a/b" ∧ lower "Id_RSA" = "id_rsa".
Proof. vm_compute. done. Qed.
