(* ===== verification/Json.v ===== *)
(** Text as Python's [json] and [str.strip] see it: JSON rendering with
    [ensure_ascii=False] and compact separators, and Unicode white space. *)
From Stdlib Require Ascii.
Import (notations) Ascii.
From stdpp Require Import pretty sorting.
From S2P Require Import Prelude Text.

Local Open Scope string_scope.

(** * JSON *)

Definition byte_of (n : nat) : Ascii.ascii := Ascii.ascii_of_nat n.

Definition hex_digit (n : nat) : Ascii.ascii :=
  byte_of (if (n <? 10)%nat then 48 + n else 87 + n)%nat.

(** The escape of one character: [json.dumps] escapes the quotation mark, the
    backslash and the control characters below U+0020; with [ensure_ascii=False]
    everything else is verbatim. *)
Definition json_escape_char (c : Ascii.ascii) : string :=
  let n := Ascii.nat_of_ascii c in
  match n with
  | 34 => String (byte_of 92) (String (byte_of 34) "")
  | 92 => String (byte_of 92) (String (byte_of 92) "")
  | 10 => String (byte_of 92) "n"
  | 13 => String (byte_of 92) "r"
  | 9 => String (byte_of 92) "t"
  | 12 => String (byte_of 92) "f"
  | 8 => String (byte_of 92) "b"
  | _ => if (n <? 32)%nat
         then String (byte_of 92) ("u00" +:+ String (hex_digit (n / 16)) (String (hex_digit (n mod 16)) ""))
         else String c ""
  end.

Fixpoint json_escape (s : string) : string :=
  match s with
  | EmptyString => ""
  | String c s' => json_escape_char c +:+ json_escape s'
  end.

(** With [ensure_ascii=True] every character outside the printable ASCII range is
    escaped, above U+FFFF as a surrogate pair. *)
Definition hex4 (v : N) : string :=
  let d k := hex_digit (N.to_nat ((v / 16 ^ k) mod 16)) in
  String (d 3%N) (String (d 2%N) (String (d 1%N) (String (d 0%N) ""))).

Definition json_u (v : N) : string :=
  if (v <? 65536)%N then String (byte_of 92) ("u" +:+ hex4 v)
  else let v' := (v - 65536)%N in
       String (byte_of 92) ("u" +:+ hex4 (55296 + v' / 1024)) +:+
       String (byte_of 92) ("u" +:+ hex4 (56320 + v' mod 1024)).

Fixpoint json_escape_ascii (s : string) : string :=
  match s with
  | EmptyString => ""
  | String c s1 =>
      let n := Ascii.N_of_ascii c in
      if (n <? 127)%N then json_escape_char c +:+ json_escape_ascii s1
      else if (n =? 127)%N then json_u 127 +:+ json_escape_ascii s1
      else match s1 with
      | EmptyString => ""
      | String c2 s2 =>
          let n2 := (Ascii.N_of_ascii c2 - 128)%N in
          if (n <? 224)%N then json_u ((n - 192) * 64 + n2) +:+ json_escape_ascii s2
          else match s2 with
          | EmptyString => ""
          | String c3 s3 =>
              let n3 := (Ascii.N_of_ascii c3 - 128)%N in
              if (n <? 240)%N
              then json_u (((n - 224) * 64 + n2) * 64 + n3) +:+ json_escape_ascii s3
              else match s3 with
              | EmptyString => ""
              | String c4 s4 =>
                  let n4 := (Ascii.N_of_ascii c4 - 128)%N in
                  json_u ((((n - 240) * 64 + n2) * 64 + n3) * 64 + n4) +:+ json_escape_ascii s4
              end
          end
      end
  end.

Definition quote : string := String (byte_of 34) "".

Definition json_string (s : string) : string := quote +:+ json_escape s +:+ quote.
Definition json_ascii_string (s : string) : string := quote +:+ json_escape_ascii s +:+ quote.
Definition json_int (n : Z) : string := pretty n.
Definition json_list (l : list string) : string := "[" +:+ join "," l +:+ "]".
Definition json_object (fields : list (string * string)) : string :=
  "{" +:+ join "," ((λ kv, json_string kv.1 +:+ ":" +:+ kv.2) <$> fields) +:+ "}".

(** The keys of a dictionary, sorted as strings: [json.dumps(sort_keys=True)]. *)
Definition key_le {A} (x y : string * A) : Prop := String.leb x.1 y.1 = true.
#[export] Instance key_le_dec {A} : RelDecision (@key_le A).
Proof. intros x y. unfold key_le. apply _. Defined.

(** JSON values; a number is kept as Python prints it. *)
Inductive json :=
| JNull
| JBool (b : bool)
| JNumber (literal : string)
| JString (s : string)
| JArray (l : list json)
| JObject (fields : list (string * json)).

(** [json.dumps(v, sort_keys=True, separators=(item, key))], ASCII only. *)
Fixpoint json_dumps (item key : string) (v : json) : string :=
  match v with
  | JNull => "null"
  | JBool b => if b then "true" else "false"
  | JNumber literal => literal
  | JString s => json_ascii_string s
  | JArray l => "[" +:+ join item (map (json_dumps item key) l) +:+ "]"
  | JObject fields =>
      "{" +:+ join item (map (λ kv, json_ascii_string kv.1 +:+ key +:+ kv.2)
                (merge_sort key_le (map (λ kv, (kv.1, json_dumps item key kv.2)) fields))) +:+ "}"
  end.

(** * White space *)

(** The white space characters for Python (those with [str.isspace]) by the
    bytes of their UTF-8 encoding, one, two or three. *)
Definition space1 (c : Ascii.ascii) : bool :=
  let n := Ascii.nat_of_ascii c in
  ((9 <=? n) && (n <=? 13))%nat || ((28 <=? n) && (n <=? 32))%nat.

Definition space2 (c c2 : Ascii.ascii) : bool :=
  let n := Ascii.nat_of_ascii c in let n2 := Ascii.nat_of_ascii c2 in
  (n =? 194)%nat && ((n2 =? 133) || (n2 =? 160))%nat.

Definition space3 (c c2 c3 : Ascii.ascii) : bool :=
  let n := Ascii.nat_of_ascii c in let n2 := Ascii.nat_of_ascii c2 in
  let n3 := Ascii.nat_of_ascii c3 in
  ((n =? 225) && (n2 =? 154) && (n3 =? 128))%nat ||
  ((n =? 226) && (n2 =? 128) &&
   (((128 <=? n3) && (n3 <=? 138)) || (n3 =? 168) || (n3 =? 169) || (n3 =? 175)))%nat ||
  ((n =? 226) && (n2 =? 129) && (n3 =? 159))%nat ||
  ((n =? 227) && (n2 =? 128) && (n3 =? 128))%nat.

(** [s] without its first character, if that is white space. *)
Definition strip_space (s : string) : option string :=
  match s with
  | EmptyString => None
  | String c s1 =>
      if space1 c then Some s1
      else match s1 with
      | EmptyString => None
      | String c2 s2 =>
          if space2 c c2 then Some s2
          else match s2 with
          | EmptyString => None
          | String c3 s3 => if space3 c c2 c3 then Some s3 else None
          end
      end
  end.

Fixpoint lstrip_fuel (fuel : nat) (s : string) : string :=
  match fuel with
  | O => s
  | S fuel' => match strip_space s with Some s' => lstrip_fuel fuel' s' | None => s end
  end.

(** [s.lstrip()]: the length of [s] is enough fuel, each step drops a byte. *)
Definition lstrip (s : string) : string := lstrip_fuel (String.length s) s.

(** [s.rstrip()]: cut where only white space follows. *)
Fixpoint rstrip (s : string) : string :=
  match s with
  | EmptyString => ""
  | String c s' => if String.eqb (lstrip s) "" then "" else String c (rstrip s')
  end.

Definition strip (s : string) : string := rstrip (lstrip s).

(** [s.strip("\n")]. *)
Fixpoint lstrip_char (c : Ascii.ascii) (s : string) : string :=
  match s with
  | String c' s' => if Ascii.eqb c' c then lstrip_char c s' else s
  | EmptyString => ""
  end.
Fixpoint rstrip_char (c : Ascii.ascii) (s : string) : string :=
  match s with
  | EmptyString => ""
  | String c' s' => if String.eqb (lstrip_char c s) "" then "" else String c' (rstrip_char c s')
  end.
Definition strip_char (c : Ascii.ascii) (s : string) : string := rstrip_char c (lstrip_char c s).

Example json_examples :
  json_object [("seq", json_int 3); ("t", json_string ("a" +:+ quote +:+ String (byte_of 10) "b"))] =
    "{" +:+ quote +:+ "seq" +:+ quote +:+ ":3," +:+ quote +:+ "t" +:+ quote +:+ ":" +:+
    quote +:+ "a\" +:+ quote +:+ "\nb" +:+ quote +:+ "}" ∧
  strip "  a b " = "a b" ∧ strip (String (byte_of 194) (String (byte_of 160) "x")) = "x" ∧
  strip " " = "".
Proof. vm_compute. done. Qed.

(** Escaping is character by character. *)
Lemma json_escape_app a b : json_escape (a +:+ b) = json_escape a +:+ json_escape b.
Proof.
  induction a as [|c a IH]; [done|].
  change (json_escape_char c +:+ json_escape (a +:+ b) = (json_escape_char c +:+ json_escape a) +:+ json_escape b).
  by rewrite IH, string_app_assoc.
Qed.
