(* ===== verification/JsonLoads.v ===== *)
(** Reading JSON as Python's [json.loads] does, and that it reads back what
    [json.dumps] with [sort_keys] and [ensure_ascii] wrote.

    Texts are taken as UTF-8 (the detection of UTF-16 and UTF-32 is left out), a
    number is kept as it is written, and the limits on the depth of a value and on
    the digits of an integer are left out. *)
From Stdlib Require Ascii.
Import (notations) Ascii.
From stdpp Require Import pretty sorting.
From S2P Require Import Prelude Text Json.

Local Open Scope string_scope.

(** * Characters *)

Definition byte_N (n : N) : Ascii.ascii := Ascii.ascii_of_N n.

(** The UTF-8 bytes of a code point; a lone surrogate has three bytes, too. *)
Definition utf8_encode (v : N) : string :=
  (if v <? 128 then String (byte_N v) ""
   else if v <? 2048 then String (byte_N (192 + v / 64)) (String (byte_N (128 + v mod 64)) "")
   else if v <? 65536 then
     String (byte_N (224 + v / 4096))
       (String (byte_N (128 + (v / 64) mod 64)) (String (byte_N (128 + v mod 64)) ""))
   else
     String (byte_N (240 + v / 262144))
       (String (byte_N (128 + (v / 4096) mod 64))
          (String (byte_N (128 + (v / 64) mod 64)) (String (byte_N (128 + v mod 64)) ""))))%N.

Definition hex_value (c : Ascii.ascii) : option N :=
  let n := Ascii.N_of_ascii c in
  (if (48 <=? n) && (n <=? 57) then Some (n - 48)
   else if (97 <=? n) && (n <=? 102) then Some (n - 87)
   else if (65 <=? n) && (n <=? 70) then Some (n - 55)
   else None)%N.

Definition hex4_value (a b c d : Ascii.ascii) : option N :=
  x ← hex_value a; y ← hex_value b; z ← hex_value c; w ← hex_value d;
  Some (((x * 16 + y) * 16 + z) * 16 + w)%N.

Definition high_surrogate (v : N) : bool := ((55296 <=? v) && (v <=? 56319))%N.
Definition low_surrogate (v : N) : bool := ((56320 <=? v) && (v <=? 57343))%N.

Definition QUOTE : Ascii.ascii := byte_of 34.
Definition ESCAPE : Ascii.ascii := byte_of 92.

(** What a one-letter escape stands for. *)
Definition unescape (c : Ascii.ascii) : option Ascii.ascii :=
  match Ascii.nat_of_ascii c with
  | 34 => Some (byte_of 34) | 92 => Some (byte_of 92) | 47 => Some (byte_of 47)
  | 98 => Some (byte_of 8) | 102 => Some (byte_of 12) | 110 => Some (byte_of 10)
  | 114 => Some (byte_of 13) | 116 => Some (byte_of 9) | _ => None
  end.

(** A second half of a surrogate pair: an escape of a low surrogate. *)
Definition low_half (s : string) : option (N * string) :=
  match s with
  | String e (String u (String a (String b (String c (String d rest))))) =>
      if Ascii.eqb e ESCAPE && Ascii.eqb u "u" then
        v ← hex4_value a b c d; if low_surrogate v then Some (v, rest) else None
      else None
  | _ => None
  end.

Definition prepend (p : string) (r : option (string * string)) : option (string * string) :=
  match r with Some (t, rest) => Some (p +:+ t, rest) | None => None end.

(** The rest of a string literal after its opening quotation mark, with what
    follows it ([strict] mode: control characters are refused). *)
Fixpoint parse_string (s : string) : option (string * string) :=
  match s with
  | EmptyString => None
  | String c s1 =>
      if Ascii.eqb c QUOTE then Some ("", s1)
      else if Ascii.eqb c ESCAPE then
        match s1 with
        | String u s2 =>
            if Ascii.eqb u "u" then
              match s2 with
              | String a (String b (String c' (String d s3))) =>
                  match hex4_value a b c' d with
                  | None => None
                  | Some v =>
                      if high_surrogate v then
                        match s3 with
                        | String e1 (String u1 (String a1 (String b1 (String c1 (String d1 s4))))) =>
                            match low_half s3 with
                            | Some (lo, _) =>
                                prepend (utf8_encode (65536 + (v - 55296) * 1024 + (lo - 56320)))
                                  (parse_string s4)
                            | None => prepend (utf8_encode v) (parse_string s3)
                            end
                        | _ => prepend (utf8_encode v) (parse_string s3)
                        end
                      else prepend (utf8_encode v) (parse_string s3)
                  end
              | _ => None
              end
            else match unescape u with
                 | Some ch => prepend (String ch "") (parse_string s2)
                 | None => None
                 end
        | EmptyString => None
        end
      else if (Ascii.N_of_ascii c <? 32)%N then None
      else prepend (String c "") (parse_string s1)
  end.

(** * Numbers *)

Definition is_digit (c : Ascii.ascii) : bool :=
  let n := Ascii.nat_of_ascii c in ((48 <=? n) && (n <=? 57))%nat.

Fixpoint take_digits (s : string) : string * string :=
  match s with
  | String c s' => if is_digit c then let '(d, r) := take_digits s' in (String c d, r) else ("", s)
  | EmptyString => ("", "")
  end.

(** An optional part of a number: kept only if digits follow its sign. *)
Definition parse_fraction (s : string) : string * string :=
  match s with
  | String c s' =>
      if Ascii.eqb c "." then
        let '(d, r) := take_digits s' in if String.eqb d "" then ("", s) else (String c d, r)
      else ("", s)
  | EmptyString => ("", "")
  end.
Definition parse_exponent (s : string) : string * string :=
  match s with
  | String c s' =>
      if Ascii.eqb c "e" || Ascii.eqb c "E" then
        let '(sign, s2) := match s' with
                           | String g s2 => if Ascii.eqb g "+" || Ascii.eqb g "-"
                                            then (String g "", s2) else ("", s')
                           | EmptyString => ("", "")
                           end in
        let '(d, r) := take_digits s2 in
        if String.eqb d "" then ("", s) else (String c (sign +:+ d), r)
      else ("", s)
  | EmptyString => ("", "")
  end.
Definition parse_integer (s : string) : option (string * string) :=
  match s with
  | String c s' =>
      if Ascii.eqb c "0" then Some ("0", s')
      else let '(d, r) := take_digits s in if String.eqb d "" then None else Some (d, r)
  | EmptyString => None
  end.

Definition parse_number (s : string) : option (string * string) :=
  let '(sign, s1) := match s with
                     | String c s1 => if Ascii.eqb c "-" then ("-", s1) else ("", s)
                     | EmptyString => ("", "")
                     end in
  match parse_integer s1 with
  | None => None
  | Some (i, s2) =>
      let '(f, s3) := parse_fraction s2 in
      let '(e, s4) := parse_exponent s3 in
      Some (sign +:+ i +:+ f +:+ e, s4)
  end.

(** * Values *)

Fixpoint skip_space (s : string) : string :=
  match s with
  | String c s' =>
      let n := Ascii.nat_of_ascii c in
      if ((n =? 32) || (n =? 9) || (n =? 10) || (n =? 13))%nat then skip_space s' else s
  | EmptyString => ""
  end.

(** [s] after the literal [p], if it starts with it. *)
Fixpoint after (p s : string) : option string :=
  match p with
  | EmptyString => Some s
  | String a p' =>
      match s with
      | String c s' => if Ascii.eqb a c then after p' s' else None
      | EmptyString => None
      end
  end.

(** [null], the booleans and the literals Python adds to the format. *)
Definition parse_word (s : string) : option (json * string) :=
  match after "null" s, after "true" s, after "false" s with
  | Some r, _, _ => Some (JNull, r)
  | _, Some r, _ => Some (JBool true, r)
  | _, _, Some r => Some (JBool false, r)
  | _, _, _ =>
      match after "NaN" s, after "Infinity" s, after "-Infinity" s with
      | Some r, _, _ => Some (JNumber "NaN", r)
      | _, Some r, _ => Some (JNumber "Infinity", r)
      | _, _, Some r => Some (JNumber "-Infinity", r)
      | _, _, _ => None
      end
  end.

(** A value at the start of the text, the items of an array after its bracket, and
    the members of an object after its brace, each with what follows. *)
Fixpoint parse_value (fuel : nat) (s : string) : option (json * string) :=
  match fuel with
  | O => None
  | S n =>
      match s with
      | EmptyString => None
      | String c s1 =>
          if Ascii.eqb c QUOTE then
            match parse_string s1 with Some (t, r) => Some (JString t, r) | None => None end
          else if Ascii.eqb c "[" then
            match skip_space s1 with
            | String c2 s2 =>
                if Ascii.eqb c2 "]" then Some (JArray [], s2)
                else match parse_items n (String c2 s2) with
                     | Some (l, r) => Some (JArray l, r)
                     | None => None
                     end
            | EmptyString => None
            end
          else if Ascii.eqb c "{" then
            match skip_space s1 with
            | String c2 s2 =>
                if Ascii.eqb c2 "}" then Some (JObject [], s2)
                else match parse_members n (String c2 s2) with
                     | Some (l, r) => Some (JObject (foldl (λ d kv, od_set kv.1 kv.2 d) [] l), r)
                     | None => None
                     end
            | EmptyString => None
            end
          else match parse_word s with
               | Some vr => Some vr
               | None => match parse_number s with
                         | Some (l, r) => Some (JNumber l, r)
                         | None => None
                         end
               end
      end
  end
with parse_items (fuel : nat) (s : string) : option (list json * string) :=
  match fuel with
  | O => None
  | S n =>
      match parse_value n s with
      | None => None
      | Some (v, r) =>
          match skip_space r with
          | String c r' =>
              if Ascii.eqb c "]" then Some ([v], r')
              else if Ascii.eqb c "," then
                match parse_items n (skip_space r') with
                | Some (l, r2) => Some (v :: l, r2)
                | None => None
                end
              else None
          | EmptyString => None
          end
      end
  end
with parse_members (fuel : nat) (s : string) : option (list (string * json) * string) :=
  match fuel with
  | O => None
  | S n =>
      match s with
      | String q s1 =>
          if negb (Ascii.eqb q QUOTE) then None
          else match parse_string s1 with
          | None => None
          | Some (k, s2) =>
              match skip_space s2 with
              | String colon s3 =>
                  if negb (Ascii.eqb colon ":") then None
                  else match parse_value n (skip_space s3) with
                  | None => None
                  | Some (v, r) =>
                      match skip_space r with
                      | String c r' =>
                          if Ascii.eqb c "}" then Some ([(k, v)], r')
                          else if Ascii.eqb c "," then
                            match parse_members n (skip_space r') with
                            | Some (l, r2) => Some ((k, v) :: l, r2)
                            | None => None
                            end
                          else None
                      | EmptyString => None
                      end
                  end
              | EmptyString => None
              end
          end
      | EmptyString => None
      end
  end.

(** Twice the bytes of a text bound the nested calls that read it. *)
Definition json_loads (s : string) : option json :=
  match parse_value (S (2 * String.length s)) (skip_space s) with
  | Some (v, r) => if String.eqb (skip_space r) "" then Some v else None
  | None => None
  end.

Definition json_text (s : string) : string := replace_char "'" QUOTE s.

Example json_loads_examples :
  json_loads (json_text " {'b' : [1, -2.5e3,true,null,'x\n\u00e9\ud83d\ude00'], 'a':{}, 'b':0} ") =
    Some (JObject [("b", JNumber "0"); ("a", JObject [])]) ∧
  json_loads (json_text "['x\n\u00e9\ud83d\ude00', 'é']") =
    Some (JArray [JString ("x" +:+ String (byte_of 10) "" +:+ "é😀"); JString "é"]) ∧
  json_loads "[1,]" = None ∧ json_loads "01" = None ∧ json_loads "1 2" = None ∧
  json_loads (json_text "'a") = None ∧ json_loads "-1.e5" = None ∧ json_loads "[]" = Some (JArray []).
Proof. vm_compute. done. Qed.

(** * Reading back a string *)

(** The text of a Python string without lone surrogates: the encoding of scalar
    values. *)
Definition scalar (v : N) : Prop := ((v < 55296 ∨ 57343 < v) ∧ v < 1114112)%N.
Definition encode_text (cps : list N) : string := concat_all (utf8_encode <$> cps).
Definition valid_text (s : string) : Prop := ∃ cps, Forall scalar cps ∧ s = encode_text cps.

(** Arithmetic with divisions by constants. *)
Ltac N_div := zify; Z.to_euclidean_division_equations; lia.

Lemma byte_N_value v : (v < 256)%N → Ascii.N_of_ascii (byte_N v) = v.
Proof. apply Ascii.N_ascii_embedding. Qed.

Lemma hex_digit_value n : (n < 16)%nat → hex_value (hex_digit n) = Some (N.of_nat n).
Proof. intros Hn. do 16 (destruct n as [|n]; [reflexivity|]). lia. Qed.

Lemma hex4_read v s : (v < 65536)%N →
  ∃ a b c d, hex4 v +:+ s = String a (String b (String c (String d s))) ∧
             hex4_value a b c d = Some v.
Proof.
  intros Hv. unfold hex4. do 4 eexists. split; [reflexivity|]. unfold hex4_value.
  assert (∀ k, N.to_nat ((v / 16 ^ k) mod 16) < 16)%nat as Hd.
  { intros k. pose proof (N.mod_lt (v / 16 ^ k) 16). lia. }
  rewrite !hex_digit_value by apply Hd. simpl. f_equal. rewrite !N2Nat.id.
  change (16 ^ 3)%N with 4096%N. change (16 ^ 2)%N with 256%N.
  change (16 ^ 1)%N with 16%N. change (16 ^ 0)%N with 1%N. clear Hd. N_div.
Qed.

(** The escape of one character. *)
Definition escape_code (v : N) : string :=
  if (v <? 127)%N then json_escape_char (byte_N v) else json_u v.

Lemma escape_encode v s : (v < 1114112)%N →
  json_escape_ascii (utf8_encode v +:+ s) = escape_code v +:+ json_escape_ascii s.
Proof.
  intros Hv. unfold utf8_encode, escape_code. destruct (N.ltb_spec v 128) as [H1|H1].
  { simpl. rewrite byte_N_value by lia. destruct (N.ltb_spec v 127); [done|].
    by replace v with 127%N by lia. }
  rewrite (proj2 (N.ltb_ge v 127)) by lia.
  destruct (N.ltb_spec v 2048) as [H2|H2]; [|destruct (N.ltb_spec v 65536) as [H3|H3]];
    simpl; rewrite !byte_N_value by N_div;
    repeat match goal with |- context [(?a <? ?b)%N] =>
      first [rewrite (proj2 (N.ltb_lt a b)) by N_div
            |rewrite (proj2 (N.ltb_ge a b)) by N_div] end;
    rewrite ?(proj2 (N.eqb_neq _ 127)) by N_div;
    f_equal; f_equal; N_div.
Qed.

Lemma parse_plain_escape v s : (v < 127)%N →
  parse_string (json_escape_char (byte_N v) +:+ s) = prepend (utf8_encode v) (parse_string s).
Proof.
  intros Hv. assert (v ∈ N.of_nat <$> seq 0 127) as Hin.
  { apply list_elem_of_fmap. exists (N.to_nat v). rewrite elem_of_seq. lia. }
  clear Hv. apply list_elem_of_In in Hin. simpl in Hin.
  repeat (destruct Hin as [<-|Hin]; [reflexivity|]). done.
Qed.

#[local] Opaque hex4.

Lemma parse_unicode_escape v s : (v < 65536)%N → high_surrogate v = false →
  parse_string (String ESCAPE ("u" +:+ hex4 v) +:+ s) = prepend (utf8_encode v) (parse_string s).
Proof.
  intros Hv Hs. destruct (hex4_read v s Hv) as (a & b & c & d & Heq & Hval).
  change (String ESCAPE ("u" +:+ hex4 v) +:+ s) with (String ESCAPE (String "u" (hex4 v +:+ s))).
  rewrite Heq. simpl. by rewrite Hval, Hs.
Qed.

Lemma parse_pair_escape v s : (65536 ≤ v < 1114112)%N →
  parse_string (json_u v +:+ s) = prepend (utf8_encode v) (parse_string s).
Proof.
  intros Hv. unfold json_u. rewrite (proj2 (N.ltb_ge v 65536)) by lia. rewrite string_app_assoc.
  set (hi := (55296 + (v - 65536) / 1024)%N). set (lo := (56320 + (v - 65536) mod 1024)%N).
  assert (55296 ≤ hi ≤ 56319)%N as Hhi by (unfold hi; N_div).
  assert (56320 ≤ lo ≤ 57343)%N as Hlo by (unfold lo; N_div).
  assert (65536 + (hi - 55296) * 1024 + (lo - 56320) = v)%N as Hv' by (unfold hi, lo; N_div).
  destruct (hex4_read lo s) as (a & b & c & d & Heq & Hval); [lia|].
  destruct (hex4_read hi (String ESCAPE (String "u" (hex4 lo +:+ s))))
    as (a' & b' & c' & d' & Heq' & Hval'); [lia|].
  change (String (byte_of 92) ("u" +:+ hex4 hi) +:+ String (byte_of 92) ("u" +:+ hex4 lo) +:+ s)
    with (String ESCAPE (String "u" (hex4 hi +:+ String ESCAPE (String "u" (hex4 lo +:+ s))))).
  rewrite Heq', Heq. simpl. rewrite Hval'. unfold high_surrogate. rewrite (proj2 (N.leb_le _ _)) by lia.
  rewrite (proj2 (N.leb_le hi _)) by lia. simpl. rewrite Hval. simpl.
  unfold low_surrogate. rewrite (proj2 (N.leb_le _ _)), (proj2 (N.leb_le lo _)) by lia. simpl.
  by rewrite Hv'.
Qed.

#[local] Transparent hex4.

Lemma parse_escape_code v s : scalar v →
  parse_string (escape_code v +:+ s) = prepend (utf8_encode v) (parse_string s).
Proof.
  intros [Hsur Hv]. unfold escape_code. destruct (N.ltb_spec v 127); [by apply parse_plain_escape|].
  destruct (N.ltb_spec v 65536) as [Hlt|]; [|by apply parse_pair_escape].
  unfold json_u. rewrite (proj2 (N.ltb_lt v 65536)) by done. apply parse_unicode_escape; [done|].
  unfold high_surrogate. apply andb_false_iff. rewrite !N.leb_gt. lia.
Qed.

(** What [json.dumps] writes for a string is read back, whatever follows. *)
Lemma parse_written_string s rest : valid_text s →
  parse_string (json_escape_ascii s +:+ quote +:+ rest) = Some (s, rest).
Proof.
  intros (cps & Hcps & ->). induction Hcps as [|v cps Hv Hcps IH]; [done|].
  change (encode_text (v :: cps)) with (utf8_encode v +:+ encode_text cps).
  rewrite escape_encode, string_app_assoc, parse_escape_code, IH by (done || apply Hv). done.
Qed.

(** * Reading back a value *)

(** The values [json.dumps] writes: finite numbers, keys without duplicates. *)
Inductive json_ok : json → Prop :=
| ok_null : json_ok JNull
| ok_bool b : json_ok (JBool b)
| ok_number l : parse_number l = Some (l, "") → json_ok (JNumber l)
| ok_string s : valid_text s → json_ok (JString s)
| ok_array l : Forall json_ok l → json_ok (JArray l)
| ok_object fields :
    NoDup fields.*1 → Forall valid_text fields.*1 → Forall json_ok fields.*2 →
    json_ok (JObject fields).

(** The value that is read back: the same, its objects in the order of their keys. *)
Fixpoint json_sorted (v : json) : json :=
  match v with
  | JArray l => JArray (map json_sorted l)
  | JObject fields => JObject (merge_sort key_le (map (λ kv, (kv.1, json_sorted kv.2)) fields))
  | _ => v
  end.

Lemma json_nested_ind (P : json → Prop) :
  P JNull → (∀ b, P (JBool b)) → (∀ l, P (JNumber l)) → (∀ s, P (JString s)) →
  (∀ l, Forall P l → P (JArray l)) → (∀ fields, Forall P fields.*2 → P (JObject fields)) →
  ∀ v, P v.
Proof.
  intros Hn Hb Hnum Hs Ha Ho. fix go 1. intros [|b|l|s|l|fields]; [done|apply Hb|apply Hnum|apply Hs| |].
  - apply Ha. induction l; constructor; auto.
  - apply Ho. induction fields as [|[k v] fields IH]; simpl; constructor; auto.
Qed.

(** Sorting by key looks at nothing but the keys. *)
Lemma ascii_compare_N a b : Ascii.compare a b = N.compare (Ascii.N_of_ascii a) (Ascii.N_of_ascii b).
Proof. done. Qed.

Lemma string_leb_cons a s b t :
  String.leb (String a s) (String b t) = true ↔
  (Ascii.N_of_ascii a < Ascii.N_of_ascii b)%N ∨ a = b ∧ String.leb s t = true.
Proof.
  unfold String.leb. simpl. rewrite ascii_compare_N.
  destruct (N.compare_spec (Ascii.N_of_ascii a) (Ascii.N_of_ascii b)) as [Heq|Hlt|Hgt].
  - assert (a = b) as -> by (by rewrite <- (Ascii.ascii_N_embedding a), Heq, Ascii.ascii_N_embedding).
    split; [auto|]. intros [?|[_ ?]]; [lia|done].
  - split; auto.
  - split; [done|]. intros [?|[-> _]]; lia.
Qed.

Lemma string_leb_trans x y z :
  String.leb x y = true → String.leb y z = true → String.leb x z = true.
Proof.
  revert y z. induction x as [|a x IH]; intros [|b y] [|c z]; try done.
  rewrite !string_leb_cons. intros [?|[-> ?]] [?|[-> ?]]; eauto. left. lia.
Qed.

#[export] Instance key_le_total {A} : Total (@key_le A).
Proof. intros x y. apply String.leb_total. Qed.
#[export] Instance key_le_trans {A} : Transitive (@key_le A).
Proof. intros x y z. apply string_leb_trans. Qed.

(** A list in the order of its keys, without duplicate keys, is the only one with
    its elements. *)
Lemma keys_sorted_unique {A} (l k : list (string * A)) :
  NoDup l.*1 → StronglySorted key_le l → StronglySorted key_le k → l ≡ₚ k → l = k.
Proof.
  intros Hnd Hl Hk Hp. apply (StronglySorted_unique_strong key_le); [|done..].
  intros [x u] [y v] Hx Hy Hxy Hyx. assert (x = y) as -> by (by apply String.leb_antisym).
  rewrite <- Hp in Hy. f_equal.
  apply (od_in_get y u) in Hx; [|done]. apply (od_in_get y v) in Hy; [|done]. congruence.
Qed.

Lemma sorted_fmap {A B} (f : A → B) (l : list (string * A)) :
  StronglySorted key_le l → StronglySorted key_le ((λ kv, (kv.1, f kv.2)) <$> l).
Proof.
  induction 1 as [|x l Hl IH Hx]; simpl; constructor; [done|]. by apply Forall_fmap.
Qed.

Lemma fmap_keys {A B} (f : A → B) (l : list (string * A)) :
  ((λ kv, (kv.1, f kv.2)) <$> l).*1 = l.*1.
Proof. rewrite <- list_fmap_compose. by apply list_fmap_ext. Qed.

Lemma merge_sort_fmap {A B} (f : A → B) (l : list (string * A)) : NoDup l.*1 →
  merge_sort key_le ((λ kv, (kv.1, f kv.2)) <$> l) = (λ kv, (kv.1, f kv.2)) <$> merge_sort key_le l.
Proof.
  intros Hnd. apply keys_sorted_unique.
  - by rewrite merge_sort_Permutation, fmap_keys.
  - apply StronglySorted_merge_sort; apply _.
  - apply sorted_fmap, StronglySorted_merge_sort; apply _.
  - by rewrite !merge_sort_Permutation.
Qed.

(** A text that cannot continue a number. *)
Definition number_end (s : string) : Prop :=
  match s with
  | EmptyString => True
  | String c _ =>
      is_digit c = false ∧ Ascii.eqb c "." = false ∧ Ascii.eqb c "e" || Ascii.eqb c "E" = false ∧
      Ascii.eqb c "+" || Ascii.eqb c "-" = false
  end.

Lemma take_digits_app s rest d r :
  take_digits s = (d, r) → number_end rest → take_digits (s +:+ rest) = (d, r +:+ rest).
Proof.
  revert d r. induction s as [|c s IH]; intros d r Hs Hr; simpl in *.
  { simplify_eq. destruct rest as [|c rest]; [done|]. simpl. by destruct Hr as [-> _]. }
  change (String c s +:+ rest) with (String c (s +:+ rest)). cbn [take_digits].
  destruct (is_digit c); [|by simplify_eq].
  destruct (take_digits s) as [d' r'] eqn:Hd. simplify_eq. by rewrite (IH d' r).
Qed.

(** One constructor of an appended text. *)
Lemma string_cons_app c s rest : String c s +:+ rest = String c (s +:+ rest).
Proof. done. Qed.
Lemma string_nil_app rest : "" +:+ rest = rest.
Proof. done. Qed.

Lemma parse_fraction_app s rest f r :
  parse_fraction s = (f, r) → number_end rest → parse_fraction (s +:+ rest) = (f, r +:+ rest).
Proof.
  intros Hs Hr. destruct s as [|c s]; simpl in *.
  { simplify_eq. rewrite string_nil_app. destruct rest as [|c rest]; [done|]. simpl.
    by destruct Hr as (_ & -> & _). }
  rewrite string_cons_app. cbn [parse_fraction]. destruct (Ascii.eqb c "."); [|by simplify_eq].
  destruct (take_digits s) as [d r'] eqn:Hd. rewrite (take_digits_app _ _ _ _ Hd Hr).
  destruct (String.eqb d ""); by simplify_eq.
Qed.

Lemma parse_exponent_app s rest e r :
  parse_exponent s = (e, r) → number_end rest → parse_exponent (s +:+ rest) = (e, r +:+ rest).
Proof.
  intros Hs Hr. destruct s as [|c s]; simpl in *.
  { simplify_eq. rewrite string_nil_app. destruct rest as [|c rest]; [done|]. simpl.
    by destruct Hr as (_ & _ & -> & _). }
  rewrite string_cons_app. cbn [parse_exponent].
  destruct (Ascii.eqb c "e" || Ascii.eqb c "E"); [|by simplify_eq].
  assert (∀ d r', take_digits s = (d, r') → take_digits (s +:+ rest) = (d, r' +:+ rest)) as Hplain.
  { intros d r' Hd. by apply take_digits_app. }
  destruct s as [|g s].
  { simpl in Hs. simplify_eq. rewrite string_nil_app. destruct rest as [|g rest]; [done|].
    destruct Hr as (Hd & _ & _ & ->). simpl. by rewrite Hd. }
  rewrite string_cons_app in *. destruct (Ascii.eqb g "+" || Ascii.eqb g "-").
  - destruct (take_digits s) as [d r'] eqn:Hd. rewrite (take_digits_app _ _ _ _ Hd Hr).
    destruct (String.eqb d ""); by simplify_eq.
  - destruct (take_digits (String g s)) as [d r'] eqn:Hd. rewrite (Hplain d r') by done.
    destruct (String.eqb d ""); by simplify_eq.
Qed.

Lemma parse_integer_app s rest i r :
  parse_integer s = Some (i, r) → number_end rest → parse_integer (s +:+ rest) = Some (i, r +:+ rest).
Proof.
  intros Hs Hr. destruct s as [|c s]; [done|]. rewrite string_cons_app. unfold parse_integer in *.
  destruct (Ascii.eqb c "0"); [by simplify_eq|].
  destruct (take_digits (String c s)) as [d r'] eqn:Hd.
  apply (take_digits_app _ rest) in Hd; [|done]. rewrite string_cons_app in Hd. rewrite Hd.
  destruct (String.eqb d ""); by simplify_eq.
Qed.

(** A number is read up to the first character that cannot continue it. *)
Lemma parse_number_app l rest r lit :
  parse_number l = Some (lit, r) → number_end rest → parse_number (l +:+ rest) = Some (lit, r +:+ rest).
Proof.
  intros Hl Hr. destruct l as [|c l]; [done|]. rewrite string_cons_app. unfold parse_number in *.
  destruct (Ascii.eqb c "-"); rewrite <- ?string_cons_app;
    match type of Hl with context [parse_integer ?s] =>
      destruct (parse_integer s) as [[i s2]|] eqn:Hi; [|done] end;
    rewrite (parse_integer_app _ _ _ _ Hi Hr);
    destruct (parse_fraction s2) as [f s3] eqn:Hf; rewrite (parse_fraction_app _ _ _ _ Hf Hr);
    destruct (parse_exponent s3) as [e s4] eqn:He; rewrite (parse_exponent_app _ _ _ _ He Hr);
    by simplify_eq.
Qed.

Lemma number_head l lit r : parse_number l = Some (lit, r) →
  ∃ c l', l = String c l' ∧ (is_digit c = true ∨
    c = "-"%char ∧ ∃ c' l'', l' = String c' l'' ∧ is_digit c' = true).
Proof.
  assert (∀ s i r', parse_integer s = Some (i, r') → ∃ c s', s = String c s' ∧ is_digit c = true) as Hint.
  { intros [|c s] i r' Hi; [done|]. exists c, s. split; [done|]. unfold parse_integer in Hi.
    destruct (Ascii.eqb_spec c "0") as [->|]; [done|]. simpl in Hi. by destruct (is_digit c). }
  intros Hl. destruct l as [|c l]; [done|]. exists c, l. split; [done|]. unfold parse_number in Hl.
  destruct (Ascii.eqb_spec c "-") as [->|].
  - right. split; [done|]. destruct (parse_integer l) as [[i s2]|] eqn:Hi; [|done]. by eapply Hint.
  - left. destruct (parse_integer (String c l)) as [[i s2]|] eqn:Hi; [|done].
    by destruct (Hint _ _ _ Hi) as (? & ? & [= <- <-] & ?).
Qed.

(** What may follow a value in a written text. *)
Definition value_end (s : string) : Prop :=
  match s with
  | EmptyString => True
  | String c _ => c = ","%char ∨ c = "]"%char ∨ c = "}"%char
  end.

Lemma value_number_end s : value_end s → number_end s.
Proof. destruct s as [|c s]; [done|]. by intros [->|[->| ->]]. Qed.

Abbreviation dumps := (json_dumps "," ":").

(** The characters a written value starts with: none is white space or closes a
    bracket. *)
Definition value_start (c : Ascii.ascii) : bool :=
  let n := Ascii.nat_of_ascii c in
  negb ((n =? 32) || (n =? 9) || (n =? 10) || (n =? 13))%nat && negb (Ascii.eqb c "]").

Lemma digit_cases c (P : Ascii.ascii → Prop) :
  P "0"%char → P "1"%char → P "2"%char → P "3"%char → P "4"%char → P "5"%char → P "6"%char →
  P "7"%char → P "8"%char → P "9"%char → is_digit c = true → P c.
Proof.
  intros ?????????? Hc. rewrite <- (Ascii.ascii_nat_embedding c).
  unfold is_digit in Hc. apply andb_true_iff in Hc as [?%Nat.leb_le ?%Nat.leb_le].
  remember (Ascii.nat_of_ascii c) as n eqn:Hn. clear Hn.
  do 48 (destruct n as [|n]; [lia|]).
  do 10 (destruct n as [|n]; [assumption|]). lia.
Qed.

(** A text reads as a value, whatever may follow it. *)
Definition reads (t : string) (v : json) : Prop :=
  (∃ c s, t = String c s ∧ value_start c = true) ∧
  ∀ fuel rest, (2 * String.length t < fuel)%nat → value_end rest →
  parse_value fuel (t +:+ rest) = Some (v, rest).

Lemma skip_space_reads t v rest : reads t v → skip_space (t +:+ rest) = t +:+ rest.
Proof.
  intros [(c & s & -> & Hc) _]. rewrite string_cons_app. simpl.
  unfold value_start in Hc. apply andb_true_iff in Hc as [Hc _]. apply negb_true_iff in Hc.
  by rewrite Hc.
Qed.

Lemma skip_space_colon s : skip_space (":" +:+ s) = String ":" s.
Proof. done. Qed.
Lemma skip_space_comma s : skip_space ("," +:+ s) = String "," s.
Proof. done. Qed.

Lemma parse_word_number l rest lit r :
  parse_number l = Some (lit, r) → parse_word (l +:+ rest) = None.
Proof.
  intros (c & l' & -> & Hc)%number_head. rewrite string_cons_app. unfold parse_word.
  destruct Hc as [Hc|(-> & c' & l'' & -> & Hc)].
  - by apply (digit_cases c).
  - rewrite string_cons_app. by apply (digit_cases c').
Qed.

Lemma number_reads l : parse_number l = Some (l, "") → reads l (JNumber l).
Proof.
  intros Hl. split.
  { apply number_head in Hl as (c & l' & -> & Hc). exists c, l'. split; [done|].
    destruct Hc as [Hc|[-> _]]; [|done]. by apply (digit_cases c). }
  intros [|n] rest Hn Hr; [lia|]. pose proof (parse_word_number l rest l "" Hl) as Hw.
  apply (parse_number_app _ rest) in Hl as Hnum; [|by apply value_number_end].
  apply number_head in Hl as (c & l' & -> & Hc). rewrite string_cons_app in *. simpl.
  assert (Ascii.eqb c QUOTE = false ∧ Ascii.eqb c "[" = false ∧ Ascii.eqb c "{" = false) as (-> & -> & ->).
  { destruct Hc as [Hc|[-> _]]; [|done]. by apply (digit_cases c). }
  by rewrite Hw, Hnum.
Qed.

Lemma string_reads s : valid_text s → reads (json_ascii_string s) (JString s).
Proof.
  intros Hs. split; [by do 2 eexists|]. intros [|n] rest Hn Hr; [lia|]. unfold json_ascii_string.
  rewrite !string_app_assoc. change (quote +:+ ?x) with (String QUOTE x) at 1. cbn [parse_value].
  change (Ascii.eqb QUOTE QUOTE) with true. cbv iota. by rewrite parse_written_string.
Qed.

Lemma items_read ts vs : Forall2 reads ts vs → ts ≠ [] →
  ∀ fuel rest, (2 * String.length (join "," ts) + 2 < fuel)%nat →
  parse_items fuel (join "," ts +:+ String "]" rest) = Some (vs, rest).
Proof.
  induction 1 as [|t v ts vs Ht Hts IH]; [done|]. intros _ fuel rest Hf.
  destruct fuel as [|n]; [lia|]. pose proof Ht as [_ Rt]. destruct Hts as [|t' v' ts vs Ht' Hts].
  { simpl in *. rewrite Rt; [done|lia|]. simpl. tauto. }
  rewrite join_cons in *. rewrite !string_length_app in Hf. rewrite !string_app_assoc.
  cbn [parse_items]. rewrite Rt; [|lia|by left].
  change (String.length ",") with 1%nat in Hf. rewrite skip_space_comma.
  change (Ascii.eqb "," "]") with false. change (Ascii.eqb "," ",") with true. cbv iota.
  assert (skip_space (join "," (t' :: ts) +:+ String "]" rest) = join "," (t' :: ts) +:+ String "]" rest) as ->.
  { destruct ts; rewrite ?join_cons, ?string_app_assoc; by eapply skip_space_reads. }
  rewrite IH; [done|done|]. lia.
Qed.

Lemma array_reads ts vs : Forall2 reads ts vs → reads ("[" +:+ join "," ts +:+ "]") (JArray vs).
Proof.
  intros Hts. split; [by do 2 eexists|]. intros [|n] rest Hf Hr; [lia|].
  rewrite !string_length_app in Hf. rewrite !string_app_assoc.
  change ("[" +:+ ?x) with (String "[" x). cbn [parse_value].
  change (Ascii.eqb "[" QUOTE) with false. change (Ascii.eqb "[" "[") with true. cbv iota.
  destruct Hts as [|t v ts vs Ht Hts]; [done|].
  assert (∃ c s, join "," (t :: ts) +:+ "]" +:+ rest = String c s ∧ value_start c = true) as (c & s & Hcs & Hc).
  { destruct Ht as [(c & s & -> & Hc) _].
    destruct ts; rewrite ?join_cons, ?string_app_assoc; by do 2 eexists. }
  rewrite Hcs. unfold value_start in Hc. apply andb_true_iff in Hc as [Hsp Hb].
  cbn [skip_space]. cbv zeta. apply negb_true_iff in Hsp, Hb. rewrite Hsp, Hb, <- Hcs.
  change ("]" +:+ rest) with (String "]" rest).
  rewrite (items_read _ (v :: vs)); [done|by constructor|done|simpl in *; lia].
Qed.

(** A way to write strings (ASCII only or not) from which this one is read back. *)
Definition written (w : string → string) (k : string) : Prop :=
  ∀ rest, ∃ s, w k +:+ rest = String QUOTE s ∧ parse_string s = Some (k, rest).

Lemma ascii_written k : valid_text k → written json_ascii_string k.
Proof.
  intros Hk rest. eexists. unfold json_ascii_string. rewrite !string_app_assoc. split; [done|].
  by apply parse_written_string.
Qed.

(** A member, of a key, a text and the value it reads as. *)
Abbreviation member w x := (w x.1.1 +:+ ":" +:+ x.1.2).
Definition member_ok (w : string → string) (x : string * string * json) : Prop :=
  written w x.1.1 ∧ reads x.1.2 x.2.

Lemma join_member_start w (x : string * string * json) l rest : member_ok w x →
  ∃ s, join "," (map (λ x, member w x) (x :: l)) +:+ rest = String QUOTE s.
Proof.
  intros [Hk _]. destruct l; simpl map; rewrite ?join_cons, ?string_app_assoc;
    match goal with |- context [w x.1.1 +:+ ?r] => destruct (Hk r) as (s & -> & _) end; by eexists.
Qed.

(** Reading one member, and what is done with the text after it. *)
Lemma parse_member w k t v n r : member_ok w (k, t, v) → (2 * String.length t < n)%nat → value_end r →
  parse_members (S n) (w k +:+ ":" +:+ t +:+ r) =
  match skip_space r with
  | String c r' =>
      if Ascii.eqb c "}" then Some ([(k, v)], r')
      else if Ascii.eqb c "," then
        match parse_members n (skip_space r') with
        | Some (l, r2) => Some ((k, v) :: l, r2)
        | None => None
        end
      else None
  | EmptyString => None
  end.
Proof.
  intros [Hk Ht] Hn Hr. simpl in Hk, Ht. destruct (Hk (":" +:+ t +:+ r)) as (s & -> & Hs). cbn [parse_members].
  change (negb (Ascii.eqb QUOTE QUOTE)) with false. cbv iota.
  rewrite Hs, skip_space_colon.
  change (negb (Ascii.eqb ":" ":")) with false. cbv iota.
  rewrite (skip_space_reads _ _ _ Ht). destruct Ht as [_ ->]; done.
Qed.

Lemma members_read w l : Forall (member_ok w) l → l ≠ [] →
  ∀ fuel rest, (2 * String.length (join "," (map (λ x, member w x) l)) + 2 < fuel)%nat →
  parse_members fuel (join "," (map (λ x, member w x) l) +:+ String "}" rest) =
  Some (map (λ x, (x.1.1, x.2)) l, rest).
Proof.
  induction 1 as [|[[k t] v] l Hx Hl IH]; [done|]. intros _ fuel rest Hf.
  destruct fuel as [|n]; [lia|].
  assert (String.length t < String.length (w k +:+ ":" +:+ t))%nat as Hm.
  { rewrite !string_length_app. change (String.length ":") with 1%nat. lia. }
  destruct l as [|x l].
  { simpl map in *. cbn [join] in *. rewrite !string_app_assoc, (parse_member w k t v); [done..|lia|by right; right]. }
  simpl map in *. rewrite join_cons in *. rewrite !string_length_app in Hf. rewrite !string_app_assoc.
  change (String.length ",") with 1%nat in Hf. change (String.length ":") with 1%nat in Hf.
  rewrite (parse_member w k t v); [|done..|lia|by left]. rewrite skip_space_comma.
  change (Ascii.eqb "," "}") with false. change (Ascii.eqb "," ",") with true. cbv iota.
  destruct (join_member_start w x l (String "}" rest)) as [s Hs]; [by inversion Hl|]. simpl map in Hs.
  rewrite Hs. change (skip_space (String QUOTE s)) with (String QUOTE s). rewrite <- Hs.
  rewrite (IH ltac:(done)); [done|]. lia.
Qed.

Lemma foldl_od_set {A} (l d : list (string * A)) : NoDup (d ++ l)%list.*1 →
  foldl (λ d kv, od_set kv.1 kv.2 d) d l = (d ++ l)%list.
Proof.
  revert d. induction l as [|[k v] l IH]; intros d Hnd; simpl; [by rewrite app_nil_r|].
  rewrite fmap_app in Hnd. apply NoDup_app in Hnd as (Hd & Hdis & Hl). simpl in *.
  rewrite od_set_fresh.
  - rewrite IH; [by rewrite <- app_assoc|]. rewrite <- app_assoc, fmap_app. simpl.
    by apply NoDup_app.
  - apply od_get_None. intros Hin. by apply (Hdis k Hin), list_elem_of_here.
Qed.

Lemma object_reads w l : Forall (member_ok w) l → NoDup l.*1.*1 →
  reads ("{" +:+ join "," (map (λ x, member w x) l) +:+ "}") (JObject (map (λ x, (x.1.1, x.2)) l)).
Proof.
  intros Hl Hnd. split; [by do 2 eexists|]. intros [|n] rest Hf Hr; [lia|].
  rewrite !string_length_app in Hf. rewrite !string_app_assoc.
  change ("{" +:+ ?x) with (String "{" x). cbn [parse_value].
  change (Ascii.eqb "{" QUOTE) with false. change (Ascii.eqb "{" "[") with false.
  change (Ascii.eqb "{" "{") with true. cbv iota.
  destruct l as [|x l]; [done|].
  destruct (join_member_start w x l ("}" +:+ rest)) as [s Hs]; [by inversion Hl|]. rewrite Hs.
  change (skip_space (String QUOTE s)) with (String QUOTE s).
  change (Ascii.eqb QUOTE "}") with false. cbv iota. rewrite <- Hs.
  change ("}" +:+ rest) with (String "}" rest).
  rewrite members_read; [|done|done|simpl in *; lia].
  rewrite foldl_od_set; [done|].
  change (NoDup ((λ x : string * string * json, (x.1.1, x.2)) <$> (x :: l)).*1).
  rewrite <- list_fmap_compose. by rewrite <- list_fmap_compose in Hnd.
Qed.

Lemma dumps_object fields : NoDup fields.*1 →
  dumps (JObject fields) =
  "{" +:+ join "," (map (λ kv, json_ascii_string kv.1 +:+ ":" +:+ dumps kv.2) (merge_sort key_le fields)) +:+ "}".
Proof.
  intros Hnd. cbn [json_dumps].
  change (map (λ kv, (kv.1, dumps kv.2)) fields) with ((λ kv, (kv.1, dumps kv.2)) <$> fields).
  rewrite (merge_sort_fmap _ _ Hnd). by rewrite <- list_fmap_compose.
Qed.

(** The members of an object, each with its text. *)
Lemma members_ok w (text : json → string) (value : json → json) fields :
  Forall (written w) fields.*1 → Forall (λ v, reads (text v) (value v)) fields.*2 →
  Forall (member_ok w) ((λ kv, (kv.1, text kv.2, value kv.2)) <$> fields).
Proof.
  intros Hk Hv. rewrite Forall_fmap in Hk. rewrite Forall_fmap in Hv. rewrite Forall_forall in Hk.
  rewrite Forall_forall in Hv. apply Forall_fmap, Forall_forall. intros kv Hin.
  split; [by apply (Hk kv)|by apply (Hv kv)].
Qed.

Lemma fields_read w (text : json → string) (value : json → json) fields :
  Forall (written w) fields.*1 → Forall (λ v, reads (text v) (value v)) fields.*2 → NoDup fields.*1 →
  reads ("{" +:+ join "," (map (λ kv, w kv.1 +:+ ":" +:+ text kv.2) fields) +:+ "}")
    (JObject ((λ kv, (kv.1, value kv.2)) <$> fields)).
Proof.
  intros Hk Hv Hnd. pose proof (members_ok w text value fields Hk Hv) as Hm. apply object_reads in Hm.
  - by rewrite !map_map in Hm.
  - by rewrite <- !list_fmap_compose.
Qed.

Lemma dumped_value_reads v : json_ok v → reads (dumps v) (json_sorted v).
Proof.
  induction v as [|b|l|s|l IH|fields IH] using json_nested_ind; intros Hok; inversion_clear Hok.
  - split; [by do 2 eexists|]. intros [|n] rest Hn Hr; [lia|done].
  - destruct b; (split; [by do 2 eexists|]); (intros [|n] rest Hn Hr; [lia|done]).
  - by apply number_reads.
  - by apply string_reads.
  - cbn [json_dumps json_sorted]. apply array_reads.
    apply Forall2_fmap_2, Forall_Forall2_diag. rewrite Forall_forall in *. auto.
  - rewrite dumps_object by done. cbn [json_sorted].
    change (map (λ kv, (kv.1, json_sorted kv.2)) fields) with ((λ kv, (kv.1, json_sorted kv.2)) <$> fields).
    rewrite merge_sort_fmap by done. pose proof (merge_sort_Permutation key_le fields) as Hp. revert Hp.
    generalize (merge_sort key_le fields). intros l Hp.
    apply (fields_read json_ascii_string dumps json_sorted).
    + rewrite Hp. eapply Forall_impl; [done|]. apply ascii_written.
    + rewrite Hp. rewrite Forall_forall in *. auto.
    + by rewrite Hp.
Qed.

Lemma loads_read t v : reads t v → json_loads t = Some v.
Proof.
  intros Hr. unfold json_loads. pose proof (skip_space_reads t v "" Hr) as Hs. rewrite string_app_nil in Hs. rewrite Hs.
  destruct Hr as [_ Hr]. specialize (Hr (S (2 * String.length t)) ""). rewrite string_app_nil in Hr.
  rewrite Hr; [done|lia|done].
Qed.

(** [json.loads] reads what [json.dumps] with sorted keys and compact separators
    wrote: the same value, its objects in the order of their keys. *)
Lemma json_loads_dumps v : json_ok v → json_loads (dumps v) = Some (json_sorted v).
Proof.
  intros Hv. by apply loads_read, dumped_value_reads.
Qed.

(** ** Without sorting *)

(** [json.dumps(v, separators=(item, key))]: members in their own order. *)
Fixpoint json_dumps_plain (item key : string) (v : json) : string :=
  match v with
  | JNull => "null"
  | JBool b => if b then "true" else "false"
  | JNumber literal => literal
  | JString s => json_ascii_string s
  | JArray l => "[" +:+ join item (map (json_dumps_plain item key) l) +:+ "]"
  | JObject fields =>
      "{" +:+ join item (map (λ kv, json_ascii_string kv.1 +:+ key +:+ json_dumps_plain item key kv.2) fields) +:+ "}"
  end.

Lemma plain_value_reads v : json_ok v → reads (json_dumps_plain "," ":" v) v.
Proof.
  induction v as [|b|l|s|l IH|fields IH] using json_nested_ind; intros Hok; inversion_clear Hok.
  - split; [by do 2 eexists|]. intros [|n] rest Hn Hr; [lia|done].
  - destruct b; (split; [by do 2 eexists|]); (intros [|n] rest Hn Hr; [lia|done]).
  - by apply number_reads.
  - by apply string_reads.
  - cbn [json_dumps_plain]. rewrite <- (list_fmap_id l) at 2. apply array_reads.
    apply Forall2_fmap_2, Forall_Forall2_diag. rewrite Forall_forall in *. simpl. auto.
  - cbn [json_dumps_plain].
    pose proof (fields_read json_ascii_string (json_dumps_plain "," ":") (λ v, v) fields) as Hr.
    rewrite (list_fmap_ext _ (λ x, x) fields), list_fmap_id in Hr by (by intros ? [] _).
    apply Hr; [eapply Forall_impl; [done|]; apply ascii_written| |done]. rewrite Forall_forall in *. auto.
Qed.

Lemma json_loads_plain v : json_ok v → json_loads (json_dumps_plain "," ":" v) = Some v.
Proof. intros Hv. by apply loads_read, plain_value_reads. Qed.

(** ** Verbatim characters *)

(** [json.dumps(v, separators=(item, key), ensure_ascii=False)]. *)
Fixpoint json_dumps_verbatim (item key : string) (v : json) : string :=
  match v with
  | JNull => "null"
  | JBool b => if b then "true" else "false"
  | JNumber literal => literal
  | JString s => json_string s
  | JArray l => "[" +:+ join item (map (json_dumps_verbatim item key) l) +:+ "]"
  | JObject fields =>
      "{" +:+ join item (map (λ kv, json_string kv.1 +:+ key +:+ json_dumps_verbatim item key kv.2) fields) +:+ "}"
  end.

Lemma parse_verbatim_char c s : parse_string (json_escape_char c +:+ s) = prepend (String c "") (parse_string s).
Proof. destruct c as [[] [] [] [] [] [] [] []]; reflexivity. Qed.

Lemma parse_verbatim_string s rest : parse_string (json_escape s +:+ quote +:+ rest) = Some (s, rest).
Proof.
  induction s as [|c s IH]; [done|]. cbn [json_escape]. by rewrite string_app_assoc, parse_verbatim_char, IH.
Qed.

Lemma verbatim_written k : written json_string k.
Proof.
  intros rest. eexists. unfold json_string. rewrite !string_app_assoc. split; [done|]. apply parse_verbatim_string.
Qed.

Lemma verbatim_string_reads s : reads (json_string s) (JString s).
Proof.
  split; [by do 2 eexists|]. intros [|n] rest Hn Hr; [lia|].
  destruct (verbatim_written s rest) as (t & -> & Ht). cbn [parse_value].
  change (Ascii.eqb QUOTE QUOTE) with true. cbv iota. by rewrite Ht.
Qed.

Lemma verbatim_value_reads v : json_ok v → reads (json_dumps_verbatim "," ":" v) v.
Proof.
  induction v as [|b|l|s|l IH|fields IH] using json_nested_ind; intros Hok; inversion_clear Hok.
  - split; [by do 2 eexists|]. intros [|n] rest Hn Hr; [lia|done].
  - destruct b; (split; [by do 2 eexists|]); (intros [|n] rest Hn Hr; [lia|done]).
  - by apply number_reads.
  - by apply verbatim_string_reads.
  - cbn [json_dumps_verbatim]. rewrite <- (list_fmap_id l) at 2. apply array_reads.
    apply Forall2_fmap_2, Forall_Forall2_diag. rewrite Forall_forall in *. simpl. auto.
  - cbn [json_dumps_verbatim].
    pose proof (fields_read json_string (json_dumps_verbatim "," ":") (λ v, v) fields) as Hr.
    rewrite (list_fmap_ext _ (λ x, x) fields), list_fmap_id in Hr by (by intros ? [] _).
    apply Hr; [apply Forall_forall; intros; apply verbatim_written| |done]. rewrite Forall_forall in *. auto.
Qed.

Lemma json_loads_verbatim v : json_ok v → json_loads (json_dumps_verbatim "," ":" v) = Some v.
Proof. intros Hv. by apply loads_read, verbatim_value_reads. Qed.

(** The text with sorted keys does not depend on the order of the keys. *)
Lemma dumps_permutation (l k : list (string * json)) : NoDup l.*1 → l ≡ₚ k →
  dumps (JObject l) = dumps (JObject k).
Proof.
  intros Hnd Hp. assert (NoDup k.*1) as Hnd' by (by rewrite <- Hp). rewrite !dumps_object by done.
  do 4 f_equal. apply keys_sorted_unique.
  - by rewrite merge_sort_Permutation.
  - apply StronglySorted_merge_sort; apply _.
  - apply StronglySorted_merge_sort; apply _.
  - by rewrite !merge_sort_Permutation.
Qed.

Lemma dumps_values (f : json → json) (l : list (string * json)) : Forall (λ v, dumps (f v) = dumps v) l.*2 →
  dumps (JObject ((λ kv, (kv.1, f kv.2)) <$> l)) = dumps (JObject l).
Proof.
  intros Hl. cbn [json_dumps]. do 4 f_equal.
  change (map ?g ?x) with (g <$> x). rewrite <- list_fmap_compose. f_equal.
  apply list_fmap_ext. intros i [k v] Hi. simpl. f_equal. apply (Forall_lookup_1 _ _ i _ Hl). by rewrite list_lookup_fmap, Hi.
Qed.

Lemma dumps_sorted v : json_ok v → dumps (json_sorted v) = dumps v.
Proof.
  induction v as [|b|l|s|l IH|fields IH] using json_nested_ind; intros Hok; inversion_clear Hok; try done.
  - cbn [json_sorted json_dumps]. do 3 f_equal. change (map ?g ?x) with (g <$> x). rewrite <- list_fmap_compose.
    apply list_fmap_ext. intros i v Hi. rewrite Forall_forall in *. apply list_elem_of_lookup_2 in Hi. simpl. auto.
  - cbn [json_sorted]. change (map ?g fields) with (g <$> fields). rewrite merge_sort_fmap by done.
    rewrite dumps_values; [apply dumps_permutation|].
    + by rewrite merge_sort_Permutation.
    + apply merge_sort_Permutation.
    + rewrite merge_sort_Permutation. rewrite Forall_forall in *. auto.
Qed.

(** * Integers *)

Fixpoint digits_value (acc : N) (s : string) : option N :=
  match s with
  | EmptyString => Some acc
  | String c s' =>
      if is_digit c then digits_value (acc * 10 + (Ascii.N_of_ascii c - 48))%N s' else None
  end.

(** The value of a number that Python reads as an [int]. *)
Definition int_value (v : json) : option Z :=
  match v with
  | JNumber (String c s) =>
      if Ascii.eqb c "-" then
        if String.eqb s "" then None else (λ n, (- Z.of_N n)%Z) <$> digits_value 0 s
      else Z.of_N <$> digits_value 0 (String c s)
  | _ => None
  end.

Definition digits (d : string) : Prop := take_digits d = (d, "").

Lemma digits_cons c d : is_digit c = true → digits d → digits (String c d).
Proof. unfold digits. simpl. by intros -> ->. Qed.

Lemma digits_value_app acc d s : digits d → ∃ n, digits_value acc d = Some n ∧
  digits_value acc (d +:+ s) = digits_value n s.
Proof.
  revert acc. induction d as [|c d IH]; intros acc Hd; [by exists acc|].
  unfold digits in Hd. simpl in Hd. rewrite string_cons_app. simpl.
  destruct (is_digit c); [|done]. destruct (take_digits d) as [d' r] eqn:Htd. simplify_eq.
  by apply IH.
Qed.

Lemma pretty_char_value n : (n < 10)%N →
  is_digit (pretty_N_char n) = true ∧ (Ascii.N_of_ascii (pretty_N_char n) - 48 = n)%N ∧
  (Ascii.eqb (pretty_N_char n) "0" = false ∨ n = 0%N).
Proof.
  intros Hn. assert (n ∈ N.of_nat <$> seq 0 10) as Hin.
  { apply list_elem_of_fmap. exists (N.to_nat n). rewrite elem_of_seq. lia. }
  apply list_elem_of_In in Hin. simpl in Hin. clear Hn.
  repeat (destruct Hin as [<-|Hin]; [by vm_compute; auto|]). done.
Qed.

Lemma pretty_digits x s : (0 < x)%N → ∃ c d, pretty_N_go x s = String c d +:+ s ∧
  digits (String c d) ∧ Ascii.eqb c "0" = false ∧ digits_value 0 (String c d) = Some x.
Proof.
  revert s. induction (N.lt_wf_0 x) as [x _ IH]. intros s Hx.
  destruct (pretty_char_value (x mod 10)) as (Hd & Hval & Hz); [apply N.mod_lt; lia|].
  rewrite pretty_N_go_step by done. destruct (N.eq_dec (x / 10) 0) as [Hq|Hq].
  - rewrite Hq, pretty_N_go_0. exists (pretty_N_char (x mod 10)), "".
    assert (x mod 10 = x)%N as Hm by (apply N.mod_small; N_div).
    split; [done|]. split; [by apply digits_cons|]. split; [destruct Hz; [done|lia]|].
    simpl. rewrite Hd, Hval. by f_equal.
  - destruct (IH (x / 10)%N ltac:(apply N.div_lt; lia) (String (pretty_N_char (x mod 10)) s))
      as (c & d & -> & Hds & Hc & Hv); [by apply N.neq_0_lt_0|].
    exists c, (d +:+ String (pretty_N_char (x mod 10)) ""). split.
    { by rewrite !string_cons_app, string_app_assoc. }
    rewrite <- string_cons_app. split; [|split; [done|]].
    + clear -Hds Hd. revert Hds. generalize (String c d). intros t Ht. unfold digits in *.
      induction t as [|a t IHt]; [simpl; by rewrite Hd|]. rewrite string_cons_app. simpl in *.
      destruct (is_digit a); [|done]. destruct (take_digits t) as [t' r] eqn:E. simplify_eq.
      by rewrite IHt.
    + destruct (digits_value_app 0 (String c d) (String (pretty_N_char (x mod 10)) "") Hds)
        as (n & Hn & ->). rewrite Hn in Hv. simplify_eq. simpl. rewrite Hd, Hval. f_equal. N_div.
Qed.

Lemma written_int z : json_ok (JNumber (json_int z)) ∧ int_value (JNumber (json_int z)) = Some z.
Proof.
  assert (∀ p, ∃ c d, pretty (N.pos p) = String c d ∧ digits (String c d) ∧ Ascii.eqb c "0" = false ∧
    digits_value 0 (String c d) = Some (N.pos p)) as Hpos.
  { intros p. destruct (pretty_digits (N.pos p) "") as (c & d & Hp & ?); [lia|].
    exists c, d. rewrite string_app_nil in Hp. split; [|done]. exact Hp. }
  assert (∀ c d, digits (String c d) → Ascii.eqb c "0" = false → parse_integer (String c d) = Some (String c d, ""))
    as Hint by (intros c d Hd Hc; unfold parse_integer; by rewrite Hc, Hd).
  assert (∀ c d, digits (String c d) → Ascii.eqb c "-" = false) as Hminus.
  { intros c d Hd. unfold digits in Hd. simpl in Hd. destruct (is_digit c) eqn:Hc; [|done].
    by apply (digit_cases c). }
  unfold json_int. destruct z as [|p|p]; [by split; [constructor|]| |];
    destruct (Hpos p) as (c & d & Hp & Hd & Hc & Hv).
  - change (pretty (Z.pos p)) with (pretty (N.pos p)). rewrite Hp. split; [constructor|].
    + unfold parse_number. rewrite (Hminus c d Hd), (Hint c d Hd Hc). simpl. by rewrite !string_app_nil.
    + simpl int_value. rewrite (Hminus c d Hd). simpl in Hv. by rewrite Hv.
  - change (pretty (Z.neg p)) with ("-" +:+ pretty (N.pos p)). rewrite Hp.
    change ("-" +:+ ?x) with (String "-" x). split; [constructor|].
    + unfold parse_number. simpl Ascii.eqb. cbv iota. rewrite (Hint c d Hd Hc). simpl. by rewrite !string_app_nil.
    + simpl. simpl in Hv. by rewrite Hv.
Qed.

(** * Printable text *)

Definition NEWLINE : Ascii.ascii := byte_of 10.

(** Texts of printable ASCII characters. *)
Definition printable_char (c : Ascii.ascii) : bool :=
  let n := Ascii.N_of_ascii c in ((32 <=? n) && (n <? 127))%N.
Fixpoint printable (s : string) : bool :=
  match s with EmptyString => true | String c s' => printable_char c && printable s' end.
Abbreviation prints s := (printable s = true).

Lemma printable_app a b : printable (a +:+ b) = printable a && printable b.
Proof. induction a as [|c a IH]; [done|]. rewrite string_cons_app. simpl. by rewrite IH, andb_assoc. Qed.

Lemma digits_prints s d r : take_digits s = (d, r) → prints d.
Proof.
  revert d r. induction s as [|c s IH]; intros d r Hs; simpl in Hs; [by simplify_eq|].
  destruct (is_digit c) eqn:Hc; [|by simplify_eq]. destruct (take_digits s) as [d' r'] eqn:Hd.
  simplify_eq. simpl. rewrite (IH d' r) by done. by apply (digit_cases c).
Qed.

Lemma number_prints s l r : parse_number s = Some (l, r) → prints l.
Proof.
  assert (∀ s i r, parse_integer s = Some (i, r) → prints i) as Hi.
  { intros [|c t] i r' Hi; [done|]. unfold parse_integer in Hi. destruct (Ascii.eqb c "0"); [by simplify_eq|].
    destruct (take_digits (String c t)) as [d r1] eqn:Hd. destruct (String.eqb d ""); [done|].
    simplify_eq. by eapply digits_prints. }
  assert (∀ s f r, parse_fraction s = (f, r) → prints f) as Hf.
  { intros [|c t] f r' Hf; simpl in Hf; [by simplify_eq|].
    destruct (Ascii.eqb_spec c ".") as [->|]; [|by simplify_eq].
    destruct (take_digits t) as [d r1] eqn:Hd. apply digits_prints in Hd.
    destruct (String.eqb d ""); by simplify_eq. }
  assert (∀ s e r, parse_exponent s = (e, r) → prints e) as He.
  { intros [|c t] e r' He; unfold parse_exponent in He; [by simplify_eq|].
    destruct (Ascii.eqb c "e" || Ascii.eqb c "E") eqn:Hc; [|by simplify_eq].
    assert (∃ sign s2, match t with
      | EmptyString => ("", "")
      | String g s2 => if Ascii.eqb g "+" || Ascii.eqb g "-" then (String g "", s2) else ("", t)
      end = (sign, s2) ∧ prints sign) as (sign & s2 & Hs & Hsign).
    { destruct t as [|g t]; [by exists "", ""|].
      destruct (Ascii.eqb_spec g "+") as [->|]; [by eexists _, _; split; [reflexivity|]|].
      destruct (Ascii.eqb_spec g "-") as [->|]; by eexists _, _; split; [reflexivity|]. }
    rewrite Hs in He. destruct (take_digits s2) as [d r1] eqn:Hd. apply digits_prints in Hd.
    destruct (String.eqb d ""); simplify_eq; [done|]. simpl. rewrite printable_app, Hsign, Hd.
    apply orb_true_iff in Hc as [->%Ascii.eqb_eq| ->%Ascii.eqb_eq]; done. }
  intros Hs. unfold parse_number in Hs.
  assert (∃ sign s1, match s with
    | EmptyString => ("", "")
    | String c s1 => if Ascii.eqb c "-" then ("-", s1) else ("", s)
    end = (sign, s1) ∧ prints sign) as (sign & s1 & Heq & Hsign).
  { destruct s as [|c s]; [by exists "", ""|]. destruct (Ascii.eqb c "-"); by eexists _, _; split; [reflexivity|]. }
  rewrite Heq in Hs. destruct (parse_integer s1) as [[i s2]|] eqn:H1; [|done].
  destruct (parse_fraction s2) as [f s3] eqn:H2. destruct (parse_exponent s3) as [e s4] eqn:H3.
  simplify_eq. rewrite !printable_app, Hsign, (Hi _ _ _ H1), (Hf _ _ _ H2), (He _ _ _ H3). done.
Qed.

Lemma hex_digit_prints n : (n < 16)%nat → printable_char (hex_digit n) = true.
Proof. intros Hn. do 16 (destruct n as [|n]; [reflexivity|]). lia. Qed.

Lemma json_u_prints v : prints (json_u v).
Proof.
  assert (∀ w, prints (String (byte_of 92) ("u" +:+ hex4 w))) as Hu.
  { intros w. unfold hex4.
    assert (∀ k, N.to_nat ((w / 16 ^ k) mod 16) < 16)%nat as Hd.
    { intros k. pose proof (N.mod_lt (w / 16 ^ k) 16). lia. }
    cbn [printable]. rewrite printable_app. cbn [printable]. by rewrite !hex_digit_prints by apply Hd. }
  unfold json_u. destruct (v <? 65536)%N; [apply Hu|]. by rewrite printable_app, !Hu.
Qed.

Lemma escape_prints v : prints (escape_code v).
Proof.
  unfold escape_code. destruct (N.ltb_spec v 127) as [Hv|]; [|apply json_u_prints].
  assert (v ∈ N.of_nat <$> seq 0 127) as Hin.
  { apply list_elem_of_fmap. exists (N.to_nat v). rewrite elem_of_seq. lia. }
  clear Hv. apply list_elem_of_In in Hin. simpl in Hin.
  repeat (destruct Hin as [<-|Hin]; [reflexivity|]). done.
Qed.

Lemma string_prints s : valid_text s → prints (json_ascii_string s).
Proof.
  intros (cps & Hcps & ->). unfold json_ascii_string. rewrite !printable_app.
  change (printable quote) with true. rewrite andb_true_r. simpl.
  induction Hcps as [|v cps [_ Hv] Hcps IH]; [done|].
  change (encode_text (v :: cps)) with (utf8_encode v +:+ encode_text cps).
  by rewrite escape_encode, printable_app, escape_prints, IH.
Qed.

Lemma join_prints sep l : prints sep → Forall (λ s, prints s) l → prints (join sep l).
Proof.
  intros Hsep. induction 1 as [|s l Hs Hl IH]; [done|]. destruct l as [|t l]; [done|].
  rewrite join_cons, !printable_app, Hs, Hsep. done.
Qed.

(** A written value is printable ASCII. *)
Lemma dumps_prints v : json_ok v → prints (dumps v).
Proof.
  induction v as [|b|l|s|l IH|fields IH] using json_nested_ind; intros Hok; [done|by destruct b|..].
  - inversion_clear Hok as [| |? Hl| | |]. by eapply number_prints.
  - inversion_clear Hok. by apply string_prints.
  - inversion_clear Hok as [| | | |? Hl|]. cbn [json_dumps]. rewrite !printable_app, join_prints; [done..|].
    apply Forall_forall. intros s Hs. apply list_elem_of_In, in_map_iff in Hs as (v & <- & Hv).
    apply list_elem_of_In in Hv. rewrite Forall_forall in IH, Hl. auto.
  - inversion_clear Hok as [| | | | |? Hnd Hk Hv]. rewrite dumps_object by done.
    rewrite !printable_app, join_prints; [done..|].
    apply Forall_forall. intros s Hs. apply list_elem_of_In, in_map_iff in Hs as ([k v] & <- & Hin).
    apply list_elem_of_In in Hin. rewrite merge_sort_Permutation in Hin.
    rewrite !Forall_fmap, !Forall_forall in *. rewrite !printable_app.
    rewrite string_prints by (by apply (Hk (k, v))). simpl. apply (IH (k, v)); [done|]. by apply (Hv (k, v)).
Qed.

(** Texts of ASCII characters. *)
Definition ascii_text (s : string) : bool :=
  forallb (λ c, (Ascii.N_of_ascii c <? 128)%N) (String.list_ascii_of_string s).

Lemma ascii_valid s : ascii_text s = true → valid_text s.
Proof.
  induction s as [|c s IH]; [by exists []|]. intros [Hc Hs]%andb_true_iff.
  apply N.ltb_lt in Hc. destruct (IH Hs) as (cps & Hcps & ->). exists (Ascii.N_of_ascii c :: cps). split.
  - constructor; [unfold scalar; lia|done].
  - change (encode_text (?v :: cps)) with (utf8_encode v +:+ encode_text cps).
    unfold utf8_encode. rewrite (proj2 (N.ltb_lt _ 128)) by done. unfold byte_N.
    by rewrite Ascii.ascii_N_embedding.
Qed.

Lemma printable_text s : prints s → ascii_text s = true ∧ has_char NEWLINE s = false.
Proof.
  induction s as [|c s IH]; [done|]. simpl. unfold ascii_text. simpl. intros [Hc Hs]%andb_true_iff.
  destruct (IH Hs) as [Ha Hn]. unfold ascii_text in Ha. rewrite Ha, Hn.
  unfold printable_char in Hc. apply andb_true_iff in Hc as [Hlo%N.leb_le Hhi%N.ltb_lt]. split.
  - by rewrite (proj2 (N.ltb_lt _ _)) by lia.
  - rewrite orb_false_r. apply Ascii.eqb_neq. intros ->. by vm_compute in Hlo.
Qed.

Lemma dumps_one_line v : json_ok v → has_char NEWLINE (dumps v) = false.
Proof. intros Hv. by apply printable_text, dumps_prints. Qed.
