(* ===== verification/Runtime.v ===== *)
(** The runtime's mode and lifecycle governance: execution modes and generation
    scopes (src/optimus/runtime/modes.py), the agent's lifecycle state machine and
    its approval record (src/optimus/runtime/state.py), and the guard every
    mutation passes (src/optimus/runtime/mutation.py). *)
From S2P Require Import Prelude Text.

Local Open Scope string_scope.

(** * Modes and scopes *)

Inductive ExecutionMode := PLAN | CHAT | AGENT.
#[export] Instance ExecutionMode_eq_dec : EqDecision ExecutionMode.
Proof. solve_decision. Defined.

Inductive GenerationScope :=
| INLINE_SNIPPET | PATCH_PROPOSAL | FILE_MUTATION | MULTI_FILE_CHANGESET.
#[export] Instance GenerationScope_eq_dec : EqDecision GenerationScope.
Proof. solve_decision. Defined.

(** The number of distinct first components of the paths that have one. *)
Definition distinct_roots (paths : list string) : nat :=
  size (list_to_set (omap (λ path, head (posix_parts (normalize_separators path))) paths)
        : gset string).

Definition classify_generation_scope (generated_line_count : Z)
    (modified_paths created_paths deleted_paths : list string)
    (touches_core_package : bool) : GenerationScope :=
  let changed_paths := (modified_paths ++ created_paths ++ deleted_paths)%list in
  if touches_core_package || bool_decide (1 < distinct_roots changed_paths)%nat
  then MULTI_FILE_CHANGESET
  else if negb (bool_decide (created_paths = [])) || negb (bool_decide (deleted_paths = []))
  then FILE_MUTATION
  else if negb (bool_decide (modified_paths = [])) then PATCH_PROPOSAL
  else if (generated_line_count <? 15)%Z then INLINE_SNIPPET
  else PATCH_PROPOSAL.

(** * The lifecycle *)

Inductive AgentState :=
| IDLE | PLANNING | PLAN_READY | CHAT_ONLY | AWAITING_APPROVAL | EXECUTING
| TOOL_CALLING | VALIDATING | FAILED | COMPLETED | TERMINATED.
#[export] Instance AgentState_eq_dec : EqDecision AgentState.
Proof. solve_decision. Defined.

Definition AgentState_value (s : AgentState) : string :=
  match s with
  | IDLE => "IDLE" | PLANNING => "PLANNING" | PLAN_READY => "PLAN_READY"
  | CHAT_ONLY => "CHAT_ONLY" | AWAITING_APPROVAL => "AWAITING_APPROVAL"
  | EXECUTING => "EXECUTING" | TOOL_CALLING => "TOOL_CALLING"
  | VALIDATING => "VALIDATING" | FAILED => "FAILED" | COMPLETED => "COMPLETED"
  | TERMINATED => "TERMINATED"
  end.

Record RuntimeContext := mkRuntimeContext {
  rc_execution_mode : ExecutionMode;
  rc_state : AgentState;
  rc_approval_granted : bool;
  rc_user_approval_id : option string;
  rc_retry_count : Z;
  rc_max_retries : Z;
  rc_failure_context : option string;
  rc_user_escalation : bool
}.

(** [RuntimeContext(execution_mode=mode)] with its defaults. *)
Definition initial_context (mode : ExecutionMode) : RuntimeContext :=
  mkRuntimeContext mode IDLE false None 0 3 None false.

(** [dataclasses.replace] of the fields the lifecycle changes. *)
Definition with_state (c : RuntimeContext) (s : AgentState) : RuntimeContext :=
  mkRuntimeContext (rc_execution_mode c) s (rc_approval_granted c) (rc_user_approval_id c)
    (rc_retry_count c) (rc_max_retries c) (rc_failure_context c) (rc_user_escalation c).
Definition with_approval (c : RuntimeContext) (granted : bool) (id : option string)
    : RuntimeContext :=
  mkRuntimeContext (rc_execution_mode c) (rc_state c) granted id
    (rc_retry_count c) (rc_max_retries c) (rc_failure_context c) (rc_user_escalation c).
Definition with_retry_count (c : RuntimeContext) (n : Z) : RuntimeContext :=
  mkRuntimeContext (rc_execution_mode c) (rc_state c) (rc_approval_granted c)
    (rc_user_approval_id c) n (rc_max_retries c) (rc_failure_context c)
    (rc_user_escalation c).
Definition with_failure (c : RuntimeContext) (failure : option string) (escalate : bool)
    : RuntimeContext :=
  mkRuntimeContext (rc_execution_mode c) (rc_state c) (rc_approval_granted c)
    (rc_user_approval_id c) (rc_retry_count c) (rc_max_retries c) failure escalate.

Record StateTransition := mkStateTransition {
  st_target : AgentState;
  st_reason : string
}.

Inductive MutationForbidden := mkMutationForbidden (message : string).

Record AwaitingApproval := mkAwaitingApproval {
  aa_approval_id : string;
  aa_requested_at_ms : Z;
  aa_timeout_ms : Z
}.

Definition require_awaiting (c : RuntimeContext) : res MutationForbidden unit :=
  raise_if (negb (bool_decide (rc_state c = AWAITING_APPROVAL)))
    (mkMutationForbidden "approval record can be used only in AwaitingApproval state").

Definition grant (a : AwaitingApproval) (c : RuntimeContext)
    : res MutationForbidden RuntimeContext :=
  require_awaiting c ;;*
  Ok (with_approval c true (Some (aa_approval_id a))).

Definition deny (a : AwaitingApproval) (c : RuntimeContext)
    : res MutationForbidden RuntimeContext :=
  require_awaiting c ;;*
  Ok (with_approval (with_state c CHAT_ONLY) false (Some (aa_approval_id a))).

Definition timeout_if_expired (a : AwaitingApproval) (c : RuntimeContext) (now_ms : Z)
    : res MutationForbidden RuntimeContext :=
  require_awaiting c ;;*
  if (now_ms - aa_requested_at_ms a <=? aa_timeout_ms a)%Z then Ok c
  else Ok (with_approval (with_state c CHAT_ONLY) false (Some (aa_approval_id a))).

(** The transition function, test by test in the source's order. *)
Definition transition (c : RuntimeContext) (t : StateTransition)
    : res MutationForbidden RuntimeContext :=
  let source := rc_state c in
  let target := st_target t in
  let forbidden m := Err (mkMutationForbidden m) in
  if bool_decide (target = EXECUTING) &&
     negb (bool_decide (source = AWAITING_APPROVAL) || bool_decide (source = VALIDATING))
  then if decide (source = PLAN_READY)
       then forbidden "PlanReady -> Executing rejected: must pass through AwaitingApproval"
       else forbidden "No path bypasses AwaitingApproval"
  else match source, target with
  | IDLE, PLANNING => Ok (with_state c target)
  | PLANNING, PLAN_READY => Ok (with_state c target)
  | PLAN_READY, CHAT_ONLY =>
      if decide (rc_execution_mode c = AGENT)
      then forbidden "Agent mode cannot fall through to ChatOnly without denial or timeout"
      else Ok (with_state c target)
  | PLAN_READY, AWAITING_APPROVAL =>
      if decide (rc_execution_mode c = AGENT) then Ok (with_state c target)
      else forbidden "AwaitingApproval is valid only in Agent mode"
  | AWAITING_APPROVAL, EXECUTING =>
      if negb (rc_approval_granted c) then forbidden "approval required before Executing"
      else Ok (with_state c target)
  | AWAITING_APPROVAL, CHAT_ONLY =>
      Ok (with_approval (with_state c target) false (rc_user_approval_id c))
  | EXECUTING, TOOL_CALLING | EXECUTING, COMPLETED => Ok (with_state c target)
  | TOOL_CALLING, VALIDATING => Ok (with_state c target)
  | VALIDATING, EXECUTING =>
      if negb (rc_approval_granted c) then forbidden "approval required before Executing"
      else Ok (with_state c target)
  | VALIDATING, FAILED => Ok (with_state c target)
  | FAILED, PLANNING =>
      if (rc_max_retries c <=? rc_retry_count c)%Z then forbidden "retry budget exhausted"
      else Ok (with_retry_count (with_state c target) (rc_retry_count c + 1))
  | FAILED, TERMINATED => Ok (with_failure (with_state c target) (rc_failure_context c) true)
  | _, _ => forbidden ("invalid transition: " +:+ AgentState_value source +:+ " -> "
                       +:+ AgentState_value target)
  end.

(** * The mutation guard *)

Inductive MutationKind := WRITE_FILE | SHELL_EXEC | SHADOW_APPLY_KIND.

Definition assert_mutation_allowed (c : RuntimeContext) (kind : MutationKind)
    : res MutationForbidden unit :=
  let forbidden m := mkMutationForbidden m in
  raise_if (bool_decide (rc_execution_mode c = PLAN) || bool_decide (rc_execution_mode c = CHAT))
    (forbidden "mutation forbidden in Plan/Chat mode") ;;*
  raise_if (negb (bool_decide (rc_execution_mode c = AGENT)))
    (forbidden "unknown execution mode") ;;*
  raise_if (negb (rc_approval_granted c) || bool_decide (rc_user_approval_id c = None))
    (forbidden "approval required before mutation") ;;*
  raise_if (negb (bool_decide (rc_state c = EXECUTING) || bool_decide (rc_state c = TOOL_CALLING)
                  || bool_decide (rc_state c = VALIDATING)))
    (forbidden ("mutation not allowed from state " +:+ AgentState_value (rc_state c))).

(** * What the lifecycle promises *)

(** The lifecycle's edges, each with the condition on the context it needs. *)
Inductive lifecycle_edge (c : RuntimeContext) : AgentState → AgentState → Prop :=
| edge_plan : lifecycle_edge c IDLE PLANNING
| edge_ready : lifecycle_edge c PLANNING PLAN_READY
| edge_chat : rc_execution_mode c ≠ AGENT → lifecycle_edge c PLAN_READY CHAT_ONLY
| edge_await : rc_execution_mode c = AGENT → lifecycle_edge c PLAN_READY AWAITING_APPROVAL
| edge_execute : rc_approval_granted c = true → lifecycle_edge c AWAITING_APPROVAL EXECUTING
| edge_decline : lifecycle_edge c AWAITING_APPROVAL CHAT_ONLY
| edge_tool : lifecycle_edge c EXECUTING TOOL_CALLING
| edge_complete : lifecycle_edge c EXECUTING COMPLETED
| edge_validate : lifecycle_edge c TOOL_CALLING VALIDATING
| edge_resume : rc_approval_granted c = true → lifecycle_edge c VALIDATING EXECUTING
| edge_fail : lifecycle_edge c VALIDATING FAILED
| edge_retry : (rc_retry_count c < rc_max_retries c)%Z → lifecycle_edge c FAILED PLANNING
| edge_terminate : lifecycle_edge c FAILED TERMINATED.

(** One operation of the lifecycle: a validated transition, or one of the three
    uses of an approval record. *)
Inductive lifecycle_step : RuntimeContext → RuntimeContext → Prop :=
| step_transition c t c' : transition c t = Ok c' → lifecycle_step c c'
| step_grant a c c' : grant a c = Ok c' → lifecycle_step c c'
| step_deny a c c' : deny a c = Ok c' → lifecycle_step c c'
| step_timeout a c now c' : timeout_if_expired a c now = Ok c' → lifecycle_step c c'.

(** The states in which tools run. *)
Definition in_execution (s : AgentState) : bool :=
  bool_decide (s = EXECUTING) || bool_decide (s = TOOL_CALLING) || bool_decide (s = VALIDATING).

(** The lifecycle's invariant: work runs only in Agent mode under a recorded
    approval, approval is asked for only in Agent mode, and the retries stay
    within their budget. *)
Record lifecycle_inv (c : RuntimeContext) : Prop := {
  inv_execution : in_execution (rc_state c) = true →
    rc_execution_mode c = AGENT ∧ rc_approval_granted c = true;
  inv_awaiting : rc_state c = AWAITING_APPROVAL → rc_execution_mode c = AGENT;
  inv_approval : rc_approval_granted c = true → is_Some (rc_user_approval_id c);
  inv_retries : (0 ≤ rc_retry_count c ≤ rc_max_retries c)%Z
}.

Ltac solve_lifecycle :=
  constructor; simpl in *; intros; simplify_eq/=; eauto; try lia; naive_solver.

Lemma require_awaiting_ok c u :
  require_awaiting c = Ok u → rc_state c = AWAITING_APPROVAL.
Proof. unfold require_awaiting. intros H%raise_if_ok. by bool_to_prop. Qed.

Lemma transition_inv c t c' :
  lifecycle_inv c → transition c t = Ok c' → lifecycle_inv c'.
Proof.
  destruct c as [mode st granted id n mx f esc], t as [target r]. intros [H1 H2 H3 H4].
  unfold transition; simpl in *.
  destruct st, target; simpl in *; intros; split_ifs; inv_res; bool_to_prop; solve_lifecycle.
Qed.

Lemma approval_inv c u (granted : bool) s id :
  require_awaiting c = Ok u → lifecycle_inv c →
  (s = CHAT_ONLY ∨ s = rc_state c) →
  lifecycle_inv (with_approval (with_state c s) granted (Some id)).
Proof.
  intros Ha%require_awaiting_ok [H1 H2 H3 H4] Hs.
  destruct c as [mode st g aid n mx f esc]; simpl in *; subst.
  destruct Hs as [->| ->]; solve_lifecycle.
Qed.

Lemma lifecycle_step_inv c c' : lifecycle_step c c' → lifecycle_inv c → lifecycle_inv c'.
Proof.
  destruct 1 as [c t c' H|a c c' H|a c c' H|a c now c' H]; intros Hi.
  - by eapply transition_inv.
  - unfold grant in H. inv_res.
    pose proof (approval_inv c _ true (rc_state c) (aa_approval_id a) H0 Hi (or_intror eq_refl)).
    by destruct c.
  - unfold deny in H. inv_res. by eapply approval_inv; eauto.
  - unfold timeout_if_expired in H. inv_res. split_ifs; inv_res.
    by eapply approval_inv; eauto.
Qed.

Lemma reachable_lifecycle_inv mode c :
  rtc lifecycle_step (initial_context mode) c → lifecycle_inv c.
Proof.
  intros Hr. apply rtc_ind_r with (P := λ c, lifecycle_inv c) in Hr; [done|solve_lifecycle|].
  intros ? ? _ Hs ?. by eapply lifecycle_step_inv.
Qed.

(** C5: in every context reachable from a fresh one, the mutation guard lets a
    mutation through exactly when the agent is executing, calling a tool or
    validating; so no mutation happens without Agent mode, a granted approval and
    its recorded id, and an approved run is never refused. *)
Theorem mutation_guard_exact mode c kind :
  rtc lifecycle_step (initial_context mode) c →
  is_ok (assert_mutation_allowed c kind) = in_execution (rc_state c) ∧
  (is_ok (assert_mutation_allowed c kind) = true →
   rc_execution_mode c = AGENT ∧ rc_approval_granted c = true ∧
   is_Some (rc_user_approval_id c)).
Proof.
  intros [H1 H2 H3 _]%reachable_lifecycle_inv.
  destruct c as [m st g id n mx f esc]; simpl in *.
  unfold assert_mutation_allowed, in_execution in *; simpl in *.
  destruct st; simpl in *; destruct m, g, id; simpl in *; naive_solver.
Qed.

Definition approved_run : RuntimeContext :=
  mkRuntimeContext AGENT EXECUTING true (Some "a1") 0 3 None false.

Lemma mutation_guard_exact_witness :
  rtc lifecycle_step (initial_context AGENT) approved_run ∧
  is_ok (assert_mutation_allowed approved_run WRITE_FILE) = true.
Proof.
  assert (Hr : rtc lifecycle_step (initial_context AGENT) approved_run).
  { eapply rtc_l; [eapply (step_transition _ (mkStateTransition PLANNING "")); reflexivity|].
    eapply rtc_l; [eapply (step_transition _ (mkStateTransition PLAN_READY "")); reflexivity|].
    eapply rtc_l; [eapply (step_transition _ (mkStateTransition AWAITING_APPROVAL "")); reflexivity|].
    eapply rtc_l; [eapply (step_grant (mkAwaitingApproval "a1" 0 60000)); reflexivity|].
    eapply rtc_l; [eapply (step_transition _ (mkStateTransition EXECUTING "")); reflexivity|].
    apply rtc_refl. }
  split; [exact Hr|].
  rewrite (proj1 (mutation_guard_exact AGENT approved_run WRITE_FILE Hr)). reflexivity.
Defined.

(** The transition function accepts exactly the lifecycle's edges under their
    guards, and an accepted transition moves to its target and changes nothing
    else but the approval flag (cleared when approval is declined), the retry
    count (incremented by a retry) and the escalation flag (set on termination). *)
Theorem transition_refines_edges c t :
  (is_ok (transition c t) = true ↔ lifecycle_edge c (rc_state c) (st_target t)) ∧
  (∀ c', transition c t = Ok c' →
     rc_state c' = st_target t ∧ rc_execution_mode c' = rc_execution_mode c ∧
     rc_user_approval_id c' = rc_user_approval_id c ∧
     rc_approval_granted c' =
       (rc_approval_granted c &&
        negb (bool_decide (rc_state c = AWAITING_APPROVAL) &&
              bool_decide (st_target t = CHAT_ONLY))) ∧
     rc_retry_count c' =
       (rc_retry_count c + if decide (rc_state c = FAILED ∧ st_target t = PLANNING)
                           then 1 else 0)%Z ∧
     rc_max_retries c' = rc_max_retries c ∧
     rc_user_escalation c' =
       (rc_user_escalation c || bool_decide (st_target t = TERMINATED))).
Proof.
  destruct c as [mode st granted id n mx f esc], t as [target r].
  unfold transition; simpl in *. split.
  - split.
    + destruct st, target; simpl; intros; try discriminate; split_ifs; bool_to_prop;
        constructor; simpl; auto.
    + inversion 1; simplify_eq/=; rewrite ?decide_True by done; rewrite ?decide_False by done; try done.
      destruct (Z.leb_spec mx n); [lia|done].
  - intros c' H. destruct st, target; simpl in *; split_ifs; inv_res; bool_to_prop; simpl;
      rewrite ?andb_true_r, ?andb_false_r, ?orb_false_r, ?orb_true_r, ?Z.add_0_r; done.
Qed.

(** An approval that has not been used expires strictly after its timeout,
    and denial, expiry and cancellation all end in chat-only output with no
    approval left, a state the lifecycle never leaves. *)
Theorem approval_expiry a c now :
  rc_state c = AWAITING_APPROVAL →
  (∃ c', timeout_if_expired a c now = Ok c' ∧
    (if decide (now ≤ aa_requested_at_ms a + aa_timeout_ms a)%Z then c' = c
     else deny a c = Ok c' ∧ rc_state c' = CHAT_ONLY ∧ rc_approval_granted c' = false ∧
          ∀ t, is_ok (transition c' t) = false)).
Proof.
  intros Hs. unfold timeout_if_expired, deny, require_awaiting. rewrite Hs; simpl.
  destruct (Z.leb_spec (now - aa_requested_at_ms a) (aa_timeout_ms a)).
  - eexists; split; [done|]. by rewrite decide_True by lia.
  - eexists; split; [done|]. rewrite decide_False by lia. split_and!; [done..|].
    intros [target r]. unfold transition; simpl. by destruct target.
Qed.

Lemma approval_expiry_witness :
  ∃ c', timeout_if_expired (mkAwaitingApproval "a" 0 10)
          (mkRuntimeContext AGENT AWAITING_APPROVAL true (Some "a") 0 3 None false) 11 = Ok c'
        ∧ rc_state c' = CHAT_ONLY.
Proof.
  destruct (approval_expiry (mkAwaitingApproval "a" 0 10)
    (mkRuntimeContext AGENT AWAITING_APPROVAL true (Some "a") 0 3 None false) 11 eq_refl)
    as (c' & H & H').
  exists c'. split; [exact H|]. destruct H' as (_ & Hc & _). exact Hc.
Defined.
