(* ===== verification/Signals.v ===== *)
(** Planning-loop signals (src/optimus/loops/signals.py) and the loop detector
    (src/optimus/loops/detector.py): what a planning step read, what it got back,
    whether that was new evidence, and whether the steps repeat themselves.

    [ReadCoverage] keeps, per path and file content, the byte ranges already
    read as a sorted list of merged intervals; it is proved to implement the set
    of bytes returned so far. [LoopDetector] keeps a bounded window of steps; it
    is proved to decide on the unbounded history. *)
From stdpp Require Import pretty sorting.
From S2P Require Import Prelude Text.

Local Open Scope string_scope.
Local Open Scope Z_scope.

(** * Steps *)

Inductive ActionKind := READ | MCP | PARSE_FAILURE.
#[export] Instance ActionKind_eq_dec : EqDecision ActionKind.
Proof. solve_decision. Defined.

Record LoopStep := mkLoopStep {
  ls_kind : ActionKind;
  ls_fingerprint : string;
  ls_result_digest : string;
  ls_novel : bool;
  ls_subject : string;
  ls_error_class : option string;
  ls_error_message : option string
}.

Record ReadResult := mkReadResult {
  rr_path : string;
  rr_start_byte : Z;
  rr_end_byte : Z;
  rr_source_sha256 : string;
  rr_returned_end_byte : Z
}.

(** * Read coverage *)

Definition span : Type := Z * Z.

Record ReadCoverage := mkReadCoverage {
  cov_spans : gmap (string * string) (list span);
  cov_last_sha : gmap string string
}.

Definition empty_coverage : ReadCoverage := mkReadCoverage ∅ ∅.

Definition covers (merged : list span) (start stop : Z) : bool :=
  existsb (λ s, (s.1 <=? start) && (stop <=? s.2)) merged.

(** The order of Python's tuples of integers. *)
Definition span_le (s1 s2 : span) : Prop :=
  s1.1 < s2.1 ∨ (s1.1 = s2.1 ∧ s1.2 ≤ s2.2).
#[export] Instance span_le_dec : RelDecision span_le.
Proof. intros ? ?. unfold span_le. apply _. Defined.

(** The merging loop: [merged] is kept in reverse, so its head is [merged[-1]]. *)
Fixpoint merge_loop (merged : list span) (spans : list span) : list span :=
  match spans with
  | [] => reverse merged
  | (start, stop) :: rest =>
      match merged with
      | (s0, e0) :: merged' =>
          if start <=? e0 then merge_loop ((s0, Z.max e0 stop) :: merged') rest
          else merge_loop ((start, stop) :: merged) rest
      | [] => merge_loop [(start, stop)] rest
      end
  end.

(** [spans.append((start, end)); spans.sort()] and the merging loop. *)
Definition insert_span (spans : list span) (start stop : Z) : list span :=
  merge_loop [] (merge_sort span_le (spans ++ [(start, stop)])%list).

(** [ReadCoverage.add]: whether the read was novel, and the new coverage. *)
Definition coverage_add (c : ReadCoverage) (read : ReadResult) : bool * ReadCoverage :=
  let path := rr_path read in
  let sha := rr_source_sha256 read in
  let first_seen := bool_decide (cov_last_sha c !! path = None) in
  let changed := bool_decide (default sha (cov_last_sha c !! path) ≠ sha) in
  let last_sha := <[path := sha]> (cov_last_sha c) in
  let spans := default [] (cov_spans c !! (path, sha)) in
  let start := rr_start_byte read in
  let stop := rr_returned_end_byte read in
  if stop <=? start
  then (first_seen || changed, mkReadCoverage (<[(path, sha) := spans]> (cov_spans c)) last_sha)
  else (changed || negb (covers spans start stop),
        mkReadCoverage (<[(path, sha) := insert_span spans start stop]> (cov_spans c)) last_sha).

(** The loop of [read_step] over the ordered reads. *)
Fixpoint coverage_add_all (c : ReadCoverage) (reads : list ReadResult) (novel : bool)
    : bool * ReadCoverage :=
  match reads with
  | [] => (novel, c)
  | read :: rest =>
      let '(b, c') := coverage_add c read in coverage_add_all c' rest (b || novel)
  end.

(** The sort key [(path, start_byte, end_byte)] of [read_step]. *)
Definition read_le (r1 r2 : ReadResult) : Prop :=
  match String.compare (rr_path r1) (rr_path r2) with
  | Lt => True
  | Gt => False
  | Eq => span_le (rr_start_byte r1, rr_end_byte r1) (rr_start_byte r2, rr_end_byte r2)
  end.
#[export] Instance read_le_dec : RelDecision read_le.
Proof. intros ? ?. unfold read_le. destruct String.compare; apply _. Defined.

Definition read_identity (read : ReadResult) : string :=
  rr_path read +:+ "#bytes=" +:+ pretty (rr_start_byte read) +:+ ":" +:+ pretty (rr_end_byte read).

Definition read_step (reads : list ReadResult) (coverage : ReadCoverage)
    : LoopStep * ReadCoverage :=
  let ordered := merge_sort read_le reads in
  let identities := map read_identity ordered in
  let '(novel, coverage') := coverage_add_all coverage ordered false in
  (mkLoopStep READ ("READ:" +:+ join "|" identities)
     (join "|" (map rr_source_sha256 ordered)) novel
     ("the read of " +:+ join ", " identities) None None,
   coverage').

(** * MCP results *)

Record McpResults := mkMcpResults {
  mcp_seen : gset string;
  mcp_last : gmap string string
}.

Definition empty_mcp_results : McpResults := mkMcpResults ∅ ∅.

Definition mcp_add (m : McpResults) (fingerprint digest : string) : bool * McpResults :=
  let changed := bool_decide (default digest (mcp_last m !! fingerprint) ≠ digest) in
  let novel := changed || negb (bool_decide (digest ∈ mcp_seen m)) in
  (novel, mkMcpResults ({[digest]} ∪ mcp_seen m) (<[fingerprint := digest]> (mcp_last m))).

Section steps.
(** [hashlib.sha256(text.encode("utf-8")).hexdigest()] and the canonical JSON of
    a call's arguments, [json.dumps(dict(arguments), sort_keys=True, ...)]. *)
Context {Arguments : Type}.
Variable sha256_hex : string → string.
Variable canonical_json : Arguments → string.

Definition mcp_step (operation server tool : string) (arguments : Arguments)
    (evidence_envelope : string) (results : McpResults) : LoopStep * McpResults :=
  let argument_hash := sha256_hex (canonical_json arguments) in
  let digest := sha256_hex evidence_envelope in
  let fingerprint :=
    "MCP:" +:+ operation +:+ ":" +:+ server +:+ ":" +:+ tool +:+ ":" +:+ argument_hash in
  let '(novel, results') := mcp_add results fingerprint digest in
  (mkLoopStep MCP fingerprint digest novel
     (if decide (operation = "call") then "the MCP call " +:+ server +:+ "." +:+ tool
      else "the MCP tool list of " +:+ server) None None,
   results').

Definition index_step (requests : Arguments) (evidence_envelope : string)
    (results : McpResults) : LoopStep * McpResults :=
  let fingerprint := "INDEX:" +:+ sha256_hex (canonical_json requests) in
  let digest := sha256_hex evidence_envelope in
  let '(novel, results') := mcp_add results fingerprint digest in
  (mkLoopStep MCP fingerprint digest novel "the same index search" None None, results').
End steps.

Definition parse_failure_step (code message : string) : LoopStep :=
  mkLoopStep PARSE_FAILURE ("PARSE:" +:+ code) code false
    "a reply that did not match the directive grammar" (Some code) (Some message).

(** * The detector *)

Inductive LoopSignalKind :=
| REPEATED_READ | REPEATED_MCP | CYCLE | NO_PROGRESS | REPEATED_PARSE_ERROR.

Record LoopThresholds := mkLoopThresholds {
  th_repeat : nat;
  th_cycles : nat;
  th_no_progress : nat;
  th_repeated_error : nat
}.

(** Every threshold is at least 2, as the model's fields demand. *)
Definition thresholds_ok (t : LoopThresholds) : Prop :=
  (2 ≤ th_repeat t ∧ 2 ≤ th_cycles t ∧ 2 ≤ th_no_progress t ∧ 2 ≤ th_repeated_error t)%nat.

Definition default_thresholds : LoopThresholds := mkLoopThresholds 3 3 3 3.

Record LoopDetection := mkLoopDetection {
  ld_kind : LoopSignalKind;
  ld_step : LoopStep
}.

Definition repeat_kind (k : ActionKind) : LoopSignalKind :=
  match k with
  | READ => REPEATED_READ
  | MCP => REPEATED_MCP
  | PARSE_FAILURE => REPEATED_PARSE_ERROR
  end.

Definition identity (s : LoopStep) : string * string := (ls_fingerprint s, ls_result_digest s).

(** The deque's [maxlen]. *)
Definition window (t : LoopThresholds) : nat :=
  Nat.max (Nat.max (th_repeat t) (2 * th_cycles t)) (Nat.max (th_no_progress t) (th_repeated_error t)).

(** [deque(maxlen=n).append(x)]: the oldest element is dropped when full. *)
Definition deque_append {A} (n : nat) (d : list A) (x : A) : list A := last_n n (d ++ [x])%list.

(** [_last]: the last [count] steps, or nothing when there are fewer. *)
Definition last_steps (steps : list LoopStep) (count : nat) : list LoopStep :=
  if bool_decide (count ≤ length steps)%nat then last_n count steps else [].

(** [all(_identity(s) == _identity(last[i % 2]) for i, s in enumerate(last))]. *)
Fixpoint alternates (a b : string * string) (l : list LoopStep) : bool :=
  match l with
  | [] => true
  | s :: l' => bool_decide (identity s = a) && alternates b a l'
  end.

Definition repeated_error (steps : list LoopStep) (count : nat) : bool :=
  match last_steps steps count with
  | [] => false
  | first :: _ as last =>
      negb (bool_decide (ls_error_class first = None)) &&
      forallb (λ s, bool_decide (ls_error_class s = ls_error_class first)) last
  end.

Definition repeated_step (steps : list LoopStep) (step : LoopStep) (count : nat) : bool :=
  match last_steps steps count with
  | [] => false
  | last => forallb (λ s, bool_decide (identity s = identity step)) last
  end.

Definition repeated_cycle (steps : list LoopStep) (cycles : nat) : bool :=
  match last_steps steps (2 * cycles) with
  | first :: second :: _ as last =>
      negb (bool_decide (ls_fingerprint first = ls_fingerprint second)) &&
      alternates (identity first) (identity second) last
  | _ => false
  end.

Definition no_progress (steps : list LoopStep) (count : nat) : bool :=
  match last_steps steps count with
  | [] => false
  | last => negb (existsb ls_novel last)
  end.

(** The tests of [observe], most specific first, on the steps recorded so far
    (the observed step included). *)
Definition detect (t : LoopThresholds) (steps : list LoopStep) (step : LoopStep)
    : option LoopDetection :=
  if repeated_error steps (th_repeated_error t)
  then Some (mkLoopDetection REPEATED_PARSE_ERROR step)
  else if repeated_step steps step (th_repeat t)
  then Some (mkLoopDetection (repeat_kind (ls_kind step)) step)
  else if repeated_cycle steps (th_cycles t)
  then Some (mkLoopDetection CYCLE step)
  else if no_progress steps (th_no_progress t)
  then Some (mkLoopDetection NO_PROGRESS step)
  else None.

(** [LoopDetector.observe] on the deque. *)
Definition observe (t : LoopThresholds) (steps : list LoopStep) (step : LoopStep)
    : option LoopDetection * list LoopStep :=
  let steps' := deque_append (window t) steps step in
  (detect t steps' step, steps').

(** [LoopDetector.reset]. *)
Definition reset (steps : list LoopStep) : list LoopStep := [].

(** * Read coverage implements a set of bytes *)

(** Byte [x] lies in one of the intervals. *)
Definition byte_in (l : list span) (x : Z) : Prop := ∃ s, s ∈ l ∧ s.1 ≤ x < s.2.

Definition span_gap (s1 s2 : span) : Prop := s1.2 < s2.1.

(** The representation invariant: nonempty intervals in increasing order with a
    gap between neighbours. *)
Definition normal (l : list span) : Prop :=
  Forall (λ s : span, s.1 < s.2) l ∧ StronglySorted span_gap l.

#[local] Instance span_le_trans : Transitive span_le.
Proof. intros ???. unfold span_le. lia. Qed.
#[local] Instance span_le_total : Total span_le.
Proof. intros [] []. unfold span_le; simpl. lia. Qed.

Lemma byte_in_nil x : ¬ byte_in [] x.
Proof. intros (s & Hs & _). by apply elem_of_nil in Hs. Qed.

Lemma byte_in_cons s l x : byte_in (s :: l) x ↔ s.1 ≤ x < s.2 ∨ byte_in l x.
Proof. unfold byte_in. setoid_rewrite elem_of_cons. naive_solver. Qed.

Lemma byte_in_app l k x : byte_in (l ++ k) x ↔ byte_in l x ∨ byte_in k x.
Proof. unfold byte_in. setoid_rewrite elem_of_app. naive_solver. Qed.

Lemma byte_in_permutation l k x : l ≡ₚ k → byte_in l x ↔ byte_in k x.
Proof. intros Hp. unfold byte_in. by setoid_rewrite Hp. Qed.

Lemma byte_in_reverse l x : byte_in (reverse l) x ↔ byte_in l x.
Proof. apply byte_in_permutation. by rewrite reverse_Permutation. Qed.

Lemma strongly_sorted_related {A} (R : A → A → Prop) l a b :
  StronglySorted R l → a ∈ l → b ∈ l → a = b ∨ R a b ∨ R b a.
Proof.
  induction 1 as [|x l Hl IH Hx]; [by intros ?%elem_of_nil|].
  rewrite Forall_forall in Hx.
  rewrite !elem_of_cons. naive_solver.
Qed.

Lemma reverse_gap l : StronglySorted (flip span_gap) l → StronglySorted span_gap (reverse l).
Proof.
  induction 1 as [|x l Hl IH Hx]; [constructor|]. rewrite reverse_cons.
  apply StronglySorted_app_2; [|done|by repeat constructor].
  intros x1 x2 Hx1 ->%list_elem_of_singleton. rewrite elem_of_reverse in Hx1.
  rewrite Forall_forall in Hx. exact (Hx _ Hx1).
Qed.

(** The loop's invariant on [merged], kept in reverse. *)
Definition rnormal (m : list span) : Prop :=
  Forall (λ s : span, s.1 < s.2) m ∧ StronglySorted (flip span_gap) m.

Lemma merge_loop_spec spans : ∀ m,
  rnormal m → Forall (λ s : span, s.1 < s.2) spans → StronglySorted span_le spans →
  (∀ s0 s, head m = Some s0 → s ∈ spans → s0.1 ≤ s.1) →
  normal (merge_loop m spans) ∧
  ∀ x, byte_in (merge_loop m spans) x ↔ byte_in m x ∨ byte_in spans x.
Proof.
  induction spans as [|[a b] spans IH]; intros m [Hm1 Hm2] Hne Hs Hhd; simpl.
  { split; [split; [by apply Forall_reverse|by apply reverse_gap]|].
    intros x. rewrite byte_in_reverse. pose proof (byte_in_nil x). naive_solver. }
  apply Forall_cons in Hne as [Hab Hne]. apply StronglySorted_cons in Hs as [Hle Hs].
  rewrite Forall_forall in Hle. simpl in Hab.
  destruct m as [|[s0 e0] m].
  - edestruct (IH [(a, b)]) as [Hn Hb]; [|done|done| |].
    { split; repeat constructor; done. }
    { intros ? s [= <-] Hin. apply Hle in Hin. unfold span_le in Hin; simpl in *. lia. }
    split; [done|]. intros x. rewrite Hb, !byte_in_cons. tauto.
  - pose proof (Hhd (s0, e0) (a, b) eq_refl ltac:(by left)) as H0; simpl in H0.
    apply Forall_cons in Hm1 as [Hse Hm1]. apply StronglySorted_cons in Hm2 as [Hg Hm2].
    simpl in Hse. destruct (Z.leb_spec a e0).
    + edestruct (IH ((s0, Z.max e0 b) :: m)) as [Hn Hb]; [|done|done| |].
      { split; [constructor; simpl; [lia|done]|by constructor]. }
      { intros ? s [= <-] Hin. apply (Hhd (s0, e0) s eq_refl). by right. }
      split; [done|]. intros x. rewrite Hb, !byte_in_cons. simpl. intuition lia.
    + edestruct (IH ((a, b) :: (s0, e0) :: m)) as [Hn Hb]; [|done|done| |].
      { split; [by repeat constructor|]. constructor; [by constructor|].
        constructor; [done|]. eapply Forall_impl; [exact Hg|].
        unfold flip, span_gap; simpl. intros; lia. }
      { intros ? s [= <-] Hin. apply Hle in Hin. unfold span_le in Hin; simpl in *. lia. }
      split; [done|]. intros x. rewrite Hb, !byte_in_cons. tauto.
Qed.

Lemma insert_span_spec l start stop :
  normal l → start < stop →
  normal (insert_span l start stop) ∧
  ∀ x, byte_in (insert_span l start stop) x ↔ byte_in l x ∨ start ≤ x < stop.
Proof.
  intros [Hne Hs] Hlt. unfold insert_span.
  pose proof (merge_sort_Permutation span_le (l ++ [(start, stop)])%list) as Hp.
  destruct (merge_loop_spec (merge_sort span_le (l ++ [(start, stop)])%list) [])
    as [Hn Hb]; [by repeat constructor| | |done|].
  - rewrite Hp. apply Forall_app. by repeat constructor.
  - apply StronglySorted_merge_sort; apply _.
  - split; [done|]. intros x. rewrite Hb, (byte_in_permutation _ _ _ Hp), byte_in_app, byte_in_cons.
    pose proof (byte_in_nil x). simpl. tauto.
Qed.

Lemma covers_spec l start stop :
  normal l → start < stop →
  covers l start stop = true ↔ ∀ x, start ≤ x < stop → byte_in l x.
Proof.
  intros [Hne Hs] Hlt. unfold covers. rewrite existsb_exists. rewrite Forall_forall in Hne. split.
  - intros (s & Hin & Hc) x Hx. bool_to_prop. exists s. rewrite list_elem_of_In. split; [done|lia].
  - intros Hall. destruct (Hall start) as (s & Hin & Hb); [lia|].
    exists s. rewrite <- list_elem_of_In. split; [done|].
    destruct (Z.leb_spec stop s.2); [by rewrite (proj2 (Z.leb_le _ _)) by lia|].
    destruct (Hall s.2) as (s' & Hin' & Hb'); [lia|].
    destruct (strongly_sorted_related _ _ _ _ Hs Hin Hin') as [->|[Hg|Hg]];
      unfold span_gap in *; [lia|lia|]. specialize (Hne _ Hin). lia.
Qed.

(** The abstract state of a coverage: the reads so far, in order. *)
Definition last_sha_of (h : list ReadResult) (path : string) : option string :=
  last (rr_source_sha256 <$> filter (λ r, rr_path r = path) h).

Definition returned (h : list ReadResult) (path sha : string) (x : Z) : Prop :=
  ∃ r, r ∈ h ∧ rr_path r = path ∧ rr_source_sha256 r = sha ∧
       rr_start_byte r ≤ x < rr_returned_end_byte r.

Definition coverage_of (h : list ReadResult) : ReadCoverage :=
  foldl (λ c r, (coverage_add c r).2) empty_coverage h.

Record coverage_inv (h : list ReadResult) (c : ReadCoverage) : Prop := {
  inv_sha path : cov_last_sha c !! path = last_sha_of h path;
  inv_normal path sha : normal (default [] (cov_spans c !! (path, sha)));
  inv_bytes path sha x :
    byte_in (default [] (cov_spans c !! (path, sha))) x ↔ returned h path sha x
}.

Lemma last_sha_of_snoc h r path :
  last_sha_of (h ++ [r])%list path =
  if decide (rr_path r = path) then Some (rr_source_sha256 r) else last_sha_of h path.
Proof.
  unfold last_sha_of. rewrite filter_app, fmap_app, filter_cons, filter_nil.
  case_decide; simpl; [apply last_snoc|by rewrite app_nil_r].
Qed.

Lemma returned_snoc h r path sha x :
  returned (h ++ [r])%list path sha x ↔
  returned h path sha x ∨
  (rr_path r = path ∧ rr_source_sha256 r = sha ∧ rr_start_byte r ≤ x < rr_returned_end_byte r).
Proof.
  unfold returned. setoid_rewrite elem_of_app. setoid_rewrite list_elem_of_singleton. split.
  - intros (r' & [Hin| ->] & Hr); [left; eauto|right; tauto].
  - intros [(r' & Hin & Hr)|Hr]; [exists r'; tauto|exists r; tauto].
Qed.

Lemma coverage_add_inv h c r :
  coverage_inv h c → coverage_inv (h ++ [r])%list (coverage_add c r).2.
Proof.
  intros [H1 H2 H3].
  set (l := default [] (cov_spans c !! (rr_path r, rr_source_sha256 r))).
  assert (∃ l', (coverage_add c r).2 =
      mkReadCoverage (<[(rr_path r, rr_source_sha256 r) := l']> (cov_spans c))
        (<[rr_path r := rr_source_sha256 r]> (cov_last_sha c)) ∧ normal l' ∧
      ∀ x, byte_in l' x ↔ byte_in l x ∨ rr_start_byte r ≤ x < rr_returned_end_byte r)
    as (l' & -> & Hn & Hb).
  { unfold coverage_add. fold l. destruct (Z.leb_spec (rr_returned_end_byte r) (rr_start_byte r)); simpl.
    - exists l. split_and!; [done|apply H2|intros; intuition lia].
    - eexists. split; [done|]. by apply insert_span_spec; [apply H2|lia]. }
  constructor; intros path; simpl.
  - rewrite last_sha_of_snoc, lookup_insert, H1. done.
  - intros sha. rewrite lookup_insert. case_decide; [done|]. apply H2.
  - intros sha x. rewrite lookup_insert, returned_snoc. case_decide as Hk; simplify_eq/=.
    + rewrite Hb. unfold l. rewrite H3. naive_solver.
    + rewrite H3. naive_solver.
Qed.

Lemma coverage_of_inv h : coverage_inv h (coverage_of h).
Proof.
  induction h as [|r h IH] using rev_ind.
  - constructor; intros path; simpl; [done|intros sha; rewrite lookup_empty; by repeat constructor|].
    intros sha x. rewrite lookup_empty. simpl. unfold byte_in, returned.
    setoid_rewrite elem_of_nil. naive_solver.
  - unfold coverage_of. rewrite foldl_app. simpl. by apply coverage_add_inv.
Qed.

#[local] Instance byte_in_dec l x : Decision (byte_in l x).
Proof.
  refine (cast_if (decide (Exists (λ s : span, s.1 ≤ x < s.2) l)));
    abstract (unfold byte_in; rewrite Exists_exists in *; naive_solver).
Defined.

Lemma not_covers_spec l start stop :
  normal l → start < stop →
  covers l start stop = false ↔ ∃ x, start ≤ x < stop ∧ ¬ byte_in l x.
Proof.
  intros Hl Hlt. pose proof (covers_spec l start stop Hl Hlt) as Hc. split.
  - intros Hf. rewrite Hf in Hc.
    destruct (decide (Forall (byte_in l) (seqZ start (stop - start)))) as [Ha|Ha].
    + exfalso. assert (false = true) as Hft; [|done]. apply Hc. intros x Hx. rewrite Forall_forall in Ha.
      apply Ha, elem_of_seqZ. lia.
    + apply not_Forall_Exists, Exists_exists in Ha as (x & Hin & Hx); [|apply _].
      apply elem_of_seqZ in Hin. exists x. split; [lia|done].
  - intros (x & Hx & Hn). destruct (covers l start stop) eqn:E; [|done].
    destruct Hn. by apply Hc.
Qed.

(** What counts as new evidence, over the reads so far: the file's content
    changed since the path's last read, or it is a first read that returned
    nothing, or it returned a byte that no earlier read of this content of this
    path returned. *)
Definition novel_read (h : list ReadResult) (r : ReadResult) : Prop :=
  let before := last_sha_of h (rr_path r) in
  (is_Some before ∧ before ≠ Some (rr_source_sha256 r)) ∨
  (rr_returned_end_byte r ≤ rr_start_byte r ∧ before = None) ∨
  (∃ x, rr_start_byte r ≤ x < rr_returned_end_byte r ∧
        ¬ returned h (rr_path r) (rr_source_sha256 r) x).

Lemma changed_spec (o : option string) sha :
  bool_decide (default sha o ≠ sha) = true ↔ is_Some o ∧ o ≠ Some sha.
Proof.
  rewrite bool_decide_eq_true. destruct o; simpl; [|by naive_solver].
  split; [intros; split; [done|congruence]|intros [_ ?]; congruence].
Qed.

(** C28: over any sequence of reads, [ReadCoverage.add] reports a read as novel
    exactly when it brought new evidence; the merged intervals it keeps stay
    sorted and disjoint and hold exactly the bytes returned so far. *)
Theorem read_novelty_exact h r :
  ((coverage_add (coverage_of h) r).1 = true ↔ novel_read h r) ∧
  (∀ path sha, let l := default [] (cov_spans (coverage_of h) !! (path, sha)) in
     normal l ∧ ∀ x, byte_in l x ↔ returned h path sha x).
Proof.
  pose proof (coverage_of_inv h) as [Hsha Hn Hb]. split; [|split; [apply Hn|apply Hb]].
  unfold novel_read. rewrite <- Hsha. unfold coverage_add.
  pose proof (changed_spec (cov_last_sha (coverage_of h) !! rr_path r) (rr_source_sha256 r)) as Hch.
  set (o := cov_last_sha (coverage_of h) !! rr_path r) in *.
  destruct (Z.leb_spec (rr_returned_end_byte r) (rr_start_byte r)) as [Hle|Hlt]; simpl;
    rewrite orb_true_iff, Hch.
  - rewrite bool_decide_eq_true. split; [naive_solver|].
    intros [?|[[_ ?]|(x & ? & _)]]; [naive_solver..|lia].
  - rewrite negb_true_iff, not_covers_spec by (apply Hn || lia). setoid_rewrite Hb.
    split; [naive_solver|]. intros [?|[[? _]|?]]; [by left|lia|by right].
Qed.

(** * The detector decides on the unbounded history *)

Lemma last_n_last_n {A} (k n : nat) (l : list A) : (k ≤ n)%nat → last_n k (last_n n l) = last_n k l.
Proof.
  intros Hk. unfold last_n. rewrite drop_drop, length_drop. f_equal. lia.
Qed.

Lemma last_n_snoc {A} n (l : list A) x :
  last_n (S n) (last_n (S n) l ++ [x]) = last_n (S n) (l ++ [x]).
Proof.
  unfold last_n. rewrite <- drop_app_le by lia. rewrite drop_drop. f_equal.
  rewrite length_drop, !length_app. simpl. lia.
Qed.

Lemma last_steps_window (n k : nat) l :
  (k ≤ n)%nat → last_steps (last_n n l) k = last_steps l k.
Proof.
  intros Hk. unfold last_steps. rewrite last_n_last_n by done. rewrite last_n_length.
  do 2 case_bool_decide; (done || lia).
Qed.

Lemma detect_window t l step : detect t (last_n (window t) l) step = detect t l step.
Proof.
  unfold detect, repeated_error, repeated_step, repeated_cycle, no_progress.
  rewrite !last_steps_window; [done|unfold window; lia..].
Qed.

(** The detector after the steps [h], none of them a reset. *)
Definition detector_of (t : LoopThresholds) (h : list LoopStep) : list LoopStep :=
  foldl (λ d s, (observe t d s).2) [] h.

Lemma detector_of_window t h : thresholds_ok t → detector_of t h = last_n (window t) h.
Proof.
  intros Ht. destruct (window t) as [|n] eqn:Hw.
  { unfold window, thresholds_ok in *. lia. }
  induction h as [|s h IH] using rev_ind; [done|].
  unfold detector_of in *. rewrite foldl_app. cbn [foldl]. rewrite IH. simpl.
  unfold deque_append. rewrite Hw. apply last_n_snoc.
Qed.

(** The detector's bounded deque loses nothing: what it reports for a step is
    what its tests report on the whole history since the last reset, so a window
    of the largest threshold (twice the cycle count) is enough. *)
Theorem detector_unbounded t h step :
  thresholds_ok t →
  (observe t (detector_of t h) step).1 = detect t (h ++ [step])%list step.
Proof.
  intros Ht. assert (window t ≠ 0%nat) by (unfold window, thresholds_ok in *; lia).
  simpl. unfold deque_append. rewrite detector_of_window by done.
  destruct (window t) as [|n] eqn:Hw; [done|].
  rewrite last_n_snoc, <- Hw. apply detect_window.
Qed.

Definition polling_step (digest : string) : LoopStep :=
  mkLoopStep MCP "MCP:call:s:t:h" digest true "" None None.

Lemma detector_unbounded_witness :
  (observe default_thresholds (detector_of default_thresholds
     [polling_step "a"; polling_step "a"]) (polling_step "a")).1
  = Some (mkLoopDetection REPEATED_MCP (polling_step "a")).
Proof.
  rewrite (detector_unbounded default_thresholds [polling_step "a"; polling_step "a"]
             (polling_step "a") ltac:(unfold thresholds_ok; simpl; lia)).
  reflexivity.
Defined.

(** The detections of a run of steps. *)
Fixpoint observe_all (t : LoopThresholds) (d : list LoopStep) (steps : list LoopStep)
    : list (option LoopDetection) :=
  match steps with
  | [] => []
  | s :: rest => let '(o, d') := observe t d s in o :: observe_all t d' rest
  end.

Lemma observe_all_none t h steps :
  thresholds_ok t →
  (∀ pre s post, steps = (pre ++ s :: post)%list → detect t (h ++ pre ++ [s])%list s = None) →
  Forall (λ o, o = None) (observe_all t (detector_of t h) steps).
Proof.
  intros Ht. revert h. induction steps as [|s steps IH]; intros h Hd; [constructor|].
  cbn [observe_all]. destruct (observe t (detector_of t h) s) as [o d'] eqn:E.
  pose proof (f_equal fst E) as Ho. pose proof (f_equal snd E) as Hd'. cbn [fst snd] in Ho, Hd'.
  rewrite detector_unbounded in Ho by done. constructor.
  - rewrite <- Ho. by apply (Hd [] s steps).
  - replace d' with (detector_of t (h ++ [s])%list).
    2: { unfold detector_of. by rewrite foldl_app. }
    apply IH. intros pre s' post ->. rewrite <- (assoc_L (++)%list).
    by apply (Hd (s :: pre) s' post).
Qed.

(** Steps that poll one call: one fingerprint, no errors, and after the first
    step every result is new evidence that differs from the one before it. *)
Record polling (f : string) (h : list LoopStep) : Prop := {
  poll_fingerprint i s : h !! i = Some s → ls_fingerprint s = f ∧ ls_error_class s = None;
  poll_changes i s s' : h !! i = Some s → h !! S i = Some s' →
    ls_result_digest s ≠ ls_result_digest s' ∧ ls_novel s' = true
}.

Lemma polling_prefix f h k : polling f (h ++ k)%list → polling f h.
Proof.
  intros [H1 H2]. split.
  - intros i s Hi. apply (H1 i). by apply lookup_app_l_Some.
  - intros i s s' Hi Hi'. apply (H2 i); by apply lookup_app_l_Some.
Qed.

(** Any window of at least two polled steps starts with two neighbours. *)
Lemma last_steps_polling f h k :
  polling f h → (2 ≤ k)%nat →
  last_steps h k = [] ∨
  ∃ a b rest, last_steps h k = a :: b :: rest ∧ ls_fingerprint a = f ∧ ls_fingerprint b = f ∧
    ls_error_class a = None ∧ ls_result_digest a ≠ ls_result_digest b ∧ ls_novel b = true.
Proof.
  intros [H1 H2] Hk. unfold last_steps. case_bool_decide as Hlen; [|by left]. right.
  destruct (last_n k h) as [|a [|b rest]] eqn:E;
    [by apply (f_equal length) in E; rewrite last_n_length in E; simpl in E; lia..|].
  pose proof (lookup_drop h (length h - k) 0) as Ha. pose proof (lookup_drop h (length h - k) 1) as Hb.
  fold (last_n k h) in Ha, Hb. rewrite E in Ha, Hb. simpl in Ha, Hb.
  replace (length h - k + 1)%nat with (S (length h - k + 0)) in Hb by lia.
  exists a, b, rest.
  destruct (H1 _ _ (eq_sym Ha)), (H1 _ _ (eq_sym Hb)), (H2 _ _ _ (eq_sym Ha) (eq_sym Hb)).
  by split_and!.
Qed.

Lemma polling_never_detected t f h step :
  thresholds_ok t → polling f h → detect t h step = None.
Proof.
  intros Ht Hp. unfold detect, thresholds_ok in *. destruct Ht as (H1 & H2 & H3 & H4).
  replace (repeated_error h (th_repeated_error t)) with false.
  2: { unfold repeated_error. destruct (last_steps_polling f h _ Hp H4)
         as [->|(a & b & rest & -> & _ & _ & Hn & _)]; [done|]. by rewrite Hn. }
  replace (repeated_step h step (th_repeat t)) with false.
  2: { unfold repeated_step. destruct (last_steps_polling f h _ Hp H1)
         as [->|(a & b & rest & -> & _ & _ & _ & Hd & _)]; [done|]. simpl.
       unfold identity. do 2 (case_bool_decide; simplify_eq/=; try done). congruence. }
  replace (repeated_cycle h (th_cycles t)) with false.
  2: { unfold repeated_cycle. destruct (last_steps_polling f h (2 * th_cycles t) Hp ltac:(lia))
         as [->|(a & b & rest & -> & Ha & Hb & _)]; [done|].
       by rewrite bool_decide_eq_true_2 by congruence. }
  unfold no_progress. destruct (last_steps_polling f h _ Hp H3)
    as [->|(a & b & rest & -> & _ & _ & _ & _ & Hn)]; [done|]. simpl.
  by rewrite Hn, orb_true_r.
Qed.

Section poll.
Context {Arguments : Type}.
Variable sha256_hex : string → string.
Variable canonical_json : Arguments → string.
Variables (operation server tool : string) (arguments : Arguments).

(** The steps of calling one MCP tool again and again, with what it returned. *)
Fixpoint poll (results : McpResults) (envelopes : list string) : list LoopStep :=
  match envelopes with
  | [] => []
  | e :: rest =>
      let '(s, results') :=
        mcp_step sha256_hex canonical_json operation server tool arguments e results in
      s :: poll results' rest
  end.

Definition poll_fp : string :=
  "MCP:" +:+ operation +:+ ":" +:+ server +:+ ":" +:+ tool +:+ ":" +:+
  sha256_hex (canonical_json arguments).

Lemma poll_polling envelopes : ∀ results,
  (∀ i e e', envelopes !! i = Some e → envelopes !! S i = Some e' → sha256_hex e ≠ sha256_hex e') →
  polling poll_fp (poll results envelopes) ∧
  ∀ s, head (poll results envelopes) = Some s →
    (∃ e, head envelopes = Some e ∧ ls_result_digest s = sha256_hex e) ∧
    (∀ d, mcp_last results !! poll_fp = Some d → d ≠ ls_result_digest s → ls_novel s = true).
Proof.
  induction envelopes as [|e rest IH]; intros results Hne.
  { split; [split; intros ? ?; by rewrite ?lookup_nil|done]. }
  cbn [poll]. unfold mcp_step. fold poll_fp.
  destruct (mcp_add results poll_fp (sha256_hex e)) as [b r'] eqn:E.
  assert (mcp_last r' !! poll_fp = Some (sha256_hex e)) as Hlast.
  { unfold mcp_add in E. simplify_eq/=. by rewrite lookup_insert_eq. }
  destruct (IH r') as [Hp Hh]; [intros i; apply (Hne (S i))|]. split; [|intros s [= <-]; split].
  - destruct Hp as [Hp1 Hp2]. split.
    + intros [|i] s Hi; simpl in Hi; [by simplify_eq/=|by apply (Hp1 i)].
    + intros [|i] s s' Hi Hi'; simpl in Hi, Hi'; [|by apply (Hp2 i)]. simplify_eq/=.
      rewrite <- head_lookup in Hi'. destruct (Hh _ Hi') as ((e' & He' & Hd) & Hnov).
      rewrite head_lookup in He'. assert (sha256_hex e ≠ ls_result_digest s') as Hx.
      { rewrite Hd. by apply (Hne 0%nat). }
      split; [done|]. by apply (Hnov _ Hlast).
  - by exists e.
  - intros d Hd Hne'. simpl in *. unfold mcp_add in E. simplify_eq/=.
    rewrite Hd. simpl. by rewrite bool_decide_eq_true_2.
Qed.
End poll.

(** Polling is never taken for a loop: calling one MCP tool again and again
    while each result differs from the one before it fires no signal, whatever
    was recorded before the call was first made and however long it goes on. *)
Theorem polling_never_fires {Arguments} sha256_hex (canonical_json : Arguments → string)
    operation server tool arguments results envelopes t :
  thresholds_ok t →
  (∀ i e e', envelopes !! i = Some e → envelopes !! S i = Some e' →
             sha256_hex e ≠ sha256_hex e') →
  Forall (λ o, o = None)
    (observe_all t [] (poll sha256_hex canonical_json operation server tool arguments
                         results envelopes)).
Proof.
  intros Ht Hne. apply (observe_all_none t []); [done|]. intros pre s post Heq.
  destruct (poll_polling sha256_hex canonical_json operation server tool arguments
              envelopes results Hne) as [Hp _].
  rewrite Heq in Hp. eapply polling_never_detected; [done|].
  eapply polling_prefix with (k := post). simpl. rewrite <- app_assoc. exact Hp.
Qed.

Lemma polling_never_fires_witness :
  Forall (λ o, o = None)
    (observe_all default_thresholds []
       (poll (Arguments := unit) (λ x, x) (λ _, "{}") "call" "srv" "status" tt empty_mcp_results
          ["1"; "2"; "1"; "2"; "1"; "2"])).
Proof.
  apply (polling_never_fires (λ x, x) (λ _, "{}") "call" "srv" "status" tt empty_mcp_results
           ["1"; "2"; "1"; "2"; "1"; "2"] default_thresholds).
  - unfold thresholds_ok; simpl; lia.
  - intros i e e' Hi Hi'. do 6 (destruct i as [|i]; [vm_compute in Hi, Hi'; simplify_eq; done|]). discriminate Hi.
Defined.
