(* ===== verification/Loops.v ===== *)
(** Bounded goal loops: the loop's policy and state
    (src/optimus/loops/models.py), the progress ledger's contract and its
    in-memory backend (src/optimus/loops/ledger.py), the completion evaluators
    (src/optimus/loops/completion.py) and the controller that runs a goal loop
    (src/optimus/loops/controller.py).

    The controller is modelled against the ledger's contract, a type class, and
    against any runner, evaluator, clock and halt callback, all of which may
    change the world they live in; the runner and the evaluator may also raise, the
    clock and the halt callback always answer. *)
From stdpp Require Import pretty.
From S2P Require Import Prelude Text.

Local Open Scope string_scope.
Local Open Scope Z_scope.

(** * The loop's data *)

Inductive LoopStopReason :=
| COMPLETED | MAX_ITERATIONS | BUDGET_EXHAUSTED | WALL_CLOCK | REPEATED_FAILURE | HUMAN_HALT.
#[export] Instance LoopStopReason_eq_dec : EqDecision LoopStopReason.
Proof. solve_decision. Defined.

Definition LoopStopReason_value (r : LoopStopReason) : string :=
  match r with
  | COMPLETED => "COMPLETED" | MAX_ITERATIONS => "MAX_ITERATIONS"
  | BUDGET_EXHAUSTED => "BUDGET_EXHAUSTED" | WALL_CLOCK => "WALL_CLOCK"
  | REPEATED_FAILURE => "REPEATED_FAILURE" | HUMAN_HALT => "HUMAN_HALT"
  end.

Record LoopBudgetPolicy := mkLoopBudgetPolicy {
  lb_max_iterations : Z;
  lb_max_budget_usd : option amount;
  lb_max_wall_clock_minutes : Z;
  lb_repeated_failure_limit : Z
}.

(** The constraints of the policy's fields. *)
Definition LoopBudgetPolicy_valid (p : LoopBudgetPolicy) : bool :=
  (1 <=? lb_max_iterations p) &&
  match lb_max_budget_usd p with Some cap => 0 <? cap | None => true end &&
  (1 <=? lb_max_wall_clock_minutes p) && (2 <=? lb_repeated_failure_limit p).

Record CompletionEvaluation := mkCompletionEvaluation {
  ce_completed : bool;
  ce_reason : string;
  ce_confidence : amount;
  ce_cost_usd : amount;
  ce_gateway_request_id : option string
}.

Record IterationOutcome := mkIterationOutcome {
  io_summary : string;
  io_cost_usd : amount;
  io_failure_signature : option string;
  io_deterministic_completion : bool;
  io_evidence : odict string string
}.

Record IterationState := mkIterationState {
  is_run_id : string;
  is_session_id : option string;
  is_goal : string;
  is_completion_condition : string;
  is_started_at : timestamp;
  is_deadline_at : option timestamp;
  is_remaining_budget_usd : option amount;
  is_iteration : Z;
  is_cost_usd_spent : amount;
  is_last_failure_signature : option string;
  is_repeated_failure_count : Z;
  is_human_halt_requested : bool
}.

(** [IterationState.record_outcome]. *)
Definition record_outcome (s : IterationState) (outcome : IterationOutcome) : IterationState :=
  let repeated :=
    match io_failure_signature outcome with
    | None => 0
    | Some sig =>
        if decide (Some sig = is_last_failure_signature s)
        then is_repeated_failure_count s + 1 else 1
    end in
  mkIterationState (is_run_id s) (is_session_id s) (is_goal s) (is_completion_condition s)
    (is_started_at s) (is_deadline_at s) (is_remaining_budget_usd s)
    (is_iteration s + 1) (is_cost_usd_spent s + io_cost_usd outcome)
    (io_failure_signature outcome) repeated (is_human_halt_requested s).

Definition record_completion_evaluation (s : IterationState) (e : CompletionEvaluation)
    : IterationState :=
  mkIterationState (is_run_id s) (is_session_id s) (is_goal s) (is_completion_condition s)
    (is_started_at s) (is_deadline_at s) (is_remaining_budget_usd s)
    (is_iteration s) (is_cost_usd_spent s + ce_cost_usd e)
    (is_last_failure_signature s) (is_repeated_failure_count s) (is_human_halt_requested s).

Definition request_halt (s : IterationState) : IterationState :=
  mkIterationState (is_run_id s) (is_session_id s) (is_goal s) (is_completion_condition s)
    (is_started_at s) (is_deadline_at s) (is_remaining_budget_usd s)
    (is_iteration s) (is_cost_usd_spent s)
    (is_last_failure_signature s) (is_repeated_failure_count s) true.

Definition with_runtime_limits (s : IterationState) (policy : LoopBudgetPolicy)
    : IterationState :=
  let deadline_at := is_started_at s + lb_max_wall_clock_minutes policy * 60000000 in
  let remaining :=
    match lb_max_budget_usd policy with
    | None => None
    | Some cap => Some (Z.max 0 (cap - is_cost_usd_spent s))
    end in
  mkIterationState (is_run_id s) (is_session_id s) (is_goal s) (is_completion_condition s)
    (is_started_at s) (Some deadline_at) remaining
    (is_iteration s) (is_cost_usd_spent s)
    (is_last_failure_signature s) (is_repeated_failure_count s) (is_human_halt_requested s).

Definition elapsed_minutes (s : IterationState) (now : timestamp) : Z :=
  Z.max 0 ((now - is_started_at s) / 60000000).

(** * The progress ledger *)

Record ProgressLedgerEntry := mkProgressLedgerEntry {
  pe_run_id : string;
  pe_session_id : option string;
  pe_iteration : Z;
  pe_goal : string;
  pe_summary : string;
  pe_cost_usd : amount;
  pe_stop_reason : option LoopStopReason;
  pe_failure_signature : option string;
  pe_evidence : odict string string;
  pe_occurred_at : timestamp
}.

(** The storage contract: append an entry, and read back a run's entries. *)
Class ProgressLedger (L : Type) := {
  ledger_append : L → ProgressLedgerEntry → L;
  ledger_entries : L → string → list ProgressLedgerEntry
}.

(** What the contract promises: a run's entries are those appended for it, in
    the order they were appended. *)
Class ProgressLedgerLaws (L : Type) `{ProgressLedger L} : Prop := {
  ledger_entries_append l e run_id :
    ledger_entries (ledger_append l e) run_id =
    (ledger_entries l run_id ++ if decide (pe_run_id e = run_id) then [e] else [])%list
}.

(** The in-memory backend: all entries in one list. *)
Definition InMemoryProgressLedger : Type := list ProgressLedgerEntry.

Definition inmemory_append (l : InMemoryProgressLedger) (e : ProgressLedgerEntry)
    : InMemoryProgressLedger := (l ++ [e])%list.

Definition inmemory_entries (l : InMemoryProgressLedger) (run_id : string)
    : list ProgressLedgerEntry := filter (λ e, pe_run_id e = run_id) l.

#[export] Instance InMemoryProgressLedger_ledger : ProgressLedger InMemoryProgressLedger := {
  ledger_append := inmemory_append;
  ledger_entries := inmemory_entries
}.

#[export] Instance InMemoryProgressLedger_laws : ProgressLedgerLaws InMemoryProgressLedger.
Proof.
  split. intros l e run_id. simpl. unfold inmemory_entries, inmemory_append, InMemoryProgressLedger in *.
  by rewrite filter_app, filter_cons, filter_nil.
Qed.

(** * The controller *)

Record GoalLoopResult := mkGoalLoopResult {
  gr_state : IterationState;
  gr_stop_reason : LoopStopReason;
  gr_summary : string
}.

(** The telemetry event of a stopped loop. *)
Record GoalLoopEvent := mkGoalLoopEvent {
  ge_run_id : string;
  ge_session_id : option string;
  ge_request_id : string;
  ge_occurred_at : timestamp;
  ge_iteration : Z;
  ge_stop_reason : string;
  ge_cost_usd_spent : amount;
  ge_max_budget_usd : option amount;
  ge_summary : string
}.

(** An answer of the clock or of the halt callback. *)
Inductive Answer :=
| AClock (t : timestamp)
| AHalt (requested : bool).

Section controller.
(** The world the callbacks act on, the exceptions they may raise, and the
    ledger's type. *)
Context {W X L : Type} `{ProgressLedger L}.
Variable policy : LoopBudgetPolicy.
Variable run_iteration : IterationState → W → res X IterationOutcome * W.
Variable evaluate : IterationState → L → W → res X CompletionEvaluation * W.
Variable halt_requested : W → bool * W.
Variable now : W → timestamp * W.
(** Whether an event sink is configured. *)
Variable event_sink : bool.

(** The loop's own state beside [IterationState]: the world, the ledger, the events sent to
    the sink, and what the clock and the halt callback have answered so far. *)
Record LoopWorld := mkLoopWorld {
  lw_world : W;
  lw_ledger : L;
  lw_events : list GoalLoopEvent;
  lw_answers : list Answer
}.

Definition call_now : eff LoopWorld X timestamp := λ s,
  let '(t, w) := now (lw_world s) in (Ok t, mkLoopWorld w (lw_ledger s) (lw_events s) (lw_answers s ++ [AClock t])).

Definition call_halt_requested : eff LoopWorld X bool := λ s,
  let '(b, w) := halt_requested (lw_world s) in (Ok b, mkLoopWorld w (lw_ledger s) (lw_events s) (lw_answers s ++ [AHalt b])).

Definition call_run_iteration (state : IterationState) : eff LoopWorld X IterationOutcome := λ s,
  let '(r, w) := run_iteration state (lw_world s) in
  (r, mkLoopWorld w (lw_ledger s) (lw_events s) (lw_answers s)).

Definition call_evaluate (state : IterationState) : eff LoopWorld X CompletionEvaluation := λ s,
  let '(r, w) := evaluate state (lw_ledger s) (lw_world s) in
  (r, mkLoopWorld w (lw_ledger s) (lw_events s) (lw_answers s)).

(** [_stop_reason]: the halt callback is called only if no halt is recorded, and
    the clock only if the earlier tests did not stop the loop. *)
Definition stop_reason (state : IterationState) : eff LoopWorld X (option LoopStopReason) :=
  let! halted :=
    if is_human_halt_requested state then eff_ret true else call_halt_requested in
  if halted then eff_ret (Some HUMAN_HALT)
  else if lb_repeated_failure_limit policy <=? is_repeated_failure_count state
  then eff_ret (Some REPEATED_FAILURE)
  else if match lb_max_budget_usd policy with
          | Some cap => cap <=? is_cost_usd_spent state
          | None => false
          end
  then eff_ret (Some BUDGET_EXHAUSTED)
  else let! t := call_now in
       if lb_max_wall_clock_minutes policy <=? elapsed_minutes state t
       then eff_ret (Some WALL_CLOCK)
       else if lb_max_iterations policy <=? is_iteration state
       then eff_ret (Some MAX_ITERATIONS)
       else eff_ret None.

(** [_record]. *)
Definition record (state : IterationState) (summary : string) (stop : option LoopStopReason)
    (failure_signature : option string) (cost_usd : amount) (evidence : odict string string)
    : eff LoopWorld X unit :=
  let! t := call_now in
  λ s, (Ok tt,
    mkLoopWorld (lw_world s)
      (ledger_append (lw_ledger s)
         (mkProgressLedgerEntry (is_run_id state) (is_session_id state) (is_iteration state)
            (is_goal state) summary cost_usd stop failure_signature evidence t))
      (lw_events s) (lw_answers s)).

(** [_emit_stop]. *)
Definition emit_stop (state : IterationState) (stop : LoopStopReason) (summary : string)
    : eff LoopWorld X unit :=
  if negb event_sink then eff_ret tt
  else let! t := call_now in
  λ s, (Ok tt,
    mkLoopWorld (lw_world s) (lw_ledger s)
      (lw_events s ++
       [mkGoalLoopEvent (is_run_id state) (is_session_id state)
          (is_run_id state +:+ ":loop:" +:+ pretty (is_iteration state)) t (is_iteration state)
          (LoopStopReason_value stop) (is_cost_usd_spent state) (lb_max_budget_usd policy)
          summary])%list (lw_answers s)).

(** The three places that stop the loop: record, emit, return. *)
Definition finish (state : IterationState) (ledger_summary : string) (stop : LoopStopReason)
    (evidence : odict string string) (summary : string)
    : eff LoopWorld X (IterationState + GoalLoopResult) :=
  record state ledger_summary (Some stop) None 0 evidence ;;!
  emit_stop state stop summary ;;!
  eff_ret (inr (mkGoalLoopResult state stop summary)).

(** One turn of the loop: [inl] is the state the next turn starts from. *)
Definition iteration (state : IterationState)
    : eff LoopWorld X (IterationState + GoalLoopResult) :=
  let! pre_stop := stop_reason state in
  match pre_stop with
  | Some stop =>
      finish state ("stopped before iteration: " +:+ LoopStopReason_value stop) stop []
        (LoopStopReason_value stop)
  | None =>
      let! outcome := call_run_iteration (with_runtime_limits state policy) in
      let state := record_outcome state outcome in
      record state (io_summary outcome) None (io_failure_signature outcome)
        (io_cost_usd outcome) (io_evidence outcome) ;;!
      if io_deterministic_completion outcome
      then finish state (io_summary outcome) COMPLETED (io_evidence outcome) (io_summary outcome)
      else
      let! post_stop := stop_reason state in
      match post_stop with
      | Some stop =>
          finish state ("stopped after iteration: " +:+ LoopStopReason_value stop) stop []
            (LoopStopReason_value stop)
      | None =>
          let! evaluation := call_evaluate state in
          let state := record_completion_evaluation state evaluation in
          record state ("completion evaluation: " +:+ ce_reason evaluation) None None
            (ce_cost_usd evaluation) [] ;;!
          if ce_completed evaluation
          then finish state (ce_reason evaluation) COMPLETED [] (ce_reason evaluation)
          else eff_ret (inl state)
      end
  end.

(** [run], with the number of turns bounded by [fuel]; [None] is out of fuel. *)
Fixpoint run (fuel : nat) (state : IterationState) (s : LoopWorld)
    : option (res X GoalLoopResult * LoopWorld) :=
  match fuel with
  | O => None
  | S fuel' =>
      match iteration state s with
      | (Err x, s') => Some (Err x, s')
      | (Ok (inr r), s') => Some (Ok r, s')
      | (Ok (inl state'), s') => run fuel' state' s'
      end
  end.
End controller.

(** * What the controller promises *)

(** A stop reason holds of the state it stopped in and of what was answered last: the time is
    the one the clock gave for the test, and a halt was recorded or answered. *)
Definition reason_justified (policy : LoopBudgetPolicy) (state : IterationState)
    (answers : list Answer) (r : LoopStopReason) : Prop :=
  match r with
  | MAX_ITERATIONS => lb_max_iterations policy ≤ is_iteration state
  | BUDGET_EXHAUSTED => ∃ cap, lb_max_budget_usd policy = Some cap ∧ cap ≤ is_cost_usd_spent state
  | WALL_CLOCK => ∃ t, last answers = Some (AClock t)
      ∧ lb_max_wall_clock_minutes policy ≤ Z.max 0 ((t - is_started_at state) / 60000000)
  | REPEATED_FAILURE => lb_repeated_failure_limit policy ≤ is_repeated_failure_count state
  | HUMAN_HALT => is_human_halt_requested state = true ∨ last answers = Some (AHalt true)
  | COMPLETED => True
  end.

(** The answers of a stopped loop: after the test that stopped it the clock is read once
    for the ledger's entry and, with a sink, once for its event. *)
Definition stopped_by (policy : LoopBudgetPolicy) (event_sink : bool) (state : IterationState)
    (answers : list Answer) (r : LoopStopReason) : Prop :=
  ∃ before stamps, answers = (before ++ (AClock <$> stamps))%list ∧
    length stamps = (if event_sink then 2 else 1)%nat ∧ reason_justified policy state before r.

(** No limit holds: the loop may go on. *)
Definition may_continue (policy : LoopBudgetPolicy) (state : IterationState) : Prop :=
  is_human_halt_requested state = false ∧
  is_repeated_failure_count state < lb_repeated_failure_limit policy ∧
  (∀ cap, lb_max_budget_usd policy = Some cap → is_cost_usd_spent state < cap) ∧
  is_iteration state < lb_max_iterations policy.

Section controller_facts.
Context {W X L : Type} `{ProgressLedgerLaws L}.
Context (policy : LoopBudgetPolicy).
Context (run_iteration : IterationState → W → res X IterationOutcome * W).
Context (evaluate : IterationState → L → W → res X CompletionEvaluation * W).
Context (halt_requested : W → bool * W) (now : W → timestamp * W) (event_sink : bool).
Implicit Types (s : LoopWorld (W := W) (L := L)) (state : IterationState).

Abbreviation iteration_of :=
  (iteration (X := X) policy run_iteration evaluate halt_requested now event_sink).
Abbreviation run_of :=
  (run (X := X) policy run_iteration evaluate halt_requested now event_sink).

(** The ledger of [s'] is that of [s] with [new] appended, all for one run. *)
Definition appended (run_id : string) s s' (new : list ProgressLedgerEntry) : Prop :=
  lw_ledger s' = foldl ledger_append (lw_ledger s) new ∧
  Forall (λ e, pe_run_id e = run_id) new.

Lemma appended_trans run_id s1 s2 s3 new1 new2 :
  appended run_id s1 s2 new1 → appended run_id s2 s3 new2 →
  appended run_id s1 s3 (new1 ++ new2)%list.
Proof. intros [E1 F1] [E2 F2]. split; [by rewrite foldl_app, <- E1|by apply Forall_app]. Qed.

Lemma appended_same run_id s s' : lw_ledger s' = lw_ledger s → appended run_id s s' [].
Proof. by split. Qed.

Lemma appended_entries run_id s s' new :
  appended run_id s s' new →
  ledger_entries (lw_ledger s') run_id = (ledger_entries (lw_ledger s) run_id ++ new)%list.
Proof.
  intros [E F]. rewrite E. clear E. generalize (lw_ledger s) as l.
  induction F as [|e new He F IH]; intros l; simpl; [by rewrite app_nil_r|].
  rewrite IH, ledger_entries_append, decide_True by done. by rewrite <- (assoc_L (++)%list).
Qed.

Lemma call_now_ledger s r s' :
  call_now (X := X) now s = (r, s') →
  lw_ledger s' = lw_ledger s ∧ ∃ t, r = Ok t ∧ lw_answers s' = (lw_answers s ++ [AClock t])%list.
Proof. unfold call_now. destruct now. naive_solver. Qed.

Lemma call_halt_ledger s r s' :
  call_halt_requested (X := X) halt_requested s = (r, s') →
  lw_ledger s' = lw_ledger s ∧ ∃ b, r = Ok b ∧ lw_answers s' = (lw_answers s ++ [AHalt b])%list.
Proof. unfold call_halt_requested. destruct halt_requested. naive_solver. Qed.

Lemma stop_reason_spec state s r s' :
  stop_reason (X := X) policy halt_requested now state s = (r, s') →
  lw_ledger s' = lw_ledger s ∧
  match r with
  | Ok None => may_continue policy state
  | Ok (Some stop) => reason_justified policy state (lw_answers s') stop
  | Err _ => False
  end.
Proof.
  unfold stop_reason, may_continue. intros Hr. apply eff_bind_eq in Hr as
    [(halted & s1 & Hh & Hr)|(e & Hh & ->)].
  2: { destruct is_human_halt_requested; [done|]. by apply call_halt_ledger in Hh as (_ & ? & ? & _). }
  assert (lw_ledger s1 = lw_ledger s ∧ (halted = false → is_human_halt_requested state = false) ∧
    (halted = true → is_human_halt_requested state = true ∨ last (lw_answers s1) = Some (AHalt true))) as (El & Hn & Hy).
  { destruct is_human_halt_requested; [unfold eff_ret in Hh; simplify_eq/=; by auto|].
    apply call_halt_ledger in Hh as (? & b & ? & ->). simplify_eq. rewrite last_snoc. naive_solver. }
  rewrite <- El. clear El Hh s.
  destruct halted; [unfold eff_ret in Hr; simplify_eq/=; by auto|]. specialize (Hn eq_refl).
  destruct (Z.leb_spec (lb_repeated_failure_limit policy) (is_repeated_failure_count state));
    [by unfold eff_ret in Hr; simplify_eq/=|].
  destruct (match lb_max_budget_usd policy with Some cap => _ | None => _ end) eqn:Hcap.
  { unfold eff_ret in Hr; simplify_eq/=. destruct (lb_max_budget_usd policy) as [cap|]; [|done].
    bool_to_prop. eauto. }
  apply eff_bind_eq in Hr as [(t & s2 & Ht & Hr)|(e & Ht & ->)].
  2: { by apply call_now_ledger in Ht as (_ & ? & ? & _). }
  apply call_now_ledger in Ht as (Ht & t' & ? & Ha). simplify_eq. rewrite <- Ht. clear Ht.
  split_ifs; unfold eff_ret in Hr; simplify_eq/=; bool_to_prop; split; eauto.
  1, 2: exists t'; by rewrite Ha, last_snoc.
  all: split_and!; [done|lia| |lia]; intros cap Hc; simplify_eq/=; lia.
Qed.

Lemma record_spec state summary stop sig cost evidence s r s' :
  record (X := X) now state summary stop sig cost evidence s = (r, s') →
  r = Ok tt ∧ ∃ e t, appended (is_run_id state) s s' [e] ∧
    pe_cost_usd e = cost ∧ pe_stop_reason e = stop ∧ lw_answers s' = (lw_answers s ++ [AClock t])%list.
Proof.
  unfold record. intros Hr. apply eff_bind_eq in Hr as [(t & s2 & Ht & Hr)|(e & Ht & ->)].
  2: { by apply call_now_ledger in Ht as (_ & ? & ? & _). }
  apply call_now_ledger in Ht as (El & t' & ? & Ha). simplify_eq/=. split; [done|].
  eexists _, t'. unfold appended. simpl. rewrite El.
  split; [split; [done|by repeat constructor]|done].
Qed.

Lemma emit_stop_ledger state stop summary s r s' :
  emit_stop (X := X) policy now event_sink state stop summary s = (r, s') →
  r = Ok tt ∧ lw_ledger s' = lw_ledger s ∧
  ∃ stamps, lw_answers s' = (lw_answers s ++ (AClock <$> stamps))%list ∧ length stamps = (if event_sink then 1 else 0)%nat.
Proof.
  unfold emit_stop. destruct event_sink; simpl;
    [|unfold eff_ret; intros; simplify_eq; split; [done|]; split; [done|]; exists []; by rewrite app_nil_r].
  intros Hr. apply eff_bind_eq in Hr as [(t & s2 & Ht & Hr)|(e & Ht & ->)].
  2: { by apply call_now_ledger in Ht as (_ & ? & ? & _). }
  apply call_now_ledger in Ht as (El & t' & ? & Ha). simplify_eq/=. split; [done|]. split; [done|]. by exists [t'].
Qed.

Lemma finish_spec state ls stop evidence summary s r s' :
  finish (X := X) policy now event_sink state ls stop evidence summary s = (r, s') →
  r = Ok (inr (mkGoalLoopResult state stop summary)) ∧
  (∃ e, appended (is_run_id state) s s' [e] ∧ pe_cost_usd e = 0 ∧ pe_stop_reason e = Some stop) ∧
  ∃ stamps, lw_answers s' = (lw_answers s ++ (AClock <$> stamps))%list ∧ length stamps = (if event_sink then 2 else 1)%nat.
Proof.
  unfold finish. intros Hr. apply eff_bind_eq in Hr as [([] & s1 & Ha & Hr)|(e & Ha & ->)];
    apply record_spec in Ha as [? (e1 & t1 & Ha & Hc & Hs & Ht)]; [|done].
  apply eff_bind_eq in Hr as [([] & s2 & Hb & Hr)|(e & Hb & ->)];
    apply emit_stop_ledger in Hb as (? & Hb & stamps & Hst & Hl); [|done].
  unfold eff_ret in Hr. simplify_eq/=. split; [done|]. split.
  - exists e1. split; [|done]. destruct Ha as [Ha Hf]. split; [by rewrite Hb|done].
  - exists (t1 :: stamps). rewrite Hst, Ht, fmap_cons, <- (assoc_L (++)%list). split; [done|]. simpl. rewrite Hl. by destruct event_sink.
Qed.

(** What one turn does to the ledger and the state. [open_entries] are entries
    that do not stop the loop. *)
Definition open_entries (new : list ProgressLedgerEntry) (cost : amount) : Prop :=
  Forall (λ e, pe_stop_reason e = None) new ∧ sumZ (map pe_cost_usd new) = cost.

Definition same_run state state' : Prop := is_run_id state' = is_run_id state.

Definition turn_spec state s (r : res X (IterationState + GoalLoopResult)) s' : Prop :=
  match r with
  | Err _ => ∃ new, appended (is_run_id state) s s' new ∧
                    Forall (λ e, pe_stop_reason e = None) new
  | Ok (inl state') => ∃ new,
      appended (is_run_id state) s s' new ∧
      open_entries new (is_cost_usd_spent state' - is_cost_usd_spent state) ∧
      same_run state state' ∧ is_iteration state' = is_iteration state + 1 ∧
      is_iteration state' < lb_max_iterations policy
  | Ok (inr res) => ∃ new last,
      appended (is_run_id state) s s' (new ++ [last])%list ∧
      open_entries new (is_cost_usd_spent (gr_state res) - is_cost_usd_spent state) ∧
      pe_stop_reason last = Some (gr_stop_reason res) ∧ pe_cost_usd last = 0 ∧
      same_run state (gr_state res) ∧
      is_iteration state ≤ is_iteration (gr_state res) ≤
        Z.max (is_iteration state) (lb_max_iterations policy) ∧
      stopped_by policy event_sink (gr_state res) (lw_answers s') (gr_stop_reason res)
  end.

Lemma call_run_ledger {A} (f : W → res X A * W) s r s' :
  (let '(a, w) := f (lw_world s) in (a, mkLoopWorld w (lw_ledger s) (lw_events s) (lw_answers s))) =
    (r, s') → lw_ledger s' = lw_ledger s.
Proof. destruct (f (lw_world s)). naive_solver. Qed.

Lemma appended_step run_id s s1 s2 s3 e new :
  appended run_id s s1 new → lw_ledger s2 = lw_ledger s1 → appended run_id s2 s3 [e] →
  appended run_id s s3 (new ++ [e])%list.
Proof.
  intros Ha E Hb. eapply appended_trans; [exact Ha|].
  destruct Hb as [Hb Hf]. split; [by rewrite Hb, E|done].
Qed.

Lemma open_entries_snoc new cost e :
  open_entries new cost → pe_stop_reason e = None →
  open_entries (new ++ [e])%list (cost + pe_cost_usd e).
Proof.
  intros [Hf Hs] He. split; [apply Forall_app; by repeat constructor|].
  rewrite map_app, sumZ_app, Hs. simpl. lia.
Qed.

Lemma turn_spec_finish state state' s s1 s2 r s3 new ls stop evidence summary :
  appended (is_run_id state) s s1 new → lw_ledger s2 = lw_ledger s1 →
  open_entries new (is_cost_usd_spent state' - is_cost_usd_spent state) →
  same_run state state' →
  is_iteration state ≤ is_iteration state' ≤
    Z.max (is_iteration state) (lb_max_iterations policy) →
  reason_justified policy state' (lw_answers s2) stop →
  finish (X := X) policy now event_sink state' ls stop evidence summary s2 = (r, s3) →
  turn_spec state s r s3.
Proof.
  intros Ha E Ho Hrun Hi Hj Hf. apply finish_spec in Hf as (-> & (e & Hb & Hc & Hs) & stamps & Hst & Hl).
  rewrite Hrun in Hb. simpl. exists new, e. split_and!; try done; [|apply Hi..|by exists (lw_answers s2), stamps].
  by eapply appended_step.
Qed.

Lemma iteration_spec state s r s' :
  iteration_of state s = (r, s') → turn_spec state s r s'.
Proof.
  unfold iteration. intros Hr.
  apply eff_bind_eq in Hr as [(pre & s1 & Hp & Hr)|(e & Hp & ->)];
    apply stop_reason_spec in Hp as [E1 Hpre]; [|done].
  destruct pre as [stop|].
  { eapply (turn_spec_finish _ state s s s1 _ _ []); try done.
    split; [done|simpl; lia]. lia. }
  assert (is_iteration state < lb_max_iterations policy) as Hlt by apply Hpre.
  apply eff_bind_eq in Hr as [(outcome & s2 & Ho & Hr)|(e & Ho & ->)];
    apply call_run_ledger in Ho as E2.
  2: { exists []. split; [apply appended_same; congruence|done]. }
  set (st := record_outcome state outcome) in *.
  apply eff_bind_eq in Hr as [([] & s3 & Hc & Hr)|(e & Hc & ->)];
    apply record_spec in Hc as [? (e1 & t1 & Ha & Hcost & Hstop & _)]; [|done].
  assert (appended (is_run_id state) s s3 [e1]) as A1.
  { apply (appended_step (is_run_id state) s s s2 s3 e1 []); [by split|congruence|done]. }
  assert (open_entries [e1] (is_cost_usd_spent st - is_cost_usd_spent state)) as O1.
  { split; [by repeat constructor|]. simpl. lia. }
  destruct (io_deterministic_completion outcome).
  { eapply (turn_spec_finish _ st s s3 s3 _ _ [e1]); try done; simpl; lia. }
  apply eff_bind_eq in Hr as [(post & s4 & Hq & Hr)|(e & Hq & ->)];
    apply stop_reason_spec in Hq as [E3 Hpost]; [|done].
  destruct post as [stop|].
  { eapply (turn_spec_finish _ st s s3 s4 _ _ [e1]); try done; simpl; lia. }
  apply eff_bind_eq in Hr as [(ev & s5 & Hv & Hr)|(e & Hv & ->)];
    apply call_run_ledger in Hv as E4.
  2: { exists [e1]. split; [|by apply O1]. destruct A1 as [A1 ?]. split; [congruence|done]. }
  apply eff_bind_eq in Hr as [([] & s6 & Hd & Hr)|(e & Hd & ->)];
    apply record_spec in Hd as [? (e2 & t2 & Hb & Hcost2 & Hstop2 & _)]; [|done].
  assert (appended (is_run_id state) s s6 [e1; e2]) as A2.
  { apply (appended_step (is_run_id state) s s3 s5 s6 e2 [e1]); [done|congruence|done]. }
  assert (open_entries [e1; e2]
    (is_cost_usd_spent (record_completion_evaluation st ev) - is_cost_usd_spent state)) as O2.
  { pose proof (open_entries_snoc _ _ e2 O1 Hstop2) as [? Hs]. split; [done|].
    simpl in *. lia. }
  destruct (ce_completed ev).
  { eapply (turn_spec_finish _ (record_completion_evaluation st ev) s s6 s6 _ _ [e1; e2]);
      try done; simpl; lia. }
  unfold eff_ret in Hr. simplify_eq/=. exists [e1; e2]. split_and!; try done. apply Hpost.
Qed.

(** The same for a whole run, which ends with an exception or a result. *)
Lemma run_spec fuel state s r s' :
  run_of fuel state s = Some (r, s') → turn_spec state s (inr <$> r) s'.
Proof.
  revert state s. induction fuel as [|fuel IH]; intros state s Hr; simpl in Hr; [done|].
  destruct (iteration_of state s) as [r1 s1] eqn:Hi. apply iteration_spec in Hi.
  destruct r1 as [[st|res]|x]; [|by simplify_eq/=..].
  destruct Hi as (new & Ha & Ho & Hrun & Hit & Hlt).
  apply IH in Hr. destruct r as [res|x]; simpl in *; rewrite Hrun in Hr.
  - destruct Hr as (new2 & last & Hb & Ho2 & Hs & Hc & Hrun2 & Hit2 & Hj).
    exists (new ++ new2)%list, last. rewrite <- (assoc_L (++)%list).
    split_and!; try done; try lia.
    + by eapply appended_trans.
    + destruct Ho as [Hf1 Hs1], Ho2 as [Hf2 Hs2]. split; [by apply Forall_app|].
      rewrite map_app, sumZ_app. lia.
    + unfold same_run in *. congruence.
  - destruct Hr as (new2 & Hb & Hf). exists (new ++ new2)%list.
    split; [by eapply appended_trans|]. apply Forall_app. split; [by apply Ho|done].
Qed.

Lemma run_total fuel state s :
  (0 < fuel)%nat → lb_max_iterations policy - is_iteration state ≤ Z.of_nat fuel →
  is_Some (run_of fuel state s).
Proof.
  revert state s. induction fuel as [|fuel IH]; intros state s Hpos Hf; [lia|]. simpl.
  destruct (iteration_of state s) as [r1 s1] eqn:Hi. apply iteration_spec in Hi.
  destruct r1 as [[st|res]|x]; [|by eexists..].
  destruct Hi as (new & _ & _ & _ & Hit & Hlt). apply IH; lia.
Qed.
End controller_facts.

(** A goal loop always comes to an end: whatever the runner, the evaluator,
    the clock and the halt callback do, and whatever the ledger, [run] returns or
    raises after at most as many turns as the policy has iterations left (one
    turn when none is left), and the state it returns has not gone past the
    policy's limit of iterations. *)
Theorem goal_loop_terminates {W X L : Type} `{ProgressLedgerLaws L} policy
    (run_iteration : IterationState → W → res X IterationOutcome * W)
    (evaluate : IterationState → L → W → res X CompletionEvaluation * W)
    halt_requested now event_sink state (s : LoopWorld (W := W) (L := L)) :
  let fuel := Z.to_nat (Z.max 1 (lb_max_iterations policy - is_iteration state)) in
  ∃ r s', run policy run_iteration evaluate halt_requested now event_sink fuel state s
          = Some (r, s') ∧
    ∀ result, r = Ok result →
      is_iteration state ≤ is_iteration (gr_state result) ≤
        Z.max (is_iteration state) (lb_max_iterations policy).
Proof.
  intros fuel.
  destruct (run_total policy run_iteration evaluate halt_requested now event_sink fuel state s)
    as [[r s'] Hr]; [lia|lia|].
  exists r, s'. split; [done|]. intros result ->. apply run_spec in Hr.
  by destruct Hr as (? & ? & _ & _ & _ & _ & _ & ? & _).
Qed.


(** A run whose runner spends 3 each time and is stopped by a budget of 5, with a
    clock that advances one minute each time it is read. *)
Definition example_policy : LoopBudgetPolicy := mkLoopBudgetPolicy 10 (Some 5) 240 3.
Definition example_state : IterationState :=
  mkIterationState "run-1" (Some "s") "goal" "done" 0 None None 0 0 None 0 false.


Lemma goal_loop_terminates_witness :
  ∃ r s', run (W := Z) (X := unit) (L := InMemoryProgressLedger) example_policy
      (λ _ w, (Ok (mkIterationOutcome "step" 0 None false []), w))
      (λ _ _ w, (Ok (mkCompletionEvaluation false "not yet" 0 0 None), w))
      (λ w, (false, w)) (λ w, (w, w)) true 10 example_state (mkLoopWorld 0 [] [] [])
      = Some (r, s') ∧
    ∀ result, r = Ok result → 0 ≤ is_iteration (gr_state result) ≤ 10.
Proof.
  exact (goal_loop_terminates (W := Z) (X := unit) (L := InMemoryProgressLedger) example_policy
      (λ _ w, (Ok (mkIterationOutcome "step" 0 None false []), w))
      (λ _ _ w, (Ok (mkCompletionEvaluation false "not yet" 0 0 None), w))
      (λ w, (false, w)) (λ w, (w, w)) true example_state (mkLoopWorld 0 [] [] [])).
Defined.
