(* ===== verification/Retry.v ===== *)
(** Retry policy and controller (src/optimus/retry/policy.py): how a raised
    exception is classified, what a policy decides about it, and the loop that
    runs an operation until it succeeds or the policy gives up. *)
From S2P Require Import Prelude Text.

Local Open Scope string_scope.
Local Open Scope Z_scope.

(** * Failures *)

Inductive FailureKind :=
| SUCCESS_KIND | TRANSIENT | RATE_LIMIT | PERMANENT | POLICY_VIOLATION | FITNESS_GATE | UNKNOWN.

Inductive FailureSeverity := RETRYABLE | TERMINAL | ESCALATE.
#[export] Instance FailureSeverity_eq_dec : EqDecision FailureSeverity.
Proof. solve_decision. Defined.

Inductive RetryAction := SUCCESS | RETRY | ABORT_WITH_REPORT | ESCALATE_TO_USER.
#[export] Instance RetryAction_eq_dec : EqDecision RetryAction.
Proof. solve_decision. Defined.

Definition FailureKind_value (k : FailureKind) : string :=
  match k with
  | SUCCESS_KIND => "success" | TRANSIENT => "transient" | RATE_LIMIT => "rate_limit"
  | PERMANENT => "permanent" | POLICY_VIOLATION => "policy_violation"
  | FITNESS_GATE => "fitness_gate" | UNKNOWN => "unknown"
  end.

(** The classes of exceptions that the classification tells apart, with the
    fields it reads of them; [XOther] is any other exception. *)
Inductive ExcClass :=
| XCompositeGateError
| XTransientGatewayError
| XProviderRateLimitError
| XPermanentGatewayError
| XGatewayResponseError
| XPolicyViolationError
| XGatewayHttpError (status_code : Z) (retryable : option bool)
| XOther.

(** An exception: its class, the name of its type and its text. *)
Record Exc := mkExc {
  exc_class : ExcClass;
  exc_type : string;
  exc_message : string
}.

(** What a call may raise: an [Exception], or a [BaseException] that is not one
    (an interrupt, an exit), which no handler here catches. *)
Inductive Raised :=
| RException (e : Exc)
| RBaseException (type_name : string).

Record FailureClassification := mkFailureClassification {
  fc_kind : FailureKind;
  fc_severity : FailureSeverity;
  fc_error_type : string;
  fc_message : string;
  fc_cost_usd : option amount
}.

Definition fc_retryable (c : FailureClassification) : bool :=
  bool_decide (fc_severity c = RETRYABLE).

Definition fc_summary (c : FailureClassification) : string :=
  fc_error_type c +:+ ": " +:+ fc_message c.

Record RetryDecision := mkRetryDecision {
  rd_action : RetryAction;
  rd_classification : FailureClassification;
  rd_attempt : Z;
  rd_delay_ms : Z;
  rd_reason : string
}.

Record RetryFailure := mkRetryFailure {
  rf_attempt : Z;
  rf_classification : FailureClassification;
  rf_decision : RetryDecision
}.

Record RetryResult (T : Type) := mkRetryResult {
  rr_value : option T;
  rr_attempts : Z;
  rr_retry_count : Z;
  rr_prior_failures : list RetryFailure;
  rr_final_decision : RetryDecision
}.
Arguments mkRetryResult {T} _ _ _ _ _.
Arguments rr_value {T} _.
Arguments rr_attempts {T} _.
Arguments rr_retry_count {T} _.
Arguments rr_prior_failures {T} _.
Arguments rr_final_decision {T} _.

Definition TRANSIENT_HTTP_STATUS_CODES : list Z := [408; 409; 425; 429; 500; 502; 503; 504].
Definition PERMANENT_HTTP_STATUS_CODES : list Z := [400; 401; 403; 404; 422].

Definition classification (kind : FailureKind) (severity : FailureSeverity) (error : Exc)
    : FailureClassification :=
  mkFailureClassification kind severity (exc_type error) (exc_message error) None.

Definition classify_failure (error : Exc) : FailureClassification :=
  match exc_class error with
  | XCompositeGateError => classification FITNESS_GATE RETRYABLE error
  | XTransientGatewayError => classification TRANSIENT RETRYABLE error
  | XProviderRateLimitError => classification RATE_LIMIT RETRYABLE error
  | XPermanentGatewayError | XGatewayResponseError => classification PERMANENT TERMINAL error
  | XPolicyViolationError => classification POLICY_VIOLATION TERMINAL error
  | XGatewayHttpError status_code retryable =>
      if bool_decide (retryable = Some false) then classification PERMANENT TERMINAL error
      else if bool_decide (status_code ∈ TRANSIENT_HTTP_STATUS_CODES)
      then classification (if status_code =? 429 then RATE_LIMIT else TRANSIENT) RETRYABLE error
      else if bool_decide (status_code ∈ PERMANENT_HTTP_STATUS_CODES)
      then classification PERMANENT TERMINAL error
      else classification UNKNOWN ESCALATE error
  | XOther => classification UNKNOWN ESCALATE error
  end.

(** * The policy *)

Record RetryPolicy := mkRetryPolicy {
  rp_max_retries : Z;
  rp_base_delay_ms : Z;
  rp_jitter_ms : list Z
}.

Definition default_retry_policy : RetryPolicy := mkRetryPolicy 3 500 [0; 25; 50; 75].

(** [_delay_ms]: the index is within the tuple, as Python's [%] by a positive
    number is non-negative. *)
Definition delay_ms (p : RetryPolicy) (attempt : Z) : Z :=
  let exponent := Z.max (attempt - 1) 0 in
  let jitter :=
    match rp_jitter_ms p with
    | [] => 0
    | js => default 0 (js !! Z.to_nat ((attempt - 1) mod Z.of_nat (length js)))
    end in
  rp_base_delay_ms p * 2 ^ exponent + jitter.

Definition decide_retry (p : RetryPolicy) (c : FailureClassification) (attempt : Z)
    : RetryDecision :=
  if bool_decide (fc_severity c = ESCALATE)
  then mkRetryDecision ESCALATE_TO_USER c attempt 0
         (FailureKind_value (fc_kind c) +:+ " failures require user escalation")
  else if negb (fc_retryable c)
  then mkRetryDecision ABORT_WITH_REPORT c attempt 0
         (FailureKind_value (fc_kind c) +:+ " failures are not retryable")
  else if rp_max_retries p <? attempt
  then mkRetryDecision ESCALATE_TO_USER c attempt 0 "retry budget exhausted"
  else mkRetryDecision RETRY c attempt (delay_ms p attempt)
         "transient failure within retry budget".

(** * The controller *)

Definition success_decision (attempt : Z) : RetryDecision :=
  mkRetryDecision SUCCESS
    (mkFailureClassification SUCCESS_KIND TERMINAL "None" "operation succeeded" None)
    attempt 0 "operation succeeded".

Section retry_controller.
Context {W T : Type}.
Variable policy : RetryPolicy.
Variable operation : W → res Raised T * W.
Variable sleep_ms : Z → W → W.

(** [RetryController.run] from the attempt [attempt] on, with the failures so
    far; [None] is out of fuel. The last component lists the delays slept. *)
Fixpoint retry_run (fuel : nat) (attempt : Z) (failures : list RetryFailure) (w : W)
    : option (res Raised (RetryResult T) * W * list Z) :=
  match fuel with
  | O => None
  | S fuel' =>
      match operation w with
      | (Ok value, w) =>
          Some (Ok (mkRetryResult (Some value) attempt (Z.of_nat (length failures)) failures
                      (success_decision attempt)), w, [])
      | (Err (RBaseException t), w) => Some (Err (RBaseException t), w, [])
      | (Err (RException exc), w) =>
          let c := classify_failure exc in
          let decision := decide_retry policy c attempt in
          let failures := (failures ++ [mkRetryFailure attempt c decision])%list in
          if negb (bool_decide (rd_action decision = RETRY))
          then Some (Ok (mkRetryResult None attempt (Z.max (attempt - 1) 0) failures decision),
                     w, [])
          else
            match retry_run fuel' (attempt + 1) failures (sleep_ms (rd_delay_ms decision) w) with
            | Some (r, w, slept) => Some (r, w, rd_delay_ms decision :: slept)
            | None => None
            end
      end
  end.
End retry_controller.

(** * What the controller promises *)

(** A decision is [RETRY] exactly for a retryable failure within the budget. *)
Lemma decide_retry_action p c attempt :
  rd_action (decide_retry p c attempt) = RETRY ↔
  fc_severity c = RETRYABLE ∧ attempt ≤ rp_max_retries p.
Proof.
  unfold decide_retry, fc_retryable.
  destruct (fc_severity c); simpl; try (split; [discriminate|by intros [? _]]).
  destruct (Z.ltb_spec (rp_max_retries p) attempt); simpl; split; try done; lia.
Qed.

(** The exceptions that may be retried: failed gates, transient errors and rate limits of the
    Gateway, and the transient statuses of HTTP unless the error says otherwise. *)
Definition may_retry (e : Exc) : Prop :=
  match exc_class e with
  | XCompositeGateError | XTransientGatewayError | XProviderRateLimitError => True
  | XGatewayHttpError status retryable =>
      retryable ≠ Some false ∧ status ∈ [408; 409; 425; 429; 500; 502; 503; 504]
  | _ => False
  end.

Lemma classify_retryable e : fc_severity (classify_failure e) = RETRYABLE ↔ may_retry e.
Proof.
  unfold classify_failure, may_retry. destruct (exc_class e) as [| | | | | |status retryable|]; simpl; try (by split).
  case_bool_decide; [by split; [|intros []]|]. case_bool_decide; [by split|]. case_bool_decide; by split; [|intros []].
Qed.

(** The failures that were retried, in order: each of an exception that may be retried, within
    the budget, and with the policy's delay. *)
Record retried (p : RetryPolicy) (failures : list RetryFailure) : Prop := {
  retried_numbered i f : failures !! i = Some f → rf_attempt f = Z.of_nat i + 1;
  retried_retryable f : f ∈ failures →
    (∃ e, rf_classification f = classify_failure e ∧ may_retry e) ∧ rf_attempt f ≤ rp_max_retries p;
  retried_retry f : f ∈ failures → rd_action (rf_decision f) = RETRY
    ∧ rd_attempt (rf_decision f) = rf_attempt f ∧ rd_delay_ms (rf_decision f) = delay_ms p (rf_attempt f)
}.

(** Why a run gives up on a failure: it may be retried and the budget is spent, or it may
    not be retried. *)
Definition gives_up (p : RetryPolicy) (e : Exc) (d : RetryDecision) (attempt : Z) : Prop :=
  (may_retry e → rp_max_retries p < attempt) ∧ rd_attempt d = attempt ∧ rd_delay_ms d = 0 ∧
  rd_action d = match fc_severity (classify_failure e) with
                | TERMINAL => ABORT_WITH_REPORT
                | RETRYABLE | ESCALATE => ESCALATE_TO_USER
                end.

Definition delays (p : RetryPolicy) (first count : Z) : list Z :=
  delay_ms p <$> seqZ first count.

Record retry_outcome {T} (p : RetryPolicy) (r : RetryResult T) : Prop := {
  ro_attempts : 1 ≤ rr_attempts r ≤ Z.max 1 (rp_max_retries p + 1);
  ro_retry_count : rr_retry_count r = rr_attempts r - 1;
  ro_failures : ∃ retries rest,
    rr_prior_failures r = (retries ++ rest)%list ∧ retried p retries ∧
    Z.of_nat (length retries) = rr_attempts r - 1 ∧
    match rr_value r with
    | Some _ => rest = [] ∧ rd_action (rr_final_decision r) = SUCCESS
    | None => ∃ e, rest = [mkRetryFailure (rr_attempts r) (classify_failure e) (rr_final_decision r)] ∧
        gives_up p e (rr_final_decision r) (rr_attempts r)
    end
}.

Lemma decide_retry_gives_up p e attempt : rd_action (decide_retry p (classify_failure e) attempt) ≠ RETRY →
  gives_up p e (decide_retry p (classify_failure e) attempt) attempt.
Proof.
  intros Ha. split.
  - intros He. destruct (Z.le_gt_cases attempt (rp_max_retries p)); [|lia]. destruct Ha.
    apply decide_retry_action. split; [by apply classify_retryable|done].
  - unfold decide_retry, fc_retryable in *. destruct (fc_severity (classify_failure e)); simpl in *; try done. by split_ifs.
Qed.

Section retry_facts.
Context {W T : Type} (policy : RetryPolicy).
Context (operation : W → res Raised T * W) (sleep_ms : Z → W → W).

Lemma retried_nil : retried policy [].
Proof. split; [done|set_solver..]. Qed.

Lemma retried_snoc failures e :
  retried policy failures →
  let attempt := Z.of_nat (length failures) + 1 in let c := classify_failure e in
  rd_action (decide_retry policy c attempt) = RETRY →
  retried policy (failures ++ [mkRetryFailure attempt c (decide_retry policy c attempt)])%list.
Proof.
  intros [Hn Ha Hr] attempt c Hc. pose proof (proj1 (decide_retry_action _ _ _) Hc) as [Hs Hle]. split.
  - intros i f [Hi|[Hi Hf]]%lookup_app_Some; [by apply Hn|].
    apply list_lookup_singleton_Some in Hf as [Hz <-]. simpl. lia.
  - intros f [?| ->%list_elem_of_singleton]%elem_of_app; [by apply Ha|]. split; [|done]. exists e. split; [done|]. by apply classify_retryable.
  - intros f [?| ->%list_elem_of_singleton]%elem_of_app; [by apply Hr|]. simpl. unfold decide_retry in *. by split_ifs.
Qed.

Lemma delays_cons n count :
  0 < count → delays policy n count = delay_ms policy n :: delays policy (n + 1) (count - 1).
Proof.
  intros Hc. unfold delays.
  replace (seqZ n count) with (n :: seqZ (n + 1) (count - 1)); [done|].
  by rewrite (seqZ_cons n count) by lia.
Qed.

Lemma retry_run_spec fuel failures w :
  retried policy failures →
  let n := Z.of_nat (length failures) in
  n ≤ Z.max 0 (rp_max_retries policy) →
  Z.max 1 (rp_max_retries policy + 1) - n ≤ Z.of_nat fuel →
  ∃ r w' slept, retry_run policy operation sleep_ms fuel (n + 1) failures w = Some (r, w', slept) ∧
    ∀ result, r = Ok result → retry_outcome policy result ∧
      n + 1 ≤ rr_attempts result ∧ slept = delays policy (n + 1) (rr_attempts result - 1 - n).
Proof.
  revert failures w. induction fuel as [|fuel IH]; intros failures w Hret n Hn Hf; [lia|].
  simpl. destruct (operation w) as [[value|[exc|t]] w1].
  - do 3 eexists. split; [done|]. intros result [= <-]. split.
    + split; simpl; [lia|lia|]. exists failures, []. rewrite app_nil_r.
      split_and!; [done|done|lia|done|done].
    + simpl. split; [lia|]. unfold delays. by replace (n + 1 - 1 - n) with 0 by lia.
  - set (c := classify_failure exc). case_bool_decide as Ha; simpl.
    + pose proof (proj1 (decide_retry_action _ _ _) Ha) as [_ Hle].
      pose proof (retried_snoc _ exc Hret Ha) as Hret'. fold n in Hret'.
      set (fs := (failures ++ _)%list) in *.
      assert (Z.of_nat (length fs) = n + 1) as El.
      { unfold fs. rewrite length_app. simpl. lia. }
      destruct (IH fs (sleep_ms (rd_delay_ms (decide_retry policy c (n + 1))) w1) Hret')
        as (r & w2 & slept & Hr & Hres); [lia|lia|].
      rewrite El in Hr, Hres. rewrite Hr. do 3 eexists. split; [done|].
      intros result Hres'. destruct (Hres result Hres') as (Ho & Hlt & ->).
      split_and!; [done|lia|]. rewrite (delays_cons (n + 1) (rr_attempts result - 1 - n)) by lia. f_equal.
      * unfold decide_retry in Ha |- *. by split_ifs.
      * f_equal; lia.
    + do 3 eexists. split; [done|]. intros result [= <-]. split.
      * split; simpl; [lia|lia|]. exists failures. eexists. split_and!; [done|done|lia|].
        exists exc. split; [done|]. by apply decide_retry_gives_up.
      * simpl. split; [lia|]. unfold delays. by replace (n + 1 - 1 - n) with 0 by lia.
  - do 3 eexists. split; [done|]. intros result [=].
Qed.
End retry_facts.


(** An operation that fails twice transiently and then succeeds. *)
Example retry_run_recovers :
  retry_run (W := Z) (T := Z) default_retry_policy
    (λ w, (if w <? 2 then Err (RException (mkExc XTransientGatewayError "TransientGatewayError" "503"))
           else Ok 7, w + 1))
    (λ _ w, w) 4 1 [] 0
  = Some (Ok (mkRetryResult (Some 7) 3 2
      (let c := mkFailureClassification TRANSIENT RETRYABLE "TransientGatewayError" "503" None in
       [mkRetryFailure 1 c (mkRetryDecision RETRY c 1 500 "transient failure within retry budget");
        mkRetryFailure 2 c (mkRetryDecision RETRY c 2 1025 "transient failure within retry budget")])
      (success_decision 3)), 3, [500; 1025]).
Proof. reflexivity. Qed.
