(* ===== verification/Gates.v ===== *)
(** Fitness gates and the shadow workspace: the gate runner
    (src/optimus/gates/fitness.py, exceptions.py), the shadow copy and its
    promotion with rollback (src/optimus/gates/shadow_workspace.py), the gated
    mutation (src/optimus/gates/mutation_flow.py) and the gated retry loop
    (src/optimus/retry/gated_run.py).

    A directory tree is a finite map from relative paths (their components) to
    files and directories, without symbolic links. The operations on it are those
    the code uses of [pathlib], with the errors the tree itself causes; any other
    I/O error is injected by an oracle ([IoFaults]): while the shadow is made,
    scanned or removed, at each change of a promotion and at each step of its
    rollback, also half way through a write. *)
From stdpp Require Import sorting pretty.
From S2P Require Import Prelude Text Runtime Retry.

Local Open Scope string_scope.

(** * Fitness gates *)

Inductive GateStatus := PASS | FAIL | ERROR | SKIP.
#[export] Instance GateStatus_eq_dec : EqDecision GateStatus.
Proof. solve_decision. Defined.

Record GateResult := mkGateResult {
  ga_name : string;
  ga_status : GateStatus;
  ga_summary : string;
  ga_duration_ms : Z;
  ga_required : bool
}.

(** [GateResult.error] with its default duration. *)
Definition gate_error (name summary : string) (required : bool) : GateResult :=
  mkGateResult name ERROR summary 0 required.

(** [CompositeGateResult] has one field, the results in order. *)
Definition CompositeGateResult : Type := list GateResult.

Definition gate_failed (r : GateResult) : bool :=
  bool_decide (ga_status r = FAIL) || bool_decide (ga_status r = ERROR).

Definition required_gate_names (c : CompositeGateResult) : list string :=
  ga_name <$> filter (λ r, ga_required r) c.

Definition failed_gate_names (c : CompositeGateResult) : list string :=
  ga_name <$> filter (λ r, ga_required r && gate_failed r) c.

Definition warning_gate_names (c : CompositeGateResult) : list string :=
  ga_name <$> filter (λ r, negb (ga_required r) && gate_failed r) c.

Definition passed (c : CompositeGateResult) : bool := bool_decide (failed_gate_names c = []).

Definition gates_duration_ms (c : CompositeGateResult) : Z := sumZ (ga_duration_ms <$> c).

(** The text of [CompositeGateError]. *)
Definition composite_gate_message (c : CompositeGateResult) : string :=
  "required fitness gates failed: " +:+ join ", " (failed_gate_names c).

Definition CompositeGateError (c : CompositeGateResult) : Exc :=
  mkExc XCompositeGateError "CompositeGateError" (composite_gate_message c).

Definition raise_for_failure (c : CompositeGateResult) : res Exc unit :=
  if negb (passed c) then Err (CompositeGateError c) else Ok tt.

(** A check: its name, whether it is required, and its [run], which may act on
    the world and may raise. *)
Record FitnessCheck (W : Type) := mkFitnessCheck {
  fk_name : string;
  fk_required : bool;
  fk_run : W → res Raised GateResult * W
}.
Arguments mkFitnessCheck {W} _ _ _.
Arguments fk_name {W} _.
Arguments fk_required {W} _.
Arguments fk_run {W} _ _.

Section fitness.
Context {W : Type}.

(** One turn of the runner's loop: an [Exception] becomes an error result, and
    the check decides whether the result is required. *)
Definition run_check (check : FitnessCheck W) : eff W Raised GateResult := λ w,
  let '(r, w) := fk_run check w in
  match r with
  | Err (RBaseException t) => (Err (RBaseException t), w)
  | Err (RException exc) =>
      (Ok (gate_error (fk_name check) (exc_type exc +:+ ": " +:+ exc_message exc)
             (fk_required check)), w)
  | Ok result =>
      (Ok (if bool_decide (ga_required result = fk_required check) then result
           else mkGateResult (ga_name result) (ga_status result) (ga_summary result)
                  (ga_duration_ms result) (fk_required check)), w)
  end.

(** [FitnessGateRunner.run]. *)
Fixpoint run_gates (checks : list (FitnessCheck W)) : eff W Raised CompositeGateResult :=
  match checks with
  | [] => eff_ret []
  | check :: checks' =>
      let! result := run_check check in
      let! rest := run_gates checks' in
      eff_ret (result :: rest)
  end.
End fitness.

(** * The file tree *)

Abbreviation path := (list string).
Inductive node := NFile (content : string) | NDir.
#[export] Instance node_eq_dec : EqDecision node.
Proof. solve_decision. Defined.
Abbreviation tree := (gmap (list string) node).

Definition os_error (type_name : string) : Raised := RException (mkExc XOther type_name "").

Definition file_at (t : tree) (p : path) : option string :=
  match t !! p with Some (NFile c) => Some c | _ => None end.

(** The proper ancestors of a path below the root. *)
Definition ancestors (p : path) : list path :=
  (λ n, take n p) <$> seq 1 (length p - 1).

(** In a tree on disk the ancestors of everything are directories. *)
Definition tree_wf (t : tree) : Prop :=
  ∀ p a, is_Some (t !! p) → a ∈ ancestors p → t !! a = Some NDir.

Definition path_exists (t : tree) (p : path) : bool := bool_decide (is_Some (t !! p)).

Definition read_bytes (t : tree) (p : path) : res Raised string :=
  match t !! p with
  | Some (NFile c) => Ok c
  | Some NDir => Err (os_error "IsADirectoryError")
  | None => Err (os_error "FileNotFoundError")
  end.

(** [unlink(missing_ok=True)]. *)
Definition unlink (t : tree) (p : path) : res Raised tree :=
  match t !! p with
  | Some (NFile _) => Ok (delete p t)
  | Some NDir => Err (os_error "IsADirectoryError")
  | None => Ok t
  end.

(** [p.parent.mkdir(parents=True, exist_ok=True)]. *)
Definition mkdir_parents (t : tree) (p : path) : res Raised tree :=
  if existsb (λ a, bool_decide (is_Some (file_at t a))) (ancestors p)
  then Err (os_error "NotADirectoryError")
  else Ok (foldr (λ a t, <[a := NDir]> t) t (ancestors p)).

Definition write_bytes (t : tree) (p : path) (content : string) : res Raised tree :=
  if forallb (λ a, bool_decide (t !! a = Some NDir)) (ancestors p) then
    match t !! p with
    | Some NDir => Err (os_error "IsADirectoryError")
    | _ => Ok (<[p := NFile content]> t)
    end
  else Err (os_error "FileNotFoundError").

(** * The shadow workspace *)

Inductive ShadowChangeKind := WRITE | DELETE.

Record ShadowChange := mkShadowChange {
  sc_relative_path : path;
  sc_kind : ShadowChangeKind
}.

(** An I/O error at one change of a promotion that the tree does not cause: at
    the read of the old or the new content, at the creation of directories, at
    the removal, or during the write, which then leaves [leftover] in the file. *)
Inductive Fault :=
| FReadTarget | FMkdir | FReadSource | FWrite (leftover : string) | FUnlink.
#[export] Instance Fault_eq_dec : EqDecision Fault.
Proof. solve_decision. Defined.

Definition fault_error : Raised := os_error "OSError".

(** The I/O errors of one mutation: at the [i]-th change promoted, at the [i]-th
    backup restored (a write fault or an unlink fault), and those that making,
    scanning or removing the shadow directory raises. *)
Record IoFaults := mkIoFaults {
  io_change : nat → option Fault;
  io_restore : nat → option Fault;
  io_copy : option Raised;
  io_plan : option Raised;
  io_cleanup : option Raised
}.

Definition raise_on (fault : option Fault) (f : Fault) : res Raised unit :=
  raise_if (bool_decide (fault = Some f)) fault_error.

(** The content a change's backup keeps. *)
Definition backup_of (fault : option Fault) (ws : tree) (target : path)
    : res Raised (option string) :=
  if path_exists ws target
  then raise_on fault FReadTarget ;;* res_map Some (read_bytes ws target)
  else Ok None.

(** [_apply_shadow_change]; the source of a write is the same path in the shadow. *)
Definition apply_shadow_change (fault : option Fault) (kind : ShadowChangeKind)
    (shadow : tree) (target : path) (ws : tree) : res Raised unit * tree :=
  match kind with
  | DELETE =>
      match (raise_on fault FUnlink ;;* unlink ws target) with
      | Ok ws' => (Ok tt, ws')
      | Err e => (Err e, ws)
      end
  | WRITE =>
      match (raise_on fault FMkdir ;;* mkdir_parents ws target) with
      | Err e => (Err e, ws)
      | Ok ws1 =>
          match (raise_on fault FReadSource ;;* read_bytes shadow target) with
          | Err e => (Err e, ws1)
          | Ok content =>
              match fault with
              | Some (FWrite leftover) =>
                  (Err fault_error, match write_bytes ws1 target leftover with
                                    | Ok ws2 => ws2 | Err _ => ws1 end)
              | _ =>
                  match write_bytes ws1 target content with
                  | Ok ws2 => (Ok tt, ws2)
                  | Err e => (Err e, ws1)
                  end
              end
          end
      end
  end.

Abbreviation backup := ((list string) * option string)%type.

(** The loop of [promote_shadow_changes]: its outcome, the backups taken and the
    workspace it leaves. *)
Fixpoint promote_loop (faults : nat → option Fault) (i : nat) (shadow : tree)
    (changes : list ShadowChange) (backups : list backup) (ws : tree)
    : res Raised unit * list backup * tree :=
  match changes with
  | [] => (Ok tt, backups, ws)
  | change :: changes' =>
      let target := sc_relative_path change in
      match backup_of (faults i) ws target with
      | Err e => (Err e, backups, ws)
      | Ok old =>
          let backups := (backups ++ [(target, old)])%list in
          match apply_shadow_change (faults i) (sc_kind change) shadow target ws with
          | (Err e, ws) => (Err e, backups, ws)
          | (Ok _, ws) => promote_loop faults (S i) shadow changes' backups ws
          end
      end
  end.

(** One turn of [_restore_backups], which may fail as the promotion may. *)
Definition restore_backup (fault : option Fault) (b : backup) (ws : tree)
    : res Raised unit * tree :=
  match b.2 with
  | None =>
      match (raise_on fault FUnlink ;;* unlink ws b.1) with
      | Ok ws' => (Ok tt, ws')
      | Err e => (Err e, ws)
      end
  | Some content =>
      match fault with
      | Some (FWrite leftover) =>
          (Err fault_error, match write_bytes ws b.1 leftover with
                            | Ok ws' => ws' | Err _ => ws end)
      | _ =>
          match write_bytes ws b.1 content with
          | Ok ws' => (Ok tt, ws')
          | Err e => (Err e, ws)
          end
      end
  end.

(** The loop of [_restore_backups] over the backups, latest first. *)
Fixpoint restore_loop (faults : nat → option Fault) (i : nat) (bs : list backup) (ws : tree)
    : res Raised unit * tree :=
  match bs with
  | [] => (Ok tt, ws)
  | b :: bs' =>
      match restore_backup (faults i) b ws with
      | (Ok _, ws') => restore_loop faults (S i) bs' ws'
      | (Err e, ws') => (Err e, ws')
      end
  end.

Definition restore_backups (faults : nat → option Fault) (backups : list backup) (ws : tree)
    : res Raised unit * tree :=
  restore_loop faults 0 (reverse backups) ws.

(** [promote_shadow_changes]; its handler is for [Exception], which is all the
    file operations raise. *)
Definition promote_shadow_changes (io : IoFaults) (shadow : tree)
    (changes : list ShadowChange) (ws : tree) : res Raised unit * tree :=
  match promote_loop (io_change io) 0 shadow changes [] ws with
  | (Ok _, _, ws') => (Ok tt, ws')
  | (Err e, backups, ws') =>
      match restore_backups (io_restore io) backups ws' with
      | (Ok _, ws'') => (Err e, ws'')
      | (Err e', ws'') => (Err e', ws'')
      end
  end.

(** The order of paths: by their components. *)
Fixpoint path_leb (p q : path) : bool :=
  match p, q with
  | [], _ => true
  | _ :: _, [] => false
  | a :: p', b :: q' => if decide (a = b) then path_leb p' q' else String.leb a b
  end.
Definition path_le (p q : path) : Prop := path_leb p q = true.
#[export] Instance path_le_dec : RelDecision path_le.
Proof. intros p q. unfold path_le. apply _. Defined.

Section shadow_workspace.
(** [sha256] is the digest of a file's bytes, and [ignored] the name filter that
    [shutil.ignore_patterns] makes of the patterns. *)
Variable sha256 : string → string.
Variable ignored : string → bool.

Definition path_ignored (p : path) : bool := existsb ignored p.

(** [shutil.copytree] with the filter: a name that is ignored is not entered. *)
Definition copytree (ws : tree) : tree := filter (λ pn, path_ignored pn.1 = false) ws.

(** [_file_digests_by_relative_path]. *)
Definition file_digests (t : tree) : gmap path string :=
  omap (λ n, match n with NFile c => Some (sha256 c) | NDir => None end) t.

(** The change at one path, if any. *)
Definition change_at (baseline shadow_digests : gmap path string) (p : path)
    : option ShadowChange :=
  match baseline !! p, shadow_digests !! p with
  | Some _, None => Some (mkShadowChange p DELETE)
  | None, _ => Some (mkShadowChange p WRITE)
  | Some d, Some d' => if decide (d' = d) then None else Some (mkShadowChange p WRITE)
  end.

(** [ShadowWorkspace.changes]. *)
Definition shadow_changes (baseline : gmap path string) (shadow : tree) : list ShadowChange :=
  let shadow_digests := file_digests shadow in
  omap (change_at baseline shadow_digests)
    (merge_sort path_le (elements (dom baseline ∪ dom shadow_digests))).

(** * The gated mutation *)

Context {U : Type}.

(** What the callbacks act on: the workspace, the shadow directory while there is
    one, and whatever else they keep. *)
Record World := mkWorld {
  w_workspace : tree;
  w_shadow : option tree;
  w_user : U
}.

Definition with_shadow (w : World) (s : option tree) : World :=
  mkWorld (w_workspace w) s (w_user w).

Section mutation_run.
Variable checks_factory : World → res Raised (list (FitnessCheck World)) * World.
Variable apply_candidate : World → res Raised unit * World.
Variable io : IoFaults.

(** The candidate applied to the shadow, then the gates run on it. *)
Definition candidate_run : eff World Raised CompositeGateResult :=
  apply_candidate ;;!
  let! checks := checks_factory in
  run_gates checks.

(** The body of the [try]: gates, then promotion if they pass. *)
Definition mutation_body (baseline : gmap path string) : eff World Raised CompositeGateResult :=
  let! result := candidate_run in
  if passed result then
    λ w, match io_plan io with
         | Some e => (Err e, w)
         | None =>
             match promote_shadow_changes io (default ∅ (w_shadow w))
                     (shadow_changes baseline (default ∅ (w_shadow w))) (w_workspace w) with
             | (Ok _, ws) => (Ok result, mkWorld ws (w_shadow w) (w_user w))
             | (Err e, ws) => (Err e, mkWorld ws (w_shadow w) (w_user w))
             end
         end
  else eff_ret result.

Definition forbidden (e : MutationForbidden) : Raised :=
  match e with mkMutationForbidden message => RException (mkExc XOther "MutationForbidden" message) end.

(** The [finally]: an error of [shadow.cleanup()] replaces the outcome. *)
Definition after_cleanup (r : res Raised CompositeGateResult) : res Raised CompositeGateResult :=
  match io_cleanup io with Some e => Err e | None => r end.

(** [ShadowWorkspaceMutationRunner.run]; the shadow is not used again even where
    its removal fails. *)
Definition mutation_run (context : RuntimeContext) : eff World Raised CompositeGateResult := λ w,
  match assert_mutation_allowed context WRITE_FILE with
  | Err e => (Err (forbidden e), w)
  | Ok _ =>
      match io_copy io with
      | Some e => (Err e, w)
      | None =>
          let shadow := copytree (w_workspace w) in
          let '(r, w) := mutation_body (file_digests shadow) (with_shadow w (Some shadow)) in
          (after_cleanup r, with_shadow w None)
      end
  end.
End mutation_run.

(** * Gated retries *)

Record GatedAttempt (T : Type) := mkGatedAttempt {
  gd_attempt : Z;
  gd_candidate : T;
  gd_gate_result : CompositeGateResult;
  gd_failure_summary : option string;
  gd_cost_usd : amount
}.
Arguments mkGatedAttempt {T} _ _ _ _ _.
Arguments gd_attempt {T} _.
Arguments gd_candidate {T} _.
Arguments gd_gate_result {T} _.
Arguments gd_failure_summary {T} _.
Arguments gd_cost_usd {T} _.

Record GatedRetryResult (T : Type) := mkGatedRetryResult {
  gt_succeeded : bool;
  gt_retry_count : Z;
  gt_attempts : list (GatedAttempt T);
  gt_runtime_context : RuntimeContext
}.
Arguments mkGatedRetryResult {T} _ _ _ _.
Arguments gt_succeeded {T} _.
Arguments gt_retry_count {T} _.
Arguments gt_attempts {T} _.
Arguments gt_runtime_context {T} _.

(** The telemetry events of the loop, without their run and session ids and
    their times. *)
Inductive GatedEvent :=
| EvFitnessGate (request_id : string) (gate_passed : bool) (required failed : list string)
    (duration : Z) (cost_usd : amount)
| EvRetryDecision (request_id : string) (attempt retry_count : Z) (failure_kind : string)
    (action : RetryAction) (delay : Z) (disposition : string).

Definition attempt_id (attempt : Z) : string := "attempt-" +:+ pretty attempt.

Definition fitness_gate_event (result : CompositeGateResult) (attempt : Z) (cost : amount)
    : GatedEvent :=
  EvFitnessGate (attempt_id attempt) (passed result) (required_gate_names result)
    (failed_gate_names result) (gates_duration_ms result) cost.

Definition retry_decision_event (d : RetryDecision) (retry_count : Z) : GatedEvent :=
  EvRetryDecision (attempt_id (rd_attempt d)) (rd_attempt d) retry_count
    (FailureKind_value (fc_kind (rd_classification d))) (rd_action d) (rd_delay_ms d) (rd_reason d).

Section gated_run.
Context {T : Type}.
Variable policy : RetryPolicy.
Variable sleep_ms : Z → World → World.
Variable context : RuntimeContext.
Variable checks_factory : T → World → res Raised (list (FitnessCheck World)) * World.
Variable plan_candidate : Z → list string → World → res Raised T * World.
Variable apply_candidate : T → World → res Raised unit * World.
Variable candidate_cost_usd : T → amount.
(** The I/O faults of the mutation at each attempt. *)
Variable faults : Z → IoFaults.

(** One turn of [GatedRetryRunner.run]: [inl] carries the failure summaries, the
    attempts and the delay the next turn starts with. *)
Definition gated_turn (attempt : Z) (summaries : list string) (attempts : list (GatedAttempt T))
    : eff World Raised ((list string * list (GatedAttempt T) * Z + GatedRetryResult T)
                        * list GatedEvent) :=
  let! candidate := plan_candidate attempt summaries in
  let cost := candidate_cost_usd candidate in
  let! result := mutation_run (checks_factory candidate) (apply_candidate candidate)
                   (faults attempt) context in
  let gate_event := fitness_gate_event result attempt cost in
  if passed result then
    eff_ret (inr (mkGatedRetryResult true (attempt - 1)
      (attempts ++ [mkGatedAttempt attempt candidate result None cost])%list
      (with_failure (with_retry_count context (attempt - 1)) None false)), [gate_event])
  else
    let failure_error := CompositeGateError result in
    let failure_summary := exc_message failure_error in
    let summaries := (summaries ++ [failure_summary])%list in
    let attempts :=
      (attempts ++ [mkGatedAttempt attempt candidate result (Some failure_summary) cost])%list in
    let decision := decide_retry policy (classify_failure failure_error) attempt in
    let events := [gate_event; retry_decision_event decision (Z.max (attempt - 1) 0)] in
    if negb (bool_decide (rd_action decision = RETRY)) then
      eff_ret (inr (mkGatedRetryResult false (Z.max (attempt - 1) 0) attempts
        (with_failure (with_retry_count context (Z.max (attempt - 1) 0))
           (Some failure_summary) true)), events)
    else eff_ret (inl (summaries, attempts, rd_delay_ms decision), events).

(** [GatedRetryRunner.run] from the attempt [attempt] on; [None] is out of fuel.
    The list is the events sent to the sink. *)
Fixpoint gated_run (fuel : nat) (attempt : Z) (summaries : list string)
    (attempts : list (GatedAttempt T)) (w : World)
    : option (res Raised (GatedRetryResult T) * World * list GatedEvent) :=
  match fuel with
  | O => None
  | S fuel' =>
      match gated_turn attempt summaries attempts w with
      | (Err e, w) => Some (Err e, w, [])
      | (Ok (inr result, events), w) => Some (Ok result, w, events)
      | (Ok (inl (summaries, attempts, delay), events), w) =>
          match gated_run fuel' (attempt + 1) summaries attempts (sleep_ms delay w) with
          | Some (r, w, events') => Some (r, w, events ++ events')%list
          | None => None
          end
      end
  end.
End gated_run.
End shadow_workspace.

Arguments mkGatedAttempt {T} _ _ _ _ _.
Arguments gd_attempt {T} _.
Arguments gd_candidate {T} _.
Arguments gd_gate_result {T} _.
Arguments gd_failure_summary {T} _.
Arguments gd_cost_usd {T} _.
Arguments mkGatedRetryResult {T} _ _ _ _.
Arguments gt_succeeded {T} _.
Arguments gt_retry_count {T} _.
Arguments gt_attempts {T} _.
Arguments gt_runtime_context {T} _.

(** * Facts on the file tree *)

Lemma elem_of_ancestors a p :
  a ∈ ancestors p ↔ ∃ n, (1 ≤ n < length p)%nat ∧ a = take n p.
Proof.
  unfold ancestors. rewrite list_elem_of_fmap. split.
  - intros (n & -> & Hn%elem_of_seq). exists n. split; [lia|done].
  - intros (n & Hn & ->). exists n. split; [done|]. apply elem_of_seq. lia.
Qed.

Lemma ancestors_irrefl p : p ∉ ancestors p.
Proof.
  rewrite elem_of_ancestors. intros (n & Hn & E). apply (f_equal length) in E.
  rewrite length_take in E. lia.
Qed.

Lemma ancestors_trans a b p : a ∈ ancestors b → b ∈ ancestors p → a ∈ ancestors p.
Proof.
  rewrite !elem_of_ancestors. intros (n & Hn & ->) (m & Hm & ->). exists n.
  rewrite length_take in Hn. split; [lia|]. rewrite take_take. f_equal. lia.
Qed.

Lemma insert_dirs_lookup (l : list path) (t : tree) q :
  foldr (λ a t, <[a := NDir]> t) t l !! q = if decide (q ∈ l) then Some NDir else t !! q.
Proof.
  induction l as [|a l IH]; simpl; [done|].
  destruct (decide (q = a)) as [->|].
  - rewrite lookup_insert_eq, decide_True; [done|set_solver].
  - rewrite lookup_insert_ne by done. rewrite IH. clear IH. repeat case_decide; set_solver.
Qed.

Lemma mkdir_parents_ok t p t1 :
  mkdir_parents t p = Ok t1 →
  (∀ q, t1 !! q = if decide (q ∈ ancestors p) then Some NDir else t !! q) ∧
  (∀ a, a ∈ ancestors p → file_at t a = None).
Proof.
  unfold mkdir_parents. destruct (existsb _ _) eqn:He; intros [= <-].
  split; [intros q; apply insert_dirs_lookup|]. intros a Ha.
  destruct (file_at t a) as [c|] eqn:Hc; [|done]. exfalso.
  rewrite <- not_true_iff_false, existsb_exists in He. apply He. exists a.
  split; [by apply list_elem_of_In|]. rewrite Hc. by apply bool_decide_eq_true_2.
Qed.

Lemma write_bytes_ok t p c t1 :
  write_bytes t p c = Ok t1 →
  t1 = <[p := NFile c]> t ∧ t !! p ≠ Some NDir ∧ ∀ a, a ∈ ancestors p → t !! a = Some NDir.
Proof.
  unfold write_bytes. destruct (forallb _ _) eqn:Hf; [|done]. intros Hw.
  split_and!; [by destruct (t !! p) as [[]|]; simplify_eq|by destruct (t !! p) as [[]|]|].
  intros a Ha. rewrite forallb_forall in Hf. apply list_elem_of_In in Ha.
  by specialize (Hf a Ha); bool_to_prop.
Qed.

Lemma write_bytes_returns t p c :
  t !! p ≠ Some NDir → (∀ a, a ∈ ancestors p → t !! a = Some NDir) →
  write_bytes t p c = Ok (<[p := NFile c]> t).
Proof.
  intros Hp Ha. unfold write_bytes. replace (forallb _ _) with true.
  - by destruct (t !! p) as [[]|].
  - symmetry. apply forallb_forall. intros a Hin. apply bool_decide_eq_true_2, Ha.
    by apply list_elem_of_In.
Qed.

Lemma unlink_ok t p t1 : unlink t p = Ok t1 → t1 = delete p t ∧ t !! p ≠ Some NDir.
Proof.
  unfold unlink. destruct (t !! p) as [[]|] eqn:E; intros [= <-]; [done|].
  by rewrite delete_id.
Qed.

Lemma unlink_returns t p : t !! p ≠ Some NDir → unlink t p = Ok (delete p t).
Proof. unfold unlink. destruct (t !! p) as [[]|] eqn:E; [done..|]. by rewrite delete_id. Qed.

Lemma tree_wf_insert t p c :
  tree_wf t → t !! p ≠ Some NDir → (∀ a, a ∈ ancestors p → t !! a = Some NDir) →
  tree_wf (<[p := NFile c]> t).
Proof.
  intros Hwf Hp Ha q a Hq Hin.
  assert (t !! a = Some NDir) as E.
  { destruct (decide (q = p)) as [->|]; [by apply Ha|].
    rewrite lookup_insert_ne in Hq by done. by eapply Hwf. }
  rewrite lookup_insert_ne; [done|]. intros ->. by rewrite E in Hp.
Qed.

Lemma tree_wf_delete t p : tree_wf t → t !! p ≠ Some NDir → tree_wf (delete p t).
Proof.
  intros Hwf Hp q a Hq Hin. destruct (decide (q = p)) as [->|].
  { by rewrite lookup_delete_eq in Hq; destruct Hq. }
  rewrite lookup_delete_ne in Hq by done. pose proof (Hwf q a Hq Hin) as E.
  rewrite lookup_delete_ne; [done|]. intros ->. by rewrite E in Hp.
Qed.

Lemma tree_wf_mkdir t p t1 : tree_wf t → mkdir_parents t p = Ok t1 → tree_wf t1.
Proof.
  intros Hwf [Hl _]%mkdir_parents_ok q a Hq Hin. rewrite Hl in Hq |- *.
  destruct (decide (a ∈ ancestors p)) as [|Hn]; [done|].
  destruct (decide (q ∈ ancestors p)).
  - destruct Hn. by eapply ancestors_trans.
  - by eapply Hwf.
Qed.

Lemma file_at_insert t p c q :
  file_at (<[p := NFile c]> t) q = if decide (q = p) then Some c else file_at t q.
Proof.
  unfold file_at. destruct (decide (q = p)) as [->|];
    [by rewrite lookup_insert_eq|by rewrite lookup_insert_ne].
Qed.

Lemma file_at_delete t p q :
  file_at (delete p t) q = if decide (q = p) then None else file_at t q.
Proof.
  unfold file_at. destruct (decide (q = p)) as [->|];
    [by rewrite lookup_delete_eq|by rewrite lookup_delete_ne].
Qed.

Lemma file_at_mkdir t p t1 q : mkdir_parents t p = Ok t1 → file_at t1 q = file_at t q.
Proof.
  intros [Hl Ha]%mkdir_parents_ok. unfold file_at at 1. rewrite Hl.
  destruct (decide (q ∈ ancestors p)) as [Hin|]; [by rewrite Ha|done].
Qed.

(** * Promotion and rollback *)

(** What a change of [target] may do to the rest of the tree: nothing to other
    files, and to directories only add ancestors of the target. *)
Record frame (target : path) (t t' : tree) : Prop := {
  frame_wf : tree_wf t → tree_wf t';
  frame_files q : q ≠ target → file_at t' q = file_at t q;
  frame_keep q : t !! q = Some NDir → t' !! q = Some NDir;
  frame_new q : t' !! q = Some NDir → t !! q = Some NDir ∨ q ∈ ancestors target
}.

Lemma frame_refl target t : frame target t t.
Proof. split; auto. Qed.

Lemma frame_trans target t1 t2 t3 : frame target t1 t2 → frame target t2 t3 → frame target t1 t3.
Proof.
  intros [W1 F1 K1 N1] [W2 F2 K2 N2]. split; [by auto| |by auto|].
  - intros q Hq. by rewrite F2, F1.
  - intros q Hq. destruct (N2 q Hq); auto.
Qed.

Lemma frame_mkdir t p t1 : mkdir_parents t p = Ok t1 → frame p t t1.
Proof.
  intros Hm. pose proof (mkdir_parents_ok _ _ _ Hm) as [Hl Ha]. split.
  - intros Hwf. by eapply tree_wf_mkdir.
  - intros q _. by eapply file_at_mkdir.
  - intros q Hq. rewrite Hl. by case_decide.
  - intros q. rewrite Hl. case_decide; auto.
Qed.

Lemma frame_write t p c t1 : write_bytes t p c = Ok t1 → frame p t t1.
Proof.
  intros (-> & Hp & Ha)%write_bytes_ok. split.
  - intros. by apply tree_wf_insert.
  - intros q Hq. by rewrite file_at_insert, decide_False.
  - intros q Hq. rewrite lookup_insert_ne; [done|]. intros ->. by rewrite Hq in Hp.
  - intros q. destruct (decide (q = p)) as [->|];
      [by rewrite lookup_insert_eq|rewrite lookup_insert_ne by done; auto].
Qed.

Lemma frame_unlink t p t1 : unlink t p = Ok t1 → frame p t t1.
Proof.
  intros (-> & Hp)%unlink_ok. split.
  - intros. by apply tree_wf_delete.
  - intros q Hq. by rewrite file_at_delete, decide_False.
  - intros q Hq. rewrite lookup_delete_ne; [done|]. intros ->. by rewrite Hq in Hp.
  - intros q. destruct (decide (q = p)) as [->|];
      [by rewrite lookup_delete_eq|rewrite lookup_delete_ne by done; auto].
Qed.

(** What a change makes of its own path. *)
Definition change_result (shadow : tree) (change : ShadowChange) : option string :=
  match sc_kind change with
  | DELETE => None
  | WRITE => file_at shadow (sc_relative_path change)
  end.

Lemma apply_frame fault change shadow ws r ws' :
  apply_shadow_change fault (sc_kind change) shadow (sc_relative_path change) ws = (r, ws') →
  frame (sc_relative_path change) ws ws' ∧
  (r = Ok tt → file_at ws' (sc_relative_path change) = change_result shadow change).
Proof.
  unfold apply_shadow_change, change_result. set (p := sc_relative_path change). intros Ha.
  destruct (sc_kind change).
  - destruct (raise_on fault FMkdir ;;* _) as [ws1|e] eqn:Hm;
      [|simplify_eq/=; split; [apply frame_refl|done]].
    apply res_bind_ok in Hm as (_ & _ & Hm%frame_mkdir).
    destruct (raise_on fault FReadSource ;;* _) as [c|e] eqn:Hs; [|simplify_eq/=; split; done].
    apply res_bind_ok in Hs as (_ & _ & Hs).
    assert (file_at shadow p = Some c) as Ec.
    { unfold read_bytes in Hs. unfold file_at. by destruct (shadow !! p) as [[]|]; simplify_eq/=. }
    destruct fault as [[]|]; (destruct (write_bytes ws1 p _) as [ws2|e] eqn:Hw;
      [pose proof (frame_trans _ _ _ _ Hm (frame_write _ _ _ _ Hw))|]; simplify_eq/=;
      split; try done);
      intros _; apply write_bytes_ok in Hw as (-> & _ & _);
      by rewrite file_at_insert, decide_True.
  - destruct (raise_on fault FUnlink ;;* _) as [ws1|e] eqn:Hu;
      simplify_eq/=; [|split; [apply frame_refl|done]].
    apply res_bind_ok in Hu as (_ & _ & Hu). split; [by apply frame_unlink|].
    apply unlink_ok in Hu as (-> & _). by rewrite file_at_delete, decide_True.
Qed.

Lemma backup_of_ok fault ws target old :
  backup_of fault ws target = Ok old → old = file_at ws target ∧ ws !! target ≠ Some NDir.
Proof.
  unfold backup_of, path_exists, read_bytes, file_at, res_map. intros Hb.
  destruct (ws !! target) as [[]|]; simpl in Hb; inv_res; done.
Qed.

Lemma restore_loop_ext f g i bs ws :
  (∀ n, f n = g n) → restore_loop f i bs ws = restore_loop g i bs ws.
Proof.
  intros E. revert i ws. induction bs as [|b bs IH]; intros i ws; simpl; [done|]. rewrite E.
  destruct (restore_backup _ _ _) as [[] ?]; [apply IH|done].
Qed.

Lemma restore_frame fault b ws r ws' : restore_backup fault b ws = (r, ws') → frame b.1 ws ws'.
Proof.
  unfold restore_backup. intros Hr. destruct b.2 as [content|].
  - destruct fault as [[]|];
      (destruct (write_bytes _ _ _) as [ws1|] eqn:Hw; simplify_eq;
       [by eapply frame_write|apply frame_refl]).
  - destruct (raise_on _ _ ;;* _) as [ws1|] eqn:Hu; simplify_eq; [|apply frame_refl].
    apply res_bind_ok in Hu as (_ & _ & Hu). by apply frame_unlink.
Qed.

(** Whatever fails, only the files at the changed paths can differ. *)
Lemma restore_loop_outside faults i bs ws r ws' q :
  restore_loop faults i bs ws = (r, ws') → q ∉ bs.*1 → file_at ws' q = file_at ws q.
Proof.
  revert i ws. induction bs as [|b bs IH]; intros i ws Hr Hq; simpl in Hr; [by simplify_eq|].
  rewrite fmap_cons in Hq. apply not_elem_of_cons in Hq as [Hne Hq].
  destruct (restore_backup _ _ _) as [[[]|e] ws1] eqn:Hb; apply restore_frame in Hb as [_ F _ _];
    [|simplify_eq; by apply F]. rewrite (IH _ _ Hr Hq). by apply F.
Qed.

Lemma promote_loop_outside faults i shadow changes backups ws r backups' ws' :
  promote_loop faults i shadow changes backups ws = (r, backups', ws') →
  (∀ q, q ∉ sc_relative_path <$> changes → file_at ws' q = file_at ws q) ∧
  (∀ q, q ∈ backups'.*1 → q ∈ backups.*1 ∨ q ∈ sc_relative_path <$> changes).
Proof.
  revert i backups ws. induction changes as [|change changes IH];
    intros i backups ws Hp; simpl in Hp; [simplify_eq; auto|].
  destruct (backup_of _ _ _) as [old|e]; [|simplify_eq; auto].
  destruct (apply_shadow_change _ _ _ _ _) as [[[]|] ws1] eqn:Ha;
    apply apply_frame in Ha as [[_ F _ _] _].
  - destruct (IH _ _ _ Hp) as [Hq Hb]. split; intros q.
    + intros [Hne Hn]%not_elem_of_cons. rewrite (Hq q Hn). by apply F.
    + intros [Hx|Hx]%Hb; [|set_solver]. rewrite fmap_app in Hx. set_solver.
  - simplify_eq. split; intros q.
    + intros [Hne Hn]%not_elem_of_cons. by apply F.
    + rewrite fmap_app. set_solver.
Qed.

Lemma promote_outside io shadow changes ws r ws' q :
  promote_shadow_changes io shadow changes ws = (r, ws') →
  q ∉ sc_relative_path <$> changes → file_at ws' q = file_at ws q.
Proof.
  unfold promote_shadow_changes, restore_backups. intros Hp Hq.
  destruct (promote_loop _ _ _ _ _ _) as [[rl backups] ws1] eqn:Hl.
  apply promote_loop_outside in Hl as [Ho Hb]. rewrite <- (Ho q Hq).
  destruct rl; [by simplify_eq|].
  destruct (restore_loop _ _ _ _) as [rr ws2] eqn:Hr. apply restore_loop_outside with (q := q) in Hr.
  - by destruct rr; simplify_eq.
  - rewrite fmap_reverse, elem_of_reverse. intros [Hx|Hx]%Hb; [set_solver|done].
Qed.

Section rollback.
(** The paths changed together: none of them is an ancestor of another. *)
Context (targets : list path).
Context (flat : ∀ p q, p ∈ targets → q ∈ targets → p ∉ ancestors q).

Definition new_dir (q : path) : Prop := ∃ p, p ∈ targets ∧ q ∈ ancestors p.

(** [t'] differs from [t] at most in directories made for the targets. *)
Record same_files (t t' : tree) : Prop := {
  sf_wf : tree_wf t';
  sf_files q : file_at t' q = file_at t q;
  sf_keep q : t !! q = Some NDir → t' !! q = Some NDir;
  sf_new q : t' !! q = Some NDir → t !! q = Some NDir ∨ new_dir q
}.

(** Restoring [bs] brings back the files of [t0]. *)
Definition restorable (t0 : tree) (bs : list backup) (t : tree) : Prop :=
  ∀ t', same_files t t' →
    ∀ i, ∃ t'', restore_loop (λ _, None) i bs t' = (Ok tt, t'') ∧ ∀ q, file_at t'' q = file_at t0 q.

Lemma restore_backup_ok target t t1 t' :
  target ∈ targets → tree_wf t → frame target t t1 → t !! target ≠ Some NDir →
  same_files t1 t' →
  ∃ t2, restore_backup None (target, file_at t target) t' = (Ok tt, t2) ∧ same_files t t2.
Proof.
  intros Hin Hwf [_ F K N] Hd [W F' K' N'].
  assert (t' !! target ≠ Some NDir) as Hd'.
  { intros E. destruct (N' _ E) as [E1|(p & Hp & Ha)]; [|by destruct (flat target p Hin Hp)].
    destruct (N _ E1) as [|Ha]; [done|]. by destruct (ancestors_irrefl target). }
  assert (∃ t2, restore_backup None (target, file_at t target) t' = (Ok tt, t2) ∧
    frame target t' t2 ∧ file_at t2 target = file_at t target) as (t2 & Hr & [W2 F2 K2 N2] & E2).
  { unfold restore_backup. simpl. destruct (file_at t target) as [c|] eqn:Hc.
    - rewrite write_bytes_returns; [|done|].
      + eexists. split; [done|]. split; [|by rewrite file_at_insert, decide_True].
        apply (frame_write _ _ c), write_bytes_returns; [done|]. intros a Ha. apply K', K.
        apply (Hwf target a); [|done]. unfold file_at in Hc. by destruct (t !! target).
      + intros a Ha. apply K', K. apply (Hwf target a); [|done].
        unfold file_at in Hc. by destruct (t !! target).
    - simpl. rewrite unlink_returns by done. eexists. split; [done|].
      split; [by apply frame_unlink, unlink_returns|by rewrite file_at_delete, decide_True]. }
  exists t2. split; [done|]. split.
  - auto.
  - intros q. destruct (decide (q = target)) as [->|]; [done|]. by rewrite F2, F', F.
  - auto.
  - intros q Hq. destruct (N2 q Hq) as [Hq'|Ha]; [|right; by exists target].
    destruct (N' q Hq') as [Hq1|?]; [|by right].
    destruct (N q Hq1) as [|Ha]; [by left|right; by exists target].
Qed.

Lemma restorable_step t0 bs target t t1 :
  target ∈ targets → tree_wf t → frame target t t1 → t !! target ≠ Some NDir →
  restorable t0 bs t → restorable t0 ((target, file_at t target) :: bs) t1.
Proof.
  intros Hin Hwf Hf Hd Hr t' Hs i. simpl.
  destruct (restore_backup_ok target t t1 t') as (t2 & -> & Hs2); auto.
Qed.

Lemma promote_loop_restorable faults i shadow changes backups t0 ws r backups' ws' :
  Forall (λ c, sc_relative_path c ∈ targets) changes →
  tree_wf ws → restorable t0 (reverse backups) ws →
  promote_loop faults i shadow changes backups ws = (r, backups', ws') →
  tree_wf ws' ∧ restorable t0 (reverse backups') ws'.
Proof.
  revert i backups ws. induction changes as [|change changes IH];
    intros i backups ws Hin Hwf Hr Hp; simpl in Hp; [by simplify_eq|].
  apply Forall_cons in Hin as [Hin Hins].
  destruct (backup_of _ _ _) as [old|e] eqn:Hb; [|by simplify_eq].
  apply backup_of_ok in Hb as [-> Hd].
  destruct (apply_shadow_change _ _ _ _ _) as [ra ws1] eqn:Ha.
  apply apply_frame in Ha as [Hf _].
  pose proof (restorable_step t0 (reverse backups) _ _ _ Hin Hwf Hf Hd Hr) as Hr1.
  replace (_ :: reverse backups) with (reverse (backups ++
    [(sc_relative_path change, file_at ws (sc_relative_path change))])%list) in Hr1
    by by rewrite reverse_snoc.
  pose proof (frame_wf _ _ _ Hf Hwf). destruct ra as [[]|e]; [|by simplify_eq]. by eapply IH.
Qed.

Lemma same_files_refl t : tree_wf t → same_files t t.
Proof. split; auto. Qed.

(** When a promotion raises and its rollback meets no I/O error of its own, the
    files are what they were. *)
Lemma promote_restores io shadow changes ws e ws' :
  Forall (λ c, sc_relative_path c ∈ targets) changes → tree_wf ws →
  (∀ i, io_restore io i = None) →
  promote_shadow_changes io shadow changes ws = (Err e, ws') →
  ∀ q, file_at ws' q = file_at ws q.
Proof.
  unfold promote_shadow_changes, restore_backups. intros Hin Hwf Hio Hp.
  destruct (promote_loop _ _ _ _ _ _) as [[r backups] ws1] eqn:Hl.
  eapply promote_loop_restorable in Hl as [Hwf1 Hr]; [|done|done|].
  - destruct r; simplify_eq.
    destruct (Hr ws1 (same_files_refl ws1 Hwf1) 0%nat) as (ws2 & E & Hq).
    rewrite (restore_loop_ext (io_restore io) (λ _, None)), E in Hp by done. by simplify_eq.
  - intros t' Ht i. exists t'. split; [done|]. apply Ht.
Qed.
End rollback.

(** When a promotion returns, the changed paths hold the shadow's files and the
    others what they held. *)
Lemma promote_loop_ok faults i shadow changes backups ws backups' ws' :
  NoDup (sc_relative_path <$> changes) →
  promote_loop faults i shadow changes backups ws = (Ok tt, backups', ws') →
  (∀ c, c ∈ changes → file_at ws' (sc_relative_path c) = change_result shadow c) ∧
  (∀ q, q ∉ (sc_relative_path <$> changes) → file_at ws' q = file_at ws q).
Proof.
  revert i backups ws. induction changes as [|change changes IH];
    intros i backups ws Hnd Hp; simpl in Hp; [simplify_eq; split; [set_solver|done]|].
  apply NoDup_cons in Hnd as [Hni Hnd].
  destruct (backup_of _ _ _) as [old|e]; [|done].
  destruct (apply_shadow_change _ _ _ _ _) as [[[]|] ws1] eqn:Ha; [|done].
  apply apply_frame in Ha as [Hf Hr]. destruct (IH _ _ _ Hnd Hp) as [Hc Hq]. split.
  - intros c [->|Hin]%elem_of_cons; [|by apply Hc]. rewrite Hq by done. by apply Hr.
  - intros q Hn. rewrite fmap_cons, not_elem_of_cons in Hn. destruct Hn as [Hne Hn].
    rewrite Hq by done. by apply (frame_files _ _ _ Hf).
Qed.

(** * The gated mutation is atomic *)

(** A callback that leaves the workspace itself alone. *)
Definition confined {U A} (c : eff (World (U := U)) Raised A) : Prop :=
  ∀ w r w', c w = (r, w') → w_workspace w' = w_workspace w.

Lemma confined_bind {U A B} (c : eff (World (U := U)) Raised A) (k : A → eff World Raised B) :
  confined c → (∀ w a w', c w = (Ok a, w') → confined (k a)) → confined (eff_bind c k).
Proof.
  intros Hc Hk w r w' H. apply eff_bind_eq in H as [(a & w1 & H1 & H2)|(e & H1 & _)].
  - rewrite (Hk w a w1 H1 w1 _ _ H2). by eapply Hc.
  - by eapply Hc.
Qed.

Lemma confined_ret {U A} (a : A) : confined (U := U) (eff_ret a).
Proof. intros w r w' [= _ <-]. done. Qed.

Lemma confined_run_check {U} (check : FitnessCheck (World (U := U))) :
  confined (fk_run check) → confined (run_check check).
Proof.
  intros Hc w r w' H. unfold run_check in H. destruct (fk_run check w) as [r1 w1] eqn:E.
  apply Hc in E. destruct r1 as [|[]]; by simplify_eq.
Qed.

Lemma confined_run_gates {U} (checks : list (FitnessCheck (World (U := U)))) :
  Forall (λ c, confined (fk_run c)) checks → confined (run_gates checks).
Proof.
  induction 1 as [|c cs Hc Hcs IH]; simpl; [apply confined_ret|].
  apply confined_bind; [by apply confined_run_check|]. intros _ a _ _.
  apply confined_bind; [done|]. intros. apply confined_ret.
Qed.

(** The callbacks of a gated mutation act on the shadow only. *)
Record confined_callbacks {U}
    (checks_factory : World (U := U) → res Raised (list (FitnessCheck (World (U := U)))) * World)
    (apply_candidate : World (U := U) → res Raised unit * World) : Prop := {
  cc_apply : confined apply_candidate;
  cc_factory : confined checks_factory;
  cc_checks w checks w' :
    checks_factory w = (Ok checks, w') → Forall (λ c, confined (fk_run c)) checks
}.

Lemma confined_candidate_run {U} factory apply :
  confined_callbacks (U := U) factory apply → confined (candidate_run factory apply).
Proof.
  intros [Ha Hf Hc]. apply confined_bind; [done|]. intros _ _ _ _.
  apply confined_bind; [done|]. intros w checks w' E. eapply confined_run_gates, Hc, E.
Qed.

Section shadow_facts.
Context (sha256 : string → string) (ignored : string → bool).

Lemma file_digests_lookup t p : file_digests sha256 t !! p = sha256 <$> file_at t p.
Proof.
  unfold file_digests, file_at. rewrite lookup_omap. by destruct (t !! p) as [[]|].
Qed.

Lemma copytree_file ws p :
  file_at (copytree ignored ws) p = if path_ignored ignored p then None else file_at ws p.
Proof.
  unfold copytree, file_at. rewrite map_lookup_filter.
  destruct (ws !! p); simpl; [|by destruct (path_ignored _ p)].
  case_guard as E; simpl in *; [by rewrite E|by destruct (path_ignored ignored p)].
Qed.

Lemma change_at_path b s p c : change_at b s p = Some c → sc_relative_path c = p.
Proof. unfold change_at. intros. by split_ifs. Qed.

Lemma shadow_changes_elem b shadow c :
  c ∈ shadow_changes sha256 b shadow ↔
  (is_Some (b !! sc_relative_path c) ∨ is_Some (file_at shadow (sc_relative_path c))) ∧
  change_at b (file_digests sha256 shadow) (sc_relative_path c) = Some c.
Proof.
  unfold shadow_changes. rewrite list_elem_of_omap.
  setoid_rewrite merge_sort_Permutation. setoid_rewrite elem_of_elements.
  setoid_rewrite elem_of_union. setoid_rewrite elem_of_dom.
  setoid_rewrite file_digests_lookup. setoid_rewrite fmap_is_Some. split.
  - intros (p & Hp & Hc). by rewrite (change_at_path _ _ _ _ Hc).
  - intros (Hp & Hc). by eexists.
Qed.

Lemma shadow_changes_nodup b shadow :
  NoDup (sc_relative_path <$> shadow_changes sha256 b shadow).
Proof.
  unfold shadow_changes. set (l := merge_sort _ _).
  assert (NoDup l) as Hl.
  { unfold l. rewrite merge_sort_Permutation. apply NoDup_elements. }
  induction l as [|p l IH]; simpl; [constructor|]. apply NoDup_cons in Hl as [Hp Hl].
  destruct (change_at _ _ p) as [c|] eqn:Hc; [|by auto].
  rewrite fmap_cons. apply NoDup_cons. split; [|by auto].
  rewrite (change_at_path _ _ _ _ Hc). intros (c' & Ep & Hin)%list_elem_of_fmap.
  apply list_elem_of_omap in Hin as (p' & Hp' & Hc'). apply change_at_path in Hc'. congruence.
Qed.

(** The files of the workspace once the candidate is promoted: the shadow's
    files; of the others, only those that were never copied to the shadow. *)
Definition promoted_file (ws shadow : tree) (p : path) : option string :=
  match file_at shadow p with
  | Some c => Some c
  | None => if path_ignored ignored p then file_at ws p else None
  end.

(** No file of the workspace has a digest it shares with different content at
    the same path of the shadow. *)
Definition no_collision (ws shadow : tree) : Prop :=
  ∀ p c c', file_at ws p = Some c → file_at shadow p = Some c' → sha256 c = sha256 c' → c = c'.

Lemma promoted_at faults b shadow ws backups ws' :
  promote_loop faults 0 shadow (shadow_changes sha256 b shadow) [] ws = (Ok tt, backups, ws') →
  ∀ p, let tracked := is_Some (b !! p) ∨ is_Some (file_at shadow p) in
  match change_at b (file_digests sha256 shadow) p with
  | Some c => (tracked → file_at ws' p = change_result shadow c) ∧
              (¬ tracked → file_at ws' p = file_at ws p)
  | None => file_at ws' p = file_at ws p
  end.
Proof.
  intros [Hc Hn]%promote_loop_ok p; [|apply shadow_changes_nodup].
  assert (∀ c, c ∈ shadow_changes sha256 b shadow → sc_relative_path c = p →
    (is_Some (b !! p) ∨ is_Some (file_at shadow p)) ∧
    change_at b (file_digests sha256 shadow) p = Some c) as Hin.
  { intros c Hc' <-. by apply shadow_changes_elem. }
  assert ((∀ c, c ∈ shadow_changes sha256 b shadow → sc_relative_path c ≠ p) →
    file_at ws' p = file_at ws p) as Hout.
  { intros Hno. apply Hn. intros (c & E & Hc')%list_elem_of_fmap. by eapply Hno. }
  simpl. destruct (change_at _ _ p) as [c|] eqn:Ec.
  - pose proof (change_at_path _ _ _ _ Ec) as Ep. split; intros Ht.
    + rewrite <- Ep. apply Hc, shadow_changes_elem. by rewrite Ep.
    + apply Hout. intros c' Hc' E. by destruct (Hin c' Hc' E).
  - apply Hout. intros c' Hc' E. by destruct (Hin c' Hc' E) as [_ [=]].
Qed.

Lemma promote_ok io shadow ws ws' :
  no_collision ws shadow →
  promote_shadow_changes io shadow
    (shadow_changes sha256 (file_digests sha256 (copytree ignored ws)) shadow) ws = (Ok tt, ws') →
  ∀ p, file_at ws' p = promoted_file ws shadow p.
Proof.
  unfold promote_shadow_changes. intros Hcol Hp p.
  set (b := file_digests sha256 (copytree ignored ws)) in *.
  destruct (promote_loop _ _ _ _ _ _) as [[[[]|e] backups] ws1] eqn:Hl.
  2: { by destruct (restore_backups _ backups ws1) as [[]]. }
  simplify_eq/=.
  assert (b !! p = if path_ignored ignored p then None else sha256 <$> file_at ws p) as Hb.
  { unfold b. rewrite file_digests_lookup, copytree_file. by destruct (path_ignored ignored p). }
  pose proof (promoted_at _ _ _ _ _ _ Hl p) as Hv. simpl in Hv.
  unfold promoted_file, change_at in *. rewrite Hb, file_digests_lookup in Hv.
  destruct (path_ignored ignored p); simpl in Hv.
  - destruct Hv as [Hv Hn]. unfold change_result in Hv; simpl in Hv.
    destruct (file_at shadow p) as [c'|]; [by apply Hv; eauto|].
    apply Hn. by intros [[]|[]].
  - destruct (file_at ws p) as [c|] eqn:Ew, (file_at shadow p) as [c'|] eqn:Es;
      simpl in Hv; unfold change_result in Hv; simpl in Hv.
    + case_decide as Hd; [rewrite Hv; f_equal; by eapply Hcol|].
      destruct Hv as [Hv _]. simpl in Hv. rewrite Es in Hv. apply Hv; eauto.
    + apply Hv; eauto.
    + rewrite Es in Hv. apply Hv; eauto.
    + apply Hv. by intros [[]|[]].
Qed.
End shadow_facts.

(** The part of a gated mutation up to the promotion. *)
Definition shadow_start {U} (ignored : string → bool) (w : World (U := U)) : World :=
  with_shadow w (Some (copytree ignored (w_workspace w))).

(** What a gated mutation did: it raised before there was a shadow; stopped before
    the promotion with the workspace as it was; or promoted. The result [r2] of the
    [try] is the mutation's unless the cleanup raises. *)
Lemma mutation_run_cases {U} sha256 ignored factory apply io context
    (w : World (U := U)) r w' :
  confined_callbacks factory apply →
  mutation_run sha256 ignored factory apply io context w = (r, w') →
  (∃ e, r = Err e ∧ w' = w) ∨
  ∃ r1 w1 r2, candidate_run factory apply (shadow_start ignored w) = (r1, w1) ∧
    r = after_cleanup io r2 ∧
    let shadow := default ∅ (w_shadow w1) in
    (w_workspace w' = w_workspace w ∧
      ∀ result, r2 = Ok result → r1 = Ok result ∧ passed result = false) ∨
    (∃ result, r1 = Ok result ∧ passed result = true ∧
      promote_shadow_changes io shadow
        (shadow_changes sha256 (file_digests sha256 (copytree ignored (w_workspace w))) shadow)
        (w_workspace w) = (res_map (λ _, tt) r2, w_workspace w') ∧ ∀ c, r2 = Ok c → c = result).
Proof.
  intros Hcc Hr. unfold mutation_run in Hr.
  destruct (assert_mutation_allowed _ _) as [|m]; [|simplify_eq; left; eauto].
  destruct (io_copy io) as [e|]; [simplify_eq; left; eauto|].
  right. destruct (mutation_body _ _ _ _ _ _) as [rb wb] eqn:Hb. simplify_eq.
  unfold mutation_body in Hb.
  apply eff_bind_eq in Hb as [(result & w1 & Hc & Hb)|(e & Hc & ->)];
    pose proof (confined_candidate_run _ _ Hcc _ _ _ Hc) as Ews; simpl in Ews.
  - exists (Ok result), w1, rb. split; [done|]. split; [done|]. destruct (passed result) eqn:Hp.
    + destruct (io_plan io) as [e|]; [left; simplify_eq; split; [done|by intros ? [=]]|].
      right. exists result. rewrite Ews in Hb.
      destruct (promote_shadow_changes _ _ _ _) as [[[]|e] ws] eqn:Hpr;
        simplify_eq/=; split_and!; try done; naive_solver.
    + left. unfold eff_ret in Hb. simplify_eq/=. split_and!; try done. naive_solver.
  - exists (Err e), wb, (Err e). split; [done|]. split; [done|]. left. simpl. split; done.
Qed.


(** A workspace of two files; the candidate rewrites one, removes the other and
    adds a third in a new directory; the single gate passes; the promotion's
    third change fails while writing. *)
Definition example_ws : tree :=
  {[ ["a"] := NFile "1"; ["b"] := NFile "2" ]}.
Definition example_shadow : tree :=
  {[ ["b"] := NFile "22"; ["d"] := NDir; ["d"; "c"] := NFile "3" ]}.
Definition example_apply (w : World (U := unit)) : res Raised unit * World :=
  (Ok tt, with_shadow w (Some example_shadow)).
Definition example_factory (w : World (U := unit))
    : res Raised (list (FitnessCheck (World (U := unit)))) * World :=
  (Ok [mkFitnessCheck "tests" true (λ w, (Ok (mkGateResult "tests" PASS "ok" 5 true), w))], w).
Definition example_context : RuntimeContext :=
  mkRuntimeContext AGENT EXECUTING true (Some "approval-1") 0 3 None false.
Definition no_faults : IoFaults := mkIoFaults (λ _, None) (λ _, None) None None None.
Definition example_faults : IoFaults :=
  mkIoFaults (λ i, if decide (i = 2) then Some (FWrite "par") else None) (λ _, None) None None None.

Lemma example_confined : confined_callbacks example_factory example_apply.
Proof.
  split; [intros w r w' [= _ <-]; done|intros w r w' [= _ <-]; done|].
  intros w checks w' [= <- _]. repeat constructor. intros v r v' [= _ <-]. done.
Qed.

(** [tree_wf] of a concrete tree, by evaluation. *)
Definition tree_wfb (t : tree) : bool :=
  forallb (λ pn, forallb (λ a, bool_decide (t !! a = Some NDir)) (ancestors pn.1)) (map_to_list t).
Lemma tree_wfb_wf t : tree_wfb t = true → tree_wf t.
Proof.
  unfold tree_wfb. rewrite forallb_forall. intros H p a [n Hn] Ha.
  assert (In (p, n) (map_to_list t)) as Hin
    by by apply list_elem_of_In, elem_of_map_to_list.
  specialize (H _ Hin). rewrite forallb_forall in H. simpl in H.
  specialize (H a). rewrite <- list_elem_of_In in H. by specialize (H Ha); bool_to_prop.
Qed.

(** No changed path of the example lies below another. *)
Lemma example_flat c c' :
  let changes := shadow_changes id (file_digests id (copytree (λ _, false) example_ws))
                   example_shadow in
  c ∈ changes → c' ∈ changes → sc_relative_path c ∉ ancestors (sc_relative_path c').
Proof.
  intros changes Hc Hc'.
  assert (forallb (λ c, forallb (λ c', bool_decide
    (sc_relative_path c ∉ ancestors (sc_relative_path c'))) changes) changes = true) as H
    by (vm_compute; reflexivity).
  rewrite forallb_forall in H. apply list_elem_of_In in Hc, Hc'. specialize (H c Hc).
  rewrite forallb_forall in H. specialize (H c' Hc'). by bool_to_prop.
Qed.


(** Why the changed paths must not lie below one another: a candidate that turns
    the file [m] into a directory [m/x] and changes [z], whose write fails. The
    rollback cannot write [m] back over the directory made for [m/x]: it raises
    that error instead, and the workspace has lost the file. *)
Example rollback_loses_replaced_file :
  let ws : tree := {[ ["m"] := NFile "old"; ["z"] := NFile "1" ]} in
  let shadow : tree := {[ ["m"] := NDir; ["m"; "x"] := NFile "new"; ["z"] := NFile "2" ]} in
  let changes := shadow_changes id (file_digests id ws) shadow in
  let io := mkIoFaults (λ i, if decide (i = 2) then Some (FWrite "") else None)
              (λ _, None) None None None in
  let '(r, ws') := promote_shadow_changes io shadow changes ws in
  r = Err (os_error "IsADirectoryError") ∧ file_at ws' ["m"] = None.
Proof. vm_compute. done. Qed.

(** * A failing gate blocks the mutation *)

(** A check that never lets a required gate pass: it raises, fails or errors. *)
Definition check_never_passes {W} (check : FitnessCheck W) : Prop :=
  ∀ w, match (fk_run check w).1 with
       | Ok result => gate_failed result = true
       | Err _ => True
       end.

Lemma run_check_fails {W} (check : FitnessCheck W) w result w' :
  fk_required check = true → check_never_passes check →
  run_check check w = (Ok result, w') → ga_required result && gate_failed result = true.
Proof.
  intros Hreq Hn. specialize (Hn w). unfold run_check.
  destruct (fk_run check w) as [[res|[exc|]] w1]; simpl in *; intros [= <- <-].
  - case_bool_decide as E; simpl; [by rewrite E, Hreq, Hn|].
    unfold gate_failed in *. simpl. by rewrite Hreq, Hn.
  - by rewrite Hreq.
Qed.

Lemma not_passed_if c result :
  result ∈ c → ga_required result && gate_failed result = true → passed c = false.
Proof.
  intros Hin Hf. unfold passed, failed_gate_names. apply bool_decide_eq_false_2.
  intros E. apply fmap_nil_inv in E.
  assert (result ∈ filter (λ r, ga_required r && gate_failed r) c) as Hin'.
  { apply list_elem_of_filter. by rewrite Hf. }
  rewrite E in Hin'. set_solver.
Qed.

Lemma run_gates_blocked {W} (checks : list (FitnessCheck W)) check w c w' :
  check ∈ checks → fk_required check = true → check_never_passes check →
  run_gates checks w = (Ok c, w') → passed c = false.
Proof.
  intros Hin Hreq Hn Hr.
  assert (∃ result, result ∈ c ∧ ga_required result && gate_failed result = true) as (res & ? & ?);
    [|by eapply not_passed_if].
  revert w c Hr. induction checks as [|ch chs IH]; simpl; intros w c Hr; [set_solver|].
  apply eff_bind_eq in Hr as [(result & w1 & H1 & Hr)|(e & _ & ?)]; [|done].
  apply eff_bind_eq in Hr as [(rest & w2 & H2 & Hr)|(e & _ & ?)]; [|done].
  unfold eff_ret in Hr. simplify_eq.
  apply elem_of_cons in Hin as [->|Hin].
  - exists result. split; [set_solver|]. by eapply run_check_fails.
  - destruct (IH Hin _ _ H2) as (res & ? & ?). exists res. split; [set_solver|done].
Qed.

(** A required fitness gate that raises, fails or errors always blocks the
    mutation: whatever the other checks return and wherever among them it stands,
    no file of the workspace changes, and a result that is returned says so. *)
Theorem failing_gate_blocks {U} sha256 ignored factory apply io context
    (w : World (U := U)) r w' :
  confined_callbacks factory apply →
  (∀ v checks v', factory v = (Ok checks, v') →
     ∃ check, check ∈ checks ∧ fk_required check = true ∧ check_never_passes check) →
  mutation_run sha256 ignored factory apply io context w = (r, w') →
  w_workspace w' = w_workspace w ∧ ∀ result, r = Ok result → passed result = false.
Proof.
  intros Hcc Hblock Hr.
  apply mutation_run_cases in Hr as
    [(m & -> & ->)|(r1 & w1 & r2 & Hc & -> & [[Ews Hnp]|(result & -> & Hp & _)])]; [done|..|done].
  { split; [done|]. unfold after_cleanup. intros result Er. destruct (io_cleanup io); [done|].
    by apply Hnp. }
  unfold candidate_run in Hc. apply eff_bind_eq in Hc as [(a & v & _ & Hc)|(e & _ & ?)]; [|done].
  apply eff_bind_eq in Hc as [(checks & v' & Hf & Hc)|(e & _ & ?)]; [|done].
  destruct (Hblock _ _ _ Hf) as (check & Hin & Hreq & Hn).
  by rewrite (run_gates_blocked checks check v' result w1) in Hp.
Qed.

Definition blocking_factory (w : World (U := unit))
    : res Raised (list (FitnessCheck (World (U := unit)))) * World :=
  (Ok [mkFitnessCheck "lint" false (λ w, (Ok (mkGateResult "lint" PASS "ok" 1 true), w));
       mkFitnessCheck "tests" true
         (λ w, (Err (RException (mkExc XOther "ValueError" "boom")), w))], w).

Lemma failing_gate_blocks_witness :
  let w := mkWorld example_ws None tt in
  let '(r, w') := mutation_run id (λ _, false) blocking_factory example_apply no_faults
                    example_context w in
  is_ok r = true ∧ w_workspace w' = example_ws.
Proof.
  intros w.
  destruct (mutation_run id (λ _, false) blocking_factory example_apply no_faults
              example_context w) as [r w'] eqn:Hr.
  split.
  { apply (f_equal (is_ok ∘ fst)) in Hr. transitivity (is_ok ((r, w').1)); [reflexivity|].
    simpl in Hr |- *. rewrite <- Hr. vm_compute. reflexivity. }
  refine (proj1 (failing_gate_blocks id (λ _, false) blocking_factory example_apply no_faults
    example_context w r w' _ _ Hr)).
  - split; [intros v s v' [= _ <-]; done|intros v s v' [= _ <-]; done|].
    intros v checks v' [= <- _]. repeat constructor; intros x s x' [= _ <-]; done.
  - intros v checks v' [= <- _]. eexists. split; [apply list_elem_of_In; right; left; reflexivity|].
    split; [reflexivity|]. intros x. exact I.
Defined.

(** * Gated retries *)

Section gated_facts.
Context {U T : Type} (sha256 : string → string) (ignored : string → bool).
Abbreviation W := (World (U := U)).
Context (policy : RetryPolicy) (sleep_ms : Z → W → W) (context : RuntimeContext).
Context (factory : T → W → res Raised (list (FitnessCheck W)) * W).
Context (plan : Z → list string → W → res Raised T * W).
Context (apply : T → W → res Raised unit * W) (cost : T → amount).
Context (faults : Z → IoFaults).
Hypothesis callbacks_confined : ∀ t, confined_callbacks (factory t) (apply t).
Hypothesis plan_confined : ∀ n summaries, confined (plan n summaries).
Hypothesis sleep_confined : ∀ d w, w_workspace (sleep_ms d w) = w_workspace w.

Abbreviation gated_run_of :=
  (gated_run sha256 ignored policy sleep_ms context factory plan apply cost faults).
Abbreviation gated_turn_of :=
  (gated_turn sha256 ignored policy context factory plan apply cost faults).

(** The attempt [a] ran its candidate on a copy of [ws], with the outcome it
    records, and left [ws'] for a workspace. *)
Definition attempt_promoted (ws ws' : tree) (a : GatedAttempt T) : Prop :=
  ∃ v w1, w_workspace v = ws ∧
    candidate_run (factory (gd_candidate a)) (apply (gd_candidate a)) (shadow_start ignored v)
      = (Ok (gd_gate_result a), w1) ∧
    passed (gd_gate_result a) = true ∧
    (no_collision sha256 ws (default ∅ (w_shadow w1)) →
     ∀ p, file_at ws' p = promoted_file ignored ws (default ∅ (w_shadow w1)) p).

Definition attempt_failed (a : GatedAttempt T) : Prop :=
  passed (gd_gate_result a) = false ∧
  gd_failure_summary a = Some (composite_gate_message (gd_gate_result a)).

Definition turn_outcome (ws : tree) (n : Z) (attempts : list (GatedAttempt T)) (w' : W)
    (r : list string * list (GatedAttempt T) * Z + GatedRetryResult T) : Prop :=
  match r with
  | inl (_, attempts', _) => ∃ a, attempts' = (attempts ++ [a])%list ∧ gd_attempt a = n ∧
      attempt_failed a ∧ w_workspace w' = ws ∧ n ≤ rp_max_retries policy
  | inr result => ∃ a, gt_attempts result = (attempts ++ [a])%list ∧ gd_attempt a = n ∧
      gt_retry_count result = n - 1 ∧
      if gt_succeeded result then attempt_promoted ws (w_workspace w') a
      else attempt_failed a ∧ w_workspace w' = ws ∧ rp_max_retries policy < n
  end%Z.

Lemma gated_turn_spec n summaries attempts w r events w' :
  (1 ≤ n)%Z →
  gated_turn_of n summaries attempts w = (Ok (r, events), w') →
  turn_outcome (w_workspace w) n attempts w' r.
Proof.
  unfold gated_turn. intros Hn Hr.
  apply eff_bind_eq in Hr as [(candidate & w1 & Hp & Hr)|(e & _ & ?)]; [|done].
  apply plan_confined in Hp. rewrite <- Hp. clear Hp w.
  apply eff_bind_eq in Hr as [(result & w2 & Hm & Hr)|(e & _ & ?)]; [|done].
  apply mutation_run_cases in Hm as
    [(m & ? & _)|(r1 & w3 & r2 & Hc & Er & Hcases)]; [done| |done].
  unfold after_cleanup in Er. destruct (io_cleanup _); [done|]. subst r2.
  destruct Hcases as [[Ews Hnp]|(res & -> & Hpass & Hpr & Hres)].
  - rewrite (proj2 (Hnp result eq_refl)) in Hr.
    case_bool_decide as Ha; simpl in Hr; unfold eff_ret in Hr; simplify_eq/=.
    + eexists. split_and!; [done|done|split; [by apply Hnp|done]|done|].
      by apply decide_retry_action in Ha as [_ ?].
    + eexists. split_and!; [done|done|lia|split; [by apply Hnp|done]|done|].
      apply Z.nle_gt. intros Hle. by apply Ha, decide_retry_action.
  - pose proof (Hres result eq_refl) as ->. rewrite Hpass in Hr. unfold eff_ret in Hr.
    simplify_eq/=. eexists. split_and!; [done|done|done|]. exists w1, w3.
    split_and!; try done. intros Hcol. by eapply promote_ok.
Qed.

(** What the attempts of a finished run are: numbered from one, all but the last
    failed. *)
Definition attempts_numbered (attempts : list (GatedAttempt T)) : Prop :=
  ∀ i a, attempts !! i = Some a → gd_attempt a = (Z.of_nat i + 1)%Z.

Lemma attempts_numbered_snoc attempts a :
  attempts_numbered attempts → gd_attempt a = (Z.of_nat (length attempts) + 1)%Z →
  attempts_numbered (attempts ++ [a]).
Proof.
  intros Hn Ha i b [Hi|[Hi Hb]]%lookup_app_Some; [by apply Hn|].
  apply list_lookup_singleton_Some in Hb as [Hz <-]. rewrite Ha. lia.
Qed.

Record gated_outcome (ws ws' : tree) (r : GatedRetryResult T) : Prop := {
  go_attempts : ∃ failed last, gt_attempts r = (failed ++ [last])%list ∧
    Forall attempt_failed failed ∧
    if gt_succeeded r then attempt_promoted ws ws' last
    else attempt_failed last ∧ ws' = ws ∧
         Z.of_nat (length (gt_attempts r)) = Z.max 1 (rp_max_retries policy + 1);
  go_numbered : attempts_numbered (gt_attempts r);
  go_count : Z.of_nat (length (gt_attempts r)) = (gt_retry_count r + 1)%Z;
  go_bound : (Z.of_nat (length (gt_attempts r)) ≤ Z.max 1 (rp_max_retries policy + 1))%Z
}.

Lemma gated_run_spec fuel summaries attempts w :
  let n := Z.of_nat (length attempts) in
  attempts_numbered attempts → Forall attempt_failed attempts →
  (n ≤ Z.max 0 (rp_max_retries policy))%Z →
  (Z.max 1 (rp_max_retries policy + 1) - n ≤ Z.of_nat fuel)%Z →
  ∃ r w' events, gated_run_of fuel (n + 1)%Z summaries attempts w = Some (r, w', events) ∧
    ∀ result, r = Ok result → gated_outcome (w_workspace w) (w_workspace w') result.
Proof.
  revert summaries attempts w.
  induction fuel as [|fuel IH]; intros summaries attempts w n Hnum Hfail Hn Hf; [lia|].
  simpl. destruct (gated_turn_of _ _ _ _) as [[[t events]|e] w1] eqn:Ht;
    [|do 3 eexists; split; [done|intros ? [=]]].
  apply gated_turn_spec in Ht; [|lia].
  destruct t as [[[summaries' attempts'] delay]|result].
  - destruct Ht as (a & -> & Ha & Hfa & Ews & Hle).
    destruct (IH summaries' (attempts ++ [a])%list (sleep_ms delay w1))
      as (r & w' & events' & Hr & Hres).
    + by apply attempts_numbered_snoc.
    + apply Forall_app. split; [done|by apply Forall_singleton].
    + rewrite length_app. simpl. lia.
    + rewrite length_app. simpl. lia.
    + rewrite length_app in Hr. simpl in Hr.
      replace (n + 1 + 1)%Z with (Z.of_nat (length attempts + 1) + 1)%Z by lia.
      rewrite Hr. do 3 eexists. split; [done|]. rewrite sleep_confined, Ews in Hres. done.
  - destruct Ht as (a & Ea & Ha & Hc & Hs). do 3 eexists. split; [done|].
    intros result' [= <-].
    assert (Z.of_nat (length (gt_attempts result)) = n + 1)%Z as El.
    { rewrite Ea, length_app. simpl. lia. }
    split; [| |lia|lia].
    + exists attempts, a. split_and!; [done|done|]. destruct (gt_succeeded result); [done|].
      destruct Hs as (? & ? & ?). split_and!; [done|done|lia].
    + rewrite Ea. by apply attempts_numbered_snoc.
Qed.
End gated_facts.

(** C26: A gated retry run ends after at most [max_retries + 1] attempts (at
    least one), whatever its callbacks return, provided they keep to the shadow
    copy. When it returns, its attempts are numbered in order and all but the
    last failed a required gate; it reports success only if the last candidate's
    gates passed on a copy of the original workspace, whose files are then
    exactly that candidate's; and it reports failure only after the full budget
    of attempts, with the workspace untouched. *)
Theorem gated_retry_exact {U T} sha256 ignored policy
    (sleep_ms : Z → World (U := U) → World (U := U)) context factory
    (plan : Z → list string → World (U := U) → res Raised T * World (U := U)) apply cost faults w :
  (∀ t, confined_callbacks (factory t) (apply t)) →
  (∀ n summaries, confined (plan n summaries)) →
  (∀ d w, w_workspace (sleep_ms d w) = w_workspace w) →
  let fuel := Z.to_nat (Z.max 1 (rp_max_retries policy + 1)) in
  ∃ r w' events,
    gated_run sha256 ignored policy sleep_ms context factory plan apply cost faults
      fuel 1 [] [] w = Some (r, w', events) ∧
    ∀ result, r = Ok result →
      gated_outcome sha256 ignored policy factory apply (w_workspace w) (w_workspace w') result.
Proof.
  intros Hcc Hp Hs fuel.
  apply (gated_run_spec sha256 ignored policy sleep_ms context factory plan apply cost faults
    Hcc Hp Hs fuel [] [] w); [by intros ? ? ?|constructor|simpl; lia|simpl; lia].
Qed.

(** Two failing candidates, then one that passes. *)
Lemma gated_retry_exact_witness :
  let factory (t : Z) := if decide (t = 3)%Z then example_factory else blocking_factory in
  ∃ r w' events,
    gated_run (T := Z) id (λ _, false) default_retry_policy (λ _ w, w) example_context factory
      (λ n _ w, (Ok n, w)) (λ _, example_apply) (λ _, 1%Z) (λ _, no_faults) 4 1 [] []
      (mkWorld example_ws None tt) = Some (r, w', events) ∧
    ∀ result, r = Ok result →
      gated_outcome id (λ _, false) default_retry_policy factory (λ _, example_apply)
        example_ws (w_workspace w') result.
Proof.
  intros factory.
  apply (gated_retry_exact (T := Z) id (λ _, false) default_retry_policy (λ _ w, w)
    example_context factory (λ n _ w, (Ok n, w)) (λ _, example_apply) (λ _, 1%Z) (λ _, no_faults)
    (mkWorld example_ws None tt)).
  - intros t. unfold factory. destruct (decide (t = 3)%Z); [exact example_confined|].
    split; [intros v s v' [= _ <-]; done|intros v s v' [= _ <-]; done|].
    intros v checks v' [= <- _]. repeat constructor; intros x s x' [= _ <-]; done.
  - intros n s v r v' [= _ <-]. done.
  - intros d v. reflexivity.
Defined.
