(* ===== verification/Settlement.v ===== *)
(** Turn settlement (src/optimus/usage/turn_settlement.py): the stage receipts of
    a turn's provider attempts, the store that keeps each attempt exactly once,
    the worker invocations that keep a turn's cost open, and the projection that
    is published to subscribers.

    The durable capture the store drives is an interface, the class [Capture], and
    every theorem holds for every capture. Invocations are objects shared by the
    store, the caller and the worker, so they live in a list in the store and are
    named by their position. *)
From S2P Require Import Prelude.

Local Open Scope string_scope.
Local Open Scope Z_scope.

(** * Receipts *)

(** The Gateway's normalized usage (src/optimus/gateway/models.py). *)
Record GatewayUsage := mkGatewayUsage {
  gu_gateway_request_id : string;
  gu_provider : string;
  gu_provider_request_id : option string;
  gu_cache_hit : bool;
  gu_billing_units : Z;
  gu_cost_usd : amount;
  gu_service : option string;
  gu_native_unit : option string;
  gu_model : option string;
  gu_model_version : option string;
  gu_price_snapshot_id : option string;
  gu_resolved_provider : option string;
  gu_resolved_model : option string;
  gu_input_tokens : option Z;
  gu_output_tokens : option Z;
  gu_total_tokens : option Z;
  gu_reasoning_tokens : option Z;
  gu_cached_tokens : option Z;
  gu_cache_age_seconds : option Z;
  gu_route_request_id : option string;
  gu_attempt : option Z
}.
#[export] Instance GatewayUsage_eq_dec : EqDecision GatewayUsage.
Proof. solve_decision. Defined.

Definition STAGES : list string :=
  ["planning"; "answer"; "summarization"; "classification"; "operation"].
Definition OUTCOMES : list string :=
  ["completed"; "failed"; "not_sent"; "rejected"; "uncertain"; "unattributed"].
Definition ZERO_COST_OUTCOMES : list string := ["not_sent"; "rejected"].

Record StageReceipt := mkStageReceipt {
  sr_session_id : option string;
  sr_turn_id : string;
  sr_stage : string;
  sr_attempt_id : string;
  sr_gateway_request_id : option string;
  sr_outcome : string;
  sr_reported_cost_usd : option amount;
  sr_recorded_at : timestamp;
  sr_requested_model : option string;
  sr_role : option string;
  sr_route : list string;
  sr_reasoning : option string;
  sr_quantizations : list (option string);
  sr_resolved_model : option string;
  sr_provider : option string;
  sr_resolved_provider : option string;
  sr_strategy : option string;
  sr_revision_digest : option string;
  sr_registry_hash : option string;
  sr_input_tokens : option Z;
  sr_output_tokens : option Z;
  sr_cached_tokens : option Z;
  sr_provider_request_id : option string;
  sr_http_status : option Z;
  sr_gateway_usage : option GatewayUsage;
  sr_post_teardown : bool
}.
#[export] Instance StageReceipt_eq_dec : EqDecision StageReceipt.
Proof. solve_decision. Defined.

(** One step of the loop over [_USAGE_FACTS]: a field left unset takes the usage's
    value, a set one must agree with it. *)
Definition settle_fact {A} `{EqDecision A} (current settled : option A)
    : res string (option A) :=
  match current with
  | None => Ok settled
  | Some _ => if decide (current = settled) then Ok current
              else Err "contradicts the usage it carries"
  end.

(** [StageReceipt.__post_init__]: the receipt as constructed, or [ValueError]. *)
Definition post_init (r : StageReceipt) : res string StageReceipt :=
  let cost := sr_reported_cost_usd r in
  raise_if (bool_decide (sr_turn_id r = "") || bool_decide (sr_attempt_id r = ""))
    "a receipt needs its turn and attempt identity" ;;*
  raise_if (bool_decide (sr_stage r ∉ STAGES) || bool_decide (sr_outcome r ∉ OUTCOMES))
    "unknown stage or outcome" ;;*
  raise_if (match cost with Some c => c <? 0 | None => false end)
    "a reported cost must be finite and non-negative" ;;*
  raise_if (bool_decide (sr_outcome r = "uncertain") && bool_decide (is_Some cost))
    "an uncertain attempt's cost is unknown" ;;*
  raise_if (bool_decide (sr_outcome r ∈ ZERO_COST_OUTCOMES) && bool_decide (cost ≠ Some 0))
    "an attempt that was never sent or was refused before any model ran costs nothing" ;;*
  raise_if (bool_decide (sr_outcome r = "unattributed") && bool_decide (sr_gateway_usage r = None))
    "an unattributed record is the reported usage itself" ;;*
  match sr_gateway_usage r with
  | None => Ok r
  | Some usage =>
      raise_if (bool_decide (sr_outcome r ∉ ["completed"; "unattributed"])
                || bool_decide (cost ≠ Some (gu_cost_usd usage))
                || bool_decide (sr_gateway_request_id r ≠ Some (gu_gateway_request_id usage)))
        "only a completed attempt carries the usage that settled it, with its cost and request" ;;*
      let* provider := settle_fact (sr_provider r) (Some (gu_provider usage)) in
      let* resolved_provider := settle_fact (sr_resolved_provider r) (gu_resolved_provider usage) in
      let* resolved_model := settle_fact (sr_resolved_model r) (gu_resolved_model usage) in
      let* input_tokens := settle_fact (sr_input_tokens r) (gu_input_tokens usage) in
      let* output_tokens := settle_fact (sr_output_tokens r) (gu_output_tokens usage) in
      let* cached_tokens := settle_fact (sr_cached_tokens r) (gu_cached_tokens usage) in
      let* provider_request_id :=
        settle_fact (sr_provider_request_id r) (gu_provider_request_id usage) in
      Ok (mkStageReceipt (sr_session_id r) (sr_turn_id r) (sr_stage r) (sr_attempt_id r)
            (sr_gateway_request_id r) (sr_outcome r) (sr_reported_cost_usd r) (sr_recorded_at r)
            (sr_requested_model r) (sr_role r) (sr_route r) (sr_reasoning r) (sr_quantizations r)
            resolved_model provider resolved_provider (sr_strategy r) (sr_revision_digest r)
            (sr_registry_hash r) input_tokens output_tokens cached_tokens provider_request_id
            (sr_http_status r) (sr_gateway_usage r) (sr_post_teardown r))
  end.

(** The receipt with its arrival bookkeeping blanked: two receipts have equal
    [facts()] exactly if these are equal. *)
Definition facts (r : StageReceipt) : StageReceipt :=
  mkStageReceipt (sr_session_id r) (sr_turn_id r) (sr_stage r) (sr_attempt_id r)
    (sr_gateway_request_id r) (sr_outcome r) (sr_reported_cost_usd r) 0
    (sr_requested_model r) (sr_role r) (sr_route r) (sr_reasoning r) (sr_quantizations r)
    (sr_resolved_model r) (sr_provider r) (sr_resolved_provider r) (sr_strategy r)
    (sr_revision_digest r) (sr_registry_hash r) (sr_input_tokens r) (sr_output_tokens r)
    (sr_cached_tokens r) (sr_provider_request_id r) (sr_http_status r) (sr_gateway_usage r) false.

(** [settled_facts()]: the attempt's own identity is blanked too. *)
Definition settled_facts (r : StageReceipt) : StageReceipt :=
  mkStageReceipt (sr_session_id r) (sr_turn_id r) (sr_stage r) ""
    (sr_gateway_request_id r) (sr_outcome r) (sr_reported_cost_usd r) 0
    (sr_requested_model r) (sr_role r) (sr_route r) (sr_reasoning r) (sr_quantizations r)
    (sr_resolved_model r) (sr_provider r) (sr_resolved_provider r) (sr_strategy r)
    (sr_revision_digest r) (sr_registry_hash r) (sr_input_tokens r) (sr_output_tokens r)
    (sr_cached_tokens r) (sr_provider_request_id r) (sr_http_status r) (sr_gateway_usage r) false.

Record TurnCostSummary := mkTurnCostSummary {
  tc_turn_id : string;
  tc_known_subtotal_usd : amount;
  tc_unknown_attempt_ids : list string;
  tc_receipt_ids : list string;
  tc_pending_invocations : Z;
  tc_integrity_failures : Z
}.

(** [TurnCostSummary.complete]. *)
Definition complete (s : TurnCostSummary) : bool :=
  bool_decide (tc_unknown_attempt_ids s = []) && (tc_pending_invocations s =? 0) &&
  (tc_integrity_failures s =? 0).

(** [_summary]. *)
Definition summary (turn_id : string) (receipts : list StageReceipt) (pending refused : Z)
    : TurnCostSummary :=
  mkTurnCostSummary turn_id
    (sumZ (omap sr_reported_cost_usd receipts))
    (sr_attempt_id <$> filter (λ r, sr_reported_cost_usd r = None) receipts)
    (sr_attempt_id <$> receipts)
    pending
    (refused + Z.of_nat (length (filter (λ r, sr_outcome r = "unattributed") receipts))).

(** * The store *)

(** What the store needs of a durable capture. *)
Class Capture (C : Type) := {
  cap_invocation_opened : C → string → option string → string * C;
  cap_invocation_ended : C → string → string → string → C;
  cap_receipt : C → StageReceipt → C;
  cap_integrity_failure : C → string → string → C;
  cap_close : C → TurnCostSummary → C
}.

Inductive InvocationState := IOpen | IStarted | IEnded | IAbandoned.
#[export] Instance InvocationState_eq_dec : EqDecision InvocationState.
Proof. solve_decision. Defined.

Definition InvocationState_value (s : InvocationState) : string :=
  match s with
  | IOpen => "open" | IStarted => "started" | IEnded => "ended" | IAbandoned => "abandoned"
  end.

Record Invocation := mkInvocation {
  iv_turn_id : string;
  iv_state : InvocationState;
  iv_capture_id : option string
}.

Inductive SettlementError :=
| ReceiptConflictError (message : string)
| SettlementKeyError (key : string).

Section store.
Context {C : Type} `{Capture C}.

(** [ts_published] lists the calls of subscribers, with the subscriber's position
    in [_subscribers]. *)
Record TurnSettlement := mkTurnSettlement {
  ts_capture : option C;
  ts_session_id : option string;
  ts_finalized : gset string;
  ts_receipts : odict string StageReceipt;
  ts_attempt_for_gateway : gmap string string;
  ts_pending : gmap string Z;
  ts_refused : gmap string Z;
  ts_subscribers : nat;
  ts_invocations : list Invocation;
  ts_published : list (nat * string * TurnCostSummary)
}.

Definition new_settlement (capture : option C) (session_id : option string) : TurnSettlement :=
  mkTurnSettlement capture session_id ∅ [] ∅ ∅ ∅ 0 [] [].

Abbreviation store A := (eff TurnSettlement SettlementError A).

(** Updates of single fields. *)
Definition modify (f : TurnSettlement → TurnSettlement) : store unit := λ s, (Ok tt, f s).
Definition set_capture (c : option C) (s : TurnSettlement) : TurnSettlement :=
  mkTurnSettlement c (ts_session_id s) (ts_finalized s) (ts_receipts s)
    (ts_attempt_for_gateway s) (ts_pending s) (ts_refused s) (ts_subscribers s)
    (ts_invocations s) (ts_published s).
Definition set_finalized (f : gset string) (s : TurnSettlement) : TurnSettlement :=
  mkTurnSettlement (ts_capture s) (ts_session_id s) f (ts_receipts s)
    (ts_attempt_for_gateway s) (ts_pending s) (ts_refused s) (ts_subscribers s)
    (ts_invocations s) (ts_published s).
Definition set_receipts (rs : odict string StageReceipt) (gw : gmap string string)
    (s : TurnSettlement) : TurnSettlement :=
  mkTurnSettlement (ts_capture s) (ts_session_id s) (ts_finalized s) rs gw
    (ts_pending s) (ts_refused s) (ts_subscribers s) (ts_invocations s) (ts_published s).
Definition set_pending (p : gmap string Z) (s : TurnSettlement) : TurnSettlement :=
  mkTurnSettlement (ts_capture s) (ts_session_id s) (ts_finalized s) (ts_receipts s)
    (ts_attempt_for_gateway s) p (ts_refused s) (ts_subscribers s)
    (ts_invocations s) (ts_published s).
Definition set_refused (r : gmap string Z) (s : TurnSettlement) : TurnSettlement :=
  mkTurnSettlement (ts_capture s) (ts_session_id s) (ts_finalized s) (ts_receipts s)
    (ts_attempt_for_gateway s) (ts_pending s) r (ts_subscribers s)
    (ts_invocations s) (ts_published s).
Definition set_subscribers (n : nat) (s : TurnSettlement) : TurnSettlement :=
  mkTurnSettlement (ts_capture s) (ts_session_id s) (ts_finalized s) (ts_receipts s)
    (ts_attempt_for_gateway s) (ts_pending s) (ts_refused s) n
    (ts_invocations s) (ts_published s).
Definition set_invocations (l : list Invocation) (s : TurnSettlement) : TurnSettlement :=
  mkTurnSettlement (ts_capture s) (ts_session_id s) (ts_finalized s) (ts_receipts s)
    (ts_attempt_for_gateway s) (ts_pending s) (ts_refused s) (ts_subscribers s)
    l (ts_published s).
Definition set_published (l : list (nat * string * TurnCostSummary)) (s : TurnSettlement)
    : TurnSettlement :=
  mkTurnSettlement (ts_capture s) (ts_session_id s) (ts_finalized s) (ts_receipts s)
    (ts_attempt_for_gateway s) (ts_pending s) (ts_refused s) (ts_subscribers s)
    (ts_invocations s) l.

(** A call of the capture, if there is one. *)
Definition with_capture (f : C → C) (s : TurnSettlement) : TurnSettlement :=
  match ts_capture s with
  | Some c => set_capture (Some (f c)) s
  | None => s
  end.

Definition receipts (s : TurnSettlement) (turn_id : string) : list StageReceipt :=
  filter (λ r, sr_turn_id r = turn_id) (od_values (ts_receipts s)).

Definition settle_turn (s : TurnSettlement) (turn_id : string) : TurnCostSummary :=
  summary turn_id (receipts s turn_id) (default 0 (ts_pending s !! turn_id))
    (default 0 (ts_refused s !! turn_id)).

Definition settle_all (s : TurnSettlement) : TurnCostSummary :=
  summary "*" (od_values (ts_receipts s)) (sumZ (map_to_list (ts_pending s)).*2)
    (sumZ (map_to_list (ts_refused s)).*2).

(** [_publish]: one summary, to every subscriber in order. *)
Definition publish (turn_id : string) (s : TurnSettlement) : TurnSettlement :=
  set_published
    (ts_published s ++
     ((λ k, (k, turn_id, settle_turn s turn_id)) <$> seq 0 (ts_subscribers s)))%list s.

Definition subscribe : store unit := modify (λ s, set_subscribers (S (ts_subscribers s)) s).

(** [project] to the subscriber [k]. *)
Definition project (turn_id : string) (k : nat) : store unit :=
  modify (λ s, set_published (ts_published s ++ [(k, turn_id, settle_turn s turn_id)])%list s).

(** [_close_if_final]. *)
Definition close_if_final (turn_id : string) (terminal : bool) (s : TurnSettlement)
    : TurnSettlement :=
  if bool_decide (turn_id ∈ ts_finalized s) &&
     (terminal || (default 0 (ts_pending s !! turn_id) =? 0))
  then with_capture (λ c, cap_close c (settle_turn s turn_id)) s
  else s.

(** [open_invocation]: returns the new invocation's position. *)
Definition open_invocation (turn_id : string) : store nat := λ s,
  let '(capture_id, s) :=
    match ts_capture s with
    | Some c => let '(id, c) := cap_invocation_opened c turn_id (ts_session_id s) in
                (Some id, set_capture (Some c) s)
    | None => (None, s)
    end in
  let s := set_pending (<[turn_id := default 0 (ts_pending s !! turn_id) + 1]> (ts_pending s)) s in
  let s := set_invocations (ts_invocations s ++ [mkInvocation turn_id IOpen capture_id])%list s in
  (Ok (length (ts_invocations s) - 1)%nat, publish turn_id s).

(** [_transition] of the invocation at position [i]. *)
Definition settlement_transition (i : nat) (expected new : InvocationState) : store bool := λ s,
  match ts_invocations s !! i with
  | None => (Ok false, s)
  | Some inv =>
      if negb (bool_decide (iv_state inv = expected)) then (Ok false, s)
      else
        let s := set_invocations
                   (<[i := mkInvocation (iv_turn_id inv) new (iv_capture_id inv)]>
                      (ts_invocations s)) s in
        if bool_decide (new = IEnded) || bool_decide (new = IAbandoned) then
          match ts_pending s !! iv_turn_id inv with
          | None => (Err (SettlementKeyError (iv_turn_id inv)), s)
          | Some n =>
              let remaining := n - 1 in
              let s := if remaining =? 0
                       then set_pending (delete (iv_turn_id inv) (ts_pending s)) s
                       else set_pending (<[iv_turn_id inv := remaining]> (ts_pending s)) s in
              let s := match iv_capture_id inv with
                       | Some id => with_capture (λ c, cap_invocation_ended c (iv_turn_id inv) id
                                                         (InvocationState_value new)) s
                       | None => s
                       end in
              let s := publish (iv_turn_id inv) s in
              let s := if remaining =? 0 then close_if_final (iv_turn_id inv) false s else s in
              (Ok true, s)
          end
        else (Ok true, s)
  end.

(** [Invocation.start], [end] and [abandon_unstarted]. *)
Definition start (i : nat) : store bool := settlement_transition i IOpen IStarted.
Definition end_ (i : nat) : store bool := settlement_transition i IStarted IEnded.
Definition abandon_unstarted (i : nat) : store bool := settlement_transition i IOpen IAbandoned.

(** [_refuse]. *)
Definition refuse (turn_id reason : string) (s : TurnSettlement) : TurnSettlement :=
  let s := set_refused (<[turn_id := default 0 (ts_refused s !! turn_id) + 1]> (ts_refused s)) s in
  let s := with_capture (λ c, cap_integrity_failure c turn_id reason) s in
  publish turn_id s.

Definition record_integrity_failure (turn_id : string) : store unit :=
  modify (refuse turn_id "ledger_refused").

(** [record_attempt]. *)
Definition record_attempt (r : StageReceipt) : store unit := λ s,
  match od_get (sr_attempt_id r) (ts_receipts s) with
  | Some existing =>
      if decide (facts existing = facts r) then (Ok tt, s)
      else (Err (ReceiptConflictError
                   ("attempt " +:+ sr_attempt_id r +:+ " was already recorded differently")),
            refuse (sr_turn_id r) "receipt_conflict" s)
  | None =>
      match g ← sr_gateway_request_id r; owner ← ts_attempt_for_gateway s !! g; Some (g, owner) with
      | Some (g, owner) =>
          match od_get owner (ts_receipts s) with
          | None => (Err (SettlementKeyError owner), s)
          | Some owned =>
              if decide (settled_facts owned = settled_facts r) then (Ok tt, s)
              else (Err (ReceiptConflictError
                           ("Gateway request " +:+ g +:+ " was already settled differently")),
                    refuse (sr_turn_id r) "receipt_conflict" s)
          end
      | None =>
          let gateway := match sr_gateway_request_id r with
                         | Some g => <[g := sr_attempt_id r]> (ts_attempt_for_gateway s)
                         | None => ts_attempt_for_gateway s
                         end in
          let s := set_receipts (od_set (sr_attempt_id r) r (ts_receipts s)) gateway s in
          let s := with_capture (λ c, cap_receipt c r) s in
          (Ok tt, publish (sr_turn_id r) s)
      end
  end.

Definition finalize_turn (turn_id : string) : store unit :=
  modify (λ s, close_if_final turn_id true (set_finalized ({[ turn_id ]} ∪ ts_finalized s) s)).

(** * Histories of the store *)

(** The calls on a store, by any thread; each runs under the store's lock. *)
Inductive settlement_op :=
| OpSubscribe
| OpOpen (turn_id : string)
| OpStart (i : nat)
| OpEnd (i : nat)
| OpAbandon (i : nat)
| OpRecord (r : StageReceipt)
| OpIntegrity (turn_id : string)
| OpFinalize (turn_id : string).

(** A call's outcome: what it raised, if it raised, and the store it left. *)
Definition outcome {A} (rs : res SettlementError A * TurnSettlement)
    : option SettlementError * TurnSettlement :=
  (match rs.1 with Ok _ => None | Err e => Some e end, rs.2).

Definition run_op (op : settlement_op) (s : TurnSettlement)
    : option SettlementError * TurnSettlement :=
  match op with
  | OpSubscribe => outcome (subscribe s)
  | OpOpen t => outcome (open_invocation t s)
  | OpStart i => outcome (start i s)
  | OpEnd i => outcome (end_ i s)
  | OpAbandon i => outcome (abandon_unstarted i s)
  | OpRecord r => outcome (record_attempt r s)
  | OpIntegrity t => outcome (record_integrity_failure t s)
  | OpFinalize t => outcome (finalize_turn t s)
  end.

Fixpoint run_ops (ops : list settlement_op) (s : TurnSettlement) : TurnSettlement :=
  match ops with
  | [] => s
  | op :: ops' => run_ops ops' (run_op op s).2
  end.
End store.

(** * What the store promises *)

Section store_facts.
Context {C : Type} `{Capture C}.
Implicit Types s : TurnSettlement (C := C).

(** The fields a summary and the bookkeeping depend on. *)
Record same_core s s' : Prop := {
  co_receipts : ts_receipts s' = ts_receipts s;
  co_gateway : ts_attempt_for_gateway s' = ts_attempt_for_gateway s;
  co_pending : ts_pending s' = ts_pending s;
  co_refused : ts_refused s' = ts_refused s;
  co_invocations : ts_invocations s' = ts_invocations s;
  co_subscribers : ts_subscribers s' = ts_subscribers s
}.

Lemma same_core_refl s : same_core s s.
Proof. done. Qed.

Lemma same_core_trans s1 s2 s3 : same_core s1 s2 → same_core s2 s3 → same_core s1 s3.
Proof. intros [] []. split; congruence. Qed.

Lemma core_publish t s : same_core s (publish t s).
Proof. done. Qed.

Lemma core_with_capture f s : same_core s (with_capture f s).
Proof. unfold with_capture. by destruct (ts_capture s). Qed.

Lemma core_close t b s : same_core s (close_if_final t b s).
Proof. unfold close_if_final. case_match; [apply core_with_capture|apply same_core_refl]. Qed.

Lemma core_settle s s' t : same_core s s' → settle_turn s' t = settle_turn s t.
Proof. intros []. unfold settle_turn, receipts. congruence. Qed.

Lemma published_with_capture f s : ts_published (with_capture f s) = ts_published s.
Proof. unfold with_capture. by destruct (ts_capture s). Qed.

Lemma published_close t b s : ts_published (close_if_final t b s) = ts_published s.
Proof. unfold close_if_final. case_match; [apply published_with_capture|done]. Qed.

(** The live invocations of a turn. *)
Definition live (t : string) (inv : Invocation) : Prop :=
  iv_turn_id inv = t ∧ (iv_state inv = IOpen ∨ iv_state inv = IStarted).
#[export] Instance live_dec t inv : Decision (live t inv).
Proof. unfold live. apply _. Defined.

Definition live_count s (t : string) : nat := length (filter (live t) (ts_invocations s)).

(** The well-formedness of a store. *)
Record store_inv s : Prop := {
  inv_nodup : NoDup (od_keys (ts_receipts s));
  inv_keyed k r : od_get k (ts_receipts s) = Some r → sr_attempt_id r = k;
  inv_gateway g a : ts_attempt_for_gateway s !! g = Some a →
    ∃ r, od_get a (ts_receipts s) = Some r ∧ sr_gateway_request_id r = Some g;
  inv_owner a r g : od_get a (ts_receipts s) = Some r → sr_gateway_request_id r = Some g →
    ts_attempt_for_gateway s !! g = Some a;
  inv_pending t : default 0 (ts_pending s !! t) = Z.of_nat (live_count s t);
  inv_pending_pos t n : ts_pending s !! t = Some n → 0 < n
}.

Lemma store_inv_core s s' : same_core s s' → store_inv s → store_inv s'.
Proof.
  intros [Er Eg Ep Ef Ei Es] [I1 I2 I3 I4 I5 I6].
  split; unfold live_count in *; rewrite ?Er, ?Eg, ?Ep, ?Ef, ?Ei; eauto.
Qed.

(** A receipt the store already has: the same attempt with the same facts, or the
    same Gateway request settled with the same facts. *)
Definition same_attempt (r r' : StageReceipt) : Prop :=
  (sr_attempt_id r' = sr_attempt_id r ∧ facts r' = facts r) ∨
  (is_Some (sr_gateway_request_id r) ∧ sr_gateway_request_id r' = sr_gateway_request_id r ∧
   settled_facts r' = settled_facts r).

Definition has_receipt s (r : StageReceipt) : Prop :=
  ∃ r', r' ∈ od_values (ts_receipts s) ∧ same_attempt r r'.

(** A receipt that is new to the store. *)
Definition fresh s (r : StageReceipt) : Prop :=
  od_get (sr_attempt_id r) (ts_receipts s) = None ∧
  ∀ g, sr_gateway_request_id r = Some g → ts_attempt_for_gateway s !! g = None.

(** The store with a fresh receipt added. *)
Definition accept s (r : StageReceipt) : TurnSettlement :=
  publish (sr_turn_id r)
    (with_capture (λ c, cap_receipt c r)
      (set_receipts (od_set (sr_attempt_id r) r (ts_receipts s))
        (match sr_gateway_request_id r with
         | Some g => <[g := sr_attempt_id r]> (ts_attempt_for_gateway s)
         | None => ts_attempt_for_gateway s
         end) s)).

Lemma record_attempt_cases s r :
  store_inv s →
  (record_attempt r s = (Ok tt, s) ∧ has_receipt s r) ∨
  (∃ m, record_attempt r s = (Err (ReceiptConflictError m),
                              refuse (sr_turn_id r) "receipt_conflict" s)) ∨
  (record_attempt r s = (Ok tt, accept s r) ∧ fresh s r).
Proof.
  intros Hinv. unfold record_attempt.
  assert (∀ k r', od_get k (ts_receipts s) = Some r' → r' ∈ od_values (ts_receipts s)) as Hval.
  { intros k r' Hg%od_get_Some_in. apply list_elem_of_fmap. by exists (k, r'). }
  destruct (od_get (sr_attempt_id r) (ts_receipts s)) as [ex|] eqn:Hex.
  { destruct (decide (facts ex = facts r)) as [E|]; [left|by right; left; eexists].
    split; [done|]. exists ex. split; [by eapply Hval|left]. split; [|done].
    by apply (inv_keyed s). }
  destruct (sr_gateway_request_id r) as [g|] eqn:Hg; simpl.
  2: { right; right. split; [unfold accept; by rewrite Hg|]. split; [done|by rewrite Hg]. }
  destruct (ts_attempt_for_gateway s !! g) as [owner|] eqn:Ho; simpl.
  2: { right; right. split; [unfold accept; by rewrite Hg|]. split; [done|].
       intros g' E. rewrite Hg in E. by simplify_eq. }
  destruct (inv_gateway s Hinv g owner Ho) as (r' & Hr' & Hg'). rewrite Hr'.
  destruct (decide (settled_facts r' = settled_facts r)) as [E|]; [left|by right; left; eexists].
  split; [done|]. exists r'. split; [by eapply Hval|right]. rewrite Hg, Hg'. eauto.
Qed.

Lemma store_inv_accept s r : fresh s r → store_inv s → store_inv (accept s r).
Proof.
  intros [Hn Hg] [I1 I2 I3 I4 I5 I6].
  eapply store_inv_core;
    [eapply same_core_trans; [apply core_with_capture|apply core_publish]|].
  assert (∀ k r', od_get k (od_set (sr_attempt_id r) r (ts_receipts s)) = Some r' →
    (k = sr_attempt_id r ∧ r' = r) ∨ (k ≠ sr_attempt_id r ∧ od_get k (ts_receipts s) = Some r'))
    as Hget.
  { intros k r'. destruct (decide (k = sr_attempt_id r)) as [->|].
    - rewrite od_get_set_eq. naive_solver.
    - rewrite od_get_set_ne by done. naive_solver. }
  split; simpl; [by apply od_set_nodup|..|done|done].
  - intros k r' [[-> ->]|[_ ?]]%Hget; eauto.
  - intros g a Ha. assert (ts_attempt_for_gateway s !! g = Some a ∨
      (a = sr_attempt_id r ∧ sr_gateway_request_id r = Some g)) as [Hold|[-> ?]].
    { destruct (sr_gateway_request_id r) as [g'|]; [|by left].
      apply lookup_insert_Some in Ha as [[-> ->]|[_ ?]]; auto. }
    + destruct (I3 _ _ Hold) as (r' & Hr' & ?). exists r'. split; [|done].
      rewrite od_get_set_ne; [done|]. intros ->. congruence.
    + exists r. by rewrite od_get_set_eq.
  - intros a r' g [[-> ->]|[Hne Hr']]%Hget Hgr.
    + by rewrite Hgr, lookup_insert_eq.
    + pose proof (I4 _ _ _ Hr' Hgr) as Hold. destruct (sr_gateway_request_id r) as [g'|] eqn:E; [|done].
      rewrite lookup_insert_ne; [done|]. intros ->. by rewrite (Hg _ eq_refl) in Hold.
Qed.

Lemma store_inv_refuse s t reason : store_inv s → store_inv (refuse t reason s).
Proof.
  intros [I1 I2 I3 I4 I5 I6].
  eapply store_inv_core;
    [eapply same_core_trans; [apply core_with_capture|apply core_publish]|]. by split.
Qed.

Lemma published_publish s s' t :
  same_core s s' → ts_published s' = ts_published s →
  ts_published (publish t s') = ts_published (publish t s).
Proof.
  intros Hc Hp. unfold publish. simpl. rewrite Hp, (core_settle s s' t Hc).
  by rewrite (co_subscribers s s' Hc).
Qed.

(** [s'] is [s1] with the turn's summary published and the capture told. *)
Definition announced (t : string) s1 s' : Prop :=
  same_core s1 s' ∧ ts_published s' = ts_published (publish t s1).

Lemma announced_capture t f s : announced t s (publish t (with_capture f s)).
Proof.
  split; [eapply same_core_trans; [apply core_with_capture|apply core_publish]|].
  apply published_publish; [apply core_with_capture|apply published_with_capture].
Qed.

Lemma refuse_announced t reason s :
  announced t (set_refused (<[t := default 0 (ts_refused s !! t) + 1]> (ts_refused s)) s)
    (refuse t reason s).
Proof. apply announced_capture. Qed.

Definition opened s (t : string) (cid : option string) : TurnSettlement :=
  set_invocations (ts_invocations s ++ [mkInvocation t IOpen cid])%list
    (set_pending (<[t := default 0 (ts_pending s !! t) + 1]> (ts_pending s)) s).

Lemma open_invocation_effect t s :
  ∃ cid s', open_invocation t s = (Ok (length (ts_invocations s)), s') ∧
    announced t (opened s t cid) s'.
Proof.
  assert (∀ inv : Invocation, (length (ts_invocations s ++ [inv])%list - 1)%nat =
    length (ts_invocations s)) as El.
  { intros inv. rewrite length_app. simpl. lia. }
  unfold open_invocation. destruct (ts_capture s) as [c|] eqn:Ec;
    [destruct (cap_invocation_opened c t (ts_session_id s)) as [id c']|];
    simpl; rewrite El; do 2 eexists; (split; [reflexivity|by split]).
Qed.

Definition moved s (i : nat) (inv : Invocation) (new : InvocationState) : TurnSettlement :=
  set_invocations (<[i := mkInvocation (iv_turn_id inv) new (iv_capture_id inv)]>
    (ts_invocations s)) s.

Definition settled_down s (t : string) (n : Z) : TurnSettlement :=
  set_pending (if n - 1 =? 0 then delete t (ts_pending s) else <[t := n - 1]> (ts_pending s)) s.

Lemma transition_effect i expected new s :
  (new = IStarted ∨ new = IEnded ∨ new = IAbandoned) →
  settlement_transition i expected new s = (Ok false, s) ∨
  ∃ inv, ts_invocations s !! i = Some inv ∧ iv_state inv = expected ∧
    if decide (new = IStarted)
    then settlement_transition i expected new s = (Ok true, moved s i inv new)
    else match ts_pending s !! iv_turn_id inv with
         | None => settlement_transition i expected new s =
                     (Err (SettlementKeyError (iv_turn_id inv)), moved s i inv new)
         | Some n => ∃ s', settlement_transition i expected new s = (Ok true, s') ∧
             announced (iv_turn_id inv) (settled_down (moved s i inv new) (iv_turn_id inv) n) s'
         end.
Proof.
  intros Hnew. unfold settlement_transition.
  destruct (ts_invocations s !! i) as [inv|] eqn:Hi; [|by left].
  case_bool_decide as Hs; simpl; [right|by left]. exists inv. split_and!; [done|done|].
  destruct (decide (new = IStarted)) as [->|Hn].
  { done. }
  replace (bool_decide (new = IEnded) || bool_decide (new = IAbandoned)) with true
    by (destruct_or!; subst; [done|reflexivity..]).
  fold (moved s i inv new). simpl.
  destruct (ts_pending s !! iv_turn_id inv) as [n|] eqn:Hp; [|done].
  eexists. split; [done|].
  set (s2 := settled_down (moved s i inv new) (iv_turn_id inv) n).
  replace (if n - 1 =? 0 then set_pending _ _ else set_pending _ _) with s2
    by (unfold s2, settled_down; by destruct (n - 1 =? 0)).
  assert (announced (iv_turn_id inv) s2 (publish (iv_turn_id inv)
    (match iv_capture_id inv with
     | Some id => with_capture (λ c, cap_invocation_ended c (iv_turn_id inv) id
                    (InvocationState_value new)) s2
     | None => s2 end))) as [Hc Hpub].
  { destruct (iv_capture_id inv); [apply announced_capture|by split]. }
  destruct (n - 1 =? 0); [|done]. split.
  - eapply same_core_trans; [apply Hc|apply core_close].
  - by rewrite published_close.
Qed.

Lemma live_count_moved s i inv new t :
  ts_invocations s !! i = Some inv →
  (live_count (moved s i inv new) t + (if decide (live t inv) then 1 else 0) =
   live_count s t +
   (if decide (live t (mkInvocation (iv_turn_id inv) new (iv_capture_id inv))) then 1 else 0))%nat.
Proof. intros Hi. unfold live_count. by apply filter_insert_length. Qed.

Lemma store_inv_open s t : store_inv s → store_inv (open_invocation t s).2.
Proof.
  intros [I1 I2 I3 I4 I5 I6].
  destruct (open_invocation_effect t s) as (cid & s' & -> & [Hc _]).
  eapply store_inv_core; [exact Hc|]. split; simpl; [done..| |].
  - intros t'. unfold live_count. simpl. rewrite filter_app, length_app.
    rewrite filter_cons, filter_nil. destruct (decide (t' = t)) as [->|].
    + rewrite lookup_insert_eq, decide_True by (split; [done|by left]). simpl.
      rewrite I5. unfold live_count. lia.
    + rewrite lookup_insert_ne, decide_False by (congruence || by intros [? _]).
      simpl. rewrite I5. unfold live_count. lia.
  - intros t' n. destruct (decide (t' = t)) as [->|].
    + rewrite lookup_insert_eq. intros [= <-]. rewrite I5. lia.
    + rewrite lookup_insert_ne by done. apply I6.
Qed.

(** A legal move of an invocation. *)
Definition legal_move (expected new : InvocationState) : Prop :=
  (expected = IOpen ∧ new = IStarted) ∨ (expected = IStarted ∧ new = IEnded) ∨
  (expected = IOpen ∧ new = IAbandoned).

Lemma store_inv_started s i inv :
  ts_invocations s !! i = Some inv → iv_state inv = IOpen →
  store_inv s → store_inv (moved s i inv IStarted).
Proof.
  intros Hi Hs [I1 I2 I3 I4 I5 I6]. split; simpl; try done.
  intros t. rewrite I5. f_equal. pose proof (live_count_moved s i inv IStarted t Hi) as E.
  destruct (decide (live t inv)) as [[Ht _]|Hl], (decide (live t _)) as [[Ht' _]|Hl'] in E;
    unfold live in *; simpl in *; naive_solver lia.
Qed.

Lemma store_inv_settled s i inv new n :
  ts_invocations s !! i = Some inv → (iv_state inv = IOpen ∨ iv_state inv = IStarted) →
  (new = IEnded ∨ new = IAbandoned) → ts_pending s !! iv_turn_id inv = Some n →
  store_inv s → store_inv (settled_down (moved s i inv new) (iv_turn_id inv) n).
Proof.
  intros Hi Hs Hnew Hp [I1 I2 I3 I4 I5 I6].
  pose proof (I6 _ _ Hp) as Hpos. split; simpl; try done.
  - intros t. pose proof (live_count_moved s i inv new t Hi) as E. specialize (I5 t).
    rewrite (decide_False (P := live t (mkInvocation _ _ _))) in E
      by (unfold live; simpl; naive_solver).
    change (live_count (settled_down _ _ _) t) with (live_count (moved s i inv new) t).
    destruct (decide (t = iv_turn_id inv)) as [->|Hne].
    + rewrite decide_True in E by done. rewrite Hp in I5. simpl in I5.
      destruct (Z.eqb_spec (n - 1) 0); [rewrite lookup_delete_eq|rewrite lookup_insert_eq];
        simpl; lia.
    + rewrite (decide_False (P := live t inv)) in E by (intros [? _]; congruence).
      destruct (n - 1 =? 0); [rewrite lookup_delete_ne by done|rewrite lookup_insert_ne by done];
        rewrite I5; lia.
  - intros t m. destruct (Z.eqb_spec (n - 1) 0) as [|Hz].
    + intros [_ Hm]%lookup_delete_Some. by eapply I6.
    + intros [[_ <-]|[_ Hm]]%lookup_insert_Some; [lia|]. by eapply I6.
Qed.

Lemma store_inv_transition i expected new s :
  legal_move expected new → store_inv s →
  store_inv (settlement_transition i expected new s).2 ∧
  is_ok (settlement_transition i expected new s).1 = true.
Proof.
  intros Hl Hinv.
  destruct (transition_effect i expected new s) as [->|(inv & Hi & Hs & He)];
    [unfold legal_move in Hl; naive_solver|done|].
  destruct (decide (new = IStarted)) as [->|Hn].
  { rewrite He. split; [|done]. apply store_inv_started; [done| |done].
    unfold legal_move in Hl. naive_solver. }
  assert (live (iv_turn_id inv) inv) as Hlive by (split; [done|unfold legal_move in Hl; naive_solver]).
  destruct (ts_pending s !! iv_turn_id inv) as [n|] eqn:Hp.
  - destruct He as (s' & -> & [Hc _]). split; [|done]. eapply store_inv_core; [exact Hc|].
    apply store_inv_settled; [done|apply Hlive|unfold legal_move in Hl; naive_solver|done|done].
  - exfalso. pose proof (inv_pending s Hinv (iv_turn_id inv)) as E. rewrite Hp in E. simpl in E.
    assert (inv ∈ filter (live (iv_turn_id inv)) (ts_invocations s)) as Hin.
    { apply list_elem_of_filter. split; [done|]. by eapply list_elem_of_lookup_2. }
    unfold live_count in E. destruct (filter _ _) in E, Hin; [set_solver|simpl in E; lia].
Qed.

(** * Histories *)

Lemma run_ops_app ops1 ops2 s : run_ops (ops1 ++ ops2)%list s = run_ops ops2 (run_ops ops1 s).
Proof. revert s. induction ops1 as [|op ops1 IH]; intros s; simpl; auto. Qed.

Lemma store_inv_new capture sid : store_inv (new_settlement capture sid).
Proof.
  split; simpl; [constructor|done|..]; try (intros *; rewrite lookup_empty; done).
Qed.

(** The only exception a call raises is a conflict of receipts, and it leaves the
    store well formed. *)
Lemma run_op_inv op s :
  store_inv s →
  store_inv (run_op op s).2 ∧
  ∀ e, (run_op op s).1 = Some e → ∃ r m, op = OpRecord r ∧ e = ReceiptConflictError m.
Proof.
  intros Hinv.
  assert (∀ i expected new, legal_move expected new →
    store_inv (outcome (settlement_transition i expected new s)).2 ∧
    ∀ e, (outcome (settlement_transition i expected new s)).1 ≠ Some e) as Htr.
  { intros i expected new Hl. destruct (store_inv_transition i expected new s Hl Hinv) as [? Hok].
    split; [done|]. unfold outcome. by destruct (settlement_transition _ _ _ _) as [[]]. }
  assert (∀ i expected new, legal_move expected new →
    store_inv (outcome (settlement_transition i expected new s)).2 ∧
    ∀ e, (outcome (settlement_transition i expected new s)).1 = Some e →
      ∃ r m, op = OpRecord r ∧ e = ReceiptConflictError m) as Htr'.
  { intros i expected new Hl. destruct (Htr i expected new Hl) as [? He]. split; [done|].
    intros e Hx. by destruct (He e). }
  clear Htr. destruct op; simpl;
    try (apply Htr'; unfold legal_move; tauto).
  - split; [by destruct Hinv; split|done].
  - split; [by apply store_inv_open|]. destruct (open_invocation_effect turn_id s) as (?&?&->&_). done.
  - destruct (record_attempt_cases s r Hinv) as [[-> _]|[[m ->]|[-> ?]]]; simpl.
    + done.
    + split; [by apply store_inv_refuse|]. intros e [= <-]. eauto.
    + split; [by apply store_inv_accept|done].
  - split; [by apply store_inv_refuse|done].
  - split; [|done]. eapply store_inv_core; [apply core_close|].
    by apply (store_inv_core s).
Qed.

Lemma run_ops_inv ops s : store_inv s → store_inv (run_ops ops s).
Proof. revert s. induction ops; intros s Hs; simpl; [done|]. by apply IHops, run_op_inv. Qed.

(** What a call does to the receipts and to the count of refusals. *)
Definition bump (t : string) (m : gmap string Z) : gmap string Z :=
  <[t := default 0 (m !! t) + 1]> m.

Lemma run_op_receipts op s :
  store_inv s →
  let s' := (run_op op s).2 in
  match op with
  | OpRecord r =>
      (s' = s ∧ has_receipt s r) ∨
      (ts_receipts s' = ts_receipts s ∧ ts_refused s' = bump (sr_turn_id r) (ts_refused s) ∧
       is_Some (run_op op s).1) ∨
      (ts_receipts s' = od_set (sr_attempt_id r) r (ts_receipts s) ∧ ts_refused s' = ts_refused s ∧
       fresh s r)
  | OpIntegrity t =>
      ts_receipts s' = ts_receipts s ∧ ts_refused s' = bump t (ts_refused s)
  | _ => ts_receipts s' = ts_receipts s ∧ ts_refused s' = ts_refused s
  end.
Proof.
  intros Hinv.
  assert (∀ i expected new, legal_move expected new →
    let s' := (outcome (settlement_transition i expected new s)).2 in
    ts_receipts s' = ts_receipts s ∧ ts_refused s' = ts_refused s) as Htr.
  { intros i expected new Hl. unfold outcome. simpl.
    destruct (transition_effect i expected new s) as [->|(inv & _ & _ & He)];
      [unfold legal_move in Hl; naive_solver|done|].
    destruct (decide (new = IStarted)); [by rewrite He|].
    destruct (ts_pending s !! iv_turn_id inv) as [m|]; [|by rewrite He].
    destruct He as (s' & -> & [[Er _ _ Ef _ _] _]). done. }
  destruct op; simpl; try (apply Htr; unfold legal_move; tauto); try done.
  - destruct (open_invocation_effect turn_id s) as (cid & s' & -> & [[Er _ _ Ef _ _] _]). done.
  - destruct (record_attempt_cases s r Hinv) as [[-> ?]|[[m ->]|[-> ?]]]; simpl; [by left|..].
    + right; left. destruct (refuse_announced (sr_turn_id r) "receipt_conflict" s)
        as [[Er _ _ Ef _ _] _]. done.
    + right; right. split_and!; [..|done]; unfold accept; simpl;
        unfold with_capture; simpl; by destruct (ts_capture s).
  - destruct (refuse_announced turn_id "ledger_refused" s) as [[Er _ _ Ef _ _] _]. done.
  - destruct (core_close turn_id true (set_finalized ({[turn_id]} ∪ ts_finalized s) s))
      as [Er _ _ Ef _ _]. done.
Qed.

Lemma elem_of_values_set r s x :
  od_get (sr_attempt_id r) (ts_receipts s) = None →
  x ∈ od_values (od_set (sr_attempt_id r) r (ts_receipts s)) ↔
  x ∈ od_values (ts_receipts s) ∨ x = r.
Proof.
  intros Hn. rewrite od_set_fresh by done. unfold od_values. rewrite fmap_app, elem_of_app.
  simpl. by rewrite list_elem_of_singleton.
Qed.

(** What a history tells of the store it leaves. *)
Record history_inv (ops : list settlement_op) s : Prop := {
  hi_from r : r ∈ od_values (ts_receipts s) → OpRecord r ∈ ops;
  hi_to r : OpRecord r ∈ ops → has_receipt s r ∨ 0 < default 0 (ts_refused s !! sr_turn_id r);
  hi_refused t : 0 ≤ default 0 (ts_refused s !! t)
}.

Lemma has_receipt_set s r r' rs :
  od_get (sr_attempt_id r') (ts_receipts s) = None →
  rs = od_set (sr_attempt_id r') r' (ts_receipts s) →
  has_receipt s r → ∃ x, x ∈ od_values rs ∧ same_attempt r x.
Proof. intros Hn -> (x & Hx & Hs). exists x. split; [|done]. apply elem_of_values_set; auto. Qed.

Lemma bump_lookup t m t' :
  default 0 (bump t m !! t') = default 0 (m !! t') + (if decide (t' = t) then 1 else 0).
Proof.
  unfold bump. destruct (decide (t' = t)) as [->|];
    [rewrite lookup_insert_eq|rewrite lookup_insert_ne by done]; simpl; lia.
Qed.

Lemma history_step ops op s :
  store_inv s → history_inv ops s → history_inv (ops ++ [op])%list (run_op op s).2.
Proof.
  intros Hinv [Hf Ht Hr]. pose proof (run_op_receipts op s Hinv) as He. simpl in He.
  set (s' := (run_op op s).2) in *.
  assert (∀ r, r ∈ od_values (ts_receipts s) → OpRecord r ∈ (ops ++ [op])%list) as Hf'.
  { intros r Hin. apply elem_of_app. left. by apply Hf. }
  assert (ts_receipts s' = ts_receipts s →
    (∀ t, default 0 (ts_refused s !! t) ≤ default 0 (ts_refused s' !! t)) →
    (∀ r, op = OpRecord r → has_receipt s r ∨ 0 < default 0 (ts_refused s' !! sr_turn_id r)) →
    history_inv (ops ++ [op])%list s') as Hsame.
  { intros E Hmono Hop. split.
    - by rewrite E.
    - intros r [Hin|Hin%list_elem_of_singleton]%elem_of_app; unfold has_receipt; rewrite E.
      + destruct (Ht r Hin); [by left|right]. specialize (Hmono (sr_turn_id r)). lia.
      + by apply Hop.
    - intros t. specialize (Hmono t). specialize (Hr t). lia. }
  destruct op; try (destruct He as [E1 E2]; apply Hsame; [done|by rewrite E2|done]).
  - destruct He as [[-> Hh]|[(E1 & E2 & _)|(E1 & E2 & [Hn _])]].
    + apply Hsame; [done|done|]. intros ? [= <-]. by left.
    + apply Hsame; [done|..]; rewrite E2.
      * intros t. rewrite bump_lookup. case_decide; lia.
      * intros ? [= <-]. right. rewrite bump_lookup, decide_True by done.
        specialize (Hr (sr_turn_id r)). lia.
    + split; [| |by rewrite E2].
      * intros x. rewrite E1, elem_of_values_set by done. intros [?| ->]; [by apply Hf'|].
        apply elem_of_app. right. by apply list_elem_of_singleton.
      * intros x [Hin|Hin%list_elem_of_singleton]%elem_of_app; unfold has_receipt; rewrite ?E2.
        -- destruct (Ht x Hin); [left|by right]. by eapply has_receipt_set.
        -- simplify_eq. left. exists r. rewrite E1, elem_of_values_set by done.
           split; [by right|by left].
  - destruct He as [E1 E2]. apply Hsame; [done| |done]. intros t. rewrite E2, bump_lookup.
    case_decide; lia.
Qed.

Lemma history_reachable capture sid ops :
  let s := run_ops ops (new_settlement capture sid) in store_inv s ∧ history_inv ops s.
Proof.
  induction ops as [|op ops IH] using rev_ind; simpl.
  - split; [apply store_inv_new|]. by split; simpl; set_solver.
  - rewrite run_ops_app. simpl. destruct IH as [Hi Hh].
    split; [by apply run_op_inv|by apply history_step].
Qed.

(** * Uniqueness and completeness *)

Lemma values_lookup s i r :
  store_inv s → od_values (ts_receipts s) !! i = Some r →
  od_keys (ts_receipts s) !! i = Some (sr_attempt_id r) ∧
  od_get (sr_attempt_id r) (ts_receipts s) = Some r.
Proof.
  intros Hinv Hi. unfold od_values in Hi. rewrite list_lookup_fmap in Hi.
  destruct (ts_receipts s !! i) as [[k r']|] eqn:E; simplify_eq/=.
  pose proof (od_in_get k r _ (inv_nodup s Hinv) (list_elem_of_lookup_2 _ _ _ E)) as Hg.
  pose proof (inv_keyed s Hinv _ _ Hg) as <-. split; [|done].
  unfold od_keys. by rewrite list_lookup_fmap, E.
Qed.

Lemma values_unique s i j r r' :
  store_inv s →
  od_values (ts_receipts s) !! i = Some r → od_values (ts_receipts s) !! j = Some r' →
  sr_attempt_id r = sr_attempt_id r' ∨
    (∃ g, sr_gateway_request_id r = Some g ∧ sr_gateway_request_id r' = Some g) →
  i = j.
Proof.
  intros Hinv Hi Hj Hsame.
  destruct (values_lookup s i r Hinv Hi) as [Ki Gi], (values_lookup s j r' Hinv Hj) as [Kj Gj].
  assert (sr_attempt_id r = sr_attempt_id r') as E.
  { destruct Hsame as [|(g & Hg & Hg')]; [done|].
    pose proof (inv_owner s Hinv _ _ _ Gi Hg) as E1. pose proof (inv_owner s Hinv _ _ _ Gj Hg') as E2.
    congruence. }
  rewrite <- E in Kj. by eapply NoDup_lookup; [apply (inv_nodup s Hinv)|..].
Qed.

(** A turn's cost is complete exactly if nothing about it is open. *)
Lemma complete_iff s t :
  store_inv s → 0 ≤ default 0 (ts_refused s !! t) →
  complete (settle_turn s t) = true ↔
  (∀ r, r ∈ od_values (ts_receipts s) → sr_turn_id r = t →
     is_Some (sr_reported_cost_usd r) ∧ sr_outcome r ≠ "unattributed") ∧
  (∀ inv, inv ∈ ts_invocations s → iv_turn_id inv = t →
     iv_state inv = IEnded ∨ iv_state inv = IAbandoned) ∧
  default 0 (ts_refused s !! t) = 0.
Proof.
  intros Hinv Href. unfold complete, settle_turn. simpl.
  rewrite !andb_true_iff, bool_decide_eq_true, !Z.eqb_eq, (inv_pending s Hinv t), fmap_nil_iff.
  unfold receipts, live_count.
  assert (∀ z n, 0 ≤ z → z + Z.of_nat n = 0 ↔ z = 0 ∧ Z.of_nat n = 0) as Hsum by lia.
  rewrite (Hsum _ _ Href), !length_zero, !filter_nil_iff.
  setoid_rewrite list_elem_of_filter. unfold live. split.
  - intros [[H1 H2] [H3 H4]]. split_and!; [|intros inv Hin Ht|done].
    + intros r Hin Ht. split; [|by apply H4]. destruct (sr_reported_cost_usd r) eqn:E; [done|].
      by destruct (H1 r (conj Ht Hin)).
    + specialize (H2 inv Hin). destruct (iv_state inv) eqn:E; eauto; destruct H2; eauto.
  - intros (H1 & H2 & H3). split_and!; try done.
    + intros r [Ht Hin] E. destruct (H1 r Hin Ht) as [[? ?] _]. congruence.
    + intros inv Hin [Ht Hs]. destruct (H2 inv Hin Ht), Hs; congruence.
    + intros r [Ht Hin] E. by destruct (H1 r Hin Ht).
Qed.

(** * Publications *)

(** The last summary of a turn that the subscriber [k] was given. *)
Definition last_published (l : list (nat * string * TurnCostSummary)) (k : nat) (t : string)
    : option TurnCostSummary :=
  snd <$> last (filter (λ p, p.1 = (k, t)) l).

Record pub_inv s : Prop := {
  pub_known k t sm : (k, t, sm) ∈ ts_published s → (k < ts_subscribers s)%nat;
  pub_current k t sm : last_published (ts_published s) k t = Some sm → sm = settle_turn s t
}.

Lemma filter_published (n : nat) (t : string) (x : TurnCostSummary) k t' :
  filter (λ p, p.1 = (k, t')) ((λ k, (k, t, x)) <$> seq 0 n) =
  if decide (t' = t ∧ (k < n)%nat) then [(k, t, x)] else [].
Proof.
  induction n as [|n IH].
  { simpl. rewrite decide_False by lia. done. }
  rewrite seq_S, fmap_app, filter_app, IH. simpl. rewrite filter_cons, filter_nil. simpl.
  destruct (decide ((n, t) = (k, t'))) as [[= -> ->]|Hne].
  - rewrite decide_False by lia. rewrite decide_True by (split; [done|lia]). done.
  - rewrite app_nil_r. destruct (decide (t' = t)) as [->|].
    + assert (n ≠ k) by congruence.
      destruct (decide (k < n)%nat);
        [rewrite !decide_True by (split; [done|lia])|rewrite !decide_False by lia]; done.
    + rewrite !decide_False by (by intros [? _]). done.
Qed.

Lemma last_published_publish s t k t' :
  last_published (ts_published (publish t s)) k t' =
  if decide (t' = t ∧ (k < ts_subscribers s)%nat) then Some (settle_turn s t)
  else last_published (ts_published s) k t'.
Proof.
  unfold last_published, publish. simpl. rewrite filter_app, filter_published.
  case_decide; [by rewrite last_snoc|by rewrite app_nil_r].
Qed.

Lemma pub_announced s s1 s' t :
  ts_published s1 = ts_published s → ts_subscribers s1 = ts_subscribers s →
  (∀ t', t' ≠ t → settle_turn s1 t' = settle_turn s t') →
  announced t s1 s' → pub_inv s → pub_inv s'.
Proof.
  intros Ep Es Hother [Hc Hp] [Hk Hl]. split.
  - intros k t' sm. rewrite Hp, (co_subscribers _ _ Hc), Es. unfold publish. simpl.
    rewrite Ep, Es. intros [Hin|Hin]%elem_of_app; [by eapply Hk|].
    apply list_elem_of_fmap in Hin as (k' & [= -> _ _] & Hin%elem_of_seq). lia.
  - intros k t' sm. rewrite Hp, last_published_publish, (core_settle _ _ _ Hc), Ep, Es.
    case_decide as Hd; [intros [= <-]; by destruct Hd as [-> _]|]. intros Hlast.
    destruct (decide (t' = t)) as [->|]; [|rewrite Hother by done; by eapply Hl].
    exfalso. unfold last_published in Hlast.
    destruct (last _) as [[[k0 t0] x0]|] eqn:El; [|done].
    apply last_Some_elem_of, list_elem_of_filter in El as [[= -> ->] Hin].
    apply Hd. split; [done|]. by eapply Hk.
Qed.

Lemma settle_other_refused t t' n s :
  t' ≠ t → settle_turn (set_refused (<[t := n]> (ts_refused s)) s) t' = settle_turn s t'.
Proof. intros Hne. unfold settle_turn. simpl. by rewrite lookup_insert_ne. Qed.

Lemma pub_inv_refuse t reason s : pub_inv s → pub_inv (refuse t reason s).
Proof.
  intros Hpub. eapply (pub_announced s); [| | |apply refuse_announced|done]; [done|done|].
  intros. by apply settle_other_refused.
Qed.

Lemma accept_announced s r :
  announced (sr_turn_id r)
    (set_receipts (od_set (sr_attempt_id r) r (ts_receipts s))
        (match sr_gateway_request_id r with
         | Some g => <[g := sr_attempt_id r]> (ts_attempt_for_gateway s)
         | None => ts_attempt_for_gateway s
         end) s) (accept s r).
Proof. apply announced_capture. Qed.

Lemma pub_inv_accept s r : fresh s r → pub_inv s → pub_inv (accept s r).
Proof.
  intros [Hn _] Hpub.
  eapply (pub_announced s); [| | |apply accept_announced|done]; [done|done|].
  intros t' Hne. unfold settle_turn, receipts. simpl. rewrite od_set_fresh by done.
  unfold od_values. rewrite fmap_app, filter_app. simpl.
  rewrite filter_cons, filter_nil, decide_False, app_nil_r by congruence. done.
Qed.

Lemma pub_inv_transition i expected new s :
  legal_move expected new → store_inv s → pub_inv s →
  pub_inv (settlement_transition i expected new s).2.
Proof.
  intros Hl Hinv Hpub.
  destruct (transition_effect i expected new s) as [->|(inv & Hi & Hs & He)];
    [unfold legal_move in Hl; naive_solver|done|].
  assert (pub_inv (moved s i inv new)) as Hm by by destruct Hpub.
  destruct (decide (new = IStarted)); [by rewrite He|].
  destruct (ts_pending s !! iv_turn_id inv) as [m|]; [|by rewrite He].
  destruct He as (s' & -> & Ha). simpl.
  eapply (pub_announced s); [| | |exact Ha|done]; [done|done|].
  intros t' Hne. unfold settle_turn. simpl.
  by destruct (m - 1 =? 0); [rewrite lookup_delete_ne|rewrite lookup_insert_ne].
Qed.

Lemma pub_inv_same s s' :
  same_core s s' → ts_published s' = ts_published s → pub_inv s → pub_inv s'.
Proof.
  intros Hc Hp [Hk Hl]. split; rewrite Hp.
  - rewrite (co_subscribers _ _ Hc). apply Hk.
  - intros k t sm Hlast. rewrite (core_settle _ _ _ Hc). by eapply Hl.
Qed.

Lemma run_op_pub op s : store_inv s → pub_inv s → pub_inv (run_op op s).2.
Proof.
  intros Hinv Hpub. destruct op; simpl;
    try (apply pub_inv_transition; [unfold legal_move; tauto|done|done]).
  - destruct Hpub as [Hk Hl]. split; simpl; [|done]. intros k t sm Hin.
    specialize (Hk k t sm Hin). lia.
  - destruct (open_invocation_effect turn_id s) as (cid & s' & -> & Ha). simpl.
    eapply (pub_announced s); [| | |exact Ha|done]; [done|done|].
    intros t' Hne. unfold settle_turn. simpl. by rewrite lookup_insert_ne.
  - destruct (record_attempt_cases s r Hinv) as [[-> _]|[[m ->]|[-> ?]]]; simpl; [done|..].
    + by apply pub_inv_refuse.
    + by apply pub_inv_accept.
  - by apply pub_inv_refuse.
  - eapply pub_inv_same; [apply core_close|apply published_close|]. by apply (pub_inv_same s).
Qed.

Lemma pub_reachable capture sid ops :
  pub_inv (run_ops ops (new_settlement capture sid)).
Proof.
  induction ops as [|op ops IH] using rev_ind.
  - split; simpl; set_solver.
  - rewrite run_ops_app. simpl. apply run_op_pub; [by apply history_reachable|done].
Qed.

(** * Order of arrival *)

Definition recorded (ops : list settlement_op) : list StageReceipt :=
  omap (λ op, match op with OpRecord r => Some r | _ => None end) ops.

Lemma elem_of_recorded r ops : r ∈ recorded ops ↔ OpRecord r ∈ ops.
Proof.
  unfold recorded. rewrite list_elem_of_omap. split; [|by eexists].
  intros (op & Hin & E). destruct op; by simplify_eq.
Qed.

(** No two of the receipts contradict each other. *)
Definition consistent (l : list StageReceipt) : Prop :=
  ∀ r r', r ∈ l → r' ∈ l →
    (sr_attempt_id r = sr_attempt_id r' → facts r = facts r') ∧
    (∀ g, sr_gateway_request_id r = Some g → sr_gateway_request_id r' = Some g →
       settled_facts r = settled_facts r').

(** What identifies a charge: its Gateway request, or the attempt if it has none. *)
Definition charge_key (r : StageReceipt) : string + string :=
  match sr_gateway_request_id r with Some g => inl g | None => inr (sr_attempt_id r) end.

Lemma facts_settled r r' : facts r = facts r' → settled_facts r = settled_facts r'.
Proof. intros E. apply (f_equal settled_facts) in E. exact E. Qed.

Lemma facts_key r r' : facts r = facts r' → charge_key r = charge_key r'.
Proof. intros E. apply (f_equal charge_key) in E. exact E. Qed.

Lemma consistent_key l r r' :
  consistent l → r ∈ l → r' ∈ l → charge_key r = charge_key r' → settled_facts r = settled_facts r'.
Proof.
  intros Hl Hr Hr'. unfold charge_key.
  destruct (sr_gateway_request_id r) as [g|] eqn:E, (sr_gateway_request_id r') as [g'|] eqn:E';
    intros [= Hk].
  - subst g'. by apply (proj2 (Hl r r' Hr Hr') g).
  - by apply facts_settled, (proj1 (Hl r r' Hr Hr')).
Qed.

Lemma same_attempt_key r r' : same_attempt r r' → charge_key r' = charge_key r.
Proof.
  intros [[_ E]|([g Hg] & E & _)]; [by apply facts_key|].
  unfold charge_key. by rewrite E, Hg.
Qed.

(** A receipt that contradicts none of the store's is not refused. *)
Definition compatible (x r : StageReceipt) : Prop :=
  (sr_attempt_id x = sr_attempt_id r → facts x = facts r) ∧
  (∀ g, sr_gateway_request_id x = Some g → sr_gateway_request_id r = Some g →
     settled_facts x = settled_facts r).

Lemma compatible_recorded s r :
  store_inv s → (∀ x, x ∈ od_values (ts_receipts s) → compatible x r) →
  (run_op (OpRecord r) s).1 = None.
Proof.
  intros Hinv Hx. unfold run_op, record_attempt, outcome.
  assert (∀ k x, od_get k (ts_receipts s) = Some x → compatible x r) as Hget.
  { intros k x Hg%od_get_Some_in. apply Hx, list_elem_of_fmap. by exists (k, x). }
  destruct (od_get (sr_attempt_id r) (ts_receipts s)) as [ex|] eqn:Hex.
  { rewrite decide_True; [done|]. apply (Hget _ _ Hex), (inv_keyed s Hinv _ _ Hex). }
  destruct (sr_gateway_request_id r) as [g|] eqn:Hg; simpl; [|done].
  destruct (ts_attempt_for_gateway s !! g) as [owner|] eqn:Ho; simpl; [|done].
  destruct (inv_gateway s Hinv g owner Ho) as (x & Hr' & Hg'). rewrite Hr'.
  rewrite decide_True; [done|]. by apply (proj2 (Hget _ _ Hr') g).
Qed.

Lemma consistent_prefix ops op : consistent (recorded (ops ++ [op])%list) → consistent (recorded ops).
Proof.
  intros Hcon x y Hx Hy.
  apply Hcon; apply elem_of_recorded, elem_of_app; left; by apply elem_of_recorded.
Qed.

(** With consistent receipts nothing is refused: the store has them all. *)
Lemma consistent_has capture sid ops r :
  consistent (recorded ops) → OpRecord r ∈ ops →
  has_receipt (run_ops ops (new_settlement capture sid)) r.
Proof.
  revert r. induction ops as [|op ops IH] using rev_ind; intros r Hcon Hin; [set_solver|].
  rewrite run_ops_app. simpl. set (s := run_ops ops _) in *.
  destruct (history_reachable capture sid ops) as [Hinv [Hfrom _ _]]. fold s in Hinv, Hfrom.
  pose proof (consistent_prefix _ _ Hcon) as Hcon'.
  pose proof (run_op_receipts op s Hinv) as He. simpl in He. set (s' := (run_op op s).2) in *.
  assert (ts_receipts s' = ts_receipts s → OpRecord r ∈ ops → has_receipt s' r) as Hkeep.
  { intros E Ho. unfold has_receipt. rewrite E. by apply IH. }
  apply elem_of_app in Hin as [Hin|Hin%list_elem_of_singleton].
  - destruct op; try (by apply Hkeep; [apply He|]).
    destruct He as [[-> _]|[(E & _ & _)|(E & _ & [Hn _])]]; [by apply IH|by apply Hkeep|].
    unfold has_receipt. eapply has_receipt_set; [exact Hn|exact E|by apply IH].
  - subst op. destruct He as [[-> ?]|[(_ & _ & [e He])|(E & _ & [Hn _])]]; [done|..].
    2: { exists r. split; [|by left]. rewrite E. apply elem_of_values_set; auto. }
    rewrite compatible_recorded in He; [done|done|]. intros x Hx.
    apply Hcon; apply elem_of_recorded, elem_of_app;
      [left; by apply Hfrom|right; by apply list_elem_of_singleton].
Qed.

Definition charges s : list ((string + string) * StageReceipt) :=
  (λ r, (charge_key r, settled_facts r)) <$> od_values (ts_receipts s).

Lemma charges_nodup s : store_inv s → NoDup (charges s).
Proof.
  intros Hinv. apply NoDup_alt. intros i j x. unfold charges. rewrite !list_lookup_fmap.
  destruct (od_values _ !! i) as [r|] eqn:Hi, (od_values _ !! j) as [r'|] eqn:Hj; try done.
  intros [= <-] [= Hk _]. apply (values_unique s i j r r' Hinv Hi Hj).
  unfold charge_key in Hk.
  destruct (sr_gateway_request_id r) as [g|], (sr_gateway_request_id r') as [g'|]; simplify_eq; eauto.
Qed.

Lemma charges_same capture sid capture' sid' ops ops' :
  consistent (recorded ops) → (∀ r, OpRecord r ∈ ops ↔ OpRecord r ∈ ops') →
  charges (run_ops ops (new_settlement capture sid)) ⊆
  charges (run_ops ops' (new_settlement capture' sid')).
Proof.
  intros Hcon Hsame x (r & -> & Hin)%list_elem_of_fmap.
  destruct (history_reachable capture sid ops) as [_ [Hfrom _ _]].
  destruct (history_reachable capture' sid' ops') as [_ [Hfrom' _ _]].
  apply Hfrom in Hin as Hr. assert (consistent (recorded ops')) as Hcon'.
  { intros y z Hy Hz. apply Hcon; apply elem_of_recorded, Hsame; by apply elem_of_recorded. }
  destruct (consistent_has capture' sid' ops' r Hcon') as (r' & Hin' & Hs); [by apply Hsame|].
  apply same_attempt_key in Hs as Hk. apply list_elem_of_fmap. exists r'. split; [|done].
  rewrite Hk. f_equal. symmetry.
  apply (consistent_key (recorded ops)); [done|..|done];
    apply elem_of_recorded; [by apply Hsame, Hfrom'|done].
Qed.

(** The summary of a turn in terms of its charges. *)
Lemma subtotal_charges s t :
  tc_known_subtotal_usd (settle_turn s t) =
  sumZ (omap sr_reported_cost_usd (filter (λ r, sr_turn_id r = t) (charges s).*2)) ∧
  length (tc_unknown_attempt_ids (settle_turn s t)) =
  length (filter (λ r, sr_reported_cost_usd r = None)
            (filter (λ r, sr_turn_id r = t) (charges s).*2)).
Proof.
  unfold settle_turn, charges, receipts. simpl. rewrite length_fmap.
  induction (od_values (ts_receipts s)) as [|r l [IH1 IH2]]; [done|].
  rewrite !fmap_cons, !filter_cons. simpl.
  destruct (decide (sr_turn_id r = t)); simpl; [|done].
  rewrite !filter_cons. simpl. split.
  - destruct (sr_reported_cost_usd r); simpl in *; [by f_equal|done].
  - destruct (decide (sr_reported_cost_usd r = None)); simpl; rewrite IH2; done.
Qed.
End store_facts.

(** C3: Exactly-once settlement: after any history of calls on a turn
    settlement, by any threads, every receipt kept was recorded, and no attempt
    and no Gateway request is kept twice; and every receipt ever recorded is
    there, itself or as an identical replay of the same attempt or Gateway
    request, unless its turn is marked by an integrity failure and never reads as
    complete. *)
Theorem settlement_exactly_once {C : Type} `{Capture C} (capture : option C) sid ops :
  let s := run_ops ops (new_settlement capture sid) in
  let kept := od_values (ts_receipts s) in
  (∀ r, r ∈ kept → OpRecord r ∈ ops) ∧
  (∀ i j r r', kept !! i = Some r → kept !! j = Some r' →
     sr_attempt_id r = sr_attempt_id r' ∨
       (∃ g, sr_gateway_request_id r = Some g ∧ sr_gateway_request_id r' = Some g) → i = j) ∧
  (∀ r, OpRecord r ∈ ops →
     (∃ r', r' ∈ kept ∧ same_attempt r r') ∨ complete (settle_turn s (sr_turn_id r)) = false).
Proof.
  intros s kept. destruct (history_reachable capture sid ops) as [Hinv [Hf Ht Hr]].
  split_and!; [done|by intros *; apply values_unique|].
  intros r Hin. destruct (Ht r Hin) as [|Hpos]; [by left|right].
  apply not_true_iff_false. rewrite complete_iff by done. intros (_ & _ & E). fold s in Hpos. lia.
Qed.

(** C22: Order of arrival, replays and concurrent bookkeeping do not change a
    turn's cost: two stores that recorded the same receipts, none contradicting
    another, in any order, any number of times and interleaved with any other
    calls, settle every turn at the same known subtotal and with as many
    attempts of unknown cost. *)
Theorem settlement_order_independent {C : Type} `{Capture C} (capture capture' : option C)
    sid sid' ops ops' t :
  consistent (recorded ops) → (∀ r, OpRecord r ∈ ops ↔ OpRecord r ∈ ops') →
  let summary1 := settle_turn (run_ops ops (new_settlement capture sid)) t in
  let summary2 := settle_turn (run_ops ops' (new_settlement capture' sid')) t in
  tc_known_subtotal_usd summary1 = tc_known_subtotal_usd summary2 ∧
  length (tc_unknown_attempt_ids summary1) = length (tc_unknown_attempt_ids summary2).
Proof.
  intros Hcon Hsame summary1 summary2. unfold summary1, summary2.
  destruct (history_reachable capture sid ops) as [Hinv _].
  destruct (history_reachable capture' sid' ops') as [Hinv' _].
  assert (consistent (recorded ops')) as Hcon'.
  { intros y z Hy Hz. apply Hcon; apply elem_of_recorded, Hsame; by apply elem_of_recorded. }
  assert (charges (run_ops ops (new_settlement capture sid)) ≡ₚ
          charges (run_ops ops' (new_settlement capture' sid'))) as Hp.
  { apply NoDup_Permutation; [by apply charges_nodup..|].
    intros x. split; by apply charges_same. }
  destruct (subtotal_charges (run_ops ops (new_settlement capture sid)) t) as [-> ->].
  destruct (subtotal_charges (run_ops ops' (new_settlement capture' sid')) t) as [-> ->].
  by split; rewrite Hp.
Qed.

(** C30: When a turn's cost reads as complete: after any history, exactly if the
    cost of every receipt kept for the turn is known and attributed, every worker
    invocation of the turn has ended or was abandoned before it started, and the
    turn had no integrity failure; and no call ever fails but by refusing a
    conflicting receipt (the count of running workers is never wrong). *)
Theorem settlement_complete_exact {C : Type} `{Capture C} (capture : option C) sid ops t op :
  let s := run_ops ops (new_settlement capture sid) in
  (complete (settle_turn s t) = true ↔
    (∀ r, r ∈ od_values (ts_receipts s) → sr_turn_id r = t →
       is_Some (sr_reported_cost_usd r) ∧ sr_outcome r ≠ "unattributed") ∧
    (∀ inv, inv ∈ ts_invocations s → iv_turn_id inv = t →
       iv_state inv = IEnded ∨ iv_state inv = IAbandoned) ∧
    default 0 (ts_refused s !! t) = 0) ∧
  ∀ e, (run_op op s).1 = Some e → ∃ r m, op = OpRecord r ∧ e = ReceiptConflictError m.
Proof.
  intros s. destruct (history_reachable capture sid ops) as [Hinv [_ _ Hr]].
  split; [by apply complete_iff|]. by apply run_op_inv.
Qed.

(** What subscribers know is never stale: after any history, the last
    summary of a turn that a subscriber was given is the turn's summary now. *)
Theorem publications_current {C : Type} `{Capture C} (capture : option C) sid ops k t sm :
  let s := run_ops ops (new_settlement capture sid) in
  last_published (ts_published s) k t = Some sm → sm = settle_turn s t.
Proof. intros s. apply pub_reachable. Qed.

(** A capture that keeps nothing, for the examples. *)
#[export] Instance unit_capture : Capture unit := {
  cap_invocation_opened _ _ _ := ("", tt);
  cap_invocation_ended _ _ _ _ := tt;
  cap_receipt _ _ := tt;
  cap_integrity_failure _ _ _ := tt;
  cap_close _ _ := tt
}.

Definition example_receipt (attempt : string) (gateway : option string) (cost : option amount)
    (at_ : timestamp) : StageReceipt :=
  mkStageReceipt (Some "s") "s:1" "answer" attempt gateway "completed" cost at_ None None [] None []
    None None None None None None None None None None None None false.

(** The same attempt twice, a host retry of it under another attempt id, and an
    attempt of unknown cost. *)
Definition example_ops : list settlement_op :=
  [OpOpen "s:1"; OpRecord (example_receipt "a1" (Some "g1") (Some 25) 0); OpStart 0;
   OpRecord (example_receipt "a1" (Some "g1") (Some 25) 7);
   OpRecord (example_receipt "a2" (Some "g1") (Some 25) 8);
   OpRecord (example_receipt "a3" None None 9); OpEnd 0].

Definition example_ops' : list settlement_op :=
  [OpRecord (example_receipt "a3" None None 9); OpRecord (example_receipt "a2" (Some "g1") (Some 25) 8);
   OpRecord (example_receipt "a1" (Some "g1") (Some 25) 7);
   OpRecord (example_receipt "a1" (Some "g1") (Some 25) 0)].

Lemma settlement_order_independent_witness :
  tc_known_subtotal_usd (settle_turn (run_ops example_ops (new_settlement (Some tt) None)) "s:1") = 25 ∧
  tc_known_subtotal_usd (settle_turn (run_ops example_ops (new_settlement (Some tt) None)) "s:1") =
  tc_known_subtotal_usd (settle_turn (run_ops example_ops' (new_settlement (Some tt) None)) "s:1").
Proof.
  split; [vm_compute; reflexivity|].
  apply (settlement_order_independent (Some tt) (Some tt) None None example_ops example_ops' "s:1").
  - intros r r' Hr Hr'. apply list_elem_of_In in Hr, Hr'. simpl in Hr, Hr'.
    split; intros; destruct_or!; subst; try done; try reflexivity; simpl in *; congruence.
  - intros r. rewrite !list_elem_of_In. unfold example_ops, example_ops'. simpl. split; intros; destruct_or!; simplify_eq; tauto.
Defined.

Lemma publications_current_witness :
  let s := run_ops (OpSubscribe :: example_ops) (new_settlement (Some tt) None) in
  ∃ sm, last_published (ts_published s) 0 "s:1" = Some sm ∧ sm = settle_turn s "s:1" ∧
        tc_known_subtotal_usd sm = 25.
Proof.
  intros s. eexists. split; [vm_compute; reflexivity|]. split; [|reflexivity].
  apply (publications_current (Some tt) None (OpSubscribe :: example_ops) 0 "s:1").
  vm_compute. reflexivity.
Defined.
