(* ===== verification/Summary.v ===== *)
(** The summary format (src/context_engine/summary.py): the strict parser of a
    model-written summary, and the inert block the host wraps it in. *)
From Stdlib Require Ascii.
Import (notations) Ascii.
From stdpp Require Import pretty.
From S2P Require Import Prelude Text Json.

Local Open Scope string_scope.

Definition SUMMARY_FORMAT : string := "context-summary-v1".
Definition SECTIONS : list string :=
  ["Task context"; "Constraints and changes"; "Decisions"; "Work and evidence";
   "Unresolved matters"; "Source chronology"].
Definition HEADING : string := "## ".
Definition WRAPPER_OPEN : string := "<<context-summary".
Definition WRAPPER_CLOSE : string := "<</context-summary>>".

(** * The regular expressions *)

(** [_CONTROL]: a control character other than tab, newline and carriage return. *)
Definition is_control (c : Ascii.ascii) : bool :=
  let n := Ascii.nat_of_ascii c in
  ((n <=? 8) || (n =? 11) || (n =? 12) || ((14 <=? n) && (n <=? 31)) || (n =? 127))%nat.

Fixpoint has_control (s : string) : bool :=
  match s with
  | EmptyString => false
  | String c s' => is_control c || has_control s'
  end.

(** One element of the delimiter pattern: a character, without regard to case, or
    the class of underscore and hyphen. *)
Inductive pat := PChar (c : Ascii.ascii) | PJoin.

(** [s] after one match of the element. Without regard to case, [i] also matches
    U+0130 and U+0131, and [s] matches U+017F. *)
Definition match_pat (p : pat) (s : string) : option string :=
  match p, s with
  | PJoin, String c s' =>
      if Ascii.eqb c "_" || Ascii.eqb c "-" then Some s' else None
  | PChar a, String c s' =>
      if Ascii.eqb (lower_ascii c) a then Some s'
      else match s' with
      | String c2 s2 =>
          let n := Ascii.nat_of_ascii c in let n2 := Ascii.nat_of_ascii c2 in
          if (Ascii.eqb a "i" && (n =? 196)%nat && ((n2 =? 176) || (n2 =? 177))%nat) ||
             (Ascii.eqb a "s" && (n =? 197)%nat && (n2 =? 191)%nat)
          then Some s2 else None
      | EmptyString => None
      end
  | _, EmptyString => None
  end%char.

Fixpoint match_pats (ps : list pat) (s : string) : bool :=
  match ps with
  | [] => true
  | p :: ps' => match match_pat p s with Some s' => match_pats ps' s' | None => false end
  end.

Fixpoint chars (s : string) : list pat :=
  match s with EmptyString => [] | String c s' => PChar c :: chars s' end.

(** [<<\s*/?\s*(context-summary|inert[_-]historical[_-]plan)] at the start of [s].
    The names start with neither white space nor a slash, so no repetition needs
    to give back what it took. *)
Definition match_delimiter (s : string) : bool :=
  match s with
  | String "<" (String "<" s1) =>
      let s2 := lstrip s1 in
      let s3 := match s2 with String "/" s' => s' | _ => s2 end in
      let s4 := lstrip s3 in
      match_pats (chars "context-summary") s4 ||
      match_pats (chars "inert" ++ PJoin :: chars "historical" ++ PJoin :: chars "plan")%list s4
  | _ => false
  end%char.

Fixpoint has_delimiter (s : string) : bool :=
  match_delimiter s ||
  match s with EmptyString => false | String _ s' => has_delimiter s' end.

(** [#{1,6}\s] at the start of a line: the run of marks, at most six, then white
    space. *)
Fixpoint match_heading_from (marks : nat) (line : string) : bool :=
  match line with
  | String "#" line' =>
      match marks with O => false | S marks' => match_heading_from marks' line' end
  | _ => bool_decide (is_Some (strip_space line))
  end%char.
Definition is_heading_line (line : string) : bool :=
  starts_with "#" line && match_heading_from 6 line.

(** * The parser *)

Inductive SummaryFormatError := mkSummaryFormatError (message : string).
#[export] Instance SummaryFormatError_eq_dec : EqDecision SummaryFormatError.
Proof. solve_decision. Defined.

(** The name a heading line gives, if it is of the format's level. *)
Definition heading_name (line : string) : option string :=
  if starts_with HEADING line then Some (rstrip (String.substring 3 (String.length line) line))
  else None.

(** The positions of the heading lines. *)
Definition heading_positions (lines : list string) : list nat :=
  filter (λ i, is_heading_line (nth i lines "") = true) (seq 0 (length lines)).

Definition newline : Ascii.ascii := byte_of 10.

(** The bodies between headings, the last one up to the end. *)
Fixpoint section_bodies (lines : list string) (headings : list nat) (names : list string)
    : res SummaryFormatError (list string) :=
  match headings with
  | [] => Ok []
  | start :: rest =>
      let stop := match rest with next :: _ => next | [] => length lines end in
      let body := strip (join (String newline "")
                          (take (stop - (start + 1)) (drop (start + 1) lines))) in
      raise_if (String.eqb body "")
        (mkSummaryFormatError ("empty section: " +:+ default "" (head names))) ;;*
      let* bodies := section_bodies lines rest (tail names) in
      Ok (body :: bodies)
  end.

(** [parse_summary]. *)
Definition parse_summary (text : string) : res SummaryFormatError (list string) :=
  raise_if (String.eqb (strip text) "") (mkSummaryFormatError "empty summary") ;;*
  raise_if (has_control text) (mkSummaryFormatError "control characters") ;;*
  raise_if (has_delimiter text) (mkSummaryFormatError "wrapper delimiter in summary") ;;*
  let lines := split_char newline (strip_char newline text) in
  let headings := heading_positions lines in
  let names := (λ i, heading_name (nth i lines "")) <$> headings in
  raise_if (negb (bool_decide (names = Some <$> SECTIONS)))
    (mkSummaryFormatError "sections are not exactly the format's, in order") ;;*
  raise_if (negb (bool_decide (head headings = Some 0%nat)))
    (mkSummaryFormatError "text before the first section") ;;*
  section_bodies lines headings SECTIONS.

(** * The host's block *)

(** [render_summary_block] of a checkpoint with the given format, revision
    digest, coverage and text; the coverage of a checkpoint is never empty. *)
Definition summary_header (format_version digest : string) (covered : list Z) : string :=
  WRAPPER_OPEN +:+ " format=" +:+ quote +:+ format_version +:+ quote +:+
  " revision=" +:+ quote +:+ digest +:+ quote +:+
  " covers=" +:+ quote +:+ pretty (default 0%Z (head covered)) +:+ "-" +:+
  pretty (default 0%Z (last covered)) +:+ quote +:+
  " turns=" +:+ quote +:+ pretty (Z.of_nat (length covered)) +:+ quote +:+
  " trust=" +:+ quote +:+ "untrusted-summary" +:+ quote +:+ ">>".

Definition render_summary_block (format_version digest : string) (covered : list Z)
    (text : string) : res SummaryFormatError string :=
  parse_summary text ;;*
  Ok (summary_header format_version digest covered +:+ String newline "" +:+
      strip text +:+ String newline "" +:+ WRAPPER_CLOSE).

(** * A summary cannot break out of its block *)

Lemma starts_with_app p s : starts_with p s = true ↔ ∃ r, s = p +:+ r.
Proof.
  revert s. induction p as [|a p IH]; intros s; simpl; [split; [by exists s|done]|].
  destruct s as [|b s]; [split; [done|by intros [? [=]]]|].
  rewrite andb_true_iff, IH, Ascii.eqb_eq. split.
  - intros [-> [r ->]]. by exists r.
  - intros [r [= -> ->]]. split; [done|by exists r].
Qed.

Lemma contains_app n s : contains n s = true ↔ ∃ l r, s = l +:+ n +:+ r.
Proof.
  induction s as [|c s IH].
  - simpl. rewrite orb_true_iff, starts_with_app. split.
    + intros [[r Hr]|]; [|done]. by exists "", r.
    + intros (l & r & E). left. exists r. by destruct l.
  - simpl. rewrite orb_true_iff, starts_with_app, IH. split.
    + intros [[r Hr]|(l & r & ->)]; [by exists "", r|by exists (String c l), r].
    + intros ([|c' l] & r & E); [left; exists r; exact E|].
      injection E as -> E. right. by exists l, r.
Qed.

Lemma strip_space_suffix s s' : strip_space s = Some s' → ∃ l, s = l +:+ s'.
Proof.
  destruct s as [|c1 [|c2 [|c3 s]]]; cbn [strip_space]; intros H; [done|..];
    destruct (space1 c1); try done; try (injection H as <-; by exists (String c1 ""));
    destruct (space2 c1 c2); try done; try (injection H as <-; by exists (String c1 (String c2 "")));
    destruct (space3 c1 c2 c3); [|done]; injection H as <-.
  by exists (String c1 (String c2 (String c3 ""))).
Qed.

Lemma lstrip_suffix s : ∃ l, s = l +:+ lstrip s.
Proof.
  unfold lstrip. generalize (String.length s) as n. intros n. revert s.
  induction n as [|n IH]; intros s; simpl; [by exists ""|].
  destruct (strip_space s) as [s'|] eqn:E; [|by exists ""].
  apply strip_space_suffix in E as [l ->]. destruct (IH s') as [l' E'].
  exists (l +:+ l'). by rewrite string_app_assoc, <- E'.
Qed.

Lemma rstrip_prefix s : ∃ r, s = rstrip s +:+ r.
Proof.
  induction s as [|c s [r IH]]; [by exists ""|]. cbn [rstrip].
  destruct (String.eqb _ _); [by eexists|]. exists r.
  change (String c s = String c (rstrip s +:+ r)). by rewrite <- IH.
Qed.

Lemma contains_strip n s : contains n (strip s) = true → contains n s = true.
Proof.
  unfold strip. rewrite !contains_app. intros (l & r & E).
  destruct (lstrip_suffix s) as [l0 E0], (rstrip_prefix (lstrip s)) as [r0 E1].
  exists (l0 +:+ l), (r +:+ r0). rewrite E0, E1, E. by rewrite !string_app_assoc.
Qed.

Lemma has_delimiter_app l s : match_delimiter s = true → has_delimiter (l +:+ s) = true.
Proof.
  intros Hm. induction l as [|c l IH].
  - change ("" +:+ s) with s. destruct s; simpl in *; [done|]. by rewrite Hm.
  - change (String c l +:+ s) with (String c (l +:+ s)). cbn [has_delimiter].
    rewrite IH. apply orb_true_r.
Qed.

Lemma open_is_delimiter r : match_delimiter (WRAPPER_OPEN +:+ r) = true.
Proof. reflexivity. Qed.

Lemma close_is_delimiter r : match_delimiter (WRAPPER_CLOSE +:+ r) = true.
Proof. reflexivity. Qed.

Lemma parsed_has_no_delimiter text bodies :
  parse_summary text = Ok bodies → has_delimiter text = false.
Proof. unfold parse_summary. intros. inv_res. done. Qed.

Lemma parsed_no_wrapper text bodies :
  parse_summary text = Ok bodies →
  contains WRAPPER_OPEN text = false ∧ contains WRAPPER_CLOSE text = false.
Proof.
  intros Hd%parsed_has_no_delimiter.
  split; apply not_true_iff_false; rewrite contains_app; intros (l & r & ->);
    by rewrite has_delimiter_app in Hd by (apply open_is_delimiter || apply close_is_delimiter).
Qed.

(** * Occurrences *)

(** How often [n] occurs in [s], counting overlapping occurrences. *)
Fixpoint occurrences (n s : string) : nat :=
  (if starts_with n s then 1 else 0) +
  match s with EmptyString => 0 | String _ s' => occurrences n s' end.

Lemma occurrences_none c n s :
  has_char c s = false → occurrences (String c n) s = 0.
Proof.
  induction s as [|x s IH]; simpl; [done|]. intros [Hx Hs]%orb_false_iff.
  rewrite IH by done. rewrite Ascii.eqb_sym, Hx. done.
Qed.

Lemma contains_occurrences n s : contains n s = false → occurrences n s = 0.
Proof.
  induction s as [|x s IH]; simpl; intros [H1 H2]%orb_false_iff; rewrite H1; [done|].
  by rewrite IH.
Qed.

(** Text without a newline does not start across one. *)
Lemma starts_with_newline n a b :
  has_char newline n = false → starts_with n (a +:+ String newline b) = starts_with n a.
Proof.
  revert n. induction a as [|x a IH]; intros [|y n] Hn; try done.
  - change ("" +:+ String newline b) with (String newline b). cbn [starts_with has_char] in *.
    apply orb_false_iff in Hn as [Hn _]. by rewrite Hn.
  - change (String x a +:+ String newline b) with (String x (a +:+ String newline b)).
    cbn [starts_with has_char] in *. apply orb_false_iff in Hn as [_ Hn]. by rewrite (IH n Hn).
Qed.

Lemma occurrences_newline c n a b :
  has_char newline (String c n) = false →
  occurrences (String c n) (a +:+ String newline b) =
  occurrences (String c n) a + occurrences (String c n) b.
Proof.
  intros Hn. induction a as [|x a IH].
  - pose proof (starts_with_newline (String c n) "" b Hn) as E.
    change ("" +:+ String newline b) with (String newline b) in *. cbn [occurrences].
    by rewrite E.
  - pose proof (starts_with_newline (String c n) (String x a) b Hn) as E.
    change (String x a +:+ String newline b) with (String x (a +:+ String newline b)) in *.
    cbn [occurrences]. rewrite E, IH. lia.
Qed.

Lemma pretty_N_go_no_lt x s :
  has_char "<" s = false → has_char "<" (pretty.pretty_N_go x s) = false.
Proof.
  revert s. induction (N.lt_wf_0 x) as [x _ IH]; intros s Hs.
  destruct (decide (0 < x)%N) as [Hx|Hx].
  - rewrite pretty_N_go_step by done. apply IH; [by apply N.div_lt|].
    cbn [has_char]. rewrite Hs, orb_false_r.
    unfold pretty_N_char. repeat case_match; done.
  - assert (x = 0%N) as -> by lia. by rewrite pretty_N_go_0.
Qed.

Lemma pretty_N_no_lt (x : N) : has_char "<" (pretty x) = false.
Proof. unfold pretty, pretty_N. case_decide; [done|]. by apply pretty_N_go_no_lt. Qed.

Lemma pretty_Z_no_lt (z : Z) : has_char "<" (pretty z) = false.
Proof.
  destruct z as [|p|p]; [done|apply (pretty_N_no_lt (N.pos p))|].
  change (has_char "<" ("-" +:+ pretty (N.pos p)) = false).
  rewrite has_char_app, pretty_N_no_lt. done.
Qed.

(** What follows the opening of a header whose format and digest have no angle
    bracket has none. *)
Lemma header_shape format_version digest covered :
  has_char "<" format_version = false → has_char "<" digest = false →
  ∃ rest, summary_header format_version digest covered = WRAPPER_OPEN +:+ rest ∧
          has_char "<" rest = false.
Proof.
  intros Hf Hd. unfold summary_header. eexists. split; [reflexivity|].
  rewrite !has_char_app, Hf, Hd, !pretty_Z_no_lt. reflexivity.
Qed.

Lemma header_occurrences rest :
  has_char "<" rest = false →
  occurrences WRAPPER_OPEN (WRAPPER_OPEN +:+ rest) = 1 ∧
  occurrences WRAPPER_CLOSE (WRAPPER_OPEN +:+ rest) = 0.
Proof.
  intros Hr. set (t := "context-summary" +:+ rest).
  assert (has_char "<" t = false) as Ht by (unfold t; by rewrite has_char_app, Hr).
  change (WRAPPER_OPEN +:+ rest) with (String "<" (String "<" t)).
  unfold WRAPPER_OPEN, WRAPPER_CLOSE. cbn [occurrences]. rewrite !occurrences_none by done.
  split; reflexivity.
Qed.

(** C33: A model-written summary cannot break out of the inert block the host
    wraps it in: for a format name and a revision digest without an angle bracket
    (as the checkpoint's are), whatever text passes the parser, the rendered
    block has exactly one opening delimiter, the host's at its start, and exactly
    one closing delimiter, the host's at its end. *)
Theorem summary_block_contained format_version digest covered text block :
  has_char "<" format_version = false → has_char "<" digest = false →
  render_summary_block format_version digest covered text = Ok block →
  occurrences WRAPPER_OPEN block = 1 ∧ occurrences WRAPPER_CLOSE block = 1 ∧
  ∃ body, block = summary_header format_version digest covered +:+
                  String newline (body +:+ String newline WRAPPER_CLOSE).
Proof.
  unfold render_summary_block. intros Hf Hd Hr.
  apply res_bind_ok in Hr as (bodies & Hp & Hr). injection Hr as <-.
  apply parsed_no_wrapper in Hp as [Ho Hc].
  destruct (header_shape format_version digest covered Hf Hd) as (rest & -> & Hrest).
  destruct (header_occurrences rest Hrest) as [E1 E2].
  assert (∀ n, contains n text = false → occurrences n (strip text) = 0) as Hbody.
  { intros n Hn. apply contains_occurrences, not_true_iff_false.
    intros Hs%contains_strip. congruence. }
  pose proof (Hbody _ Ho) as B1. pose proof (Hbody _ Hc) as B2.
  change (String newline "" +:+ WRAPPER_CLOSE) with (String newline WRAPPER_CLOSE).
  change (String newline "" +:+ ?x) with (String newline x).
  split_and!; [| |by exists (strip text)]; unfold WRAPPER_OPEN, WRAPPER_CLOSE in *;
    rewrite !occurrences_newline by reflexivity; rewrite ?E1, ?E2, ?B1, ?B2; reflexivity.
Qed.

Definition example_summary : string :=
  join (String newline "") (flat_map (λ s, [HEADING +:+ s; "None."]) SECTIONS).

Lemma summary_block_contained_witness :
  ∃ block, render_summary_block SUMMARY_FORMAT "0a" [1; 2; 3]%Z example_summary = Ok block ∧
    occurrences WRAPPER_CLOSE block = 1.
Proof.
  eexists. split; [vm_compute; reflexivity|].
  apply (summary_block_contained SUMMARY_FORMAT "0a" [1; 2; 3]%Z example_summary);
    vm_compute; reflexivity.
Defined.

(** Case and white space do not hide a delimiter. *)
Example parse_summary_examples :
  parse_summary example_summary = Ok (replicate 6 "None.") ∧
  parse_summary (example_summary +:+ " <<  / Context-Summary>>") =
    Err (mkSummaryFormatError "wrapper delimiter in summary") ∧
  parse_summary ("hello" +:+ String newline example_summary) =
    Err (mkSummaryFormatError "text before the first section") ∧
  parse_summary "   " = Err (mkSummaryFormatError "empty summary").
Proof. vm_compute. done. Qed.
