(* ===== verification/ContextEngine.v ===== *)
(** The context engine: its contracts (src/context_engine/contracts.py), the
    rendering and selection of turns (selection.py), the reuse of checkpoints
    (checkpoints.py) and the strategies (engine.py).

    The host's estimator and the SHA-256 hex digest are parameters; the
    maintenance callback and the cancellation test act on a world of the host's
    and may raise. *)
From Stdlib Require Ascii.
Import (notations) Ascii.
From stdpp Require Import pretty.
From S2P Require Import Prelude Text Json Summary.

Local Open Scope string_scope.
Local Open Scope Z_scope.

(** * Contracts *)

Definition STRATEGIES : list string := ["compaction"; "hybrid"; "sliding_window"].
Definition SUMMARIZING_STRATEGIES : list string := ["compaction"; "hybrid"].

Inductive EngineError (X : Type) :=
| ContractError (message : string)
| Unavailable (reason : string)
| EngineRuntimeError (message : string)
| EngineKeyError (seq : Z)
| CallbackRaised (x : X).
Arguments ContractError {X} message.
Arguments Unavailable {X} reason.
Arguments EngineRuntimeError {X} message.
Arguments EngineKeyError {X} seq.
Arguments CallbackRaised {X} x.

Record HistoryRevision := mkHistoryRevision {
  hr_session_key : string;
  hr_generation : Z;
  hr_last_committed_seq : Z;
  hr_digest : string
}.
#[export] Instance HistoryRevision_eq_dec : EqDecision HistoryRevision.
Proof. solve_decision. Defined.

Record OrdinaryTurn := mkOrdinaryTurn {
  ot_seq : Z;
  ot_user_prompt : string;
  ot_plan_text : string;
  ot_completion_text : string
}.

Record ProtectedTurnState := mkProtectedTurnState {
  pt_seq : Z;
  pt_outcome : string;
  pt_effect_state : string;
  pt_approval_facts : list string
}.

Record HistorySnapshot := mkHistorySnapshot {
  hs_revision : HistoryRevision;
  hs_turns : list OrdinaryTurn;
  hs_protected : list ProtectedTurnState
}.

Record StrategyParameters := mkStrategyParameters {
  sp_anchor_input_tokens : Z;
  sp_compaction_tail_input_tokens : Z;
  sp_hybrid_tail_input_tokens : Z;
  sp_summary_output_tokens : Z;
  sp_max_maintenance_calls : Z;
  sp_prompt_version : string;
  sp_format_version : string
}.

Record ViewLimits := mkViewLimits {
  vl_history_input_tokens : Z;
  vl_source_max_bytes : Z;
  vl_transient_max_bytes : Z;
  vl_maintenance_input_tokens : Z;
  vl_maintenance_output_tokens : Z;
  vl_summary_max_bytes : Z;
  vl_estimate_history : string → Z;
  vl_estimator_id : string;
  vl_maintenance_calls_remaining : option Z
}.

Record MaintenanceRequest := mkMaintenanceRequest {
  mr_input_text : string;
  mr_covered_turn_ids : list Z;
  mr_max_output_tokens : Z;
  mr_prompt_version : string;
  mr_format_version : string
}.

Record MaintenanceResult := mkMaintenanceResult {
  mx_summary_text : option string;
  mx_attempt_ids : list string;
  mx_status : string;
  mx_finish_status : option string
}.

Record SummaryCheckpoint := mkSummaryCheckpoint {
  sk_revision : HistoryRevision;
  sk_covered_turn_ids : list Z;
  sk_source_digests : list string;
  sk_strategy : string;
  sk_parameters_digest : string;
  sk_format_version : string;
  sk_summary_text : string
}.

Record PreparedView := mkPreparedView {
  pv_head_turn_ids : list Z;
  pv_tail_turn_ids : list Z;
  pv_checkpoint : option SummaryCheckpoint;
  pv_protected : list ProtectedTurnState;
  pv_covered_turn_ids : list Z;
  pv_omitted_turn_ids : list Z;
  pv_available : bool;
  pv_reason : option string
}.

(** ** Validation *)

(** [_digest]: 64 lowercase hexadecimal digits. *)
Definition is_hex (c : Ascii.ascii) : bool :=
  let n := Ascii.nat_of_ascii c in
  (((48 <=? n) && (n <=? 57)) || ((97 <=? n) && (n <=? 102)))%nat.
Fixpoint all_hex (s : string) : bool :=
  match s with EmptyString => true | String c s' => is_hex c && all_hex s' end.
Definition is_digest (s : string) : bool := all_hex s && (String.length s =? 64)%nat.

(** [_ids]: at least one, strictly increasing. *)
Fixpoint increasing (l : list Z) : bool :=
  match l with
  | a :: (b :: _) as l' => (a <? b) && increasing l'
  | _ => true
  end.
Definition valid_ids (l : list Z) : bool := forallb (λ i, 1 <=? i) l && increasing l.

Definition nonempty (s : string) : bool := negb (String.eqb s "").

Definition HistoryRevision_valid (r : HistoryRevision) : bool :=
  nonempty (hr_session_key r) && (0 <=? hr_generation r) && (0 <=? hr_last_committed_seq r) &&
  is_digest (hr_digest r).

Definition OrdinaryTurn_valid (t : OrdinaryTurn) : bool := 1 <=? ot_seq t.

Definition ProtectedTurnState_valid (p : ProtectedTurnState) : bool :=
  (1 <=? pt_seq p) && nonempty (pt_outcome p) && nonempty (pt_effect_state p) &&
  forallb nonempty (pt_approval_facts p).

Definition snapshot_ids (s : HistorySnapshot) : list Z := ot_seq <$> hs_turns s.

Definition StrategyParameters_valid (p : StrategyParameters) : bool :=
  (0 <=? sp_anchor_input_tokens p) && (0 <=? sp_compaction_tail_input_tokens p) &&
  (0 <=? sp_hybrid_tail_input_tokens p) && (0 <=? sp_max_maintenance_calls p) &&
  (1 <=? sp_summary_output_tokens p) && nonempty (sp_prompt_version p) &&
  nonempty (sp_format_version p).

Definition ViewLimits_valid (l : ViewLimits) : bool :=
  (0 <=? vl_history_input_tokens l) && (0 <=? vl_source_max_bytes l) &&
  (0 <=? vl_transient_max_bytes l) && (0 <=? vl_maintenance_input_tokens l) &&
  (0 <=? vl_maintenance_output_tokens l) && (1 <=? vl_summary_max_bytes l) &&
  (vl_summary_max_bytes l <? vl_transient_max_bytes l) &&
  match vl_maintenance_calls_remaining l with Some n => 0 <=? n | None => true end &&
  nonempty (vl_estimator_id l).

Definition MaintenanceRequest_valid (r : MaintenanceRequest) : bool :=
  nonempty (mr_input_text r) && valid_ids (mr_covered_turn_ids r) &&
  negb (bool_decide (mr_covered_turn_ids r = [])) && (1 <=? mr_max_output_tokens r) &&
  nonempty (mr_prompt_version r) && nonempty (mr_format_version r).

Definition SummaryCheckpoint_valid (c : SummaryCheckpoint) : bool :=
  valid_ids (sk_covered_turn_ids c) && negb (bool_decide (sk_covered_turn_ids c = [])) &&
  (length (sk_source_digests c) =? length (sk_covered_turn_ids c))%nat &&
  forallb is_digest (sk_source_digests c) &&
  bool_decide (sk_strategy c ∈ SUMMARIZING_STRATEGIES) && is_digest (sk_parameters_digest c) &&
  nonempty (sk_format_version c) && nonempty (sk_summary_text c).

(** The four partitions are increasing, disjoint, and the covered turns are the
    checkpoint's. *)
Definition disjointb (l k : list Z) : bool := forallb (λ i, bool_decide (i ∉ k)) l.
Definition PreparedView_valid (v : PreparedView) : bool :=
  let '(h, t, c, o) := (pv_head_turn_ids v, pv_tail_turn_ids v, pv_covered_turn_ids v,
                        pv_omitted_turn_ids v) in
  valid_ids h && valid_ids t && valid_ids c && valid_ids o &&
  disjointb h t && disjointb (h ++ t)%list c && disjointb (h ++ t ++ c)%list o &&
  bool_decide (match pv_checkpoint v with Some k => sk_covered_turn_ids k | None => [] end = c) &&
  (pv_available v || match pv_reason v with Some r => nonempty r | None => false end) &&
  match pv_reason v with Some r => nonempty r | None => true end.

(** ** Digests *)

(** [n.to_bytes(8, "big")]. *)
Definition be8 (n : Z) : string :=
  let d k := Ascii.ascii_of_N (Z.to_N ((n / 256 ^ k) mod 256)) in
  String (d 7) (String (d 6) (String (d 5) (String (d 4)
    (String (d 3) (String (d 2) (String (d 1) (String (d 0) ""))))))).

Fixpoint frame (parts : list string) : string :=
  match parts with
  | [] => ""
  | p :: ps => be8 (Z.of_nat (String.length p)) +:+ p +:+ frame ps
  end.

Definition nul : string := String (byte_of 0) "".
Definition TURN_DOMAIN : string := "context-engine/turn-source/v1" +:+ nul.
Definition HISTORY_DOMAIN : string := "context-engine/history/v1" +:+ nul.
Definition PARAMETERS_DOMAIN : string := "context-engine/strategy-parameters/v1".

(** * Rendering and selection *)

Definition render_ordinary_turn (t : OrdinaryTurn) : string :=
  json_object [("seq", json_int (ot_seq t)); ("user_prompt", json_string (ot_user_prompt t));
               ("plan_text", json_string (ot_plan_text t));
               ("completion_text", json_string (ot_completion_text t))].

Definition render_protected_state (p : ProtectedTurnState) : string :=
  json_object [("seq", json_int (pt_seq p)); ("outcome", json_string (pt_outcome p));
               ("effect_state", json_string (pt_effect_state p));
               ("approval_facts", json_list (json_string <$> pt_approval_facts p))].

(** The loop of [newest_suffix_start], over the costs from the newest. *)
Fixpoint suffix_loop (budget : Z) (newest : list Z) (total : Z) (start : nat) : nat :=
  match newest with
  | [] => start
  | c :: older =>
      if budget <? total + c then start
      else suffix_loop budget older (total + c) (start - 1)
  end.

Definition newest_suffix_start (costs : list Z) (budget : Z) : nat :=
  suffix_loop budget (reverse costs) 0 (length costs).

Section engine.
(** The SHA-256 hex digest of bytes. *)
Variable sha256 : string → string.

Definition turn_source_digest (t : OrdinaryTurn) : string :=
  sha256 (TURN_DOMAIN +:+
    frame [pretty (ot_seq t); ot_user_prompt t; ot_plan_text t; ot_completion_text t]).

Fixpoint history_frames (turns : list OrdinaryTurn) (protected : list ProtectedTurnState) : string :=
  match turns, protected with
  | t :: turns', p :: protected' =>
      frame [turn_source_digest t; pretty (pt_seq p); pt_outcome p; pt_effect_state p;
             frame (pretty (Z.of_nat (length (pt_approval_facts p))) :: pt_approval_facts p)] +:+
      history_frames turns' protected'
  | _, _ => ""
  end.

Definition history_digest (turns : list OrdinaryTurn) (protected : list ProtectedTurnState)
    : string :=
  sha256 (HISTORY_DOMAIN +:+ be8 (Z.of_nat (length turns)) +:+ history_frames turns protected).

(** [HistorySnapshot.__post_init__], with the validation of its records. *)
Definition HistorySnapshot_valid (s : HistorySnapshot) : bool :=
  HistoryRevision_valid (hs_revision s) && forallb OrdinaryTurn_valid (hs_turns s) &&
  forallb ProtectedTurnState_valid (hs_protected s) &&
  valid_ids (snapshot_ids s) && bool_decide ((pt_seq <$> hs_protected s) = snapshot_ids s) &&
  (hr_last_committed_seq (hs_revision s) =? default 0 (last (snapshot_ids s))) &&
  bool_decide (hr_digest (hs_revision s) = history_digest (hs_turns s) (hs_protected s)).

(** [StrategyParameters.digest]: the fields and the domain, keys sorted. *)
Definition parameters_digest (p : StrategyParameters) : string :=
  sha256 (json_object
    [("anchor_input_tokens", json_int (sp_anchor_input_tokens p));
     ("compaction_tail_input_tokens", json_int (sp_compaction_tail_input_tokens p));
     ("domain", json_ascii_string PARAMETERS_DOMAIN);
     ("format_version", json_ascii_string (sp_format_version p));
     ("hybrid_tail_input_tokens", json_int (sp_hybrid_tail_input_tokens p));
     ("max_maintenance_calls", json_int (sp_max_maintenance_calls p));
     ("prompt_version", json_ascii_string (sp_prompt_version p));
     ("summary_output_tokens", json_int (sp_summary_output_tokens p))]).

(** * Checkpoints *)

Record ReuseResult := mkReuseResult {
  ru_checkpoint : option SummaryCheckpoint;
  ru_reason : option string
}.

Definition rejected (reason : string) : ReuseResult := mkReuseResult None (Some reason).

(** [position]: where a turn id stands in the snapshot. *)
Fixpoint position (ids : list Z) (seq : Z) : option nat :=
  match ids with
  | [] => None
  | i :: ids' => if decide (i = seq) then Some 0%nat else S <$> position ids' seq
  end.

Definition rekey (c : SummaryCheckpoint) (r : HistoryRevision) : SummaryCheckpoint :=
  mkSummaryCheckpoint r (sk_covered_turn_ids c) (sk_source_digests c) (sk_strategy c)
    (sk_parameters_digest c) (sk_format_version c) (sk_summary_text c).

Definition reuse_checkpoint (c : SummaryCheckpoint) (s : HistorySnapshot) (strategy : string)
    (parameters : StrategyParameters) : ReuseResult :=
  let earlier := sk_revision c in
  let current := hs_revision s in
  let ids := snapshot_ids s in
  let covered := sk_covered_turn_ids c in
  if negb (String.eqb (hr_session_key earlier) (hr_session_key current))
  then rejected "other session"
  else if (hr_generation current <? hr_generation earlier) ||
          (hr_last_committed_seq current <? hr_last_committed_seq earlier)
  then rejected "future revision"
  else if negb (String.eqb (sk_strategy c) strategy) then rejected "strategy mismatch"
  else if negb (String.eqb (sk_parameters_digest c) (parameters_digest parameters))
  then rejected "parameters mismatch"
  else if negb (String.eqb (sk_format_version c) (sp_format_version parameters))
  then rejected "format mismatch"
  else if existsb (λ seq, bool_decide (position ids seq = None)) covered
  then rejected "covered source missing"
  else
    let start := default 0%nat (position ids (default 0 (head covered))) in
    let allowed_starts := if String.eqb strategy "hybrid" then [0; 1]%nat else [0]%nat in
    let expected := take (length covered) (drop start ids) in
    if bool_decide (start ∉ allowed_starts) || bool_decide (expected ≠ covered)
    then rejected "coverage is not a prefix"
    else if existsb (λ sd, negb (String.eqb
              (match position ids sd.1 ≫= (λ i, hs_turns s !! i) with
               | Some t => turn_source_digest t | None => "" end) sd.2))
            (combine covered (sk_source_digests c))
    then rejected "covered source changed"
    else mkReuseResult (Some (rekey c current)) None.

Definition publish_checkpoint (candidate : SummaryCheckpoint) (current_revision : HistoryRevision)
    (current_parameters_digest : string) (cancelled : bool) : bool :=
  if cancelled then false
  else bool_decide (sk_revision candidate = current_revision) &&
       String.eqb (sk_parameters_digest candidate) current_parameters_digest.

(** * The strategies *)

Definition PRIOR_SUMMARY_HEADER : string := "prior summary:" +:+ String newline "".
Definition SEPARATOR : string := String newline "".

(** [len(text.encode("utf-8"))]. *)
Definition utf8_len (s : string) : Z := Z.of_nat (String.length s).

Definition maintenance_input (prior_summary : option string) (turns : list OrdinaryTurn) : string :=
  join SEPARATOR
    (match prior_summary with Some p => [PRIOR_SUMMARY_HEADER +:+ p] | None => [] end ++
     (render_ordinary_turn <$> turns))%list.

(** [_text_rejection]. *)
Definition text_rejection (limits : ViewLimits) (reserve : Z) (text : string) : option string :=
  if (reserve <? vl_estimate_history limits text) || (vl_summary_max_bytes limits <? utf8_len text)
  then Some "summary exceeds bound"
  else match parse_summary text with
       | Err _ => Some "summary malformed"
       | Ok _ => None
       end.

Section prepare.
(** The host's world and the exceptions its callbacks raise. *)
Context {W X : Type}.
Variable maintenance : MaintenanceRequest → W → res X MaintenanceResult * W.
Variable cancelled : W → bool * W.

(** The world, and the maintenance requests made so far. *)
Record EngineWorld := mkEngineWorld {
  ew_world : W;
  ew_requests : list MaintenanceRequest
}.
Abbreviation engine A := (eff EngineWorld (EngineError X) A).

Definition call_cancelled : engine bool := λ w,
  let '(b, w') := cancelled (ew_world w) in (Ok b, mkEngineWorld w' (ew_requests w)).

(** A maintenance call; building the request may raise. *)
Definition call_maintenance (request : MaintenanceRequest) : engine MaintenanceResult := λ w,
  if negb (MaintenanceRequest_valid request) then (Err (ContractError "MaintenanceRequest"), w)
  else
    let '(r, w') := maintenance request (ew_world w) in
    (match r with Ok x => Ok x | Err e => Err (CallbackRaised e) end,
     mkEngineWorld w' (ew_requests w ++ [request])%list).

Definition unavailable_if (b : bool) (reason : string) : engine unit :=
  if b then eff_raise (Unavailable reason) else eff_ret tt.

(** [_accepted_summary]. *)
Definition accepted_summary (limits : ViewLimits) (reserve : Z) (result : MaintenanceResult)
    : engine string :=
  if bool_decide (mx_status result ∈ ["unavailable"; "unsupported"])
  then eff_raise (Unavailable "maintenance unavailable")
  else if String.eqb (mx_status result) "allowance_exhausted"
  then eff_raise (Unavailable "maintenance allowance exceeded")
  else match mx_summary_text result with
       | Some text =>
           if negb (String.eqb (mx_status result) "completed") ||
              negb (bool_decide (mx_finish_status result = Some "stop")) || negb (nonempty text)
           then eff_raise (Unavailable "maintenance failed")
           else match text_rejection limits reserve text with
                | Some rejection => eff_raise (Unavailable rejection)
                | None => eff_ret text
                end
       | None => eff_raise (Unavailable "maintenance failed")
       end.

(** The inner loop of [_plan]: fill one chunk; returns it and the turns left. *)
Fixpoint plan_fill (limits : ViewLimits) (remaining : list OrdinaryTurn) (used used_bytes : Z)
    (chunk : list OrdinaryTurn) : list OrdinaryTurn * list OrdinaryTurn :=
  match remaining with
  | [] => (chunk, [])
  | t :: remaining' =>
      let rendered := render_ordinary_turn t in
      let extra := vl_estimate_history limits rendered +
        (if bool_decide (chunk = []) then 0 else vl_estimate_history limits SEPARATOR) in
      let extra_bytes := utf8_len rendered +
        (if bool_decide (chunk = []) then 0 else utf8_len SEPARATOR) in
      if (vl_maintenance_input_tokens limits <? used + extra) ||
         (vl_transient_max_bytes limits <? used_bytes + extra_bytes)
      then (chunk, remaining)
      else plan_fill limits remaining' (used + extra) (used_bytes + extra_bytes)
             (chunk ++ [t])%list
  end.

(** The outer loop of [_plan]; a turn is planned in every round, so the number of
    turns is enough fuel. [prior] is the size of the prior summary in tokens and
    bytes, header included. *)
Fixpoint plan_loop (fuel : nat) (limits : ViewLimits) (reserve : Z)
    (remaining : list OrdinaryTurn) (prior : option (Z * Z))
    : res string (list (list OrdinaryTurn)) :=
  match remaining with
  | [] => Ok []
  | _ :: _ =>
      match fuel with
      | O => Ok []
      | S fuel' =>
          let used := match prior with
                      | Some (cost, _) => cost + vl_estimate_history limits SEPARATOR
                      | None => 0 end in
          let used_bytes := match prior with
                            | Some (_, bytes) => bytes + utf8_len SEPARATOR
                            | None => 0 end in
          let '(chunk, rest) := plan_fill limits remaining used used_bytes [] in
          match chunk with
          | [] => Err "turn exceeds maintenance input"
          | _ :: _ =>
              let* chunks := plan_loop fuel' limits reserve rest
                (Some (vl_estimate_history limits PRIOR_SUMMARY_HEADER + reserve,
                       utf8_len PRIOR_SUMMARY_HEADER + vl_summary_max_bytes limits)) in
              Ok (chunk :: chunks)
          end
      end
  end.

Definition plan (limits : ViewLimits) (reserve : Z) (remaining : list OrdinaryTurn)
    (prior : option SummaryCheckpoint) : res string (list (list OrdinaryTurn)) :=
  plan_loop (length remaining) limits reserve remaining
    (match prior with
     | Some p => Some (vl_estimate_history limits (PRIOR_SUMMARY_HEADER +:+ sk_summary_text p),
                       utf8_len (PRIOR_SUMMARY_HEADER +:+ sk_summary_text p))
     | None => None
     end).

(** The loop of [_summarize] over the planned chunks. *)
Fixpoint summarize_loop (parameters : StrategyParameters) (limits : ViewLimits) (reserve : Z)
    (chunks : list (list OrdinaryTurn)) (summary_text : option string) (covered_so_far : list Z)
    : engine (option string * list Z) :=
  match chunks with
  | [] => eff_ret (summary_text, covered_so_far)
  | chunk :: chunks' =>
      let! stop := call_cancelled in
      unavailable_if stop "cancelled" ;;!
      let text := maintenance_input summary_text chunk in
      unavailable_if ((vl_maintenance_input_tokens limits <? vl_estimate_history limits text) ||
                      (vl_transient_max_bytes limits <? utf8_len text))
        "maintenance input exceeded" ;;!
      let covered_so_far := (covered_so_far ++ (ot_seq <$> chunk))%list in
      let! result := call_maintenance
        (mkMaintenanceRequest text covered_so_far reserve (sp_prompt_version parameters)
           (sp_format_version parameters)) in
      let! summary := accepted_summary limits reserve result in
      summarize_loop parameters limits reserve chunks' (Some summary) covered_so_far
  end.

(** [by_seq[seq]] for each of [seqs]. *)
Fixpoint turns_by_seq (s : HistorySnapshot) (seqs : list Z) : engine (list OrdinaryTurn) :=
  match seqs with
  | [] => eff_ret []
  | seq :: seqs' =>
      match od_get seq ((λ t, (ot_seq t, t)) <$> hs_turns s) with
      | None => eff_raise (EngineKeyError seq)
      | Some t => let! ts := turns_by_seq s seqs' in eff_ret (t :: ts)
      end
  end.

(** The checkpoint that may be reused or merged, if any. *)
Definition reusable_prior (s : HistorySnapshot) (covered : list Z) (strategy : string)
    (parameters : StrategyParameters) (limits : ViewLimits) (reserve : Z)
    (checkpoint : option SummaryCheckpoint) : option SummaryCheckpoint :=
  c ← checkpoint;
  reused ← ru_checkpoint (reuse_checkpoint c s strategy parameters);
  if bool_decide (take (length (sk_covered_turn_ids reused)) covered = sk_covered_turn_ids reused)
     && bool_decide (text_rejection limits reserve (sk_summary_text reused) = None)
  then Some reused else None.

(** The plan, with the fall-back to the source when a prior summary leaves no room
    for the next turn. *)
Definition plan_with_prior (s : HistorySnapshot) (covered : list Z) (limits : ViewLimits)
    (reserve : Z) (prior : option SummaryCheckpoint)
    : engine (option SummaryCheckpoint * list (list OrdinaryTurn)) :=
  let skip := match prior with Some p => length (sk_covered_turn_ids p) | None => 0%nat end in
  let! remaining := turns_by_seq s (drop skip covered) in
  match plan limits reserve remaining prior with
  | Ok chunks => eff_ret (prior, chunks)
  | Err reason =>
      match prior with
      | None => eff_raise (Unavailable reason)
      | Some _ =>
          let! all := turns_by_seq s covered in
          match plan limits reserve all None with
          | Ok chunks => eff_ret (None, chunks)
          | Err reason => eff_raise (Unavailable reason)
          end
      end
  end.

Definition allowance (parameters : StrategyParameters) (limits : ViewLimits) : Z :=
  match vl_maintenance_calls_remaining limits with
  | Some n => Z.min (sp_max_maintenance_calls parameters) n
  | None => sp_max_maintenance_calls parameters
  end.

(** [_summarize]. *)
Definition summarize (s : HistorySnapshot) (covered : list Z) (strategy : string)
    (parameters : StrategyParameters) (limits : ViewLimits)
    (checkpoint : option SummaryCheckpoint) (reserve : Z) : engine SummaryCheckpoint :=
  let! planned := plan_with_prior s covered limits reserve
    (reusable_prior s covered strategy parameters limits reserve checkpoint) in
  let '(prior, chunks) := planned in
  unavailable_if (allowance parameters limits <? Z.of_nat (length chunks))
    "maintenance allowance exceeded" ;;!
  let! done := summarize_loop parameters limits reserve chunks
    (sk_summary_text <$> prior)
    (match prior with Some p => sk_covered_turn_ids p | None => [] end) in
  let! stop := call_cancelled in
  unavailable_if stop "cancelled" ;;!
  match done with
  | (Some summary_text, covered_so_far) =>
      if bool_decide (covered_so_far ≠ covered)
      then eff_raise (EngineRuntimeError "maintenance plan did not cover the summarized range")
      else
        let! sources := turns_by_seq s covered in
        let checkpoint := mkSummaryCheckpoint (hs_revision s) covered
          (turn_source_digest <$> sources) strategy (parameters_digest parameters)
          (sp_format_version parameters) summary_text in
        if SummaryCheckpoint_valid checkpoint then eff_ret checkpoint
        else eff_raise (ContractError "SummaryCheckpoint")
  | (None, _) =>
      eff_raise (EngineRuntimeError "maintenance plan did not cover the summarized range")
  end.

(** The loop that gives turns of the tail to the summary until its reserve fits:
    the costs from [start] on, their sum, and [start]. *)
Fixpoint reserve_loop (room reserve : Z) (tail_costs : list Z) (tail_cost : Z) (start : nat)
    : Z * nat :=
  match tail_costs with
  | [] => (tail_cost, start)
  | c :: tail_costs' =>
      if room - tail_cost <? reserve
      then reserve_loop room reserve tail_costs' (tail_cost - c) (S start)
      else (tail_cost, start)
  end.

(** The start of the tail once the summary's reserve is set aside. *)
Definition choose_start (room reserve : Z) (head_end start0 : nat) (costs : list Z)
    : engine nat :=
  if (head_end <? start0)%nat then
    let '(tail_cost, start) :=
      reserve_loop room reserve (drop start0 costs) (sumZ (drop start0 costs)) start0 in
    unavailable_if (room - tail_cost <? reserve) "history capacity too small for a summary" ;;!
    eff_ret start
  else eff_ret start0.

(** Building a view may raise. *)
Definition make_view (v : PreparedView) : engine PreparedView :=
  if PreparedView_valid v then eff_ret v else eff_raise (ContractError "PreparedView").

(** [_prepare]. *)
Definition prepare (s : HistorySnapshot) (strategy : string) (parameters : StrategyParameters)
    (limits : ViewLimits) (checkpoint : option SummaryCheckpoint) : engine PreparedView :=
  let estimate := vl_estimate_history limits in
  let source_bytes := sumZ ((λ t, utf8_len (render_ordinary_turn t)) <$> hs_turns s) in
  unavailable_if (vl_source_max_bytes limits <? source_bytes) "source exceeds limit" ;;!
  let authority := sumZ ((λ p, estimate (render_protected_state p)) <$> hs_protected s) in
  unavailable_if (vl_history_input_tokens limits <? authority)
    "exact authority exceeds history capacity" ;;!
  let available := vl_history_input_tokens limits - authority in
  let ids := snapshot_ids s in
  let costs := (λ t, estimate (render_ordinary_turn t)) <$> hs_turns s in
  if String.eqb strategy "sliding_window" then
    let start := newest_suffix_start costs available in
    make_view (mkPreparedView [] (drop start ids) None (hs_protected s) [] (take start ids) true None)
  else
  let tail_allocation := if String.eqb strategy "hybrid" then sp_hybrid_tail_input_tokens parameters
                         else sp_compaction_tail_input_tokens parameters in
  if (newest_suffix_start costs (Z.min tail_allocation available) =? 0)%nat then
    make_view (mkPreparedView [] ids None (hs_protected s) [] [] true None)
  else
  let first_cost := head costs in
  let pinned := String.eqb strategy "hybrid" &&
    match first_cost with
    | Some c => (c <=? sp_anchor_input_tokens parameters) && (c <=? available)
    | None => false
    end in
  let head_end := if pinned then 1%nat else 0%nat in
  let room := available - (if pinned then default 0 first_cost else 0) in
  let start0 := Nat.max (newest_suffix_start costs (Z.min tail_allocation room)) head_end in
  let reserve := Z.min (sp_summary_output_tokens parameters) (vl_maintenance_output_tokens limits) in
  let! start := choose_start room reserve head_end start0 costs in
  let covered := take (start - head_end) (drop head_end ids) in
  let! summary :=
    if bool_decide (covered = []) then eff_ret None
    else
      unavailable_if (reserve <? 1) "maintenance unavailable" ;;!
      let! c := summarize s covered strategy parameters limits checkpoint reserve in
      eff_ret (Some c) in
  make_view (mkPreparedView (take head_end ids) (drop start ids) summary (hs_protected s) covered
               [] true None).

(** [prepare_view]: an unavailable view is a result. *)
Definition prepare_view (s : HistorySnapshot) (strategy : string) (parameters : StrategyParameters)
    (limits : ViewLimits) (checkpoint : option SummaryCheckpoint) : engine PreparedView :=
  if bool_decide (strategy ∉ STRATEGIES) then eff_raise (ContractError "unknown strategy")
  else if negb (String.eqb (sp_format_version parameters) SUMMARY_FORMAT)
  then eff_raise (ContractError "unsupported summary format")
  else λ w,
    match prepare s strategy parameters limits checkpoint w with
    | (Err (Unavailable reason), w') =>
        make_view (mkPreparedView [] [] None (hs_protected s) [] [] false (Some reason)) w'
    | rw => rw
    end.
End prepare.
End engine.

(** * Selection *)

Section selection_facts.
Implicit Types costs : list Z.

Lemma take_S_lookup {A} (l : list A) k x :
  l !! k = Some x → reverse (take (S k) l) = x :: reverse (take k l).
Proof. intros Hx. by rewrite (take_S_r l k x Hx), reverse_snoc. Qed.

Lemma drop_lookup_sum costs k c :
  costs !! k = Some c → sumZ (drop k costs) = c + sumZ (drop (S k) costs).
Proof. intros Hc. by rewrite (drop_S costs c k Hc). Qed.

Lemma suffix_loop_spec budget costs start :
  (start ≤ length costs)%nat →
  let n := suffix_loop budget (reverse (take start costs)) (sumZ (drop start costs)) start in
  (n ≤ start)%nat ∧ ((n < start)%nat → sumZ (drop n costs) ≤ budget) ∧
  ((0 < n)%nat → budget < sumZ (drop (n - 1) costs)).
Proof.
  induction start as [|k IH]; intros Hlen; [simpl; lia|].
  destruct (lookup_lt_is_Some_2 costs k) as [c Hc]; [lia|].
  rewrite (take_S_lookup costs k c Hc). cbn [suffix_loop].
  pose proof (drop_lookup_sum costs k c Hc) as Hs.
  destruct (Z.ltb_spec budget (sumZ (drop (S k) costs) + c)) as [Hlt|Hle].
  - simpl. rewrite Nat.sub_0_r. lia.
  - replace (sumZ (drop (S k) costs) + c) with (sumZ (drop k costs)) by lia.
    replace (S k - 1)%nat with k by lia.
    destruct IH as (H1 & H2 & H3); [lia|]. split_and!; [lia| |done].
    intros _. destruct (Nat.lt_trichotomy
      (suffix_loop budget (reverse (take k costs)) (sumZ (drop k costs)) k) k) as [Hn|[Hn|Hn]].
    + by apply H2.
    + rewrite Hn. lia.
    + lia.
Qed.

Lemma newest_suffix_spec costs budget :
  let n := newest_suffix_start costs budget in
  (n ≤ length costs)%nat ∧ ((n < length costs)%nat → sumZ (drop n costs) ≤ budget) ∧
  ((0 < n)%nat → budget < sumZ (drop (n - 1) costs)).
Proof.
  pose proof (suffix_loop_spec budget costs (length costs) (le_n _)) as Hs.
  rewrite firstn_all, drop_all in Hs. exact Hs.
Qed.

Lemma sumZ_drop_antitone costs m n :
  Forall (λ c, 0 ≤ c) costs → (m ≤ n)%nat → sumZ (drop n costs) ≤ sumZ (drop m costs).
Proof.
  intros Hf Hmn. pose proof (take_drop (n - m) (drop m costs)) as E.
  rewrite drop_drop in E. replace (m + (n - m))%nat with n in E by lia.
  rewrite <- E, sumZ_app. assert (0 ≤ sumZ (take (n - m) (drop m costs))); [|lia].
  apply sumZ_nonneg, Forall_take, Forall_drop. done.
Qed.

Lemma suffix_sum_le costs budget :
  0 ≤ budget → sumZ (drop (newest_suffix_start costs budget) costs) ≤ budget.
Proof.
  intros Hb. destruct (newest_suffix_spec costs budget) as (Hl & Hs & _).
  destruct (decide (newest_suffix_start costs budget < length costs)%nat); [auto|].
  rewrite drop_ge by lia. done.
Qed.
End selection_facts.

(** The turns kept exact are the longest run of the newest whole turns that
    fits the budget: with non-negative costs, the run from the returned start on
    fits (if the budget is not negative), and no longer run does. *)
Theorem newest_suffix_optimal costs budget :
  0 ≤ budget → Forall (λ c, 0 ≤ c) costs →
  let start := newest_suffix_start costs budget in
  (start ≤ length costs)%nat ∧ sumZ (drop start costs) ≤ budget ∧
  ∀ m, sumZ (drop m costs) ≤ budget → (start ≤ m)%nat.
Proof.
  intros Hb Hf start. destruct (newest_suffix_spec costs budget) as (Hl & _ & Hn).
  split_and!; [done|by apply suffix_sum_le|]. intros m Hm.
  destruct (decide (start ≤ m)%nat) as [|Hlt]; [done|]. exfalso.
  specialize (Hn ltac:(lia)).
  pose proof (sumZ_drop_antitone costs m (start - 1) Hf ltac:(lia)). unfold start in *. lia.
Qed.

Lemma newest_suffix_optimal_witness :
  newest_suffix_start [3; 9; 2; 4] 7 = 2%nat ∧
  ∀ m, sumZ (drop m [3; 9; 2; 4]) ≤ 7 → (2 ≤ m)%nat.
Proof.
  split; [reflexivity|].
  apply (newest_suffix_optimal [3; 9; 2; 4] 7); [lia|repeat constructor; lia].
Defined.

(** * Planning *)

(** The ids of turns, in order. *)
Lemma increasing_app l k : increasing (l ++ k)%list = true → increasing l = true ∧ increasing k = true.
Proof.
  induction l as [|a l IH]; [done|]. destruct l as [|b l]; simpl in *.
  - intros Hk. split; [done|]. destruct k; [done|]. by bool_to_prop.
  - intros [Hab Hl]%andb_true_iff. destruct (IH Hl) as [-> ->]. by rewrite Hab.
Qed.

Lemma valid_ids_app l k : valid_ids (l ++ k)%list = true → valid_ids l = true ∧ valid_ids k = true.
Proof.
  unfold valid_ids. rewrite forallb_app, !andb_true_iff. intros [[? ?] ?%increasing_app]. tauto.
Qed.

Lemma increasing_lt a l x : increasing (a :: l) = true → x ∈ l → a < x.
Proof.
  revert a. induction l as [|b l IH]; intros a Hi Hx; [set_solver|].
  cbn [increasing] in Hi. apply andb_true_iff in Hi as [Hab Hi]. apply Z.ltb_lt in Hab.
  apply elem_of_cons in Hx as [->|Hx]; [done|]. specialize (IH b Hi Hx). lia.
Qed.

Lemma increasing_nodup l : increasing l = true → NoDup l.
Proof.
  induction l as [|a l IH]; intros Hi; [constructor|]. apply NoDup_cons. split.
  - intros Hin. pose proof (increasing_lt a l a Hi Hin). lia.
  - apply IH. destruct l; [done|]. by apply andb_true_iff in Hi as [_ ?].
Qed.

Lemma utf8_len_app a b : utf8_len (a +:+ b) = utf8_len a + utf8_len b.
Proof. unfold utf8_len. rewrite string_length_app. lia. Qed.

Section planning.
Context (limits : ViewLimits) (reserve : Z).
Abbreviation est := (vl_estimate_history limits).
(** What [ViewLimits] requires of the host's estimator. *)
Hypothesis subadditive : ∀ a b, est (a +:+ b) ≤ est a + est b.

Lemma estimate_join parts :
  parts ≠ [] →
  est (join SEPARATOR parts) ≤
  sumZ (est <$> parts) + (Z.of_nat (length parts) - 1) * est SEPARATOR.
Proof.
  induction parts as [|p [|q parts] IH]; [done|intros _; simpl; lia|intros _].
  change (join SEPARATOR (p :: q :: parts)) with (p +:+ SEPARATOR +:+ join SEPARATOR (q :: parts)).
  specialize (IH ltac:(done)).
  pose proof (subadditive p (SEPARATOR +:+ join SEPARATOR (q :: parts))).
  pose proof (subadditive SEPARATOR (join SEPARATOR (q :: parts))).
  rewrite (fmap_cons _ p), sumZ_cons. cbn [length] in *. lia.
Qed.

Lemma utf8_len_join parts :
  parts ≠ [] →
  utf8_len (join SEPARATOR parts) =
  sumZ (utf8_len <$> parts) + (Z.of_nat (length parts) - 1) * utf8_len SEPARATOR.
Proof.
  induction parts as [|p [|q parts] IH]; [done|intros _; simpl; lia|intros _].
  change (join SEPARATOR (p :: q :: parts)) with (p +:+ SEPARATOR +:+ join SEPARATOR (q :: parts)).
  specialize (IH ltac:(done)). rewrite !utf8_len_app, (fmap_cons _ p), sumZ_cons, IH.
  cbn [length]. lia.
Qed.

(** The size of a chunk's turns in a maintenance input. *)
Definition chunk_size (size : string → Z) (chunk : list OrdinaryTurn) : Z :=
  sumZ ((λ t, size (render_ordinary_turn t)) <$> chunk) +
  (Z.of_nat (length chunk) - 1) * size SEPARATOR.

Lemma chunk_size_snoc size chunk t :
  chunk ≠ [] →
  chunk_size size (chunk ++ [t])%list =
  chunk_size size chunk + size (render_ordinary_turn t) + size SEPARATOR.
Proof.
  intros _. unfold chunk_size. rewrite fmap_app, sumZ_app, length_app. simpl. lia.
Qed.

(** The size of what precedes the turns: the prior summary and a separator. *)
Definition prior_tokens (prior : option (Z * Z)) : Z :=
  match prior with Some (cost, _) => cost + est SEPARATOR | None => 0 end.
Definition prior_bytes (prior : option (Z * Z)) : Z :=
  match prior with Some (_, bytes) => bytes + utf8_len SEPARATOR | None => 0 end.

Definition chunk_fits (prior : option (Z * Z)) (chunk : list OrdinaryTurn) : Prop :=
  prior_tokens prior + chunk_size est chunk ≤ vl_maintenance_input_tokens limits ∧
  prior_bytes prior + chunk_size utf8_len chunk ≤ vl_transient_max_bytes limits.

Lemma plan_fill_spec prior remaining used used_bytes chunk chunk' rest :
  (chunk = [] → used = prior_tokens prior ∧ used_bytes = prior_bytes prior) →
  (chunk ≠ [] → used = prior_tokens prior + chunk_size est chunk ∧
                used_bytes = prior_bytes prior + chunk_size utf8_len chunk ∧ chunk_fits prior chunk) →
  plan_fill limits remaining used used_bytes chunk = (chunk', rest) →
  (chunk' ++ rest = chunk ++ remaining)%list ∧ (chunk' ≠ [] → chunk_fits prior chunk').
Proof.
  revert used used_bytes chunk. induction remaining as [|t remaining IH];
    intros used used_bytes chunk H0 H1 Hp; cbn [plan_fill] in Hp.
  - simplify_eq. split; [done|]. intros Hne. by apply H1.
  - destruct ((_ <? _) || (_ <? _)) eqn:Hlim.
    + simplify_eq. split; [done|]. intros Hne. by apply H1.
    + apply orb_false_iff in Hlim as [Ht%Z.ltb_ge Hb%Z.ltb_ge].
      rewrite cons_middle, (assoc_L (++)%list). eapply IH; [| |exact Hp]; [by destruct chunk|].
      intros _. destruct (decide (chunk = [])) as [->|Hne].
      * destruct (H0 eq_refl) as [-> ->]. unfold chunk_fits, chunk_size. simpl in *. lia.
      * rewrite bool_decide_eq_false_2 in * by done. destruct (H1 Hne) as (-> & -> & _).
        unfold chunk_fits. rewrite !chunk_size_snoc by done. lia.
Qed.

(** A plan whose every chunk fits beside the prior summary it will meet. *)
Definition next_prior : option (Z * Z) :=
  Some (est PRIOR_SUMMARY_HEADER + reserve, utf8_len PRIOR_SUMMARY_HEADER + vl_summary_max_bytes limits).

Fixpoint plan_fits (prior : option (Z * Z)) (chunks : list (list OrdinaryTurn)) : Prop :=
  match chunks with
  | [] => True
  | chunk :: chunks' => chunk ≠ [] ∧ chunk_fits prior chunk ∧ plan_fits next_prior chunks'
  end.

Lemma plan_loop_spec fuel remaining prior chunks :
  (length remaining ≤ fuel)%nat →
  plan_loop fuel limits reserve remaining prior = Ok chunks →
  concat chunks = remaining ∧ plan_fits prior chunks.
Proof.
  revert remaining prior chunks. induction fuel as [|fuel IH]; intros remaining prior chunks Hl Hp.
  - destruct remaining; [|simpl in Hl; lia]. by simplify_eq/=.
  - destruct remaining as [|t remaining]; [by simplify_eq/=|]. cbn [plan_loop] in Hp.
    destruct (plan_fill _ _ _ _ _) as [chunk rest] eqn:Hf.
    apply (plan_fill_spec prior) in Hf as [Happ Hfit]; [|intros _; by destruct prior as [[]|]|done].
    destruct chunk as [|u chunk]; [done|].
    apply res_bind_ok in Hp as (chunks' & Hp & [= <-]). simpl in Happ.
    apply IH in Hp as [Hc Hfits].
    + split; [simpl; by rewrite Hc|]. split; [done|]. split; [by apply Hfit|done].
    + apply (f_equal length) in Happ. simpl in Happ, Hl. rewrite length_app in Happ. lia.
Qed.

(** A summary the host may rely on fits the place planned for it. *)
Lemma accepted_fits text :
  text_rejection limits reserve text = None →
  est (PRIOR_SUMMARY_HEADER +:+ text) ≤ est PRIOR_SUMMARY_HEADER + reserve ∧
  utf8_len (PRIOR_SUMMARY_HEADER +:+ text) ≤
    utf8_len PRIOR_SUMMARY_HEADER + vl_summary_max_bytes limits.
Proof.
  unfold text_rejection. destruct ((_ <? _) || (_ <? _)) eqn:E; [done|]. intros _.
  apply orb_false_iff in E as [E1%Z.ltb_ge E2%Z.ltb_ge].
  pose proof (subadditive PRIOR_SUMMARY_HEADER text). split; [lia|].
  rewrite utf8_len_app. lia.
Qed.

(** The prior summary is within its planned size. *)
Definition prior_within (summary : option string) (prior : option (Z * Z)) : Prop :=
  match summary, prior with
  | None, None => True
  | Some text, Some (cost, bytes) =>
      est (PRIOR_SUMMARY_HEADER +:+ text) ≤ cost ∧ utf8_len (PRIOR_SUMMARY_HEADER +:+ text) ≤ bytes
  | _, _ => False
  end.

Definition input_fits (text : string) : Prop :=
  est text ≤ vl_maintenance_input_tokens limits ∧ utf8_len text ≤ vl_transient_max_bytes limits.

Lemma maintenance_input_fits summary prior chunk :
  prior_within summary prior → chunk ≠ [] → chunk_fits prior chunk →
  input_fits (maintenance_input summary chunk).
Proof.
  intros Hw Hne [Ht Hb]. unfold input_fits, maintenance_input.
  set (parts := (_ ++ _)%list).
  assert (parts ≠ []) as Hp by (unfold parts; destruct summary, chunk; done).
  pose proof (estimate_join parts Hp) as E1. pose proof (utf8_len_join parts Hp) as E2.
  assert (∀ size : string → Z, sumZ (size <$> parts) =
    (match summary with Some p => size (PRIOR_SUMMARY_HEADER +:+ p) | None => 0 end) +
    sumZ ((λ t, size (render_ordinary_turn t)) <$> chunk)) as Es.
  { intros size. unfold parts. rewrite fmap_app, sumZ_app, <- list_fmap_compose.
    destruct summary; simpl; unfold compose; lia. }
  assert (Z.of_nat (length parts) = (if summary then 1 else 0) + Z.of_nat (length chunk)) as El.
  { unfold parts. rewrite length_app, length_fmap. destruct summary; simpl; lia. }
  rewrite Es, El in E1, E2. unfold chunk_size in *.
  destruct summary as [text|], prior as [[cost bytes]|]; try done; simpl in *;
    unfold prior_tokens, prior_bytes in *; nia.
Qed.
End planning.

(** * Summarization *)

Section summarization.
Context (sha256 : string → string) {W X : Type}.
Context (maintenance : MaintenanceRequest → W → res X MaintenanceResult * W).
Context (cancelled : W → bool * W).
Context (s : HistorySnapshot) (strategy : string) (parameters : StrategyParameters).
Context (limits : ViewLimits) (reserve : Z).
Hypothesis sha256_digest : ∀ x, is_digest (sha256 x) = true.
Hypothesis subadditive :
  ∀ a b, vl_estimate_history limits (a +:+ b) ≤ vl_estimate_history limits a + vl_estimate_history limits b.
Hypothesis snapshot_valid : HistorySnapshot_valid sha256 s = true.
Hypothesis parameters_valid : StrategyParameters_valid parameters = true.
Hypothesis reserve_pos : 1 ≤ reserve.
Implicit Types w : EngineWorld (W := W).

(** The exceptions that may end a summarization: the view is unavailable, but
    never because a planned input turned out too large, or the callback raised. *)
Definition expected_error (e : EngineError X) : Prop :=
  match e with
  | Unavailable reason => reason ≠ "maintenance input exceeded" ∧ reason ≠ ""
  | CallbackRaised _ => True
  | _ => False
  end.

Definition request_ok (r : MaintenanceRequest) : Prop :=
  MaintenanceRequest_valid r = true ∧ input_fits limits (mr_input_text r).

(** [w'] is reached from [w] by making the requests [new]. *)
Definition requested w w' (new : list MaintenanceRequest) : Prop :=
  ew_requests w' = (ew_requests w ++ new)%list ∧ Forall request_ok new.

Lemma requested_nil w w' : ew_requests w' = ew_requests w → requested w w' [].
Proof. intros E. split; [by rewrite app_nil_r|constructor]. Qed.

Lemma requested_trans w1 w2 w3 new1 new2 :
  requested w1 w2 new1 → requested w2 w3 new2 → requested w1 w3 (new1 ++ new2)%list.
Proof.
  intros [E1 F1] [E2 F2]. split; [by rewrite E2, E1, (assoc_L (++)%list)|by apply Forall_app].
Qed.

Lemma call_cancelled_requests w r w' :
  call_cancelled (X := X) cancelled w = (r, w') →
  ew_requests w' = ew_requests w ∧ ∃ b, r = Ok b.
Proof. unfold call_cancelled. destruct (cancelled _). intros [= <- <-]. eauto. Qed.

Lemma unavailable_if_cases b reason w r w' :
  unavailable_if (X := X) b reason w = (r, w') →
  w' = w ∧ r = if b then Err (Unavailable reason) else Ok tt.
Proof. unfold unavailable_if. by destruct b; intros [= <- <-]. Qed.

Lemma text_rejection_reason text m :
  text_rejection limits reserve text = Some m →
  m = "summary exceeds bound" ∨ m = "summary malformed".
Proof.
  unfold text_rejection. destruct (_ || _); [intros [= <-]; by left|].
  destruct (parse_summary text); intros [= <-]. by right.
Qed.

Lemma accepted_summary_cases result w r w' :
  accepted_summary (X := X) limits reserve result w = (r, w') →
  w' = w ∧
  match r with
  | Ok text => text_rejection limits reserve text = None ∧ nonempty text = true
  | Err e => expected_error e
  end.
Proof.
  unfold accepted_summary, eff_raise, eff_ret. intros H.
  destruct (bool_decide _); [by simplify_eq|]. destruct (String.eqb _ _); [by simplify_eq|].
  destruct (mx_summary_text result) as [text|]; [|by simplify_eq].
  destruct (_ || _) eqn:E; [by simplify_eq|].
  destruct (text_rejection limits reserve text) as [m|] eqn:Er; simplify_eq.
  - split; [done|]. by destruct (text_rejection_reason _ _ Er) as [-> | ->].
  - split; [done|]. split; [done|]. apply orb_false_iff in E as [_ E].
    by apply negb_false_iff in E.
Qed.

Lemma render_nonempty t : nonempty (render_ordinary_turn t) = true.
Proof. reflexivity. Qed.

Lemma nonempty_app a b : nonempty a = true ∨ nonempty b = true → nonempty (a +:+ b) = true.
Proof. destruct a; [|done]. by intros [|]. Qed.

Lemma maintenance_input_nonempty summary chunk :
  chunk ≠ [] → nonempty (maintenance_input summary chunk) = true.
Proof.
  intros Hne. unfold maintenance_input. destruct summary as [p|]; simpl.
  - destruct chunk; done.
  - destruct chunk as [|t [|u chunk]]; [done|apply render_nonempty|].
    cbn [fmap list_fmap join]. apply nonempty_app. left. apply render_nonempty.
Qed.

Lemma request_valid summary chunk covered_so_far covered rest :
  (covered_so_far ++ (ot_seq <$> chunk) ++ rest)%list = covered → valid_ids covered = true →
  chunk ≠ [] →
  MaintenanceRequest_valid
    (mkMaintenanceRequest (maintenance_input summary chunk) (covered_so_far ++ (ot_seq <$> chunk))%list
       reserve (sp_prompt_version parameters) (sp_format_version parameters)) = true.
Proof.
  intros Hc Hv Hne. unfold MaintenanceRequest_valid. simpl.
  rewrite maintenance_input_nonempty by done.
  rewrite (assoc_L (++)%list) in Hc. subst covered. apply valid_ids_app in Hv as [-> _].
  rewrite bool_decide_eq_false_2 by (destruct covered_so_far, chunk; done).
  pose proof parameters_valid as Hp. unfold StrategyParameters_valid in Hp. bool_to_prop.
  rewrite !andb_true_iff. split_and!; try done. by apply Z.leb_le.
Qed.

Lemma call_maintenance_cases request w r w' :
  MaintenanceRequest_valid request = true → input_fits limits (mr_input_text request) →
  call_maintenance maintenance request w = (r, w') →
  requested w w' [request] ∧ match r with Ok _ => True | Err e => expected_error e end.
Proof.
  intros Hv Hf. unfold call_maintenance. rewrite Hv. simpl.
  destruct (maintenance _ _) as [[x|e] w1]; intros [= <- <-]; (split; [|done]);
    (split; [done|by apply Forall_singleton]).
Qed.

(** What the summarization loop does: it makes at most one request per chunk,
    each valid and within its limits. *)
Lemma summarize_loop_spec chunks summary prior covered_so_far covered w r w' :
  plan_fits limits reserve prior chunks → prior_within limits summary prior →
  (covered_so_far ++ (ot_seq <$> concat chunks))%list = covered → valid_ids covered = true →
  summarize_loop maintenance cancelled parameters limits reserve chunks summary covered_so_far w
    = (r, w') →
  ∃ new, requested w w' new ∧ (length new ≤ length chunks)%nat ∧
    match r with
    | Ok (text, cov) => cov = covered ∧
        if decide (chunks = []) then text = summary
        else ∃ t, text = Some t ∧ text_rejection limits reserve t = None ∧ nonempty t = true
    | Err e => expected_error e
    end.
Proof.
  revert summary prior covered_so_far w.
  induction chunks as [|chunk chunks IH]; intros summary prior covered_so_far w Hfit Hw Hcov Hv Hr.
  { cbn [summarize_loop] in Hr. unfold eff_ret in Hr. simplify_eq.
    exists []. split; [by apply requested_nil|]. split; [done|]. simpl.
    by rewrite app_nil_r. }
  destruct Hfit as (Hne & Hcf & Hfits). cbn [summarize_loop] in Hr.
  apply eff_bind_eq in Hr as [(stop & w1 & H1 & Hr)|(e & H1 & ->)];
    apply call_cancelled_requests in H1 as [E1 [b Hb]]; [|done]. injection Hb as ->.
  apply eff_bind_eq in Hr as [([] & w2 & H2 & Hr)|(e & H2 & ->)];
    apply unavailable_if_cases in H2 as [-> H2].
  2: { exists []. split; [by apply requested_nil|]. split; [simpl; lia|]. destruct b; by simplify_eq. }
  pose proof (maintenance_input_fits limits subadditive summary prior chunk Hw Hne Hcf) as Hin.
  apply eff_bind_eq in Hr as [([] & w3 & H3 & Hr)|(e & H3 & ->)];
    apply unavailable_if_cases in H3 as [-> H3].
  2: { exfalso. destruct Hin as [Hi1 Hi2]. apply Z.ltb_ge in Hi1, Hi2. rewrite Hi1, Hi2 in H3. done. }
  cbn [concat] in Hcov. rewrite fmap_app in Hcov.
  apply eff_bind_eq in Hr as [(result & w4 & H4 & Hr)|(e & H4 & ->)];
    apply call_maintenance_cases in H4 as [R4 H4];
    try (by eapply request_valid); try done.
  2: { eexists. split; [eapply requested_trans; [by apply requested_nil|exact R4]|].
       split; [simpl; lia|done]. }
  apply eff_bind_eq in Hr as [(text & w5 & H5 & Hr)|(e & H5 & ->)];
    apply accepted_summary_cases in H5 as [-> H5].
  2: { eexists. split; [eapply requested_trans; [by apply requested_nil|exact R4]|].
       split; [simpl; lia|done]. }
  destruct H5 as [Htext Htne].
  apply (IH _ (next_prior limits reserve)) in Hr as (new & Rn & Ln & Hres);
    [|done|by apply accepted_fits|by rewrite <- (assoc_L (++)%list)|done].
  eexists. split; [eapply requested_trans; [by apply requested_nil|
    eapply requested_trans; [exact R4|exact Rn]]|].
  split; [simpl; lia|]. destruct r as [[txt cov]|e]; [|done].
  destruct Hres as [-> Hres]. split; [done|]. simpl.
  destruct (decide (chunks = [])) as [->|]; [subst txt; by exists text|done].
Qed.

Lemma snapshot_ids_valid : valid_ids (snapshot_ids s) = true.
Proof. pose proof snapshot_valid as Hs. unfold HistorySnapshot_valid in Hs. by bool_to_prop. Qed.

Lemma snapshot_ids_nodup : NoDup (snapshot_ids s).
Proof.
  pose proof snapshot_ids_valid as Hs. unfold valid_ids in Hs. bool_to_prop.
  by apply increasing_nodup.
Qed.

Lemma turns_by_seq_ok ts w :
  ts ⊆ hs_turns s → turns_by_seq (X := X) s (ot_seq <$> ts) w = (Ok ts, w).
Proof.
  intros Hsub. revert w. induction ts as [|t ts IH]; intros w; [done|].
  cbn [fmap list_fmap turns_by_seq].
  assert (od_get (ot_seq t) ((λ t, (ot_seq t, t)) <$> hs_turns s) = Some t) as ->.
  { apply od_in_get.
    - unfold od_keys. rewrite <- list_fmap_compose. apply snapshot_ids_nodup.
    - apply list_elem_of_fmap. exists t. split; [done|]. apply Hsub. set_solver. }
  unfold eff_bind. fold (ot_seq <$> ts). rewrite IH by set_solver. done.
Qed.

Lemma plan_loop_error fuel remaining prior reason :
  plan_loop fuel limits reserve remaining prior = Err reason → reason = "turn exceeds maintenance input".
Proof.
  revert remaining prior. induction fuel as [|fuel IH]; intros remaining prior Hp;
    destruct remaining; try done. cbn [plan_loop] in Hp.
  destruct (plan_fill _ _ _ _ _) as [[|u chunk] rest]; [by simplify_eq|].
  apply res_bind_err in Hp as [Hp|(? & _ & ?)]; [by eapply IH|done].
Qed.

Lemma plan_spec remaining prior chunks :
  plan limits reserve remaining prior = Ok chunks →
  concat chunks = remaining ∧
  plan_fits limits reserve
    (match prior with
     | Some p => Some (vl_estimate_history limits (PRIOR_SUMMARY_HEADER +:+ sk_summary_text p),
                       utf8_len (PRIOR_SUMMARY_HEADER +:+ sk_summary_text p))
     | None => None end) chunks.
Proof. apply plan_loop_spec. done. Qed.

Definition prior_covered (prior : option SummaryCheckpoint) : list Z :=
  match prior with Some p => sk_covered_turn_ids p | None => [] end.

(** The plan covers the range, each chunk fitting beside the prior summary. *)
Lemma plan_with_prior_spec ts prior w r w' :
  ts ⊆ hs_turns s →
  take (length (prior_covered prior)) (ot_seq <$> ts) = prior_covered prior →
  plan_with_prior (X := X) s (ot_seq <$> ts) limits reserve prior w = (r, w') →
  w' = w ∧
  match r with
  | Ok (prior', chunks) => (prior' = prior ∨ prior' = None) ∧
      (prior_covered prior' ++ (ot_seq <$> concat chunks))%list = ot_seq <$> ts ∧
      ∃ pw, plan_fits limits reserve pw chunks ∧ prior_within limits (sk_summary_text <$> prior') pw
  | Err e => expected_error e
  end.
Proof.
  intros Hsub Hcov. unfold plan_with_prior.
  set (skip := match prior with Some p => _ | None => _ end).
  assert (skip = length (prior_covered prior)) as Eskip by by destruct prior.
  rewrite Eskip, <- fmap_drop. unfold eff_bind.
  rewrite turns_by_seq_ok by (etrans; [apply subseteq_drop|done]).
  destruct (plan limits reserve _ prior) as [chunks|reason] eqn:Hp.
  - intros [= <- <-]. split; [done|]. apply plan_spec in Hp as [Hc Hf].
    split_and!; [by left| |].
    + rewrite Hc, fmap_drop. rewrite <- Hcov at 1. by rewrite take_drop.
    + eexists. split; [exact Hf|]. by destruct prior.
  - destruct prior as [p|].
    + rewrite turns_by_seq_ok by done.
      destruct (plan limits reserve ts None) as [chunks|reason'] eqn:Hp'; intros [= <- <-].
      * split; [done|]. apply plan_spec in Hp' as [Hc Hf]. split_and!; [by right| |by exists None].
        simpl. by rewrite Hc.
      * split; [done|]. apply plan_loop_error in Hp' as ->. done.
    + intros [= <- <-]. split; [done|]. apply plan_loop_error in Hp as ->. done.
Qed.

Lemma reusable_prior_spec covered checkpoint :
  match checkpoint with Some c => SummaryCheckpoint_valid c = true | None => True end →
  let prior := reusable_prior sha256 s covered strategy parameters limits reserve checkpoint in
  take (length (prior_covered prior)) covered = prior_covered prior ∧
  match prior with
  | Some p => text_rejection limits reserve (sk_summary_text p) = None ∧
              nonempty (sk_summary_text p) = true
  | None => True
  end.
Proof.
  intros Hval. simpl. unfold reusable_prior. destruct checkpoint as [c|]; [|done]. simpl.
  destruct (ru_checkpoint _) as [reused|] eqn:Hru; [|done]. simpl.
  destruct (bool_decide _ && bool_decide _) eqn:E; [|done]. bool_to_prop. simpl.
  split_and!; [done|done|].
  assert (sk_summary_text reused = sk_summary_text c) as ->.
  { unfold reuse_checkpoint in Hru. repeat case_match; by simplify_eq/=. }
  unfold SummaryCheckpoint_valid in Hval. by bool_to_prop.
Qed.

(** The checkpoint a summarization returns. *)
Record summary_ok (ts : list OrdinaryTurn) (c : SummaryCheckpoint) : Prop := {
  so_valid : SummaryCheckpoint_valid c = true;
  so_covered : sk_covered_turn_ids c = ot_seq <$> ts;
  so_revision : sk_revision c = hs_revision s;
  so_sources : sk_source_digests c = turn_source_digest sha256 <$> ts;
  so_parameters : sk_parameters_digest c = parameters_digest sha256 parameters ∧
                  sk_strategy c = strategy ∧ sk_format_version c = sp_format_version parameters;
  so_text : text_rejection limits reserve (sk_summary_text c) = None
}.

Lemma summary_valid ts text :
  ts ≠ [] → valid_ids (ot_seq <$> ts) = true → strategy ∈ SUMMARIZING_STRATEGIES →
  nonempty text = true →
  SummaryCheckpoint_valid (mkSummaryCheckpoint (hs_revision s) (ot_seq <$> ts)
    (turn_source_digest sha256 <$> ts) strategy (parameters_digest sha256 parameters)
    (sp_format_version parameters) text) = true.
Proof.
  intros Hne Hv Hstr Htext. unfold SummaryCheckpoint_valid. simpl.
  rewrite Hv, !length_fmap, Nat.eqb_refl, Htext.
  rewrite bool_decide_eq_false_2 by by destruct ts. rewrite bool_decide_eq_true_2 by done.
  pose proof parameters_valid as Hp. unfold StrategyParameters_valid in Hp. bool_to_prop.
  simpl. rewrite !andb_true_iff. split_and!; try done; [|apply sha256_digest].
  apply forallb_forall. intros d Hd. apply list_elem_of_In, list_elem_of_fmap in Hd as (t & -> & _).
  apply sha256_digest.
Qed.

Lemma summarize_spec ts checkpoint w r w' :
  ts ⊆ hs_turns s → ts ≠ [] → valid_ids (ot_seq <$> ts) = true →
  strategy ∈ SUMMARIZING_STRATEGIES →
  match checkpoint with Some c => SummaryCheckpoint_valid c = true | None => True end →
  summarize sha256 maintenance cancelled s (ot_seq <$> ts) strategy parameters limits checkpoint
    reserve w = (r, w') →
  ∃ new, requested w w' new ∧ Z.of_nat (length new) ≤ Z.max 0 (allowance parameters limits) ∧
    match r with Ok c => summary_ok ts c | Err e => expected_error e end.
Proof.
  intros Hsub Hne Hv Hstr Hcp Hr. unfold summarize in Hr.
  destruct (reusable_prior_spec (ot_seq <$> ts) checkpoint Hcp) as [Hpc Hpt].
  set (prior := reusable_prior _ _ _ _ _ _ _ _) in *.
  apply eff_bind_eq in Hr as [([prior' chunks] & w1 & H1 & Hr)|(e & H1 & ->)];
    apply plan_with_prior_spec in H1 as [-> H1]; try done.
  2: { exists []. split; [by apply requested_nil|]. simpl. split; [lia|done]. }
  destruct H1 as (Hpr & Hcov & pw & Hfit & Hwithin).
  apply eff_bind_eq in Hr as [([] & w2 & H2 & Hr)|(e & H2 & ->)];
    apply unavailable_if_cases in H2 as [-> H2].
  2: { exists []. split; [by apply requested_nil|]. split; [simpl; lia|].
       destruct (_ <? _); by simplify_eq. }
  destruct (Z.ltb_spec (allowance parameters limits) (Z.of_nat (length chunks))); [done|].
  apply eff_bind_eq in Hr as [([text cov] & w3 & H3 & Hr)|(e & H3 & ->)];
    eapply summarize_loop_spec in H3 as (new & Rn & Ln & H3); try done.
  2: { exists new. split; [done|]. split; [lia|done]. }
  destruct H3 as [-> Htext]. exists new.
  apply eff_bind_eq in Hr as [(stop & w4 & H4 & Hr)|(e & H4 & ->)];
    apply call_cancelled_requests in H4 as [E4 [b Hb]]; [|done]. injection Hb as ->.
  assert (requested w w4 new) as R4 by (destruct Rn as [En Fn]; split; [by rewrite E4|done]).
  apply eff_bind_eq in Hr as [([] & w5 & H5 & Hr)|(e & H5 & ->)];
    apply unavailable_if_cases in H5 as [-> H5].
  2: { split; [done|]. split; [lia|]. destruct b; by simplify_eq. }
  assert (∃ txt, text = Some txt ∧ text_rejection limits reserve txt = None ∧ nonempty txt = true)
    as (txt & -> & Hrej & Htne).
  { destruct (decide (chunks = [])) as [->|]; [|done]. subst text.
    destruct prior' as [p|].
    - destruct Hpr as [Hpr|[=]]. rewrite <- Hpr in Hpt. by exists (sk_summary_text p).
    - simpl in Hcov. destruct ts; done. }
  rewrite bool_decide_eq_false_2 in Hr by (intros Hx; by apply Hx).
  unfold eff_bind in Hr. rewrite turns_by_seq_ok in Hr by done.
  rewrite summary_valid in Hr by done. unfold eff_ret in Hr. simplify_eq.
  split; [done|]. split; [lia|]. split; simpl; try done. by apply summary_valid.
Qed.
End summarization.

(** * The view *)

Section views.
Context (sha256 : string → string) {W X : Type}.
Context (maintenance : MaintenanceRequest → W → res X MaintenanceResult * W).
Context (cancelled : W → bool * W).
Context (s : HistorySnapshot) (strategy : string) (parameters : StrategyParameters).
Context (limits : ViewLimits) (checkpoint : option SummaryCheckpoint).
Abbreviation estimate := (vl_estimate_history limits).
Abbreviation turn_cost := (λ t, vl_estimate_history limits (render_ordinary_turn t)).

(** What the host provides: a digest that is one, a subadditive non-negative
    estimator, and records that passed their own validation. *)
Record host_contract : Prop := {
  hc_digest x : is_digest (sha256 x) = true;
  hc_subadditive a b : estimate (a +:+ b) ≤ estimate a + estimate b;
  hc_nonneg a : 0 ≤ estimate a;
  hc_snapshot : HistorySnapshot_valid sha256 s = true;
  hc_parameters : StrategyParameters_valid parameters = true;
  hc_limits : ViewLimits_valid limits = true;
  hc_checkpoint : match checkpoint with Some c => SummaryCheckpoint_valid c = true | None => True end
}.
Hypothesis contract : host_contract.
Implicit Types w : EngineWorld (W := W).

Definition authority_cost : Z := sumZ ((λ p, estimate (render_protected_state p)) <$> hs_protected s).
Definition turns_cost (ts : list OrdinaryTurn) : Z := sumZ (turn_cost <$> ts).
Definition summary_cost (v : PreparedView) : Z :=
  match pv_checkpoint v with Some c => estimate (sk_summary_text c) | None => 0 end.

(** A summary is bound to the revision and the sources of the turns it covers. *)
Definition bound_to (cv : list OrdinaryTurn) (ck : option SummaryCheckpoint) : Prop :=
  match ck with
  | Some c => sk_revision c = hs_revision s ∧ sk_covered_turn_ids c = ot_seq <$> cv ∧
              sk_source_digests c = turn_source_digest sha256 <$> cv
  | None => True
  end.

(** An available view: the history splits into the omitted, the head, the covered
    and the tail turns, in this order; every protected record is there; and the
    exact turns, the summary and the protected records fit the history's
    tokens. *)
Record view_ok (v : PreparedView) : Prop := {
  vo_valid : PreparedView_valid v = true;
  vo_available : pv_available v = true;
  vo_reason : pv_reason v = None;
  vo_protected : pv_protected v = hs_protected s;
  vo_partition : ∃ om hd cv tl, hs_turns s = (om ++ hd ++ cv ++ tl)%list ∧
    pv_omitted_turn_ids v = ot_seq <$> om ∧ pv_head_turn_ids v = ot_seq <$> hd ∧
    pv_covered_turn_ids v = ot_seq <$> cv ∧ pv_tail_turn_ids v = ot_seq <$> tl ∧
    (cv = [] ↔ pv_checkpoint v = None) ∧ bound_to cv (pv_checkpoint v) ∧
    authority_cost + turns_cost hd + turns_cost tl + summary_cost v ≤ vl_history_input_tokens limits
}.

Lemma disjointb_true l k : (∀ x, x ∈ l → x ∈ k → False) → disjointb l k = true.
Proof.
  intros Hd. apply forallb_forall. intros x Hx. apply bool_decide_eq_true_2. intros Hk.
  by apply (Hd x); [apply list_elem_of_In|].
Qed.

Lemma partition_valid om hd cv tl ck :
  hs_turns s = (om ++ hd ++ cv ++ tl)%list →
  match ck with Some c => sk_covered_turn_ids c | None => [] end = ot_seq <$> cv →
  PreparedView_valid (mkPreparedView (ot_seq <$> hd) (ot_seq <$> tl) ck (hs_protected s)
    (ot_seq <$> cv) (ot_seq <$> om) true None) = true.
Proof.
  intros Ht Hck. pose proof (snapshot_ids_valid sha256 s (hc_snapshot contract)) as Hv.
  pose proof (snapshot_ids_nodup sha256 s (hc_snapshot contract)) as Hnd.
  unfold snapshot_ids in Hv, Hnd. rewrite Ht, !fmap_app in Hv, Hnd.
  apply valid_ids_app in Hv as [V1 Hv]. apply valid_ids_app in Hv as [V2 Hv].
  apply valid_ids_app in Hv as [V3 V4].
  apply NoDup_app in Hnd as (_ & D1 & Hnd). apply NoDup_app in Hnd as (_ & D2 & Hnd).
  apply NoDup_app in Hnd as (_ & D3 & _).
  unfold PreparedView_valid. simpl. rewrite V1, V2, V3, V4, Hck, bool_decide_eq_true_2 by done.
  rewrite !disjointb_true; [done|..]; intros x; rewrite ?elem_of_app; set_solver.
Qed.

Lemma make_view_ok v w : PreparedView_valid v = true → make_view (X := X) v w = (Ok v, w).
Proof. intros Hv. unfold make_view. by rewrite Hv. Qed.

Lemma reserve_loop_spec (costs : list Z) room reserve k tc st :
  (k ≤ length costs)%nat →
  reserve_loop room reserve (drop k costs) (sumZ (drop k costs)) k = (tc, st) →
  (k ≤ st ≤ length costs)%nat ∧ tc = sumZ (drop st costs).
Proof.
  remember (drop k costs) as l eqn:El. revert k El.
  induction l as [|c l IH]; intros k El Hk Hr; cbn [reserve_loop] in Hr.
  - simplify_eq. by rewrite <- El.
  - assert (k < length costs)%nat as Hlt.
    { apply (f_equal length) in El. rewrite length_drop in El. simpl in El. lia. }
    destruct (lookup_lt_is_Some_2 costs k Hlt) as [c' Hc'].
    rewrite (drop_S costs c' k Hc') in El. injection El as <- El.
    destruct (room - sumZ (c :: l) <? reserve).
    + replace (sumZ (c :: l) - c) with (sumZ l) in Hr by (rewrite sumZ_cons; lia).
      apply IH in Hr; [lia|done|lia].
    + simplify_eq. rewrite (drop_S costs c st Hc'). split; [lia|done].
Qed.

Lemma turns_cost_drop n : sumZ (drop n (turn_cost <$> hs_turns s)) = turns_cost (drop n (hs_turns s)).
Proof. unfold turns_cost. by rewrite fmap_drop. Qed.

Lemma costs_nonneg : Forall (λ c, 0 ≤ c) (turn_cost <$> hs_turns s).
Proof. apply Forall_fmap, Forall_forall. intros t _. apply (hc_nonneg contract). Qed.

(** The exact head, and the room it leaves. *)
Lemma sliding_ok :
  authority_cost ≤ vl_history_input_tokens limits →
  let costs := turn_cost <$> hs_turns s in
  let start := newest_suffix_start costs (vl_history_input_tokens limits - authority_cost) in
  view_ok (mkPreparedView [] (drop start (snapshot_ids s)) None (hs_protected s) []
             (take start (snapshot_ids s)) true None).
Proof.
  intros Ha costs start.
  pose proof (suffix_sum_le costs (vl_history_input_tokens limits - authority_cost) ltac:(lia)) as Hs.
  fold start in Hs. unfold costs in Hs. rewrite turns_cost_drop in Hs.
  unfold snapshot_ids. rewrite <- fmap_drop, <- fmap_take.
  split; simpl; [|done|done|done|].
  - apply (partition_valid (take start (hs_turns s)) [] [] (drop start (hs_turns s))); [|done].
    simpl. by rewrite take_drop.
  - exists (take start (hs_turns s)), [], [], (drop start (hs_turns s)). simpl.
    rewrite take_drop. split_and!; try done. unfold summary_cost. simpl.
    change (turns_cost []) with 0. lia.
Qed.

Lemma all_exact_ok :
  turns_cost (hs_turns s) ≤ vl_history_input_tokens limits - authority_cost →
  view_ok (mkPreparedView [] (snapshot_ids s) None (hs_protected s) [] [] true None).
Proof.
  intros Ha. split; simpl; [|done|done|done|].
  - by apply (partition_valid [] [] [] (hs_turns s)).
  - exists [], [], [], (hs_turns s). simpl. split_and!; try done.
    unfold summary_cost. simpl. change (turns_cost []) with 0. lia.
Qed.

(** The head, the summarized middle and the tail. *)
Lemma summarized_ok head_end start ck :
  (head_end ≤ start)%nat → (start ≤ length (hs_turns s))%nat →
  let cv := take (start - head_end) (drop head_end (hs_turns s)) in
  match ck with Some c => sk_covered_turn_ids c | None => [] end = ot_seq <$> cv →
  (cv = [] ↔ ck = None) → bound_to cv ck →
  authority_cost + turns_cost (take head_end (hs_turns s)) + turns_cost (drop start (hs_turns s)) +
    match ck with Some c => estimate (sk_summary_text c) | None => 0 end
    ≤ vl_history_input_tokens limits →
  view_ok (mkPreparedView (take head_end (snapshot_ids s)) (drop start (snapshot_ids s)) ck
    (hs_protected s) (take (start - head_end) (drop head_end (snapshot_ids s))) [] true None).
Proof.
  intros Hhs Hlen cv Hck Hcv Hbound Hcost. unfold snapshot_ids.
  rewrite <- !fmap_drop, <- !fmap_take.
  assert (hs_turns s = take head_end (hs_turns s) ++ cv ++ drop start (hs_turns s))%list as Hsplit.
  { unfold cv. rewrite <- (take_drop head_end (hs_turns s)) at 1. f_equal.
    rewrite <- (take_drop (start - head_end) (drop head_end (hs_turns s))) at 1.
    rewrite drop_drop. do 2 f_equal. lia. }
  split; simpl; [|done|done|done|].
  - by apply (partition_valid [] _ cv).
  - exists [], (take head_end (hs_turns s)), cv, (drop start (hs_turns s)). by split_and!.
Qed.

(** A run of the engine: the requests it made, and how it ended. *)
Definition run_ok w w' (r : res (EngineError X) PreparedView) : Prop :=
  ∃ new, requested limits w w' new ∧
    Z.of_nat (length new) ≤ Z.max 0 (allowance parameters limits) ∧
    (strategy = "sliding_window" → new = []) ∧
    match r with Ok v => view_ok v | Err e => expected_error e end.

Lemma run_ok_quiet w w' r :
  ew_requests w' = ew_requests w →
  match r with Ok v => view_ok v | Err e => expected_error e end → run_ok w w' r.
Proof.
  intros E Hr. exists []. split; [by apply requested_nil|]. simpl. split_and!; [lia|done|done].
Qed.

(** The last part of [_prepare]: the summary of the covered turns and the view. *)
Lemma finish_ok head_end start reserve w r w' :
  strategy ∈ SUMMARIZING_STRATEGIES →
  (head_end ≤ start)%nat → (start ≤ length (hs_turns s))%nat →
  authority_cost + turns_cost (take head_end (hs_turns s)) + turns_cost (drop start (hs_turns s))
    ≤ vl_history_input_tokens limits →
  ((head_end < start)%nat →
   authority_cost + turns_cost (take head_end (hs_turns s)) + turns_cost (drop start (hs_turns s))
     + reserve ≤ vl_history_input_tokens limits) →
  (let ids := snapshot_ids s in
   let covered := take (start - head_end) (drop head_end ids) in
   let! summary :=
     if bool_decide (covered = []) then eff_ret None
     else
       unavailable_if (reserve <? 1) "maintenance unavailable" ;;!
       let! c := summarize sha256 maintenance cancelled s covered strategy parameters limits
                   checkpoint reserve in
       eff_ret (Some c) in
   make_view (mkPreparedView (take head_end ids) (drop start ids) summary (hs_protected s) covered
                [] true None)) w = (r, w') →
  run_ok w w' r.
Proof.
  intros Hstr Hhs Hlen Hfit Hfitr Hr. cbv zeta in Hr.
  set (cv := take (start - head_end) (drop head_end (hs_turns s))) in *.
  assert (take (start - head_end) (drop head_end (snapshot_ids s)) = ot_seq <$> cv) as Ecv.
  { unfold cv, snapshot_ids. by rewrite fmap_take, fmap_drop. }
  pose proof (summarized_ok head_end start) as Hok. fold cv in Hok. cbv zeta in Hok.
  rewrite Ecv in Hr, Hok.
  assert (strategy ≠ "sliding_window") as Hns by (intros ->; set_solver).
  destruct (decide (cv = [])) as [Hcv|Hcv].
  - rewrite bool_decide_eq_true_2 in Hr by by rewrite Hcv.
    unfold eff_bind, eff_ret in Hr.
    specialize (Hok None Hhs Hlen). rewrite make_view_ok in Hr.
    + simplify_eq. apply run_ok_quiet; [done|]. apply Hok; [by rewrite Hcv|done|done|lia].
    + apply Hok; [by rewrite Hcv|done|done|lia].
  - assert (head_end < start)%nat as Hlt.
    { destruct (decide (head_end < start)%nat); [done|]. destruct Hcv. unfold cv.
      by replace (start - head_end)%nat with 0%nat by lia. }
    assert (cv ⊆ hs_turns s) as Hsub.
    { unfold cv. etrans; [apply subseteq_take|apply subseteq_drop]. }
    assert (valid_ids (ot_seq <$> cv) = true) as Hval.
    { pose proof (snapshot_ids_valid sha256 s (hc_snapshot contract)) as Hv.
      unfold snapshot_ids in Hv. rewrite <- (take_drop head_end (hs_turns s)), fmap_app in Hv.
      apply valid_ids_app in Hv as [_ Hv].
      rewrite <- (take_drop (start - head_end) (drop head_end (hs_turns s))), fmap_app in Hv.
      by apply valid_ids_app in Hv as [Hv _]. }
    rewrite bool_decide_eq_false_2 in Hr by by destruct cv.
    apply eff_bind_eq in Hr as [(summary & w1 & H1 & Hr)|(e & H1 & ->)];
      apply eff_bind_eq in H1 as [([] & w2 & H2 & H1)|(e' & H2 & H1)];
      apply unavailable_if_cases in H2 as [-> H2]; try done.
    3: { apply run_ok_quiet; [done|]. destruct (reserve <? 1); by simplify_eq. }
    all: destruct (Z.ltb_spec reserve 1); [done|].
    all: apply eff_bind_eq in H1 as [(c & w3 & H3 & H1)|(e' & H3 & H1)];
      eapply summarize_spec in H3 as (new & Rn & Ln & Hc);
      try apply contract; try done.
    + unfold eff_ret in H1. injection H1 as <- <-. specialize (Hok (Some c) Hhs Hlen).
      assert (estimate (sk_summary_text c) ≤ reserve) as Hest.
      { pose proof (so_text _ _ _ _ _ _ _ _ Hc) as Ht. unfold text_rejection in Ht.
        destruct (_ || _) eqn:E in Ht; [done|]. apply orb_false_iff in E as [E _].
        by apply Z.ltb_ge in E. }
      assert (view_ok (mkPreparedView (take head_end (snapshot_ids s)) (drop start (snapshot_ids s))
        (Some c) (hs_protected s) (ot_seq <$> cv) [] true None)) as Hview.
      { apply Hok; [by rewrite (so_covered _ _ _ _ _ _ _ _ Hc)|done|by destruct Hc|].
        specialize (Hfitr Hlt). lia. }
      rewrite make_view_ok in Hr by apply Hview. injection Hr as <- <-.
      exists new. by split_and!.
    + unfold eff_ret in H1. simplify_eq. exists new. by split_and!.
Qed.

Lemma costs_head : head (turn_cost <$> hs_turns s) = turn_cost <$> head (hs_turns s).
Proof. by destruct (hs_turns s). Qed.

Lemma chosen_start room reserve head_end start0 w start w' :
  (head_end ≤ start0 ≤ length (hs_turns s))%nat → 0 ≤ reserve →
  turns_cost (drop start0 (hs_turns s)) ≤ room →
  choose_start (X := X) room reserve head_end start0 (turn_cost <$> hs_turns s) w = (Ok start, w') →
  w' = w ∧ (start0 ≤ start ≤ length (hs_turns s))%nat ∧
  turns_cost (drop start (hs_turns s)) ≤ room ∧
  ((head_end < start)%nat → turns_cost (drop start (hs_turns s)) + reserve ≤ room).
Proof.
  intros Hl Hres Hs0 Hst. unfold choose_start in Hst.
  destruct (Nat.ltb_spec head_end start0) as [Hmid|Hmid].
  - destruct (reserve_loop _ _ _ _ _) as [tail_cost st] eqn:Hloop.
    apply reserve_loop_spec in Hloop as [Hb ->]; [|rewrite length_fmap; lia].
    rewrite length_fmap, turns_cost_drop in *.
    apply eff_bind_eq in Hst as [([] & w1 & H1 & Hst)|(e & _ & ?)]; [|done].
    apply unavailable_if_cases in H1 as [-> H1]. unfold eff_ret in Hst. simplify_eq.
    destruct (Z.ltb_spec (room - turns_cost (drop start (hs_turns s))) reserve); [done|].
    split_and!; try done; lia.
  - unfold eff_ret in Hst. simplify_eq. split_and!; try done; lia.
Qed.

Lemma chosen_start_error room reserve head_end start0 costs w e w' :
  choose_start (X := X) room reserve head_end start0 costs w = (Err e, w') →
  w' = w ∧ e = Unavailable "history capacity too small for a summary".
Proof.
  unfold choose_start. destruct (head_end <? start0)%nat; [|done].
  destruct (reserve_loop _ _ _ _ _) as [tail_cost st]. intros Hst.
  apply eff_bind_eq in Hst as [([] & w1 & _ & Hst)|(e' & H1 & ?)]; [done|].
  apply unavailable_if_cases in H1 as [-> H1]. destruct (_ <? _) in H1; by simplify_eq.
Qed.

(** The exact head, if one is pinned, and the room it leaves. *)
Lemma head_room available pinned :
  (pinned = true → ∃ c, head (turn_cost <$> hs_turns s) = Some c ∧ c ≤ available) →
  0 ≤ available →
  let head_end := if pinned then 1%nat else 0%nat in
  let room := available - (if pinned then default 0 (head (turn_cost <$> hs_turns s)) else 0) in
  turns_cost (take head_end (hs_turns s)) = available - room ∧ 0 ≤ room ∧
  (head_end ≤ length (hs_turns s))%nat.
Proof.
  intros Hp Ha. destruct pinned; cbv zeta; [|change (turns_cost (take 0 _)) with 0; lia].
  destruct (Hp eq_refl) as (c & Hc & Hle). rewrite Hc. rewrite costs_head in Hc.
  destruct (hs_turns s) as [|t ts]; simplify_eq/=. unfold turns_cost. simpl. lia.
Qed.

(** The newest turns within an allocation fit the room. *)
Lemma tail_room allocation room head_end :
  0 ≤ allocation → 0 ≤ room → (head_end ≤ length (hs_turns s))%nat →
  let start0 :=
    Nat.max (newest_suffix_start (turn_cost <$> hs_turns s) (Z.min allocation room)) head_end in
  turns_cost (drop start0 (hs_turns s)) ≤ room ∧ (head_end ≤ start0 ≤ length (hs_turns s))%nat.
Proof.
  intros Hal Hr Hh start0. rewrite <- turns_cost_drop. set (costs := turn_cost <$> hs_turns s) in *.
  assert (length costs = length (hs_turns s)) as Elen by (unfold costs; apply length_fmap).
  pose proof (suffix_sum_le costs (Z.min allocation room) ltac:(lia)) as Hs.
  pose proof (sumZ_drop_antitone costs (newest_suffix_start costs (Z.min allocation room)) start0
    costs_nonneg ltac:(lia)).
  pose proof (newest_suffix_spec costs (Z.min allocation room)) as [Hl _]. lia.
Qed.

Lemma reserve_nonneg :
  0 ≤ Z.min (sp_summary_output_tokens parameters) (vl_maintenance_output_tokens limits) ∧
  0 ≤ sp_hybrid_tail_input_tokens parameters ∧ 0 ≤ sp_compaction_tail_input_tokens parameters.
Proof.
  pose proof (hc_parameters contract) as Hpar. unfold StrategyParameters_valid in Hpar.
  pose proof (hc_limits contract) as Hlim. unfold ViewLimits_valid in Hlim. bool_to_prop. lia.
Qed.

Lemma prepare_spec w r w' :
  strategy ∈ STRATEGIES →
  prepare sha256 maintenance cancelled s strategy parameters limits checkpoint w = (r, w') →
  run_ok w w' r.
Proof.
  intros Hstr Hr. unfold prepare in Hr. cbv zeta in Hr.
  change (sumZ ((λ p, estimate (render_protected_state p)) <$> hs_protected s))
    with authority_cost in Hr.
  apply eff_bind_eq in Hr as [([] & w1 & H1 & Hr)|(e & H1 & ->)];
    apply unavailable_if_cases in H1 as [-> H1].
  2: { apply run_ok_quiet; [done|]. destruct (_ <? _) in H1; by simplify_eq. }
  clear H1. apply eff_bind_eq in Hr as [([] & w2 & H2 & Hr)|(e & H2 & ->)];
    apply unavailable_if_cases in H2 as [-> H2].
  2: { apply run_ok_quiet; [done|]. destruct (_ <? _) in H2; by simplify_eq. }
  destruct (Z.ltb_spec (vl_history_input_tokens limits) authority_cost) as [|Hauth]; [done|].
  set (available := vl_history_input_tokens limits - authority_cost) in *.
  destruct (String.eqb_spec strategy "sliding_window") as [Hsl|Hsl].
  { pose proof (sliding_ok Hauth) as Hok. cbv zeta in Hok.
    rewrite make_view_ok in Hr by apply Hok. simplify_eq. by apply run_ok_quiet. }
  assert (strategy ∈ SUMMARIZING_STRATEGIES) as Hsum by set_solver.
  destruct reserve_nonneg as (Hres & Ht1 & Ht2).
  set (tail := if String.eqb strategy "hybrid" then _ else _) in *.
  assert (0 ≤ tail) as Htail by (unfold tail; by destruct (String.eqb _ _)).
  destruct (Nat.eqb_spec (newest_suffix_start (turn_cost <$> hs_turns s) (Z.min tail available)) 0)
    as [Hall|Hnall].
  { destruct (tail_room tail available 0) as [Hc _]; [lia..|]. rewrite Hall in Hc. simpl in Hc.
    pose proof (all_exact_ok Hc) as Hok. rewrite make_view_ok in Hr by apply Hok.
    simplify_eq. by apply run_ok_quiet. }
  set (pinned := _ && _) in Hr.
  destruct (head_room available pinned) as (Hhead & Hroom & Hhl); [|lia|].
  { unfold pinned. intros [_ Hp]%andb_true_iff. destruct (head _) as [c|]; [|done]. exists c.
    bool_to_prop. done. }
  set (head_end := if pinned then 1%nat else 0%nat) in *.
  set (room := available - (if pinned then _ else 0)) in *.
  destruct (tail_room tail room head_end Htail Hroom Hhl) as [Hs0 Hl0].
  apply eff_bind_eq in Hr as [(start & w1 & Hst & Hr)|(e & Hst & ->)].
  - eapply chosen_start in Hst as (-> & Hsl1 & Hs1 & Hs2); [|lia|done|done].
    eapply (finish_ok head_end start
      (Z.min (sp_summary_output_tokens parameters) (vl_maintenance_output_tokens limits)));
      [done|lia|lia|lia|intros Hx; specialize (Hs2 Hx); lia|].
    exact Hr.
  - apply chosen_start_error in Hst as [-> ->]. by apply run_ok_quiet.
Qed.

Lemma prepare_view_spec w r w' :
  strategy ∈ STRATEGIES → sp_format_version parameters = SUMMARY_FORMAT →
  prepare_view sha256 maintenance cancelled s strategy parameters limits checkpoint w = (r, w') →
  ∃ new, requested limits w w' new ∧
    Z.of_nat (length new) ≤ Z.max 0 (allowance parameters limits) ∧
    (strategy = "sliding_window" → new = []) ∧
    match r with
    | Ok v => view_ok v ∨ ∃ reason, reason ≠ "maintenance input exceeded" ∧
        v = mkPreparedView [] [] None (hs_protected s) [] [] false (Some reason)
    | Err e => ∃ x, e = CallbackRaised x
    end.
Proof.
  intros Hstr Hfmt Hr. unfold prepare_view in Hr.
  rewrite bool_decide_eq_false_2 in Hr by (intros Hx; by apply Hx).
  rewrite Hfmt, String.eqb_refl in Hr. simpl in Hr.
  destruct (prepare _ _ _ _ _ _ _ _ w) as [r0 w0] eqn:Hp. apply prepare_spec in Hp; [|done].
  destruct Hp as (new & Rn & Ln & Hsl & Hres). exists new.
  destruct r0 as [v|[m|reason|m|k|x]]; simpl in Hres; try done.
  - simplify_eq. split_and!; try done. by left.
  - destruct Hres as [Hne Hnn]. rewrite make_view_ok in Hr.
    + simplify_eq. split_and!; try done. right. by exists reason.
    + unfold PreparedView_valid. simpl. unfold nonempty.
      by destruct (String.eqb_spec reason "").
  - simplify_eq. split_and!; try done. by exists x.
Qed.
End views.

(** C4: Whatever its strategy, an available view loses nothing and fits: for a
    history, limits and parameters that pass their validation and an estimator as
    the host's contract requires it, the view's omitted, head, covered and tail
    turns are, in this order, the whole history; the covered turns are exactly
    those of its summary; every protected record is there; and the exact turns,
    the summary and the protected records together fit the history's tokens. An
    unavailable view names nothing but the protected records. No other exception
    than the host's own callback's ever leaves the engine. *)
Theorem context_view_sound {W X : Type} sha256
    (maintenance : MaintenanceRequest → W → res X MaintenanceResult * W) cancelled
    s strategy parameters limits checkpoint w r w' :
  host_contract sha256 s parameters limits checkpoint →
  strategy ∈ STRATEGIES → sp_format_version parameters = SUMMARY_FORMAT →
  prepare_view sha256 maintenance cancelled s strategy parameters limits checkpoint w = (r, w') →
  match r with
  | Ok v => view_ok sha256 s limits v ∨
      ∃ reason, v = mkPreparedView [] [] None (hs_protected s) [] [] false (Some reason)
  | Err e => ∃ x, e = CallbackRaised x
  end.
Proof.
  intros Hc Hs Hf Hr. eapply prepare_view_spec in Hr as (new & _ & _ & _ & Hres); try done.
  destruct r as [v|e]; [|done]. destruct Hres as [|(reason & _ & ->)]; eauto.
Qed.

(** C27: Maintenance is bounded and planned: a view makes at most the allowed
    number of summarization calls (none at all for a sliding window), every
    request it makes is well formed and within both the token and the byte limit
    of a maintenance input, and with a subadditive estimator a planned input never
    turns out too large once earlier summaries are known. *)
Theorem context_maintenance_bounded {W X : Type} sha256
    (maintenance : MaintenanceRequest → W → res X MaintenanceResult * W) cancelled
    s strategy parameters limits checkpoint w r w' :
  host_contract sha256 s parameters limits checkpoint →
  strategy ∈ STRATEGIES → sp_format_version parameters = SUMMARY_FORMAT →
  prepare_view sha256 maintenance cancelled s strategy parameters limits checkpoint w = (r, w') →
  ∃ new, ew_requests w' = (ew_requests w ++ new)%list ∧
    Forall (λ q, MaintenanceRequest_valid q = true ∧
      vl_estimate_history limits (mr_input_text q) ≤ vl_maintenance_input_tokens limits ∧
      utf8_len (mr_input_text q) ≤ vl_transient_max_bytes limits) new ∧
    Z.of_nat (length new) ≤ Z.max 0 (allowance parameters limits) ∧
    (strategy = "sliding_window" → new = []) ∧
    ∀ v, r = Ok v → pv_reason v ≠ Some "maintenance input exceeded".
Proof.
  intros Hc Hs Hf Hr. eapply prepare_view_spec in Hr as (new & [E Rn] & Ln & Hsl & Hres); try done.
  exists new. split_and!; try done. intros v ->.
  destruct Hres as [[_ _ -> _ _]|(reason & Hne & ->)]; [done|simpl; congruence].
Qed.

(** * Reuse of checkpoints *)

Section reuse.
Context (sha256 : string → string) (s : HistorySnapshot).
Hypothesis snapshot_valid : HistorySnapshot_valid sha256 s = true.

Lemma position_cons i ids seq :
  position (i :: ids) seq = if decide (i = seq) then Some 0%nat else S <$> position ids seq.
Proof. done. Qed.

Lemma position_Some ids seq i : position ids seq = Some i → ids !! i = Some seq.
Proof.
  revert i. induction ids as [|x ids IH]; intros i; [done|]. rewrite position_cons.
  case_decide as E; [intros [= <-]; by subst|].
  destruct (position ids seq) as [k|]; [|done]. intros [= <-]. simpl. by apply IH.
Qed.

Lemma position_lookup ids seq i : NoDup ids → ids !! i = Some seq → position ids seq = Some i.
Proof.
  revert i. induction ids as [|x ids IH]; intros i Hnd Hi; [done|].
  apply NoDup_cons in Hnd as [Hx Hnd]. rewrite position_cons. destruct i as [|i]; simpl in Hi.
  - simplify_eq. by rewrite decide_True.
  - rewrite decide_False; [by rewrite (IH i)|]. intros ->. apply Hx.
    by eapply list_elem_of_lookup_2.
Qed.

Lemma position_turn i t :
  hs_turns s !! i = Some t → position (snapshot_ids s) (ot_seq t) = Some i.
Proof.
  intros Ht. apply position_lookup; [by apply (snapshot_ids_nodup sha256)|].
  unfold snapshot_ids. by rewrite list_lookup_fmap, Ht.
Qed.

Definition digest_at (seq : Z) : string :=
  match position (snapshot_ids s) seq ≫= (λ i, hs_turns s !! i) with
  | Some t => turn_source_digest sha256 t | None => "" end.

Lemma digests_match ts ds :
  ts ⊆ hs_turns s → length ds = length ts →
  existsb (λ sd, negb (String.eqb (digest_at sd.1) sd.2)) (combine (ot_seq <$> ts) ds) = false ↔
  ds = turn_source_digest sha256 <$> ts.
Proof.
  revert ds. induction ts as [|t ts IH]; intros [|d ds] Hsub Hl; try done.
  cbn [fmap list_fmap combine existsb fst snd]. fold (ot_seq <$> ts).
  fold (turn_source_digest sha256 <$> ts).
  assert (digest_at (ot_seq t) = turn_source_digest sha256 t) as ->.
  { assert (t ∈ hs_turns s) as [i Hi]%list_elem_of_lookup by (apply Hsub; set_solver).
    unfold digest_at. by rewrite (position_turn i t Hi); simpl; rewrite Hi. }
  rewrite orb_false_iff, negb_false_iff, String.eqb_eq.
  rewrite IH; [|set_solver|simpl in Hl; lia]. naive_solver.
Qed.

(** The turns a checkpoint of the given strategy may cover, from turn [h] on. *)
Definition allowed_start (strategy : string) (h : nat) : Prop :=
  h = 0%nat ∨ (h = 1%nat ∧ strategy = "hybrid").

Lemma allowed_start_bool strategy h :
  bool_decide (h ∉ (if String.eqb strategy "hybrid" then [0; 1]%nat else [0]%nat)) = false ↔
  allowed_start strategy h.
Proof.
  unfold allowed_start. rewrite bool_decide_eq_false.
  destruct (String.eqb_spec strategy "hybrid"); split.
  - intros Hn. destruct (decide (h ∈ [0; 1]%nat)) as [Hin|]; [|done]. set_solver.
  - intros Hh Hn. apply Hn. set_solver.
  - intros Hn. destruct (decide (h ∈ [0]%nat)) as [Hin|]; [|done]. set_solver.
  - intros Hh Hn. apply Hn. set_solver.
Qed.

(** The checkpoint covers the turns from [h] on, with their present sources. *)
Definition covers_prefix (strategy : string) (c : SummaryCheckpoint) : Prop :=
  ∃ h, allowed_start strategy h ∧
    let ts := take (length (sk_covered_turn_ids c)) (drop h (hs_turns s)) in
    sk_covered_turn_ids c = ot_seq <$> ts ∧ sk_source_digests c = turn_source_digest sha256 <$> ts.

Lemma covered_first h c :
  sk_covered_turn_ids c ≠ [] →
  sk_covered_turn_ids c =
    ot_seq <$> take (length (sk_covered_turn_ids c)) (drop h (hs_turns s)) →
  position (snapshot_ids s) (default 0 (head (sk_covered_turn_ids c))) = Some h.
Proof.
  intros Hne E. set (l := take _ _) in E. rewrite E in Hne |- *.
  destruct l as [|t l'] eqn:El; [done|]. simpl. apply position_turn.
  assert (l !! 0%nat = Some t) as Hl by by rewrite El.
  unfold l in Hl. apply lookup_take_Some in Hl as [Hl _].
  rewrite lookup_drop, Nat.add_0_r in Hl. done.
Qed.

Lemma covered_present ts :
  ts ⊆ hs_turns s →
  existsb (λ seq, bool_decide (position (snapshot_ids s) seq = None)) (ot_seq <$> ts) = false.
Proof.
  intros Hsub. apply not_true_iff_false. rewrite existsb_exists. intros (x & Hx & Hb).
  apply list_elem_of_In, list_elem_of_fmap in Hx as (t & -> & Ht).
  apply Hsub, list_elem_of_lookup in Ht as [i Hi].
  rewrite (position_turn i t Hi) in Hb. by bool_to_prop.
Qed.

Context (c : SummaryCheckpoint) (strategy : string) (parameters : StrategyParameters).
Hypothesis checkpoint_valid : SummaryCheckpoint_valid c = true.

Lemma checkpoint_shape :
  sk_covered_turn_ids c ≠ [] ∧ length (sk_source_digests c) = length (sk_covered_turn_ids c).
Proof.
  pose proof checkpoint_valid as Hc. unfold SummaryCheckpoint_valid in Hc. bool_to_prop.
  split; [done|by apply Nat.eqb_eq].
Qed.

Lemma reuse_sound c' :
  ru_checkpoint (reuse_checkpoint sha256 c s strategy parameters) = Some c' →
  c' = rekey c (hs_revision s) ∧
  hr_session_key (sk_revision c) = hr_session_key (hs_revision s) ∧
  hr_generation (sk_revision c) ≤ hr_generation (hs_revision s) ∧
  hr_last_committed_seq (sk_revision c) ≤ hr_last_committed_seq (hs_revision s) ∧
  sk_strategy c = strategy ∧ sk_parameters_digest c = parameters_digest sha256 parameters ∧
  sk_format_version c = sp_format_version parameters ∧ covers_prefix strategy c.
Proof.
  destruct checkpoint_shape as [Hne Hlen]. unfold reuse_checkpoint. cbv zeta.
  destruct (String.eqb_spec (hr_session_key (sk_revision c)) (hr_session_key (hs_revision s)));
    simpl; [|done].
  destruct (_ || _) eqn:Hrev; [done|]. apply orb_false_iff in Hrev as [Hg%Z.ltb_ge Hl%Z.ltb_ge].
  destruct (String.eqb_spec (sk_strategy c) strategy); simpl; [|done].
  destruct (String.eqb_spec (sk_parameters_digest c) (parameters_digest sha256 parameters));
    simpl; [|done].
  destruct (String.eqb_spec (sk_format_version c) (sp_format_version parameters)); simpl; [|done].
  destruct (existsb _ (sk_covered_turn_ids c)); [done|].
  set (h := default 0%nat _). destruct (_ || _) eqn:Hrange; [done|].
  apply orb_false_iff in Hrange as [Hstart%allowed_start_bool Hexp].
  apply bool_decide_eq_false_1, dec_stable in Hexp.
  destruct (existsb _ (combine _ _)) eqn:Hdig; [done|]. intros [= <-].
  split_and!; try done. exists h. split; [done|]. cbv zeta.
  set (ts := take (length (sk_covered_turn_ids c)) (drop h (hs_turns s))).
  assert (sk_covered_turn_ids c = ot_seq <$> ts) as Hcov.
  { rewrite <- Hexp at 1. unfold ts, snapshot_ids. by rewrite fmap_take, fmap_drop. }
  split; [done|]. rewrite Hcov in Hdig. apply digests_match in Hdig; [done|..].
  - etrans; [apply subseteq_take|apply subseteq_drop].
  - by rewrite Hlen, Hcov, length_fmap.
Qed.

Lemma reuse_complete :
  hr_session_key (sk_revision c) = hr_session_key (hs_revision s) →
  hr_generation (sk_revision c) ≤ hr_generation (hs_revision s) →
  hr_last_committed_seq (sk_revision c) ≤ hr_last_committed_seq (hs_revision s) →
  sk_strategy c = strategy → sk_parameters_digest c = parameters_digest sha256 parameters →
  sk_format_version c = sp_format_version parameters → covers_prefix strategy c →
  reuse_checkpoint sha256 c s strategy parameters =
    mkReuseResult (Some (rekey c (hs_revision s))) None.
Proof.
  destruct checkpoint_shape as [Hne Hlen].
  intros Hk Hg Hl Hst Hp Hf (h & Hh & Hcov & Hds). cbv zeta in Hcov, Hds.
  unfold reuse_checkpoint. cbv zeta.
  rewrite Hk, Hst, Hp, Hf, !String.eqb_refl. simpl.
  apply Z.ltb_ge in Hg, Hl. rewrite Hg, Hl. simpl.
  rewrite (covered_first h c Hne Hcov). simpl.
  set (ts := take _ _) in Hcov, Hds.
  assert (ts ⊆ hs_turns s) as Hsub by (etrans; [apply subseteq_take|apply subseteq_drop]).
  rewrite Hcov at 1. rewrite covered_present by done.
  apply allowed_start_bool in Hh. rewrite Hh. simpl.
  rewrite bool_decide_eq_false_2.
  2: { intros Hx. apply Hx. rewrite Hcov at 2. unfold ts, snapshot_ids.
       by rewrite <- fmap_drop, <- fmap_take. }
  fold digest_at. rewrite Hcov at 1.
  pose proof (proj2 (digests_match ts (sk_source_digests c) Hsub
    ltac:(rewrite Hlen, Hcov; apply length_fmap)) Hds) as Hd.
  unfold digest_at in Hd. by rewrite Hd.
Qed.
End reuse.

(** C31: Exactly when a checkpoint is reused: for a valid snapshot and
    checkpoint, [reuse_checkpoint] returns one if and only if it is of the same
    session and of no later revision, of the same strategy, parameters and
    format, and covers a run of the present history from its first turn (or, for
    hybrid, its second) whose turns all still have the source digests it was made
    from; and what it returns is that checkpoint, re-keyed to the present
    revision. *)
Theorem checkpoint_reuse_exact sha256 s c strategy parameters c' :
  HistorySnapshot_valid sha256 s = true → SummaryCheckpoint_valid c = true →
  ru_checkpoint (reuse_checkpoint sha256 c s strategy parameters) = Some c' ↔
  c' = rekey c (hs_revision s) ∧
  hr_session_key (sk_revision c) = hr_session_key (hs_revision s) ∧
  hr_generation (sk_revision c) ≤ hr_generation (hs_revision s) ∧
  hr_last_committed_seq (sk_revision c) ≤ hr_last_committed_seq (hs_revision s) ∧
  sk_strategy c = strategy ∧ sk_parameters_digest c = parameters_digest sha256 parameters ∧
  sk_format_version c = sp_format_version parameters ∧ covers_prefix sha256 s strategy c.
Proof.
  intros Hs Hc. split; intros H; [by apply reuse_sound|].
  destruct H as (-> & Hk & Hg & Hl & Hst & Hp & Hf & Hcov). by rewrite reuse_complete.
Qed.

(** * Digests bind the history *)

(** A part whose length has eight bytes; longer ones cannot be framed. *)
Definition small (p : string) : Prop := utf8_len p < 2 ^ 64.

Lemma digits_inj (k : nat) n m :
  0 ≤ n < 256 ^ Z.of_nat k → 0 ≤ m < 256 ^ Z.of_nat k →
  (∀ i, (i < k)%nat → (n / 256 ^ Z.of_nat i) mod 256 = (m / 256 ^ Z.of_nat i) mod 256) → n = m.
Proof.
  revert n m. induction k as [|k IH]; intros n m Hn Hm Hd; [simpl in *; lia|].
  rewrite Nat2Z.inj_succ, Z.pow_succ_r in Hn, Hm by lia.
  pose proof (Hd 0%nat ltac:(lia)) as H0. simpl in H0. rewrite !Z.div_1_r in H0.
  assert (n / 256 = m / 256) as Hq.
  { apply IH; [split; [apply Z.div_pos; lia|apply Z.div_lt_upper_bound; lia]..|].
    intros i Hi. specialize (Hd (S i) ltac:(lia)).
    rewrite Nat2Z.inj_succ, Z.pow_succ_r, <- !Z.div_div in Hd by lia. exact Hd. }
  rewrite (Z.div_mod n 256), (Z.div_mod m 256) by lia. congruence.
Qed.

Lemma byte_inj a b :
  Ascii.ascii_of_N (Z.to_N (a mod 256)) = Ascii.ascii_of_N (Z.to_N (b mod 256)) → a mod 256 = b mod 256.
Proof.
  intros E. apply (f_equal Ascii.N_of_ascii) in E.
  pose proof (Z.mod_pos_bound a 256). pose proof (Z.mod_pos_bound b 256).
  rewrite !Ascii.N_ascii_embedding in E by lia. lia.
Qed.

Lemma be8_inj n m : 0 ≤ n < 2 ^ 64 → 0 ≤ m < 2 ^ 64 → be8 n = be8 m → n = m.
Proof.
  intros Hn Hm E. unfold be8 in E. cbv zeta in E.
  injection E as E7 E6 E5 E4 E3 E2 E1 E0. apply (digits_inj 8); [done|done|].
  intros i Hi. apply byte_inj in E0, E1, E2, E3, E4, E5, E6, E7.
  do 8 (destruct i as [|i]; [assumption|]). lia.
Qed.

Lemma string_app_inj a b c d :
  String.length a = String.length b → a +:+ c = b +:+ d → a = b ∧ c = d.
Proof.
  revert b. induction a as [|x a IH]; intros [|y b] Hl E; simpl in Hl; try done.
  injection E as -> E. injection Hl as Hl. destruct (IH b Hl E) as [-> ->]. done.
Qed.

(** Framing is unambiguous, also when more bytes follow. *)
Lemma frame_app_inj ps qs r r' :
  Forall small ps → Forall small qs → length ps = length qs →
  frame ps +:+ r = frame qs +:+ r' → ps = qs ∧ r = r'.
Proof.
  revert qs. induction ps as [|p ps IH]; intros [|q qs] Hp Hq Hl E; simpl in Hl; try done.
  apply Forall_cons in Hp as [Hp Hps]. apply Forall_cons in Hq as [Hq Hqs].
  cbn [frame] in E. rewrite !string_app_assoc in E.
  apply string_app_inj in E as [Eb E]; [|done].
  apply be8_inj in Eb; [|unfold small, utf8_len in *; lia..].
  apply string_app_inj in E as [-> E]; [|lia].
  apply IH in E as [-> ->]; [done|done|done|lia].
Qed.

Lemma frame_inj ps qs : Forall small ps → Forall small qs → frame ps = frame qs → ps = qs.
Proof.
  revert qs. induction ps as [|p ps IH]; intros [|q qs] Hp Hq E; try done.
  apply Forall_cons in Hp as [Hp Hps]. apply Forall_cons in Hq as [Hq Hqs].
  cbn [frame] in E. apply string_app_inj in E as [Eb E]; [|done].
  apply be8_inj in Eb; [|unfold small, utf8_len in *; lia..].
  apply string_app_inj in E as [-> E]; [|lia]. f_equal. by apply IH.
Qed.

Section binding.
Context (sha256 : string → string).
Hypothesis sha256_digest : ∀ x, is_digest (sha256 x) = true.

(** The bytes that are hashed for the digest of a history: those of the history, and of each
    turn. *)
Definition turn_input (t : OrdinaryTurn) : string :=
  TURN_DOMAIN +:+ frame [pretty (ot_seq t); ot_user_prompt t; ot_plan_text t; ot_completion_text t].
Definition hashed_inputs (ts : list OrdinaryTurn) (ps : list ProtectedTurnState) : list string :=
  (HISTORY_DOMAIN +:+ be8 (Z.of_nat (length ts)) +:+ history_frames sha256 ts ps) :: (turn_input <$> ts).

(** Two different inputs with one digest, one from each of two lists. *)
Definition collide (xs ys : list string) : Prop := ∃ x y, x ∈ xs ∧ y ∈ ys ∧ x ≠ y ∧ sha256 x = sha256 y.

Lemma collide_sub xs xs' ys ys' : xs ⊆ xs' → ys ⊆ ys' → collide xs ys → collide xs' ys'.
Proof. intros Hx Hy (x & y & ? & ? & ?). exists x, y. auto. Qed.

Lemma digest_same x y : sha256 x = sha256 y → x = y ∨ collide [x] [y].
Proof. intros E. destruct (decide (x = y)); [by left|right]. exists x, y. by rewrite !list_elem_of_singleton. Qed.

Definition sized_turn (t : OrdinaryTurn) : Prop :=
  Forall small [pretty (ot_seq t); ot_user_prompt t; ot_plan_text t; ot_completion_text t].

Definition sized_state (p : ProtectedTurnState) : Prop :=
  Forall small (pt_approval_facts p) ∧
  Forall small [pretty (pt_seq p); pt_outcome p; pt_effect_state p;
    pretty (Z.of_nat (length (pt_approval_facts p)));
    frame (pretty (Z.of_nat (length (pt_approval_facts p))) :: pt_approval_facts p)].

Lemma turn_digest_binding t t' :
  sized_turn t → sized_turn t' →
  turn_source_digest sha256 t = turn_source_digest sha256 t' → t = t' ∨ collide [turn_input t] [turn_input t'].
Proof.
  intros Ht Ht' E. apply digest_same in E as [E|]; [left|by right].
  apply string_app_inj in E as [_ E]; [|done]. apply frame_inj in E; [|done|done].
  destruct t, t'. simpl in E. injection E as E -> -> ->. f_equal. by apply (inj pretty).
Qed.

Lemma history_frames_inj ts ps ts' ps' :
  Forall sized_turn ts → Forall sized_turn ts' → Forall sized_state ps → Forall sized_state ps' →
  length ps = length ts → length ps' = length ts' → length ts = length ts' →
  history_frames sha256 ts ps = history_frames sha256 ts' ps' → (ts = ts' ∧ ps = ps') ∨ collide (turn_input <$> ts) (turn_input <$> ts').
Proof.
  revert ps ts' ps'. induction ts as [|t ts IH]; intros [|p ps] [|t' ts'] [|p' ps'] Ht Ht' Hp Hp'
    L1 L2 L3 E; simpl in L1, L2, L3; try done; [by left|].
  apply Forall_cons in Ht as [Ht Hts]. apply Forall_cons in Ht' as [Ht' Hts'].
  apply Forall_cons in Hp as [[Hpf Hp] Hps]. apply Forall_cons in Hp' as [[Hpf' Hp'] Hps'].
  cbn [history_frames] in E.
  assert (∀ u, small (turn_source_digest sha256 u)) as Hsmall.
  { intros u. unfold turn_source_digest, small, utf8_len.
    pose proof (sha256_digest (TURN_DOMAIN +:+ frame [pretty (ot_seq u); ot_user_prompt u;
      ot_plan_text u; ot_completion_text u])) as Hd. unfold is_digest in Hd.
    apply andb_true_iff in Hd as [_ Hd%Nat.eqb_eq]. rewrite Hd. done. }
  rewrite !Forall_cons in Hp, Hp'. destruct Hp as (S1 & S2 & S3 & S4 & S5 & _).
  destruct Hp' as (S1' & S2' & S3' & S4' & S5' & _).
  apply frame_app_inj in E as [Ef E]; [|by repeat (apply Forall_cons; split)..|done].
  apply cons_eq_inj in Ef as [Ed Ef]. apply cons_eq_inj in Ef as [Es Ef].
  apply cons_eq_inj in Ef as [Eo Ef]. apply cons_eq_inj in Ef as [Ee Ef].
  apply cons_eq_inj in Ef as [Ea _].
  apply turn_digest_binding in Ed as [->|Hc]; [|right; eapply collide_sub; [..|exact Hc]; rewrite fmap_cons; set_solver|done|done].
  destruct (IH ps ts' ps') as [[-> ->]|Hc]; try done; [lia..|left|right; eapply collide_sub; [..|exact Hc]; rewrite fmap_cons; set_solver].
  split; [done|]. f_equal. apply frame_inj in Ea; [|by apply Forall_cons..].
  destruct p, p'. simpl in *. apply (inj pretty) in Es. congruence.
Qed.
End binding.

(** C32: A history digest binds the whole sanitized history: if two histories of
    at most [2^64] parts of framable size have the same digest, they are the same
    turns with the same protected records, or SHA-256 gives one digest to two different
    inputs among those hashed for the two histories. So no boundary between adjacent
    fields, facts or turns can be moved without changing what is hashed. *)
Theorem history_digest_binding sha256 ts ps ts' ps' :
  (∀ x, is_digest (sha256 x) = true) →
  Forall sized_turn ts → Forall sized_turn ts' → Forall sized_state ps → Forall sized_state ps' →
  length ps = length ts → length ps' = length ts' →
  Z.of_nat (length ts) < 2 ^ 64 → Z.of_nat (length ts') < 2 ^ 64 →
  history_digest sha256 ts ps = history_digest sha256 ts' ps' →
  (ts = ts' ∧ ps = ps') ∨ collide sha256 (hashed_inputs sha256 ts ps) (hashed_inputs sha256 ts' ps').
Proof.
  intros Hd Ht Ht' Hp Hp' L1 L2 N1 N2 E. unfold history_digest in E.
  apply digest_same in E as [E|Hc]; [|right; eapply collide_sub; [..|exact Hc]; unfold hashed_inputs; set_solver].
  apply string_app_inj in E as [_ E]; [|done]. apply string_app_inj in E as [Eb E]; [|done].
  apply be8_inj in Eb; [|lia..]. destruct (history_frames_inj sha256 Hd ts ps ts' ps') as [?|Hc]; try done; [lia|by left|right].
  eapply collide_sub; [..|exact Hc]; unfold hashed_inputs; set_solver.
Qed.

(** * Examples *)

Definition example_sha256 (_ : string) : string :=
  "0000000000000000000000000000000000000000000000000000000000000000".
Definition example_turn (n : Z) : OrdinaryTurn := mkOrdinaryTurn n "ask" "plan" "done".
Definition example_state (n : Z) : ProtectedTurnState := mkProtectedTurnState n "completed" "none" ["a1"].
Definition example_snapshot (n : Z) : HistorySnapshot :=
  mkHistorySnapshot (mkHistoryRevision "s" 1 n (example_sha256 ""))
    (example_turn <$> seqZ 1 n) (example_state <$> seqZ 1 n).
Definition example_parameters : StrategyParameters :=
  mkStrategyParameters 100 100 200 400 2 "p1" SUMMARY_FORMAT.
(** A byte is a token: the estimator adds up exactly. *)
Definition example_limits : ViewLimits :=
  mkViewLimits 1000 10000 3000 2000 400 500 utf8_len "bytes" None.
Definition example_checkpoint : SummaryCheckpoint :=
  mkSummaryCheckpoint (hs_revision (example_snapshot 2)) [1; 2] [example_sha256 ""; example_sha256 ""]
    "compaction" (example_sha256 "") SUMMARY_FORMAT example_summary.

Lemma example_contract checkpoint :
  match checkpoint with Some c => SummaryCheckpoint_valid c = true | None => True end →
  host_contract example_sha256 (example_snapshot 4) example_parameters example_limits checkpoint.
Proof.
  intros Hc. split; [done| | |vm_compute; done|vm_compute; done|vm_compute; done|done].
  - intros a b. simpl. rewrite utf8_len_app. lia.
  - intros a. simpl. unfold utf8_len. lia.
Qed.

(** The newest turn stays exact and the three older ones are summarized by a
    single call. *)
Definition example_run :=
  prepare_view (X := unit) example_sha256
    (λ _ n, (Ok (mkMaintenanceResult (Some example_summary) ["a"] "completed" (Some "stop")), n))
    (λ n, (false, n)) (example_snapshot 4) "compaction" example_parameters example_limits None
    (mkEngineWorld 0%nat []).

Lemma context_view_sound_witness :
  match example_run.1 with
  | Ok v => pv_covered_turn_ids v = [1; 2; 3] ∧ pv_tail_turn_ids v = [4] ∧
            view_ok example_sha256 (example_snapshot 4) example_limits v
  | Err _ => False
  end.
Proof.
  destruct example_run as [r w'] eqn:Hr.
  pose proof (context_view_sound (X := unit) example_sha256
    (λ _ n, (Ok (mkMaintenanceResult (Some example_summary) ["a"] "completed" (Some "stop")), n))
    (λ n, (false, n)) (example_snapshot 4) "compaction" example_parameters example_limits None
    (mkEngineWorld 0%nat []) r w' (example_contract None I)
    ltac:(apply list_elem_of_In; left; reflexivity) eq_refl Hr) as Hs.
  assert (match r with Ok v => pv_covered_turn_ids v = [1; 2; 3] ∧ pv_tail_turn_ids v = [4] ∧
                               pv_available v = true
          | Err _ => False end) as Hv.
  { apply (f_equal fst) in Hr. change ((r, w').1) with r in Hr. rewrite <- Hr.
    vm_compute. repeat split. }
  destruct r as [v|e]; [|exact Hv]. destruct Hv as (H1 & H2 & H3).
  split; [exact H1|]. split; [exact H2|]. destruct Hs as [Hs|[reason ->]]; [exact Hs|discriminate H3].
Defined.

Lemma context_maintenance_bounded_witness :
  length (ew_requests example_run.2) = 1%nat ∧
  Forall (λ q, utf8_len (mr_input_text q) ≤ 2000) (ew_requests example_run.2).
Proof.
  split; [vm_compute; reflexivity|]. destruct example_run as [r w'] eqn:Hr.
  destruct (context_maintenance_bounded (X := unit) example_sha256
    (λ _ n, (Ok (mkMaintenanceResult (Some example_summary) ["a"] "completed" (Some "stop")), n))
    (λ n, (false, n)) (example_snapshot 4) "compaction" example_parameters example_limits None
    (mkEngineWorld 0%nat []) r w' (example_contract None I)
    ltac:(apply list_elem_of_In; left; reflexivity) eq_refl Hr) as (new & E & Hf & _).
  simpl in E |- *. rewrite E. apply (Forall_impl _ _ _ Hf). intros q (_ & Hq & _). exact Hq.
Defined.

(** The history grew by two turns; the checkpoint of the first two is reused. *)
Lemma checkpoint_reuse_exact_witness :
  ru_checkpoint (reuse_checkpoint example_sha256 example_checkpoint (example_snapshot 4) "compaction"
    example_parameters) = Some (rekey example_checkpoint (hs_revision (example_snapshot 4))).
Proof.
  apply (checkpoint_reuse_exact example_sha256 (example_snapshot 4) example_checkpoint "compaction"
    example_parameters); [vm_compute; reflexivity..|].
  split; [reflexivity|]. split; [reflexivity|]. split; [vm_compute; discriminate|].
  split; [vm_compute; discriminate|]. split; [reflexivity|]. split; [reflexivity|].
  split; [reflexivity|]. exists 0%nat. split; [left; reflexivity|]. split; vm_compute; reflexivity.
Defined.

Lemma history_digest_binding_witness :
  let ts := [example_turn 1; example_turn 2] in let ps := [example_state 1; example_state 2] in
  (ts = ts ∧ ps = ps) ∨ collide example_sha256 (hashed_inputs example_sha256 ts ps) (hashed_inputs example_sha256 ts ps).
Proof.
  intros ts ps.
  apply (history_digest_binding example_sha256 ts ps ts ps); try reflexivity;
    try (repeat constructor; fail);
    repeat (apply Forall_cons; split); try apply Forall_nil; try exact I; vm_compute; try reflexivity.
  all: repeat split; repeat (apply Forall_cons; split); try apply Forall_nil; try exact I; reflexivity.
Defined.
