(* ===== verification/Conversation.v ===== *)
(** The conversation a session keeps, [src/src/optimus/acp/conversation.py]: the
    records of its turns, the byte budget they are measured against, admission of
    prompts, commit of results (with the shortening of an overlong reply in an
    attached session), the one-time warning and the session's cost.

    The text sanitizer is a parameter, the value of [ConversationSanitizer]. *)
From Stdlib Require Ascii.
Import (notations) Ascii.
From stdpp Require Import pretty sorting.
From S2P Require Import Prelude Text Json.

Local Open Scope string_scope.
Local Open Scope Z_scope.

Definition CONVERSATION_MAX_BYTES : Z := 524288.
Definition INERT_PLAN_OPEN : string := "<<inert_historical_plan>>".
Definition INERT_PLAN_CLOSE : string := "<</inert_historical_plan>>".

Inductive ConversationDisposition := OPEN | CAP_CLOSED | DELIVERY_INDETERMINATE.
#[export] Instance disposition_eq_dec : EqDecision ConversationDisposition.
Proof. solve_decision. Defined.

Definition disposition_value (d : ConversationDisposition) : string :=
  match d with
  | OPEN => "open"
  | CAP_CLOSED => "cap_closed"
  | DELIVERY_INDETERMINATE => "delivery_indeterminate"
  end.

Inductive ConversationOutcome := COMPLETED | REJECTED | FAILED | CANCELLED.

Definition outcome_value (o : ConversationOutcome) : string :=
  match o with
  | COMPLETED => "completed"
  | REJECTED => "rejected"
  | FAILED => "failed"
  | CANCELLED => "cancelled"
  end.

Inductive EffectState := NONE | COMPLETE | PARTIAL | INDETERMINATE.

Definition effect_value (e : EffectState) : string :=
  match e with
  | NONE => "none"
  | COMPLETE => "complete"
  | PARTIAL => "partial"
  | INDETERMINATE => "indeterminate"
  end.

Record ConversationTurn := mkConversationTurn {
  ct_user_prompt : string;
  ct_plan_text : string;
  ct_completion_text : string;
  ct_outcome : ConversationOutcome;
  ct_effect_state : EffectState
}.

Definition mark_inert_plan (plan_text : string) : string :=
  if String.eqb plan_text "" then "" else INERT_PLAN_OPEN +:+ plan_text +:+ INERT_PLAN_CLOSE.

(** [ConversationTurn.as_record_dict], in [_RECORD_FIELD_ORDER]. *)
Definition as_record_dict (t : ConversationTurn) : odict string string :=
  [("user_prompt", ct_user_prompt t);
   ("plan_text", if String.eqb (ct_plan_text t) "" then "" else mark_inert_plan (ct_plan_text t));
   ("completion_text", ct_completion_text t);
   ("outcome", outcome_value (ct_outcome t));
   ("effect_state", effect_value (ct_effect_state t))].

Record AdmissionDecision := mkAdmissionDecision {
  ad_admitted : bool;
  ad_sanitized_user_prompt : string;
  ad_projected_bytes : Z;
  ad_turn_seq : option Z;
  ad_refuse_reason : option string;
  ad_crosses_warning : bool
}.

Record CommitDecision := mkCommitDecision {
  cd_commit : bool;
  cd_turn_seq : Z;
  cd_projected_bytes : Z;
  cd_closes_cap : bool;
  cd_crosses_warning : bool;
  cd_record : ConversationTurn
}.

Record UsageGauge := mkUsageGauge {
  ug_used : Z;
  ug_size : Z;
  ug_cost : option amount
}.

(** * Rendering *)

Definition seq_le {A} (x y : Z * A) : Prop := x.1 ≤ y.1.
#[export] Instance seq_le_dec {A} : RelDecision (@seq_le A).
Proof. intros x y. unfold seq_le. apply _. Defined.

Abbreviation records := (gmap Z ConversationTurn).

(** The payload both renderers build: the turns in numeric order, each with its
    fields in [_RECORD_FIELD_ORDER]. *)
Definition payload (rs : records) : odict string (odict string string) :=
  (λ kt, (pretty kt.1, as_record_dict kt.2)) <$> merge_sort seq_le (map_to_list rs).

Definition dumps_record (sort_keys : bool) (r : odict string string) : string :=
  json_object ((λ kv, (kv.1, json_string kv.2)) <$> if sort_keys then merge_sort key_le r else r).

Definition dumps (sort_keys : bool) (p : odict string (odict string string)) : string :=
  json_object ((λ kr, (kr.1, dumps_record sort_keys kr.2)) <$>
               if sort_keys then merge_sort key_le p else p).

Definition render_conversation_envelope (rs : records) : string := dumps true (payload rs).
Definition render_model_conversation (rs : records) : string := dumps false (payload rs).

Definition rendered_byte_length (rs : records) : Z :=
  Z.of_nat (String.length (render_conversation_envelope rs)).

Definition provisional_turn (sanitized_user_prompt : string) : ConversationTurn :=
  mkConversationTurn sanitized_user_prompt "" "" COMPLETED NONE.

Definition crosses_warning_threshold (used_bytes source_max_bytes : Z) : bool :=
  source_max_bytes * 4 <=? used_bytes * 5.

(** * The state *)

(** The fields of a [ConversationState]; the first two are the class attributes
    that [AttachedConversationState.__init__] overrides. *)
Record ConversationState := mkConversationState {
  cs_source_max_bytes : Z;
  cs_record_reservation_bytes : Z;
  cs_records : records;
  cs_next_turn_seq : Z;
  cs_disposition : ConversationDisposition;
  cs_warning_crossed : bool;
  cs_warning_confirmed : bool;
  cs_session_cost : amount;
  cs_cost_complete : bool;
  cs_cost_applied_turns : gset Z;
  cs_projected_costs : gmap string (amount * bool)
}.

Definition new_state (source_max reservation : Z) : ConversationState :=
  mkConversationState source_max reservation ∅ 1 OPEN false false 0 true ∅ ∅.

(** [ConversationState.__init__]. *)
Definition new_conversation : ConversationState := new_state CONVERSATION_MAX_BYTES 0.

(** [AttachedConversationState.__init__]. *)
Definition new_attached (source_max_bytes record_reservation_bytes : Z)
    : res string ConversationState :=
  raise_if ((source_max_bytes <=? 0) ||
            negb ((0 <=? record_reservation_bytes) && (record_reservation_bytes <? source_max_bytes)))
    "a conversation needs a positive source limit and a reservation below it" ;;*
  Ok (new_state source_max_bytes record_reservation_bytes).

Definition with_disposition (d : ConversationDisposition) (s : ConversationState) :=
  mkConversationState (cs_source_max_bytes s) (cs_record_reservation_bytes s) (cs_records s)
    (cs_next_turn_seq s) d (cs_warning_crossed s) (cs_warning_confirmed s) (cs_session_cost s)
    (cs_cost_complete s) (cs_cost_applied_turns s) (cs_projected_costs s).

Definition with_records (rs : records) (next : Z) (s : ConversationState) :=
  mkConversationState (cs_source_max_bytes s) (cs_record_reservation_bytes s) rs next
    (cs_disposition s) (cs_warning_crossed s) (cs_warning_confirmed s) (cs_session_cost s)
    (cs_cost_complete s) (cs_cost_applied_turns s) (cs_projected_costs s).

Definition with_warning (crossed confirmed : bool) (s : ConversationState) :=
  mkConversationState (cs_source_max_bytes s) (cs_record_reservation_bytes s) (cs_records s)
    (cs_next_turn_seq s) (cs_disposition s) crossed confirmed (cs_session_cost s)
    (cs_cost_complete s) (cs_cost_applied_turns s) (cs_projected_costs s).

Definition with_cost (cost : amount) (complete : bool) (applied : gset Z)
    (projected : gmap string (amount * bool)) (s : ConversationState) :=
  mkConversationState (cs_source_max_bytes s) (cs_record_reservation_bytes s) (cs_records s)
    (cs_next_turn_seq s) (cs_disposition s) (cs_warning_crossed s) (cs_warning_confirmed s)
    cost complete applied projected.

Definition used_bytes (s : ConversationState) : Z := rendered_byte_length (cs_records s).
Definition generation (s : ConversationState) : Z := Z.of_nat (size (cs_records s)).

(** ** Cost *)

Definition project_turn_cost (turn_id : string) (known_usd : amount) (complete : bool)
    (s : ConversationState) : ConversationState :=
  with_cost (cs_session_cost s) (cs_cost_complete s) (cs_cost_applied_turns s)
    (<[turn_id := (known_usd, complete)]> (cs_projected_costs s)) s.

Definition cost_totals (s : ConversationState) : amount * bool :=
  (cs_session_cost s + sumZ ((λ kv, kv.2.1) <$> map_to_list (cs_projected_costs s)),
   cs_cost_complete s && forallb (λ kv, kv.2.2) (map_to_list (cs_projected_costs s))).

Definition known_cost_usd (s : ConversationState) : amount := (cost_totals s).1.
Definition cost_complete (s : ConversationState) : bool := (cost_totals s).2.

Definition apply_planning_cost_once (turn_seq : Z) (cost_usd : option amount) (complete : bool)
    (s : ConversationState) : ConversationState :=
  if bool_decide (turn_seq ∈ cs_cost_applied_turns s) then s
  else
    with_cost (cs_session_cost s + default 0 cost_usd)
      (if negb complete || bool_decide (cost_usd = None) then false else cs_cost_complete s)
      ({[turn_seq]} ∪ cs_cost_applied_turns s) (cs_projected_costs s) s.

Definition usage_gauge (s : ConversationState) : UsageGauge :=
  mkUsageGauge (used_bytes s / 4) (cs_source_max_bytes s / 4)
    (if cost_complete s then Some (known_cost_usd s) else None).

(** ** Admission *)

Definition refused (sanitized : string) (projected : Z) (reason : string) : AdmissionDecision :=
  mkAdmissionDecision false sanitized projected None (Some reason) false.

Definition prepare_admission (sanitize : string → string) (raw_user_prompt : string)
    (s : ConversationState) : AdmissionDecision * ConversationState :=
  let sanitized := sanitize raw_user_prompt in
  if negb (bool_decide (cs_disposition s = OPEN)) then
    (refused sanitized (used_bytes s) (disposition_value (cs_disposition s)), s)
  else
    let turn_seq := cs_next_turn_seq s in
    let projected := rendered_byte_length (<[turn_seq := provisional_turn sanitized]> (cs_records s)) in
    if cs_source_max_bytes s <? projected then
      (refused sanitized projected "cap", with_disposition CAP_CLOSED s)
    else if cs_source_max_bytes s <? projected + cs_record_reservation_bytes s then
      let shortest := <[turn_seq := provisional_turn ""]> (cs_records s) in
      if cs_source_max_bytes s <? rendered_byte_length shortest + cs_record_reservation_bytes s
      then (refused sanitized projected "cap", with_disposition CAP_CLOSED s)
      else (refused sanitized projected "reservation", s)
    else
      (mkAdmissionDecision true sanitized projected (Some turn_seq) None
         (crosses_warning_threshold projected (cs_source_max_bytes s) &&
          negb (cs_warning_confirmed s)), s).

Definition allocate_turn_seq (s : ConversationState) : Z * ConversationState :=
  (cs_next_turn_seq s, with_records (cs_records s) (cs_next_turn_seq s + 1) s).

(** ** Commit *)

(** [ConversationState.prepare_commit]. *)
Definition prepare_commit (s : ConversationState) (turn_seq : Z) (prompt plan completion : string)
    (outcome : ConversationOutcome) (effect : EffectState) : CommitDecision :=
  let record := mkConversationTurn prompt plan completion outcome effect in
  let projected := rendered_byte_length (<[turn_seq := record]> (cs_records s)) in
  mkCommitDecision true turn_seq projected (CONVERSATION_MAX_BYTES <? projected)
    (crosses_warning_threshold projected CONVERSATION_MAX_BYTES && negb (cs_warning_confirmed s))
    record.

Definition commit_after_final_flush (d : CommitDecision) (s : ConversationState)
    : ConversationState :=
  let next := if cs_next_turn_seq s <=? cd_turn_seq d then cd_turn_seq d + 1
              else cs_next_turn_seq s in
  let s1 := with_records (<[cd_turn_seq d := cd_record d]> (cs_records s)) next s in
  if bool_decide (cs_disposition s1 = DELIVERY_INDETERMINATE) then s1
  else if cd_closes_cap d && bool_decide (cs_disposition s1 = OPEN)
  then with_disposition CAP_CLOSED s1 else s1.

Definition latch_delivery_indeterminate (s : ConversationState) : ConversationState :=
  with_disposition DELIVERY_INDETERMINATE s.

(** ** The warning *)

Definition note_warning_threshold_for_attempt (projected_bytes : Z) (s : ConversationState)
    : bool * ConversationState :=
  if cs_warning_confirmed s || cs_warning_crossed s then (false, s)
  else if negb (crosses_warning_threshold projected_bytes (cs_source_max_bytes s)) then (false, s)
  else (true, with_warning true (cs_warning_confirmed s) s).

Definition rearm_warning_attempt (s : ConversationState) : ConversationState :=
  if negb (cs_warning_confirmed s) then with_warning false (cs_warning_confirmed s) s else s.

Definition confirm_warning_flushed (s : ConversationState) : ConversationState :=
  with_warning true true s.

Definition planner_envelope (s : ConversationState) : string :=
  render_model_conversation (cs_records s).

(** * Attached sessions *)

Definition COMPLETION_TRUNCATION_MARKER : string :=
  String (byte_of 10) "[This reply was shortened to fit this conversation's storage; outcomes, effects and approvals are kept exactly.]".

(** [max(l, key=f)]: the first of the greatest. *)
Definition max_by {A} (f : A → nat) (x : A) (l : list A) : A :=
  foldl (λ best y, if (f best <? f y)%nat then y else best) x l.

Definition LONGEST_OUTCOME : ConversationOutcome :=
  max_by (λ o, String.length (outcome_value o)) COMPLETED [REJECTED; FAILED; CANCELLED].
Definition LONGEST_EFFECT : EffectState :=
  max_by (λ e, String.length (effect_value e)) NONE [COMPLETE; PARTIAL; INDETERMINATE].

(** The search of [_shortened] for the longest prefix that fits. *)
Fixpoint shorten_search (fuel : nat) (measure : string → CommitDecision) (max : Z)
    (completion : string) (low high : nat) (best : CommitDecision) : option CommitDecision :=
  if (low <? high)%nat then
    match fuel with
    | O => None
    | S fuel' =>
        let middle := ((low + high + 1) / 2)%nat in
        let candidate := measure (py_prefix middle completion +:+ COMPLETION_TRUNCATION_MARKER) in
        if cd_projected_bytes candidate <=? max
        then shorten_search fuel' measure max completion middle high candidate
        else shorten_search fuel' measure max completion low (middle - 1) best
    end
  else Some best.

(** [AttachedConversationState._shortened]; the search halves its range, so the
    length of the text is more fuel than it needs. *)
Definition shortened (measure : string → CommitDecision) (max : Z) (completion : string)
    (overflowing : CommitDecision) : option CommitDecision :=
  let best := measure COMPLETION_TRUNCATION_MARKER in
  if max <? cd_projected_bytes best then Some overflowing
  else shorten_search (py_len completion) measure max completion 0 (py_len completion) best.

(** [AttachedConversationState.prepare_commit]; [None] stands for a search that
    has not ended. *)
Definition prepare_commit_attached (s : ConversationState) (turn_seq : Z)
    (prompt plan completion : string) (outcome : ConversationOutcome) (effect : EffectState)
    : option CommitDecision :=
  let measure c := prepare_commit s turn_seq prompt plan c outcome effect in
  let decision := measure completion in
  (if (cs_source_max_bytes s <? cd_projected_bytes decision) && negb (String.eqb completion "")
   then shortened measure (cs_source_max_bytes s) completion decision
   else Some decision) ≫= λ d,
  let projected := cd_projected_bytes d in
  Some (mkCommitDecision (cd_commit d) (cd_turn_seq d) projected
    (cs_source_max_bytes s <? projected)
    (crosses_warning_threshold projected (cs_source_max_bytes s) && negb (cs_warning_confirmed s))
    (cd_record d)).

Definition plan_fits (s : ConversationState) (turn_seq : Z) (prompt plan : string) : bool :=
  cd_projected_bytes
    (prepare_commit s turn_seq prompt plan COMPLETION_TRUNCATION_MARKER LONGEST_OUTCOME LONGEST_EFFECT)
  <=? cs_source_max_bytes s.

(** * Histories of calls *)

Inductive conversation_op :=
| OpAdmit (raw_user_prompt : string)
| OpAllocate
| OpPlanningCost (turn_seq : Z) (cost_usd : option amount) (complete : bool)
| OpProjectCost (turn_id : string) (known_usd : amount) (complete : bool)
| OpCommit (d : CommitDecision)
| OpLatch
| OpNoteWarning (projected_bytes : Z)
| OpRearmWarning
| OpConfirmWarning.

Definition run_conversation_op (sanitize : string → string) (op : conversation_op)
    (s : ConversationState) : ConversationState :=
  match op with
  | OpAdmit raw => (prepare_admission sanitize raw s).2
  | OpAllocate => (allocate_turn_seq s).2
  | OpPlanningCost k c b => apply_planning_cost_once k c b s
  | OpProjectCost t c b => project_turn_cost t c b s
  | OpCommit d => commit_after_final_flush d s
  | OpLatch => latch_delivery_indeterminate s
  | OpNoteWarning b => (note_warning_threshold_for_attempt b s).2
  | OpRearmWarning => rearm_warning_attempt s
  | OpConfirmWarning => confirm_warning_flushed s
  end.

Definition run_conversation (sanitize : string → string) (ops : list conversation_op)
    (s : ConversationState) : ConversationState :=
  foldl (λ s op, run_conversation_op sanitize op s) s ops.

(** * Lengths of renderings *)

Definition blen (s : string) : Z := Z.of_nat (String.length s).

Lemma blen_app a b : blen (a +:+ b) = blen a + blen b.
Proof. unfold blen. rewrite string_length_app. lia. Qed.

Lemma blen_nonneg s : 0 ≤ blen s.
Proof. unfold blen. lia. Qed.

Lemma blen_join_comma l :
  blen (join "," l) = sumZ (blen <$> l) + Z.max 0 (Z.of_nat (length l) - 1).
Proof.
  induction l as [|w [|w' l] IH]; [done|simpl; lia|].
  change (join "," (w :: w' :: l)) with (w +:+ "," +:+ join "," (w' :: l)).
  rewrite !blen_app, IH. rewrite !fmap_cons, !sumZ_cons. change (blen ",") with 1.
  cbn [length]. lia.
Qed.

(** The length of an object, by its entries in any order. *)
Definition entry_length (kv : string * string) : Z := blen (json_string kv.1) + 1 + blen kv.2.

Lemma blen_object fields :
  blen (json_object fields) =
  2 + sumZ (entry_length <$> fields) + Z.max 0 (Z.of_nat (length fields) - 1).
Proof.
  unfold json_object. rewrite !blen_app, blen_join_comma, length_fmap, <- list_fmap_compose.
  change (blen "{") with 1. change (blen "}") with 1.
  assert ((blen ∘ λ kv, json_string kv.1 +:+ ":" +:+ kv.2) <$> fields = entry_length <$> fields) as ->; [|lia].
  apply list_fmap_ext. intros i kv _. simpl. unfold entry_length. rewrite !blen_app.
  change (blen ":") with 1. lia.
Qed.

#[export] Instance blen_object_proper :
  Proper (Permutation ==> eq) (λ fields, blen (json_object fields)).
Proof. intros l k Hp. by rewrite !blen_object, Hp. Qed.

(** One turn as rendered: its five fields, whatever their order. *)
Definition record_length (t : ConversationTurn) : Z := blen (dumps_record false (as_record_dict t)).

Lemma dumps_record_length sort_keys r :
  blen (dumps_record sort_keys r) = blen (dumps_record false r).
Proof.
  unfold dumps_record. destruct sort_keys; [|done].
  apply (blen_object_proper _ _ (fmap_Permutation _ _ _ (merge_sort_Permutation _ _))).
Qed.

Definition turn_length (kt : Z * ConversationTurn) : Z :=
  blen (json_string (pretty kt.1)) + 1 + record_length kt.2.

Lemma dumps_length sort_keys rs :
  blen (dumps sort_keys (payload rs)) =
  2 + sumZ (turn_length <$> map_to_list rs) + Z.max 0 (Z.of_nat (size rs) - 1).
Proof.
  assert ((if sort_keys then merge_sort key_le (payload rs) else payload rs) ≡ₚ
          (λ kt, (pretty kt.1, as_record_dict kt.2)) <$> map_to_list rs) as Hp.
  { transitivity (payload rs); [destruct sort_keys; [apply merge_sort_Permutation|done]|].
    apply fmap_Permutation, merge_sort_Permutation. }
  unfold dumps. rewrite blen_object, length_fmap, Hp, length_fmap, length_map_to_list.
  rewrite <- !list_fmap_compose.
  f_equal. f_equal. f_equal. apply list_fmap_ext. intros i kt _. unfold turn_length, entry_length. simpl.
  by rewrite dumps_record_length.
Qed.

(** Replacing one turn of a conversation moves its length by the difference of
    the two records. *)
Lemma rendered_insert rs k t t' :
  rendered_byte_length (<[k := t]> rs) - record_length t =
  rendered_byte_length (<[k := t']> rs) - record_length t'.
Proof.
  unfold rendered_byte_length, render_conversation_envelope. fold (blen (dumps true (payload (<[k:=t]> rs)))).
  fold (blen (dumps true (payload (<[k:=t']> rs)))). rewrite !dumps_length.
  rewrite <- !(insert_delete_eq rs k).
  rewrite !map_to_list_insert, !map_size_insert_None by apply lookup_delete_eq.
  rewrite !fmap_cons, !sumZ_cons. unfold turn_length. simpl. lia.
Qed.

Lemma record_length_eq t :
  record_length t =
  blen (json_escape (ct_user_prompt t)) +
  blen (json_escape (if String.eqb (ct_plan_text t) "" then "" else mark_inert_plan (ct_plan_text t))) +
  blen (json_escape (ct_completion_text t)) + blen (outcome_value (ct_outcome t)) +
  blen (effect_value (ct_effect_state t)) + 85.
Proof.
  unfold record_length, dumps_record. rewrite blen_object. unfold as_record_dict.
  rewrite !fmap_cons, !sumZ_cons. unfold entry_length, json_string. cbn [fst snd].
  rewrite !blen_app. change (blen quote) with 1.
  assert (∀ o, blen (json_escape (outcome_value o)) = blen (outcome_value o)) as -> by (by intros []).
  assert (∀ e, blen (json_escape (effect_value e)) = blen (effect_value e)) as -> by (by intros []).
  repeat match goal with |- context [blen (json_escape ?s)] =>
    lazymatch s with String _ _ => let v := eval vm_compute in (blen (json_escape s)) in
      change (blen (json_escape s)) with v end end.
  simpl. lia.
Qed.

(** * Commit in an attached session *)

Section attached.
Context (s : ConversationState) (k : Z) (prompt plan : string).
Abbreviation measure o e c := (prepare_commit s k prompt plan c o e).

Lemma measure_mono o e o' e' c c' :
  blen (json_escape c) ≤ blen (json_escape c') →
  blen (outcome_value o) ≤ blen (outcome_value o') →
  blen (effect_value e) ≤ blen (effect_value e') →
  cd_projected_bytes (measure o e c) ≤ cd_projected_bytes (measure o' e' c').
Proof.
  intros Hc Ho He. simpl.
  pose proof (rendered_insert (cs_records s) k (mkConversationTurn prompt plan c o e)
    (mkConversationTurn prompt plan c' o' e')) as Hd.
  rewrite !record_length_eq in Hd. simpl in Hd. lia.
Qed.

Lemma longest_values o e :
  blen (outcome_value o) ≤ blen (outcome_value LONGEST_OUTCOME) ∧
  blen (effect_value e) ≤ blen (effect_value LONGEST_EFFECT).
Proof. destruct o, e; vm_compute; by split. Qed.

Context (o : ConversationOutcome) (e : EffectState) (completion : string) (max : Z).
Abbreviation cut n :=
  (prepare_commit s k prompt plan (py_prefix n completion +:+ COMPLETION_TRUNCATION_MARKER) o e).

Lemma cut_mono m n : (m ≤ n)%nat → cd_projected_bytes (cut m) ≤ cd_projected_bytes (cut n).
Proof.
  intros Hle. apply (measure_mono o e o e _ _); [|reflexivity..].
  destruct (py_prefix_extends m n completion Hle) as [rest ->].
  rewrite !json_escape_app, !blen_app. pose proof (blen_nonneg (json_escape rest)). lia.
Qed.

Lemma shorten_search_spec fuel low high :
  (high - low ≤ fuel)%nat → (low ≤ high)%nat →
  cd_projected_bytes (cut low) ≤ max →
  (∀ m, (high < m)%nat → (m ≤ py_len completion)%nat → max < cd_projected_bytes (cut m)) →
  ∃ n, shorten_search fuel (λ c, measure o e c) max completion low high (cut low) = Some (cut n) ∧
    (low ≤ n ≤ high)%nat ∧ cd_projected_bytes (cut n) ≤ max ∧
    ∀ m, (m ≤ py_len completion)%nat → cd_projected_bytes (cut m) ≤ max → (m ≤ n)%nat.
Proof.
  revert low high. induction fuel as [|fuel IH]; intros low high Hf Hle Hlow Hhigh.
  { assert (low = high) as -> by lia. exists high. unfold shorten_search. rewrite Nat.ltb_irrefl.
    split_and!; try done. intros m Hm Hfit. destruct (le_lt_dec m high) as [|Hgt]; [done|].
    specialize (Hhigh m Hgt Hm). lia. }
  cbn [shorten_search]. destruct (Nat.ltb_spec low high) as [Hlt|Hge].
  2: { assert (low = high) as -> by lia. exists high. split_and!; try done.
       intros m Hm Hfit. destruct (le_lt_dec m high) as [|Hgt]; [done|].
       specialize (Hhigh m Hgt Hm). lia. }
  set (middle := ((low + high + 1) / 2)%nat).
  assert (low < middle ≤ high)%nat as Hmid.
  { pose proof (Nat.div_mod (low + high + 1) 2 ltac:(lia)).
    pose proof (Nat.mod_upper_bound (low + high + 1) 2 ltac:(lia)). lia. }
  destruct (Z.leb_spec (cd_projected_bytes (cut middle)) max) as [Hfit|Hover].
  - destruct (IH middle high) as (n & -> & Hn & Hf1 & Hmax); [lia|lia|done|done|].
    exists n. split_and!; [done|lia|lia|done|done].
  - destruct (IH low (middle - 1)%nat) as (n & -> & Hn & Hfit & Hmax); [lia|lia|done| |].
    + intros m Hm _. pose proof (cut_mono middle m ltac:(lia)). lia.
    + exists n. split_and!; [done|lia|lia|done|done].
Qed.
(** The reply that is kept: whole if it fits, else its longest prefix that fits. *)
Definition kept_reply (kept : string) : Prop :=
  cd_projected_bytes (measure o e kept) ≤ max ∧
  if cd_projected_bytes (measure o e completion) <=? max then kept = completion
  else ∃ n, kept = py_prefix n completion +:+ COMPLETION_TRUNCATION_MARKER ∧
       ∀ m, (m ≤ py_len completion)%nat → cd_projected_bytes (cut m) ≤ max → (m ≤ n)%nat.

Lemma reply_kept :
  cd_projected_bytes (measure o e COMPLETION_TRUNCATION_MARKER) ≤ max →
  ∃ kept, (if (max <? cd_projected_bytes (measure o e completion)) && negb (String.eqb completion "")
           then shortened (λ c, measure o e c) max completion (measure o e completion)
           else Some (measure o e completion)) = Some (measure o e kept) ∧ kept_reply kept.
Proof.
  intros Hm. unfold kept_reply.
  destruct (Z.ltb_spec max (cd_projected_bytes (measure o e completion))) as [Hov|Hok].
  2: { rewrite (proj2 (Z.leb_le _ _) Hok). by exists completion. }
  rewrite (proj2 (Z.leb_gt _ _) Hov). destruct (String.eqb_spec completion "") as [Hc|Hne].
  { pose proof (measure_mono o e o e completion COMPLETION_TRUNCATION_MARKER) as Hle.
    rewrite Hc in Hle at 1. specialize (Hle (blen_nonneg _) (Z.le_refl _) (Z.le_refl _)). lia. }
  simpl negb. cbv iota. unfold shortened. rewrite (proj2 (Z.ltb_ge _ _) Hm).
  destruct (shorten_search_spec (py_len completion) 0 (py_len completion))
    as (n & Hn & _ & Hnf & Hmax); [lia|lia|exact Hm|lia|].
  exists (py_prefix n completion +:+ COMPLETION_TRUNCATION_MARKER). split; [exact Hn|].
  split; [exact Hnf|]. by exists n.
Qed.
End attached.

Lemma commit_used_bytes s d :
  used_bytes (commit_after_final_flush d s) =
    rendered_byte_length (<[cd_turn_seq d := cd_record d]> (cs_records s)) ∧
  (cd_closes_cap d = false → cs_disposition (commit_after_final_flush d s) = cs_disposition s).
Proof.
  unfold commit_after_final_flush, used_bytes.
  destruct (bool_decide _); [done|]. by destruct (cd_closes_cap d); [destruct (bool_decide _)|].
Qed.

(** C6: An approved plan's result can always be stored: in an attached session, if
    [plan_fits] accepted a turn's prompt and plan, then whatever reply, outcome
    and effect the turn ends with, the commit is decided (the search for the
    shortening ends), the record fits the session's limit, the thread is not
    closed, and prompt, plan, outcome and effect are kept exactly. The reply is
    kept whole, or, only if it does not fit, as its longest prefix (in
    characters) that fits with the marker. *)
Theorem committed_result_fits s k prompt plan completion outcome effect :
  plan_fits s k prompt plan = true →
  ∃ d kept, prepare_commit_attached s k prompt plan completion outcome effect = Some d ∧
    cd_record d = mkConversationTurn prompt plan kept outcome effect ∧
    used_bytes (commit_after_final_flush d s) = cd_projected_bytes d ∧
    cd_projected_bytes d ≤ cs_source_max_bytes s ∧
    cs_disposition (commit_after_final_flush d s) = cs_disposition s ∧
    let size c := cd_projected_bytes (prepare_commit s k prompt plan c outcome effect) in
    let cut n := py_prefix n completion +:+ COMPLETION_TRUNCATION_MARKER in
    if size completion <=? cs_source_max_bytes s then kept = completion
    else ∃ n, kept = cut n ∧
         ∀ m, (m ≤ py_len completion)%nat → size (cut m) ≤ cs_source_max_bytes s → (m ≤ n)%nat.
Proof.
  intros Hfits. unfold plan_fits in Hfits. apply Z.leb_le in Hfits.
  pose proof (longest_values outcome effect) as [Ho He].
  destruct (reply_kept s k prompt plan outcome effect completion (cs_source_max_bytes s))
    as (kept & Hkept & Hfit & Hcase).
  { etransitivity; [|exact Hfits]. exact (measure_mono s k prompt plan _ _ _ _ _ _ (Z.le_refl _) Ho He). }
  unfold prepare_commit_attached. rewrite Hkept. cbn [option_bind mbind]. cbv zeta.
  eexists _, kept. split; [reflexivity|]. split; [reflexivity|].
  match goal with |- used_bytes (commit_after_final_flush ?d s) = _ ∧ _ =>
    destruct (commit_used_bytes s d) as [Hu Hd] end.
  split_and!; [exact Hu|exact Hfit|apply Hd; by apply Z.ltb_ge|exact Hcase].
Qed.

Definition example_attached : ConversationState := new_state 300 50.

Lemma committed_result_fits_witness :
  plan_fits example_attached 1 "hi" "do" = true ∧
  ∃ d kept, prepare_commit_attached example_attached 1 "hi" "do" (join "-" (repeat "abcdefghi" 20))
      COMPLETED PARTIAL = Some d ∧
    cd_record d = mkConversationTurn "hi" "do" kept COMPLETED PARTIAL ∧
    cd_projected_bytes d ≤ 300.
Proof.
  split; [vm_compute; reflexivity|].
  destruct (committed_result_fits example_attached 1 "hi" "do" (join "-" (repeat "abcdefghi" 20))
    COMPLETED PARTIAL ltac:(vm_compute; reflexivity)) as (d & kept & E1 & E2 & _ & E3 & _).
  exists d, kept. exact (conj E1 (conj E2 E3)).
Defined.

Example shortened_example :
  cd_record <$> prepare_commit_attached example_attached 1 "hi" "do"
    (join "-" (repeat "abcdefghi" 20)) COMPLETED PARTIAL =
  Some (mkConversationTurn "hi" "do"
    (py_prefix 24 (join "-" (repeat "abcdefghi" 20)) +:+ COMPLETION_TRUNCATION_MARKER)
    COMPLETED PARTIAL).
Proof. vm_compute. reflexivity. Qed.

(** The history shown to the model and the storage form that the budget
    measures always have the same number of bytes, for any set of turns, although
    they order turns and fields differently. *)
Theorem renderings_same_length rs :
  String.length (render_model_conversation rs) = String.length (render_conversation_envelope rs).
Proof.
  pose proof (dumps_length false rs) as H1. pose proof (dumps_length true rs) as H2.
  unfold blen in H1, H2. unfold render_model_conversation, render_conversation_envelope. lia.
Qed.

(** * Histories *)

(** The two ways a session's conversation starts. *)
Inductive conversation_start : ConversationState → Prop :=
| start_unattached : conversation_start new_conversation
| start_attached m r s0 : new_attached m r = Ok s0 → conversation_start s0.

Definition reachable (sanitize : string → string) (s : ConversationState) : Prop :=
  ∃ ops s0, conversation_start s0 ∧ s = run_conversation sanitize ops s0.

Record conversation_inv (s : ConversationState) : Prop := {
  ci_reservation : 0 ≤ cs_record_reservation_bytes s;
  ci_fresh : ∀ k, is_Some (cs_records s !! k) → k < cs_next_turn_seq s
}.

Lemma start_inv s0 : conversation_start s0 → conversation_inv s0.
Proof.
  intros [|m r s Hs].
  - split; [done|]. intros k [t Ht]. by destruct (lookup_empty_Some k t).
  - unfold new_attached in Hs. inv_res. bool_to_prop. split; simpl; [lia|].
    intros k [t Ht]. by destruct (lookup_empty_Some k t).
Qed.

Lemma conversation_op_inv sanitize op s :
  conversation_inv s → conversation_inv (run_conversation_op sanitize op s).
Proof.
  intros [Hr Hf]. destruct op; simpl.
  - unfold prepare_admission. split_ifs; by split.
  - split; simpl; [done|]. intros k Hk. specialize (Hf k Hk). lia.
  - unfold apply_planning_cost_once. split_ifs; by split.
  - by split.
  - set (next := if cs_next_turn_seq s <=? cd_turn_seq d then cd_turn_seq d + 1 else cs_next_turn_seq s).
    assert (conversation_inv (with_records (<[cd_turn_seq d := cd_record d]> (cs_records s)) next s)) as [Hr1 Hf1].
    { split; simpl; [done|]. intros k Hk. unfold next.
      destruct (Z.leb_spec (cs_next_turn_seq s) (cd_turn_seq d)); destruct (decide (k = cd_turn_seq d)) as [->|Hne]; [lia| |lia|];
        rewrite lookup_insert_ne in Hk by done; specialize (Hf k Hk); lia. }
    unfold commit_after_final_flush. fold next. split_ifs; by split.
  - by split.
  - unfold note_warning_threshold_for_attempt. split_ifs; by split.
  - unfold rearm_warning_attempt. split_ifs; by split.
  - by split.
Qed.

Lemma reachable_inv sanitize s : reachable sanitize s → conversation_inv s.
Proof.
  intros (ops & s0 & H0 & ->). apply start_inv in H0. revert s0 H0.
  induction ops as [|op ops IH]; intros s0 H0; [done|]. by apply IH, conversation_op_inv.
Qed.

(** A closed conversation stays closed. *)
Lemma closed_op sanitize op s :
  cs_disposition s ≠ OPEN → cs_disposition (run_conversation_op sanitize op s) ≠ OPEN.
Proof.
  intros Hc. destruct op; simpl; try done.
  - unfold prepare_admission. by rewrite bool_decide_eq_false_2.
  - unfold apply_planning_cost_once. split_ifs.
  - unfold commit_after_final_flush. split_ifs.
  - unfold note_warning_threshold_for_attempt. split_ifs.
  - unfold rearm_warning_attempt. split_ifs.
Qed.

Lemma closed_forever sanitize ops s :
  cs_disposition s ≠ OPEN → cs_disposition (run_conversation sanitize ops s) ≠ OPEN.
Proof.
  revert s. induction ops as [|op ops IH]; intros s Hc; [done|]. by apply IH, closed_op.
Qed.

(** The bytes the conversation would have with a prompt as its next turn. *)
Definition prompt_size (s : ConversationState) (prompt : string) : Z :=
  rendered_byte_length (<[cs_next_turn_seq s := provisional_turn prompt]> (cs_records s)).

(** C34: Admission is exact and its closing is final. In every conversation
    reachable by any history of calls: a prompt is admitted exactly when the
    thread is open and the prompt, sanitized, leaves the record reservation within
    the limit, and then under a turn number no record has; a refusal for the
    reservation changes nothing and a short enough prompt is still admitted; and
    the thread is closed only if the prompt exceeds the limit itself or no prompt
    leaves the reservation, after which no prompt is ever admitted again, whatever
    is called in between. *)
Theorem admission_exact sanitize s raw d s' :
  reachable sanitize s → prepare_admission sanitize raw s = (d, s') →
  let size := prompt_size s in
  let limit := cs_source_max_bytes s in
  let reservation := cs_record_reservation_bytes s in
  (ad_admitted d = true ↔
     cs_disposition s = OPEN ∧ size (sanitize raw) + reservation ≤ limit) ∧
  (ad_admitted d = true →
     s' = s ∧ ∃ k, ad_turn_seq d = Some k ∧ cs_records s !! k = None) ∧
  (ad_refuse_reason d = Some "reservation" →
     s' = s ∧ ∀ raw', sanitize raw' = "" → ad_admitted (prepare_admission sanitize raw' s).1 = true) ∧
  (cs_disposition s = OPEN → cs_disposition s' ≠ OPEN →
     (limit < size (sanitize raw) ∨ limit < size "" + reservation) ∧
     ∀ ops raw', ad_admitted (prepare_admission sanitize raw' (run_conversation sanitize ops s')).1 = false).
Proof.
  intros [Hres Hfresh]%reachable_inv Hd. cbv zeta.
  assert (∀ s raw, cs_disposition s ≠ OPEN → ad_admitted (prepare_admission sanitize raw s).1 = false)
    as Hclosed by (intros s1 raw1 Hs1; unfold prepare_admission; by rewrite bool_decide_eq_false_2).
  assert (cs_records s !! cs_next_turn_seq s = None) as Hnone.
  { apply eq_None_not_Some. intros Hk%Hfresh. lia. }
  destruct (decide (cs_disposition s = OPEN)) as [Hopen|Hshut].
  2: { specialize (Hclosed s raw Hshut). rewrite Hd in Hclosed. simpl in Hclosed.
       unfold prepare_admission in Hd. rewrite bool_decide_eq_false_2 in Hd by done.
       destruct (cs_disposition s) eqn:E; naive_solver. }
  assert (∀ ops, cs_disposition (run_conversation sanitize ops (with_disposition CAP_CLOSED s)) ≠ OPEN)
    as Hforever by (intros ops; by apply closed_forever).
  unfold prepare_admission in *. fold (prompt_size s (sanitize raw)) in Hd. fold (prompt_size s "") in *.
  rewrite bool_decide_eq_true_2 in * by done. simpl in *.
  destruct (Z.ltb_spec (cs_source_max_bytes s) (prompt_size s (sanitize raw))).
  { injection Hd as <- <-. simpl. split_and!; try done; [split; [done|lia]|]. intros _ _. split; [by left|].
    intros ops raw'. by rewrite bool_decide_eq_false_2. }
  destruct (Z.ltb_spec (cs_source_max_bytes s)
    (prompt_size s (sanitize raw) + cs_record_reservation_bytes s)).
  - destruct (Z.ltb_spec (cs_source_max_bytes s) (prompt_size s "" + cs_record_reservation_bytes s));
      injection Hd as <- <-; simpl.
    + split_and!; try done; [split; [done|lia]|]. intros _ _. split; [by right|].
      intros ops raw'. by rewrite bool_decide_eq_false_2.
    + split_and!; try done; [split; [done|lia]|]. intros _. split; [done|]. intros raw' Hr.
      rewrite Hr. fold (prompt_size s ""). rewrite !(proj2 (Z.ltb_ge _ _)) by lia. done.
  - injection Hd as <- <-. simpl. split_and!; try done. intros _. split; [done|]. eauto.
Qed.

Definition example_prompt : string := join "-" (repeat "abcdefghi" 16).

Lemma admission_exact_witness :
  let '(d, s') := prepare_admission id example_prompt example_attached in
  reachable id example_attached ∧ ad_refuse_reason d = Some "reservation" ∧ s' = example_attached ∧
  ad_admitted (prepare_admission id "" example_attached).1 = true.
Proof.
  assert (reachable id example_attached) as Hr.
  { exists [], example_attached. split; [|reflexivity]. by apply (start_attached 300 50). }
  destruct (prepare_admission id example_prompt example_attached) as [d s'] eqn:Hd.
  assert (ad_refuse_reason d = Some "reservation") as Hreason.
  { change d with (d, s').1. rewrite <- Hd. vm_compute. reflexivity. }
  destruct (admission_exact id example_attached example_prompt d s' Hr Hd)
    as (_ & _ & H3 & _). destruct (H3 Hreason) as [-> Hadm].
  split_and!; [exact Hr|exact Hreason|reflexivity|by apply Hadm].
Defined.

(** ** Cost *)

(** The first planning cost given for each turn, and the last projection of each. *)
Fixpoint first_planning (ops : list conversation_op) : gmap Z (option amount * bool) :=
  match ops with
  | [] => ∅
  | OpPlanningCost k c b :: ops' => {[k := (c, b)]} ∪ first_planning ops'
  | _ :: ops' => first_planning ops'
  end.

Fixpoint last_projected (ops : list conversation_op) : gmap string (amount * bool) :=
  match ops with
  | [] => ∅
  | OpProjectCost t c b :: ops' => last_projected ops' ∪ {[t := (c, b)]}
  | _ :: ops' => last_projected ops'
  end.

Lemma first_planning_app a b : first_planning (a ++ b)%list = first_planning a ∪ first_planning b.
Proof.
  induction a as [|op a IH]; simpl; [by rewrite (left_id_L ∅ (∪))|].
  destruct op; try done. by rewrite IH, (assoc_L (∪)).
Qed.

Lemma last_projected_app a b : last_projected (a ++ b)%list = last_projected b ∪ last_projected a.
Proof.
  induction a as [|op a IH]; simpl; [by rewrite (right_id_L ∅ (∪))|].
  destruct op; try done. by rewrite IH, (assoc_L (∪)).
Qed.

Definition planning_sum (m : gmap Z (option amount * bool)) : amount :=
  sumZ ((λ kv, default 0 kv.2.1) <$> map_to_list m).

Definition planning_known (m : gmap Z (option amount * bool)) : Prop :=
  ∀ k c b, m !! k = Some (c, b) → is_Some c ∧ b = true.

Record cost_inv (ops : list conversation_op) (s : ConversationState) : Prop := {
  co_applied : cs_cost_applied_turns s = dom (first_planning ops);
  co_sum : cs_session_cost s = planning_sum (first_planning ops);
  co_known : cs_cost_complete s = true ↔ planning_known (first_planning ops);
  co_projected : cs_projected_costs s = last_projected ops
}.

Definition same_cost (s s' : ConversationState) : Prop :=
  cs_cost_applied_turns s' = cs_cost_applied_turns s ∧ cs_session_cost s' = cs_session_cost s ∧
  cs_cost_complete s' = cs_cost_complete s ∧ cs_projected_costs s' = cs_projected_costs s.

Lemma other_op_same_cost sanitize op s :
  match op with OpPlanningCost _ _ _ | OpProjectCost _ _ _ => True
  | _ => same_cost s (run_conversation_op sanitize op s) end.
Proof.
  destruct op; simpl; try done; unfold same_cost.
  - unfold prepare_admission. split_ifs.
  - unfold commit_after_final_flush. split_ifs.
  - unfold note_warning_threshold_for_attempt. split_ifs.
  - unfold rearm_warning_attempt. split_ifs.
Qed.

Lemma planning_op_inv ops s k c b :
  cost_inv ops s → cost_inv (ops ++ [OpPlanningCost k c b])%list (apply_planning_cost_once k c b s).
Proof.
  intros [Ha Hs Hk Hp]. unfold apply_planning_cost_once. rewrite Ha.
  assert (last_projected (ops ++ [OpPlanningCost k c b])%list = last_projected ops) as Hl
    by (rewrite last_projected_app; simpl; by rewrite (left_id_L ∅ (∪))).
  destruct (first_planning ops !! k) as [old|] eqn:Hold.
  - assert (first_planning (ops ++ [OpPlanningCost k c b])%list = first_planning ops) as Hf.
    { rewrite first_planning_app. simpl. rewrite (right_id_L ∅ (∪)).
      apply map_eq. intros j. destruct (first_planning ops !! j) as [x|] eqn:Hj.
      - by apply lookup_union_Some_l.
      - rewrite lookup_union_r by done. apply lookup_singleton_ne. intros ->. congruence. }
    rewrite bool_decide_eq_true_2 by (apply elem_of_dom; eauto).
    split; rewrite ?Hf, ?Hl; done.
  - assert (first_planning (ops ++ [OpPlanningCost k c b])%list = <[k := (c, b)]> (first_planning ops)) as Hf.
    { rewrite first_planning_app. simpl. rewrite (right_id_L ∅ (∪)).
      rewrite insert_union_singleton_r by done. done. }
    rewrite bool_decide_eq_false_2 by (by apply not_elem_of_dom).
    split; rewrite ?Hf, ?Hl; simpl.
    + by rewrite dom_insert_L.
    + unfold planning_sum in *. rewrite map_to_list_insert, fmap_cons, sumZ_cons by done.
      rewrite Hs. cbn [fst snd]. lia.
    + transitivity (planning_known (first_planning ops) ∧ is_Some c ∧ b = true).
      { rewrite <- Hk. destruct b, c; simpl; naive_solver. }
      unfold planning_known. split.
      * intros (H1 & H2 & H3) j c' b' Hj. destruct (decide (j = k)) as [->|].
        -- rewrite lookup_insert_eq in Hj. by simplify_eq.
        -- rewrite lookup_insert_ne in Hj by done. eauto.
      * intros H1. split; [|apply (H1 k), lookup_insert_eq].
        intros j c' b' Hj. apply (H1 j). rewrite lookup_insert_ne; [done|]. intros ->. congruence.
    + done.
Qed.

Lemma project_op_inv ops s t c b :
  cost_inv ops s → cost_inv (ops ++ [OpProjectCost t c b])%list (project_turn_cost t c b s).
Proof.
  intros [Ha Hs Hk Hp].
  assert (first_planning (ops ++ [OpProjectCost t c b])%list = first_planning ops) as Hf
    by (rewrite first_planning_app; simpl; by rewrite (right_id_L ∅ (∪))).
  split; rewrite ?Hf; try done. rewrite last_projected_app. simpl.
  by rewrite (left_id_L ∅ (∪)), <- insert_union_singleton_l, Hp.
Qed.

Lemma cost_history sanitize s0 ops :
  conversation_start s0 → cost_inv ops (run_conversation sanitize ops s0).
Proof.
  intros H0. induction ops as [|op ops IH] using rev_ind.
  { assert (∃ m r, s0 = new_state m r) as (m & r & ->).
    { destruct H0 as [|m r s Hs]; [by eexists _, _|]. unfold new_attached in Hs. inv_res. eauto. }
    by split. }
  unfold run_conversation. rewrite foldl_snoc. fold (run_conversation sanitize ops s0).
  pose proof (other_op_same_cost sanitize op (run_conversation sanitize ops s0)) as Hsame.
  destruct op; simpl in Hsame; try by apply planning_op_inv.
  all: try by apply project_op_inv.
  all: destruct IH as [Ha Hs Hk Hp]; destruct Hsame as (E1 & E2 & E3 & E4).
  all: split; rewrite ?first_planning_app, ?last_projected_app; simpl;
    rewrite ?(right_id_L ∅ (∪)), ?(left_id_L ∅ (∪)); congruence.
Qed.

(** A session's cost is what its turns cost: after any history of calls, the
    known cost is the sum of the first planning cost given for each turn (later
    ones of the same turn change nothing) and of the last projection of each turn
    from its settled receipts; and the gauge shows it exactly when each of these
    is known and complete. *)
Theorem conversation_cost_exact sanitize s0 ops :
  conversation_start s0 →
  let s := run_conversation sanitize ops s0 in
  let planning := first_planning ops in
  let projected := last_projected ops in
  known_cost_usd s = planning_sum planning + sumZ ((λ kv, kv.2.1) <$> map_to_list projected) ∧
  (ug_cost (usage_gauge s) = Some (known_cost_usd s) ↔
     planning_known planning ∧ ∀ t c b, projected !! t = Some (c, b) → b = true) ∧
  (ug_cost (usage_gauge s) ≠ Some (known_cost_usd s) → ug_cost (usage_gauge s) = None).
Proof.
  intros H0 s planning projected. destruct (cost_history sanitize s0 ops H0) as [_ Hs Hk Hp].
  fold s in Hs, Hk, Hp. fold planning in Hs, Hk. fold projected in Hp.
  split; [by unfold known_cost_usd, cost_totals; simpl; rewrite Hp, Hs|].
  unfold usage_gauge, cost_complete, cost_totals. simpl. rewrite Hp. split.
  - transitivity (cs_cost_complete s && forallb (λ kv, kv.2.2) (map_to_list projected) = true).
    { destruct (_ && _); by split. }
    rewrite andb_true_iff, Hk, forallb_forall. apply and_iff_compat_l. split.
    + intros Hall t c b Ht. apply (Hall (t, (c, b))), list_elem_of_In, elem_of_map_to_list, Ht.
    + intros Hall [t [c b]] Hin. apply list_elem_of_In, elem_of_map_to_list in Hin. by eapply Hall.
  - by destruct (_ && _); [intros []|].
Qed.

Lemma conversation_cost_exact_witness :
  conversation_start new_conversation ∧
  known_cost_usd (run_conversation id
    [OpPlanningCost 1 (Some 5) true; OpPlanningCost 1 (Some 7) true; OpProjectCost "t1" 3 false;
     OpProjectCost "t1" 4 true] new_conversation) = 9.
Proof.
  split; [constructor|].
  destruct (conversation_cost_exact id new_conversation
    [OpPlanningCost 1 (Some 5) true; OpPlanningCost 1 (Some 7) true; OpProjectCost "t1" 3 false;
     OpProjectCost "t1" 4 true] start_unattached) as [E _].
  rewrite E. vm_compute. reflexivity.
Defined.
