(* ===== verification/Retention.v ===== *)
(** Custody of the sessions of an ACP connection,
    [src/src/optimus/acp/session_retention.py]: bounded creation, counted uses of
    a session, and its retirement by a task that waits until no use is left.

    The owner belongs to one event loop, so its state changes in steps: a call, or
    a run of a retirement task between two of its awaits. Entries are objects with
    identity: [ro_heap] holds every entry ever made and the dictionary refers to
    them by index; leases likewise. The callbacks ([factory], [close_session],
    [detach_session], the clock, the MCP states) are given by their results, as
    arguments of the steps in which they are called. A factory runs between
    [create_begin] and [create_end], and any other step may happen meanwhile.
    A retirement task that waits is resumed but never cancelled: cancellation of
    the task from outside the owner is not modelled.
    Diagnostics ([_log]) change nothing and are left out. *)
From S2P Require Import Prelude.

Local Open Scope string_scope.
Local Open Scope Z_scope.

Inductive RetirementReason := CREATE_FAILED | SHUTDOWN | EXPLICIT_REMOVE.
Inductive RetirementStatus := DEFERRED | RETIRING | QUARANTINED | RELEASED.
#[export] Instance status_eq_dec : EqDecision RetirementStatus.
Proof. solve_decision. Defined.

(** The values of [_SessionEntry.phase]. *)
Inductive Phase := PROVISIONAL | ACTIVE | PRetiring | PQuarantined | PReleased.
#[export] Instance phase_eq_dec : EqDecision Phase.
Proof. solve_decision. Defined.

Record SessionCloseResult := mkSessionCloseResult {
  sc_failures : list string;
  sc_pending : bool
}.
#[export] Instance close_result_eq_dec : EqDecision SessionCloseResult.
Proof. solve_decision. Defined.

Record RetirementResult := mkRetirementResult {
  rt_session_id : string;
  rt_generation : Z;
  rt_status : RetirementStatus;
  rt_close : SessionCloseResult
}.

(** A session object: its identity and its id. *)
Record Session := mkSession {
  ss_ref : nat;
  ss_session_id : string
}.

Inductive RetentionError (X : Type) :=
| SessionCapacityError
| RuntimeError (message : string)
| KeyError (key : string)
| CallbackError (x : X).
Arguments SessionCapacityError {X}.
Arguments RuntimeError {X} message.
Arguments KeyError {X} key.
Arguments CallbackError {X} x.

(** [SessionRetentionPolicy.__post_init__]. *)
Definition policy_valid (max_sessions : Z) : res string Z :=
  raise_if (max_sessions <=? 0) "max_sessions must be positive" ;;* Ok max_sessions.

Section retention.
(** The exceptions of the callbacks. *)
Context {X : Type}.
Abbreviation error := (RetentionError X).

(** The retirement task: made, waiting for the entry's [quiescent] event (and
    whether the event has woken it), awaiting [close_session], ended. *)
Inductive Job :=
| JobCreated
| JobWaiting (woken : bool)
| JobClosing
| JobDone (r : res error RetirementResult).

Record SessionEntry := mkSessionEntry {
  se_session : Session;
  se_generation : Z;
  se_phase : Phase;
  se_created : timestamp;
  se_uses : Z;
  se_setup_states : list nat;
  se_reason : option RetirementReason;
  se_job : option Job;
  se_result : option RetirementResult;
  se_failure_fact : option X;
  se_observed_close : option SessionCloseResult;
  se_quiescent : bool
}.

(** The owner. A lease is live while it refers to an entry. *)
Record Owner := mkOwner {
  ro_max_sessions : Z;
  ro_heap : list SessionEntry;
  ro_entries : odict string nat;
  ro_next_generation : Z;
  ro_reservations : Z;
  ro_admission_closed : bool;
  ro_bound : bool;
  ro_leases : list (option nat)
}.

Definition new_owner (max_sessions : Z) : Owner := mkOwner max_sessions [] [] 1 0 false false [].

Abbreviation op A := (eff Owner error A).

Definition set_heap (h : list SessionEntry) (o : Owner) : Owner :=
  mkOwner (ro_max_sessions o) h (ro_entries o) (ro_next_generation o) (ro_reservations o)
    (ro_admission_closed o) (ro_bound o) (ro_leases o).
Definition set_entries (d : odict string nat) (o : Owner) : Owner :=
  mkOwner (ro_max_sessions o) (ro_heap o) d (ro_next_generation o) (ro_reservations o)
    (ro_admission_closed o) (ro_bound o) (ro_leases o).
Definition set_reservations (n : Z) (o : Owner) : Owner :=
  mkOwner (ro_max_sessions o) (ro_heap o) (ro_entries o) (ro_next_generation o) n
    (ro_admission_closed o) (ro_bound o) (ro_leases o).
Definition set_flags (closed bound : bool) (o : Owner) : Owner :=
  mkOwner (ro_max_sessions o) (ro_heap o) (ro_entries o) (ro_next_generation o) (ro_reservations o)
    closed bound (ro_leases o).
Definition set_leases (l : list (option nat)) (o : Owner) : Owner :=
  mkOwner (ro_max_sessions o) (ro_heap o) (ro_entries o) (ro_next_generation o) (ro_reservations o)
    (ro_admission_closed o) (ro_bound o) l.

(** Assignments to the fields of one entry. *)
Definition with_phase (p : Phase) (reason : option RetirementReason) (e : SessionEntry) :=
  mkSessionEntry (se_session e) (se_generation e) p (se_created e) (se_uses e) (se_setup_states e)
    reason (se_job e) (se_result e) (se_failure_fact e) (se_observed_close e) (se_quiescent e).
Definition with_uses (n : Z) (quiescent : bool) (job : option Job) (e : SessionEntry) :=
  mkSessionEntry (se_session e) (se_generation e) (se_phase e) (se_created e) n (se_setup_states e)
    (se_reason e) job (se_result e) (se_failure_fact e) (se_observed_close e) quiescent.
Definition with_setup (l : list nat) (e : SessionEntry) :=
  mkSessionEntry (se_session e) (se_generation e) (se_phase e) (se_created e) (se_uses e) l
    (se_reason e) (se_job e) (se_result e) (se_failure_fact e) (se_observed_close e) (se_quiescent e).
Definition with_job (job : option Job) (e : SessionEntry) :=
  with_uses (se_uses e) (se_quiescent e) job e.
Definition with_fact (x : option X) (e : SessionEntry) :=
  mkSessionEntry (se_session e) (se_generation e) (se_phase e) (se_created e) (se_uses e)
    (se_setup_states e) (se_reason e) (se_job e) (se_result e) x (se_observed_close e) (se_quiescent e).
Definition with_observed (c : option SessionCloseResult) (e : SessionEntry) :=
  mkSessionEntry (se_session e) (se_generation e) (se_phase e) (se_created e) (se_uses e)
    (se_setup_states e) (se_reason e) (se_job e) (se_result e) (se_failure_fact e) c (se_quiescent e).
Definition with_result (p : Phase) (r : RetirementResult) (e : SessionEntry) :=
  mkSessionEntry (se_session e) (se_generation e) p (se_created e) (se_uses e)
    (se_setup_states e) (se_reason e) (se_job e) (Some r) (se_failure_fact e) (se_observed_close e)
    (se_quiescent e).

Definition update (ref : nat) (f : SessionEntry → SessionEntry) (o : Owner) : Owner :=
  set_heap (alter f ref (ro_heap o)) o.

Definition lookup_entry (o : Owner) (session_id : string) : option (nat * SessionEntry) :=
  ref ← od_get session_id (ro_entries o); e ← ro_heap o !! ref; Some (ref, e).

Definition retained_count (o : Owner) : Z := Z.of_nat (length (ro_entries o)) + ro_reservations o.

Definition is_active (o : Owner) (session_id : string) : bool :=
  match lookup_entry o session_id with
  | Some (_, e) => bool_decide (se_phase e = ACTIVE)
  | None => false
  end.

(** ** Creation *)

(** [_entry], and the assignment of the new entry to its id. A clock that raises
    gives the creation time zero. *)
Definition add_entry (session : Session) (provisional : bool) (clock : option timestamp)
    (o : Owner) : Owner :=
  let e := mkSessionEntry session (ro_next_generation o)
             (if provisional then PROVISIONAL else ACTIVE) (default 0 clock) 0 [] None None None
             None None true in
  mkOwner (ro_max_sessions o) (ro_heap o ++ [e])%list
    (od_set (ss_session_id session) (length (ro_heap o)) (ro_entries o))
    (ro_next_generation o + 1) (ro_reservations o) (ro_admission_closed o) (ro_bound o) (ro_leases o).

Definition adopt (sessions : list (Session * option timestamp)) : op unit := λ o,
  let ids := (λ sc, ss_session_id sc.1) <$> sessions in
  if ro_bound o || negb (bool_decide (ro_entries o = []))
  then (Err (RuntimeError "session retention already bound"), o)
  else if ro_max_sessions o <? Z.of_nat (length sessions) then (Err SessionCapacityError, o)
  else if negb (bool_decide (NoDup ids)) then (Err (RuntimeError "duplicate session identity"), o)
  else (Ok tt, set_flags (ro_admission_closed o) true
                 (foldl (λ o sc, add_entry sc.1 false sc.2 o) o sessions)).

(** [create] up to the call of the factory, and from its return on. *)
Definition create_begin : op unit := λ o,
  if ro_admission_closed o || (ro_max_sessions o <=? retained_count o)
  then (Err SessionCapacityError, o)
  else (Ok tt, set_reservations (ro_reservations o + 1) o).

Definition create_end (made : res X Session) (provisional : bool) (clock : option timestamp)
    : op Session := λ o,
  let done (o : Owner) := set_reservations (ro_reservations o - 1) o in
  match made with
  | Err x => (Err (CallbackError x), done o)
  | Ok session =>
      if od_mem (ss_session_id session) (ro_entries o)
      then (Err (RuntimeError "duplicate session identity"), done o)
      else (Ok session, done (add_entry session provisional clock o))
  end.

Definition activate (session_id : string) : op unit := λ o,
  match lookup_entry o session_id with
  | None => (Err (KeyError session_id), o)
  | Some (ref, e) =>
      if negb (bool_decide (se_phase e = PROVISIONAL))
      then (Err (RuntimeError "session is not provisional"), o)
      else (Ok tt, update ref (λ e, with_phase ACTIVE (se_reason e) e) o)
  end.

(** ** Uses *)

(** [_acquire_entry]: the new lease is the next of [ro_leases]. *)
Definition acquire_entry (ref : nat) : op nat := λ o,
  let o1 := update ref (λ e, with_uses (se_uses e + 1) false (se_job e) e) o in
  (Ok (length (ro_leases o)), set_leases (ro_leases o1 ++ [Some ref])%list o1).

Definition acquire (session_id : string) : op (option nat) := λ o,
  match lookup_entry o session_id with
  | None => (Ok None, o)
  | Some (ref, e) =>
      if bool_decide (se_phase e = PROVISIONAL ∨ se_phase e = ACTIVE)
      then (let! lease := acquire_entry ref in eff_ret (Some lease)) o
      else (Ok None, o)
  end.

(** [asyncio.Event.set]: a waiting task is woken. *)
Definition wake (job : option Job) : option Job :=
  match job with Some (JobWaiting _) => Some (JobWaiting true) | _ => job end.

(** Whether the dictionary still has this very entry under its id. *)
Definition is_current (o : Owner) (ref : nat) (e : SessionEntry) : bool :=
  bool_decide (od_get (ss_session_id (se_session e)) (ro_entries o) = Some ref).

Definition release_use (ref : nat) : op unit := λ o,
  match ro_heap o !! ref with
  | None => (Ok tt, o)
  | Some e =>
      if negb (is_current o ref e) then (Err (RuntimeError "stale session lease"), o)
      else
        let n := se_uses e - 1 in
        (Ok tt, update ref (λ e, if n =? 0 then with_uses n true (wake (se_job e)) e
                                 else with_uses n (se_quiescent e) (se_job e) e) o)
  end.

(** [SessionUseLease.release] and [SessionUseLease.fork]. *)
Definition lease_release (lease : nat) : op unit := λ o,
  match ro_leases o !! lease with
  | Some (Some ref) => release_use ref (set_leases (<[lease := None]> (ro_leases o)) o)
  | _ => (Ok tt, o)
  end.

Definition lease_fork (lease : nat) : op (option nat) := λ o,
  match ro_leases o !! lease with
  | Some (Some ref) =>
      match ro_heap o !! ref with
      | Some e =>
          if negb (is_current o ref e) || bool_decide (is_Some (se_result e))
          then (Err (RuntimeError "stale session use"), o)
          else (let! l := acquire_entry ref in eff_ret (Some l)) o
      | None => (Ok None, o)
      end
  | _ => (Ok None, o)
  end.

(** ** Setup states and observed closes *)

Definition retain_setup_state (session_id : string) (state : nat) (state_session_id : string)
    : op unit := λ o,
  match lookup_entry o session_id with
  | None => (Err (KeyError session_id), o)
  | Some (ref, e) =>
      if negb (String.eqb state_session_id session_id)
      then (Err (RuntimeError "setup state belongs to another session"), o)
      else if bool_decide (state ∈ se_setup_states e) then (Ok tt, o)
      else if (2 <=? length (se_setup_states e))%nat
      then (Err (RuntimeError "too many setup states"), o)
      else (Ok tt, update ref (λ e, with_setup (se_setup_states e ++ [state])%list e) o)
  end.

(** [_states]: the retained states, then the session's own if it is another. *)
Definition states (e : SessionEntry) (client_mcp_state : option nat) : list nat :=
  match client_mcp_state with
  | Some st => if bool_decide (st ∈ se_setup_states e) then se_setup_states e
               else (se_setup_states e ++ [st])%list
  | None => se_setup_states e
  end.

Definition merge_close (prior close : SessionCloseResult) : SessionCloseResult :=
  mkSessionCloseResult (sc_failures prior ++ sc_failures close)%list
    (sc_pending prior || sc_pending close).

Definition retain_close_result (session : Session) (close : SessionCloseResult) : op unit := λ o,
  match lookup_entry o (ss_session_id session) with
  | None => (Err (KeyError (ss_session_id session)), o)
  | Some (ref, e) =>
      if negb (ss_ref (se_session e) =? ss_ref session)%nat
      then (Err (RuntimeError "stale session cleanup result"), o)
      else (Ok tt, update ref (λ e, with_observed
             (Some (match se_observed_close e with
                    | None => close
                    | Some prior => merge_close prior close
                    end)) e) o)
  end.

(** ** Retirement *)

Definition request_retire (session_id : string) (reason : RetirementReason)
    : op RetirementStatus := λ o,
  match lookup_entry o session_id with
  | None => (Ok RELEASED, o)
  | Some (ref, e) =>
      match se_result e with
      | Some r => (Ok (rt_status r), o)
      | None =>
          let o1 := match se_job e with
                    | None => update ref (λ e, with_job (Some JobCreated)
                                (with_phase PRetiring (Some reason) e)) o
                    | Some _ => o
                    end in
          (Ok (if se_uses e =? 0 then RETIRING else DEFERRED), o1)
      end
  end.

Definition close_admission : op unit := λ o, (Ok tt, set_flags true (ro_bound o) o).

Definition clean (c : SessionCloseResult) : bool :=
  bool_decide (sc_failures c = []) && negb (sc_pending c).

(** The result [_finish] records: what [close_session] returned, together with what
    was observed before, and what [detach_session] said; and the exception of
    [detach_session], if it raised. [same] says that [close] is the observed result
    itself, and [detach] is what [detach_session] returns if it is called. *)
Definition finish_close (current : bool) (observed : option SessionCloseResult)
    (close : SessionCloseResult) (same : bool) (detach : res X bool)
    : SessionCloseResult * option X :=
  let '(close, same) :=
    if current then (close, same)
    else (mkSessionCloseResult ["SESSION_IDENTITY_MISMATCH"] false, false) in
  let close := match observed with
               | Some prior => if same then close else merge_close prior close
               | None => close
               end in
  if clean close then
    match detach with
    | Err x => (mkSessionCloseResult ["SESSION_DETACH_FAILED"] true, Some x)
    | Ok true => (close, None)
    | Ok false => (mkSessionCloseResult ["SESSION_IDENTITY_MISMATCH"] false, None)
    end
  else (close, None).

(** [_finish]. *)
Definition finish (ref : nat) (close : SessionCloseResult) (same : bool) (detach : res X bool)
    : op RetirementResult := λ o,
  match ro_heap o !! ref with
  | None => (Err (RuntimeError "no such entry"), o)
  | Some e =>
      let '(close, failure) :=
        finish_close (is_current o ref e) (se_observed_close e) close same detach in
      let released := clean close in
      let result := mkRetirementResult (ss_session_id (se_session e)) (se_generation e)
                      (if released then RELEASED else QUARANTINED) close in
      let o1 := update ref (λ e, with_result (if released then PReleased else PQuarantined) result
                  (match failure with Some x => with_fact (Some x) e | None => e end)) o in
      let o2 := if released
                then set_entries (od_del (ss_session_id (se_session e)) (ro_entries o1)) o1
                else o1 in
      (match failure with Some x => Err (CallbackError x) | None => Ok result end, o2)
  end.

(** The steps of [_retire]: up to its first await; woken by the event; and from
    the end of [close_session] on. *)
Definition job_start (ref : nat) (memory_stop : option X) : Owner → Owner := λ o,
  match ro_heap o !! ref with
  | Some e =>
      match se_job e with
      | Some JobCreated =>
          let job := match memory_stop with
                     | Some x => JobDone (Err (CallbackError x))
                     | None => if se_quiescent e then JobClosing else JobWaiting false
                     end in
          update ref (with_job (Some job)) o
      | _ => o
      end
  | None => o
  end.

Definition job_resume (ref : nat) : Owner → Owner := λ o,
  match ro_heap o !! ref with
  | Some e =>
      match se_job e with
      | Some (JobWaiting true) => update ref (with_job (Some JobClosing)) o
      | _ => o
      end
  | None => o
  end.

Definition CLOSE_FAILED : SessionCloseResult := mkSessionCloseResult ["SESSION_CLOSE_FAILED"] true.

(** The result [_retire] records when [close_session] raises, and whether it is
    the observed one. *)
Definition failed_close (e : SessionEntry) : SessionCloseResult * bool :=
  match se_observed_close e with
  | Some c => if clean c then (CLOSE_FAILED, false) else (c, true)
  | None => (CLOSE_FAILED, false)
  end.

Definition job_finish (ref : nat) (closed : res X (SessionCloseResult * bool)) (detach : res X bool)
    : Owner → Owner := λ o,
  match ro_heap o !! ref with
  | Some e =>
      match se_job e with
      | Some JobClosing =>
          match closed with
          | Err x =>
              let '(close, same) := failed_close e in
              let '(r, o1) := finish ref close same detach (update ref (with_fact (Some x)) o) in
              update ref (with_job (Some (JobDone
                (match r with Err err => Err err | Ok _ => Err (CallbackError x) end)))) o1
          | Ok (close, same) =>
              let same := same && bool_decide (se_observed_close e = Some close) in
              let '(r, o1) := finish ref close same detach o in
              update ref (with_job (Some (JobDone r))) o1
          end
      | _ => o
      end
  | None => o
  end.

(** ** Synchronous removal *)

(** What the objects around the owner answer during a synchronous call. *)
Record SyncEnv := mkSyncEnv {
  sy_client_mcp_state : Session → option nat;
  sy_config_locked : Session → bool;
  (** suspending, or an owned close that is not done *)
  sy_state_busy : nat → bool;
  sy_memory_stop : Session → option X;
  sy_state_close : nat → option X;
  (** [prepare_owned_close]: the failures and the pending flag of a close that is
      done, or nothing *)
  sy_prepare_owned_close : nat → res X (option (list string * bool));
  sy_detach : Session → res X bool
}.

(** The test of [precheck_sync] on one entry. *)
Definition needs_await (env : SyncEnv) (e : SessionEntry) : bool :=
  bool_decide (se_result e = None) &&
  (negb (se_uses e =? 0) || bool_decide (is_Some (se_job e)) || sy_config_locked env (se_session e) ||
   existsb (sy_state_busy env) (states e (sy_client_mcp_state env (se_session e)))).

Definition all_entries (o : Owner) : list SessionEntry :=
  omap (λ kr, ro_heap o !! kr.2) (ro_entries o).

Definition precheck_sync (env : SyncEnv) (session_id : option string) : op unit := λ o,
  let entries := match session_id with
                 | None => all_entries o
                 | Some sid => match lookup_entry o sid with Some (_, e) => [e] | None => [] end
                 end in
  if existsb (needs_await env) entries
  then (Err (RuntimeError "session cleanup requires await aclose()"), o) else (Ok tt, o).

(** The loop of [remove_sync] over the MCP states: the failures, the pending flag
    and the first exception of a close, or the exception that leaves the loop. *)
Fixpoint close_states (env : SyncEnv) (l : list nat) (failures : list string) (pending : bool)
    (primary : option X) : res X (list string * bool * option X) :=
  match l with
  | [] => Ok (failures, pending, primary)
  | st :: l' =>
      let primary := match primary with Some x => Some x | None => sy_state_close env st end in
      match sy_prepare_owned_close env st with
      | Err x => Err x
      | Ok (Some (fs, p)) => close_states env l' (failures ++ fs)%list (pending || p) primary
      | Ok None => close_states env l' failures true primary
      end
  end.

Definition remove_sync (env : SyncEnv) (session_id : string) : op unit :=
  precheck_sync env (Some session_id) ;;! λ o,
  match lookup_entry o session_id with
  | None => (Ok tt, o)
  | Some (ref, e) =>
      if bool_decide (is_Some (se_result e)) then (Ok tt, o)
      else
        let o1 := update ref (with_phase PRetiring (Some EXPLICIT_REMOVE)) o in
        match sy_memory_stop env (se_session e) with
        | Some x => (Err (CallbackError x), o1)
        | None =>
            match close_states env (states e (sy_client_mcp_state env (se_session e))) [] false None with
            | Err x => (Err (CallbackError x), o1)
            | Ok (failures, pending, primary) =>
                let o2 := match primary with
                          | Some x => update ref (with_fact (Some x)) o1
                          | None => o1
                          end in
                (finish ref (mkSessionCloseResult failures pending) false
                   (sy_detach env (se_session e)) ;;!
                 match primary with
                 | Some x => eff_raise (CallbackError x)
                 | None => eff_ret tt
                 end) o2
            end
        end
  end.

(** The loop of [close_all_sync]: each removal in its own environment, the first
    exception kept. *)
Fixpoint remove_each (envs : nat → SyncEnv) (i : nat) (ids : list string) (primary : option error)
    (o : Owner) : option error * Owner :=
  match ids with
  | [] => (primary, o)
  | sid :: ids' =>
      let '(r, o1) := remove_sync (envs i) sid o in
      let primary := match primary, r with
                     | None, Err e => Some e
                     | _, _ => primary
                     end in
      remove_each envs (S i) ids' primary o1
  end.

Definition close_all_sync (envs : nat → SyncEnv) : op unit :=
  precheck_sync (envs 0%nat) None ;;! close_admission ;;! λ o,
  let '(primary, o1) := remove_each envs 1 (od_keys (ro_entries o)) None o in
  (match primary with Some e => Err e | None => Ok tt end, o1).

(** * Histories *)

Inductive retention_op :=
| OpAdopt (sessions : list (Session * option timestamp))
| OpCreateBegin
| OpCreateEnd (made : res X Session) (provisional : bool) (clock : option timestamp)
| OpActivate (session_id : string)
| OpAcquire (session_id : string)
| OpFork (lease : nat)
| OpRelease (lease : nat)
| OpSetupState (session_id : string) (state : nat) (state_session_id : string)
| OpCloseResult (session : Session) (close : SessionCloseResult)
| OpRetire (session_id : string) (reason : RetirementReason)
| OpCloseAdmission
| OpJobStart (ref : nat) (memory_stop : option X)
| OpJobResume (ref : nat)
| OpJobFinish (ref : nat) (closed : res X (SessionCloseResult * bool)) (detach : res X bool)
| OpRemove (env : SyncEnv) (session_id : string)
| OpCloseAll (envs : nat → SyncEnv).

(** One step. A factory can only return if one is running. *)
Definition retention_step (c : retention_op) (o : Owner) : Owner :=
  match c with
  | OpAdopt l => (adopt l o).2
  | OpCreateBegin => (create_begin o).2
  | OpCreateEnd made p clock => if 0 <? ro_reservations o then (create_end made p clock o).2 else o
  | OpActivate sid => (activate sid o).2
  | OpAcquire sid => (acquire sid o).2
  | OpFork l => (lease_fork l o).2
  | OpRelease l => (lease_release l o).2
  | OpSetupState sid st ssid => (retain_setup_state sid st ssid o).2
  | OpCloseResult s close => (retain_close_result s close o).2
  | OpRetire sid reason => (request_retire sid reason o).2
  | OpCloseAdmission => (close_admission o).2
  | OpJobStart ref stop => job_start ref stop o
  | OpJobResume ref => job_resume ref o
  | OpJobFinish ref closed detach => job_finish ref closed detach o
  | OpRemove env sid => (remove_sync env sid o).2
  | OpCloseAll envs => (close_all_sync envs o).2
  end.

Definition run_retention (ops : list retention_op) (o : Owner) : Owner :=
  foldl (λ o c, retention_step c o) o ops.
End retention.

(** * Facts *)

Section facts.
Context {X : Type}.
Implicit Types (o : Owner (X := X)) (e : SessionEntry (X := X)) (ls : list (option nat)).

(** The bound on the retained sessions: the policy's limit, or twice the limit
    if sessions may be adopted while factories hold reservations, since [adopt]
    counts only the sessions it is given. *)
Variable cap : Z.

(** The live leases of an entry. *)
Definition live_count ls (ref : nat) : nat := length (filter (λ l, l = Some ref) ls).

Definition status_of (released : bool) : RetirementStatus :=
  if released then RELEASED else QUARANTINED.

Record entry_inv ls (entries : odict string nat) (ref : nat) e : Prop := {
  ei_uses : se_uses e = Z.of_nat (live_count ls ref);
  ei_quiescent : se_quiescent e = (se_uses e =? 0);
  ei_current : od_get (ss_session_id (se_session e)) entries = Some ref ↔
               ∀ r, se_result e = Some r → rt_status r ≠ RELEASED;
  ei_result : ∀ r, se_result e = Some r →
    se_uses e = 0 ∧ (se_job e = None ∨ ∃ x, se_job e = Some (JobDone x)) ∧
    rt_status r = status_of (clean (rt_close r)) ∧ rt_session_id r = ss_session_id (se_session e);
  ei_open : se_phase e = PROVISIONAL ∨ se_phase e = ACTIVE →
            se_job e = None ∧ se_result e = None;
  ei_job : match se_job e with
           | Some (JobWaiting false) => se_uses e ≠ 0
           | Some (JobWaiting true) | Some JobClosing => se_uses e = 0
           | _ => True
           end
}.

Record owner_inv o : Prop := {
  oi_keys : NoDup (od_keys (ro_entries o));
  oi_refs : ∀ sid ref, od_get sid (ro_entries o) = Some ref →
    ∃ e, ro_heap o !! ref = Some e ∧ ss_session_id (se_session e) = sid;
  oi_heap : ∀ ref e, ro_heap o !! ref = Some e → entry_inv (ro_leases o) (ro_entries o) ref e;
  oi_leases : ∀ l ref, ro_leases o !! l = Some (Some ref) → is_Some (ro_heap o !! ref);
  oi_reservations : 0 ≤ ro_reservations o ≤ ro_max_sessions o;
  oi_capacity : retained_count o ≤ cap ∧ ro_max_sessions o ≤ cap
}.

(** No use is left and none will come: the retirement has been woken, or is
    closing the session, or has ended. *)
Definition quiet e : Prop :=
  se_job e = Some (JobWaiting true) ∨ se_job e = Some JobClosing ∨ is_Some (se_result e).

(** Entries keep their session, a result once given, and their quiet. *)
Definition keeps e e' : Prop :=
  se_session e' = se_session e ∧ (∀ r, se_result e = Some r → se_result e' = Some r) ∧
  (quiet e → quiet e').

#[local] Instance keeps_preorder : PreOrder keeps.
Proof. split; [done|]. unfold keeps. intros e1 e2 e3. intuition congruence || auto. Qed.

Lemma keeps_refl e : keeps e e.
Proof. done. Qed.

Lemma keeps_same e e' :
  se_session e' = se_session e → se_result e' = se_result e →
  (se_job e' = se_job e ∨
   (se_job e ≠ Some (JobWaiting true) ∧ se_job e ≠ Some JobClosing) ∨ se_job e' = Some JobClosing) →
  keeps e e'.
Proof.
  intros Hs Hr Hj. unfold keeps, quiet in *. split_and!; [done|congruence|].
  rewrite Hr. destruct Hj as [->|[?| ->]]; naive_solver.
Qed.
#[local] Hint Resolve keeps_refl : core.
#[local] Hint Extern 1 (keeps _ _) => apply keeps_same; [done|done|by left] : core.

Definition evolves o o' : Prop :=
  ro_max_sessions o' = ro_max_sessions o ∧
  ∀ ref e, ro_heap o !! ref = Some e → ∃ e', ro_heap o' !! ref = Some e' ∧ keeps e e'.

Definition good o o' : Prop := owner_inv o → owner_inv o' ∧ evolves o o'.

#[local] Instance good_preorder : PreOrder good.
Proof.
  split.
  - intros o Hi. split; [done|]. split; [done|]. eauto.
  - intros o1 o2 o3 H12 H23 Hi. destruct (H12 Hi) as [Hi2 [M12 E12]]. destruct (H23 Hi2) as [Hi3 [M23 E23]].
    split; [done|]. split; [congruence|]. intros ref e He.
    destruct (E12 ref e He) as (e2 & He2 & K2). destruct (E23 ref e2 He2) as (e3 & He3 & K3).
    exists e3. split; [done|]. by etransitivity.
Qed.

Lemma good_intro o o' : (owner_inv o → good o o') → good o o'.
Proof. intros Hg Hi. by apply Hg. Qed.

Lemma lookup_entry_Some o sid ref e :
  lookup_entry o sid = Some (ref, e) ↔
  od_get sid (ro_entries o) = Some ref ∧ ro_heap o !! ref = Some e.
Proof. unfold lookup_entry. rewrite bind_Some. setoid_rewrite bind_Some. naive_solver. Qed.

(** ** Changing one entry *)

Lemma entry_inv_frame ls ls' entries entries' ref e :
  live_count ls' ref = live_count ls ref →
  (od_get (ss_session_id (se_session e)) entries' = Some ref ↔
   od_get (ss_session_id (se_session e)) entries = Some ref) →
  entry_inv ls entries ref e → entry_inv ls' entries' ref e.
Proof. intros El Ed [Eu Eq Ec Er Eo Ej]. split; try done; [by rewrite El|by rewrite Ed]. Qed.

(** A step that changes one entry, the leases on it and its place in the
    dictionary. *)
Lemma change_good o ref (f : SessionEntry → SessionEntry) ls' entries' :
  (∀ i, i ≠ ref → live_count ls' i = live_count (ro_leases o) i) →
  (∀ l i, ls' !! l = Some (Some i) → i = ref ∨ ∃ l', ro_leases o !! l' = Some (Some i)) →
  is_Some (ro_heap o !! ref) →
  (NoDup (od_keys (ro_entries o)) → NoDup (od_keys entries')) →
  (length entries' ≤ length (ro_entries o))%nat →
  (∀ sid i, od_get sid entries' = Some i → od_get sid (ro_entries o) = Some i) →
  (∀ sid i, owner_inv o → i ≠ ref →
     od_get sid (ro_entries o) = Some i → od_get sid entries' = Some i) →
  (∀ e, ro_heap o !! ref = Some e → owner_inv o →
        entry_inv (ro_leases o) (ro_entries o) ref e →
        entry_inv ls' entries' ref (f e) ∧ keeps e (f e)) →
  good o (set_entries entries' (set_leases ls' (update ref f o))).
Proof.
  intros Hcount Hlive Hsome Hnd Hlen Hsub Hsup Hf Hi. pose proof Hi as [Hk Hr Hh Hl Hn Hc].
  assert (∀ i e', alter f ref (ro_heap o) !! i = Some e' ↔
    ∃ e, ro_heap o !! i = Some e ∧ e' = if decide (i = ref) then f e else e) as Hheap.
  { intros i e'. destruct (decide (i = ref)) as [->|Hne].
    - rewrite list_lookup_alter_eq, fmap_Some. naive_solver.
    - rewrite list_lookup_alter_ne by done. naive_solver. }
  assert (∀ i e, ro_heap o !! i = Some e → keeps e (if decide (i = ref) then f e else e)) as Hkeep.
  { intros i e He. case_decide as Hd; [subst i|done]. apply Hf; auto. }
  split.
  - split; simpl; auto.
    + intros sid i Hi'. destruct (Hr sid i (Hsub _ _ Hi')) as (e & He & Hs). eexists. rewrite Hheap.
      split; [eauto|]. by destruct (Hkeep i e He) as [-> _].
    + intros i e' (e & He & ->)%Hheap. case_decide as Hd; [subst i; by apply Hf; auto|].
      apply (entry_inv_frame (ro_leases o) ls' (ro_entries o) entries');
        [by apply Hcount|split; eauto|auto].
    + intros l i Hli. destruct (ro_heap o !! i) as [e|] eqn:He.
      * eexists. apply Hheap. eauto.
      * destruct (Hlive l i Hli) as [->|[l' Hl']]; [by rewrite He in Hsome; destruct Hsome|].
        destruct (Hl l' i Hl'). congruence.
    + unfold retained_count in *. simpl. lia.
  - split; [done|]. intros i e He. eexists. simpl. rewrite Hheap. split; [eauto|]. by apply Hkeep.
Qed.

Lemma update_leases_good o ref (f : SessionEntry → SessionEntry) ls' :
  (∀ i, i ≠ ref → live_count ls' i = live_count (ro_leases o) i) →
  (∀ l i, ls' !! l = Some (Some i) → i = ref ∨ ∃ l', ro_leases o !! l' = Some (Some i)) →
  is_Some (ro_heap o !! ref) →
  (∀ e, ro_heap o !! ref = Some e → owner_inv o →
        entry_inv (ro_leases o) (ro_entries o) ref e →
        entry_inv ls' (ro_entries o) ref (f e) ∧ keeps e (f e)) →
  good o (set_leases ls' (update ref f o)).
Proof.
  intros. change (good o (set_entries (ro_entries o) (set_leases ls' (update ref f o)))).
  by apply change_good.
Qed.

Lemma update_good o ref (f : SessionEntry → SessionEntry) :
  (∀ e, ro_heap o !! ref = Some e → owner_inv o →
        entry_inv (ro_leases o) (ro_entries o) ref e →
        entry_inv (ro_leases o) (ro_entries o) ref (f e) ∧
        keeps e (f e)) →
  good o (update ref f o).
Proof.
  intros Hf. destruct (ro_heap o !! ref) as [e|] eqn:He.
  - change (update ref f o) with (set_leases (ro_leases o) (update ref f o)).
    apply update_leases_good; [done|eauto|eauto|]. rewrite He. exact Hf.
  - assert (update ref f o = set_heap (ro_heap o) o) as ->; [|by destruct o].
    unfold update. f_equal. apply list_eq. intros i. destruct (decide (i = ref)) as [->|].
    + by rewrite list_lookup_alter_eq, He.
    + by rewrite list_lookup_alter_ne.
Qed.

(** [keep_entry] closes the invariant of an entry whose uses do not change. *)
Ltac keep_entry :=
  intros;
  match goal with H : entry_inv _ _ _ _ |- _ => destruct H end;
  split; [split; simpl; try done|auto].

Lemma activate_good sid o : good o (activate sid o).2.
Proof.
  unfold activate. destruct (lookup_entry o sid) as [[ref e]|] eqn:He; [|done].
  apply lookup_entry_Some in He as [_ He]. case_bool_decide as Hp; simpl; [|done].
  apply update_good. intros e' He'. simplify_eq. keep_entry. auto.
Qed.

Lemma retain_setup_state_good sid st ssid o : good o (retain_setup_state sid st ssid o).2.
Proof.
  unfold retain_setup_state. destruct (lookup_entry o sid) as [[ref e]|]; [|done].
  destruct (negb _); [done|]. case_bool_decide; [done|]. destruct (_ <=? _)%nat; [done|].
  simpl. apply update_good. keep_entry.
Qed.

Lemma retain_close_result_good session close o : good o (retain_close_result session close o).2.
Proof.
  unfold retain_close_result. destruct (lookup_entry o _) as [[ref e]|]; [|done].
  destruct (negb _); [done|]. simpl. apply update_good. keep_entry.
Qed.

Lemma request_retire_good sid reason o : good o (request_retire sid reason o).2.
Proof.
  unfold request_retire. destruct (lookup_entry o sid) as [[ref e]|] eqn:He; [|done].
  apply lookup_entry_Some in He as [_ He].
  destruct (se_result e) eqn:Hres; [done|]. simpl. destruct (se_job e) eqn:Hj; [done|].
  apply update_good. intros e' He'. simplify_eq.
  keep_entry; [congruence|by intros []|].
  apply keeps_same; [done|done|]. right; left. by rewrite Hj.
Qed.

Lemma job_start_good ref stop o : good o (job_start ref stop o).
Proof.
  unfold job_start. destruct (ro_heap o !! ref) as [e|] eqn:He; [|done].
  destruct (se_job e) as [[]|] eqn:Hj; try done.
  apply update_good. intros e' He'. simplify_eq. intros Hi [Eu Eq Ec Er Eo Ej].
  split; [|apply keeps_same; [done|done|right; left; by rewrite Hj]]. split; simpl; try done.
  - intros r Hr. destruct (Er r Hr) as (_ & [?|[? ?]] & _); congruence.
  - intros Hp. destruct (Eo Hp). congruence.
  - destruct stop; [done|]. rewrite Eq. destruct (Z.eqb_spec (se_uses e) 0); done.
Qed.

Lemma job_resume_good ref o : good o (job_resume ref o).
Proof.
  unfold job_resume. destruct (ro_heap o !! ref) as [e|] eqn:He; [|done].
  destruct (se_job e) as [[|[]| |]|] eqn:Hj; try done.
  apply update_good. intros e' He'. simplify_eq. intros Hi [Eu Eq Ec Er Eo Ej].
  split; [|apply keeps_same; [done|done|by right; right]]. split; simpl; try done.
  - intros r Hr. destruct (Er r Hr) as (_ & [?|[? ?]] & _); congruence.
  - intros Hp. destruct (Eo Hp). congruence.
  - by rewrite Hj in Ej.
Qed.

(** ** Uses *)

Lemma live_count_snoc ls ref i :
  live_count (ls ++ [Some ref])%list i = (live_count ls i + if decide (i = ref) then 1 else 0)%nat.
Proof.
  unfold live_count. rewrite filter_app, length_app, filter_cons, filter_nil.
  do 2 case_decide; simplify_eq/=; lia.
Qed.

Lemma live_count_drop ls l ref i :
  ls !! l = Some (Some ref) →
  (live_count (<[l := None]> ls) i + (if decide (i = ref) then 1 else 0))%nat = live_count ls i.
Proof.
  intros Hl. unfold live_count.
  pose proof (filter_insert_length (λ x, x = Some i) ls l None (Some ref) Hl) as Hc.
  rewrite (decide_False (P := None = Some i)) in Hc by done.
  do 2 case_decide; simplify_eq/=; lia.
Qed.

Lemma live_lease_used o l ref e :
  owner_inv o → ro_leases o !! l = Some (Some ref) → ro_heap o !! ref = Some e → 0 < se_uses e.
Proof.
  intros Hi Hl He. destruct (oi_heap _ Hi _ _ He) as [Eu _ _ _ _ _].
  pose proof (live_count_drop _ _ _ ref Hl) as Hc. rewrite decide_True in Hc by done. lia.
Qed.

Lemma acquire_entry_good o ref e :
  ro_heap o !! ref = Some e → se_result e = None → (se_job e = None ∨ 0 < se_uses e) →
  good o (acquire_entry ref o).2.
Proof.
  intros He Hres Hj. unfold acquire_entry. simpl. apply update_leases_good.
  - intros i Hi. rewrite live_count_snoc, decide_False by done. lia.
  - intros l i. rewrite lookup_app_Some. intros [?|[_ Hs]]; [eauto|].
    apply list_lookup_singleton_Some in Hs as [_ ?]. simplify_eq. by left.
  - eauto.
  - intros e' He' Hi [Eu Eq Ec Er Eo Ej]. simplify_eq. split; [|auto]. split; simpl; try done.
    + rewrite live_count_snoc, decide_True by done. lia.
    + symmetry. apply Z.eqb_neq. lia.
    + intros r Hr. congruence.
    + destruct Hj as [->|Hu]; [done|]. destruct (se_job e) as [[|[]| |]|]; try done; lia.
Qed.

Lemma acquire_good sid o : good o (acquire sid o).2.
Proof.
  unfold acquire. destruct (lookup_entry o sid) as [[ref e]|] eqn:He; [|done].
  apply lookup_entry_Some in He as [_ He]. case_bool_decide as Hp; [|done].
  intros Hi. destruct (oi_heap _ Hi _ _ He) as [_ _ _ _ Eo _]. destruct (Eo Hp) as [Hj Hr].
  revert Hi. apply (acquire_entry_good o ref e); auto.
Qed.

(** A live lease can be forked and released: it is never stale. *)
Lemma live_lease_current o l ref :
  owner_inv o → ro_leases o !! l = Some (Some ref) →
  ∃ e, ro_heap o !! ref = Some e ∧ 0 < se_uses e ∧ is_current o ref e = true ∧ se_result e = None.
Proof.
  intros Hi Hl. destruct (oi_leases _ Hi _ _ Hl) as [e He]. exists e.
  pose proof (live_lease_used _ _ _ _ Hi Hl He) as Hu.
  destruct (oi_heap _ Hi _ _ He) as [_ _ Ec Er _ _].
  assert (se_result e = None) as Hr.
  { destruct (se_result e) as [r|]; [|done]. destruct (Er r eq_refl) as [? _]. lia. }
  split_and!; try done. apply bool_decide_eq_true_2, Ec. intros r. congruence.
Qed.

Lemma lease_fork_good l o : good o (lease_fork l o).2.
Proof.
  intros Hi. unfold lease_fork. destruct (ro_leases o !! l) as [[ref|]|] eqn:Hl; [|by apply good_preorder..].
  destruct (live_lease_current o l ref Hi Hl) as (e & He & Hu & Hc & Hr). rewrite He, Hc, Hr. simpl.
  revert Hi. apply (acquire_entry_good o ref e); auto.
Qed.

Lemma lease_release_good l o : good o (lease_release l o).2.
Proof.
  intros Hi. unfold lease_release. destruct (ro_leases o !! l) as [[ref|]|] eqn:Hl; [|by apply good_preorder..].
  destruct (live_lease_current o l ref Hi Hl) as (e & He & Hu & Hc & Hr).
  unfold release_use. simpl. rewrite He. unfold is_current in *. simpl. rewrite Hc. simpl.
  revert Hi. apply (update_leases_good o ref).
  - intros i Hi'. pose proof (live_count_drop _ _ _ i Hl) as E. rewrite decide_False in E by done.
    rewrite <- E. simpl. lia.
  - intros l' i Hl'. apply list_lookup_insert_Some in Hl' as [(-> & ? & _)|[_ ?]]; [done|eauto].
  - eauto.
  - intros e' He' Hi [Eu Eq Ec Er Eo Ej]. simplify_eq.
    pose proof (live_count_drop _ _ _ ref Hl) as E. rewrite decide_True in E by done.
    destruct (Z.eqb_spec (se_uses e - 1) 0) as [Hz|Hz].
    + split; [|apply keeps_same; [done|done|simpl; destruct (se_job e) as [[|[]| |]|]; naive_solver]].
      split; simpl; try done.
      * lia.
      * by rewrite Hz.
      * congruence.
      * intros Hp. destruct (Eo Hp) as [-> ?]. done.
      * destruct (se_job e) as [[|[]| |]|]; simpl; done || lia.
    + split; [|auto]. split; simpl; try done.
      * lia.
      * rewrite Eq. rewrite !(proj2 (Z.eqb_neq _ _)) by lia. done.
      * congruence.
      * destruct (se_job e) as [[|[]| |]|]; done || lia.
Qed.

(** ** Creation *)

Lemma add_entry_good session provisional clock o :
  od_get (ss_session_id session) (ro_entries o) = None →
  retained_count o + 1 ≤ cap →
  good o (add_entry session provisional clock o).
Proof.
  intros Hnone Hcap Hi. pose proof Hi as [Hk Hr Hh Hl Hn Hc].
  assert (∀ l, ro_leases o !! l ≠ Some (Some (length (ro_heap o)))) as Hno.
  { intros l Hx. apply Hl, lookup_lt_is_Some in Hx. lia. }
  assert (∀ i e, ro_heap o !! i = Some e → i ≠ length (ro_heap o)) as Hlt.
  { intros i e He%lookup_lt_Some. lia. }
  assert (∀ sid i, i ≠ length (ro_heap o) →
    od_get sid (od_set (ss_session_id session) (length (ro_heap o)) (ro_entries o)) = Some i ↔
    od_get sid (ro_entries o) = Some i) as Hget.
  { intros sid i Hne. destruct (decide (sid = ss_session_id session)) as [->|Hs].
    - rewrite od_get_set_eq, Hnone. naive_solver.
    - by rewrite od_get_set_ne. }
  split.
  - split; simpl; auto with optimus.
    + intros sid i Hs. destruct (decide (sid = ss_session_id session)) as [->|Hne].
      * rewrite od_get_set_eq in Hs. simplify_eq. eexists. rewrite lookup_app_r, Nat.sub_diag by lia. done.
      * rewrite od_get_set_ne in Hs by done. destruct (Hr sid i Hs) as (e & He & ?).
        exists e. split; [|done]. by apply lookup_app_l_Some.
    + intros i e He. apply lookup_app_Some in He as [He|[Hge He]].
      * eapply entry_inv_frame; [done|by apply Hget, (Hlt i e)|auto].
      * apply list_lookup_singleton_Some in He as [E <-]. assert (i = length (ro_heap o)) as -> by lia.
        split; simpl; try done.
        -- unfold live_count. rewrite (proj2 (filter_nil_iff _ _)); [done|].
           intros x Hx ->. apply list_elem_of_lookup in Hx as [l Hx]. by apply (Hno l).
        -- by rewrite od_get_set_eq.
    + intros l i Hli. apply Hl in Hli as [e He]. exists e. by apply lookup_app_l_Some.
    + unfold retained_count in *. simpl. rewrite od_set_fresh, length_app by done. simpl. lia.
  - split; [done|]. intros i e He. exists e. split; [|auto]. by apply lookup_app_l_Some.
Qed.

Lemma reservations_good o n :
  0 ≤ n → n ≤ ro_reservations o + 1 →
  (ro_reservations o < n → retained_count o + 1 ≤ ro_max_sessions o) →
  good o (set_reservations n o).
Proof.
  intros H0 Hle Hcap [Hk Hr Hh Hl Hn Hc]. split.
  - split; try done; unfold retained_count in *; simpl; lia.
  - split; [done|]. eauto.
Qed.

Lemma create_begin_good o : good o (create_begin o).2.
Proof.
  unfold create_begin. destruct (ro_admission_closed o); [done|]. simpl.
  destruct (Z.leb_spec (ro_max_sessions o) (retained_count o)); [done|]. simpl.
  intros Hi. pose proof (oi_reservations _ Hi). revert Hi. apply reservations_good; lia.
Qed.

Lemma create_end_good made provisional clock o :
  0 < ro_reservations o → good o (create_end made provisional clock o).2.
Proof.
  intros Hpos. assert (good o (set_reservations (ro_reservations o - 1) o)) as Hg
    by (apply reservations_good; lia).
  unfold create_end. destruct made as [session|x]; [|done].
  destruct (od_mem (ss_session_id session) (ro_entries o)) eqn:Hm; [done|].
  apply bool_decide_eq_false_1, eq_None_not_Some in Hm. simpl.
  apply good_intro. intros Hi. pose proof (oi_capacity _ Hi) as Hcap. etransitivity; [exact Hg|].
  change (good (set_reservations (ro_reservations o - 1) o)
    (add_entry session provisional clock (set_reservations (ro_reservations o - 1) o))).
  apply add_entry_good; [done|]. unfold retained_count in *. simpl. lia.
Qed.

Lemma adopt_loop_good sessions o :
  NoDup ((λ sc, ss_session_id sc.1) <$> sessions) →
  (∀ sc, sc ∈ sessions → od_get (ss_session_id sc.1) (ro_entries o) = None) →
  retained_count o + Z.of_nat (length sessions) ≤ cap →
  good o (foldl (λ o sc, add_entry sc.1 false sc.2 o) o sessions).
Proof.
  revert o. induction sessions as [|[session clock] sessions IH]; intros o Hnd Hfresh Hcap; [done|].
  rewrite fmap_cons, NoDup_cons in Hnd. destruct Hnd as [Hnot Hnd]. cbn [length foldl] in *.
  assert (od_get (ss_session_id session) (ro_entries o) = None) as Hnone
    by (apply (Hfresh (session, clock)); left).
  etransitivity; [apply (add_entry_good session false clock); [done|lia]|].
  apply IH; [done| |].
  - intros sc Hsc. simpl. rewrite od_get_set_ne.
    + apply Hfresh. by right.
    + intros E. apply Hnot. apply list_elem_of_fmap. by exists sc.
  - unfold retained_count in *. simpl. rewrite od_set_fresh, length_app by done. simpl in *. lia.
Qed.

Lemma adopt_good sessions o :
  ro_reservations o = 0 ∨ 2 * ro_max_sessions o ≤ cap → good o (adopt sessions o).2.
Proof.
  intros Hr. apply good_intro. intros [_ _ _ _ Hn0 Hc0]. unfold adopt. destruct (ro_bound o); [done|]. simpl.
  case_bool_decide as He; [|done]. simpl.
  destruct (Z.ltb_spec (ro_max_sessions o) (Z.of_nat (length sessions))); [done|].
  case_bool_decide; [|done]. simpl. etransitivity; [apply (adopt_loop_good sessions o); [done| |]|].
  - intros sc _. by rewrite He.
  - unfold retained_count. rewrite He. simpl. lia.
  - intros [Hk Hr' Hh Hl Hn Hc]. split; [by split|]. split; [done|]. eauto.
Qed.

(** ** Retirement *)

Definition finished (ref : nat) (released : bool) (sid : string)
    (g : SessionEntry → SessionEntry) o : Owner :=
  if released then set_entries (od_del sid (ro_entries o)) (update ref g o) else update ref g o.

Lemma finished_good o ref e g released r :
  ro_heap o !! ref = Some e → se_result e = None → se_uses e = 0 →
  se_session (g e) = se_session e → se_uses (g e) = se_uses e →
  se_quiescent (g e) = se_quiescent e → (se_job (g e) = None ∨ ∃ x, se_job (g e) = Some (JobDone x)) →
  (se_phase (g e) = PReleased ∨ se_phase (g e) = PQuarantined) →
  se_result (g e) = Some r → rt_status r = status_of released → released = clean (rt_close r) →
  rt_session_id r = ss_session_id (se_session e) →
  good o (finished ref released (ss_session_id (se_session e)) g o).
Proof.
  intros He Hres Huses Gs Gu Gq Gj Gp Gr Hst Hrel Hid. apply good_intro. intros Hi.
  pose proof (oi_heap _ Hi _ _ He) as [Eu Eq Ec Er Eo Ej].
  assert (od_get (ss_session_id (se_session e)) (ro_entries o) = Some ref) as Hcur
    by (apply Ec; congruence).
  assert (∀ entries', (od_get (ss_session_id (se_session e)) entries' = Some ref ↔ released = false) →
    entry_inv (ro_leases o) entries' ref (g e)) as Hentry.
  { intros entries' Hx. split; try congruence.
    - rewrite Gs, Gr, Hx. split; [intros E r' [= <-]; by rewrite Hst, E|].
      intros Hall. specialize (Hall r eq_refl). rewrite Hst in Hall. by destruct released.
    - intros r' Hr'. simplify_eq. rewrite Gs. split_and!; congruence || done.
    - intros []; destruct Gp; congruence.
    - destruct Gj as [->|[x ->]]; done. }
  assert (keeps e (g e)) as Hkeep.
  { split_and!; [done|congruence|]. intros _. right; right. eauto. }
  unfold finished. destruct released.
  - change (good o (set_entries (od_del (ss_session_id (se_session e)) (ro_entries o))
      (set_leases (ro_leases o) (update ref g o)))).
    apply change_good; auto with optimus.
    + eauto.
    + assert (sublist (od_del (ss_session_id (se_session e)) (ro_entries o)) (ro_entries o)) as Hsub;
        [|by apply sublist_length].
      clear. induction (ro_entries o) as [|[k v] d IH]; simpl; [done|].
      case_decide; [by apply sublist_cons|by apply sublist_skip].
    + intros sid i Hx. destruct (decide (sid = ss_session_id (se_session e))) as [->|].
      * rewrite od_get_del_eq in Hx; [done|apply Hi].
      * by rewrite od_get_del_ne in Hx.
    + intros sid i _ Hne Hx. rewrite od_get_del_ne; [done|]. intros ->. congruence.
    + intros e' He' _ _. simplify_eq. split; [|done]. apply Hentry.
      rewrite od_get_del_eq by apply Hi. done.
  - apply update_good. intros e' He' _ _. simplify_eq. split; [|done]. by apply Hentry.
Qed.

Lemma finish_effect o ref e close same detach :
  ro_heap o !! ref = Some e →
  ∃ c failure,
    finish_close (is_current o ref e) (se_observed_close e) close same detach = (c, failure) ∧
    (finish ref close same detach o).2 =
      finished ref (clean c) (ss_session_id (se_session e))
        (λ e', with_result (if clean c then PReleased else PQuarantined)
           (mkRetirementResult (ss_session_id (se_session e)) (se_generation e) (status_of (clean c)) c)
           (match failure with Some x => with_fact (Some x) e' | None => e' end)) o.
Proof.
  intros He. unfold finish. rewrite He.
  destruct (finish_close _ _ _ _ _) as [c failure]. exists c, failure. split; [done|].
  unfold finished. by destruct (clean c).
Qed.

Lemma finish_good o ref e close same detach :
  ro_heap o !! ref = Some e → se_result e = None → se_uses e = 0 → se_job e = None →
  good o (finish ref close same detach o).2.
Proof.
  intros He Hr Hu Hj. destruct (finish_effect o ref e close same detach He) as (c & failure & _ & ->).
  eapply (finished_good o ref e); try done; destruct failure; try done; simpl; auto.
  all: destruct (clean c); auto.
Qed.

Lemma alter_twice {A} (f g : A → A) i (l : list A) : alter f i (alter g i l) = alter (f ∘ g) i l.
Proof. revert i. induction l as [|x l IH]; intros [|i]; simpl; [done..|]. f_equal. apply IH. Qed.

Lemma finish_job_good o ref e close same detach r :
  ro_heap o !! ref = Some e → se_result e = None → se_uses e = 0 →
  good o (update ref (with_job (Some (JobDone r))) (finish ref close same detach o).2).
Proof.
  intros He Hr Hu. destruct (finish_effect o ref e close same detach He) as (c & failure & _ & ->).
  set (g := λ e', with_result _ _ _).
  assert (update ref (with_job (Some (JobDone r)))
      (finished ref (clean c) (ss_session_id (se_session e)) g o) =
    finished ref (clean c) (ss_session_id (se_session e)) (with_job (Some (JobDone r)) ∘ g) o) as ->.
  { unfold finished. destruct (clean c); unfold update, set_heap; simpl; by rewrite alter_twice. }
  eapply (finished_good o ref e); try done; unfold g, compose; destruct failure; try done; simpl; eauto.
  all: destruct (clean c); auto.
Qed.

Lemma job_finish_good ref closed detach o : good o (job_finish ref closed detach o).
Proof.
  apply good_intro. intros Hi. unfold job_finish.
  destruct (ro_heap o !! ref) as [e|] eqn:He; [|done].
  destruct (se_job e) as [[]|] eqn:Hj; try done.
  pose proof (oi_heap _ Hi _ _ He) as [Eu Eq Ec Er Eo Ej]. rewrite Hj in Ej.
  assert (se_result e = None) as Hr.
  { destruct (se_result e) as [r|]; [|done]. destruct (Er r eq_refl) as (_ & [?|[? ?]] & _); congruence. }
  destruct closed as [[close same]|x].
  - destruct (finish ref close _ detach o) as [r o1] eqn:Hf. change o1 with (r, o1).2. rewrite <- Hf.
    by apply (finish_job_good o ref e).
  - destruct (failed_close e) as [close same]. set (o0 := update ref (with_fact (Some x)) o).
    assert (good o o0) as Hg by (apply update_good; keep_entry).
    destruct (finish ref close same detach o0) as [r o1] eqn:Hf. change o1 with (r, o1).2. rewrite <- Hf.
    etransitivity; [exact Hg|]. apply (finish_job_good o0 ref (with_fact (Some x) e)); try done.
    unfold o0, update. simpl. by rewrite list_lookup_alter_eq, He.
Qed.

(** ** Synchronous removal *)

Lemma precheck_idle env sid o ref e r o' :
  precheck_sync env (Some sid) o = (Ok r, o') → lookup_entry o sid = Some (ref, e) →
  se_result e = None → o' = o ∧ se_uses e = 0 ∧ se_job e = None.
Proof.
  unfold precheck_sync. intros Hp He Hr. rewrite He in Hp. simpl in Hp.
  destruct (needs_await env e) eqn:Hn; simplify_eq/=. split; [done|].
  unfold needs_await in Hn. rewrite bool_decide_eq_true_2 in Hn by done. simpl in Hn. bool_to_prop.
  split; [done|]. destruct (se_job e) as [j|] eqn:Ej; [|done]. exfalso. eauto.
Qed.

Lemma remove_sync_good env sid o : good o (remove_sync env sid o).2.
Proof.
  unfold remove_sync. unfold eff_bind at 1.
  destruct (precheck_sync env (Some sid) o) as [[[]|err] o0] eqn:Hp.
  2: { unfold precheck_sync in Hp. by destruct (existsb _ _); simplify_eq/=. }
  assert (o0 = o) as -> by (unfold precheck_sync in Hp; by destruct (existsb _ _); simplify_eq/=).
  destruct (lookup_entry o sid) as [[ref e]|] eqn:Hlook; [|done].
  destruct (se_result e) as [r|] eqn:Hr; [by rewrite bool_decide_eq_true_2 by eauto|].
  rewrite bool_decide_eq_false_2 by (by intros []).
  destruct (precheck_idle _ _ _ _ _ _ _ Hp Hlook Hr) as (_ & Hu & Hj).
  apply lookup_entry_Some in Hlook as [_ He].
  set (o1 := update ref (with_phase PRetiring (Some EXPLICIT_REMOVE)) o).
  assert (good o o1) as Hg1 by (apply update_good; keep_entry; by intros []).
  set (e1 := with_phase PRetiring (Some EXPLICIT_REMOVE) e).
  assert (ro_heap o1 !! ref = Some e1) as He1.
  { unfold o1, update. simpl. by rewrite list_lookup_alter_eq, He. }
  destruct (sy_memory_stop _ _); [done|].
  destruct (close_states _ _ _ _ _) as [[[failures pending] primary]|x]; [|done].
  set (o2 := match primary with Some x => update ref (with_fact (Some x)) o1 | None => o1 end).
  assert (good o1 o2) as Hg2.
  { unfold o2. destruct primary; [|done]. apply update_good. keep_entry. }
  assert (∃ e2, ro_heap o2 !! ref = Some e2 ∧ se_result e2 = None ∧ se_uses e2 = 0 ∧ se_job e2 = None)
    as (e2 & He2 & Hr2 & Hu2 & Hj2).
  { unfold o2. destruct primary as [x|]; [|by exists e1]. exists (with_fact (Some x) e1).
    change (ro_heap (update ref (with_fact (Some x)) o1)) with (alter (with_fact (Some x)) ref (ro_heap o1)).
    by rewrite list_lookup_alter_eq, He1. }
  etransitivity; [exact Hg1|]. etransitivity; [exact Hg2|]. unfold eff_bind.
  pose proof (finish_good o2 ref e2 (mkSessionCloseResult failures pending) false
    (sy_detach env (se_session e)) He2 Hr2 Hu2 Hj2) as Hg3.
  destruct (finish _ _ _ _ o2) as [[r|err] o3]; [|done]. by destruct primary.
Qed.

Lemma remove_each_good envs i ids primary o : good o (remove_each envs i ids primary o).2.
Proof.
  revert i primary o. induction ids as [|sid ids IH]; intros i primary o; simpl; [done|].
  pose proof (remove_sync_good (envs i) sid o) as Hg.
  destruct (remove_sync (envs i) sid o) as [r o1]. etransitivity; [exact Hg|]. apply IH.
Qed.

Lemma close_admission_good o : good o (close_admission o).2.
Proof. intros [Hk Hr Hh Hl Hn Hc]. split; [by split|]. split; [done|]. eauto. Qed.

Lemma close_all_sync_good envs o : good o (close_all_sync envs o).2.
Proof.
  unfold close_all_sync. unfold eff_bind at 1.
  destruct (precheck_sync (envs 0%nat) None o) as [[[]|err] o0] eqn:Hp.
  2: { unfold precheck_sync in Hp. by destruct (existsb _ _); simplify_eq/=. }
  assert (o0 = o) as -> by (unfold precheck_sync in Hp; by destruct (existsb _ _); simplify_eq/=).
  etransitivity; [apply close_admission_good|]. unfold eff_bind, close_admission. simpl.
  set (o1 := set_flags true (ro_bound o) o).
  pose proof (remove_each_good envs 1 (od_keys (ro_entries o)) None o1) as Hg.
  by destruct (remove_each _ _ _ _ _) as [primary o2].
Qed.

(** No factory is running where the step adopts sessions. *)
Definition adopts_outside (c : retention_op (X := X)) o : Prop :=
  match c with OpAdopt _ => ro_reservations o = 0 | _ => True end.

Fixpoint all_outside (ops : list (retention_op (X := X))) o : Prop :=
  match ops with
  | [] => True
  | c :: ops' => adopts_outside c o ∧ all_outside ops' (retention_step c o)
  end.

Lemma retention_step_good c o :
  adopts_outside c o ∨ 2 * ro_max_sessions o ≤ cap → good o (retention_step c o).
Proof.
  intros Hc. destruct c; simpl in *.
  - by apply adopt_good.
  - apply create_begin_good.
  - destruct (Z.ltb_spec 0 (ro_reservations o)); [by apply create_end_good|done].
  - apply activate_good.
  - apply acquire_good.
  - apply lease_fork_good.
  - apply lease_release_good.
  - apply retain_setup_state_good.
  - apply retain_close_result_good.
  - apply request_retire_good.
  - apply close_admission_good.
  - apply job_start_good.
  - apply job_resume_good.
  - apply job_finish_good.
  - apply remove_sync_good.
  - apply close_all_sync_good.
Qed.

Lemma run_retention_good ops o :
  all_outside ops o ∨ 2 * ro_max_sessions o ≤ cap → good o (run_retention ops o).
Proof.
  revert o. induction ops as [|c ops IH]; intros o Hc; [done|]. intros Hi.
  assert (good o (retention_step c o)) as Hg by (apply retention_step_good; simpl in Hc; tauto).
  destruct (Hg Hi) as [Hi1 [Hm1 E1]].
  assert (good o (run_retention (c :: ops) o)) as Hgo; [|by apply Hgo].
  etransitivity; [exact Hg|]. apply IH. rewrite Hm1. simpl in Hc. tauto.
Qed.

Lemma new_owner_inv max : policy_valid max = Ok max → max ≤ cap → owner_inv (new_owner max).
Proof.
  intros Hp Hcap. unfold policy_valid in Hp. inv_res. bool_to_prop. split; simpl; try done; try lia.
  - constructor.
  - unfold retained_count. simpl. lia.
Qed.

Lemma reachable_owner max ops :
  policy_valid max = Ok max → max ≤ cap → all_outside ops (new_owner max) ∨ 2 * max ≤ cap →
  owner_inv (run_retention ops (new_owner max)) ∧
  ro_max_sessions (run_retention ops (new_owner max)) = max.
Proof.
  intros Hp Hcap Hc.
  destruct (run_retention_good ops (new_owner max) Hc (new_owner_inv max Hp Hcap)) as [Hi [Hm _]]. done.
Qed.

Lemma clean_merge p c : clean (merge_close p c) = clean p && clean c.
Proof.
  unfold clean, merge_close. simpl. destruct p as [[|f fs] pp], c as [[|g gs] cp]; simpl;
    rewrite ?app_nil_r; destruct pp, cp; simpl; repeat case_bool_decide; done.
Qed.

Lemma finish_close_clean current observed close same (detach : res X bool) c failure :
  finish_close current observed close same detach = (c, failure) →
  (same = true → observed = Some close) →
  clean c = true ↔ current = true ∧ clean close = true ∧
    (∀ prior, observed = Some prior → clean prior = true) ∧ detach = Ok true.
Proof.
  unfold finish_close. intros Hf Hsame. destruct current; simpl in Hf.
  2: { destruct observed as [prior|]; [|by simplify_eq/=; split; [|intros [? _]]].
       rewrite clean_merge in Hf. change (clean (mkSessionCloseResult _ _)) with false in Hf.
       rewrite andb_false_r in Hf. simplify_eq. rewrite clean_merge, andb_false_r.
       by split; [|intros [? _]]. }
  set (merged := match observed with Some prior => if same then close else merge_close prior close
                 | None => close end) in Hf.
  assert (clean merged = true ↔ clean close = true ∧ ∀ prior, observed = Some prior → clean prior = true) as Hm.
  { unfold merged. destruct observed as [prior|]; [|naive_solver]. destruct same.
    - specialize (Hsame eq_refl). simplify_eq. naive_solver.
    - rewrite clean_merge, andb_true_iff. naive_solver. }
  destruct (clean merged) eqn:Hc.
  - destruct detach as [[]|x]; simplify_eq; rewrite ?Hc; naive_solver.
  - simplify_eq. rewrite Hc. naive_solver.
Qed.

Lemma quiet_unused o ref e :
  owner_inv o → ro_heap o !! ref = Some e → quiet e → ∀ l, ro_leases o !! l ≠ Some (Some ref).
Proof.
  intros Hi He Hq l Hl. pose proof (live_lease_used _ _ _ _ Hi Hl He).
  pose proof (oi_heap _ Hi _ _ He) as [_ _ _ Er _ Ej].
  destruct Hq as [Hj|[Hj|[r Hr]]]; [rewrite Hj in Ej; lia..|].
  destruct (Er r Hr) as [? _]. lia.
Qed.

(** A session with a result has lost its slot exactly if it is released. *)
Lemma result_slot o ref e r :
  owner_inv o → ro_heap o !! ref = Some e → se_result e = Some r →
  od_get (ss_session_id (se_session e)) (ro_entries o) ≠ Some ref ↔ rt_status r = RELEASED.
Proof.
  intros Hi He Hr. pose proof (oi_heap _ Hi _ _ He) as [_ _ Ec _ _ _]. rewrite Ec, Hr.
  destruct (decide (rt_status r = RELEASED)) as [|Hn]; [naive_solver|].
  split; [|done]. intros Hx. exfalso. apply Hx. by intros r' [= <-].
Qed.

Lemma update_lookup o ref e (f : SessionEntry → SessionEntry) :
  ro_heap o !! ref = Some e → ro_heap (update ref f o) !! ref = Some (f e).
Proof. intros He. unfold update. simpl. by rewrite list_lookup_alter_eq, He. Qed.

Lemma finish_heap o ref e close same detach :
  ro_heap o !! ref = Some e →
  ∃ c failure e',
    finish_close (is_current o ref e) (se_observed_close e) close same detach = (c, failure) ∧
    ro_heap (finish ref close same detach o).2 !! ref = Some e' ∧ se_session e' = se_session e ∧
    se_result e' = Some (mkRetirementResult (ss_session_id (se_session e)) (se_generation e)
                           (status_of (clean c)) c).
Proof.
  intros He. destruct (finish_effect o ref e close same detach He) as (c & failure & Hf & ->).
  exists c, failure. set (g := λ e', with_result _ _ _). exists (g e). split; [exact Hf|].
  split; [|by destruct failure].
  assert (∀ b, ro_heap (finished ref b (ss_session_id (se_session e)) g o) !! ref = Some (g e)) as Hg;
    [|apply Hg]. intros []; by apply (update_lookup o).
Qed.

Lemma job_finish_result o ref e closed detach :
  owner_inv o → ro_heap o !! ref = Some e → se_job e = Some JobClosing →
  ∃ e' r, ro_heap (job_finish ref closed detach o) !! ref = Some e' ∧
    se_session e' = se_session e ∧ se_result e' = Some r ∧
    (rt_status r = RELEASED ↔
      ∃ close same, closed = Ok (close, same) ∧ clean close = true ∧
        (∀ prior, se_observed_close e = Some prior → clean prior = true) ∧ detach = Ok true).
Proof.
  intros Hi He Hj. unfold job_finish. rewrite He, Hj.
  assert (is_current o ref e = true) as Hcur.
  { apply bool_decide_eq_true_2. apply (oi_heap _ Hi _ _ He). intros r Hr.
    destruct (ei_result _ _ _ _ (oi_heap _ Hi _ _ He) r Hr) as (_ & [?|[? ?]] & _); congruence. }
  destruct closed as [[close same]|x].
  - set (same' := same && _).
    destruct (finish_heap o ref e close same' detach He) as (c & failure & e' & Hf & He' & Hs & Hr).
    destruct (finish ref close same' detach o) as [r o1]. simpl in He'.
    eexists _, _. split; [by apply update_lookup|]. split; [exact Hs|]. split; [exact Hr|].
    rewrite Hcur in Hf. apply finish_close_clean in Hf.
    2: { unfold same'. intros [_ Hx]%andb_true_iff. by apply bool_decide_eq_true_1 in Hx. }
    simpl. transitivity (clean c = true); [by destruct (clean c)|]. rewrite Hf. naive_solver.
  - destruct (failed_close e) as [close same] eqn:Hfc.
    set (o0 := update ref (with_fact (Some x)) o).
    assert (ro_heap o0 !! ref = Some (with_fact (Some x) e)) as He0 by by apply update_lookup.
    destruct (finish_heap o0 ref _ close same detach He0) as (c & failure & e' & Hf & He' & Hs & Hr).
    destruct (finish ref close same detach o0) as [r o1]. simpl in He'.
    eexists _, _. split; [by apply update_lookup|]. split; [exact Hs|]. split; [exact Hr|].
    simpl. transitivity (clean c = true); [by destruct (clean c)|].
    apply finish_close_clean in Hf.
    + rewrite Hf. unfold failed_close in Hfc. split; [|naive_solver]. intros (_ & Hc & _).
      destruct (se_observed_close e) as [c0|]; [destruct (clean c0) eqn:Hc0|]; simplify_eq/=; congruence.
    + unfold failed_close in Hfc. intros ->. simpl.
      destruct (se_observed_close e) as [c0|]; [destruct (clean c0) eqn:Hc0|]; by simplify_eq/=.
Qed.
End facts.

Lemma policy_positive max : policy_valid max = Ok max → 0 < max.
Proof. unfold policy_valid. intros. inv_res. bool_to_prop. lia. Qed.

(** Any history, whenever sessions are adopted. *)
Lemma reachable_any {X : Type} max (ops : list (retention_op (X := X))) :
  policy_valid max = Ok max →
  owner_inv (2 * max) (run_retention ops (new_owner max)) ∧
  ro_max_sessions (run_retention ops (new_owner max)) = max.
Proof.
  intros Hp. pose proof (policy_positive max Hp). apply reachable_owner; [done|lia|right; lia].
Qed.

Lemma later_any {X : Type} max (later : list (retention_op (X := X))) o :
  owner_inv (2 * max) o → ro_max_sessions o = max → good (2 * max) o (run_retention later o).
Proof. intros _ Hm. apply run_retention_good. right. lia. Qed.

(** C35: The connection never holds more than its limit of sessions: after any
    history of calls and task steps in which no sessions are adopted while a
    factory is running (but factories may run inside one another and anything
    else may happen while they run), the retained sessions and the slots reserved
    by running factories together stay within the policy's limit. If sessions are
    adopted while factories run, which the code does not refuse, they stay within
    twice the limit. In every history each retained session is held under its own
    id, and is active for new uses only if it is neither retiring nor finished. *)
Theorem sessions_bounded {X : Type} max (ops : list (retention_op (X := X))) :
  policy_valid max = Ok max →
  let o := run_retention ops (new_owner max) in
  0 ≤ ro_reservations o ∧
  Z.of_nat (length (ro_entries o)) + ro_reservations o ≤ 2 * max ∧
  (all_outside ops (new_owner max) → Z.of_nat (length (ro_entries o)) + ro_reservations o ≤ max) ∧
  ∀ sid ref, od_get sid (ro_entries o) = Some ref →
    ∃ e, ro_heap o !! ref = Some e ∧ ss_session_id (se_session e) = sid ∧
      (is_active o sid = true → se_job e = None ∧ se_result e = None).
Proof.
  intros Hp o. destruct (reachable_any max ops Hp) as [Hi Hm]. fold o in Hi, Hm.
  split_and!; [apply Hi|apply (oi_capacity _ _ Hi)| |].
  - intros Hout. destruct (reachable_owner max max ops Hp) as [Hi' _]; [lia|by left|].
    apply (oi_capacity _ _ Hi').
  - intros sid ref Hs. destruct (oi_refs _ _ Hi _ _ Hs) as (e & He & Hid).
    exists e. split_and!; try done. unfold is_active, lookup_entry. rewrite Hs. simpl. rewrite He. simpl.
    intros Ha%bool_decide_eq_true_1. apply (oi_heap _ _ Hi _ _ He). by right.
Qed.

(** C7: A session is never cleaned up under a user, and no retirement is
    forgotten. After any history: the use count is the number of live leases; once
    a retirement has called the session's cleanup or the session has its result,
    there is no live lease and never will be again, whatever is called later; a
    retirement that waits and has not been woken waits for a live lease, so no
    wake-up is lost; and a live lease can always be released and forked, never
    being stale. *)
Theorem retirement_waits_for_uses {X : Type} max (ops : list (retention_op (X := X))) ref e :
  policy_valid max = Ok max →
  let o := run_retention ops (new_owner max) in
  ro_heap o !! ref = Some e →
  se_uses e = Z.of_nat (live_count (ro_leases o) ref) ∧
  (se_job e = Some JobClosing ∨ is_Some (se_result e) →
     ∀ later l, ro_leases (run_retention later o) !! l ≠ Some (Some ref)) ∧
  (se_job e = Some (JobWaiting false) → ∃ l, ro_leases o !! l = Some (Some ref)) ∧
  (∀ l, ro_leases o !! l = Some (Some ref) →
     (lease_release l o).1 = Ok tt ∧ ∃ l', (lease_fork l o).1 = Ok (Some l')).
Proof.
  intros Hp o He. destruct (reachable_any max ops Hp) as [Hi Hm]. fold o in Hi, Hm.
  pose proof (oi_heap _ _ Hi _ _ He) as [Eu Eq Ec Er Eo Ej]. split_and!; [done| | |].
  - intros Hq later l Hl. assert (quiet e) as Hquiet by (unfold quiet; tauto).
    destruct (later_any max later o Hi Hm Hi) as [Hi' [_ Hk]].
    destruct (Hk ref e He) as (e' & He' & _ & _ & Hq').
    by apply (quiet_unused _ _ _ _ Hi' He' (Hq' Hquiet) l).
  - intros Hj. rewrite Hj in Ej. destruct (filter (λ l, l = Some ref) (ro_leases o)) as [|x xs] eqn:Hf.
    + unfold live_count in Eu. rewrite Hf in Eu. done.
    + assert (x ∈ filter (λ l, l = Some ref) (ro_leases o)) as Hx by (rewrite Hf; left).
      apply list_elem_of_filter in Hx as [-> Hx]. by apply list_elem_of_lookup in Hx.
  - intros l Hl. destruct (live_lease_current _ o l ref Hi Hl) as (e' & He' & _ & Hc & Hr).
    assert (e' = e) as -> by congruence. unfold lease_release, lease_fork, release_use. rewrite Hl. simpl.
    rewrite He. unfold is_current in *. simpl. rewrite Hc, Hr. simpl. eauto.
Qed.

(** A session's slot is given back only for a clean end. After any history,
    when a retirement's cleanup has ended: the session leaves the owner exactly if
    the cleanup returned with no failure and nothing pending, none was observed
    before, and the session was detached; otherwise it is quarantined and keeps
    its slot, in every later history. *)
Theorem slot_freed_only_when_clean {X : Type} max (ops : list (retention_op (X := X))) ref e
    closed detach :
  policy_valid max = Ok max →
  let o := run_retention ops (new_owner max) in
  ro_heap o !! ref = Some e → se_job e = Some JobClosing →
  let o' := job_finish ref closed detach o in
  let sid := ss_session_id (se_session e) in
  (od_get sid (ro_entries o') ≠ Some ref ↔
     ∃ close same, closed = Ok (close, same) ∧ clean close = true ∧
       (∀ prior, se_observed_close e = Some prior → clean prior = true) ∧ detach = Ok true) ∧
  (od_get sid (ro_entries o') = Some ref →
     ∀ later, od_get sid (ro_entries (run_retention later o')) = Some ref).
Proof.
  intros Hp o He Hj o' sid. destruct (reachable_any max ops Hp) as [Hi Hm]. fold o in Hi, Hm.
  destruct (job_finish_result _ o ref e closed detach Hi He Hj) as (e' & r & He' & Hs & Hr & Hrel).
  fold o' in He'. destruct (job_finish_good _ ref closed detach o Hi) as [Hi' [Hm' _]]. fold o' in Hi', Hm'.
  pose proof (result_slot _ o' ref e' r Hi' He' Hr) as Hslot. rewrite Hs in Hslot. fold sid in Hslot.
  split; [by rewrite Hslot, Hrel|]. intros Hkept later.
  destruct (later_any max later o' Hi' ltac:(congruence) Hi') as [Hi2 [_ Hk]].
  destruct (Hk ref e' He') as (e2 & He2 & Hs2 & Hr2 & _).
  pose proof (oi_heap _ _ Hi2 _ _ He2) as [_ _ Ec _ _ _]. rewrite Hs2, Hs in Ec. apply Ec.
  intros r' Hr'. rewrite (Hr2 r Hr) in Hr'. simplify_eq. intros Hx. by apply Hslot in Hx.
Qed.

(** ** Witnesses *)

Definition example_waiting : list (retention_op (X := unit)) :=
  [OpCreateBegin; OpCreateEnd (Ok (mkSession 0 "s")) false None; OpCreateBegin; OpAcquire "s";
   OpRetire "s" SHUTDOWN; OpJobStart 0 None].
Definition example_closing : list (retention_op (X := unit)) :=
  example_waiting ++ [OpRelease 0; OpJobResume 0].

(** Two sessions adopted inside a factory, with a limit of two. *)
Definition example_adopting : list (retention_op (X := unit)) :=
  [OpCreateBegin; OpAdopt [(mkSession 0 "s", None); (mkSession 1 "t", None)]].

Definition example_entry (ops : list (retention_op (X := unit))) : option SessionEntry :=
  ro_heap (run_retention ops (new_owner 2)) !! 0%nat.

Lemma sessions_bounded_witness :
  policy_valid 2 = Ok 2 ∧
  let o := run_retention example_waiting (new_owner 2) in
  Z.of_nat (length (ro_entries o)) + ro_reservations o ≤ 2 ∧ retained_count o = 2 ∧
  (create_begin o).1 = Err SessionCapacityError ∧
  retained_count (run_retention example_adopting (new_owner 2)) = 3.
Proof.
  split; [reflexivity|]. split.
  - apply (sessions_bounded 2 example_waiting eq_refl). vm_compute. tauto.
  - vm_compute. repeat split; reflexivity.
Defined.

Lemma retirement_waits_for_uses_witness :
  se_job <$> example_entry example_waiting = Some (Some (JobWaiting false)) ∧
  (∃ l, ro_leases (run_retention example_waiting (new_owner 2)) !! l = Some (Some 0%nat)) ∧
  se_job <$> example_entry example_closing = Some (Some JobClosing) ∧
  ∀ later l,
    ro_leases (run_retention later (run_retention example_closing (new_owner 2))) !! l ≠ Some (Some 0%nat).
Proof.
  split; [vm_compute; reflexivity|]. split; [|split; [vm_compute; reflexivity|]].
  - destruct (example_entry example_waiting) as [e|] eqn:He; [|vm_compute in He; discriminate].
    apply (retirement_waits_for_uses 2 example_waiting 0 e eq_refl He).
    vm_compute in He. injection He as <-. reflexivity.
  - destruct (example_entry example_closing) as [e|] eqn:He; [|vm_compute in He; discriminate].
    apply (retirement_waits_for_uses 2 example_closing 0 e eq_refl He).
    left. vm_compute in He. injection He as <-. reflexivity.
Defined.

Lemma slot_freed_only_when_clean_witness :
  let o := run_retention example_closing (new_owner 2) in
  od_get "s" (ro_entries (job_finish 0 (Ok (mkSessionCloseResult [] false, false)) (Ok true) o))
    ≠ Some 0%nat ∧
  ∀ later, od_get "s" (ro_entries (run_retention later
    (job_finish 0 (Ok (mkSessionCloseResult ["x"] false, false)) (Ok true) o))) = Some 0%nat.
Proof.
  destruct (example_entry example_closing) as [e|] eqn:He; [|vm_compute in He; discriminate].
  assert (se_job e = Some JobClosing ∧ ss_session_id (se_session e) = "s" ∧ se_observed_close e = None)
    as (Hj & Hs & Hob) by (vm_compute in He; injection He as <-; done).
  split.
  - destruct (slot_freed_only_when_clean 2 example_closing 0 e
      (Ok (mkSessionCloseResult [] false, false)) (Ok true) eq_refl He Hj) as [Hfree _].
    rewrite Hs in Hfree. apply Hfree. exists (mkSessionCloseResult [] false), false.
    rewrite Hob. by split_and!.
  - destruct (slot_freed_only_when_clean 2 example_closing 0 e
      (Ok (mkSessionCloseResult ["x"] false, false)) (Ok true) eq_refl He Hj) as [_ Hkept].
    rewrite Hs in Hkept. apply Hkept. vm_compute. reflexivity.
Defined.
