(* ===== verification/Guardrails.v ===== *)
(** The rules every tool call is judged by: secret paths
    ([optimus/guardrails/secret_paths.py]), the reserved runtime tree
    ([runtime_tree.py]), path validation ([validation.py], [path_safety.py]) and
    the layered permission policy ([permissions.py]).

    The file system's resolution of paths is a parameter; paths are POSIX paths. *)
From Stdlib Require Ascii.
Import (notations) Ascii.
From S2P Require Import Prelude Text Runtime.

Local Open Scope string_scope.

(** * Secret paths *)

Definition SECRET_NAMES : list string :=
  [".env"; ".pypirc"; ".netrc"; "id_rsa"; "id_ed25519"; "credentials"; "token"; "secrets"].

Definition is_secret_name (part : string) : bool :=
  bool_decide (part ∈ SECRET_NAMES) || starts_with ".env." part ||
  ends_with ".pem" part || ends_with ".key" part.

Definition is_secret_path (path : string) : bool :=
  existsb is_secret_name (split_char "/" (lower (as_posix (normalize_separators path)))).

(** * The runtime tree *)

Definition RUNTIME_DIR_NAME : string := ".optimus".

(** [has_runtime_component] where names are case-sensitive. *)
Definition has_runtime_component (parts : list string) : bool :=
  bool_decide (RUNTIME_DIR_NAME ∈ parts).

(** [Path.relative_to]: the parts below the root, if the path is below it. *)
Fixpoint strip_parts (root parts : list string) : option (list string) :=
  match root, parts with
  | [], _ => Some parts
  | r :: root', p :: parts' => if String.eqb r p then strip_parts root' parts' else None
  | _ :: _, [] => None
  end.
Definition relative_to (path root : string) : option (list string) :=
  strip_parts (posix_parts root) (posix_parts path).

Definition target_reserved (target root : string) : bool :=
  has_runtime_component
    (match relative_to target root with Some parts => parts | None => posix_parts target end).

(** * Path validation *)

Inductive ValidationVerdict := VAllow | VBlock | VHold.
#[export] Instance ValidationVerdict_eq_dec : EqDecision ValidationVerdict.
Proof. solve_decision. Defined.

Record ValidationResult := mkValidationResult {
  vr_verdict : ValidationVerdict;
  vr_rule_id : string;
  vr_reason : string
}.

Definition is_absolute (path : string) : bool := starts_with "/" path.

(** [root / path]. *)
Definition path_join (root path : string) : string :=
  if is_absolute path then path else root +:+ "/" +:+ path.

Section path_safety.
(** [Path(p).resolve()]: [None] when it raises [OSError] or [RuntimeError]. *)
Variable resolve : string → option string.
(** The resolved workspace root. *)
Variable root : string.

Definition inside_workspace (path : string) : res string bool :=
  match resolve path with
  | Some resolved => Ok (bool_decide (is_Some (relative_to resolved root)))
  | None => Err "unresolvable path"
  end.

Definition secret_candidate (candidate : string) (requested : option string) : bool :=
  is_secret_path (as_posix candidate) ||
  match requested with Some p => is_secret_path p | None => false end.

Definition runtime_reserved (candidate : string) (requested : option string) : bool :=
  let '(lexical, target) :=
    match requested with
    | Some p => (posix_parts p, if is_absolute candidate then Some candidate
                                else resolve (path_join root candidate))
    | None => if is_absolute candidate
              then (default [] (relative_to candidate root), resolve candidate)
              else (posix_parts candidate, resolve (path_join root candidate))
    end in
  if has_runtime_component lexical then true
  else match target with Some t => target_reserved t root | None => false end.

Definition validate_read (path : string) (requested : option string) (target_unresolved : bool)
    : res string ValidationResult :=
  if secret_candidate path requested
  then Ok (mkValidationResult VBlock "path.secret.read" "secret path reads are denied")
  else if target_unresolved
  then Ok (mkValidationResult VBlock "path.unresolved.read" "an unresolvable read target is denied")
  else if runtime_reserved path requested
  then Ok (mkValidationResult VBlock "path.runtime.read" "runtime tree reads are denied")
  else
    let* inside := inside_workspace path in
    if negb inside
    then Ok (mkValidationResult VHold "path.read.outside_workspace"
               "read outside workspace requires approval")
    else Ok (mkValidationResult VAllow "path.read.allowed" "path read allowed").

Definition validate_write (path : string) (requested : option string) (target_unresolved : bool)
    : res string ValidationResult :=
  if secret_candidate path requested
  then Ok (mkValidationResult VBlock "path.secret.write" "secret path writes are denied")
  else if target_unresolved
  then Ok (mkValidationResult VBlock "path.unresolved.write" "an unresolvable write target is denied")
  else if runtime_reserved path requested
  then Ok (mkValidationResult VBlock "path.runtime.write" "runtime tree writes are denied")
  else
    let* inside := inside_workspace path in
    if negb inside
    then Ok (mkValidationResult VBlock "path.workspace_escape" "writes must stay inside workspace")
    else Ok (mkValidationResult VAllow "path.write.allowed" "path write allowed").

Definition validate_delete_pattern (pattern : string) : ValidationResult :=
  let normalized := normalize_separators pattern in
  if contains "**" normalized || ends_with "/*" normalized || ends_with "/" normalized
  then mkValidationResult VHold "path.recursive_glob_delete"
         "recursive or broad delete requires approval"
  else mkValidationResult VAllow "path.delete_pattern.allowed" "delete pattern allowed".
End path_safety.

(** * Permissions *)

Inductive ToolSurface := SHELL | FILE_READ | FILE_WRITE | SHADOW_APPLY | WEB | MCP.
#[export] Instance ToolSurface_eq_dec : EqDecision ToolSurface.
Proof. solve_decision. Defined.

Definition ToolSurface_value (s : ToolSurface) : string :=
  match s with
  | SHELL => "shell" | FILE_READ => "file_read" | FILE_WRITE => "file_write"
  | SHADOW_APPLY => "shadow_apply" | WEB => "web" | MCP => "mcp"
  end.

Inductive PermissionVerdict := PAllow | PDeny | PHold.
#[export] Instance PermissionVerdict_eq_dec : EqDecision PermissionVerdict.
Proof. solve_decision. Defined.

Inductive PermissionLayer := LMode | LUserDeny | LProjectAllow | LImpact | LClassifier.
#[export] Instance PermissionLayer_eq_dec : EqDecision PermissionLayer.
Proof. solve_decision. Defined.

Definition PermissionLayer_value (l : PermissionLayer) : string :=
  match l with
  | LMode => "mode" | LUserDeny => "user_deny" | LProjectAllow => "project_allow"
  | LImpact => "impact" | LClassifier => "classifier"
  end.

Inductive ImpactClass := LOW | MEDIUM | HIGH.
#[export] Instance ImpactClass_eq_dec : EqDecision ImpactClass.
Proof. solve_decision. Defined.

Record PermissionRequest := mkPermissionRequest {
  pq_run_id : string;
  pq_session_id : option string;
  pq_execution_mode : ExecutionMode;
  pq_tool_surface : ToolSurface;
  pq_action : string;
  pq_command : list string;
  pq_target_path : option string;
  pq_generation_scope : GenerationScope;
  pq_approval_granted : bool;
  pq_first_time_tool : bool;
  pq_metadata : odict string string
}.

Record PermissionDecision := mkPermissionDecision {
  pd_verdict : PermissionVerdict;
  pd_layer : PermissionLayer;
  pd_rule_id : string;
  pd_reason : string;
  pd_impact_class : ImpactClass;
  pd_requires_human_approval : bool
}.

Definition classify_impact (r : PermissionRequest) : ImpactClass :=
  if pq_first_time_tool r then HIGH
  else if bool_decide (pq_generation_scope r = MULTI_FILE_CHANGESET) then HIGH
  else if bool_decide (pq_generation_scope r = FILE_MUTATION) then HIGH
  else if bool_decide (pq_tool_surface r ∈ [FILE_WRITE; SHADOW_APPLY; WEB; MCP]) then MEDIUM
  else LOW.

Definition deny (rule_id reason : string) (layer : PermissionLayer) : PermissionDecision :=
  mkPermissionDecision PDeny layer rule_id reason
    (if bool_decide (layer = LUserDeny) then HIGH else LOW) false.

Definition ExecutionMode_value (m : ExecutionMode) : string :=
  match m with PLAN => "PLAN" | CHAT => "CHAT" | AGENT => "AGENT" end.

Definition mode_decision (r : PermissionRequest) : option PermissionDecision :=
  let unknown :=
    if negb (bool_decide (pq_execution_mode r = AGENT))
    then Some (deny "mode.unknown"
                 ("unknown execution mode: " +:+ ExecutionMode_value (pq_execution_mode r)) LMode)
    else None in
  if bool_decide (pq_execution_mode r ∈ [PLAN; CHAT]) then
    if bool_decide (pq_tool_surface r = SHELL)
    then Some (deny "mode.plan_chat.no_shell" "Plan/Chat mode cannot execute shell commands" LMode)
    else if bool_decide (pq_tool_surface r ∈ [FILE_WRITE; SHADOW_APPLY; WEB; MCP])
    then Some (deny "mode.plan_chat.no_side_effects" "Plan/Chat mode cannot perform side effects" LMode)
    else if bool_decide (pq_tool_surface r = FILE_READ) then None
    else unknown
  else unknown.

Definition remove_plus (token : string) : string :=
  match token with String "+" rest => rest | _ => token end.

Definition mentions_protected_ref (token : string) : bool :=
  let normalized := remove_plus token in
  bool_decide (normalized ∈ ["main"; "master"; "refs/heads/main"; "refs/heads/master"]) ||
  existsb (λ suffix, ends_with suffix normalized)
    [":main"; ":master"; ":refs/heads/main"; ":refs/heads/master"].

Definition is_force_push_to_protected_branch (command : list string) (text : string) : bool :=
  let tokens := lower <$> command in
  match tokens with
  | "git" :: "push" :: _ =>
      let has_force_flag := existsb (λ t, String.eqb t "-f" || starts_with "--force" t) tokens in
      let has_plus_refspec := existsb (λ t, starts_with "+" t && mentions_protected_ref t) tokens in
      let has_protected_ref := existsb mentions_protected_ref tokens in
      has_plus_refspec || (has_force_flag && has_protected_ref)
  | _ =>
      contains "git push" text &&
      (((contains " --force" text || contains " --force-with-lease" text || contains " -f" text) &&
        (contains " main" (" " +:+ text) || contains " master" (" " +:+ text) ||
         contains ":main" text || contains ":master" text)) ||
       contains "+main" text || contains "+master" text ||
       contains "+head:main" text || contains "+head:master" text)
  end.

Definition user_deny_decision (r : PermissionRequest) : option PermissionDecision :=
  let text := lower (join " " (pq_command r ++ [pq_action r])%list) in
  if is_force_push_to_protected_branch (pq_command r) text
  then Some (deny "deny.git.force_push_main" "force-push to main is denied" LUserDeny)
  else if match pq_target_path r with
          | Some p => negb (String.eqb p "") && is_secret_path p
          | None => false
          end
  then Some (deny "deny.path.secret" "secret or credential path access is denied" LUserDeny)
  else if existsb (λ token, contains token text) ["chmod 777"; "icacls everyone:f"; "set-acl"]
  then Some (deny "deny.permissions.world_writable" "broad permission changes are denied" LUserDeny)
  else None.

Definition allow (rule_id reason : string) (impact : ImpactClass) : option PermissionDecision :=
  Some (mkPermissionDecision PAllow LProjectAllow rule_id reason impact false).

(** The [SHELL] part of [_project_allow_decision]. *)
Definition shell_allow (r : PermissionRequest) (impact : ImpactClass) : option PermissionDecision :=
  match pq_command r with
  | [] => None
  | c0 :: _ =>
      if String.eqb c0 "pytest"
      then allow "allow.shell.pytest" "pytest is project-allowed" impact
      else if bool_decide (take 2 (pq_command r) ∈
                [["git"; "status"]; ["git"; "diff"]; ["git"; "log"]; ["git"; "show"]])
      then allow "allow.shell.git_readonly" "read-only git inspection is project-allowed" impact
      else if pq_approval_granted r
      then allow "allow.shell.agent_pre_tool_validation"
             "approved shell command may proceed to deterministic pre-tool validation" impact
      else None
  end.

(** The [MCP] part. *)
Definition mcp_allow (r : PermissionRequest) (impact : ImpactClass) : option PermissionDecision :=
  if bool_decide (od_get "mcp_authority" (pq_metadata r) = Some "client_session") then
    if bool_decide (default "write" (od_get "mcp_effect" (pq_metadata r)) ∈ ["read"; "network"])
    then allow "allow.mcp.client_session_non_mutating"
           "client-session read/network MCP call may proceed under active lease" impact
    else Some (mkPermissionDecision PHold LImpact "mcp.client.write_one_call_required"
                 "client-session write MCP call requires one-call approval" impact true)
  else if pq_approval_granted r
  then allow "allow.mcp.approved_pre_tool_validation"
         "approved MCP call may proceed to deterministic pre-tool validation" impact
  else None.

Definition project_allow_decision (r : PermissionRequest) (impact : ImpactClass)
    : option PermissionDecision :=
  let when_approved d := if pq_approval_granted r then d else None in
  match pq_tool_surface r with
  | SHELL => shell_allow r impact
  | FILE_READ => allow "allow.file_read.pre_tool_validation"
                   "file read may proceed to deterministic path validation" impact
  | FILE_WRITE => when_approved (allow "allow.file_write.approved_pre_tool_validation"
                   "approved file write may proceed to deterministic path validation" impact)
  | SHADOW_APPLY => when_approved (allow "allow.shadow_apply.approved_pre_tool_validation"
                   "approved shadow apply may proceed to deterministic pre-tool validation" impact)
  | WEB => when_approved (allow "allow.web.approved_pre_tool_validation"
                   "approved web call may proceed to deterministic pre-tool validation" impact)
  | MCP => mcp_allow r impact
  end.

Definition requires_human_hold (r : PermissionRequest) (impact : ImpactClass) : bool :=
  bool_decide (impact = HIGH) && negb (pq_approval_granted r).

(** [PermissionPolicy.decide], the classifier being an optional function. *)
Definition decide_permission
    (borderline_classifier : option (PermissionRequest → PermissionVerdict * string))
    (r : PermissionRequest) : PermissionDecision :=
  match mode_decision r with
  | Some d => d
  | None =>
  match user_deny_decision r with
  | Some d => d
  | None =>
  let impact := classify_impact r in
  if requires_human_hold r impact
  then mkPermissionDecision PHold LImpact "impact.high.requires_approval"
         "high impact or first-time tool requires human approval" impact true
  else
  match project_allow_decision r impact with
  | Some d => d
  | None =>
  match borderline_classifier with
  | None => mkPermissionDecision PHold LClassifier "classifier.not_configured"
              "borderline call requires human approval" impact true
  | Some classifier =>
      let '(verdict, rule_id) := classifier r in
      if bool_decide (verdict = PDeny)
      then mkPermissionDecision verdict LClassifier rule_id "classifier denied" impact false
      else if bool_decide (verdict = PAllow) && pq_approval_granted r
      then mkPermissionDecision verdict LClassifier rule_id "classifier allowed" impact false
      else mkPermissionDecision PHold LClassifier rule_id
             "classifier did not produce an approved allow" impact true
  end end end end.

(** * Secret paths, component by component *)

(** The components of a path in either separator style. *)
Definition components (path : string) : list string := split_char "/" (normalize_separators path).

Lemma existsb_filter (f : string → bool) (l : list string) :
  f "" = false → f "." = false →
  existsb f (filter (λ w, w ≠ "" ∧ w ≠ ".") l) = existsb f l.
Proof.
  intros H0 H1. induction l as [|w l IH]; [done|]. rewrite filter_cons. simpl. rewrite <- IH.
  case_decide as Hd; [done|]. destruct (decide (w = "")) as [->|]; [by rewrite H0|].
  destruct (decide (w = ".")) as [->|]; [by rewrite H1|]. tauto.
Qed.

Lemma existsb_split_join (f : string → bool) (l : list string) :
  f "" = false → Forall (λ w, has_char "/" w = false) l →
  existsb f (split_char "/" (join "/" l)) = existsb f l.
Proof.
  intros H0 Hl. destruct l as [|w l]; [simpl; by rewrite H0|].
  change "/" with (String "/" ""). by rewrite split_char_join.
Qed.

Lemma existsb_as_posix (f : string → bool) (path : string) :
  f "" = false → f "." = false →
  existsb f (split_char "/" (as_posix path)) = existsb f (split_char "/" path).
Proof.
  intros H0 H1. rewrite <- (existsb_filter f (split_char "/" path) H0 H1).
  set (l := filter _ _). assert (Forall (λ w, has_char "/" w = false) l) as Hl.
  { apply Forall_forall. intros w [_ Hw]%list_elem_of_filter.
    pose proof (split_char_no_sep "/" path) as Hs. rewrite Forall_forall in Hs. auto. }
  pose proof (existsb_split_join f l H0 Hl) as Hj. unfold as_posix. fold l.
  unfold posix_root. destruct (starts_with "//" path && _); [|destruct (starts_with "/" path)].
  - change ("//" +:+ join "/" l) with ("" +:+ String "/" ("" +:+ String "/" (join "/" l))).
    rewrite !split_char_app, !existsb_app, Hj. simpl. by rewrite H0.
  - change ("/" +:+ join "/" l) with ("" +:+ String "/" (join "/" l)).
    rewrite split_char_app, existsb_app, Hj. simpl. by rewrite H0.
  - case_decide as Hd; [|done]. rewrite Hd in Hj. simpl in *. by rewrite <- Hj, H0, H1.
Qed.

(** C36: A path is secret exactly if one of its components, in either separator
    style and in any case, is a credential name, an [.env.] variant or a key file:
    the normalisation of the path (root, doubled separators, dots) hides no
    component and invents none. *)
Theorem secret_path_exact path :
  is_secret_path path = true ↔
  ∃ c, c ∈ components path ∧
    (lower c ∈ SECRET_NAMES ∨ starts_with ".env." (lower c) = true ∨
     ends_with ".pem" (lower c) = true ∨ ends_with ".key" (lower c) = true).
Proof.
  unfold is_secret_path. rewrite split_lower.
  assert (∀ l, existsb is_secret_name (lower <$> l) = existsb (λ c, is_secret_name (lower c)) l) as ->.
  { intros l. induction l as [|w l IH]; [done|]. rewrite fmap_cons. cbn [existsb]. by rewrite IH. }
  rewrite existsb_as_posix by (vm_compute; reflexivity). fold (components path).
  rewrite existsb_exists. apply exist_proper. intros c. rewrite <- list_elem_of_In.
  unfold is_secret_name. rewrite !orb_true_iff, bool_decide_eq_true. tauto.
Qed.

(** * Approval *)

(** The same request after the user has approved it. *)
Definition approved (r : PermissionRequest) : PermissionRequest :=
  mkPermissionRequest (pq_run_id r) (pq_session_id r) (pq_execution_mode r) (pq_tool_surface r)
    (pq_action r) (pq_command r) (pq_target_path r) (pq_generation_scope r) true
    (pq_first_time_tool r) (pq_metadata r).

(** The verdict, by the layers that decide it. *)
Lemma decide_cases r :
  let d := decide_permission None r in
  match mode_decision r, user_deny_decision r with
  | Some m, _ => d = m
  | None, Some u => d = u
  | None, None =>
      if requires_human_hold r (classify_impact r) then pd_verdict d = PHold
      else match project_allow_decision r (classify_impact r) with
           | Some a => d = a
           | None => pd_verdict d = PHold
           end
  end.
Proof.
  unfold decide_permission. destruct (mode_decision r); [done|].
  destruct (user_deny_decision r); [done|]. destruct (requires_human_hold r _); [done|].
  by destruct (project_allow_decision r _).
Qed.

Lemma project_allow_never_denies r impact d :
  project_allow_decision r impact = Some d → pd_verdict d ≠ PDeny.
Proof.
  unfold project_allow_decision, shell_allow, mcp_allow, allow. intros Hd.
  destruct (pq_tool_surface r); repeat case_match; by simplify_eq.
Qed.

Lemma project_allow_approved r impact d :
  project_allow_decision r impact = Some d → pd_verdict d = PAllow →
  ∃ d', project_allow_decision (approved r) impact = Some d' ∧ pd_verdict d' = PAllow.
Proof.
  unfold project_allow_decision, shell_allow, mcp_allow, allow. simpl. intros Hd Hv.
  destruct (pq_tool_surface r); repeat case_match; simplify_eq; eauto.
Qed.

Lemma mode_decision_denies r d : mode_decision r = Some d → pd_verdict d = PDeny.
Proof. unfold mode_decision. intros Hd. repeat case_match; by simplify_eq. Qed.
Lemma user_deny_denies r d : user_deny_decision r = Some d → pd_verdict d = PDeny.
Proof. unfold user_deny_decision. intros Hd. repeat case_match; by simplify_eq. Qed.

(** What the user's approval can and cannot do, for the policy the guard is
    built with: a denied call stays denied, by the same rule, after approval; and
    a call that was allowed without it is still allowed with it. So approval only
    ever turns a held call into an allowed one. *)
Theorem approval_monotone r :
  let before := decide_permission None r in
  let after := decide_permission None (approved r) in
  (pd_verdict before = PDeny → after = before) ∧
  (pd_verdict after = PDeny → after = before) ∧
  (pd_verdict before = PAllow → pd_verdict after = PAllow).
Proof.
  pose proof (decide_cases r) as Hb. pose proof (decide_cases (approved r)) as Ha. cbv zeta in *.
  change (mode_decision (approved r)) with (mode_decision r) in Ha.
  change (user_deny_decision (approved r)) with (user_deny_decision r) in Ha.
  change (classify_impact (approved r)) with (classify_impact r) in Ha.
  destruct (mode_decision r) as [m|]; [rewrite Ha, Hb; by split_and!|].
  destruct (user_deny_decision r) as [u|]; [rewrite Ha, Hb; by split_and!|].
  assert (requires_human_hold (approved r) (classify_impact r) = false) as Hh
    by (unfold requires_human_hold; simpl; by rewrite andb_false_r).
  rewrite Hh in Ha.
  assert (pd_verdict (decide_permission None r) ≠ PDeny) as Hnb.
  { destruct (requires_human_hold r _); [congruence|].
    destruct (project_allow_decision r _) eqn:E; [|congruence].
    rewrite Hb. by eapply project_allow_never_denies. }
  assert (pd_verdict (decide_permission None (approved r)) ≠ PDeny) as Hna.
  { destruct (project_allow_decision (approved r) _) eqn:E; [|congruence].
    rewrite Ha. by eapply project_allow_never_denies. }
  split_and!; [done|done|]. intros Hv.
  destruct (requires_human_hold r _); [congruence|].
  destruct (project_allow_decision r _) as [d|] eqn:E; [|congruence]. rewrite Hb in Hv.
  destruct (project_allow_approved r _ d E Hv) as (d' & E' & Hv'). rewrite E' in Ha. congruence.
Qed.

(** An allowed call: the mode, the secret rule and the approvals behind it. *)
Record permitted (r : PermissionRequest) : Prop := {
  pm_mode : pq_execution_mode r = AGENT ∨ pq_tool_surface r = FILE_READ;
  pm_secret : ∀ p, pq_target_path r = Some p → p ≠ "" → is_secret_path p = false;
  pm_effect : pq_tool_surface r ∈ [FILE_WRITE; SHADOW_APPLY; WEB] → pq_approval_granted r = true;
  pm_impact : pq_first_time_tool r = true ∨
      pq_generation_scope r ∈ [FILE_MUTATION; MULTI_FILE_CHANGESET] → pq_approval_granted r = true;
  pm_mcp : pq_tool_surface r = MCP →
      od_get "mcp_authority" (pq_metadata r) ≠ Some "client_session" → pq_approval_granted r = true
}.

(** What every call that is not denied has passed. *)
Lemma not_denied classifier r :
  pd_verdict (decide_permission classifier r) ≠ PDeny →
  (pq_execution_mode r = AGENT ∨ pq_tool_surface r = FILE_READ) ∧
  ∀ p, pq_target_path r = Some p → p ≠ "" → is_secret_path p = false.
Proof.
  unfold decide_permission. intros Hd.
  destruct (mode_decision r) as [m|] eqn:Hm; [by apply mode_decision_denies in Hm|].
  destruct (user_deny_decision r) as [u|] eqn:Hu; [by apply user_deny_denies in Hu|]. split.
  - unfold mode_decision in Hm. destruct (pq_execution_mode r), (pq_tool_surface r); try done; auto.
  - intros p Hp Hne. unfold user_deny_decision in Hu. rewrite Hp in Hu.
    destruct (is_secret_path p); [|done]. apply String.eqb_neq in Hne. rewrite Hne in Hu. simpl in Hu.
    destruct (is_force_push_to_protected_branch _ _); discriminate Hu.
Qed.

Lemma allowed_permitted classifier r :
  pd_verdict (decide_permission classifier r) = PAllow → permitted r.
Proof.
  intros Hd. destruct (not_denied classifier r) as [Hmode Hsecret]; [congruence|]. revert Hd.
  unfold decide_permission. intros Hd.
  destruct (mode_decision r) as [m|] eqn:Hm; [by apply mode_decision_denies in Hm; congruence|].
  destruct (user_deny_decision r) as [u|] eqn:Hu; [by apply user_deny_denies in Hu; congruence|].
  destruct (requires_human_hold r (classify_impact r)) eqn:Hh; [done|].
  assert (pq_approval_granted r = false →
    pq_first_time_tool r = false ∧ pq_generation_scope r ∉ [FILE_MUTATION; MULTI_FILE_CHANGESET] ∧
    ∃ d, project_allow_decision r (classify_impact r) = Some d ∧ pd_verdict d = PAllow) as Hna.
  { intros Ha. unfold requires_human_hold in Hh. rewrite Ha, andb_true_r in Hh.
    apply bool_decide_eq_false_1 in Hh. unfold classify_impact in Hh. split_and!.
    - by destruct (pq_first_time_tool r).
    - destruct (pq_generation_scope r); repeat case_match; try done; set_solver.
    - destruct (project_allow_decision r _); [eauto|]. destruct classifier as [f|]; [|done].
      destruct (f r) as [v i]. rewrite Ha, andb_false_r in Hd. destruct v; done. }
  split; [done|done|..].
  - intros Hs. destruct (pq_approval_granted r) eqn:Ha; [done|].
    destruct (Hna eq_refl) as (_ & _ & d & Hp & _). unfold project_allow_decision in Hp.
    rewrite Ha in Hp. destruct (pq_tool_surface r); try done; set_solver.
  - intros Hs. destruct (pq_approval_granted r) eqn:Ha; [done|].
    destruct (Hna eq_refl) as (? & ? & _). destruct Hs; [congruence|done].
  - intros Hs Hmeta. destruct (pq_approval_granted r) eqn:Ha; [done|].
    destruct (Hna eq_refl) as (_ & _ & d & Hp & _). unfold project_allow_decision, mcp_allow in Hp.
    rewrite Hs, bool_decide_eq_false_2, Ha in Hp by done. done.
Qed.

(** A path that passes validation for reading or writing. *)
Definition path_cleared (resolve : string → option string) (root path : string)
    (requested : option string) (unresolved : bool) : Prop :=
  unresolved = false ∧ runtime_reserved resolve root path requested = false ∧
  (∀ q, requested = Some q → is_secret_path q = false) ∧
  ∃ resolved, resolve path = Some resolved ∧ is_Some (relative_to resolved root).

Lemma path_allowed_cleared resolve root path requested unresolved v :
  validate_read resolve root path requested unresolved = Ok v ∨
  validate_write resolve root path requested unresolved = Ok v →
  vr_verdict v = VAllow → path_cleared resolve root path requested unresolved.
Proof.
  intros Hv Ha. unfold validate_read, validate_write in Hv.
  destruct (secret_candidate path requested) eqn:Hs; [by destruct Hv; simplify_eq|].
  destruct unresolved; [by destruct Hv; simplify_eq|].
  destruct (runtime_reserved resolve root path requested) eqn:Hr; [by destruct Hv; simplify_eq|].
  assert (∃ resolved, resolve path = Some resolved ∧ is_Some (relative_to resolved root)) as Hin.
  { unfold inside_workspace in Hv. destruct (resolve path) as [resolved|]; [|by destruct Hv].
    exists resolved. split; [done|]. simpl in Hv. case_bool_decide; [done|].
    simpl in Hv. by destruct Hv; simplify_eq. }
  split_and!; try done. intros q ->. unfold secret_candidate in Hs. bool_to_prop. done.
Qed.
