(* ===== verification/McpTrust.v ===== *)
(** Trust in MCP servers, [optimus/guardrails/mcp_trust.py]: what a manifest
    declares, how it is hashed, the effect class of its tools, and the registry of
    the servers a user has approved.

    SHA-256 and the scanner of untrusted text ([prompt_injection.py]) are
    parameters. *)
From Stdlib Require Ascii.
Import (notations) Ascii.
From stdpp Require Import pretty sorting.
From S2P Require Import Prelude Text Json.

Local Open Scope string_scope.

Record MCPToolDescriptor := mkMCPToolDescriptor {
  mt_name : string;
  mt_description : string;
  mt_input_schema : json;
  mt_side_effect_class : string
}.

Definition canonical_payload (t : MCPToolDescriptor) : json :=
  JObject [("name", JString (mt_name t)); ("description", JString (mt_description t));
           ("input_schema", mt_input_schema t);
           ("side_effect_class", JString (mt_side_effect_class t))].

Record MCPServerManifest := mkMCPServerManifest {
  mm_server_id : string;
  mm_command : list string;
  mm_tools : list MCPToolDescriptor;
  mm_launch_args : list string;
  mm_cwd : option string;
  mm_env : odict string string
}.

Definition tool_by_name (m : MCPServerManifest) (tool_name : string) : option MCPToolDescriptor :=
  head (filter (λ t, mt_name t = tool_name) (mm_tools m)).

Inductive SideEffect := Read | Network | Write.
#[export] Instance SideEffect_eq_dec : EqDecision SideEffect.
Proof. solve_decision. Defined.

Definition SIDE_EFFECT_RANK (e : SideEffect) : nat :=
  match e with Read => 0 | Network => 1 | Write => 2 end.

Definition SideEffect_value (e : SideEffect) : string :=
  match e with Read => "read" | Network => "network" | Write => "write" end.

(** [_PERMISSION_SCOPE_LIMITS]. *)
Definition PERMISSION_SCOPE_LIMITS (scope : string) : option SideEffect :=
  if String.eqb scope "read_only_metadata" then Some Read
  else if String.eqb scope "network_read" then Some Network else None.

Definition WRITE_HINTS : list string :=
  ["write"; "delete"; "remove"; "create"; "update"; "mutate"; "patch"; "upload"; "send"; "execute"; "run"].
Definition NETWORK_HINTS : list string := ["fetch"; "download"; "http"; "url"; "request"].

Inductive MCPTrustError :=
| UnknownPermissionScope (scope : string)
| DescriptorRejected (rules : list string)
| UndeclaredTools (tools : gset string)
| ScopeViolation (tool : string) (effect : SideEffect) (scope : string)
| UnknownSideEffectClass (cls : string).

Definition validate_permission_scope (scope : string) : res MCPTrustError SideEffect :=
  match PERMISSION_SCOPE_LIMITS scope with
  | Some limit => Ok limit
  | None => Err (UnknownPermissionScope scope)
  end.

Definition normalize_side_effect_class (cls : string) : res MCPTrustError SideEffect :=
  let normalized := strip (lower cls) in
  if String.eqb normalized "read" then Ok Read
  else if String.eqb normalized "network" then Ok Network
  else if String.eqb normalized "write" then Ok Write
  else Err (UnknownSideEffectClass cls).

Definition derive_side_effect_class (t : MCPToolDescriptor) : SideEffect :=
  let haystack := lower (join " " [mt_name t; mt_description t; json_dumps ", " ": " (mt_input_schema t)]) in
  if existsb (λ hint, contains hint haystack) WRITE_HINTS then Write
  else if existsb (λ hint, contains hint haystack) NETWORK_HINTS then Network
  else Read.

(** [max] keeps the declared class when the ranks are equal. *)
Definition effective_side_effect_class (t : MCPToolDescriptor) : res MCPTrustError SideEffect :=
  let* declared := normalize_side_effect_class (mt_side_effect_class t) in
  let derived := derive_side_effect_class t in
  Ok (if (SIDE_EFFECT_RANK declared <? SIDE_EFFECT_RANK derived)%nat then derived else declared).

Definition scope_allows (scope : string) (effect : SideEffect) : res MCPTrustError bool :=
  let* limit := validate_permission_scope scope in
  Ok (SIDE_EFFECT_RANK effect <=? SIDE_EFFECT_RANK limit)%nat.

Record MCPServerTrustRecord := mkMCPServerTrustRecord {
  tr_server_id : string;
  tr_manifest_hash : string;
  tr_allowed_tools : gset string;
  tr_permission_scope : string;
  tr_approved_tool_effects : gmap string SideEffect;
  tr_approved : bool;
  tr_approved_by : string;
  tr_scan_summary : string;
  tr_profile_revision : string
}.

Record MCPTrustDecision := mkMCPTrustDecision {
  td_allowed : bool;
  td_rule_id : string;
  td_reason : string;
  td_requires_human_approval : bool
}.

(** What the scanner says of a text: whether it blocks it, the rules that
    matched, and its summary. *)
Record TrustScan := mkTrustScan {
  ts_blocked : bool;
  ts_rules : list string;
  ts_summary : string
}.

Section trust.
(** SHA-256 in hex, the scanner by text and source, and Python's [repr] of the
    effects of the approved tools. *)
Variable sha256 : string → string.
Variable scan_text : string → string → TrustScan.
Variable repr_effects : gmap string SideEffect → string.

Definition sorted_env (m : MCPServerManifest) : odict string string :=
  merge_sort key_le (mm_env m).

Definition manifest_payload (m : MCPServerManifest) : json :=
  JObject [("server_id", JString (mm_server_id m));
           ("command", JArray (JString <$> mm_command m));
           ("launch_args", JArray (JString <$> mm_launch_args m));
           ("cwd", match mm_cwd m with Some d => JString d | None => JNull end);
           ("env", JObject ((λ kv, (kv.1, JString (sha256 kv.2))) <$> sorted_env m));
           ("tools", JArray (canonical_payload <$> mm_tools m))].

Definition manifest_hash (m : MCPServerManifest) : string :=
  sha256 (json_dumps "," ":" (manifest_payload m)).

Definition newline_string : string := String (byte_of 10) "".

Definition descriptor_text (m : MCPServerManifest) : string :=
  join newline_string
    ([mm_server_id m; join " " (mm_command m ++ mm_launch_args m)] ++
     (match mm_cwd m with
      | Some d => if String.eqb d "" then [] else ["cwd=" +:+ d]
      | None => []
      end) ++
     ((λ kv, "env:" +:+ kv.1 +:+ "=<redacted:" +:+ sha256 kv.2 +:+ ">") <$> sorted_env m) ++
     (mm_tools m ≫= λ t,
        [mt_name t; mt_description t; json_dumps ", " ": " (mt_input_schema t);
         "side_effect_class=" +:+ mt_side_effect_class t]))%list.

(** The loop of [register] over the allowed tools. *)
Fixpoint approve_effects (m : MCPServerManifest) (scope : string) (tools : list string)
    (effects : gmap string SideEffect) : res MCPTrustError (gmap string SideEffect) :=
  match tools with
  | [] => Ok effects
  | name :: tools' =>
      match tool_by_name m name with
      | None => Err (UndeclaredTools {[name]})
      | Some t =>
          let* effect := effective_side_effect_class t in
          let* ok := scope_allows scope effect in
          if negb ok then Err (ScopeViolation name effect scope)
          else approve_effects m scope tools' (<[name := effect]> effects)
      end
  end.

(** A call of [register]. *)
Record Registration := mkRegistration {
  rg_manifest : MCPServerManifest;
  rg_allowed_tools : list string;
  rg_permission_scope : string;
  rg_approved_by : string;
  rg_profile_revision : string
}.

(** [register] up to the assignment: the record, or the exception. *)
Definition approve (g : Registration) : res MCPTrustError MCPServerTrustRecord :=
  let m := rg_manifest g in
  let scope := rg_permission_scope g in
  validate_permission_scope scope ;;*
  let scan := scan_text (descriptor_text m) ("mcp:" +:+ mm_server_id m) in
  if ts_blocked scan then Err (DescriptorRejected (ts_rules scan))
  else
    let unknown : gset string :=
      list_to_set (rg_allowed_tools g) ∖ list_to_set (mt_name <$> mm_tools m) in
    if negb (bool_decide (unknown = ∅)) then Err (UndeclaredTools unknown)
    else
      let* effects := approve_effects m scope (rg_allowed_tools g) ∅ in
      Ok (mkMCPServerTrustRecord (mm_server_id m) (manifest_hash m)
            (list_to_set (rg_allowed_tools g)) scope effects true (rg_approved_by g)
            (ts_summary scan +:+ "; tool_effects=" +:+ repr_effects effects)
            (rg_profile_revision g)).

Abbreviation registry := (gmap string MCPServerTrustRecord).

Definition register (g : Registration) (reg : registry) : res MCPTrustError MCPServerTrustRecord * registry :=
  match approve g with
  | Err e => (Err e, reg)
  | Ok record => (Ok record, <[mm_server_id (rg_manifest g) := record]> reg)
  end.

Definition held (rule_id reason : string) : MCPTrustDecision := mkMCPTrustDecision false rule_id reason true.
Definition refused_call (rule_id reason : string) : MCPTrustDecision :=
  mkMCPTrustDecision false rule_id reason false.

(** [validate_tool_call]; its error is the exception of an unknown scope. *)
Definition validate_tool_call (reg : registry) (server_id : string) (m : MCPServerManifest)
    (tool_name : string) (profile_revision : option string) : res MCPTrustError MCPTrustDecision :=
  match reg !! server_id with
  | None => Ok (held "mcp.server_not_registered" "MCP server requires explicit approval")
  | Some record =>
      if negb (tr_approved record)
      then Ok (held "mcp.server_not_approved" "MCP server is not approved")
      else if match profile_revision with
              | Some v => negb (String.eqb (tr_profile_revision record) v)
              | None => false
              end
      then Ok (held "mcp.profile_revision_changed" "MCP profile revision changed and requires reapproval")
      else if negb (String.eqb (tr_manifest_hash record) (manifest_hash m))
      then Ok (held "mcp.manifest_hash_changed" "MCP manifest changed and requires reapproval")
      else if negb (bool_decide (tool_name ∈ tr_allowed_tools record))
      then Ok (refused_call "mcp.tool_not_allowed" "MCP tool is outside the approved allowlist")
      else match tool_by_name m tool_name with
      | None => Ok (refused_call "mcp.tool_missing_from_manifest" "MCP tool is missing from manifest")
      | Some _ =>
          let violation := refused_call "mcp.scope_violation"
                             "MCP tool side-effect class exceeds approved permission scope" in
          match tr_approved_tool_effects record !! tool_name with
          | None => Ok violation
          | Some effect =>
              let* ok := scope_allows (tr_permission_scope record) effect in
              if negb ok then Ok violation
              else
                let scan := scan_text (descriptor_text m) ("mcp:" +:+ server_id) in
                if ts_blocked scan
                then Ok (refused_call "mcp.descriptor_injection"
                           ("MCP descriptor rejected: " +:+ join "," (ts_rules scan)))
                else Ok (mkMCPTrustDecision true "mcp.trusted_tool_allowed"
                           "MCP tool is approved for this server" false)
          end
      end
  end.

(** The loop of [trusted_descriptors_for_planner]. *)
Fixpoint trusted_descriptors (reg : registry) (server_id : string) (m : MCPServerManifest)
    (tools : list MCPToolDescriptor) : res MCPTrustError (list MCPToolDescriptor) :=
  match tools with
  | [] => Ok []
  | t :: tools' =>
      let* d := validate_tool_call reg server_id m (mt_name t) None in
      let* rest := trusted_descriptors reg server_id m tools' in
      Ok (if td_allowed d then t :: rest else rest)
  end.

Definition trusted_descriptors_for_planner (reg : registry) (server_id : string)
    (m : MCPServerManifest) : res MCPTrustError (list MCPToolDescriptor) :=
  trusted_descriptors reg server_id m (mm_tools m).

(** * Histories of registrations *)

Definition run_registry (history : list Registration) : registry :=
  foldl (λ reg g, (register g reg).2) ∅ history.
End trust.

Section trust_facts.
Context (sha256 : string → string) (scan_text : string → string → TrustScan).
Context (repr_effects : gmap string SideEffect → string).
Abbreviation approve_of := (approve sha256 scan_text repr_effects).

(** The registration of a server in force: the last one that was accepted. *)
Definition last_approval (history : list Registration) (sid : string) : option Registration :=
  last (filter (λ g, mm_server_id (rg_manifest g) = sid ∧ is_ok (approve_of g) = true) history).

Definition record_of (g : Registration) : option MCPServerTrustRecord :=
  match approve_of g with Ok r => Some r | Err _ => None end.

Lemma registry_lookup history sid :
  run_registry sha256 scan_text repr_effects history !! sid = last_approval history sid ≫= record_of.
Proof.
  unfold run_registry, last_approval. induction history as [|g history IH] using rev_ind; [done|].
  rewrite foldl_snoc. set (reg := foldl _ _ _) in *. unfold register.
  rewrite filter_app, filter_cons, filter_nil.
  destruct (approve_of g) as [r|e] eqn:Hg; simpl.
  - destruct (decide (mm_server_id (rg_manifest g) = sid)) as [<-|Hne].
    + rewrite lookup_insert_eq, decide_True, last_snoc by (by split). simpl.
      unfold record_of. by rewrite Hg.
    + rewrite lookup_insert_ne, decide_False, app_nil_r by tauto. done.
  - rewrite decide_False, app_nil_r by (by intros []). done.
Qed.

(** A tool whose effect was approved within the scope. *)
Definition approved_tool (m : MCPServerManifest) (scope : string) (effects : gmap string SideEffect)
    (name : string) : Prop :=
  ∃ t e, effects !! name = Some e ∧ tool_by_name m name = Some t ∧
    effective_side_effect_class t = Ok e ∧ scope_allows scope e = Ok true.

Lemma approve_effects_spec m scope tools effects0 effects :
  approve_effects m scope tools effects0 = Ok effects →
  ∀ name, approved_tool m scope effects0 name ∨ name ∈ tools → approved_tool m scope effects name.
Proof.
  revert effects0. induction tools as [|n tools IH]; intros effects0 He name; simpl in He.
  { simplify_eq. set_solver. }
  destruct (tool_by_name m n) as [t|] eqn:Ht; [|done]. inv_res.
  destruct x0; simplify_eq/=.
  assert (∀ k, approved_tool m scope effects0 k ∨ k = n →
    approved_tool m scope (<[n := x]> effects0) k) as Hstep.
  { intros k Hk. destruct (decide (k = n)) as [->|Hne].
    - exists t, x. by rewrite lookup_insert_eq.
    - destruct Hk as [(t' & e' & ? & ?)|?]; [|done]. exists t', e'. by rewrite lookup_insert_ne. }
  rewrite elem_of_cons. intros Hn. eapply IH; [done|]. destruct Hn as [?|[?|?]]; auto.
Qed.

Lemma approve_spec g r :
  approve_of g = Ok r →
  tr_approved r = true ∧ tr_manifest_hash r = manifest_hash sha256 (rg_manifest g) ∧
  tr_profile_revision r = rg_profile_revision g ∧ tr_permission_scope r = rg_permission_scope g ∧
  (∀ name, name ∈ tr_allowed_tools r ↔ name ∈ rg_allowed_tools g) ∧
  ∀ name, name ∈ rg_allowed_tools g →
    approved_tool (rg_manifest g) (rg_permission_scope g) (tr_approved_tool_effects r) name.
Proof.
  unfold approve. intros Ha. inv_res. destruct (ts_blocked _); [done|].
  destruct (negb _) in Ha; [done|]. inv_res. simpl. split_and!; try done.
  - intros name. apply elem_of_list_to_set.
  - intros name Hn. eapply approve_effects_spec; [done|]. by right.
Qed.
End trust_facts.

(** C8: Which MCP calls are trusted, after any history of registrations: a call is
    allowed exactly if the last accepted registration of its server has the very
    manifest hash of the present manifest, lists the tool among those the user
    allowed, has the profile revision asked for, and the present descriptor passes
    the scanner; the check itself never raises. So a changed manifest, tool list,
    launch command or environment needs a new approval. And an allowed tool was
    approved with an effect within its scope, never a writing one. *)
Theorem mcp_trust_exact sha256 scan_text repr_effects history sid m tool revision :
  let reg := run_registry sha256 scan_text repr_effects history in
  ∃ d, validate_tool_call sha256 scan_text reg sid m tool revision = Ok d ∧
  (td_allowed d = true ↔
     ∃ g, last_approval sha256 scan_text repr_effects history sid = Some g ∧
       manifest_hash sha256 m = manifest_hash sha256 (rg_manifest g) ∧ tool ∈ rg_allowed_tools g ∧
       (∀ v, revision = Some v → v = rg_profile_revision g) ∧ is_Some (tool_by_name m tool) ∧
       ts_blocked (scan_text (descriptor_text sha256 m) ("mcp:" +:+ sid)) = false) ∧
  (td_allowed d = true →
     ∃ g t e, last_approval sha256 scan_text repr_effects history sid = Some g ∧
       tool_by_name (rg_manifest g) tool = Some t ∧ effective_side_effect_class t = Ok e ∧
       scope_allows (rg_permission_scope g) e = Ok true ∧ e ≠ Write).
Proof.
  cbv zeta. unfold validate_tool_call. rewrite registry_lookup.
  destruct (last_approval _ _ _ history sid) as [g|] eqn:Hlast; simpl.
  2: { eexists. split; [done|]. simpl. split; [|done]. split; [done|]. by intros (? & ? & _). }
  assert (is_ok (approve sha256 scan_text repr_effects g) = true) as Hok.
  { unfold last_approval in Hlast. apply last_Some in Hlast as [l Hl].
    assert (g ∈ filter (λ g, mm_server_id (rg_manifest g) = sid ∧
      is_ok (approve sha256 scan_text repr_effects g) = true) history) as Hg by (rewrite Hl; set_solver).
    by apply list_elem_of_filter in Hg as [[_ ?] _]. }
  unfold record_of. destruct (approve _ _ _ g) as [r|] eqn:Hg; [|done].
  destruct (approve_spec _ _ _ _ _ Hg) as (Ha & Hh & Hv & Hs & Ht & Heff).
  rewrite Ha, Hh, Hv, Hs. simpl.
  destruct (match revision with Some v => _ | None => false end) eqn:Hrev.
  { eexists. split; [done|]. simpl. split; [|done]. split; [done|]. intros (g' & [= <-] & _ & _ & Hr & _).
    destruct revision as [v|]; [|done]. by rewrite <- (Hr v eq_refl), String.eqb_refl in Hrev. }
  destruct (String.eqb_spec (manifest_hash sha256 (rg_manifest g)) (manifest_hash sha256 m)) as [Hm|Hm]; simpl.
  2: { eexists. split; [done|]. simpl. split; [|done]. split; [done|]. intros (g' & [= <-] & ? & _). congruence. }
  case_bool_decide as Htool; simpl; rewrite Ht in Htool.
  2: { eexists. split; [done|]. simpl. split; [|done]. split; [done|]. by intros (g' & [= <-] & _ & ? & _). }
  destruct (tool_by_name m tool) as [t0|] eqn:Ht0.
  2: { eexists. split; [done|]. simpl. split; [|done]. split; [done|].
       intros (g' & [= <-] & _ & _ & _ & Hx & _). by destruct Hx. }
  destruct (Heff tool Htool) as (t & e & He & Htn & Hef & Hsc). rewrite He, Hsc. simpl.
  assert (e ≠ Write) as Hw.
  { intros ->. unfold scope_allows, validate_permission_scope, PERMISSION_SCOPE_LIMITS in Hsc.
    by repeat case_match; simplify_eq/=. }
  destruct (ts_blocked _) eqn:Hb; (eexists; split; [done|]); simpl; (split; [|eauto 10]).
  - split; [done|]. by intros (g' & _ & _ & _ & _ & _ & ?).
  - split; [|done]. intros _. exists g. split_and!; eauto.
    intros v ->. apply negb_false_iff, String.eqb_eq in Hrev. done.
Qed.
