(* ===== verification/PreTool.v ===== *)
(** The guard before every tool call, [optimus/guardrails/pre_tool.py], which
    composes the permission policy, the validators of commands, paths and URLs and
    the trust in MCP servers, and writes the audit ([optimus/guardrails/audit.py]).

    The validator of URLs, the Unicode tables of the command validator, the authorizer of client-session MCP
    calls, the permission policy's classifier and the sanitizer of audit subjects
    are parameters. *)
From S2P Require Import Prelude Text Json Runtime Guardrails McpTrust CommandSafety.

Local Open Scope string_scope.

(** * The audit *)

Record ToolInvocationAuditEvent := mkToolInvocationAuditEvent {
  ae_run_id : string;
  ae_session_id : option string;
  ae_tool_surface : string;
  ae_verdict : string;
  ae_layer : string;
  ae_rule_id : string;
  ae_reason : string;
  ae_failed_checks : list string;
  ae_sanitized_subject : string;
  ae_requires_human_approval : bool;
  ae_approver : option string
}.

Record InMemoryAuditSink := mkInMemoryAuditSink {
  as_max_events : nat;
  as_events : list ToolInvocationAuditEvent;
  as_dropped : nat
}.

Definition new_audit_sink (max_events : Z) : res string InMemoryAuditSink :=
  raise_if (max_events <? 1)%Z "max_events must be >= 1" ;;*
  Ok (mkInMemoryAuditSink (Z.to_nat max_events) [] 0).

Definition audit_append (event : ToolInvocationAuditEvent) (s : InMemoryAuditSink) : InMemoryAuditSink :=
  let events := (as_events s ++ [event])%list in
  if (as_max_events s <? length events)%nat
  then mkInMemoryAuditSink (as_max_events s) (drop 1 events) (as_dropped s + 1)
  else mkInMemoryAuditSink (as_max_events s) events (as_dropped s).

(** * Requests and results *)

Inductive PreToolVerdict := TAllow | TBlock | THold.
#[export] Instance PreToolVerdict_eq_dec : EqDecision PreToolVerdict.
Proof. solve_decision. Defined.

Definition PreToolVerdict_value (v : PreToolVerdict) : string :=
  match v with TAllow => "ALLOW" | TBlock => "BLOCK" | THold => "HOLD" end.

Inductive McpAuthority := LegacyManifest | ClientSession.
#[export] Instance McpAuthority_eq_dec : EqDecision McpAuthority.
Proof. solve_decision. Defined.

Record PreToolRequest := mkPreToolRequest {
  tq_run_id : string;
  tq_session_id : option string;
  tq_execution_mode : ExecutionMode;
  tq_tool_surface : ToolSurface;
  tq_action : string;
  tq_command : list string;
  tq_target_path : option string;
  tq_generation_scope : GenerationScope;
  tq_approval_granted : bool;
  tq_first_time_tool : bool;
  tq_approver : option string;
  tq_mcp_server_id : option string;
  tq_mcp_tool_name : option string;
  tq_mcp_manifest : option MCPServerManifest;
  tq_environment : odict string string;
  tq_mcp_authority : McpAuthority;
  tq_mcp_arguments : option json;
  tq_mcp_one_call_approval : option string;
  tq_requested_relative_path : option string;
  tq_target_unresolved : bool
}.

Record PreToolResult := mkPreToolResult {
  pr_verdict : PreToolVerdict;
  pr_rule_id : string;
  pr_reason : string;
  pr_requires_human_approval : bool
}.

(** What the authorizer of client-session calls decides; an absent effect counts
    as a writing one. *)
Record AuthorizerDecision := mkAuthorizerDecision {
  az_verdict : string;
  az_allowed : bool;
  az_rule_id : string;
  az_reason : string;
  az_requires_human_approval : bool;
  az_effective_effect : option string
}.

Definition pre_tool_result (v : ValidationResult) : option PreToolResult :=
  match vr_verdict v with
  | VAllow => None
  | VBlock => Some (mkPreToolResult TBlock (vr_rule_id v) (vr_reason v) false)
  | VHold => Some (mkPreToolResult THold (vr_rule_id v) (vr_reason v) true)
  end.

(** * The guard *)

Section guard.
Variable borderline_classifier : option (PermissionRequest → PermissionVerdict * string).
Variable unicode : UnicodeTables.
Variable validate_url : string → ValidationResult.
Variable resolve : string → option string.
Variable root : string.
Variable sha256 : string → string.
Variable scan_text : string → string → TrustScan.
Variable mcp_trust_registry : option (gmap string MCPServerTrustRecord).
Variable client_mcp_authorizer : option (PreToolRequest → AuthorizerDecision).
Variable sanitize_subject : string → string.

(** The permission request made of a tool request. *)
Definition permission_request (r : PreToolRequest) (approval_granted : bool)
    (metadata : odict string string) : PermissionRequest :=
  mkPermissionRequest (tq_run_id r) (tq_session_id r) (tq_execution_mode r) (tq_tool_surface r)
    (tq_action r) (tq_command r) (tq_target_path r) (tq_generation_scope r) approval_granted
    (tq_first_time_tool r) metadata.

(** [_sanitize_subject] of the command, the target path or the action. *)
Definition audit_subject (r : PreToolRequest) : string :=
  sanitize_subject
    (match tq_command r with
     | _ :: _ => join " " (tq_command r)
     | [] => match tq_target_path r with
             | Some p => if String.eqb p "" then tq_action r else p
             | None => tq_action r
             end
     end).

Abbreviation guarded A := (eff InMemoryAuditSink string A).

(** [_audit], and the return of the result it was called with. *)
Definition audited (r : PreToolRequest) (result : PreToolResult) (layer : string)
    (failed_checks : list string) : guarded PreToolResult := λ s,
  (Ok result, audit_append
    (mkToolInvocationAuditEvent (tq_run_id r) (tq_session_id r) (ToolSurface_value (tq_tool_surface r))
       (PreToolVerdict_value (pr_verdict result)) layer (pr_rule_id result) (pr_reason result)
       failed_checks (audit_subject r) (pr_requires_human_approval result) (tq_approver r)) s).

Definition lift {A} (c : res string A) : guarded A := λ s, (c, s).

(** The [MCP] part of [_validate_surface]. *)
Definition validate_mcp (r : PreToolRequest) : res string (option PreToolResult) :=
  match mcp_trust_registry with
  | None => Ok (Some (mkPreToolResult THold "mcp.requires_plan6_trust_registry"
                        "MCP calls require the Plan 6 trust registry" true))
  | Some reg =>
      match tq_mcp_server_id r, tq_mcp_tool_name r, tq_mcp_manifest r with
      | Some sid, Some tool, Some manifest =>
          match validate_tool_call sha256 scan_text reg sid manifest tool None with
          | Err _ => Err "MCPTrustError"
          | Ok d =>
              Ok (Some (if td_allowed d
                        then mkPreToolResult TAllow (td_rule_id d) (td_reason d) false
                        else mkPreToolResult (if td_requires_human_approval d then THold else TBlock)
                               (td_rule_id d) (td_reason d) (td_requires_human_approval d)))
          end
      | _, _, _ => Ok (Some (mkPreToolResult THold "mcp.missing_trust_metadata"
                               "MCP calls require server id, tool name, and manifest metadata" true))
      end
  end.

Definition has_target (r : PreToolRequest) : option string :=
  match tq_target_path r with
  | Some p => if String.eqb p "" then None else Some p
  | None => None
  end.

Definition validate_surface (r : PreToolRequest) : res string (option PreToolResult) :=
  match tq_tool_surface r, has_target r with
  | SHELL, _ =>
      pre_tool_result <$>
        validate_command unicode validate_url resolve root (tq_command r) (tq_environment r)
  | FILE_WRITE, Some p =>
      pre_tool_result <$>
        validate_write resolve root p (tq_requested_relative_path r) (tq_target_unresolved r)
  | FILE_READ, Some p =>
      pre_tool_result <$>
        validate_read resolve root p (tq_requested_relative_path r) (tq_target_unresolved r)
  | WEB, Some p => Ok (pre_tool_result (validate_url p))
  | MCP, _ => validate_mcp r
  | _, _ => Ok None
  end.

Definition layer_of (d : PermissionDecision) : string := PermissionLayer_value (pd_layer d).
Definition blocked_by (d : PermissionDecision) : PreToolResult :=
  mkPreToolResult TBlock (pd_rule_id d) (pd_reason d) false.

(** [_check_client_mcp]. *)
Definition check_client_mcp (r : PreToolRequest) : guarded PreToolResult :=
  match client_mcp_authorizer with
  | None =>
      audited r (mkPreToolResult THold "mcp.client.authorizer_required"
                   "client_session MCP calls require a ClientMcpCallAuthorizer" true)
        "pre_tool" ["mcp.client.authorizer_required"]
  | Some authorize =>
      let metadata effect := [("mcp_authority", "client_session"); ("mcp_effect", effect)] in
      let mode_permission := decide_permission borderline_classifier
        (permission_request r (tq_approval_granted r) (metadata "read")) in
      if bool_decide (pd_verdict mode_permission = PDeny)
      then audited r (blocked_by mode_permission) (layer_of mode_permission) [pd_rule_id mode_permission]
      else
        let decision := authorize r in
        let permission := decide_permission borderline_classifier
          (permission_request r (az_allowed decision)
             (metadata (default "write" (az_effective_effect decision)))) in
        if bool_decide (pd_verdict permission = PDeny)
        then audited r (blocked_by permission) (layer_of permission) [pd_rule_id permission]
        else if String.eqb (az_verdict decision) "ALLOW" && az_allowed decision
        then audited r (mkPreToolResult TAllow (az_rule_id decision) (az_reason decision) false) "pre_tool" []
        else if String.eqb (az_verdict decision) "HOLD" || az_requires_human_approval decision
        then audited r (mkPreToolResult THold (az_rule_id decision) (az_reason decision) true)
               "pre_tool" [az_rule_id decision]
        else audited r (mkPreToolResult TBlock (az_rule_id decision) (az_reason decision) false)
               "pre_tool" [az_rule_id decision]
  end.

(** [PreToolGuard.check]. *)
Definition check (r : PreToolRequest) : guarded PreToolResult :=
  if bool_decide (tq_tool_surface r = MCP) && bool_decide (tq_mcp_authority r = ClientSession)
  then check_client_mcp r
  else
    let permission := decide_permission borderline_classifier
      (permission_request r (tq_approval_granted r) []) in
    match pd_verdict permission with
    | PDeny => audited r (blocked_by permission) (layer_of permission) [pd_rule_id permission]
    | PHold => audited r (mkPreToolResult THold (pd_rule_id permission) (pd_reason permission) true)
                 (layer_of permission) [pd_rule_id permission]
    | PAllow =>
        let! validation := lift (validate_surface r) in
        match validation with
        | Some v => audited r v "pre_tool"
                      (if bool_decide (pr_verdict v = TAllow) then [] else [pr_rule_id v])
        | None => audited r (mkPreToolResult TAllow (pd_rule_id permission) (pd_reason permission) false)
                    (layer_of permission) []
        end
    end.
End guard.

(** * What an allowed call has passed *)

(** The checks behind an allowed call, by surface. *)
Record allowed_by unicode validate_url resolve root sha256 scan_text registry authorizer
    (r : PreToolRequest) : Prop := {
  al_mode : tq_execution_mode r = AGENT ∨ tq_tool_surface r = FILE_READ;
  al_secret : ∀ p, tq_target_path r = Some p → p ≠ "" → is_secret_path p = false;
  al_approval : tq_tool_surface r ∈ [FILE_WRITE; SHADOW_APPLY; WEB] ∨
      (tq_tool_surface r ≠ MCP ∨ tq_mcp_authority r = LegacyManifest) ∧
      (tq_first_time_tool r = true ∨ tq_generation_scope r ∈ [FILE_MUTATION; MULTI_FILE_CHANGESET]) →
      tq_approval_granted r = true;
  al_shell : tq_tool_surface r = SHELL →
      let '(inline_env, effective) := extract_inline_env (tq_command r) in
      cleared unicode validate_url resolve root (merge_env inline_env (tq_environment r)) effective;
  al_write : ∀ p, tq_tool_surface r = FILE_WRITE → tq_target_path r = Some p → p ≠ "" →
      path_cleared resolve root p (tq_requested_relative_path r) (tq_target_unresolved r);
  al_read : ∀ p, tq_tool_surface r = FILE_READ → tq_target_path r = Some p → p ≠ "" →
      path_cleared resolve root p (tq_requested_relative_path r) (tq_target_unresolved r);
  al_web : ∀ p, tq_tool_surface r = WEB → tq_target_path r = Some p → p ≠ "" →
      vr_verdict (validate_url p) = VAllow;
  al_legacy_mcp : tq_tool_surface r = MCP → tq_mcp_authority r = LegacyManifest →
      tq_approval_granted r = true ∧
      ∃ reg sid tool m d, registry = Some reg ∧ tq_mcp_server_id r = Some sid ∧
        tq_mcp_tool_name r = Some tool ∧ tq_mcp_manifest r = Some m ∧
        validate_tool_call sha256 scan_text reg sid m tool None = Ok d ∧ td_allowed d = true;
  al_client_mcp : tq_tool_surface r = MCP → tq_mcp_authority r = ClientSession →
      ∃ authorize, authorizer = Some authorize ∧ az_allowed (authorize r) = true ∧
        az_verdict (authorize r) = "ALLOW"
}.

Section guard_facts.
Context (classifier : option (PermissionRequest → PermissionVerdict * string)).
Context (unicode : UnicodeTables).
Context (validate_url : string → ValidationResult) (resolve : string → option string) (root : string).
Context (sha256 : string → string) (scan_text : string → string → TrustScan).
Context (registry : option (gmap string MCPServerTrustRecord)).
Context (authorizer : option (PreToolRequest → AuthorizerDecision)).
Context (sanitize : string → string).
Abbreviation check_of :=
  (check classifier unicode validate_url resolve root sha256 scan_text registry authorizer sanitize).
Abbreviation surface_of :=
  (validate_surface unicode validate_url resolve root sha256 scan_text registry).

Lemma audited_eq r result layer failed s out s' :
  audited sanitize r result layer failed s = (Ok out, s') → out = result.
Proof. unfold audited. intros H. by simplify_eq. Qed.

Lemma pre_tool_result_pass v :
  (∀ x, pre_tool_result v = Some x → pr_verdict x = TAllow) → vr_verdict v = VAllow.
Proof.
  unfold pre_tool_result. destruct (vr_verdict v); [done|..]; intros Hx;
    by specialize (Hx _ eq_refl).
Qed.

(** An allowed call of any surface but a client-session MCP one: the permission
    was an allow, and the validator of the surface did not object. *)
Lemma check_allow_cases r s out s' :
  check_of r s = (Ok out, s') → pr_verdict out = TAllow →
  (tq_tool_surface r = MCP ∧ tq_mcp_authority r = ClientSession ∧
   check_client_mcp classifier authorizer sanitize r s = (Ok out, s')) ∨
  (¬ (tq_tool_surface r = MCP ∧ tq_mcp_authority r = ClientSession) ∧
   pd_verdict (decide_permission classifier (permission_request r (tq_approval_granted r) [])) = PAllow ∧
   ∃ v, surface_of r = Ok v ∧ ∀ x, v = Some x → pr_verdict x = TAllow).
Proof.
  unfold check. intros Hc Hv.
  destruct (bool_decide (tq_tool_surface r = MCP) && bool_decide (tq_mcp_authority r = ClientSession)) eqn:Hm.
  { bool_to_prop. by left. }
  right. split.
  { intros [E1 E2]. by rewrite !bool_decide_eq_true_2 in Hm. }
  destruct (pd_verdict _) eqn:Hp; [|apply audited_eq in Hc as ->; done..].
  split; [done|]. apply eff_bind_eq in Hc as [(v & s1 & Hl & Hc)|(e & _ & ?)]; [|done].
  unfold lift in Hl. simplify_eq. exists v. split; [done|]. intros x ->. by apply audited_eq in Hc as ->.
Qed.

Lemma client_allow r s out s' :
  check_client_mcp classifier authorizer sanitize r s = (Ok out, s') → pr_verdict out = TAllow →
  (tq_execution_mode r = AGENT ∨ tq_tool_surface r = FILE_READ) ∧
  (∀ p, tq_target_path r = Some p → p ≠ "" → is_secret_path p = false) ∧
  ∃ authorize, authorizer = Some authorize ∧ az_allowed (authorize r) = true ∧
    az_verdict (authorize r) = "ALLOW".
Proof.
  unfold check_client_mcp. intros Hc Hv. destruct authorizer as [authorize|].
  2: { by apply audited_eq in Hc as ->. }
  case_bool_decide as Hd; [by apply audited_eq in Hc as ->|].
  case_bool_decide as Hd2; [by apply audited_eq in Hc as ->|].
  destruct (not_denied _ _ Hd) as [Hmode Hsecret]. split_and!; [done|done|].
  exists authorize. destruct (String.eqb_spec (az_verdict (authorize r)) "ALLOW") as [Ev|];
    destruct (az_allowed (authorize r)); simpl in Hc; try done;
    destruct (_ || _) in Hc; apply audited_eq in Hc as ->; done.
Qed.
End guard_facts.

(** C1: No tool call is allowed that has not passed every check of its surface,
    whatever the classifier, the validators, the file system, the registry and the
    authorizer answer: outside Agent mode only reads are; no secret path is
    touched; writing a file, applying a shadow workspace and a web call have the
    user's approval, and so has every first use of a tool and every file or
    multi-file change; a shell command and a URL passed their validator; a file
    read or written has a resolved target inside the workspace and outside the
    runtime tree; an MCP call is trusted by the registry and approved, or was
    allowed by the session's authorizer. *)
Theorem guard_allow_sound classifier unicode validate_url resolve root sha256 scan_text
    registry authorizer sanitize r s out s' :
  check classifier unicode validate_url resolve root sha256 scan_text registry authorizer
    sanitize r s = (Ok out, s') →
  pr_verdict out = TAllow →
  allowed_by unicode validate_url resolve root sha256 scan_text registry authorizer r.
Proof.
  intros Hc Hv. destruct (check_allow_cases _ _ _ _ _ _ _ _ _ _ _ _ _ _ Hc Hv)
    as [(Hs & Ha & Hcl)|(Hno & Hp & v & Hsurf & Hpass)].
  - destruct (client_allow _ _ _ _ _ _ _ Hcl Hv) as (H1 & H2 & H3).
    split; try done; rewrite ?Hs, ?Ha; try done. intros [?|[[?|?] _]]; [set_solver|done|done].
  - apply allowed_permitted in Hp as [Pm Ps Pe Pi Pc]. simpl in *.
    assert (∀ p, tq_target_path r = Some p → p ≠ "" → has_target r = Some p) as Ht.
    { intros p Hp Hne. unfold has_target. rewrite Hp. by apply String.eqb_neq in Hne as ->. }
    unfold validate_surface in Hsurf. split; try done.
    + intros [?|[_ ?]]; auto.
    + intros Hs. rewrite Hs in Hsurf. unfold fmap, res_fmap, res_map in Hsurf. inv_res.
      by eapply shell_allowed_cleared; [eassumption|apply pre_tool_result_pass].
    + intros p Hs Hp Hne. rewrite Hs, (Ht p Hp Hne) in Hsurf. unfold fmap, res_fmap, res_map in Hsurf.
      inv_res. eapply path_allowed_cleared; [right; eassumption|]. by apply pre_tool_result_pass.
    + intros p Hs Hp Hne. rewrite Hs, (Ht p Hp Hne) in Hsurf. unfold fmap, res_fmap, res_map in Hsurf.
      inv_res. eapply path_allowed_cleared; [left; eassumption|]. by apply pre_tool_result_pass.
    + intros p Hs Hp Hne. rewrite Hs, (Ht p Hp Hne) in Hsurf. simplify_eq. by apply pre_tool_result_pass.
    + intros Hs Ha. split; [by apply Pc|]. rewrite Hs in Hsurf. unfold validate_mcp in Hsurf.
      destruct registry as [reg|]; [|by simplify_eq; specialize (Hpass _ eq_refl)].
      destruct (tq_mcp_server_id r) as [sid|], (tq_mcp_tool_name r) as [tool|],
        (tq_mcp_manifest r) as [m|]; try (by simplify_eq; specialize (Hpass _ eq_refl)).
      destruct (validate_tool_call _ _ _ _ _ _ _) as [d|] eqn:Hd; [|done]. simplify_eq.
      exists reg, sid, tool, m, d. split_and!; try done. specialize (Hpass _ eq_refl).
      by destruct (td_allowed d), (td_requires_human_approval d).
    + intros Hs Ha. by destruct Hno.
Qed.

(** A small deployment: one allowed host list aside, a resolver that knows one file. *)
Definition example_resolve (p : string) : option string :=
  if String.eqb p "/ws/a.py" then Some "/ws/a.py" else None.
Definition example_request (surface : ToolSurface) : PreToolRequest :=
  mkPreToolRequest "run" None AGENT surface "edit" [] (Some "/ws/a.py") INLINE_SNIPPET true false None
    None None None [] LegacyManifest None None (Some "a.py") false.
Definition example_sink : InMemoryAuditSink := mkInMemoryAuditSink 2 [] 0.
Abbreviation example_check :=
  (check None plain_unicode (λ _, mkValidationResult VHold "" "")
     example_resolve "/ws" id (λ _ _, mkTrustScan false [] "") None None id).

Lemma guard_allow_sound_witness :
  ∃ out s', example_check (example_request FILE_WRITE) example_sink = (Ok out, s') ∧
    pr_verdict out = TAllow ∧
    path_cleared example_resolve "/ws" "/ws/a.py" (Some "a.py") false.
Proof.
  destruct (example_check (example_request FILE_WRITE) example_sink) as [[out|e] s'] eqn:Hc;
    [|vm_compute in Hc; discriminate].
  assert (pr_verdict out = TAllow) as Hv by (vm_compute in Hc; injection Hc as <- _; reflexivity).
  exists out, s'. split; [reflexivity|]. split; [exact Hv|].
  apply (al_write _ _ _ _ _ _ _ _ _ (guard_allow_sound _ _ _ _ _ _ _ _ _ _ _ _ _ _ Hc Hv) "/ws/a.py");
    [reflexivity|reflexivity|discriminate].
Defined.

(** * The audit *)

Section audit_facts.
Context (classifier : option (PermissionRequest → PermissionVerdict * string)).
Context (unicode : UnicodeTables).
Context (validate_url : string → ValidationResult) (resolve : string → option string) (root : string).
Context (sha256 : string → string) (scan_text : string → string → TrustScan).
Context (registry : option (gmap string MCPServerTrustRecord)).
Context (authorizer : option (PreToolRequest → AuthorizerDecision)).
Context (sanitize : string → string).
Abbreviation check_of :=
  (check classifier unicode validate_url resolve root sha256 scan_text registry authorizer sanitize).

(** Calls of the guard, with the results of those that returned. *)
Fixpoint run_checks (rs : list PreToolRequest) (s : InMemoryAuditSink)
    : list (PreToolRequest * PreToolResult) * InMemoryAuditSink :=
  match rs with
  | [] => ([], s)
  | r :: rs' =>
      let '(out, s1) := check_of r s in
      let '(outs, s2) := run_checks rs' s1 in
      (match out with Ok result => (r, result) :: outs | Err _ => outs end, s2)
  end.

(** The event reports the result of the request. *)
Definition reports (rr : PreToolRequest * PreToolResult) (ev : ToolInvocationAuditEvent) : Prop :=
  ae_run_id ev = tq_run_id rr.1 ∧ ae_session_id ev = tq_session_id rr.1 ∧
  ae_tool_surface ev = ToolSurface_value (tq_tool_surface rr.1) ∧
  ae_verdict ev = PreToolVerdict_value (pr_verdict rr.2) ∧ ae_rule_id ev = pr_rule_id rr.2 ∧
  ae_requires_human_approval ev = pr_requires_human_approval rr.2 ∧
  (ae_failed_checks ev = [] ↔ pr_verdict rr.2 = TAllow).

Lemma audited_reports r result layer failed s out s' :
  audited sanitize r result layer failed s = (out, s') →
  (failed = [] ↔ pr_verdict result = TAllow) →
  ∃ ev, out = Ok result ∧ s' = audit_append ev s ∧ reports (r, result) ev.
Proof.
  unfold audited. intros H Hf. simplify_eq. eexists. split; [done|]. split; [done|].
  by unfold reports.
Qed.

Lemma check_reports r s out s' :
  check_of r s = (out, s') →
  match out with
  | Ok result => ∃ ev, s' = audit_append ev s ∧ reports (r, result) ev
  | Err _ => s' = s
  end.
Proof.
  assert (∀ result layer failed, audited sanitize r result layer failed s = (out, s') →
    (failed = [] ↔ pr_verdict result = TAllow) →
    match out with
    | Ok result => ∃ ev, s' = audit_append ev s ∧ reports (r, result) ev
    | Err _ => s' = s
    end) as Haud.
  { intros result layer failed Ha Hf. apply audited_reports in Ha as (ev & -> & ? & ?); [|done]. eauto. }
  unfold check, check_client_mcp. intros Hc. destruct (_ && _) in Hc.
  - destruct authorizer as [authorize|]; [|by eapply Haud].
    destruct (bool_decide _) in Hc; [by eapply Haud|]. destruct (bool_decide _) in Hc; [by eapply Haud|].
    destruct (_ && _) in Hc; [by eapply Haud|]. destruct (_ || _) in Hc; by eapply Haud.
  - destruct (pd_verdict _) eqn:Hp; [|by eapply Haud..].
    apply eff_bind_eq in Hc as [(v & s1 & Hl & Hc)|(e & Hl & ->)].
    + unfold lift in Hl. simplify_eq. destruct v as [v|]; [|by eapply Haud].
      eapply Haud; [exact Hc|]. case_bool_decide; [done|]. by split.
    + unfold lift in Hl. by simplify_eq.
Qed.

(** The sink holds the end of the whole log. *)
Definition window (log : list ToolInvocationAuditEvent) (s : InMemoryAuditSink) : Prop :=
  as_events s = last_n (as_max_events s) log ∧ (as_dropped s + length (as_events s) = length log)%nat.

Lemma audit_append_window log ev s :
  (1 ≤ as_max_events s)%nat → window log s →
  window (log ++ [ev])%list (audit_append ev s) ∧ as_max_events (audit_append ev s) = as_max_events s.
Proof.
  intros Hmax [He Hd]. pose proof (last_n_length (as_max_events s) log) as Hlen. rewrite <- He in Hlen.
  unfold audit_append. rewrite length_app. simpl.
  destruct (Nat.ltb_spec (as_max_events s) (length (as_events s) + 1)); (split; [|done]); split; simpl;
    rewrite ?length_drop, ?length_app; simpl; try lia; rewrite He; unfold last_n; rewrite length_app; simpl.
  - rewrite !drop_app_le by (rewrite ?length_drop; lia). rewrite drop_drop. f_equal. f_equal. lia.
  - rewrite drop_app_le by lia. f_equal. f_equal. lia.
Qed.

Lemma run_checks_window rs log s outs s' :
  (1 ≤ as_max_events s)%nat → window log s → run_checks rs s = (outs, s') →
  ∃ new, Forall2 reports outs new ∧ window (log ++ new)%list s' ∧ as_max_events s' = as_max_events s.
Proof.
  revert log s outs. induction rs as [|r rs IH]; intros log s outs Hmax Hw Hr; simpl in Hr.
  { simplify_eq. exists []. by rewrite app_nil_r. }
  destruct (check_of r s) as [out s1] eqn:Hc. apply check_reports in Hc.
  destruct (run_checks rs s1) as [outs1 s2] eqn:Hrs. simplify_eq. destruct out as [result|e].
  - destruct Hc as (ev & -> & Hrep). destruct (audit_append_window log ev s Hmax Hw) as [Hw1 Hm1].
    destruct (IH _ _ _ ltac:(by rewrite Hm1) Hw1 Hrs) as (new & Hnew & Hw2 & Hm2).
    exists (ev :: new). split; [by constructor|]. rewrite <- (assoc_L (++)%list) in Hw2.
    split; [done|congruence].
  - subst s1. by apply (IH log s).
Qed.
End audit_facts.

(** The guard's audit misses nothing: for a new sink and any sequence of calls,
    there is one event per call that returned, in order, reporting that call's
    verdict and rule, with a failed check exactly when the call was not allowed;
    the sink holds the most recent of these events, as many as its limit, and
    counts every one it dropped. *)
Theorem audit_complete classifier unicode validate_url resolve root sha256 scan_text
    registry authorizer sanitize max_events s0 rs outs s :
  new_audit_sink max_events = Ok s0 →
  run_checks classifier unicode validate_url resolve root sha256 scan_text registry
    authorizer sanitize rs s0 = (outs, s) →
  ∃ log, Forall2 reports outs log ∧
    as_events s = last_n (Z.to_nat max_events) log ∧
    (as_dropped s + length (as_events s) = length outs)%nat.
Proof.
  unfold new_audit_sink. intros H0 Hr. inv_res. bool_to_prop.
  destruct (run_checks_window _ _ _ _ _ _ _ _ _ _ rs []
    (mkInMemoryAuditSink (Z.to_nat max_events) [] 0) outs s ltac:(simpl; lia)
    ltac:(by unfold window) Hr) as (log & Hrep & [He Hd] & Hm).
  exists log. split; [done|]. rewrite Hm in He. simpl in *. split; [done|].
  by rewrite Hd, (Forall2_length _ _ _ Hrep).
Qed.

Lemma audit_complete_witness :
  ∃ outs s log,
    run_checks None plain_unicode (λ _, mkValidationResult VHold "" "")
      example_resolve "/ws" id (λ _ _, mkTrustScan false [] "") None None id
      [example_request FILE_WRITE; example_request SHELL; example_request WEB] example_sink = (outs, s) ∧
    Forall2 reports outs log ∧ as_dropped s = 1%nat.
Proof.
  destruct (run_checks None plain_unicode (λ _, mkValidationResult VHold "" "")
      example_resolve "/ws" id (λ _ _, mkTrustScan false [] "") None None id
      [example_request FILE_WRITE; example_request SHELL; example_request WEB] example_sink)
    as [outs s] eqn:Hr.
  destruct (audit_complete _ _ _ _ _ _ _ _ _ _ 2 example_sink _ outs s eq_refl Hr) as (log & Hl & _).
  exists outs, s, log. split; [reflexivity|]. split; [exact Hl|].
  vm_compute in Hr. injection Hr as _ <-. reflexivity.
Defined.
