(* ===== verification/Outbox.v ===== *)
(** The durable outbox, [optimus_security/durable_outbox.py]: framed, chained and
    fsynced records in the segments of a stream, their writer, the reader that
    verifies them, acknowledgements and compaction.

    A stream's directory is a value: its segment files, each the bytes that are on
    disk, and its acknowledgement file. Every write may fail after any number of its
    bytes landed, and opening a segment may fail before or after the file exists; the
    outcomes are arguments. SHA-256 is a parameter. Locks and the fsync of directories
    are part of those outcomes; symbolic links and foreign files are left out. *)
From Stdlib Require Ascii.
Import (notations) Ascii.
From stdpp Require Import pretty sorting.
From S2P Require Import Prelude Text Json JsonLoads.

Local Open Scope string_scope.
Local Open Scope Z_scope.

(** * Data *)

Record OutboxRecord := mkOutboxRecord {
  ob_stream_id : string;
  ob_sequence : Z;
  ob_event_id : string;
  ob_prev : string;
  ob_digest : string;
  ob_payload : odict string json;
  ob_line : string
}.

Record Damage := mkDamage {
  dm_segment : string;
  dm_offset : nat;
  dm_reason : string
}.

Record SegmentScan := mkSegmentScan {
  sg_name : string;
  sg_first_sequence : option Z;
  sg_last_sequence : option Z
}.

Record Ack := mkAck {
  ak_ledger_instance : string;
  ak_stream_id : string;
  ak_sequence : Z;
  ak_digest : string
}.

Record StreamScan := mkStreamScan {
  ss_stream_id : string;
  ss_records : list OutboxRecord;
  ss_segments : list SegmentScan;
  ss_damage : list Damage;
  ss_unverified_tail : option OutboxRecord;
  ss_tail_segment : option string
}.

Inductive OutboxError :=
| mkOutboxError (code detail : string)
(** a payload the frame cannot hold: [TypeError] or [ValueError] of the encoder *)
| FrameError.

Definition SCHEMA_VERSION : Z := 1.
Definition SEGMENT_BYTES : nat := N.to_nat (16 * 1024 * 1024).
Definition MAX_RECORD_BYTES : N := (256 * 1024)%N.
Definition GENESIS : string := concat_all (replicate 64 "0").
Definition GAP_KIND : string := "outbox.gap".
Definition STREAM_END_KIND : string := "stream.end".

(** A directory of a stream: its name, its segment files and its [ack.log]. *)
Record StreamDir := mkStreamDir {
  sd_name : string;
  sd_segments : list (string * string);
  sd_ack_log : option string
}.

Definition verified_sequence (s : StreamScan) : Z :=
  match last (ss_records s) with Some r => ob_sequence r | None => 0 end.
Definition verified_digest (s : StreamScan) : string :=
  match last (ss_records s) with Some r => ob_digest r | None => GENESIS end.

(** * Small tests *)

(** [re.fullmatch("[0-9a-f]{n}")]. *)
Definition hex_char (c : Ascii.ascii) : bool :=
  let k := Ascii.nat_of_ascii c in
  (((48 <=? k) && (k <=? 57)) || ((97 <=? k) && (k <=? 102)))%nat.
Definition is_hex (n : nat) (s : string) : bool :=
  Nat.eqb (String.length s) n && forallb hex_char (String.list_ascii_of_string s).

Definition SPACE : Ascii.ascii := byte_of 32.

(** [s.partition(" ")]; [None] without a separator. *)
Fixpoint partition_space (s : string) : option (string * string) :=
  match s with
  | EmptyString => None
  | String c s' => if Ascii.eqb c SPACE then Some ("", s')
                   else (λ p, (String c p.1, p.2)) <$> partition_space s'
  end.

(** [s[:-1]] of a text that ends with [\n]; [None] if it does not. *)
Fixpoint drop_newline (s : string) : option string :=
  match s with
  | EmptyString => None
  | String c s' =>
      if String.eqb s' "" then if Ascii.eqb c NEWLINE then Some "" else None
      else String c <$> drop_newline s'
  end.

Definition string_field (k : string) (d : odict string json) : option string :=
  match od_get k d with Some (JString s) => Some s | _ => None end.
Definition int_field (k : string) (d : odict string json) : option Z :=
  od_get k d ≫= int_value.

(** [record.payload.get("kind") == kind]. *)
Definition has_kind (kind : string) (payload : odict string json) : bool :=
  bool_decide (string_field "kind" payload = Some kind).

(** [v != SCHEMA_VERSION]: in Python [True] and [1.0] equal 1. Other spellings of the same
    float ([1.00], [1e0]), which no writer here produces, are not recognised. *)
Definition is_schema_version (v : option json) : bool :=
  match v with
  | Some (JNumber l) => String.eqb l "1" || String.eqb l "1.0"
  | Some (JBool b) => b
  | _ => false
  end.

Definition FRAME_KEYS : list string := ["stream"; "seq"; "event_id"; "schema"; "prev"; "payload"].

(** [set(document) != _FRAME_KEYS]. *)
Definition has_frame_keys (document : odict string json) : bool :=
  bool_decide (Forall (λ k, k ∈ FRAME_KEYS) (od_keys document)) &&
  bool_decide (Forall (λ k, k ∈ od_keys document) FRAME_KEYS).

Section outbox.
Variable sha256 : string → string.

(** * Framing *)

Definition frame_body (stream_id : string) (sequence : Z) (prev : string)
    (payload : odict string json) (event_id : string) : json :=
  JObject [("stream", JString stream_id); ("seq", JNumber (json_int sequence));
           ("event_id", JString event_id); ("schema", JNumber (json_int SCHEMA_VERSION));
           ("prev", JString prev); ("payload", JObject payload)].

(** [frame], of an event whose id is chosen. *)
Definition frame (stream_id : string) (sequence : Z) (prev : string)
    (payload : odict string json) (event_id : string) : option OutboxRecord :=
  let body := json_dumps "," ":" (frame_body stream_id sequence prev payload event_id) in
  let digest := sha256 body in
  match json_loads body with
  | Some (JObject document) =>
      match string_field "event_id" document, od_get "payload" document with
      | Some event, Some (JObject payload) =>
          Some (mkOutboxRecord stream_id sequence event prev digest payload
                  (digest +:+ " " +:+ body +:+ String NEWLINE ""))
      | _, _ => None
      end
  | _ => None
  end.

(** [parse_line]; the error is the reason of the [ValueError]. *)
Definition parse_line (line : string) : res string OutboxRecord :=
  match drop_newline line with
  | None => Err "torn"
  | Some text =>
      match partition_space text with
      | None => Err "malformed"
      | Some (digest, body) =>
          raise_if (negb (Nat.eqb (String.length digest) 64)) "malformed" ;;*
          raise_if (negb (String.eqb (sha256 body) digest)) "checksum" ;;*
          match json_loads body with
          | None => Err "malformed"
          | Some (JObject document) =>
              raise_if (negb (is_schema_version (od_get "schema" document))) "schema" ;;*
              raise_if (negb (has_frame_keys document)) "malformed" ;;*
              match int_field "seq" document, od_get "payload" document,
                    string_field "stream" document, string_field "event_id" document,
                    string_field "prev" document with
              | Some sequence, Some (JObject payload), Some stream, Some event_id, Some prev =>
                  raise_if ((sequence <? 1) || negb (is_hex 32 stream) || negb (is_hex 32 event_id) ||
                            negb (is_hex 64 prev)) "malformed" ;;*
                  Ok (mkOutboxRecord stream sequence event_id prev digest payload line)
              | _, _, _, _, _ => Err "malformed"
              end
          | Some _ => Err "schema"
          end
      end
  end.

(** * Reading a stream *)

(** The lines of a segment, each with its line break; the last may have none. *)
Fixpoint lines_of (s : string) : list string :=
  match s with
  | EmptyString => []
  | String c s' =>
      if Ascii.eqb c NEWLINE then String c "" :: lines_of s'
      else match lines_of s' with
           | [] => [String c ""]
           | l :: ls => String c l :: ls
           end
  end.

(** [bytes.splitlines(keepends=True)]: also after a carriage return. *)
Definition RETURN : Ascii.ascii := byte_of 13.
Fixpoint byte_lines (s : string) : list string :=
  match s with
  | EmptyString => []
  | String c s' =>
      if Ascii.eqb c NEWLINE then String c "" :: byte_lines s'
      else if Ascii.eqb c RETURN && negb (match s' with String d _ => Ascii.eqb d NEWLINE | "" => false end)
      then String c "" :: byte_lines s'
      else match byte_lines s' with
           | [] => [String c ""]
           | l :: ls => String c l :: ls
           end
  end.

Definition ack_of (dir_name raw : string) : option Ack :=
  match parse_line raw with
  | Err _ => None
  | Ok r =>
      match string_field "ledger_instance" (ob_payload r), string_field "stream_id" (ob_payload r),
            int_field "sequence" (ob_payload r), string_field "digest" (ob_payload r) with
      | Some ledger, Some stream, Some sequence, Some digest =>
          if is_hex 32 ledger && String.eqb stream dir_name && (1 <=? sequence) && is_hex 64 digest
          then Some (mkAck ledger stream sequence digest) else None
      | _, _, _, _ => None
      end
  end.

Definition read_ack (dir : StreamDir) : option Ack :=
  match sd_ack_log dir with
  | None => None
  | Some data => last (omap (ack_of (sd_name dir)) (byte_lines data))
  end.

(** The records placed so far, with the segment each is in. *)
Abbreviation placed_records := (list (string * OutboxRecord)).

Definition base (placed : placed_records) : Z * string :=
  match last placed with Some (_, r) => (ob_sequence r, ob_digest r) | None => (0, GENESIS) end.

(** [placed[:keep]]: the records before the first whose sequence is not below. *)
Fixpoint kept_below (first : Z) (placed : placed_records) : placed_records :=
  match placed with
  | [] => []
  | item :: rest => if first <=? ob_sequence item.2 then [] else item :: kept_below first rest
  end.

Definition compacted_start (r : OutboxRecord) (predecessor : Z) (ack : option Ack) : bool :=
  match ack with
  | None => false
  | Some a => (predecessor <=? ak_sequence a) &&
              ((predecessor <? ak_sequence a) || String.eqb (ob_prev r) (ak_digest a))
  end.

(** [_place]: why the record cannot follow, or the records it follows. *)
Definition place (r : OutboxRecord) (stream_id : string) (placed : placed_records)
    (opens_segment after_damage : bool) (ack : option Ack) : res string placed_records :=
  raise_if (negb (String.eqb (ob_stream_id r) stream_id)) "stream" ;;*
  if has_kind GAP_KIND (ob_payload r) then
    match int_field "unconfirmed_from" (ob_payload r), int_field "unconfirmed_to" (ob_payload r) with
    | Some first, Some last =>
        raise_if (negb (opens_segment && (1 <=? first) && (first <=? last + 1) &&
                        (ob_sequence r =? last + 1))) "sequence" ;;*
        let kept := kept_below first placed in
        if bool_decide (kept ≠ []) || (first =? 1) then
          let '(base_seq, base_digest) := base kept in
          raise_if (negb (base_seq =? first - 1)) "sequence" ;;*
          raise_if (negb (String.eqb (ob_prev r) base_digest)) "chain" ;;*
          Ok kept
        else
          raise_if (negb (compacted_start r (first - 1) ack)) "sequence" ;;*
          Ok kept
    | _, _ => Err "sequence"
    end
  else
    raise_if after_damage "sequence" ;;*
    if bool_decide (placed = []) && negb (ob_sequence r =? 1) then
      raise_if (negb (compacted_start r (ob_sequence r - 1) ack)) "sequence" ;;*
      Ok placed
    else
      let '(base_seq, base_digest) := base placed in
      raise_if (negb (ob_sequence r =? base_seq + 1)) "sequence" ;;*
      raise_if (negb (String.eqb (ob_prev r) base_digest)) "chain" ;;*
      Ok placed.

Record ScanState := mkScanState {
  sn_placed : placed_records;
  sn_damage : list Damage;
  sn_after_damage : bool;
  sn_stopped : bool
}.

(** The loop over the lines of one segment. *)
Fixpoint scan_lines (stream_id : string) (ack : option Ack) (name : string) (offset : nat)
    (lines : list string) (st : ScanState) : ScanState :=
  match lines with
  | [] => st
  | line :: rest =>
      match parse_line line with
      | Err reason =>
          mkScanState (sn_placed st) (sn_damage st ++ [mkDamage name offset reason])%list true (sn_stopped st)
      | Ok r =>
          match place r stream_id (sn_placed st) (Nat.eqb offset 0) (sn_after_damage st) ack with
          | Err reason =>
              mkScanState (sn_placed st) (sn_damage st ++ [mkDamage name offset reason])%list
                (sn_after_damage st) true
          | Ok placed =>
              scan_lines stream_id ack name (offset + String.length line) rest
                (mkScanState (placed ++ [(name, r)])%list (sn_damage st) false (sn_stopped st))
          end
      end
  end.

(** The loop over the segments. *)
Definition scan_segment (stream_id : string) (ack : option Ack) (st : ScanState)
    (segment : string * string) : ScanState :=
  if sn_stopped st then st
  else scan_lines stream_id ack segment.1 0 (lines_of segment.2) st.

(** [_segment_names]: the files in the order of their names. *)
Definition segments_in_order (dir : StreamDir) : list (string * string) :=
  merge_sort key_le (sd_segments dir).

(** [_scan]. *)
Definition segment_scan (placed : placed_records) (name : string) : SegmentScan :=
  let sequences := (λ item, ob_sequence item.2) <$> filter (λ item, item.1 = name) placed in
  mkSegmentScan name (head sequences) (last sequences).

(** An acknowledgement inside the records anchors them: they must hold the record it
    names, or nothing is trusted. *)
Definition check_anchor (ack : option Ack) (placed : placed_records) (damage : list Damage)
    : placed_records * list Damage :=
  match ack, placed with
  | Some a, (name, first) :: _ =>
      if ob_sequence first <=? ak_sequence a then
        match filter (λ r, ob_sequence r = ak_sequence a) placed.*2 with
        | anchored :: _ =>
            if String.eqb (ob_digest anchored) (ak_digest a) then (placed, damage)
            else ([], damage ++ [mkDamage name 0 "anchor"])%list
        | [] => ([], damage ++ [mkDamage name 0 "anchor"])%list
        end
      else (placed, damage)
  | _, _ => (placed, damage)
  end.

(** The last record of a dead writer's stream, unless it is settled. *)
Definition withheld_tail (orphan : bool) (ack : option Ack) (placed : placed_records)
    : option (string * OutboxRecord) :=
  match last placed with
  | Some (name, r) =>
      if orphan && negb (has_kind STREAM_END_KIND (ob_payload r)) &&
         match ack with
         | None => true
         | Some a => negb ((ob_sequence r =? ak_sequence a) && String.eqb (ob_digest r) (ak_digest a))
         end
      then Some (name, r) else None
  | None => None
  end.

Definition scan_stream (dir : StreamDir) (orphan : bool) : StreamScan :=
  let stream_id := sd_name dir in
  let ack := read_ack dir in
  let segments := segments_in_order dir in
  let st := foldl (scan_segment stream_id ack) (mkScanState [] [] false false) segments in
  let '(placed, damage) := check_anchor ack (sn_placed st) (sn_damage st) in
  let tail := withheld_tail orphan ack placed in
  let placed := match tail with Some _ => removelast placed | None => placed end in
  mkStreamScan stream_id placed.*2 (segment_scan placed <$> segments.*1) damage
    (snd <$> tail) (fst <$> tail).

(** [follows]: whether a record may directly follow a committed prefix. *)
Definition follows (r : OutboxRecord) (base_sequence : Z) (base_digest : string) : res string unit :=
  (if has_kind GAP_KIND (ob_payload r) then
     match int_field "unconfirmed_from" (ob_payload r), int_field "unconfirmed_to" (ob_payload r) with
     | Some first, Some last =>
         raise_if (negb ((first =? base_sequence + 1) && (first <=? last + 1) &&
                         (ob_sequence r =? last + 1))) "sequence"
     | _, _ => Err "sequence"
     end
   else raise_if (negb (ob_sequence r =? base_sequence + 1)) "sequence") ;;*
  raise_if (negb (String.eqb (ob_prev r) base_digest)) "chain".

(** * Acknowledgements and compaction *)

Definition held (scan : StreamScan) : list OutboxRecord :=
  (ss_records scan ++ option_list (ss_unverified_tail scan))%list.

(** [_scan_of]. *)
Definition scan_of (dir : StreamDir) (scan : StreamScan) : bool :=
  String.eqb (ss_stream_id scan) (sd_name dir) &&
  forallb (λ r, String.eqb (ob_stream_id r) (sd_name dir)) (held scan).

Definition ack_payload (dir : StreamDir) (ledger_instance : string) (sequence : Z) (digest : string)
    : odict string json :=
  [("ledger_instance", JString ledger_instance); ("stream_id", JString (sd_name dir));
   ("sequence", JNumber (json_int sequence)); ("digest", JString digest)].

(** The first [n] bytes of a text. *)
Definition landed (n : nat) (s : string) : string := String.substring 0 n s.

(** [write_ack]; [fault] is the number of bytes that land before the write fails. *)
Definition write_ack (dir : StreamDir) (scan : StreamScan) (ledger_instance : string) (sequence : Z)
    (digest event_id : string) (fault : option nat) : res OutboxError bool * StreamDir :=
  let log data := mkStreamDir (sd_name dir) (sd_segments dir)
                    (Some (default "" (sd_ack_log dir) +:+ data)) in
  if negb (is_hex 32 ledger_instance && is_hex 64 digest)
  then (Err (mkOutboxError "INVALID" "an acknowledgement has a malformed field"), dir)
  else if negb (scan_of dir scan)
  then (Err (mkOutboxError "INVALID" "an acknowledgement needs this stream's own scan"), dir)
  else if negb (existsb (λ r, (ob_sequence r =? sequence) && String.eqb (ob_digest r) digest) (held scan))
  then (Err (mkOutboxError "INVALID" "an acknowledgement names no record this stream holds"), dir)
  else if match read_ack dir with Some stored => sequence <=? ak_sequence stored | None => false end
  then (Ok false, dir)
  else match frame (sd_name dir) 1 GENESIS (ack_payload dir ledger_instance sequence digest) event_id with
       | None => (Err FrameError, dir)
       | Some r =>
           match fault with
           | None => (Ok true, log (ob_line r))
           | Some n => (Err (mkOutboxError "WRITE_FAILED" "an acknowledgement was not recorded"),
                        log (landed n (ob_line r)))
           end
       end.

(** The loop of [compact]: the names to delete. *)
Fixpoint compact_loop (keep : string → bool) (acknowledged : Z) (segments : list SegmentScan)
    : list string :=
  match segments with
  | [] => []
  | s :: rest =>
      if keep (sg_name s) then compact_loop keep acknowledged rest
      else match sg_last_sequence s with
           | None => []
           | Some n => if acknowledged <? n then [] else sg_name s :: compact_loop keep acknowledged rest
           end
  end.

Definition compact (dir : StreamDir) (scan : StreamScan) (ledger_instance : string)
    (active_segment : option string) : list string * StreamDir :=
  if negb (scan_of dir scan) then ([], dir)
  else match read_ack dir with
  | None => ([], dir)
  | Some ack =>
      if negb (String.eqb (ak_ledger_instance ack) ledger_instance) then ([], dir)
      else if negb (existsb (λ r, (ob_sequence r =? ak_sequence ack) &&
                                  String.eqb (ob_digest r) (ak_digest ack)) (ss_records scan)) &&
              match ss_records scan with
              | [] => true
              | first :: _ => ob_sequence first <=? ak_sequence ack
              end
      then ([], dir)
      else
        let keep name := bool_decide (name ∈ dm_segment <$> ss_damage scan) ||
                         bool_decide (ss_tail_segment scan = Some name) ||
                         bool_decide (active_segment = Some name) in
        let deleted := compact_loop keep (ak_sequence ack) (ss_segments scan) in
        (deleted, mkStreamDir (sd_name dir)
                    (filter (λ f, f.1 ∉ deleted) (sd_segments dir)) (sd_ack_log dir))
  end.

(** * Writing a stream *)

Record StreamWriter := mkStreamWriter {
  sw_stream_id : string;
  sw_segment_bytes : nat;
  sw_locked : bool;
  sw_segment : option string;
  sw_segment_index : nat;
  sw_segment_size : nat;
  sw_next_seq : Z;
  sw_prev : string;
  sw_confirmed : Z;
  sw_broken_from : option Z;
  sw_closed : bool
}.

Definition new_writer (stream_id : string) (segment_bytes : nat) : StreamWriter :=
  mkStreamWriter stream_id segment_bytes false None 0 0 1 GENESIS 0 None false.

Abbreviation writing A := (eff (StreamWriter * StreamDir) OutboxError A).

(** [f"seg-{index:06d}.log"]. *)
Fixpoint padded (width : nat) (n : N) : string :=
  match width with
  | O => ""
  | S w => String (pretty_N_char ((n / 10 ^ N.of_nat w) mod 10)) (padded w n)
  end.
Definition segment_name (index : nat) : string :=
  "seg-" +:+ (if (N.of_nat index <? 1000000)%N then padded 6 (N.of_nat index) else pretty index) +:+ ".log".

(** What the file system does to a write: opening a new segment fails, before or
    after the file exists; or the write fails after some of its bytes landed. *)
Record WriteIo := mkWriteIo {
  wi_roll : option bool;
  wi_write : option nat
}.

Definition with_segment (segment : option string) (index size : nat) (w : StreamWriter) : StreamWriter :=
  mkStreamWriter (sw_stream_id w) (sw_segment_bytes w) (sw_locked w) segment index size
    (sw_next_seq w) (sw_prev w) (sw_confirmed w) (sw_broken_from w) (sw_closed w).

Definition abandon_segment (w : StreamWriter) : StreamWriter :=
  with_segment None (sw_segment_index w) (sw_segment_size w) w.

Definition add_file (name : string) (dir : StreamDir) : StreamDir :=
  mkStreamDir (sd_name dir) (sd_segments dir ++ [(name, "")])%list (sd_ack_log dir).
Definition append_file (name data : string) (dir : StreamDir) : StreamDir :=
  mkStreamDir (sd_name dir)
    ((λ f, if String.eqb f.1 name then (f.1, f.2 +:+ data) else f) <$> sd_segments dir)
    (sd_ack_log dir).

(** [_roll]. *)
Definition roll (io : WriteIo) : writing unit := λ '(w, dir),
  let index := S (sw_segment_index w) in
  let name := segment_name index in
  match wi_roll io with
  | Some created =>
      (Err (mkOutboxError "WRITE_FAILED" "cannot open a segment"),
       (with_segment None index (sw_segment_size w) w, if created : bool then add_file name dir else dir))
  | None => (Ok tt, (with_segment (Some name) index 0 w, add_file name dir))
  end.

Definition take_sequence (w : StreamWriter) : StreamWriter :=
  mkStreamWriter (sw_stream_id w) (sw_segment_bytes w) (sw_locked w) (sw_segment w)
    (sw_segment_index w) (sw_segment_size w) (sw_next_seq w + 1) (sw_prev w) (sw_confirmed w)
    (sw_broken_from w) (sw_closed w).
Definition set_broken (b : option Z) (w : StreamWriter) : StreamWriter :=
  mkStreamWriter (sw_stream_id w) (sw_segment_bytes w) (sw_locked w) (sw_segment w)
    (sw_segment_index w) (sw_segment_size w) (sw_next_seq w) (sw_prev w) (sw_confirmed w)
    b (sw_closed w).
Definition confirm (r : OutboxRecord) (w : StreamWriter) : StreamWriter :=
  mkStreamWriter (sw_stream_id w) (sw_segment_bytes w) (sw_locked w) (sw_segment w)
    (sw_segment_index w) (sw_segment_size w + String.length (ob_line r)) (sw_next_seq w)
    (ob_digest r) (ob_sequence r) (sw_broken_from w) (sw_closed w).

(** The body of the [try] of [_write]. *)
Definition write_bytes (r : OutboxRecord) (force_roll : bool) (io : WriteIo) : writing unit :=
  let! must_roll := (λ s, (Ok (force_roll || bool_decide (sw_segment s.1 = None) ||
    (negb (Nat.eqb (sw_segment_size s.1) 0) &&
     (sw_segment_bytes s.1 <? sw_segment_size s.1 + String.length (ob_line r))%nat)), s)) in
  (if must_roll : bool then roll io else λ s, (Ok tt, s)) ;;!
  λ '(w, dir),
    match sw_segment w with
    | None => (Err (mkOutboxError "WRITE_FAILED" "no segment"), (w, dir))
    | Some name =>
        match wi_write io with
        | None => (Ok tt, (w, append_file name (ob_line r) dir))
        | Some n => (Err (mkOutboxError "WRITE_FAILED" "a record was not confirmed"),
                     (w, append_file name (landed n (ob_line r)) dir))
        end
    end.

(** [_write]. *)
Definition write_record (payload : odict string json) (event_id : string) (force_roll : bool)
    (io : WriteIo) : writing OutboxRecord := λ '(w, dir),
  match frame (sw_stream_id w) (sw_next_seq w) (sw_prev w) payload event_id with
  | None => (Err FrameError, (w, dir))
  | Some r =>
      match write_bytes r force_roll io (take_sequence w, dir) with
      | (Ok _, (w, dir)) => (Ok r, (confirm r w, dir))
      | (Err _, (w, dir)) =>
          let w := match sw_broken_from w with
                   | None => set_broken (Some (ob_sequence r)) w
                   | Some _ => w
                   end in
          (Err (mkOutboxError "WRITE_FAILED" "a record was not confirmed"), (abandon_segment w, dir))
      end
  end.

(** What an [append] meets: opening and locking the stream may fail, with a code; the
    ids of its events ([uuid4]) for the size check, a gap and the record. *)
Record AppendIo := mkAppendIo {
  ai_open : option (string * string);
  ai_gap : WriteIo;
  ai_record : WriteIo;
  ai_check_id : string;
  ai_gap_id : string;
  ai_record_id : string
}.

Definition set_locked (b : bool) (w : StreamWriter) : StreamWriter :=
  mkStreamWriter (sw_stream_id w) (sw_segment_bytes w) b (sw_segment w)
    (sw_segment_index w) (sw_segment_size w) (sw_next_seq w) (sw_prev w) (sw_confirmed w)
    (sw_broken_from w) (sw_closed w).

(** [_open]. *)
Definition open_stream (io : AppendIo) : writing unit := λ '(w, dir),
  match ai_open io with
  | Some (code, detail) => (Err (mkOutboxError code detail), (w, dir))
  | None => (Ok tt, (set_locked true w, dir))
  end.

Definition gap_payload (first last : Z) : odict string json :=
  [("kind", JString GAP_KIND); ("unconfirmed_from", JNumber (json_int first));
   ("unconfirmed_to", JNumber (json_int last))].

(** The check of a record's size. *)
Definition check_size (payload : odict string json) (event_id : string) : writing unit := λ '(w, dir),
  match frame (sw_stream_id w) (sw_next_seq w) (sw_prev w) payload event_id with
  | None => (Err FrameError, (w, dir))
  | Some r => if (MAX_RECORD_BYTES <? N.of_nat (String.length (ob_line r)))%N
              then (Err (mkOutboxError "TOO_LARGE" "a record exceeds the per-record limit"), (w, dir))
              else (Ok tt, (w, dir))
  end.

(** The gap that explains the sequences an earlier failure left unconfirmed. *)
Definition write_gap (io : AppendIo) : writing unit := λ '(w, dir),
  match sw_broken_from w with
  | None => (Ok tt, (w, dir))
  | Some first =>
      match write_record (gap_payload first (sw_next_seq w - 1)) (ai_gap_id io) true (ai_gap io)
              (abandon_segment w, dir) with
      | (Ok _, (w, dir)) => (Ok tt, (set_broken None w, dir))
      | (Err e, s) => (Err e, s)
      end
  end.

(** [append]; [event_id] as the caller gives it. *)
Definition append (payload : odict string json) (event_id : option string) (io : AppendIo)
    : writing OutboxRecord :=
  let! s := (λ s, (Ok s.1, s)) in
  (if sw_closed s then λ s, (Err (mkOutboxError "CLOSED" "the stream writer is closed"), s)
   else if sw_locked s then λ s, (Ok tt, s) else open_stream io) ;;!
  check_size payload (default (ai_check_id io) event_id) ;;!
  write_gap io ;;!
  write_record payload (default (ai_record_id io) event_id) false (ai_record io).

(** [close]. *)
Definition close_writer (w : StreamWriter) : StreamWriter :=
  mkStreamWriter (sw_stream_id w) (sw_segment_bytes w) false None (sw_segment_index w)
    (sw_segment_size w) (sw_next_seq w) (sw_prev w) (sw_confirmed w) (sw_broken_from w) true.

(** [active_segment]. *)
Definition active_segment (w : StreamWriter) : option string :=
  if (sw_segment_index w =? 0)%nat then None else Some (segment_name (sw_segment_index w)).

(** The calls of a stream's one writer; a call of [append] that raises is followed
    by the next call. With the state, the records that were returned. *)
Inductive outbox_call :=
| CallAppend (payload : odict string json) (event_id : option string) (io : AppendIo)
| CallClose.

Definition run_call (s : StreamWriter * StreamDir * list OutboxRecord) (c : outbox_call)
    : StreamWriter * StreamDir * list OutboxRecord :=
  match c with
  | CallAppend payload event_id io =>
      match append payload event_id io s.1 with
      | (Ok r, s') => (s', (s.2 ++ [r])%list)
      | (Err _, s') => (s', s.2)
      end
  | CallClose => (close_writer s.1.1, s.1.2, s.2)
  end.
End outbox.

(** * Framed lines are read back *)

Lemma hex_no_char n s c : is_hex n s = true →
  hex_char c = false → has_char c s = false.
Proof.
  unfold is_hex. rewrite andb_true_iff. intros [_ Hs] Hc.
  induction s as [|d s IH]; [done|]. cbn [String.list_ascii_of_string forallb] in Hs.
  apply andb_true_iff in Hs as [Hd Hs]. cbn [has_char].
  destruct (Ascii.eqb_spec d c) as [->|]; [congruence|]. by apply IH.
Qed.

Lemma hex_length n s : is_hex n s = true → String.length s = n.
Proof. unfold is_hex. by intros [?%Nat.eqb_eq _]%andb_true_iff. Qed.

Lemma hex_ascii n s : is_hex n s = true → valid_text s.
Proof.
  intros [_ Hs]%andb_true_iff. apply ascii_valid. unfold ascii_text.
  rewrite forallb_forall in *. intros c Hc. specialize (Hs c Hc). apply N.ltb_lt.
  apply orb_true_iff in Hs as [[? H%Nat.leb_le]%andb_true_iff|[? H%Nat.leb_le]%andb_true_iff];
    unfold Ascii.nat_of_ascii in H; lia.
Qed.

Lemma drop_newline_app s : drop_newline (s +:+ String NEWLINE "") = Some s.
Proof.
  induction s as [|c s IH]; [done|]. rewrite string_cons_app. simpl. rewrite IH.
  destruct (String.eqb_spec (s +:+ String NEWLINE "") "") as [H|]; [|done].
  by destruct s.
Qed.

Lemma drop_newline_none s : has_char NEWLINE s = false → drop_newline s = None.
Proof.
  induction s as [|c s IH]; [done|]. simpl. intros [Hc Hs]%orb_false_iff. rewrite Hc, (IH Hs).
  by destruct (String.eqb s "").
Qed.

Lemma partition_space_app a b : has_char SPACE a = false →
  partition_space (a +:+ String SPACE b) = Some (a, b).
Proof.
  induction a as [|c a IH]; [done|]. cbn [has_char]. intros [Hc Ha]%orb_false_iff.
  rewrite string_cons_app. cbn [partition_space]. by rewrite Hc, (IH Ha).
Qed.

Section framing.
Variable sha256 : string → string.
Hypothesis sha256_hex : ∀ s, is_hex 64 (sha256 s) = true.

(** What may be framed: identifiers of the right form and a JSON payload. *)
Definition frameable (stream_id : string) (sequence : Z) (prev : string)
    (payload : odict string json) (event_id : string) : Prop :=
  is_hex 32 stream_id = true ∧ 1 ≤ sequence ∧ is_hex 64 prev = true ∧
  json_ok (JObject payload) ∧ is_hex 32 event_id = true.

(** The payload as it is read back. *)
Definition sorted_payload (payload : odict string json) : odict string json :=
  merge_sort key_le ((λ kv, (kv.1, json_sorted kv.2)) <$> payload).

Lemma frame_body_ok sid seq prev payload eid :
  frameable sid seq prev payload eid → json_ok (frame_body sid seq prev payload eid).
Proof.
  intros (Hs & _ & Hp & Hpay & He). unfold frame_body. constructor.
  - apply (bool_decide_unpack _). vm_compute. exact I.
  - simpl. rewrite !Forall_cons. split_and!; try by apply ascii_valid. constructor.
  - simpl. rewrite !Forall_cons.
    split_and!; [by apply ok_string, (hex_ascii 32)|apply written_int|by apply ok_string, (hex_ascii 32)|
      exact (proj1 (written_int 1))|by apply ok_string, (hex_ascii 64)|done|constructor].
Qed.

Definition frame_document (sid : string) (seq : Z) (prev : string) (payload : odict string json)
    (eid : string) : odict string json :=
  [("event_id", JString eid); ("payload", JObject (sorted_payload payload)); ("prev", JString prev);
   ("schema", JNumber "1"); ("seq", JNumber (json_int seq)); ("stream", JString sid)].

Lemma frame_body_sorted sid seq prev payload eid :
  json_sorted (frame_body sid seq prev payload eid) = JObject (frame_document sid seq prev payload eid).
Proof. reflexivity. Qed.

(** A frame as it is written and read back. *)
Record framed (sid : string) (seq : Z) (prev : string) (payload : odict string json) (eid : string)
    (r : OutboxRecord) : Prop := {
  fr_stream : ob_stream_id r = sid;
  fr_sequence : ob_sequence r = seq;
  fr_prev : ob_prev r = prev;
  fr_payload : ob_payload r = sorted_payload payload;
  fr_digest : is_hex 64 (ob_digest r) = true;
  fr_line : ∃ text, ob_line r = text +:+ String NEWLINE "" ∧ has_char NEWLINE text = false;
  fr_parse : parse_line sha256 (ob_line r) = Ok r
}.

Lemma frame_parses sid seq prev payload eid : frameable sid seq prev payload eid →
  ∃ r, frame sha256 sid seq prev payload eid = Some r ∧ framed sid seq prev payload eid r.
Proof.
  intros Hf. pose proof (frame_body_ok _ _ _ _ _ Hf) as Hok. destruct Hf as (Hs & Hq & Hp & Hpay & He).
  unfold frame. rewrite (json_loads_dumps _ Hok), frame_body_sorted.
  set (body := json_dumps "," ":" (frame_body sid seq prev payload eid)) in *.
  assert (is_hex 64 (sha256 body) = true) as Hd by apply sha256_hex.
  assert (has_char NEWLINE body = false) as Hline by by apply dumps_one_line.
  eexists. split; [reflexivity|]. constructor; try done; simpl.
  - exists (sha256 body +:+ " " +:+ body). rewrite !string_app_assoc. split; [done|].
    by rewrite !has_char_app, (hex_no_char 64), Hline.
  - unfold parse_line. rewrite <- !string_app_assoc, drop_newline_app, string_app_assoc.
    change (" " +:+ body) with (String SPACE body).
    rewrite partition_space_app by by apply (hex_no_char 64).
    rewrite (hex_length 64 _ Hd), String.eqb_refl. simpl.
    unfold body. rewrite (json_loads_dumps _ Hok), frame_body_sorted. fold body.
    change (od_get "schema" (frame_document sid seq prev payload eid)) with (Some (JNumber "1")).
    change (has_frame_keys (frame_document sid seq prev payload eid)) with true.
    change (int_field "seq" (frame_document sid seq prev payload eid))
      with (int_value (JNumber (json_int seq))).
    rewrite (proj2 (written_int seq)).
    change (od_get "payload" (frame_document sid seq prev payload eid))
      with (Some (JObject (sorted_payload payload))).
    change (string_field "stream" (frame_document sid seq prev payload eid)) with (Some sid).
    change (string_field "event_id" (frame_document sid seq prev payload eid)) with (Some eid).
    change (string_field "prev" (frame_document sid seq prev payload eid)) with (Some prev).
    simpl. rewrite Hs, Hp, He, (proj2 (Z.ltb_ge _ _)) by lia. simpl. by rewrite !string_app_assoc.
Qed.
End framing.

(** * Lines of a segment *)

(** A segment of whole lines. *)
Definition whole_lines (s : string) : Prop := s = "" ∨ ∃ t, s = t +:+ String NEWLINE "".

Lemma lines_of_app t b :
  lines_of ((t +:+ String NEWLINE "") +:+ b) = (lines_of (t +:+ String NEWLINE "") ++ lines_of b)%list.
Proof.
  induction t as [|c t IH]; [done|]. rewrite !string_cons_app. cbn [lines_of].
  destruct (Ascii.eqb c NEWLINE); [by rewrite IH|]. rewrite IH.
  destruct (lines_of (t +:+ String NEWLINE "")) as [|l ls] eqn:Hl; [|done].
  exfalso. destruct t as [|d t]; [done|]. rewrite string_cons_app in Hl. cbn [lines_of] in Hl.
  destruct (Ascii.eqb d NEWLINE); [done|]. by destruct (lines_of (t +:+ _)).
Qed.

Lemma whole_lines_app a b : whole_lines a → lines_of (a +:+ b) = (lines_of a ++ lines_of b)%list.
Proof. intros [->|[t ->]]; [done|]. apply lines_of_app. Qed.

Lemma lines_of_single s : has_char NEWLINE s = false → s ≠ "" → lines_of s = [s].
Proof.
  induction s as [|c s IH]; [done|]. cbn [has_char lines_of]. intros [-> Hs]%orb_false_iff _.
  destruct s as [|d s]; [done|]. by rewrite IH.
Qed.

Lemma lines_of_line text : has_char NEWLINE text = false →
  lines_of (text +:+ String NEWLINE "") = [text +:+ String NEWLINE ""].
Proof.
  induction text as [|c t IH]; [done|]. rewrite string_cons_app. cbn [has_char lines_of].
  intros [-> Ht]%orb_false_iff. by rewrite IH.
Qed.

Lemma whole_lines_line a text : whole_lines (a +:+ text +:+ String NEWLINE "").
Proof. right. exists (a +:+ text). by rewrite string_app_assoc. Qed.

Definition lengths (lines : list string) : nat := String.length (concat_all lines).

Lemma lines_of_concat s : concat_all (lines_of s) = s.
Proof.
  induction s as [|c s IH]; [done|]. cbn [lines_of]. destruct (Ascii.eqb c NEWLINE).
  - cbn [concat_all]. by rewrite IH.
  - destruct (lines_of s) as [|l ls]; cbn [concat_all] in *; [by subst s|].
    by rewrite string_cons_app, IH.
Qed.

(** The bytes that land are a prefix: the whole line, or one without a line break. *)
Lemma landed_cases n text : has_char NEWLINE text = false →
  landed n (text +:+ String NEWLINE "") = text +:+ String NEWLINE "" ∨
  has_char NEWLINE (landed n (text +:+ String NEWLINE "")) = false.
Proof.
  unfold landed. revert n. induction text as [|c t IH]; intros n.
  - intros _. destruct n as [|[|n]]; by (left + right).
  - rewrite string_cons_app. cbn [has_char]. intros [Hc Ht]%orb_false_iff.
    destruct n as [|n]; [by right|]. cbn [String.substring has_char]. rewrite Hc.
    destruct (IH n Ht) as [->| ->]; auto.
Qed.

Section reading.
Variable sha256 : string → string.
Variable stream_id : string.
Variable ack : option Ack.
Abbreviation scanned := (scan_lines sha256 stream_id ack).

(** A scan that adds no damage has read every line. *)
Lemma scan_lines_app name offset l1 l2 st :
  sn_damage (scanned name offset l1 st) = sn_damage st →
  scanned name offset (l1 ++ l2) st =
  scanned name (offset + lengths l1) l2 (scanned name offset l1 st).
Proof.
  assert (∀ (d : list Damage) x, (d ++ [x])%list ≠ d) as Hne.
  { intros d x Heq. apply (f_equal length) in Heq. rewrite length_app in Heq. simpl in Heq. lia. }
  revert offset st. induction l1 as [|line l1 IH]; intros offset st Hd.
  { unfold lengths. simpl. by rewrite Nat.add_0_r. }
  cbn [app scan_lines] in *. destruct (parse_line sha256 line) as [r|e]; [|by apply Hne in Hd].
  destruct (place _ _ _ _ _ _) as [p|e]; [|by apply Hne in Hd].
  rewrite IH; [|exact Hd]. f_equal. unfold lengths. cbn [concat_all]. rewrite string_length_app. lia.
Qed.

(** Adding a record that fits, or torn bytes, to a segment that was read whole. *)
Lemma scan_added_record name data st r kept :
  let st' := scanned name 0 (lines_of data) st in
  sn_damage st' = sn_damage st → whole_lines data →
  (∃ text, ob_line r = text +:+ String NEWLINE "" ∧ has_char NEWLINE text = false) →
  parse_line sha256 (ob_line r) = Ok r →
  place r stream_id (sn_placed st') (Nat.eqb (String.length data) 0) (sn_after_damage st') ack = Ok kept →
  scanned name 0 (lines_of (data +:+ ob_line r)) st =
  mkScanState (kept ++ [(name, r)])%list (sn_damage st') false (sn_stopped st').
Proof.
  intros st' Hd Hw (text & Hl & Ht) Hp Hplace. rewrite (whole_lines_app _ _ Hw), scan_lines_app by done.
  rewrite Hl at 1. rewrite (lines_of_line _ Ht), <- Hl. cbn [scan_lines]. rewrite Hp. fold st'.
  unfold lengths. rewrite lines_of_concat. simpl (0 + _)%nat. by rewrite Hplace.
Qed.

Lemma scan_added_torn name data st p :
  let st' := scanned name 0 (lines_of data) st in
  sn_damage st' = sn_damage st → whole_lines data → p ≠ "" → has_char NEWLINE p = false →
  ∃ damage, scanned name 0 (lines_of (data +:+ p)) st =
            mkScanState (sn_placed st') damage true (sn_stopped st').
Proof.
  intros st' Hd Hw Hp Hn. rewrite (whole_lines_app _ _ Hw), scan_lines_app by done.
  rewrite (lines_of_single _ Hn Hp). cbn [scan_lines]. unfold parse_line at 1.
  rewrite (drop_newline_none _ Hn). by eexists.
Qed.
End reading.

(** * Names of segments *)

Lemma pretty_char_order a b : (a < b)%N → (b < 10)%N →
  (Ascii.N_of_ascii (pretty_N_char a) < Ascii.N_of_ascii (pretty_N_char b))%N.
Proof.
  intros Hab Hb. destruct (pretty_char_value a) as (Hda & Ha & _); [lia|].
  destruct (pretty_char_value b) as (Hdb & Hb' & _); [lia|]. lia.
Qed.

Lemma padded_order w i j s t : (i mod 10 ^ N.of_nat w < j mod 10 ^ N.of_nat w)%N →
  String.leb (padded w i +:+ s) (padded w j +:+ t) = true ∧ padded w i +:+ s ≠ padded w j +:+ t.
Proof.
  induction w as [|w IH].
  { change (10 ^ N.of_nat 0)%N with 1%N. rewrite !N.mod_1_r. lia. }
  cbn [padded]. rewrite !string_cons_app.
  assert (∀ n, n mod 10 ^ N.of_nat (S w) =
               ((n / 10 ^ N.of_nat w) mod 10) * 10 ^ N.of_nat w + n mod 10 ^ N.of_nat w)%N as Hsplit.
  { intros n. rewrite Nat2N.inj_succ, N.pow_succ_r', (N.mul_comm 10).
    rewrite N.Div0.mod_mul_r. lia. }
  rewrite !Hsplit. set (p := (10 ^ N.of_nat w)%N) in *.
  assert (p ≠ 0)%N as Hp by (apply N.pow_nonzero; lia). clearbody p.
  pose proof (N.mod_lt i p Hp). pose proof (N.mod_lt j p Hp).
  pose proof (N.mod_lt (i / p) 10). pose proof (N.mod_lt (j / p) 10).
  generalize dependent ((i / p) mod 10)%N. generalize dependent ((j / p) mod 10)%N.
  intros b Hb a Ha Hlt. destruct (N.lt_trichotomy a b) as [Hab|[->|Hab]].
  - pose proof (pretty_char_order a b). rewrite string_leb_cons. split; [left; auto|].
    intros [= He _]. rewrite He in *. lia.
  - assert (i mod p < j mod p)%N as Hm by lia. destruct (IH Hm) as [Hle Hne].
    rewrite string_leb_cons. split; [by right|]. by intros [= ?].
  - exfalso. pose proof (N.mul_le_mono_r (b + 1) a p ltac:(lia)) as Hm.
    rewrite N.mul_add_distr_r in Hm. clear -Hm Hlt H H0. revert H H0 Hlt. generalize (i mod p)%N (j mod p)%N. intros. lia.
Qed.

Lemma segment_name_order i j : (i < j)%nat → (N.of_nat j < 1000000)%N →
  String.leb (segment_name i) (segment_name j) = true ∧ segment_name i ≠ segment_name j.
Proof.
  intros Hij Hj. unfold segment_name. rewrite !(proj2 (N.ltb_lt _ 1000000)) by lia.
  change ("seg-" +:+ ?x) with (String "s" (String "e" (String "g" (String "-" x)))).
  rewrite !string_leb_cons.
  destruct (padded_order 6 (N.of_nat i) (N.of_nat j) ".log" ".log") as [Hle Hne].
  { change (10 ^ N.of_nat 6)%N with 1000000%N. rewrite !N.mod_small by lia. lia. }
  revert Hle Hne. generalize (padded 6 (N.of_nat i) +:+ ".log") (padded 6 (N.of_nat j) +:+ ".log").
  intros x y Hle Hne. split; [by auto 10|]. by intros [= ?].
Qed.

(** Files made in the order of their indices are in the order of their names. *)
Lemma segments_sorted (files : list (string * string)) indices :
  files.*1 = segment_name <$> indices → StronglySorted lt indices → Forall (λ i, N.of_nat i < 1000000)%N indices →
  NoDup files.*1 ∧ merge_sort key_le files = files.
Proof.
  intros Hf Hs Hb.
  assert (NoDup files.*1 ∧ StronglySorted key_le files) as [Hnd Hsort].
  { revert files Hf Hb. induction Hs as [|i l Hs IH Hi]; intros [|[n d] files] Hf Hb;
      [by split; constructor|done..|]. injection Hf as -> Hf.
    change (files.*1 = segment_name <$> l) in Hf. rewrite fmap_cons. inversion_clear Hb as [|?? Hi' Hb'].
    destruct (IH files) as [Hnd Hsort]; [done..|].
    assert (∀ x, x ∈ segment_name <$> l → String.leb (segment_name i) x = true ∧ segment_name i ≠ x) as Hx.
    { intros x (j & -> & Hj)%list_elem_of_fmap. rewrite Forall_forall in Hi, Hb'.
      apply segment_name_order; [by apply Hi|by apply Hb']. }
    split; constructor; [..|done|].
    - rewrite Hf. intros Hin. by apply Hx in Hin as [_ ?].
    - done.
    - apply Forall_forall. intros [n' d'] Hin. apply (list_elem_of_fmap_2 fst) in Hin. simpl in Hin.
      rewrite Hf in Hin. exact (proj1 (Hx n' Hin)). }
  split; [done|]. apply keys_sorted_unique; [by rewrite merge_sort_Permutation| |done|apply merge_sort_Permutation].
  apply StronglySorted_merge_sort; apply _.
Qed.

(** Fields of a payload are read back. *)
Lemma od_get_fmap {A B} (f : A → B) k (d : odict string A) :
  od_get k ((λ kv, (kv.1, f kv.2)) <$> d) = f <$> od_get k d.
Proof.
  induction d as [|[k' v] d IH]; [done|]. rewrite fmap_cons. cbn [od_get fst snd].
  by destruct (decide (k = k')).
Qed.

Lemma od_get_permutation {A} k (d d' : odict string A) :
  NoDup d.*1 → d ≡ₚ d' → od_get k d = od_get k d'.
Proof.
  intros Hnd Hp. assert (NoDup d'.*1) as Hnd' by (by rewrite <- Hp).
  destruct (od_get k d) as [v|] eqn:Hd.
  - symmetry. apply od_in_get; [done|]. rewrite <- Hp. by apply od_get_Some_in.
  - symmetry. apply od_get_None. apply od_get_None in Hd. unfold od_keys in *. by rewrite <- Hp.
Qed.

Lemma od_get_sorted k payload : NoDup payload.*1 →
  od_get k (sorted_payload payload) = json_sorted <$> od_get k payload.
Proof.
  intros Hnd. unfold sorted_payload. rewrite <- od_get_fmap. symmetry. apply od_get_permutation.
  - by rewrite fmap_keys.
  - symmetry. apply merge_sort_Permutation.
Qed.

Lemma has_kind_sorted k payload : json_ok (JObject payload) →
  has_kind k (sorted_payload payload) = has_kind k payload.
Proof.
  inversion_clear 1. unfold has_kind, string_field. rewrite od_get_sorted by done.
  by destruct (od_get "kind" payload) as [[]|].
Qed.

Lemma gap_fields first last :
  json_ok (JObject (gap_payload first last)) ∧
  has_kind GAP_KIND (sorted_payload (gap_payload first last)) = true ∧
  int_field "unconfirmed_from" (sorted_payload (gap_payload first last)) = Some first ∧
  int_field "unconfirmed_to" (sorted_payload (gap_payload first last)) = Some last.
Proof.
  assert (NoDup (gap_payload first last).*1) as Hnd by (apply (bool_decide_unpack _); vm_compute; exact I).
  split_and!.
  - constructor; [done|..]; simpl; rewrite !Forall_cons.
    + split_and!; try by apply ascii_valid. constructor.
    + split_and!; [by apply ok_string, ascii_valid|apply written_int|apply written_int|constructor].
  - done.
  - unfold int_field. rewrite od_get_sorted by done. apply (written_int first).
  - unfold int_field. rewrite od_get_sorted by done. apply (written_int last).
Qed.

(** * What a writer leaves on disk *)

#[local] Opaque frame.

Section writer_facts.
Variable sha256 : string → string.
Hypothesis sha256_hex : ∀ s, is_hex 64 (sha256 s) = true.
Variable ack : option Ack.

Definition scan_files (stream_id : string) (files : list (string * string)) : ScanState :=
  foldl (scan_segment sha256 stream_id ack) (mkScanState [] [] false false) files.
Definition scan_dir (dir : StreamDir) : ScanState := scan_files (sd_name dir) (sd_segments dir).

Definition few_segments (w : StreamWriter) : Prop := (N.of_nat (sw_segment_index w) < 1000000)%N.

(** The segment being written is the last file, of whole lines all of which the
    reader placed. *)
Record open_segment (dir : StreamDir) (name : string) (files : list (string * string)) (data : string)
    : Prop := {
  os_files : sd_segments dir = (files ++ [(name, data)])%list;
  os_whole : whole_lines data;
  os_running : sn_stopped (scan_files (sd_name dir) files) = false;
  os_damage : sn_damage (scan_dir dir) = sn_damage (scan_files (sd_name dir) files)
}.

Record layout (w : StreamWriter) (dir : StreamDir) : Prop := {
  ly_name : sd_name dir = sw_stream_id w;
  ly_indices : ∃ indices, (sd_segments dir).*1 = segment_name <$> indices ∧
    StronglySorted lt indices ∧ Forall (λ i, i ≤ sw_segment_index w)%nat indices;
  ly_open : ∀ name, sw_segment w = Some name → ∃ files data, open_segment dir name files data;
  ly_running : sn_stopped (scan_dir dir) = false
}.

(** What writing bytes leaves alone. *)
Definition same_core (w w' : StreamWriter) : Prop :=
  sw_stream_id w' = sw_stream_id w ∧ sw_next_seq w' = sw_next_seq w ∧ sw_prev w' = sw_prev w ∧
  sw_confirmed w' = sw_confirmed w ∧ sw_broken_from w' = sw_broken_from w.

Lemma writer_core_refl w : same_core w w.
Proof. done. Qed.

Lemma layout_abandon w dir : layout w dir → layout (abandon_segment w) dir.
Proof. intros [Hn Hi Ho Hr]. by constructor. Qed.

Lemma scan_files_snoc sid files name data : sn_stopped (scan_files sid files) = false →
  scan_files sid (files ++ [(name, data)]) =
  scan_lines sha256 sid ack name 0 (lines_of data) (scan_files sid files).
Proof.
  intros Hr. unfold scan_files at 1. rewrite foldl_app. simpl. unfold scan_segment at 1.
  fold (scan_files sid files). by rewrite Hr.
Qed.

Lemma scan_dir_last dir name files data : open_segment dir name files data →
  scan_dir dir =
  scan_lines sha256 (sd_name dir) ack name 0 (lines_of data) (scan_files (sd_name dir) files).
Proof.
  intros [Hf _ Hr _]. unfold scan_dir. by rewrite Hf, scan_files_snoc.
Qed.

Lemma indices_snoc indices n :
  StronglySorted lt indices → Forall (λ i, i ≤ n)%nat indices → StronglySorted lt (indices ++ [S n]).
Proof.
  induction 1 as [|i l Hl IH Hi]; intros Hb; simpl; [repeat constructor|].
  inversion_clear Hb as [|?? Hi' Hb']. constructor; [by apply IH|].
  apply Forall_app. split; [done|]. constructor; [lia|constructor].
Qed.

Lemma add_file_layout w dir segment size :
  layout w dir →
  (segment = None ∨ segment = Some (segment_name (S (sw_segment_index w)))) →
  layout (with_segment segment (S (sw_segment_index w)) size w)
         (add_file (segment_name (S (sw_segment_index w))) dir) ∧
  scan_dir (add_file (segment_name (S (sw_segment_index w))) dir) = scan_dir dir.
Proof.
  intros [Hn (indices & Hi & Hs & Hb) Ho Hr] Hseg.
  assert (scan_dir (add_file (segment_name (S (sw_segment_index w))) dir) = scan_dir dir) as Hscan.
  { unfold scan_dir in *. simpl. by rewrite scan_files_snoc. }
  split; [|done]. constructor; [done| | |by rewrite Hscan].
  - exists (indices ++ [S (sw_segment_index w)])%list. simpl. rewrite !fmap_app, Hi. split; [done|].
    split; [by apply indices_snoc|]. apply Forall_app. split; [|by repeat constructor].
    eapply Forall_impl; [exact Hb|]. simpl. lia.
  - intros name Hname. destruct Hseg as [->| ->]; simplify_eq/=. exists (sd_segments dir), "".
    constructor; [done|by left|done|by rewrite Hscan].
Qed.

Lemma roll_spec io w dir res w' dir' :
  layout w dir → roll io (w, dir) = (res, (w', dir')) →
  same_core w w' ∧ (sw_segment_index w ≤ sw_segment_index w')%nat ∧ layout w' dir' ∧
  scan_dir dir' = scan_dir dir ∧ sd_name dir' = sd_name dir ∧
  match res with
  | Ok _ => ∃ name files, sw_segment w' = Some name ∧ open_segment dir' name files ""
  | Err _ => True
  end.
Proof.
  intros Hl Hroll. unfold roll in Hroll. destruct (wi_roll io) as [created|]; simplify_eq.
  - split; [done|]. split; [simpl; lia|]. destruct created.
    + destruct (add_file_layout w dir None (sw_segment_size w) Hl (or_introl eq_refl)). done.
    + destruct Hl as [Hn (indices & Hi & Hs & Hb) Ho Hr]. split; [|done]. constructor; [done| |done|done].
      exists indices. split; [done|]. split; [done|]. eapply Forall_impl; [exact Hb|]. simpl. lia.
  - split; [done|]. split; [simpl; lia|].
    destruct (add_file_layout w dir (Some (segment_name (S (sw_segment_index w)))) 0 Hl) as [Hl' Hscan]; [by right|].
    split; [done|]. split; [done|]. split; [done|].
    exists (segment_name (S (sw_segment_index w))), (sd_segments dir). split; [done|].
    destruct (ly_open _ _ Hl' _ eq_refl) as (files & data & [Hf Hw Hr Hd]).
    constructor; [done|by left|apply Hl|by rewrite Hscan].
Qed.

Lemma append_file_last w dir name files data p :
  layout w dir → few_segments w → open_segment dir name files data →
  sd_segments (append_file name p dir) = (files ++ [(name, data +:+ p)])%list.
Proof.
  intros [_ (indices & Hi & Hs & Hb) _ _] Hfew [Hf _ _ _].
  assert (NoDup (sd_segments dir).*1) as Hnd.
  { apply (segments_sorted _ indices Hi Hs). eapply Forall_impl; [exact Hb|]. simpl.
    unfold few_segments in Hfew. lia. }
  simpl. rewrite Hf in Hnd |- *. rewrite fmap_app in Hnd. apply NoDup_app in Hnd as (_ & Hnot & _).
  rewrite fmap_app. simpl. rewrite String.eqb_refl. f_equal.
  rewrite <- (list_fmap_id files) at 2. apply list_fmap_ext. intros i [n d] Hin. simpl.
  destruct (String.eqb_spec n name) as [->|]; [|done]. exfalso.
  apply (Hnot name); [|by apply list_elem_of_here].
  apply list_elem_of_lookup_2, (list_elem_of_fmap_2 fst) in Hin. done.
Qed.

(** Bytes added to the open segment: a whole record that fits, or part of it. *)
Lemma append_layout w dir name files data p st :
  layout w dir → few_segments w → open_segment dir name files data → sw_segment w = Some name →
  scan_lines sha256 (sd_name dir) ack name 0 (lines_of (data +:+ p)) (scan_files (sd_name dir) files) = st →
  sn_stopped st = false →
  scan_dir (append_file name p dir) = st ∧ layout (abandon_segment w) (append_file name p dir) ∧
  (sn_damage st = sn_damage (scan_files (sd_name dir) files) → whole_lines (data +:+ p) →
   layout w (append_file name p dir)).
Proof.
  intros Hl Hfew Ho Hsegment Hst Hrun.
  pose proof (append_file_last w dir name files data p Hl Hfew Ho) as Hfiles.
  assert (scan_dir (append_file name p dir) = st) as Hscan.
  { unfold scan_dir. rewrite Hfiles, scan_files_snoc by apply Ho. done. }
  assert (∃ indices, (sd_segments (append_file name p dir)).*1 = segment_name <$> indices ∧
    StronglySorted lt indices ∧ Forall (λ i, i ≤ sw_segment_index w)%nat indices) as Hind.
  { destruct (ly_indices _ _ Hl) as (indices & Hi & Hs & Hb). exists indices. split; [|done].
    rewrite Hfiles, <- Hi, (os_files _ _ _ _ Ho), !fmap_app. done. }
  split; [done|]. split.
  - constructor; [apply Hl|done|done|by rewrite Hscan].
  - intros Hd Hw. constructor; [apply Hl|done| |by rewrite Hscan].
    intros name' Hname'. simplify_eq. exists files, (data +:+ p).
    constructor; [done|done|apply Ho|]. rewrite Hscan. apply Hd.
Qed.

Definition fits (r : OutboxRecord) (dir : StreamDir) (opens : bool) (kept : list (string * OutboxRecord))
    : Prop :=
  place r (sd_name dir) (sn_placed (scan_dir dir)) opens (sn_after_damage (scan_dir dir)) ack = Ok kept.

Lemma write_segment_spec w dir name files data r io kept res w' dir' :
  layout w dir → few_segments w → sw_segment w = Some name → open_segment dir name files data →
  (∃ text, ob_line r = text +:+ String NEWLINE "" ∧ has_char NEWLINE text = false) →
  parse_line sha256 (ob_line r) = Ok r → fits r dir (Nat.eqb (String.length data) 0) kept →
  match wi_write io with
  | None => (Ok tt, (w, append_file name (ob_line r) dir))
  | Some n => (Err (mkOutboxError "WRITE_FAILED" "a record was not confirmed"),
               (w, append_file name (landed n (ob_line r)) dir))
  end = (res, (w', dir')) →
  w' = w ∧ sd_name dir' = sd_name dir ∧
  layout (match res with Ok _ => w' | Err _ => abandon_segment w' end) dir' ∧
  match res with
  | Ok _ => sn_placed (scan_dir dir') = (kept ++ [(name, r)])%list ∧ sn_after_damage (scan_dir dir') = false
  | Err _ => sn_placed (scan_dir dir') = sn_placed (scan_dir dir) ∨
             sn_placed (scan_dir dir') = (kept ++ [(name, r)])%list
  end.
Proof.
  intros Hl Hfew Hsegment Ho Hline Hparse Hfits Hio.
  assert (sn_stopped (scan_dir dir) = false) as Hrun by apply Hl.
  pose proof (scan_dir_last _ _ _ _ Ho) as Hlast. pose proof (os_damage _ _ _ _ Ho) as Hdam.
  unfold fits in Hfits. rewrite Hlast in Hrun, Hdam, Hfits.
  pose proof (scan_added_record sha256 (sd_name dir) ack name data _ r kept Hdam (os_whole _ _ _ _ Ho)
    Hline Hparse Hfits) as Hwhole.
  destruct (append_layout w dir name files data (ob_line r) _ Hl Hfew Ho Hsegment Hwhole Hrun)
    as (Hscan & Hl1 & Hl2).
  destruct (wi_write io) as [n|]; injection Hio as <- <- <-.
  - destruct Hline as (text & Htext & Hone). split; [done|]. split; [done|].
    rewrite Htext in *. destruct (landed_cases n text Hone) as [->|Hp].
    { split; [done|]. right. by rewrite Hscan. }
    destruct (decide (landed n (text +:+ String NEWLINE "") = "")) as [->|Hne].
    + destruct (append_layout w dir name files data "" _ Hl Hfew Ho Hsegment eq_refl) as (Hs & Hl3 & _).
      { by rewrite string_app_nil. }
      split; [done|]. left. by rewrite Hs, string_app_nil, <- Hlast.
    + destruct (scan_added_torn sha256 (sd_name dir) ack name data _ _ Hdam (os_whole _ _ _ _ Ho) Hne Hp)
        as [damage Htorn].
      destruct (append_layout w dir name files data _ _ Hl Hfew Ho Hsegment Htorn Hrun) as (Hs & Hl3 & _).
      split; [done|]. left. by rewrite Hs, Hlast.
  - split; [done|]. split; [done|]. split.
    + apply Hl2; [done|]. destruct Hline as (text & -> & _). apply whole_lines_line.
    + by rewrite Hscan.
Qed.

Lemma write_bytes_spec w dir r force io kept res w' dir' :
  layout w dir →
  (∃ text, ob_line r = text +:+ String NEWLINE "" ∧ has_char NEWLINE text = false) →
  parse_line sha256 (ob_line r) = Ok r →
  (∀ opens, opens = true ∨ force = false → fits r dir opens kept) →
  write_bytes r force io (w, dir) = (res, (w', dir')) → few_segments w' →
  same_core w w' ∧ (sw_segment_index w ≤ sw_segment_index w')%nat ∧ sd_name dir' = sd_name dir ∧
  layout (match res with Ok _ => w' | Err _ => abandon_segment w' end) dir' ∧
  match res with
  | Ok _ => ∃ name, sn_placed (scan_dir dir') = (kept ++ [(name, r)])%list ∧
                    sn_after_damage (scan_dir dir') = false
  | Err _ => sn_placed (scan_dir dir') = sn_placed (scan_dir dir) ∨
             ∃ name, sn_placed (scan_dir dir') = (kept ++ [(name, r)])%list
  end.
Proof.
  intros Hl Hline Hparse Hfits Hw Hfew. unfold write_bytes in Hw. apply eff_bind_eq in Hw.
  destruct Hw as [(must_roll & s & Hm & Hw)|(e & Hm & _)]; [|done]. injection Hm as Hmust <-.
  apply eff_bind_eq in Hw. destruct Hw as [([] & [w1 dir1] & Hroll & Hw)|(e & Hroll & ->)].
  - (* the segment is open *)
    assert (∃ name files data, same_core w w1 ∧ (sw_segment_index w ≤ sw_segment_index w1)%nat ∧
      layout w1 dir1 ∧ scan_dir dir1 = scan_dir dir ∧ sd_name dir1 = sd_name dir ∧
      sw_segment w1 = Some name ∧ open_segment dir1 name files data ∧ (data = "" ∨ force = false))
      as (name & files & data & Hsame & Hidx & Hl1 & Hscan & Hname & Hseg & Ho & Hdata).
    { destruct must_roll.
      - apply roll_spec in Hroll; [|done].
        destruct Hroll as (? & ? & ? & ? & ? & name & files & ? & ?). exists name, files, "". auto 10.
      - injection Hroll as <- <-. simpl in Hmust. apply orb_false_iff in Hmust as [Hmust _].
        apply orb_false_iff in Hmust as [Hforce Hnone%bool_decide_eq_false].
        destruct (sw_segment w) as [name|] eqn:Hseg; [|done].
        destruct (ly_open _ _ Hl name Hseg) as (files & data & Ho).
        exists name, files, data. split_and!; try done. by right. }
    rewrite Hseg in Hw. assert (w' = w1) as -> by (destruct (wi_write io); by simplify_eq).
    eapply (write_segment_spec w1 dir1 name files data r io kept) in Hw; [|done..|].
    + destruct Hw as (_ & Hn & Hl2 & Hres). split; [done|]. split; [done|]. split; [congruence|].
      split; [done|]. rewrite Hscan in Hres. destruct res; naive_solver.
    + unfold fits. rewrite Hscan, Hname. apply Hfits. destruct Hdata as [->|]; auto.
  - destruct must_roll; [|done]. apply roll_spec in Hroll; [|done].
    destruct Hroll as (? & ? & Hl1 & Hscan & ? & _). split; [done|]. split; [done|]. split; [done|].
    split; [by apply layout_abandon|]. left. by rewrite Hscan.
Qed.

(** Each record follows the one before it, as the ledger will check. *)
Fixpoint linked (sequence : Z) (digest : string) (records : list OutboxRecord) : Prop :=
  match records with
  | [] => True
  | r :: rest => follows r sequence digest = Ok tt ∧ linked (ob_sequence r) (ob_digest r) rest
  end.

(** The sequence and digest a prefix ends with. *)
Definition end_from (sequence : Z) (digest : string) (records : list OutboxRecord) : Z * string :=
  match last records with Some r => (ob_sequence r, ob_digest r) | None => (sequence, digest) end.
Definition end_of (records : list OutboxRecord) : Z * string := end_from 0 GENESIS records.

Lemma end_from_cons s d x l : end_from s d (x :: l) = end_from (ob_sequence x) (ob_digest x) l.
Proof. unfold end_from. rewrite last_cons. by destruct (last l). Qed.

Lemma linked_snoc s d records r :
  linked s d (records ++ [r]) ↔
  linked s d records ∧ follows r (end_from s d records).1 (end_from s d records).2 = Ok tt.
Proof.
  revert s d. induction records as [|x l IH]; intros s d; [simpl; tauto|].
  rewrite end_from_cons. simpl. rewrite IH. tauto.
Qed.

(** The state of a writer and its directory, with the records it has confirmed. *)
Record stream_inv (w : StreamWriter) (dir : StreamDir) (confirmed : list OutboxRecord) : Prop := {
  si_layout : layout w dir;
  si_stream : is_hex 32 (sw_stream_id w) = true;
  si_prev : is_hex 64 (sw_prev w) = true;
  si_end : end_of confirmed = (sw_confirmed w, sw_prev w);
  si_range : Forall (λ r, 1 ≤ ob_sequence r ≤ sw_confirmed w) confirmed;
  si_sorted : StronglySorted (λ a b, ob_sequence a < ob_sequence b) confirmed;
  si_linked : linked 0 GENESIS confirmed;
  si_placed : ∃ extra, (sn_placed (scan_dir dir)).*2 = (confirmed ++ extra)%list ∧
    match sw_broken_from w with
    | None => extra = [] ∧ sn_after_damage (scan_dir dir) = false ∧ sw_next_seq w = sw_confirmed w + 1
    | Some b => b = sw_confirmed w + 1 ∧ b < sw_next_seq w ∧
                (extra = [] ∨ ∃ x, extra = [x] ∧ b ≤ ob_sequence x)
    end
}.

Lemma confirmed_nonneg w dir confirmed : stream_inv w dir confirmed →
  0 ≤ sw_confirmed w ∧ sw_confirmed w < sw_next_seq w.
Proof.
  intros [_ _ _ He Hr _ _ (extra & _ & Hp)].
  assert (0 ≤ sw_confirmed w) as H0.
  { unfold end_of, end_from in He. destruct (last confirmed) as [r|] eqn:Hl; simplify_eq; [|lia].
    rewrite Forall_forall in Hr. specialize (Hr r). apply last_Some_elem_of in Hl. apply Hr in Hl. lia. }
  split; [done|]. destruct (sw_broken_from w); lia.
Qed.

Lemma layout_ext w w' dir :
  sw_stream_id w' = sw_stream_id w → sw_segment_index w' = sw_segment_index w →
  sw_segment w' = sw_segment w → layout w dir → layout w' dir.
Proof. intros Hs Hi Hg [Hn Hin Ho Hr]. constructor; rewrite ?Hs, ?Hi, ?Hg; done. Qed.

(** A record the writer has just framed. *)
Abbreviation next_frame w payload eid := (framed sha256 (sw_stream_id w) (sw_next_seq w) (sw_prev w) payload eid).

Lemma confirmed_snoc w dir confirmed r w' dir' name :
  stream_inv w dir confirmed →
  ob_sequence r = sw_next_seq w → is_hex 64 (ob_digest r) = true →
  follows r (sw_confirmed w) (sw_prev w) = Ok tt →
  layout w' dir' → sw_stream_id w' = sw_stream_id w → sw_prev w' = ob_digest r →
  sw_confirmed w' = ob_sequence r → sw_next_seq w' = ob_sequence r + 1 → sw_broken_from w' = None →
  (∃ kept, kept.*2 = confirmed ∧ sn_placed (scan_dir dir') = (kept ++ [(name, r)])%list) →
  sn_after_damage (scan_dir dir') = false →
  stream_inv w' dir' (confirmed ++ [r]).
Proof.
  intros Hinv Hseq Hdig Hfol Hl Hs Hp Hc Hn Hb (kept & Hkept & Hplaced) Had.
  pose proof (confirmed_nonneg _ _ _ Hinv) as [H0 Hlt]. destruct Hinv as [_ Hstream _ He Hr Hsort Hlink _].
  constructor; [done|congruence|congruence| | | | |].
  - unfold end_of, end_from. rewrite last_snoc. congruence.
  - apply Forall_app. split.
    + eapply Forall_impl; [exact Hr|]. simpl. lia.
    + constructor; [lia|constructor].
  - apply StronglySorted_app_2; [|done|repeat constructor].
    rewrite Forall_forall in Hr. intros x y Hx ->%list_elem_of_singleton. specialize (Hr x Hx). lia.
  - apply linked_snoc. split; [done|]. change (end_from 0 GENESIS confirmed) with (end_of confirmed).
    by rewrite He.
  - exists []. rewrite Hb, Hplaced, fmap_app, Hkept, app_nil_r. split; [done|]. split; [done|]. split; [done|]. lia.
Qed.

Lemma write_record_framed w dir payload eid force io r :
  frame sha256 (sw_stream_id w) (sw_next_seq w) (sw_prev w) payload eid = Some r →
  write_record sha256 payload eid force io (w, dir) =
  match write_bytes r force io (take_sequence w, dir) with
  | (Ok _, (w, dir)) => (Ok r, (confirm r w, dir))
  | (Err _, (w, dir)) =>
      let w := match sw_broken_from w with
               | None => set_broken (Some (ob_sequence r)) w
               | Some _ => w
               end in
      (Err (mkOutboxError "WRITE_FAILED" "a record was not confirmed"), (abandon_segment w, dir))
  end.
Proof. intros Hr. unfold write_record. by rewrite Hr. Qed.

Lemma write_record_spec w dir confirmed payload eid force io kept res w' dir' :
  stream_inv w dir confirmed →
  frameable (sw_stream_id w) (sw_next_seq w) (sw_prev w) payload eid → kept.*2 = confirmed →
  (∀ r, next_frame w payload eid r →
    (∀ opens, opens = true ∨ force = false → fits r dir opens kept) ∧
    follows r (sw_confirmed w) (sw_prev w) = Ok tt) →
  write_record sha256 payload eid force io (w, dir) = (res, (w', dir')) → few_segments w' →
  (sw_segment_index w ≤ sw_segment_index w')%nat ∧
  match res with
  | Ok r => next_frame w payload eid r ∧ stream_inv (set_broken None w') dir' (confirmed ++ [r]) ∧
            sw_broken_from w' = sw_broken_from w
  | Err _ => stream_inv w' dir' confirmed
  end.
Proof.
  intros Hinv Hframe Hkept Hnew Hw Hfew. pose proof (confirmed_nonneg _ _ _ Hinv) as [H0 Hlt].
  destruct (frame_parses _ sha256_hex _ _ _ _ _ Hframe) as (r & Hr & Hf).
  rewrite (write_record_framed _ _ _ _ _ _ _ Hr) in Hw. destruct (Hnew r Hf) as [Hfit Hfol].
  assert (layout (take_sequence w) dir) as Hl by (eapply layout_ext; [..|apply Hinv]; done).
  destruct (write_bytes r force io (take_sequence w, dir)) as [res1 [w1 dir1]] eqn:Hwb.
  assert (few_segments w1) as Hfew1.
  { destruct res1; injection Hw as <- <- <-; [done|]. unfold few_segments in *. by destruct (sw_broken_from w1). }
  apply (write_bytes_spec _ _ _ _ _ kept) in Hwb;
    [|done|exact (fr_line _ _ _ _ _ _ _ Hf)|exact (fr_parse _ _ _ _ _ _ _ Hf)|exact Hfit|exact Hfew1].
  destruct Hwb as ((Hs & Hn & Hp & Hc & Hb) & Hidx & Hdn & Hl1 & Hplaced).
  simpl in Hs, Hn, Hp, Hc, Hb, Hidx. clear Hr Hframe Hnew.
  destruct res1 as [[]|e]; injection Hw as <- <- <-.
  - split; [done|]. split; [done|]. destruct Hplaced as (name & Hplaced & Had). split; [|done].
    pose proof (fr_sequence _ _ _ _ _ _ _ Hf) as Hseq.
    apply (confirmed_snoc w dir confirmed r _ _ name);
      [done|done|by eapply fr_digest|done|by eapply layout_ext; [..|exact Hl1]|done..| |done|by exists kept|done].
    simpl. by rewrite Hn, Hseq.
  - split; [by destruct (sw_broken_from w1)|]. rewrite Hb.
    destruct Hinv as [_ Hstream Hprev He Hrange Hsort Hlink (extra & Hx & Hbroken)].
    assert (layout (abandon_segment (match sw_broken_from w with
      | Some _ => w1 | None => set_broken (Some (ob_sequence r)) w1 end)) dir1) as Hl2.
    { eapply layout_ext; [..|exact Hl1]; by destruct (sw_broken_from w). }
    pose proof (fr_sequence _ _ _ _ _ _ _ Hf) as Hseq.
    assert (∃ extra', (sn_placed (scan_dir dir1)).*2 = (confirmed ++ extra')%list ∧
      (extra' = extra ∨ extra' = [r])) as (extra' & Hx' & Hcases).
    { destruct Hplaced as [->|(name & ->)]; [by eauto|]. exists [r]. rewrite fmap_app, Hkept. auto. }
    destruct (sw_broken_from w) as [b|] eqn:Hbr; simpl; constructor; simpl; try congruence; try done;
      try (eapply Forall_impl; [exact Hrange|]; simpl; lia); exists extra'; (split; [done|]).
    + rewrite Hb, Hn, Hc. destruct Hbroken as (-> & Hbn & Hextra). split; [done|]. split; [lia|].
      destruct Hcases as [->| ->]; [done|]. right. exists r. split; [done|]. lia.
    + rewrite Hn, Hc. destruct Hbroken as (-> & _ & Hnext). split; [lia|]. split; [lia|].
      destruct Hcases as [->| ->]; [by left|]. right. exists r. split; [done|]. lia.
Qed.

(** A plain record follows the last confirmed one; a gap, too, and retracts what
    was left unconfirmed. *)
Lemma plain_fits w dir confirmed payload eid r :
  stream_inv w dir confirmed → sw_broken_from w = None → json_ok (JObject payload) →
  has_kind GAP_KIND payload = false → next_frame w payload eid r →
  (∀ opens, fits r dir opens (sn_placed (scan_dir dir))) ∧
  (sn_placed (scan_dir dir)).*2 = confirmed ∧ follows r (sw_confirmed w) (sw_prev w) = Ok tt.
Proof.
  intros [Hl _ _ He _ _ _ (extra & Hx & Hp)] Hb Hok Hk Hf. rewrite Hb in Hp. destruct Hp as (-> & Had & Hn).
  rewrite app_nil_r in Hx. destruct Hf as [Hs Hq Hpr Hpay _ _ _].
  assert (has_kind GAP_KIND (ob_payload r) = false) as Hk' by (by rewrite Hpay, has_kind_sorted).
  assert (base (sn_placed (scan_dir dir)) = (sw_confirmed w, sw_prev w)) as Hbase.
  { rewrite <- He, <- Hx. unfold base, end_of, end_from. rewrite fmap_last.
    by destruct (last (sn_placed (scan_dir dir))) as [[]|]. }
  split_and!; [|done|].
  - intros opens. unfold fits, place. rewrite (ly_name _ _ Hl), Hs, String.eqb_refl, Hk', Had, Hbase. simpl.
    rewrite Hq, Hpr, Hn, Z.eqb_refl, String.eqb_refl. simpl. case_bool_decide as Hnil; simpl; [|done].
    rewrite Hnil in Hbase. unfold base in Hbase. simpl in Hbase. injection Hbase as <- _. done.
  - unfold follows. by rewrite Hk', Hq, Hpr, Hn, Z.eqb_refl, String.eqb_refl.
Qed.

Definition is_gap (r : OutboxRecord) : Prop := has_kind GAP_KIND (ob_payload r) = true.

Lemma kept_below_app first l extra :
  Forall (λ item, ob_sequence item.2 < first) l → Forall (λ item, first ≤ ob_sequence item.2) extra →
  kept_below first (l ++ extra) = l.
Proof.
  induction 1 as [|item l Hi Hl IH]; intros He; simpl.
  - destruct He as [|item extra Hi _]; simpl; [done|]. by rewrite (proj2 (Z.leb_le _ _)).
  - rewrite (proj2 (Z.leb_gt _ _)) by lia. by rewrite IH.
Qed.

Lemma gap_kept w dir confirmed b : stream_inv w dir confirmed → sw_broken_from w = Some b →
  let kept := kept_below b (sn_placed (scan_dir dir)) in
  kept.*2 = confirmed ∧ base kept = (sw_confirmed w, sw_prev w) ∧ b = sw_confirmed w + 1 ∧ b < sw_next_seq w.
Proof.
  intros [_ _ _ He Hr _ _ (extra & Hx & Hp)] Hb. rewrite Hb in Hp. destruct Hp as (-> & Hlt & Hextra).
  apply fmap_app_inv in Hx as (kept & extra' & Hc & He' & Hplaced).
  assert (kept_below (sw_confirmed w + 1) (sn_placed (scan_dir dir)) = kept) as ->.
  { rewrite Hplaced. apply kept_below_app.
    - rewrite Hc, Forall_fmap in Hr. eapply Forall_impl; [exact Hr|]. simpl. lia.
    - destruct Hextra as [->|(x & -> & Hx)]; [by destruct extra'|].
      destruct extra' as [|i [|]]; simplify_eq/=. constructor; [done|constructor]. }
  split_and!; [done| |done|done].
  rewrite <- He, Hc. unfold base, end_of, end_from. rewrite fmap_last. by destruct (last kept) as [[]|].
Qed.

Lemma gap_fits w dir confirmed b eid r :
  stream_inv w dir confirmed → sw_broken_from w = Some b →
  next_frame w (gap_payload b (sw_next_seq w - 1)) eid r →
  fits r dir true (kept_below b (sn_placed (scan_dir dir))) ∧ is_gap r ∧
  follows r (sw_confirmed w) (sw_prev w) = Ok tt.
Proof.
  intros Hinv Hb Hf. pose proof (confirmed_nonneg _ _ _ Hinv) as [H0 _].
  destruct (gap_kept _ _ _ _ Hinv Hb) as (_ & Hbase & -> & Hlt).
  destruct Hf as [Hs Hq Hpr Hpay _ _ _].
  destruct (gap_fields (sw_confirmed w + 1) (sw_next_seq w - 1)) as (_ & Hk & Hfrom & Hto).
  rewrite <- Hpay in Hk, Hfrom, Hto. split_and!; [|done|].
  - unfold fits, place.
    rewrite (ly_name _ _ (si_layout _ _ _ Hinv)), Hs, String.eqb_refl, Hk, Hfrom, Hto, Hbase, Hq, Hpr.
    rewrite (proj2 (Z.leb_le 1 _)), (proj2 (Z.leb_le _ _)), (proj2 (Z.eqb_eq _ _)) by lia. simpl.
    rewrite (proj2 (Z.eqb_eq (sw_confirmed w) _)), String.eqb_refl by lia. simpl.
    case_bool_decide as Hnil; simpl; [done|]. rewrite Hnil in Hbase.
    unfold base in Hbase. simpl in Hbase. injection Hbase as <- _. done.
  - unfold follows. rewrite Hk, Hfrom, Hto, Hq, Hpr, String.eqb_refl.
    rewrite !(proj2 (Z.eqb_eq _ _)), (proj2 (Z.leb_le _ _)) by lia. done.
Qed.

(** What an append must be given: a JSON payload that is not a gap, and event ids
    of the form of [uuid4().hex]. *)
Definition append_ok (payload : odict string json) (event_id : option string) (io : AppendIo) : Prop :=
  json_ok (JObject payload) ∧ has_kind GAP_KIND payload = false ∧
  is_hex 32 (ai_gap_id io) = true ∧ is_hex 32 (default (ai_record_id io) event_id) = true.

Lemma inv_ext w w' dir confirmed :
  stream_inv w dir confirmed →
  sw_stream_id w' = sw_stream_id w → sw_segment_index w' = sw_segment_index w →
  (sw_segment w' = sw_segment w ∨ sw_segment w' = None) → sw_next_seq w' = sw_next_seq w →
  sw_prev w' = sw_prev w → sw_confirmed w' = sw_confirmed w → sw_broken_from w' = sw_broken_from w →
  stream_inv w' dir confirmed.
Proof.
  intros [Hl Hs Hp He Hr Hsort Hlink Hpl] E1 E2 E3 E4 E5 E6 E7.
  constructor; rewrite ?E1, ?E4, ?E5, ?E6, ?E7; try done.
  destruct E3; [by eapply layout_ext; [..|exact Hl]|].
  apply layout_abandon in Hl. by eapply layout_ext; [..|exact Hl].
Qed.

Lemma set_broken_id w : sw_broken_from w = None → set_broken None w = w.
Proof. destruct w. simpl. by intros ->. Qed.

Lemma write_gap_spec io w dir confirmed res w' dir' :
  stream_inv w dir confirmed → is_hex 32 (ai_gap_id io) = true →
  write_gap sha256 io (w, dir) = (res, (w', dir')) → few_segments w' →
  (sw_segment_index w ≤ sw_segment_index w')%nat ∧
  ∃ gaps, Forall is_gap gaps ∧ stream_inv w' dir' (confirmed ++ gaps) ∧
  match res with Ok _ => sw_broken_from w' = None | Err _ => True end.
Proof.
  intros Hinv Hid Hw Hfew. unfold write_gap in Hw. destruct (sw_broken_from w) as [b|] eqn:Hb.
  2:{ injection Hw as <- <- <-. split; [done|]. exists []. rewrite app_nil_r. by split. }
  pose proof (confirmed_nonneg _ _ _ Hinv) as [H0 Hlt].
  assert (stream_inv (abandon_segment w) dir confirmed) as Hinv'.
  { by eapply inv_ext; [exact Hinv|..]; auto. }
  destruct (write_record sha256 (gap_payload b (sw_next_seq w - 1)) (ai_gap_id io) true (ai_gap io)
    (abandon_segment w, dir)) as [res1 [w1 dir1]] eqn:Hwr.
  assert (few_segments w1) as Hfew1 by (by destruct res1; injection Hw as <- <- <-).
  apply (write_record_spec _ _ confirmed _ _ _ _ (kept_below b (sn_placed (scan_dir dir)))) in Hwr;
    [|done|split_and!; [apply Hinv|simpl; lia|apply Hinv|apply gap_fields|done]
     |by apply (gap_kept _ _ _ _ Hinv)| |done].
  2:{ intros r Hf. destruct (gap_fits _ _ _ _ _ r Hinv' Hb Hf) as (Hfit & _ & Hfol). split; [|done].
      by intros opens [->|]. }
  destruct Hwr as [Hidx Hres]. destruct res1 as [r|e]; injection Hw as <- <- <-.
  - destruct Hres as (Hf & Hi & Hbr). split; [done|]. exists [r]. split; [|by split].
    constructor; [|constructor]. by apply (gap_fits _ _ _ _ _ r Hinv' Hb Hf).
  - split; [done|]. exists []. rewrite app_nil_r. by split.
Qed.

Lemma write_record_index payload eid force io w dir res w' dir' :
  write_record sha256 payload eid force io (w, dir) = (res, (w', dir')) →
  (sw_segment_index w ≤ sw_segment_index w')%nat.
Proof.
  intros Hw. unfold write_record in Hw. destruct (frame _ _ _ _ _ _) as [r|]; [|by simplify_eq].
  destruct (write_bytes r force io (take_sequence w, dir)) as [res1 [w1 dir1]] eqn:Hwb.
  assert (sw_segment_index w ≤ sw_segment_index w1)%nat as Hle.
  { unfold write_bytes in Hwb. apply eff_bind_eq in Hwb as [(m & s & Hm & Hwb)|(? & Hm & _)]; [|done].
    injection Hm as _ <-. assert (∀ x s', (if m then roll io else λ s, (Ok tt, s)) (take_sequence w, dir) = (x, s') →
      (sw_segment_index w ≤ sw_segment_index s'.1)%nat) as Hroll.
    { intros x [w2 dir2] Hr. destruct m; [|by simplify_eq]. unfold roll in Hr.
      destruct (wi_roll io); simplify_eq; simpl; lia. }
    apply eff_bind_eq in Hwb as [([] & [w2 dir2] & Hr & Hwb)|(e & Hr & _)]; [|by apply Hroll in Hr].
    apply Hroll in Hr. simpl in Hr. destruct (sw_segment w2); [destruct (wi_write io)|]; by simplify_eq. }
  destruct res1; injection Hw as _ <- _; [done|]. simpl. by destruct (sw_broken_from w1).
Qed.

Lemma append_index payload event_id io w dir res w' dir' :
  append sha256 payload event_id io (w, dir) = (res, (w', dir')) →
  (sw_segment_index w ≤ sw_segment_index w')%nat.
Proof.
  intros Hw. unfold append in Hw.
  apply eff_bind_eq in Hw as [(s & s' & Hs & Hw)|(e & Hs & _)]; [|done]. injection Hs as <- <-.
  assert (∀ x s', (if sw_closed w then λ s, (Err (mkOutboxError "CLOSED" "the stream writer is closed"), s)
    else if sw_locked w then λ s, (Ok tt, s) else open_stream io) (w, dir) = (x, s') →
    sw_segment_index s'.1 = sw_segment_index w) as Hopen.
  { intros x s' Hx. destruct (sw_closed w); [by simplify_eq|]. destruct (sw_locked w); [by simplify_eq|].
    unfold open_stream in Hx. destruct (ai_open io) as [[]|]; by simplify_eq. }
  apply eff_bind_eq in Hw as [([] & [w1 dir1] & Ho & Hw)|(e & Ho & _)]; apply Hopen in Ho; simpl in Ho; [|lia].
  assert (∀ x s', check_size sha256 payload (default (ai_check_id io) event_id) (w1, dir1) = (x, s') →
    s' = (w1, dir1)) as Hcheck.
  { intros x s' Hx. unfold check_size in Hx. destruct (frame _ _ _ _ _ _) as [r|]; [|by simplify_eq].
    destruct (_ <? _)%N; by simplify_eq. }
  apply eff_bind_eq in Hw as [([] & s2 & Hs & Hw)|(e & Hs & _)]; apply Hcheck in Hs; simplify_eq; [|lia].
  assert (∀ x s', write_gap sha256 io (w1, dir1) = (x, s') → (sw_segment_index w1 ≤ sw_segment_index s'.1)%nat)
    as Hgap.
  { intros x [w2 dir2] Hx. unfold write_gap in Hx. destruct (sw_broken_from w1); [|by simplify_eq].
    destruct (write_record _ _ _ _ _ _) as [res1 [w3 dir3]] eqn:Hr. apply write_record_index in Hr.
    simpl in Hr. destruct res1; by simplify_eq. }
  apply eff_bind_eq in Hw as [([] & [w2 dir2] & Hg & Hw)|(e & Hg & _)]; apply Hgap in Hg; simpl in Hg; [|lia].
  apply write_record_index in Hw. lia.
Qed.

(** One append: what it confirms is added, and it returns the record it confirmed. *)
Lemma append_spec payload event_id io w dir confirmed res w' dir' :
  stream_inv w dir confirmed → append_ok payload event_id io →
  append sha256 payload event_id io (w, dir) = (res, (w', dir')) → few_segments w' →
  (sw_segment_index w ≤ sw_segment_index w')%nat ∧
  ∃ gaps, Forall is_gap gaps ∧
  match res with
  | Ok r => stream_inv w' dir' (confirmed ++ gaps ++ [r]) ∧ ob_payload r = sorted_payload payload ∧
            sw_broken_from w' = None ∧ sw_confirmed w' = ob_sequence r
  | Err _ => stream_inv w' dir' (confirmed ++ gaps)
  end.
Proof.
  intros Hinv (Hok & Hk & Hg & Hid) Hw Hfew. unfold append in Hw.
  apply eff_bind_eq in Hw as [(s & s' & Hs & Hw)|(e & Hs & _)]; [|done]. injection Hs as <- <-.
  assert (∀ e, res = Err e → w' = w → dir' = dir → (sw_segment_index w ≤ sw_segment_index w')%nat ∧
    ∃ gaps, Forall is_gap gaps ∧ match res with
      | Ok r => stream_inv w' dir' (confirmed ++ gaps ++ [r]) ∧ ob_payload r = sorted_payload payload ∧
                sw_broken_from w' = None ∧ sw_confirmed w' = ob_sequence r
      | Err _ => stream_inv w' dir' (confirmed ++ gaps) end) as Hsame.
  { intros e -> -> ->. split; [done|]. exists []. by rewrite app_nil_r. }
  apply eff_bind_eq in Hw as [([] & [w1 dir1] & Hopen & Hw)|(e & Hopen & ->)].
  2:{ simpl in Hopen. destruct (sw_closed w); [injection Hopen as _ <- <-; by eapply Hsame|].
      destruct (sw_locked w); [done|]. unfold open_stream in Hopen.
      destruct (ai_open io) as [[]|]; [|done]. injection Hopen as _ <- <-. by eapply Hsame. }
  assert (stream_inv w1 dir1 confirmed ∧ sw_segment_index w1 = sw_segment_index w) as [Hinv1 Hidx1].
  { simpl in Hopen. destruct (sw_closed w); [done|]. destruct (sw_locked w); [by injection Hopen as <- <-|].
    unfold open_stream in Hopen. destruct (ai_open io) as [[]|]; [done|]. injection Hopen as <- <-.
    split; [|done]. eapply inv_ext; [exact Hinv|..]; auto. }
  clear Hsame Hopen Hinv.
  apply eff_bind_eq in Hw as [([] & [w2 dir2] & Hsize & Hw)|(e & Hsize & ->)].
  2:{ unfold check_size in Hsize. destruct (frame _ _ _ _ _ _) as [r|]; [destruct (_ <? _)%N|];
        try done; injection Hsize as _ <- <-; (split; [lia|]); exists []; by rewrite app_nil_r. }
  assert (w2 = w1 ∧ dir2 = dir1) as [-> ->].
  { unfold check_size in Hsize. destruct (frame _ _ _ _ _ _) as [r|]; [destruct (_ <? _)%N|]; by simplify_eq. }
  clear Hsize. apply eff_bind_eq in Hw as [([] & [w3 dir3] & Hgap & Hw)|(e & Hgap & ->)].
  2:{ apply (write_gap_spec _ _ _ confirmed) in Hgap; [|done..].
      destruct Hgap as (? & gaps & ? & ? & _). split; [lia|]. by exists gaps. }
  pose proof (write_record_index _ _ _ _ _ _ _ _ _ Hw) as Hidx3.
  assert (few_segments w3) as Hfew3 by (unfold few_segments in *; lia).
  apply (write_gap_spec _ _ _ confirmed) in Hgap; [|done..].
  destruct Hgap as (Hidx2 & gaps & Hgaps & Hinv3 & Hb). pose proof (confirmed_nonneg _ _ _ Hinv3) as [H0 Hlt].
  assert (∀ r, next_frame w3 payload (default (ai_record_id io) event_id) r →
    (∀ opens, fits r dir3 opens (sn_placed (scan_dir dir3))) ∧
    (sn_placed (scan_dir dir3)).*2 = (confirmed ++ gaps)%list ∧ follows r (sw_confirmed w3) (sw_prev w3) = Ok tt)
    as Hfit by (intros r Hf; by eapply plain_fits).
  assert (frameable (sw_stream_id w3) (sw_next_seq w3) (sw_prev w3) payload (default (ai_record_id io) event_id))
    as Hframe by (split_and!; [apply Hinv3|lia|apply Hinv3|done|done]).
  apply (write_record_spec _ _ (confirmed ++ gaps) _ _ _ _ (sn_placed (scan_dir dir3))) in Hw; [|done|done|..|done].
  - destruct Hw as [_ Hres]. split; [lia|]. exists gaps. split; [done|]. destruct res as [r|e]; [|done].
    destruct Hres as (Hf & Hi & Hbr). rewrite Hb in Hbr. rewrite set_broken_id in Hi by done.
    rewrite <- app_assoc in Hi. split_and!; [done|by eapply fr_payload|done|].
    pose proof (si_end _ _ _ Hi) as He. unfold end_of, end_from in He.
    rewrite app_assoc, last_snoc in He. by injection He as -> _.
  - destruct (frame_parses _ sha256_hex _ _ _ _ _ Hframe) as (r0 & _ & Hf0). by apply (Hfit r0).
  - intros r Hf. destruct (Hfit r Hf) as (H1 & _ & H2). auto.
Qed.

Definition call_ok (c : outbox_call) : Prop :=
  match c with CallAppend payload event_id io => append_ok payload event_id io | CallClose => True end.

Definition new_stream (sid : string) (segment_bytes : nat) : StreamWriter * StreamDir * list OutboxRecord :=
  (new_writer sid segment_bytes, mkStreamDir sid [] None, []).

Lemma new_stream_inv sid segment_bytes : is_hex 32 sid = true →
  stream_inv (new_writer sid segment_bytes) (mkStreamDir sid [] None) [].
Proof.
  intros Hs. constructor; [|done..|by repeat constructor|by repeat constructor|done|by exists []].
  constructor; [done| |done|done]. exists []. split; [done|]. split; constructor.
Qed.

Lemma run_call_spec s c confirmed :
  stream_inv s.1.1 s.1.2 confirmed → call_ok c → filter (λ r, ¬ is_gap r) confirmed = s.2 →
  let s' := run_call sha256 s c in
  few_segments s'.1.1 →
  (sw_segment_index s.1.1 ≤ sw_segment_index s'.1.1)%nat ∧
  ∃ confirmed', stream_inv s'.1.1 s'.1.2 confirmed' ∧ filter (λ r, ¬ is_gap r) confirmed' = s'.2.
Proof.
  assert (∀ l, Forall is_gap l → filter (λ r, ¬ is_gap r) l = []) as Hgap.
  { intros l Hl. apply filter_nil_iff. intros r Hr Hn. rewrite Forall_forall in Hl. by apply Hn, Hl. }
  destruct s as [[w dir] returned]. intros Hinv Hok Hret s' Hfew. simpl in Hinv, Hret.
  destruct c as [payload event_id io|]; simpl in s'.
  - subst s'. simpl in *. destruct (append sha256 payload event_id io (w, dir)) as [res [w' dir']] eqn:Ha.
    assert (few_segments w') as Hfew' by (by destruct res).
    pose proof Ha as Ha'. apply (append_spec _ _ _ _ _ confirmed) in Ha'; [|done..].
    destruct Ha' as (Hidx & gaps & Hgaps & Hres). destruct res as [r|e]; simpl.
    + destruct Hres as (Hi & Hpay & _). split; [done|]. exists (confirmed ++ gaps ++ [r])%list. split; [done|].
      rewrite !filter_app, Hret, Hgap, app_nil_l by done. f_equal.
      rewrite filter_cons_True; [done|]. unfold is_gap. rewrite Hpay.
      destruct Hok as (Hj & Hk & _). by rewrite has_kind_sorted, Hk.
    + split; [done|]. exists (confirmed ++ gaps)%list. split; [done|].
      rewrite filter_app, Hret, Hgap by done. apply app_nil_r.
  - subst s'. simpl in *. split; [done|]. exists confirmed. split; [|done].
    eapply inv_ext; [exact Hinv|..]; auto.
Qed.

Lemma run_calls_spec sid segment_bytes calls : is_hex 32 sid = true → Forall call_ok calls →
  let s := foldl (run_call sha256) (new_stream sid segment_bytes) calls in
  few_segments s.1.1 →
  ∃ confirmed, stream_inv s.1.1 s.1.2 confirmed ∧ filter (λ r, ¬ is_gap r) confirmed = s.2.
Proof.
  intros Hsid. induction calls as [|c calls IH] using rev_ind; intros Hok.
  { intros s _. exists []. split; [by apply new_stream_inv|done]. }
  apply Forall_app in Hok as [Hok Hc]. inversion_clear Hc as [|?? Hc' _]. rewrite foldl_app. simpl.
  set (s := foldl (run_call sha256) (new_stream sid segment_bytes) calls) in *. intros Hfew.
  (* the number of segments only grows *)
  assert (sw_segment_index s.1.1 ≤ sw_segment_index (run_call sha256 s c).1.1)%nat as Hidx.
  { clearbody s. destruct c as [payload event_id io|]; [|done]. simpl. destruct s as [[w dir] ret]. simpl.
    destruct (append sha256 payload event_id io (w, dir)) as [res [w' dir']] eqn:Ha.
    apply append_index in Ha. by destruct res. }
  destruct (IH Hok) as (confirmed & Hinv & Hret); [unfold few_segments in *; lia|].
  destruct (run_call_spec s c confirmed Hinv Hc' Hret Hfew) as [_ Hx]. exact Hx.
Qed.

Lemma inv_ack_log w dir confirmed log : stream_inv w dir confirmed →
  stream_inv w (mkStreamDir (sd_name dir) (sd_segments dir) log) confirmed.
Proof.
  intros [[Hn Hi Ho Hr] Hs Hp He Hra Hso Hli Hpl]. constructor; try done. constructor; try done.
  intros name Hname. destruct (Ho name Hname) as (files & data & [H1 H2 H3 H4]). by exists files, data.
Qed.
End writer_facts.

(** The acknowledgement names a record of the list. *)
Definition acknowledged (ack : option Ack) (records : list OutboxRecord) : Prop :=
  match ack with
  | None => True
  | Some a => ∃ r, r ∈ records ∧ ob_sequence r = ak_sequence a ∧ ob_digest r = ak_digest a
  end.

Lemma filter_keeps {A} (P : A → Prop) `{∀ x, Decision (P x)} (l : list A) :
  Forall P l → filter P l = l.
Proof. induction 1; [done|]. rewrite filter_cons_True by done. by f_equal. Qed.

Lemma filter_sequence (l : list OutboxRecord) r : StronglySorted (λ a b, ob_sequence a < ob_sequence b) l →
  r ∈ l → filter (λ x, ob_sequence x = ob_sequence r) l = [r].
Proof.
  induction 1 as [|x l Hl IH Hx]; [by intros ?%elem_of_nil|]. rewrite Forall_forall in Hx.
  intros [->|Hr]%elem_of_cons.
  - rewrite filter_cons_True by done. f_equal. apply filter_nil_iff. intros y Hy. apply Hx in Hy. lia.
  - rewrite filter_cons_False; [by apply IH|]. apply Hx in Hr. lia.
Qed.

Section scan_facts.
Variable sha256 : string → string.
Variable w : StreamWriter.
Variable dir : StreamDir.
Variable confirmed : list OutboxRecord.
Hypothesis inv : stream_inv sha256 (read_ack sha256 dir) w dir confirmed.
Hypothesis few : few_segments w.
Hypothesis acked : acknowledged (read_ack sha256 dir) confirmed.
Abbreviation ack := (read_ack sha256 dir).
Abbreviation placed := (sn_placed (scan_dir sha256 ack dir)).

Lemma scan_in_order :
  foldl (scan_segment sha256 (sd_name dir) ack) (mkScanState [] [] false false) (segments_in_order dir) =
  scan_dir sha256 ack dir.
Proof.
  destruct (ly_indices _ _ _ _ (si_layout _ _ _ _ _ inv)) as (indices & Hi & Hs & Hb).
  unfold segments_in_order. unfold scan_dir, scan_files.
  destruct (segments_sorted _ _ Hi Hs) as [_ ->]; [|done].
  eapply Forall_impl; [exact Hb|]. simpl. unfold few_segments in few. lia.
Qed.

(** The placed records: the confirmed ones and at most one more. *)
Lemma placed_confirmed : ∃ extra, placed.*2 = (confirmed ++ extra)%list ∧
  (extra = [] ∨ ∃ x, extra = [x] ∧ sw_confirmed w < ob_sequence x).
Proof.
  destruct (si_placed _ _ _ _ _ inv) as (extra & Hx & Hb). exists extra. split; [done|].
  destruct (sw_broken_from w); [|naive_solver]. destruct Hb as (-> & _ & [->|(x & -> & Hlt)]); [by left|].
  right. exists x. split; [done|]. lia.
Qed.

(** The anchor of an acknowledgement holds. *)
Lemma anchor_holds damage : check_anchor ack placed damage = (placed, damage).
Proof.
  destruct placed_confirmed as (extra & Hx & _). unfold acknowledged in acked.
  revert Hx. generalize (sn_placed (scan_dir sha256 ack dir)) as p. intros p Hx. unfold check_anchor.
  destruct ack as [a|]; [|done]. destruct acked as (r & Hr & Hs & Hd). rewrite Hx.
  destruct p as [|[name first] rest]; [done|]. destruct (_ <=? _); [|done].
  rewrite filter_app, <- Hs, filter_sequence by (apply inv || done). simpl. by rewrite Hd, String.eqb_refl.
Qed.

Lemma scan_records orphan : ss_records (scan_stream sha256 dir orphan) =
  match withheld_tail orphan ack placed with Some _ => removelast placed | None => placed end.*2.
Proof. unfold scan_stream. by rewrite scan_in_order, anchor_holds. Qed.

Lemma removelast_fmap {A B} (f : A → B) (l : list A) : f <$> removelast l = removelast (f <$> l).
Proof. induction l as [|x [|y l] IH]; [done..|]. cbn [removelast fmap list_fmap] in *. by rewrite <- IH. Qed.

Lemma scan_live : filter (λ r, ob_sequence r ≤ sw_confirmed w) (ss_records (scan_stream sha256 dir false)) = confirmed.
Proof.
  rewrite scan_records.
  assert (withheld_tail false ack placed = None) as -> by (unfold withheld_tail; by destruct (last _) as [[]|]).
  destruct placed_confirmed as (extra & -> & Hextra). rewrite filter_app.
  rewrite (filter_keeps _ confirmed), (proj2 (filter_nil_iff _ extra)), app_nil_r; [done|..].
  - intros x Hx Hle. destruct Hextra as [->|(y & -> & Hy)]; [by apply elem_of_nil in Hx|].
    apply list_elem_of_singleton in Hx as ->. lia.
  - eapply Forall_impl; [apply inv|]. simpl. lia.
Qed.

Lemma scan_orphan (l := ss_records (scan_stream sha256 dir true)) :
  l = confirmed ∨ l = removelast confirmed ∨
  ∃ x, l = (confirmed ++ [x])%list ∧ has_kind STREAM_END_KIND (ob_payload x) = true.
Proof.
  subst l. rewrite scan_records. destruct placed_confirmed as (extra & Hx & Hextra).
  assert (∀ b : bool, (if b then removelast placed else placed).*2 =
    if b then removelast (confirmed ++ extra) else (confirmed ++ extra)%list) as Hcase.
  { intros []; [|done]. by rewrite removelast_fmap, Hx. }
  assert (match withheld_tail true ack placed with Some _ => removelast placed | None => placed end =
    if bool_decide (is_Some (withheld_tail true ack placed)) then removelast placed else placed) as ->.
  { by destruct (withheld_tail true ack placed). }
  rewrite Hcase. destruct Hextra as [->|(x & -> & Hlt)]; case_bool_decide as Htail.
  - rewrite app_nil_r. auto.
  - rewrite app_nil_r. auto.
  - rewrite removelast_last. auto.
  - right. right. exists x. split; [done|]. apply eq_None_not_Some in Htail. unfold withheld_tail in Htail.
    assert (∃ name, last placed = Some (name, x)) as (name & Hl).
    { assert (last placed.*2 = Some x) as Hl by (by rewrite Hx, last_snoc). rewrite fmap_last in Hl.
      apply fmap_Some in Hl as ([name y] & Hl & ->). by exists name. }
    rewrite Hl in Htail. destruct (has_kind STREAM_END_KIND (ob_payload x)); [done|]. simpl in Htail.
    exfalso. unfold acknowledged in acked. pose proof (si_range _ _ _ _ _ inv) as Hrange.
    destruct ack as [a|]; [|done]. destruct acked as (r & Hr & Hs & _). rewrite Forall_forall in Hrange.
    specialize (Hrange r Hr). rewrite (proj2 (Z.eqb_neq _ _)) in Htail by lia. done.
Qed.
End scan_facts.

(** C9: The outbox is crash consistent. Take any sequence of appends, each of whose
    writes may fail before its segment exists, or after any number of its bytes
    landed, or not fail, and any acknowledgement of a confirmed record. Then the
    records the reader finds up to the writer's confirmed sequence are exactly the
    ones whose append returned, in order, and the gaps that explain the sequences of
    the others; each follows the one before it as the ledger checks; and if the writer
    dies, the reader finds the same ones, or the same but the last, or one more that
    is the stream's orderly end. *)
Theorem outbox_scan_exact sha256 sid segment_bytes calls log :
  (∀ s, is_hex 64 (sha256 s) = true) → is_hex 32 sid = true → Forall call_ok calls →
  let '(w, dir0, returned) := foldl (run_call sha256) (new_stream sid segment_bytes) calls in
  let dir := mkStreamDir (sd_name dir0) (sd_segments dir0) log in
  few_segments w →
  ∃ confirmed,
    filter (λ r, ¬ is_gap r) confirmed = returned ∧ linked 0 GENESIS confirmed ∧
    (acknowledged (read_ack sha256 dir) confirmed →
     let orphan := ss_records (scan_stream sha256 dir true) in
     filter (λ r, ob_sequence r ≤ sw_confirmed w) (ss_records (scan_stream sha256 dir false)) = confirmed ∧
     (orphan = confirmed ∨ orphan = removelast confirmed ∨
      ∃ x, orphan = (confirmed ++ [x])%list ∧ has_kind STREAM_END_KIND (ob_payload x) = true)).
Proof.
  intros Hsha Hsid Hok.
  destruct (foldl (run_call sha256) (new_stream sid segment_bytes) calls) as [[w dir0] returned] eqn:Hrun.
  intros dir Hfew.
  destruct (run_calls_spec sha256 Hsha (read_ack sha256 dir) sid segment_bytes calls Hsid Hok)
    as (confirmed & Hinv & Hret); [by rewrite Hrun|].
  rewrite Hrun in Hinv, Hret. apply (inv_ack_log _ _ _ _ _ log) in Hinv. exists confirmed.
  split; [done|]. split; [apply Hinv|]. intros Hack.
  split; [by apply (scan_live _ _ _ _ Hinv)|by apply (scan_orphan _ _ _ _ Hinv)].
Qed.

(** * A stream with a failed write *)

(** A checksum of 64 hexadecimal digits, in the place of SHA-256. *)
Definition checksum (s : string) : N :=
  foldl (λ h c, ((h * 31 + Ascii.N_of_ascii c) mod 4294967296)%N) 7%N (String.list_ascii_of_string s).
Definition checksum_hex (s : string) : string :=
  hex4 (checksum s / 65536) +:+ hex4 (checksum s mod 65536) +:+ concat_all (replicate 56 "0").

Lemma checksum_is_hex s : is_hex 64 (checksum_hex s) = true.
Proof.
  assert (∀ n, (n < 16)%nat → hex_char (hex_digit n) = true) as Hd.
  { intros n Hn. do 16 (destruct n as [|n]; [reflexivity|]). lia. }
  assert (∀ v, ∃ a b c d, hex4 v = String a (String b (String c (String d ""))) ∧
    hex_char a && hex_char b && hex_char c && hex_char d = true) as Hhex.
  { intros v. unfold hex4. do 4 eexists. split; [reflexivity|].
    assert (∀ k, N.to_nat ((v / 16 ^ k) mod 16) < 16)%nat as Hk.
    { intros k. pose proof (N.mod_lt (v / 16 ^ k) 16). lia. }
    by rewrite !Hd by apply Hk. }
  unfold checksum_hex. destruct (Hhex (checksum s / 65536)%N) as (a & b & c & d & -> & H1).
  destruct (Hhex (checksum s mod 65536)%N) as (a' & b' & c' & d' & -> & H2).
  repeat (apply andb_true_iff in H1 as [H1 ?]). repeat (apply andb_true_iff in H2 as [H2 ?]).
  unfold is_hex. rewrite !string_cons_app, !string_nil_app. apply andb_true_iff. split; [reflexivity|].
  cbn [String.list_ascii_of_string forallb].
  repeat match goal with H : hex_char _ = true |- _ => rewrite H; clear H end. reflexivity.
Qed.

Definition example_id (c : string) : string := concat_all (replicate 32 c).
Definition write_fine : WriteIo := mkWriteIo None None.
Definition example_append (n : Z) (io : WriteIo) : outbox_call :=
  CallAppend [("n", JNumber (json_int n)); ("kind", JString "k")] None
    (mkAppendIo None write_fine io (example_id "1") (example_id "2") (example_id "3")).

(** Six records in segments of 600 bytes; the second write tears after 20 bytes. *)
Definition example_calls : list outbox_call :=
  [example_append 1 write_fine; example_append 2 (mkWriteIo None (Some 20%nat));
   example_append 3 write_fine; example_append 4 write_fine; example_append 5 write_fine;
   example_append 6 write_fine].
Definition example_run : StreamWriter * StreamDir * list OutboxRecord :=
  foldl (run_call checksum_hex) (new_stream (example_id "a") 600) example_calls.

Lemma example_append_ok n io : call_ok (example_append n io).
Proof.
  split_and!; try done. constructor.
  - apply (bool_decide_unpack _). vm_compute. exact I.
  - simpl. rewrite !Forall_cons. split_and!; try by apply ascii_valid. constructor.
  - simpl. rewrite !Forall_cons. split_and!; [apply written_int|by apply ok_string, ascii_valid|constructor].
Qed.

Lemma outbox_scan_exact_witness :
  (ob_sequence <$> example_run.2) = [1; 4; 5; 6; 7] ∧
  ∃ confirmed, filter (λ r, ¬ is_gap r) confirmed = example_run.2 ∧
    filter (λ r, ob_sequence r ≤ sw_confirmed example_run.1.1)
      (ss_records (scan_stream checksum_hex example_run.1.2 false)) = confirmed.
Proof.
  split; [vm_compute; reflexivity|].
  assert (∀ s, is_hex 64 (checksum_hex s) = true) as Hsha by apply checksum_is_hex.
  assert (is_hex 32 (example_id "a") = true) as Hid by (vm_compute; reflexivity).
  assert (Forall call_ok example_calls) as Hok.
  { unfold example_calls. rewrite !Forall_cons. split_and!; try apply example_append_ok. constructor. }
  pose proof (outbox_scan_exact checksum_hex (example_id "a") 600 example_calls None Hsha Hid Hok) as H.
  unfold example_run. destruct (foldl (run_call checksum_hex) (new_stream (example_id "a") 600) example_calls)
    as [[w dir] returned] eqn:Hrun.
  assert (few_segments w) as Hfew.
  { replace w with (foldl (run_call checksum_hex) (new_stream (example_id "a") 600) example_calls).1.1
      by (by rewrite Hrun). vm_compute. reflexivity. }
  destruct (H Hfew) as (confirmed & Hret & _ & Hscan). exists confirmed. split; [exact Hret|].
  assert (sd_ack_log dir = None) as Hlog.
  { replace dir with (foldl (run_call checksum_hex) (new_stream (example_id "a") 600) example_calls).1.2
      by (by rewrite Hrun). vm_compute. reflexivity. }
  destruct dir as [name files log]. simpl in Hlog. subst log. by apply Hscan.
Defined.

Definition ledger : string := example_id "c".

(** The acknowledgement of the gap that explains the torn record, and a compaction. *)
Definition example_acknowledged : res OutboxError bool * StreamDir :=
  let scan := scan_stream checksum_hex example_run.1.2 false in
  write_ack checksum_hex example_run.1.2 scan ledger 3
    (default "" (ob_digest <$> ss_records scan !! 1%nat)) (example_id "4") None.
Definition example_compacted : list string * StreamDir :=
  compact checksum_hex example_acknowledged.2 (scan_stream checksum_hex example_acknowledged.2 false)
    ledger (active_segment example_run.1.1).

(** Compaction can lose records. A write tears, so its segment is damaged and
    kept; the next segment opens with the gap that explains it, is acknowledged and
    deleted, because compaction goes on past a kept segment. Without the gap the reader
    stops at the damage and its anchor fails: four confirmed records that were never
    acknowledged are no longer read. *)
Example compaction_loses_records :
  sw_confirmed example_run.1.1 = 7 ∧ example_acknowledged.1 = Ok true ∧
  (ob_sequence <$> ss_records (scan_stream checksum_hex example_acknowledged.2 false)) = [1; 3; 4; 5; 6; 7] ∧
  example_compacted.1 = ["seg-000002.log"] ∧
  ss_records (scan_stream checksum_hex example_compacted.2 false) = [] ∧
  ss_records (scan_stream checksum_hex example_compacted.2 true) = [].
Proof. vm_compute. repeat split. Qed.
