(* ===== verification/Capture.v ===== *)
(** Durable usage capture: the records a host writes about its turns
    ([optimus/usage/capture_events.py]) and the epochs they belong to
    ([optimus/usage/durable_capture.py]).

    The writer the capture submits to is the class [OutboxPort], with its laws; the
    file OutboxQueue gives the implementation. Every call is one step, as
    the capture's lock makes it, but for [intent], which waits between two. Epochs are
    objects: an intent that waits keeps the epoch it began in.

    Parameters: fresh identifiers ([uuid4]), the texts of amounts and times, SHA-256,
    and whether a usage carried its cache fact. *)
From Stdlib Require Ascii.
Import (notations) Ascii.
From stdpp Require Import sorting.
From S2P Require Import Prelude Text Json Settlement.

Local Open Scope string_scope.
Local Open Scope Z_scope.

(** * Records *)

Definition MAX_LIST : nat := 256.
Definition DIGEST_VERSION : string := "capture-facts-v1".
(** [MAX_RECORD_BYTES - 4096]. *)
Definition PART_BUDGET : N := (256 * 1024 - 4096)%N.

Definition DEFAULT_PURPOSES : odict string string :=
  [("planning", "agent.plan"); ("answer", "agent.answer"); ("summarization", "context.summary");
   ("classification", "auto.classify"); ("operation", "operation.call")].

(** [PURPOSE.fullmatch]: dotted lower-case names, at least two. *)
Definition purpose_char (c : Ascii.ascii) : bool :=
  let n := Ascii.nat_of_ascii c in
  (((97 <=? n) && (n <=? 122)) || ((48 <=? n) && (n <=? 57)) || (n =? 95))%nat.
Definition purpose_word (w : string) : bool :=
  negb (String.eqb w "") && forallb purpose_char (String.list_ascii_of_string w).
Definition is_purpose (s : string) : bool :=
  match split_char "." s with
  | (String c _ as w) :: (_ :: _) as words =>
      forallb purpose_word words &&
      (let n := Ascii.nat_of_ascii c in ((97 <=? n) && (n <=? 122))%nat)
  | _ => false
  end.

Inductive CaptureError :=
| ClosedEpoch (epoch_id : string)
| CaptureValueError (message : string)
| CaptureKeyError (key : string).

Definition purpose_for (stage : string) (purpose : option string) : res CaptureError string :=
  match purpose with
  | None => match od_get stage DEFAULT_PURPOSES with
            | Some p => Ok p
            | None => Err (CaptureKeyError stage)
            end
  | Some p =>
      raise_if (negb (is_purpose p) ||
                (negb (String.eqb stage "summarization") && starts_with "memory." p))
        (CaptureValueError "a purpose is a dotted lowercase name, and only summarization serves memory") ;;*
      Ok p
  end.

(** The records of a stream, without the time each carries. *)
Inductive CaptureRecord :=
| StreamStart
| StreamEnd (open_epochs : list string)
| EpochBegin (epoch_id turn_id : string) (session_id : option string)
| EpochTerminal (epoch_id turn_id : string) (pending_invocations : Z)
| EpochIdentities (epoch_id : string) (part parts : nat) (settled unknown : list string)
| EpochClose (epoch_id turn_id : string) (identity_parts settled_count unknown_count : nat)
    (identities_digest : string) (pending_invocations integrity_failures : Z)
    (known_subtotal_usd : amount) (intents unconfirmed_intents rejected_records : Z)
    (begin_confirmed host_complete : bool)
| InvocationOpen (epoch_id invocation_id : string)
| InvocationEnd (epoch_id : option string) (invocation_id state : string)
| AttemptIntent (epoch_id host_request_id stage purpose : string) (requested_model : option string)
| AttemptReceipt (epoch_id : string) (late : bool) (purpose : string) (receipt : StageReceipt)
| IntegrityFailure (epoch_id : option string) (turn_id reason : string) (late : bool)
| TurnReportContext (epoch_id session_id turn_id selection : string)
    (registry_hash strategy : option string).

(** The epoch a record names. *)
Definition epoch_of (r : CaptureRecord) : option string :=
  match r with
  | StreamStart | StreamEnd _ => None
  | EpochBegin e _ _ | EpochTerminal e _ _ | EpochIdentities e _ _ _ _ | InvocationOpen e _
  | AttemptIntent e _ _ _ _ | AttemptReceipt e _ _ _ | TurnReportContext e _ _ _ _ _ => Some e
  | EpochClose e _ _ _ _ _ _ _ _ _ _ _ _ _ => Some e
  | InvocationEnd e _ _ | IntegrityFailure e _ _ _ => e
  end.

(** [identity_parts]: the identities of a turn in parts, settled ones first. *)
Definition identity_cost (identity : string) : N :=
  (N.of_nat (String.length (json_ascii_string identity)) + 1)%N.

(** One turn of the loop: the parts before the current one, the current one, and
    its size. *)
Definition identity_step (s : list (list string * list string) * (list string * list string) * N)
    (item : bool * string) : list (list string * list string) * (list string * list string) * N :=
  let '(chunks, current, size) := s in
  let '(is_unknown, identity) := item in
  let cost := identity_cost identity in
  let part (c : list string * list string) := if is_unknown : bool then c.2 else c.1 in
  let add (c : list string * list string) :=
    if is_unknown : bool then (c.1, (c.2 ++ [identity])%list) else ((c.1 ++ [identity])%list, c.2) in
  if (MAX_LIST <=? length (part current))%nat || (PART_BUDGET <? size + cost)%N
  then ((chunks ++ [current])%list, add ([], []), cost)
  else (chunks, add current, (size + cost)%N).

Definition identity_chunks (settled unknown : list string) : list (list string * list string) :=
  let '(chunks, current, _) :=
    foldl identity_step ([], ([], []), 0%N)
      (((λ i, (false, i)) <$> settled) ++ ((λ i, (true, i)) <$> unknown))%list in
  (chunks ++ [current])%list.

Section events.
Variable sha256 : string → string.

(** [digest]. *)
Definition identities_digest_of (epoch_id : string) (summary : TurnCostSummary) : string :=
  "hex:" +:+ sha256 (json_dumps "," ":" (JArray [JString DIGEST_VERSION;
    JArray [JString epoch_id; JArray (JString <$> tc_receipt_ids summary);
            JArray (JString <$> tc_unknown_attempt_ids summary)]])).

Definition identity_parts (epoch_id : string) (summary : TurnCostSummary)
    : list CaptureRecord * string :=
  let chunks := identity_chunks (tc_receipt_ids summary) (tc_unknown_attempt_ids summary) in
  (imap (λ i c, EpochIdentities epoch_id (S i) (length chunks) c.1 c.2) chunks,
   identities_digest_of epoch_id summary).
End events.

(** ** The parts hold every identity *)

Abbreviation items := (list (bool * string)).
Definition settled_of (l : items) : list string := snd <$> filter (λ x, x.1 = false) l.
Definition unknown_of (l : items) : list string := snd <$> filter (λ x, x.1 = true) l.
Definition costs (l : list string) : N := foldr (λ i n, identity_cost i + n)%N 0%N l.
Definition part_size (c : list string * list string) : N := (costs c.1 + costs c.2)%N.

Lemma costs_snoc l i : costs (l ++ [i]) = (costs l + identity_cost i)%N.
Proof. induction l as [|x l IH]; simpl; [lia|]. rewrite IH. lia. Qed.

(** What holds after some of the identities. *)
Definition parts_ok (done : items) (s : list (list string * list string) * (list string * list string) * N) : Prop :=
  let '(chunks, current, size) := s in
  let all := (chunks ++ [current])%list in
  concat all.*1 = settled_of done ∧ concat all.*2 = unknown_of done ∧
  Forall (λ c, (length c.1 ≤ MAX_LIST)%nat ∧ (length c.2 ≤ MAX_LIST)%nat) all ∧
  size = part_size current ∧
  (Forall (λ x, (identity_cost x.2 ≤ PART_BUDGET)%N) done → Forall (λ c, (part_size c ≤ PART_BUDGET)%N) all).

Lemma identity_step_ok done s item : parts_ok done s → parts_ok (done ++ [item]) (identity_step s item).
Proof.
  destruct s as [[chunks current] size], item as [u i]. intros (H1 & H2 & H3 & H4 & H5).
  assert (settled_of (done ++ [(u, i)]) = (settled_of done ++ if u : bool then [] else [i])%list ∧
          unknown_of (done ++ [(u, i)]) = (unknown_of done ++ if u : bool then [i] else [])%list) as [Hs Hu].
  { unfold settled_of, unknown_of. rewrite !filter_app, !fmap_app. by destruct u. }
  apply Forall_app in H3 as [H3 Hcur]. apply Forall_singleton in Hcur as [Hc1 Hc2].
  unfold identity_step. destruct (_ || _) eqn:Hfull.
  - unfold parts_ok. rewrite Hs, Hu, <- H1, <- H2. rewrite !(fmap_app _ (chunks ++ [current])), !concat_app. split_and!.
    + by destruct u; rewrite ?app_nil_r.
    + by destruct u; rewrite ?app_nil_r.
    + apply Forall_app_2; [by apply Forall_app_2; [|apply Forall_singleton]|]. apply Forall_singleton.
      destruct u; simpl; unfold MAX_LIST; lia.
    + destruct u; unfold part_size; simpl; lia.
    + intros Hd. apply Forall_app in Hd as [Hd Hi]. rewrite Forall_singleton in Hi. simpl in Hi.
      apply Forall_app_2; [by apply H5|]. apply Forall_singleton. destruct u; unfold part_size; simpl; lia.
  - apply orb_false_iff in Hfull as [Hlen%Nat.leb_gt Hsize%N.ltb_ge].
    rewrite fmap_app, concat_app in H1. rewrite fmap_app, concat_app in H2. simpl in H1, H2. rewrite app_nil_r in H1, H2.
    unfold parts_ok. rewrite Hs, Hu, <- H1, <- H2, !fmap_app, !concat_app. simpl. rewrite !app_nil_r. split_and!.
    + destruct u; simpl; rewrite ?app_nil_r; [done|by rewrite app_assoc].
    + destruct u; simpl; rewrite ?app_nil_r; [by rewrite app_assoc|done].
    + apply Forall_app_2; [done|]. apply Forall_singleton. destruct u; simpl in *; rewrite length_app; simpl; lia.
    + destruct u; unfold part_size in *; simpl; rewrite costs_snoc; lia.
    + intros Hd. apply Forall_app in Hd as [Hd Hi]. apply H5, Forall_app in Hd as [Hd _].
      apply Forall_app_2; [done|]. apply Forall_singleton. subst size.
      destruct u; unfold part_size in *; simpl; rewrite costs_snoc; lia.
Qed.

Lemma identity_fold_ok l done s : parts_ok done s → parts_ok (done ++ l) (foldl identity_step s l).
Proof.
  revert done s. induction l as [|x l IH]; intros done s Hs; simpl; [by rewrite app_nil_r|].
  rewrite (cons_middle x done l), app_assoc. by apply IH, identity_step_ok.
Qed.

Lemma identity_chunks_complete settled unknown :
  let parts := identity_chunks settled unknown in
  concat parts.*1 = settled ∧ concat parts.*2 = unknown ∧ parts ≠ [] ∧
  Forall (λ c, (length c.1 ≤ MAX_LIST)%nat ∧ (length c.2 ≤ MAX_LIST)%nat) parts ∧
  (Forall (λ i, (identity_cost i ≤ PART_BUDGET)%N) (settled ++ unknown) →
   Forall (λ c, (part_size c ≤ PART_BUDGET)%N) parts).
Proof.
  unfold identity_chunks. set (l := (_ ++ _)%list).
  assert (settled_of l = settled ∧ unknown_of l = unknown) as [Hs Hu].
  { assert (∀ (b b' : bool) (k : list string), snd <$> filter (λ x, x.1 = b) ((λ i, (b', i)) <$> k) = if bool_decide (b = b') then k else []) as Hf.
    { intros b b' k. induction k as [|i k IH]; [by case_bool_decide|]. rewrite fmap_cons, filter_cons. simpl.
      case_bool_decide; [rewrite decide_True, fmap_cons, IH by done; simpl; done|].
      by rewrite decide_False, IH by congruence. }
    unfold settled_of, unknown_of, l. rewrite !filter_app, !fmap_app, !Hf. simpl. by rewrite app_nil_r. }
  assert (parts_ok [] ([], ([], []), 0%N)) as Hnil.
  { split_and!; try done; [apply Forall_singleton; unfold MAX_LIST; simpl; lia|].
    intros _. apply Forall_singleton. done. }
  apply (identity_fold_ok l) in Hnil. simpl in Hnil. destruct (foldl identity_step _ l) as [[chunks current] size].
  destruct Hnil as (H1 & H2 & H3 & _ & H5). split_and!; [congruence|congruence|by destruct chunks|done|].
  intros Hcost. apply H5. unfold l. rewrite Forall_app, !Forall_fmap. by apply Forall_app in Hcost.
Qed.

(** C25: no identity is left out of a close. The parts of a turn's settled and unknown
    attempts, read in order, are exactly those attempts in order; there is at least one
    part; none holds more than 256 attempts of either kind; and none is larger than the
    budget, which leaves room for the frame in a record of the largest size, as long as
    no single identity is. *)
Theorem identity_parts_complete settled unknown :
  let parts := identity_chunks settled unknown in
  concat parts.*1 = settled ∧ concat parts.*2 = unknown ∧ parts ≠ [] ∧
  Forall (λ c, (length c.1 ≤ MAX_LIST)%nat ∧ (length c.2 ≤ MAX_LIST)%nat) parts ∧
  (Forall (λ i, (identity_cost i ≤ PART_BUDGET)%N) (settled ++ unknown) →
   Forall (λ c, (part_size c ≤ PART_BUDGET)%N) parts).
Proof. apply identity_chunks_complete. Qed.

(** * The writer, as the capture uses it *)

Inductive TicketState :=
| TPending
| TWritten (sequence : Z)
| TFailed (code : string).

(** The failures of a submission that was not admitted. *)
Definition refused (s : TicketState) : Prop :=
  match s with TFailed code => code = "QUEUE_FULL" ∨ code = "CLOSED" | _ => False end.

(** Submitting a record gives a ticket; waiting for it lets the writer work, and
    tells whether the record is durable. The writer's thread works between calls too. *)
Class OutboxPort (W : Type) := {
  port_submit : W → CaptureRecord → nat * W;
  port_ticket : W → nat → TicketState;
  port_wait : W → nat → bool * W;
  port_work : W → W;
  port_close : W → bool * W
}.

(** How a ticket may change while the writer works. *)
Inductive ticket_step : TicketState → TicketState → Prop :=
| ticket_same s : ticket_step s s
| ticket_written n : ticket_step TPending (TWritten n)
| ticket_failed code : ¬ refused (TFailed code) → ticket_step TPending (TFailed code).

Definition log_step (l l' : list (CaptureRecord * TicketState)) : Prop :=
  Forall2 (λ a b, a.1 = b.1 ∧ ticket_step a.2 b.2) l l'.

Class OutboxPortLaws (W : Type) `{OutboxPort W} := {
  port_log : W → list (CaptureRecord * TicketState);
  port_ticket_log w t : port_ticket w t = default TPending (snd <$> port_log w !! t);
  port_submit_log w r : let '(t, w') := port_submit w r in
    t = length (port_log w) ∧
    ∃ l s, port_log w' = (l ++ [(r, s)])%list ∧ log_step (port_log w) l;
  port_wait_log w t : let '(b, w') := port_wait w t in
    log_step (port_log w) (port_log w') ∧ (b = true → ∃ n, port_ticket w' t = TWritten n);
  port_work_log w : log_step (port_log w) (port_log (port_work w));
  port_close_log w : log_step (port_log w) (port_log (port_close w).2)
}.

(** * The capture *)

Record Epoch := mkEpoch {
  ep_epoch_id : string;
  ep_turn_id : string;
  ep_begin : nat;
  ep_rejected : Z;
  ep_intents : Z;
  ep_unconfirmed_intents : Z;
  ep_terminal_written : bool;
  ep_closing : option nat
}.

Section capture.
Context {W : Type} `{OutboxPort W}.
Variable sha256 : string → string.
Variable fresh : nat → string.

(** [_epochs] maps a turn to its epoch object, [_closed] to its closed epoch's id. *)
Record DurableCapture := mkDurableCapture {
  dc_writer : W;
  dc_uuids : nat;
  dc_heap : list Epoch;
  dc_epochs : odict string nat;
  dc_closed : gmap string string;
  dc_started : bool;
  dc_report_context : bool;
  dc_session_turns : gmap string (gset string)
}.

Definition new_capture (w : W) : DurableCapture :=
  mkDurableCapture w 0 [] [] ∅ false false ∅.

Abbreviation capturing A := (eff DurableCapture CaptureError A).

Definition set_writer (w : W) (s : DurableCapture) : DurableCapture :=
  mkDurableCapture w (dc_uuids s) (dc_heap s) (dc_epochs s) (dc_closed s) (dc_started s)
    (dc_report_context s) (dc_session_turns s).
Definition set_epochs (heap : list Epoch) (epochs : odict string nat) (closed : gmap string string)
    (s : DurableCapture) : DurableCapture :=
  mkDurableCapture (dc_writer s) (dc_uuids s) heap epochs closed (dc_started s)
    (dc_report_context s) (dc_session_turns s).
Definition set_started (s : DurableCapture) : DurableCapture :=
  mkDurableCapture (dc_writer s) (dc_uuids s) (dc_heap s) (dc_epochs s) (dc_closed s) true
    (dc_report_context s) (dc_session_turns s).

Definition update_epoch (f : Epoch → Epoch) (e : nat) (s : DurableCapture) : DurableCapture :=
  set_epochs (alter f e (dc_heap s)) (dc_epochs s) (dc_closed s) s.

Definition add_rejected (e : Epoch) : Epoch :=
  mkEpoch (ep_epoch_id e) (ep_turn_id e) (ep_begin e) (ep_rejected e + 1) (ep_intents e)
    (ep_unconfirmed_intents e) (ep_terminal_written e) (ep_closing e).
Definition add_intent (e : Epoch) : Epoch :=
  mkEpoch (ep_epoch_id e) (ep_turn_id e) (ep_begin e) (ep_rejected e) (ep_intents e + 1)
    (ep_unconfirmed_intents e) (ep_terminal_written e) (ep_closing e).
Definition add_unconfirmed (e : Epoch) : Epoch :=
  mkEpoch (ep_epoch_id e) (ep_turn_id e) (ep_begin e) (ep_rejected e) (ep_intents e)
    (ep_unconfirmed_intents e + 1) (ep_terminal_written e) (ep_closing e).
Definition set_terminal (b : bool) (e : Epoch) : Epoch :=
  mkEpoch (ep_epoch_id e) (ep_turn_id e) (ep_begin e) (ep_rejected e) (ep_intents e)
    (ep_unconfirmed_intents e) b (ep_closing e).
Definition set_closing (t : option nat) (e : Epoch) : Epoch :=
  mkEpoch (ep_epoch_id e) (ep_turn_id e) (ep_begin e) (ep_rejected e) (ep_intents e)
    (ep_unconfirmed_intents e) (ep_terminal_written e) t.

(** [uuid.uuid4().hex]. *)
Definition new_uuid (s : DurableCapture) : string * DurableCapture :=
  (fresh (dc_uuids s),
   mkDurableCapture (dc_writer s) (S (dc_uuids s)) (dc_heap s) (dc_epochs s) (dc_closed s)
     (dc_started s) (dc_report_context s) (dc_session_turns s)).

(** [ticket.failure is not None]. *)
Definition ticket_failed_now (s : DurableCapture) (t : nat) : bool :=
  match port_ticket (dc_writer s) t with TFailed _ => true | _ => false end.

Definition raw_submit (r : CaptureRecord) (s : DurableCapture) : nat * DurableCapture :=
  let '(t, w) := port_submit (dc_writer s) r in (t, set_writer w s).

(** [_submit]. *)
Definition submit (r : CaptureRecord) (epoch : option nat) (s : DurableCapture) : nat * DurableCapture :=
  let s := if dc_started s then s else (raw_submit StreamStart (set_started s)).2 in
  let '(t, s) := raw_submit r s in
  (t, match epoch with
      | Some e => if ticket_failed_now s t then update_epoch add_rejected e s else s
      | None => s
      end).

(** [_settle_closing]. *)
Definition settle_closing (turn_id : string) (s : DurableCapture) : DurableCapture :=
  match od_get turn_id (dc_epochs s) with
  | None => s
  | Some e =>
      match dc_heap s !! e with
      | None => s
      | Some epoch =>
          match ep_closing epoch with
          | None => s
          | Some t =>
              match port_ticket (dc_writer s) t with
              | TPending => s
              | TWritten _ => set_epochs (dc_heap s) (od_del turn_id (dc_epochs s))
                                (<[turn_id := ep_epoch_id epoch]> (dc_closed s)) s
              | TFailed _ => update_epoch (λ x, add_rejected (set_closing None x)) e s
              end
          end
      end
  end.

(** [_current]: the turn's open epoch with its id, or the id of its closing or closed one. *)
Definition current (turn_id : string) (s : DurableCapture) : option nat * option string * DurableCapture :=
  let s := settle_closing turn_id s in
  match od_get turn_id (dc_epochs s) with
  | None => (None, dc_closed s !! turn_id, s)
  | Some e =>
      match dc_heap s !! e with
      | None => (None, None, s)
      | Some epoch => (if ep_closing epoch then None else Some e, Some (ep_epoch_id epoch), s)
      end
  end.

Definition add_session_turn (session_id turn_id : string) (s : DurableCapture) : DurableCapture :=
  mkDurableCapture (dc_writer s) (dc_uuids s) (dc_heap s) (dc_epochs s) (dc_closed s) (dc_started s)
    (dc_report_context s)
    (<[session_id := {[ turn_id ]} ∪ default ∅ (dc_session_turns s !! session_id)]> (dc_session_turns s)).

(** [_epoch]: the turn's open epoch with its id, begun if there was none. *)
Definition open_epoch (turn_id : string) (session_id : option string) : capturing (nat * string) := λ s,
  match current turn_id s with
  | (Some e, id, s) => (Ok (e, default "" id), s)
  | (None, Some closed_id, s) => (Err (ClosedEpoch closed_id), s)
  | (None, None, s) =>
      let '(epoch_id, s) := new_uuid s in
      let s := match session_id with Some sid => add_session_turn sid turn_id s | None => s end in
      let '(t, s) := submit (EpochBegin epoch_id turn_id session_id) None s in
      let epoch := mkEpoch epoch_id turn_id t (if ticket_failed_now s t then 1 else 0) 0 0 false None in
      let e := length (dc_heap s) in
      (Ok (e, epoch_id), set_epochs (dc_heap s ++ [epoch])%list (od_set turn_id e (dc_epochs s)) (dc_closed s) s)
  end.

(** The epoch to write to: the open one, or the id of the closed one. *)
Definition epoch_or_closed (turn_id : string) (session_id : option string) (s : DurableCapture)
    : option nat * string * DurableCapture :=
  match open_epoch turn_id session_id s with
  | (Ok (e, id), s) => (Some e, id, s)
  | (Err (ClosedEpoch id), s) => (None, id, s)
  | (Err _, s) => (None, "", s)
  end.

Definition enable_report_context (s : DurableCapture) : DurableCapture :=
  mkDurableCapture (dc_writer s) (dc_uuids s) (dc_heap s) (dc_epochs s) (dc_closed s) (dc_started s)
    true (dc_session_turns s).

Definition report_context (turn_id session_id selection : string) (registry_hash strategy : option string)
    (s : DurableCapture) : bool * DurableCapture :=
  let s := add_session_turn session_id turn_id s in
  if negb (dc_report_context s) then (false, s)
  else match open_epoch turn_id (Some session_id) s with
       | (Ok (e, epoch_id), s) =>
           let '(t, s) := submit (TurnReportContext epoch_id session_id turn_id selection registry_hash strategy)
                            (Some e) s in
           (negb (ticket_failed_now s t), s)
       | (Err _, s) => (false, s)
       end.

Definition invocation_opened (turn_id : string) (session_id : option string) (s : DurableCapture)
    : string * DurableCapture :=
  let '(invocation_id, s) := new_uuid s in
  let '(e, epoch_id, s) := epoch_or_closed turn_id session_id s in
  (invocation_id, (submit (InvocationOpen epoch_id invocation_id) e s).2).

Definition invocation_ended (turn_id invocation_id state : string) (s : DurableCapture) : DurableCapture :=
  let '(e, epoch_id, s) := current turn_id s in
  (submit (InvocationEnd epoch_id invocation_id state) e s).2.

(** [intent] up to the wait: its ticket and the epoch it began in. *)
Definition intent_begin (turn_id host_request_id stage : string) (session_id requested_model purpose : option string)
    : capturing (nat * option nat) := λ s,
  let '(e, epoch_id, s) := epoch_or_closed turn_id session_id s in
  let s := match e with Some e => update_epoch add_intent e s | None => s end in
  match purpose_for stage purpose with
  | Err err => (Err err, s)
  | Ok p =>
      let '(t, s) := submit (AttemptIntent epoch_id host_request_id stage p requested_model) e s in
      (Ok (t, e), s)
  end.

(** The rest of [intent]: the wait, and what an unconfirmed one leaves. *)
Definition intent_end (t : nat) (e : option nat) (s : DurableCapture) : bool * DurableCapture :=
  let '(confirmed, w) := port_wait (dc_writer s) t in
  let s := set_writer w s in
  (confirmed, match e with
              | Some e => if confirmed then s else update_epoch add_unconfirmed e s
              | None => s
              end).

Definition receipt (r : StageReceipt) (purpose : option string) : capturing unit := λ s,
  let '(e, epoch_id, s) := epoch_or_closed (sr_turn_id r) (sr_session_id r) s in
  match purpose_for (sr_stage r) purpose with
  | Err err => (Err err, s)
  | Ok p => (Ok tt, (submit (AttemptReceipt epoch_id (bool_decide (e = None)) p r) e s).2)
  end.

Definition integrity_failure (turn_id reason : string) (s : DurableCapture) : DurableCapture :=
  let '(e, epoch_id, s) := current turn_id s in
  (submit (IntegrityFailure epoch_id turn_id reason (bool_decide (e = None))) e s).2.

Definition submit_all (rs : list CaptureRecord) (epoch : option nat) (s : DurableCapture) : DurableCapture :=
  foldl (λ s r, (submit r epoch s).2) s rs.

(** [close]. *)
Definition close (summary : TurnCostSummary) (s : DurableCapture) : bool * DurableCapture :=
  let turn_id := tc_turn_id summary in
  match current turn_id s with
  | (None, _, s) => (false, s)
  | (Some e, id, s) =>
      let epoch_id := default "" id in
      if negb (tc_pending_invocations summary =? 0) then
        if match dc_heap s !! e with Some epoch => ep_terminal_written epoch | None => true end then (false, s)
        else
          let '(t, s) := submit (EpochTerminal epoch_id turn_id (tc_pending_invocations summary)) (Some e) s in
          (false, update_epoch (set_terminal (negb (ticket_failed_now s t))) e s)
      else
        let '(parts, identities_digest) := identity_parts sha256 epoch_id summary in
        let s := submit_all parts (Some e) s in
        match dc_heap s !! e with
        | None => (false, s)
        | Some epoch =>
            let '(begin_confirmed, w) := port_wait (dc_writer s) (ep_begin epoch) in
            let s := set_writer w s in
            let host_complete := complete summary && begin_confirmed && (ep_rejected epoch =? 0) &&
                                 (ep_unconfirmed_intents epoch =? 0) in
            let '(t, s) := submit
              (EpochClose epoch_id turn_id (length parts) (length (tc_receipt_ids summary))
                 (length (tc_unknown_attempt_ids summary)) identities_digest
                 (tc_pending_invocations summary) (tc_integrity_failures summary)
                 (tc_known_subtotal_usd summary) (ep_intents epoch) (ep_unconfirmed_intents epoch)
                 (ep_rejected epoch) begin_confirmed host_complete) (Some e) s in
            if ticket_failed_now s t then (false, s)
            else (true, update_epoch (set_closing (Some t)) e s)
        end
  end.

(** [stop]: every queued close is resolved, then the stream's end is written, with the
    ids of the epochs still open sorted, and the writer is closed. *)
Definition stop (s : DurableCapture) : bool * DurableCapture :=
  let s := foldl (λ s turn_id, settle_closing turn_id s) s (od_keys (dc_epochs s)) in
  let s := if dc_started s then
    let ids := omap (λ e, ep_epoch_id <$> dc_heap s !! e) (od_values (dc_epochs s)) in
    (raw_submit (StreamEnd (fst <$> merge_sort key_le ((λ i, (i, tt)) <$> ids))) s).2
  else s in
  let '(done, w) := port_close (dc_writer s) in (done, set_writer w s).

(** [report_scope]: how many turns the session ran here. *)
Definition session_turn_count (session_id : string) (s : DurableCapture) : nat :=
  size (default ∅ (dc_session_turns s !! session_id)).
End capture.

(** * The log of a stream *)

Abbreviation log := (list (CaptureRecord * TicketState)).

Lemma ticket_step_trans a b c : ticket_step a b → ticket_step b c → ticket_step a c.
Proof. destruct 1; inversion 1; subst; constructor; done. Qed.

Lemma log_step_refl l : log_step l l.
Proof. induction l; constructor; [split; [done|constructor]|done]. Qed.

Lemma log_step_lookup l l' i r s : log_step l l' → l !! i = Some (r, s) →
  ∃ s', l' !! i = Some (r, s') ∧ ticket_step s s'.
Proof.
  intros Hl Hi. eapply Forall2_lookup_l in Hl as ([r' s'] & Hi' & Hr & Hs); [|done]. simpl in *. subst. eauto.
Qed.

Lemma log_step_lookup_r l l' i r s' : log_step l l' → l' !! i = Some (r, s') →
  ∃ s, l !! i = Some (r, s) ∧ ticket_step s s'.
Proof.
  intros Hl Hi. eapply Forall2_lookup_r in Hl as ([r' s] & Hi' & Hr & Hs); [|done]. simpl in *. subst. eauto.
Qed.

Lemma log_step_trans l l' l'' : log_step l l' → log_step l' l'' → log_step l l''.
Proof.
  apply Forall2_trans. intros x y z [Hxy Hs] [Hyz Hs']. split; [congruence|]. by eapply ticket_step_trans.
Qed.

Lemma refused_step s s' : ticket_step s s' → refused s' → refused s.
Proof. by destruct 1. Qed.

Lemma failed_step s s' : ticket_step s s' → (∃ code, s = TFailed code) → ∃ code, s' = TFailed code.
Proof. destruct 1; naive_solver. Qed.

(** A log with one more entry. *)
Lemma snoc_old (l l1 : log) x i r s : log_step l l1 → l !! i = Some (r, s) →
  ∃ s', (l1 ++ [x])%list !! i = Some (r, s') ∧ ticket_step s s'.
Proof.
  intros Hlog Hi. destruct (log_step_lookup _ _ _ _ _ Hlog Hi) as (s' & Hi' & Hs).
  exists s'. split; [by apply lookup_app_l_Some|done].
Qed.

Lemma snoc_entry (l l1 : log) r st i x s : log_step l l1 → (l1 ++ [(r, st)])%list !! i = Some (x, s) →
  (∃ s0, l !! i = Some (x, s0) ∧ ticket_step s0 s) ∨ i = length l1 ∧ x = r ∧ s = st.
Proof.
  intros Hlog Hi. apply lookup_app_Some in Hi as [Hi|[Hle Hi]]; [left; by eapply log_step_lookup_r|].
  right. apply list_lookup_singleton_Some in Hi as [? [= <- <-]]. split; [lia|done].
Qed.

(** What may be written about an epoch whose close is queued or written. *)
Definition straggler (r : CaptureRecord) : bool :=
  match r with
  | InvocationOpen _ _ | InvocationEnd _ _ _ | AttemptIntent _ _ _ _ _ => true
  | AttemptReceipt _ late _ _ | IntegrityFailure _ _ _ late => late
  | _ => false
  end.
Definition is_close (r : CaptureRecord) : bool :=
  match r with EpochClose _ _ _ _ _ _ _ _ _ _ _ _ _ _ => true | _ => false end.
Definition is_begin (r : CaptureRecord) : bool :=
  match r with EpochBegin _ _ _ => true | _ => false end.

(** * The invariant of a capture *)

Section invariant.
Variable fresh : nat → string.
Hypothesis fresh_inj : ∀ i j, fresh i = fresh j → i = j.

(** An epoch is open, or its close is queued or written; what its counts say; and
    what intents still wait for. [results] are the intents that have returned. *)
Record cap_inv (heap : list Epoch) (epochs : odict string nat) (closed : gmap string string)
    (uuids : nat) (l : log) (waiting : list (nat * option nat)) (results : list (nat * bool)) : Prop := {
  ci_keys : NoDup (od_keys epochs);
  ci_open t e : od_get t epochs = Some e → ∃ ep, heap !! e = Some ep ∧ ep_turn_id ep = t;
  ci_status e ep : heap !! e = Some ep →
    (od_get (ep_turn_id ep) epochs = Some e ∧ closed !! ep_turn_id ep = None) ∨
    (od_get (ep_turn_id ep) epochs = None ∧ closed !! ep_turn_id ep = Some (ep_epoch_id ep) ∧
     ep_closing ep ≠ None);
  ci_closed t id : closed !! t = Some id →
    ∃ e ep, heap !! e = Some ep ∧ ep_turn_id ep = t ∧ ep_epoch_id ep = id;
  ci_turns e e' ep ep' : heap !! e = Some ep → heap !! e' = Some ep' →
    ep_turn_id ep = ep_turn_id ep' → e = e';
  ci_ids e e' ep ep' : heap !! e = Some ep → heap !! e' = Some ep' →
    ep_epoch_id ep = ep_epoch_id ep' → e = e';
  ci_fresh e ep : heap !! e = Some ep → ∃ k, (k < uuids)%nat ∧ ep_epoch_id ep = fresh k;
  ci_begin e ep : heap !! e = Some ep →
    ∃ sid st, l !! ep_begin ep = Some (EpochBegin (ep_epoch_id ep) (ep_turn_id ep) sid, st);
  ci_begins i id t sid st : l !! i = Some (EpochBegin id t sid, st) →
    ∃ e ep, heap !! e = Some ep ∧ ep_epoch_id ep = id ∧ ep_turn_id ep = t ∧ ep_begin ep = i;
  ci_tagged i r st id : l !! i = Some (r, st) → epoch_of r = Some id →
    ∃ e ep, heap !! e = Some ep ∧ ep_epoch_id ep = id ∧ (ep_begin ep ≤ i)%nat;
  ci_phase e ep : heap !! e = Some ep →
    (∀ i r st, l !! i = Some (r, st) → epoch_of r = Some (ep_epoch_id ep) → is_close r = true →
       (∃ code, st = TFailed code) ∨ ep_closing ep = Some i) ∧
    (∀ c, ep_closing ep = Some c →
       (∃ r st, l !! c = Some (r, st) ∧ epoch_of r = Some (ep_epoch_id ep) ∧ is_close r = true ∧
          (od_get (ep_turn_id ep) epochs = None → ∃ n, st = TWritten n)) ∧
       ∀ j r st, (c < j)%nat → l !! j = Some (r, st) → epoch_of r = Some (ep_epoch_id ep) →
         straggler r = true);
  ci_counts e ep : heap !! e = Some ep → 0 ≤ ep_rejected ep ∧ 0 ≤ ep_unconfirmed_intents ep;
  ci_clean e ep : heap !! e = Some ep → ep_closing ep = None → ep_rejected ep = 0 →
    (∀ i r st, l !! i = Some (r, st) → epoch_of r = Some (ep_epoch_id ep) → ¬ refused st) ∧
    (ep_unconfirmed_intents ep = 0 →
     ∀ t b r st, (t, b) ∈ results → l !! t = Some (r, st) → epoch_of r = Some (ep_epoch_id ep) → b = true);
  ci_waiting t o : (t, o) ∈ waiting → ∃ r st e ep, l !! t = Some (r, st) ∧ heap !! e = Some ep ∧
    epoch_of r = Some (ep_epoch_id ep) ∧
    match o with Some e' => e' = e | None => ep_closing ep ≠ None ∨ 1 ≤ ep_rejected ep end;
  ci_results t b : (t, b) ∈ results → is_Some (l !! t)
}.
#[local] Arguments ci_keys {_ _ _ _ _ _ _} _.
#[local] Arguments ci_open {_ _ _ _ _ _ _} _.
#[local] Arguments ci_status {_ _ _ _ _ _ _} _.
#[local] Arguments ci_closed {_ _ _ _ _ _ _} _.
#[local] Arguments ci_turns {_ _ _ _ _ _ _} _.
#[local] Arguments ci_ids {_ _ _ _ _ _ _} _.
#[local] Arguments ci_fresh {_ _ _ _ _ _ _} _.
#[local] Arguments ci_begin {_ _ _ _ _ _ _} _.
#[local] Arguments ci_begins {_ _ _ _ _ _ _} _.
#[local] Arguments ci_tagged {_ _ _ _ _ _ _} _.
#[local] Arguments ci_phase {_ _ _ _ _ _ _} _.
#[local] Arguments ci_counts {_ _ _ _ _ _ _} _.
#[local] Arguments ci_clean {_ _ _ _ _ _ _} _.
#[local] Arguments ci_waiting {_ _ _ _ _ _ _} _.
#[local] Arguments ci_results {_ _ _ _ _ _ _} _.

(** Counts only grow. *)
Definition ep_le (a b : Epoch) : Prop :=
  ep_epoch_id b = ep_epoch_id a ∧ ep_turn_id b = ep_turn_id a ∧ ep_begin b = ep_begin a ∧
  ep_closing b = ep_closing a ∧ ep_rejected a ≤ ep_rejected b ∧
  ep_unconfirmed_intents a ≤ ep_unconfirmed_intents b.

Lemma ep_le_refl a : ep_le a a.
Proof. unfold ep_le. split_and!; done || lia. Qed.

(** What may be added to the log: a record of no epoch; one of an open epoch, which
    counts it if it was refused; a straggler of a closing or closed one. *)
Definition new_ok (heap : list Epoch) (x : CaptureRecord * TicketState) : Prop :=
  match epoch_of x.1 with
  | None => True
  | Some id => is_begin x.1 = false ∧
      ∃ e ep, heap !! e = Some ep ∧ ep_epoch_id ep = id ∧
        match ep_closing ep with
        | None => (is_close x.1 = true → ∃ code, x.2 = TFailed code) ∧ (refused x.2 → 1 ≤ ep_rejected ep)
        | Some _ => straggler x.1 = true
        end
  end.

Lemma straggler_not_close r : straggler r = true → is_close r = false.
Proof. by destruct r. Qed.

Section extend.
Context (heap heap' : list Epoch) (epochs : odict string nat) (closed : gmap string string).
Context (uuids uuids' : nat) (l l1 new : log) (waiting : list (nat * option nat)) (results : list (nat * bool)).
Hypothesis Hinv : cap_inv heap epochs closed uuids l waiting results.
Hypothesis Hheap : Forall2 ep_le heap heap'.
Hypothesis Huuids : (uuids ≤ uuids')%nat.
Hypothesis Hlog : log_step l l1.
Hypothesis Hnew : Forall (new_ok heap') new.

Lemma ext_old e ep' : heap' !! e = Some ep' → ∃ ep, heap !! e = Some ep ∧ ep_le ep ep'.
Proof. intros He. by eapply Forall2_lookup_r. Qed.
Lemma ext_heap e ep : heap !! e = Some ep → ∃ ep', heap' !! e = Some ep' ∧ ep_le ep ep'.
Proof. intros He. by eapply Forall2_lookup_l. Qed.

Lemma ext_entry i r st : (l1 ++ new)%list !! i = Some (r, st) →
  (∃ st0, l !! i = Some (r, st0) ∧ ticket_step st0 st) ∨
  ((length l ≤ i)%nat ∧ new_ok heap' (r, st)).
Proof.
  intros Hi. apply lookup_app_Some in Hi as [Hi|[Hlen Hi]].
  - left. by eapply log_step_lookup_r.
  - right. rewrite (Forall2_length _ _ _ Hlog). split; [done|].
    rewrite Forall_lookup in Hnew. by eapply Hnew.
Qed.

Lemma ext_keep i r st : l !! i = Some (r, st) → ∃ st', (l1 ++ new)%list !! i = Some (r, st') ∧ ticket_step st st'.
Proof.
  intros Hi. destruct (log_step_lookup _ _ _ _ _ Hlog Hi) as (st' & Hi' & Hs).
  exists st'. split; [|done]. by apply lookup_app_l_Some.
Qed.

(** A new record of an epoch, as that epoch stands. *)
Lemma ext_new r st e ep' : new_ok heap' (r, st) → heap' !! e = Some ep' → epoch_of r = Some (ep_epoch_id ep') →
  is_begin r = false ∧
  match ep_closing ep' with
  | None => (is_close r = true → ∃ code, st = TFailed code) ∧ (refused st → 1 ≤ ep_rejected ep')
  | Some _ => straggler r = true
  end.
Proof.
  unfold new_ok. simpl. intros Hok He Hr. rewrite Hr in Hok. destruct Hok as (Hb & e0 & ep0 & He0 & Hid & Hc).
  split; [done|].
  destruct (ext_old _ _ He) as (a & Ha & Hab). destruct (ext_old _ _ He0) as (a0 & Ha0 & Hab0).
  assert (e0 = e) as ->.
  { apply (ci_ids Hinv e0 e a0 a Ha0 Ha).
    destruct Hab as [? _], Hab0 as [? _]. congruence. }
  by simplify_eq.
Qed.

Lemma inv_extend : cap_inv heap' epochs closed uuids' (l1 ++ new) waiting results.
Proof.
  constructor.
  - apply Hinv.
  - intros t e Ht. destruct (ci_open Hinv t e Ht) as (ep & He & Hturn).
    destruct (ext_heap _ _ He) as (ep' & He' & Hle). exists ep'. split; [done|]. destruct Hle as (_ & -> & _). done.
  - intros e ep' He'. destruct (ext_old _ _ He') as (ep & He & (-> & -> & _ & -> & _)).
    by apply (ci_status Hinv).
  - intros t id Ht. destruct (ci_closed Hinv t id Ht) as (e & ep & He & H1 & H2).
    destruct (ext_heap _ _ He) as (ep' & He' & (H3 & H4 & _)). exists e, ep'. split_and!; congruence.
  - intros e e' a' b' Ha' Hb' Heq. destruct (ext_old _ _ Ha') as (a & Ha & (_ & Ht & _)).
    destruct (ext_old _ _ Hb') as (b & Hb & (_ & Ht' & _)).
    apply (ci_turns Hinv e e' a b Ha Hb). congruence.
  - intros e e' a' b' Ha' Hb' Heq. destruct (ext_old _ _ Ha') as (a & Ha & (Ht & _)).
    destruct (ext_old _ _ Hb') as (b & Hb & (Ht' & _)).
    apply (ci_ids Hinv e e' a b Ha Hb). congruence.
  - intros e ep' He'. destruct (ext_old _ _ He') as (ep & He & (-> & _)).
    destruct (ci_fresh Hinv e ep He) as (k & Hk & ->). exists k. split; [lia|done].
  - intros e ep' He'. destruct (ext_old _ _ He') as (ep & He & (-> & -> & -> & _)).
    destruct (ci_begin Hinv e ep He) as (sid & st & Hl).
    destruct (ext_keep _ _ _ Hl) as (st' & Hl' & _). eauto.
  - intros i id t sid st Hi. destruct (ext_entry _ _ _ Hi) as [(st0 & Hi0 & _)|[_ Hok]].
    + destruct (ci_begins Hinv _ _ _ _ _ Hi0) as (e & ep & He & H1 & H2 & H3).
      destruct (ext_heap _ _ He) as (ep' & He' & (H4 & H5 & H6 & _)). exists e, ep'. split_and!; congruence.
    + unfold new_ok in Hok. simpl in Hok. by destruct Hok.
  - intros i r st id Hi Hr. destruct (ext_entry _ _ _ Hi) as [(st0 & Hi0 & _)|[Hlen Hok]].
    + destruct (ci_tagged Hinv _ _ _ _ Hi0 Hr) as (e & ep & He & H1 & H2).
      destruct (ext_heap _ _ He) as (ep' & He' & (H4 & _ & H5 & _)). exists e, ep'. split_and!; congruence || lia.
    + unfold new_ok in Hok. simpl in Hok. rewrite Hr in Hok. destruct Hok as (_ & e & ep' & He' & Hid & _).
      exists e, ep'. split_and!; [done..|]. destruct (ext_old _ _ He') as (ep & He & (_ & _ & -> & _)).
      destruct (ci_begin Hinv e ep He) as (sid & st0 & Hl). apply lookup_lt_Some in Hl. lia.
  - intros e ep' He'. destruct (ext_old _ _ He') as (ep & He & Hle).
    destruct (ci_phase Hinv e ep He) as [Hcl Hst]. pose proof Hle as (Hid & Htn & _ & Hc & _).
    split.
    + intros i r st Hi Hr Hclose. destruct (ext_entry _ _ _ Hi) as [(st0 & Hi0 & Hs)|[_ Hok]].
      * rewrite Hid in Hr. destruct (Hcl i r st0 Hi0 Hr Hclose) as [Hf|Heq]; [|right; congruence].
        left. by eapply failed_step.
      * destruct (ext_new _ _ _ _ Hok He' Hr) as [_ Hn].
        destruct (ep_closing ep'); [apply straggler_not_close in Hn; congruence|]. left. by apply Hn.
    + intros c Hc'. rewrite Hc in Hc'. destruct (Hst c Hc') as [(r & st & Hl & Hr & Hclose & Hwr) Hafter]. split.
      * destruct (ext_keep _ _ _ Hl) as (st' & Hl' & Hs). exists r, st'. rewrite Hid, Htn. split_and!; [done..|].
        intros Hnone. destruct (Hwr Hnone) as [n ->]. inversion Hs; subst. by exists n.
      * intros j r' st' Hj Hl' Hr'. destruct (ext_entry _ _ _ Hl') as [(st0 & Hl0 & _)|[_ Hok]].
        -- rewrite Hid in Hr'. by eapply Hafter.
        -- destruct (ext_new _ _ _ _ Hok He' Hr') as [_ Hn]. by rewrite Hc, Hc' in Hn.
  - intros e ep' He'. destruct (ext_old _ _ He') as (ep & He & (_ & _ & _ & _ & H1 & H2)).
    destruct (ci_counts Hinv e ep He). lia.
  - intros e ep' He' Hc' Hrej. destruct (ext_old _ _ He') as (ep & He & (Hid & _ & _ & Hc & H1 & H2)).
    destruct (ci_counts Hinv e ep He) as [H3 H4].
    destruct (ci_clean Hinv e ep He) as [Href Hres]; [congruence|lia|]. split.
    + intros i r st Hi Hr Hrefused. destruct (ext_entry _ _ _ Hi) as [(st0 & Hi0 & Hs)|[_ Hok]].
      * rewrite Hid in Hr. by eapply Href, refused_step.
      * destruct (ext_new _ _ _ _ Hok He' Hr) as [_ Hn]. rewrite Hc' in Hn. destruct Hn as [_ Hn].
        specialize (Hn Hrefused). lia.
    + intros Hun t b r st Ht Hl Hr. destruct (ci_results Hinv t b Ht) as [[r0 st0] Hl0].
      destruct (ext_keep _ _ _ Hl0) as (st' & Hl' & _). simplify_eq. rewrite Hid in Hr.
      eapply Hres; [lia|done..].
  - intros t o Ht. destruct (ci_waiting Hinv t o Ht) as (r & st & e & ep & Hl & He & Hr & Ho).
    destruct (ext_keep _ _ _ Hl) as (st' & Hl' & _).
    destruct (ext_heap _ _ He) as (ep' & He' & (H1 & _ & _ & H2 & H3 & _)).
    exists r, st', e, ep'. split_and!; [done|done|congruence|]. destruct o; [done|]. rewrite H2.
    destruct Ho; [by left|right; lia].
  - intros t b Ht. destruct (ci_results Hinv t b Ht) as [[r0 st0] Hl0].
    destruct (ext_keep _ _ _ Hl0) as (st' & Hl' & _). eauto.
Qed.
End extend.

(** A turn's epoch begins. *)
Lemma inv_begin heap epochs closed uuids l l1 turn sid st k waiting results :
  cap_inv heap epochs closed uuids l waiting results → log_step l l1 →
  od_get turn epochs = None → closed !! turn = None → (∀ e ep, heap !! e = Some ep → ep_epoch_id ep ≠ fresh k) →
  (k < uuids)%nat →
  let epoch := mkEpoch (fresh k) turn (length l1) (if st is TFailed _ then 1 else 0) 0 0 false None in
  cap_inv (heap ++ [epoch]) (od_set turn (length heap) epochs) closed uuids
    (l1 ++ [(EpochBegin (fresh k) turn sid, st)]) waiting results.
Proof.
  intros Hinv Hlog Hopen Hclosed Hk Huuids epoch.
  assert (∀ e ep, (heap ++ [epoch])%list !! e = Some ep → heap !! e = Some ep ∨ e = length heap ∧ ep = epoch) as Hold.
  { intros e ep He. apply lookup_app_Some in He as [He|[Hle He]]; [by left|]. right.
    apply list_lookup_singleton_Some in He as [? <-]. split; [lia|done]. }
  assert (∀ e ep, heap !! e = Some ep → (heap ++ [epoch])%list !! e = Some ep) as Hkeep
    by (intros; by apply lookup_app_l_Some).
  assert ((heap ++ [epoch])%list !! length heap = Some epoch) as Hnew by (by rewrite list_lookup_middle).
  pose proof (λ i r s, snoc_entry l l1 (EpochBegin (fresh k) turn sid) st i r s Hlog) as Hentry.
  pose proof (λ i r s, snoc_old l l1 (EpochBegin (fresh k) turn sid, st) i r s Hlog) as Hent.
  assert (∀ i r s id, l !! i = Some (r, s) → epoch_of r = Some id → id ≠ fresh k) as Htag.
  { intros i r s id Hi Hr. destruct (ci_tagged Hinv _ _ _ _ Hi Hr) as (e & ep & He & <- & _).
    by eapply Hk. }
  assert (∀ e ep, heap !! e = Some ep → ep_turn_id ep ≠ turn) as Hturn.
  { intros e ep He Ht. destruct (ci_status Hinv e ep He) as [[? _]|(_ & ? & _)]; rewrite Ht in *; congruence. }
  constructor.
  - by apply od_set_nodup, Hinv.
  - intros t e Ht. destruct (decide (t = turn)) as [->|Hne].
    + rewrite od_get_set_eq in Ht. simplify_eq. by exists epoch.
    + rewrite od_get_set_ne in Ht by done. destruct (ci_open Hinv t e Ht) as (ep & He & Ht').
      exists ep. auto.
  - intros e ep [He|[-> ->]]%Hold.
    + rewrite od_get_set_ne by (by eapply Hturn). by apply (ci_status Hinv).
    + left. simpl. by rewrite od_get_set_eq.
  - intros t id Ht. destruct (ci_closed Hinv t id Ht) as (e & ep & He & H1 & H2). eauto 6.
  - intros e e' a b [Ha|[-> ->]]%Hold [Hb|[-> ->]]%Hold Heq; [by eapply (ci_turns Hinv)| | |done].
    + by apply Hturn in Ha.
    + symmetry in Heq. by apply Hturn in Hb.
  - intros e e' a b [Ha|[-> ->]]%Hold [Hb|[-> ->]]%Hold Heq; [by eapply (ci_ids Hinv)| | |done].
    + by apply Hk in Ha.
    + symmetry in Heq. by apply Hk in Hb.
  - intros e ep [He|[-> ->]]%Hold; [by eapply (ci_fresh Hinv)|]. by exists k.
  - intros e ep [He|[-> ->]]%Hold.
    + destruct (ci_begin Hinv e ep He) as (sid' & s & Hl). destruct (Hent _ _ _ Hl) as (s' & Hl' & _). eauto.
    + exists sid, st. simpl. by rewrite list_lookup_middle.
  - intros i id t sid' s [(s0 & Hi & _)|(-> & [= -> -> ->] & ->)]%Hentry.
    + destruct (ci_begins Hinv _ _ _ _ _ Hi) as (e & ep & He & ?). eauto 8.
    + exists (length heap), epoch. done.
  - intros i r s id [(s0 & Hi & _)|(-> & -> & ->)]%Hentry Hr.
    + destruct (ci_tagged Hinv _ _ _ _ Hi Hr) as (e & ep & He & ?). eauto 8.
    + simpl in Hr. simplify_eq. exists (length heap), epoch. done.
  - intros e ep [He|[-> ->]]%Hold.
    + destruct (ci_phase Hinv e ep He) as [Hcl Hst]. split.
      * intros i r s [(s0 & Hi & Hs)|(-> & -> & ->)]%Hentry Hr Hc; [|done].
        destruct (Hcl i r s0 Hi Hr Hc) as [Hf|]; [|auto]. left. by eapply failed_step.
      * intros c Hc. destruct (Hst c Hc) as [(r & s & Hl & Hr & Hclose & Hw) Hafter]. split.
        -- destruct (Hent _ _ _ Hl) as (s' & Hl' & Hs). exists r, s'. split_and!; [done..|].
           rewrite od_get_set_ne by (by eapply Hturn). intros Hn. destruct (Hw Hn) as [n ->].
           inversion Hs; subst. by exists n.
        -- intros j r' s' Hj [(s0 & Hi & _)|(-> & -> & ->)]%Hentry Hr'; [by eapply Hafter|].
           simpl in Hr'. exfalso. simplify_eq. by eapply Hk.
    + split; [|done]. intros i r s [(s0 & Hi & Hs)|(-> & -> & ->)]%Hentry Hr Hc; [|done].
      exfalso. simpl in Hr. by eapply Htag.
  - intros e ep [He|[-> ->]]%Hold; [by eapply (ci_counts Hinv)|]. simpl. destruct st; lia.
  - intros e ep [He|[-> ->]]%Hold Hc Hrej.
    + destruct (ci_clean Hinv e ep He Hc Hrej) as [Href Hres]. split.
      * intros i r s [(s0 & Hi & Hs)|(-> & -> & ->)]%Hentry Hr.
        -- intros Hrf. by eapply Href, refused_step.
        -- simpl in Hr. exfalso. simplify_eq. by eapply Hk.
      * intros Hun t b r s Ht Hl Hr. destruct (ci_results Hinv t b Ht) as [[r0 s0] Hl0].
        destruct (Hent _ _ _ Hl0) as (s' & Hl' & _). simplify_eq. by eapply Hres.
    + simpl in Hrej. split.
      * intros i r s [(s0 & Hi & Hs)|(-> & -> & ->)]%Hentry Hr; [exfalso; by eapply Htag|]. intros Hrf. clear -Hrej Hrf. by destruct st.
      * intros _ t b r s Ht Hl Hr. destruct (ci_results Hinv t b Ht) as [[r0 s0] Hl0].
        destruct (Hent _ _ _ Hl0) as (s' & Hl' & _). simplify_eq. exfalso. by eapply Htag.
  - intros t o Ht. destruct (ci_waiting Hinv t o Ht) as (r & s & e & ep & Hl & He & Hr & Ho).
    destruct (Hent _ _ _ Hl) as (s' & Hl' & _). exists r, s', e, ep. auto.
  - intros t b Ht. destruct (ci_results Hinv t b Ht) as [[r0 s0] Hl0].
    destruct (Hent _ _ _ Hl0) as (s' & Hl' & _). eauto.
Qed.

(** Changing one epoch's closing ticket. *)
Lemma alter_lookup (f : Epoch → Epoch) (heap : list Epoch) (e0 e : nat) ep : alter f e0 heap !! e = Some ep →
  ∃ ep0, heap !! e = Some ep0 ∧ (e = e0 ∧ ep = f ep0 ∨ e ≠ e0 ∧ ep = ep0).
Proof.
  intros He. destruct (decide (e = e0)) as [->|Hne].
  - rewrite list_lookup_alter_eq in He. destruct (heap !! e0) as [ep0|]; [|done]. injection He as <-. eauto 6.
  - rewrite list_lookup_alter_ne in He by done. eauto.
Qed.

Lemma alter_lookup_l (f : Epoch → Epoch) (heap : list Epoch) (e0 e : nat) ep0 : heap !! e = Some ep0 →
  alter f e0 heap !! e = Some (if decide (e = e0) then f ep0 else ep0).
Proof.
  intros He. case_decide as Hd; [subst; by rewrite list_lookup_alter_eq, He|].
  by rewrite list_lookup_alter_ne by done.
Qed.

(** Two epochs agree but for their close and counts. *)
Definition ep_same (a b : Epoch) : Prop :=
  ep_epoch_id b = ep_epoch_id a ∧ ep_turn_id b = ep_turn_id a ∧ ep_begin b = ep_begin a.

Section static.
Context (f : Epoch → Epoch) (heap : list Epoch) (e0 : nat).
Hypothesis Hf : ∀ a, ep_same a (f a).

Lemma alter_same e ep : alter f e0 heap !! e = Some ep → ∃ a, heap !! e = Some a ∧ ep_same a ep.
Proof. intros (a & Ha & [[-> ->]|[? ->]])%alter_lookup; exists a; split; done || apply Hf || done. Qed.

Lemma alter_same_l e a : heap !! e = Some a → ∃ ep, alter f e0 heap !! e = Some ep ∧ ep_same a ep.
Proof. intros Ha. erewrite alter_lookup_l by done. eexists. split; [done|]. case_decide; [apply Hf|done]. Qed.
End static.

Lemma heap_le_refl heap : Forall2 ep_le heap heap.
Proof. apply Forall_Forall2_diag, Forall_true. intros. apply ep_le_refl. Qed.

Lemma alter_le (f : Epoch → Epoch) (heap : list Epoch) (e : nat) :
  (∀ a, ep_le a (f a)) → Forall2 ep_le heap (alter f e heap).
Proof.
  intros Hf. apply Forall2_same_length_lookup. split; [by rewrite length_alter|]. intros i x y Hx Hy.
  apply alter_lookup in Hy as (y0 & Hy0 & [[-> ->]|[? ->]]); simplify_eq; [apply Hf|apply ep_le_refl].
Qed.

Lemma add_rejected_le a : ep_le a (add_rejected a).
Proof. unfold ep_le. simpl. split_and!; done || lia. Qed.
Lemma add_intent_le a : ep_le a (add_intent a).
Proof. unfold ep_le. simpl. split_and!; done || lia. Qed.
Lemma add_unconfirmed_le a : ep_le a (add_unconfirmed a).
Proof. unfold ep_le. simpl. split_and!; done || lia. Qed.
Lemma set_terminal_le b a : ep_le a (set_terminal b a).
Proof. unfold ep_le. simpl. split_and!; done || lia. Qed.

(** The epoch's close is queued. *)
Lemma inv_closing heap epochs closed uuids l l1 e ep r st waiting results :
  cap_inv heap epochs closed uuids l waiting results → log_step l l1 →
  heap !! e = Some ep → ep_closing ep = None → epoch_of r = Some (ep_epoch_id ep) → is_close r = true →
  cap_inv (alter (set_closing (Some (length l1))) e heap) epochs closed uuids (l1 ++ [(r, st)]) waiting results.
Proof.
  intros Hinv Hlog He Hopen Hr Hclose. set (h' := alter _ _ _).
  assert (∀ a, ep_same a (set_closing (Some (length l1)) a)) as Hf by done.
  pose proof (Forall2_length _ _ _ Hlog) as Hlen.
  pose proof (λ i x s, snoc_entry l l1 r st i x s Hlog) as Hentry.
  pose proof (λ i x s, snoc_old l l1 (r, st) i x s Hlog) as Hent.
  constructor.
  - apply Hinv.
  - intros t e' Ht. destruct (ci_open Hinv t e' Ht) as (a & Ha & <-).
    destruct (alter_same_l _ _ e Hf _ _ Ha) as (b & Hb & _ & ? & _). eauto.
  - intros e' b (a & Ha & [[-> ->]|[? ->]])%alter_lookup; [|by apply (ci_status Hinv)]. simplify_eq. simpl.
    destruct (ci_status Hinv e ep He) as [?|(_ & _ & ?)]; [by left|done].
  - intros t id Ht. destruct (ci_closed Hinv t id Ht) as (e' & a & Ha & <- & <-).
    destruct (alter_same_l _ _ e Hf _ _ Ha) as (b & Hb & ? & ? & _). eauto 6.
  - intros e1 e2 b1 b2 (a1 & Ha1 & _ & -> & _)%(alter_same _ _ _ Hf) (a2 & Ha2 & _ & -> & _)%(alter_same _ _ _ Hf).
    by apply (ci_turns Hinv).
  - intros e1 e2 b1 b2 (a1 & Ha1 & -> & _)%(alter_same _ _ _ Hf) (a2 & Ha2 & -> & _)%(alter_same _ _ _ Hf).
    by apply (ci_ids Hinv).
  - intros e' b (a & Ha & -> & _)%(alter_same _ _ _ Hf). by apply (ci_fresh Hinv e').
  - intros e' b (a & Ha & -> & -> & ->)%(alter_same _ _ _ Hf). destruct (ci_begin Hinv e' a Ha) as (sid & s & Hl).
    destruct (Hent _ _ _ Hl) as (s' & Hl' & _). eauto.
  - intros i id t sid s [(s0 & Hi & _)|(-> & <- & ->)]%Hentry; [|done].
    destruct (ci_begins Hinv _ _ _ _ _ Hi) as (e' & a & Ha & <- & <- & <-).
    destruct (alter_same_l _ _ e Hf _ _ Ha) as (b & Hb & ? & ? & ?). eauto 8.
  - intros i x s id [(s0 & Hi & _)|(-> & -> & ->)]%Hentry Hx.
    + destruct (ci_tagged Hinv _ _ _ _ Hi Hx) as (e' & a & Ha & <- & Hle).
      destruct (alter_same_l _ _ e Hf _ _ Ha) as (b & Hb & ? & ? & Heq). exists e', b. split_and!; [done..|lia].
    + rewrite Hr in Hx. simplify_eq. destruct (alter_same_l _ _ e Hf _ _ He) as (b & Hb & ? & ? & Heq).
      exists e, b. split_and!; [done..|]. destruct (ci_begin Hinv e ep He) as (sid & s & Hl%lookup_lt_Some). lia.
  - intros e' b (a & Ha & [[-> ->]|[Hne ->]])%alter_lookup.
    + simplify_eq. split; simpl.
      * intros i x s [(s0 & Hi & Hs)|(-> & -> & ->)]%Hentry Hx Hc; [|by right].
        destruct (proj1 (ci_phase Hinv e ep He) _ _ _ Hi Hx Hc) as [Hf'|Heq]; [left; by eapply failed_step|congruence].
      * intros c [= <-]. split.
        -- exists r, st. rewrite list_lookup_middle by done. split_and!; [done..|]. intros Hn.
           destruct (ci_status Hinv e ep He) as [[? _]|(_ & _ & ?)]; congruence.
        -- intros j x s Hj Hx. apply lookup_lt_Some in Hx. rewrite length_app in Hx. simpl in Hx. lia.
    + destruct (ci_phase Hinv e' a Ha) as [Hcl Hst].
      assert (∀ i s, epoch_of r = Some (ep_epoch_id a) → i = length l1 → s = st → False) as Hno.
      { intros i s Hx _ _. apply Hne. rewrite Hr in Hx. simplify_eq. by eapply (ci_ids Hinv). }
      split.
      * intros i x s [(s0 & Hi & Hs)|(-> & -> & ->)]%Hentry Hx Hc; [|by edestruct Hno].
        destruct (Hcl _ _ _ Hi Hx Hc) as [Hf'|Heq]; [left; by eapply failed_step|by right].
      * intros c Hc. destruct (Hst c Hc) as [(x & s & Hl & Hx & Hxc & Hw) Hafter]. split.
        -- destruct (Hent _ _ _ Hl) as (s' & Hl' & Hs). exists x, s'. split_and!; [done..|].
           intros Hn. destruct (Hw Hn) as [n ->]. inversion Hs; subst. by exists n.
        -- intros j x' s' Hj [(s0 & Hi & _)|(-> & -> & ->)]%Hentry Hx'; [by eapply Hafter|by edestruct Hno].
  - intros e' b (a & Ha & [[-> ->]|[? ->]])%alter_lookup; by apply (ci_counts Hinv _ _ Ha).
  - intros e' b (a & Ha & [[-> ->]|[Hne ->]])%alter_lookup Hc Hrej; [done|].
    destruct (ci_clean Hinv e' a Ha Hc Hrej) as [Href Hres]. split.
    + intros i x s [(s0 & Hi & Hs)|(-> & -> & ->)]%Hentry Hx Hrf; [by eapply Href, refused_step|].
      apply Hne. rewrite Hr in Hx. simplify_eq. by eapply (ci_ids Hinv).
    + intros Hun t b x s Ht Hl Hx. destruct (ci_results Hinv t b Ht) as [[x0 s0] Hl0].
      destruct (Hent _ _ _ Hl0) as (s' & Hl' & _). simplify_eq. by eapply Hres.
  - intros t o Ht. destruct (ci_waiting Hinv t o Ht) as (x & s & e' & a & Hl & Ha & Hx & Ho).
    destruct (Hent _ _ _ Hl) as (s' & Hl' & _). exists x, s', e', (if decide (e' = e) then set_closing (Some (length l1)) a else a).
    split_and!; [done|by apply alter_lookup_l|by case_decide|]. destruct o; [done|]. by case_decide; [left|].
  - intros t b Ht. destruct (ci_results Hinv t b Ht) as [[x0 s0] Hl0].
    destruct (Hent _ _ _ Hl0) as (s' & Hl' & _). eauto.
Qed.

(** A queued close was written: its epoch is closed. *)
Lemma inv_settle_written heap epochs closed uuids l turn e ep t r n waiting results :
  cap_inv heap epochs closed uuids l waiting results → od_get turn epochs = Some e → heap !! e = Some ep →
  ep_closing ep = Some t → l !! t = Some (r, TWritten n) →
  cap_inv heap (od_del turn epochs) (<[turn := ep_epoch_id ep]> closed) uuids l waiting results.
Proof.
  intros Hinv Ht He Hc Hl. destruct (ci_open Hinv turn e Ht) as (ep' & He' & <-). simplify_eq.
  assert (∀ e' a, heap !! e' = Some a → e' ≠ e → ep_turn_id a ≠ ep_turn_id ep) as Hne.
  { intros e' a Ha Hd Heq. by apply Hd, (ci_turns Hinv _ _ a ep). }
  destruct Hinv as [Hkeys Hopen Hstatus Hclosed Hturns Hids Hfresh Hbegin Hbegins Htagged Hphase Hcounts Hclean Hwait Hres].
  constructor; try done.
  - by apply od_del_nodup.
  - intros t' e' Ht'. apply Hopen. destruct (decide (t' = ep_turn_id ep)) as [->|Hd].
    + by rewrite od_get_del_eq in Ht' by done.
    + by rewrite od_get_del_ne in Ht'.
  - intros e' a Ha. destruct (decide (e' = e)) as [->|Hd].
    + simplify_eq. right. rewrite od_get_del_eq, lookup_insert_eq, Hc by done. done.
    + specialize (Hne e' a Ha Hd). rewrite od_get_del_ne, lookup_insert_ne by congruence. by apply Hstatus.
  - intros t' id Ht'. destruct (decide (t' = ep_turn_id ep)) as [->|Hd].
    + rewrite lookup_insert_eq in Ht'. simplify_eq. eauto.
    + rewrite lookup_insert_ne in Ht' by done. by apply Hclosed.
  - intros e' a Ha. destruct (Hphase e' a Ha) as [H1 H2]. split; [done|]. intros c Hc'.
    destruct (H2 c Hc') as [(r' & s & Hl' & Hr & Hcl & Hw) Hafter]. split; [|done].
    exists r', s. split_and!; [done..|]. destruct (decide (e' = e)) as [->|Hd]; [simplify_eq; by exists n|].
    rewrite od_get_del_ne; [done|by eapply Hne].
Qed.

(** A queued close failed: its epoch is open again, and counts it. *)
Lemma inv_settle_failed heap epochs closed uuids l turn e ep t r code waiting results :
  cap_inv heap epochs closed uuids l waiting results → od_get turn epochs = Some e → heap !! e = Some ep →
  ep_closing ep = Some t → l !! t = Some (r, TFailed code) →
  cap_inv (alter (λ x, add_rejected (set_closing None x)) e heap) epochs closed uuids l waiting results.
Proof.
  intros Hinv Ht He Hc Hl. destruct (ci_open Hinv turn e Ht) as (ep' & He' & <-). simplify_eq.
  set (f := λ x, add_rejected (set_closing None x)). assert (∀ a, ep_same a (f a)) as Hf by done.
  destruct (ci_counts Hinv e ep He) as [Hr0 Hu0].
  constructor.
  - apply Hinv.
  - intros t' e' Ht'. destruct (ci_open Hinv t' e' Ht') as (a & Ha & <-).
    destruct (alter_same_l _ _ e Hf _ _ Ha) as (b & Hb & _ & ? & _). eauto.
  - intros e' b (a & Ha & [[-> ->]|[? ->]])%alter_lookup; [|by apply (ci_status Hinv)]. simplify_eq. simpl.
    destruct (ci_status Hinv e ep He) as [?|(? & _)]; [by left|congruence].
  - intros t' id Ht'. destruct (ci_closed Hinv t' id Ht') as (e' & a & Ha & <- & <-).
    destruct (alter_same_l _ _ e Hf _ _ Ha) as (b & Hb & ? & ? & _). eauto 6.
  - intros e1 e2 b1 b2 (a1 & Ha1 & _ & -> & _)%(alter_same _ _ _ Hf) (a2 & Ha2 & _ & -> & _)%(alter_same _ _ _ Hf).
    by apply (ci_turns Hinv).
  - intros e1 e2 b1 b2 (a1 & Ha1 & -> & _)%(alter_same _ _ _ Hf) (a2 & Ha2 & -> & _)%(alter_same _ _ _ Hf).
    by apply (ci_ids Hinv).
  - intros e' b (a & Ha & -> & _)%(alter_same _ _ _ Hf). by apply (ci_fresh Hinv e').
  - intros e' b (a & Ha & -> & -> & ->)%(alter_same _ _ _ Hf). by apply (ci_begin Hinv e').
  - intros i id t' sid s Hi. destruct (ci_begins Hinv _ _ _ _ _ Hi) as (e' & a & Ha & <- & <- & <-).
    destruct (alter_same_l _ _ e Hf _ _ Ha) as (b & Hb & ? & ? & ?). eauto 8.
  - intros i x s id Hi Hx. destruct (ci_tagged Hinv _ _ _ _ Hi Hx) as (e' & a & Ha & <- & Hle).
    destruct (alter_same_l _ _ e Hf _ _ Ha) as (b & Hb & ? & ? & Heq). exists e', b. split_and!; [done..|lia].
  - intros e' b (a & Ha & [[-> ->]|[Hne ->]])%alter_lookup; [|by apply (ci_phase Hinv e')]. simplify_eq.
    split; [|done]. intros i x s Hi Hx Hcl. left.
    destruct (proj1 (ci_phase Hinv e ep He) _ _ _ Hi Hx Hcl) as [?|Heq]; [done|]. simplify_eq. by exists code.
  - intros e' b (a & Ha & [[-> ->]|[? ->]])%alter_lookup; destruct (ci_counts Hinv _ _ Ha); simpl; lia.
  - intros e' b (a & Ha & [[-> ->]|[? ->]])%alter_lookup; [|by apply (ci_clean Hinv e')]. simplify_eq. simpl. lia.
  - intros t' o Ht'. destruct (ci_waiting Hinv t' o Ht') as (x & s & e' & a & Hl' & Ha & Hx & Ho).
    exists x, s, e', (if decide (e' = e) then f a else a).
    split_and!; [done|by apply alter_lookup_l|by case_decide|]. destruct o; [done|]. case_decide; [|done]. right.
    destruct (ci_counts Hinv _ _ Ha). simpl. lia.
  - apply (ci_results Hinv).
Qed.

(** An intent begins to wait. *)
Lemma inv_wait heap epochs closed uuids l waiting results t r st e ep o :
  cap_inv heap epochs closed uuids l waiting results →
  l !! t = Some (r, st) → heap !! e = Some ep → epoch_of r = Some (ep_epoch_id ep) →
  (match o with Some e' => e' = e | None => ep_closing ep ≠ None end) →
  cap_inv heap epochs closed uuids l ((t, o) :: waiting) results.
Proof.
  intros Hinv Hl He Hr Ho. constructor; try apply Hinv.
  intros t' o' [[= -> ->]|Ht]%elem_of_cons; [|by apply (ci_waiting Hinv)].
  exists r, st, e, ep. split_and!; [done..|]. destruct o; [done|by left].
Qed.

(** An intent that waited returns. *)
Lemma inv_return heap epochs closed uuids l waiting waiting' results t o b :
  cap_inv heap epochs closed uuids l waiting results → (t, o) ∈ waiting → waiting' ⊆ waiting →
  let heap' := match o with Some e => if b : bool then heap else alter add_unconfirmed e heap | None => heap end in
  cap_inv heap' epochs closed uuids l waiting' ((t, b) :: results).
Proof.
  intros Hinv Ht Hsub heap'. destruct (ci_waiting Hinv t o Ht) as (r & st & e & ep & Hl & He & Hr & Ho).
  assert (Forall2 ep_le heap heap') as Hle.
  { unfold heap'. destruct o as [e'|]; [|apply heap_le_refl].
    destruct b; [apply heap_le_refl|apply alter_le, add_unconfirmed_le]. }
  assert (cap_inv heap' epochs closed uuids (l ++ []) waiting results) as Hinv'
    by (eapply inv_extend; [done|done|lia|apply log_step_refl|constructor]).
  rewrite app_nil_r in Hinv'. clear Hle. constructor; try apply Hinv'.
  - intros e' a Ha Hc Hrej. destruct (ci_clean Hinv' e' a Ha Hc Hrej) as [Href Hres]. split; [done|].
    intros Hun t' b' x s [[= -> ->]|Hin]%elem_of_cons Hx Hxe; [|by eapply Hres]. simplify_eq.
    unfold heap' in Ha. destruct o as [e0|].
    + subst e0. destruct b; [done|]. apply alter_lookup in Ha as (a0 & Ha0 & [[-> ->]|[Hd ->]]).
      * simplify_eq. destruct (ci_counts Hinv _ _ He). simpl in Hun. lia.
      * destruct Hd. apply (ci_ids Hinv _ _ a0 ep Ha0 He). congruence.
    + assert (e' = e) as -> by (apply (ci_ids Hinv _ _ a ep Ha He); congruence). simplify_eq.
      destruct Ho; [done|lia].
  - intros t' o' Ht'. by apply (ci_waiting Hinv'), Hsub.
  - intros t' b' [[= -> ->]|Hin]%elem_of_cons; [eauto|by eapply (ci_results Hinv)].
Qed.
End invariant.

(** * Every call keeps the invariant *)

Definition failed (st : TicketState) : bool := match st with TFailed _ => true | _ => false end.

Lemma refused_failed st : refused st → failed st = true.
Proof. by destruct st. Qed.

Section calls.
Context {W : Type} `{OutboxPortLaws W}.
Variable sha256 : string → string.
Variable fresh : nat → string.
Hypothesis fresh_inj : ∀ i j, fresh i = fresh j → i = j.

Definition capture_log (s : DurableCapture) : log := port_log (dc_writer s).

Definition capture_inv (s : DurableCapture) : list (nat * option nat) → list (nat * bool) → Prop :=
  cap_inv fresh (dc_heap s) (dc_epochs s) (dc_closed s) (dc_uuids s) (capture_log s).

Lemma raw_submit_spec r s t s' : raw_submit r s = (t, s') →
  t = length (capture_log s) ∧ s' = set_writer (dc_writer s') s ∧
  ∃ l st, capture_log s' = (l ++ [(r, st)])%list ∧ log_step (capture_log s) l ∧ port_ticket (dc_writer s') t = st.
Proof.
  unfold raw_submit, capture_log. intros Hs. pose proof (port_submit_log (dc_writer s) r) as Hp.
  destruct (port_submit (dc_writer s) r) as [t0 w]. destruct Hp as (-> & l & st & Hl & Hstep). simplify_eq/=.
  split_and!; [done..|]. exists l, st. split_and!; [done..|].
  by rewrite port_ticket_log, Hl, (Forall2_length _ _ _ Hstep), list_lookup_middle.
Qed.

(** What [submit] does: the stream's start before the first record, the record, and
    the count of a refused one. *)
Lemma submit_spec r o s t s' : submit r o s = (t, s') → ∃ l pre st,
  capture_log s' = ((l ++ pre) ++ [(r, st)])%list ∧ log_step (capture_log s) l ∧
  Forall (λ x, epoch_of x.1 = None) pre ∧ t = length (l ++ pre)%list ∧
  port_ticket (dc_writer s') t = st ∧ ticket_failed_now s' t = failed st ∧
  dc_heap s' = match o with Some e => if failed st then alter add_rejected e (dc_heap s) else dc_heap s
               | None => dc_heap s end ∧
  dc_epochs s' = dc_epochs s ∧ dc_closed s' = dc_closed s ∧ dc_uuids s' = dc_uuids s.
Proof.
  assert (∀ s0 l pre, log_step (capture_log s) l → capture_log s0 = (l ++ pre)%list → Forall (λ x, epoch_of x.1 = None) pre →
    dc_heap s0 = dc_heap s → dc_epochs s0 = dc_epochs s → dc_closed s0 = dc_closed s → dc_uuids s0 = dc_uuids s →
    ∀ t1 s1, raw_submit r s0 = (t1, s1) →
    let s' := match o with Some e => if ticket_failed_now s1 t1 then update_epoch add_rejected e s1 else s1 | None => s1 end in
    ∃ l pre st, capture_log s' = ((l ++ pre) ++ [(r, st)])%list ∧ log_step (capture_log s) l ∧
      Forall (λ x, epoch_of x.1 = None) pre ∧ t1 = length (l ++ pre)%list ∧
      port_ticket (dc_writer s') t1 = st ∧ ticket_failed_now s' t1 = failed st ∧
      dc_heap s' = match o with Some e => if failed st then alter add_rejected e (dc_heap s) else dc_heap s
                   | None => dc_heap s end ∧
      dc_epochs s' = dc_epochs s ∧ dc_closed s' = dc_closed s ∧ dc_uuids s' = dc_uuids s) as Hgen.
  { intros s0 l pre Hl Hlog Hpre Hh He Hc Hu t1 s1 Hs. apply raw_submit_spec in Hs as (-> & -> & l1 & st & Hlog1 & Hl1 & Ht).
    rewrite Hlog in Hl1. pose proof (Forall2_length _ _ _ Hl1) as Hlen.
    apply Forall2_app_inv_l in Hl1 as (l2 & pre2 & Hl2 & Hpre3 & ->).
    apply (log_step_trans _ _ _ Hl) in Hl2.
    exists l2, pre2, st. unfold ticket_failed_now. simpl in *. rewrite Ht.
    assert (Forall (λ x, epoch_of x.1 = None) pre2).
    { clear -Hpre Hpre3. induction Hpre3 as [|x y ?? [Hxy _] _ IH]; constructor; inversion Hpre; subst; [congruence|auto]. }
    rewrite <- Hlog in Hlen.
    destruct o as [e|]; [destruct st|]; simpl; rewrite ?Ht; split_and!; done || by rewrite Hh. }
  unfold submit. intros Hs. destruct (dc_started s).
  - destruct (raw_submit r s) as [t1 s1] eqn:Hr. injection Hs as <- <-.
    eapply (Hgen s (capture_log s) []); [apply log_step_refl|by rewrite app_nil_r|constructor|done..].
  - destruct (raw_submit StreamStart (set_started s)) as [t0 s0] eqn:Hr0.
    apply raw_submit_spec in Hr0 as (_ & Hs0 & l & st & Hlog & Hl & _). simpl in Hs.
    destruct (raw_submit r s0) as [t1 s1] eqn:Hr. injection Hs as <- <-.
    eapply (Hgen s0 l [(StreamStart, st)]); [done|done|repeat constructor|rewrite Hs0; done..|done].
Qed.

(** A close that says the host has everything: what it says is so. [rets] are the
    intents that returned, with the length of the log when they did. *)
Definition complete_at (l : log) (rets : list (nat * bool * nat)) (i : nat) (r : CaptureRecord) : Prop :=
  match r with
  | EpochClose id turn _ _ unknown _ pending integrity _ _ unconfirmed rejected _ true =>
      (unknown = 0%nat ∧ pending = 0 ∧ integrity = 0 ∧ unconfirmed = 0 ∧ rejected = 0) ∧
      (∃ j sid n, (j < i)%nat ∧ l !! j = Some (EpochBegin id turn sid, TWritten n)) ∧
      (∀ j r s, (j < i)%nat → l !! j = Some (r, s) → epoch_of r = Some id → ¬ refused s) ∧
      (∀ t b n r s, (t, b, n) ∈ rets → (n ≤ i)%nat → l !! t = Some (r, s) → epoch_of r = Some id → b = true)
  | _ => True
  end.

Definition complete_ok (l : log) (rets : list (nat * bool * nat)) : Prop :=
  ∀ i r st, l !! i = Some (r, st) → complete_at l rets i r.

Lemma complete_at_extend l l1 new rets i r : complete_at l rets i r → (i ≤ length l)%nat → log_step l l1 →
  (∀ t b n, (t, b, n) ∈ rets → (t < length l)%nat) → complete_at (l1 ++ new) rets i r.
Proof.
  intros Hat Hi Hlog Hrets. pose proof (Forall2_length _ _ _ Hlog) as Hlen.
  destruct r; try done. destruct host_complete; [|done].
  destruct Hat as (Hfacts & (j & sid & n & Hj & Hlj) & Href & Hret).
  split; [done|split; [|split]].
  - destruct (log_step_lookup _ _ _ _ _ Hlog Hlj) as (s' & Hlj' & Hs). inversion Hs; subst.
    exists j, sid, n. split; [done|]. by apply lookup_app_l_Some.
  - intros j' r s Hj' Hl Hr Hrf. rewrite lookup_app_l in Hl by lia.
    destruct (log_step_lookup_r _ _ _ _ _ Hlog Hl) as (s0 & Hl0 & Hs). by eapply (Href j'), refused_step.
  - intros t b n' r s Hin Hle Hl Hr. specialize (Hrets _ _ _ Hin). rewrite lookup_app_l in Hl by lia.
    destruct (log_step_lookup_r _ _ _ _ _ Hlog Hl) as (s0 & Hl0 & _). by eapply Hret.
Qed.

Lemma complete_ok_extend l l1 new rets : complete_ok l rets → log_step l l1 →
  (∀ t b n, (t, b, n) ∈ rets → (t < length l)%nat) →
  (∀ i r st, new !! i = Some (r, st) → complete_at (l1 ++ new) rets (length l1 + i) r) → complete_ok (l1 ++ new) rets.
Proof.
  intros Hok Hlog Hrets Hnew i r st Hi. pose proof (Forall2_length _ _ _ Hlog) as Hlen.
  apply lookup_app_Some in Hi as [Hi|[Hle Hi]].
  - pose proof (lookup_lt_Some _ _ _ Hi) as Hlt. destruct (log_step_lookup_r _ _ _ _ _ Hlog Hi) as (st0 & Hi0 & _).
    eapply complete_at_extend; [by eapply Hok|lia|done..].
  - replace i with (length l1 + (i - length l1))%nat by lia. by eapply Hnew.
Qed.

Lemma complete_at_not_close l rets i r : is_close r = false → complete_at l rets i r.
Proof. by destruct r. Qed.

Lemma complete_ok_plain l l1 new rets : complete_ok l rets → log_step l l1 →
  (∀ t b n, (t, b, n) ∈ rets → (t < length l)%nat) →
  Forall (λ x, is_close x.1 = false) new → complete_ok (l1 ++ new) rets.
Proof.
  intros Hok Hlog Hrets Hnew. eapply complete_ok_extend; [done..|]. intros i r st Hi.
  apply complete_at_not_close. by eapply (Forall_lookup_1 _ _ _ _ Hnew) in Hi.
Qed.

(** The whole invariant. *)
Definition good (s : DurableCapture) (waiting : list (nat * option nat)) (rets : list (nat * bool * nat)) : Prop :=
  capture_inv s waiting rets.*1 ∧ complete_ok (capture_log s) rets.

Lemma good_rets s waiting rets t b n : good s waiting rets → (t, b, n) ∈ rets → (t < length (capture_log s))%nat.
Proof.
  intros [Hinv _] Hin. eapply lookup_lt_is_Some, (ci_results _ _ _ _ _ _ _ _ Hinv t b).
  apply list_elem_of_fmap. by exists (t, b, n).
Qed.

Lemma good_extend s s' l new waiting rets : good s waiting rets →
  log_step (capture_log s) l → capture_log s' = (l ++ new)%list →
  Forall2 ep_le (dc_heap s) (dc_heap s') → dc_epochs s' = dc_epochs s → dc_closed s' = dc_closed s →
  (dc_uuids s ≤ dc_uuids s')%nat →
  Forall (new_ok (dc_heap s')) new → Forall (λ x, is_close x.1 = false) new → good s' waiting rets.
Proof.
  intros Hg Hlog Hl Hheap He Hc Hu Hnew Hncl. pose proof Hg as [Hinv Hok]. split.
  - unfold capture_inv. rewrite He, Hc, Hl. by eapply inv_extend.
  - rewrite Hl. eapply complete_ok_plain; [done..| |done]. intros t b n. by eapply good_rets.
Qed.

(** The writer may work at any time. *)
Lemma good_step s s' waiting rets : good s waiting rets → log_step (capture_log s) (capture_log s') →
  Forall2 ep_le (dc_heap s) (dc_heap s') → dc_epochs s' = dc_epochs s → dc_closed s' = dc_closed s →
  (dc_uuids s ≤ dc_uuids s')%nat → good s' waiting rets.
Proof.
  intros. eapply (good_extend _ _ (capture_log s') []); [done|done|by rewrite app_nil_r|done..|constructor|constructor].
Qed.

(** Where a record of an epoch goes: to the open epoch, or, as a straggler, to one
    whose close is queued or written. *)
Definition writable (s : DurableCapture (W:=W)) (o : option nat) (id : string) : Prop :=
  ∃ e ep, dc_heap s !! e = Some ep ∧ ep_epoch_id ep = id ∧
    match o with Some e' => e' = e ∧ ep_closing ep = None | None => ep_closing ep ≠ None end.

Lemma writable_le (s s' : DurableCapture (W:=W)) o id : Forall2 ep_le (dc_heap s) (dc_heap s') → writable s o id → writable s' o id.
Proof.
  intros Hle (e & ep & He & Hid & Ho). eapply Forall2_lookup_l in Hle as (ep' & He' & (H1 & _ & _ & H2 & _)); [|done].
  exists e, ep'. split_and!; [done|congruence|]. by rewrite H2.
Qed.

Lemma submit_heap r o s t s' : submit r o s = (t, s') → Forall2 ep_le (dc_heap s) (dc_heap s').
Proof.
  intros (? & ? & st & _ & _ & _ & _ & _ & _ & -> & _)%submit_spec. destruct o; [|apply heap_le_refl].
  destruct (failed st); [apply alter_le, add_rejected_le|apply heap_le_refl].
Qed.

Lemma new_ok_none heap pre : Forall (λ x, epoch_of x.1 = None) pre → Forall (new_ok heap) pre.
Proof. intros Hp. eapply Forall_impl; [done|]. intros x Hx. unfold new_ok. by rewrite Hx. Qed.

Lemma not_close_none pre : Forall (λ x : CaptureRecord * TicketState, epoch_of x.1 = None) pre →
  Forall (λ x, is_close x.1 = false) pre.
Proof. intros Hp. eapply Forall_impl; [done|]. by intros [[] ?]. Qed.

Lemma submit_good r o s t s' waiting rets : submit r o s = (t, s') → good s waiting rets →
  is_close r = false → is_begin r = false →
  (∀ id, epoch_of r = Some id → writable s o id ∧ (o = None → straggler r = true)) → good s' waiting rets.
Proof.
  intros Hs Hg Hcl Hb Hr. pose proof (submit_heap _ _ _ _ _ Hs) as Hle.
  apply submit_spec in Hs as (l & pre & st & Hlog & Hstep & Hpre & _ & _ & _ & Hh & He & Hc & Hu).
  eapply (good_extend _ _ l (pre ++ [(r, st)])%list); [done|done|by rewrite Hlog, <- app_assoc|done|done|done|lia| |].
  - apply Forall_app_2; [by apply new_ok_none|]. apply Forall_singleton. unfold new_ok. simpl.
    destruct (epoch_of r) as [id|]; [|done]. split; [done|]. destruct (Hr id eq_refl) as [Hw Hst].
    destruct Hw as (e & ep & He0 & Hid & Ho).
    eapply Forall2_lookup_l in Hle as Hle'; [|done]. destruct Hle' as (ep' & He' & (H1 & _ & _ & H2 & H3 & _)).
    exists e, ep'. split_and!; [done|congruence|]. rewrite H2. destruct o as [e'|].
    + destruct Ho as [-> ->]. split; [congruence|]. intros Hrf%refused_failed. rewrite Hh, Hrf in He'.
      apply alter_lookup in He' as (a & Ha & [[_ ->]|[Hne _]]); [|done]. simplify_eq. simpl.
      destruct Hg as [Hinv _]. destruct (ci_counts _ _ _ _ _ _ _ _ Hinv _ _ He0). lia.
    + destruct (ep_closing ep); [by apply Hst|done].
  - apply Forall_app_2; [by apply not_close_none|]. by apply Forall_singleton.
Qed.

Lemma settle_good turn s waiting rets : good s waiting rets → good (settle_closing turn s) waiting rets.
Proof.
  intros Hg. unfold settle_closing. destruct (od_get turn (dc_epochs s)) as [e|] eqn:Ht; [|done].
  destruct (dc_heap s !! e) as [ep|] eqn:He; [|done]. destruct (ep_closing ep) as [c|] eqn:Hc; [|done].
  destruct Hg as [Hinv Hok].
  destruct (proj2 (ci_phase _ _ _ _ _ _ _ _ Hinv e ep He) c Hc) as [(r & st & Hl & _) _].
  rewrite port_ticket_log. fold (capture_log s). rewrite Hl. simpl.
  destruct st as [|n|code]; [done| |]; (split; [|done]).
  - by eapply inv_settle_written.
  - by eapply inv_settle_failed.
Qed.

Lemma current_good turn s waiting rets : good s waiting rets →
  let '(o, id, s') := current turn s in good s' waiting rets ∧
  (∀ i, id = Some i → writable s' o i) ∧
  (id = None → o = None ∧ od_get turn (dc_epochs s') = None ∧ dc_closed s' !! turn = None) ∧
  (∀ e, o = Some e → ∃ ep, dc_heap s' !! e = Some ep ∧ ep_turn_id ep = turn).
Proof.
  intros Hg%(settle_good turn). unfold current. set (s' := settle_closing turn s) in *. pose proof Hg as [Hinv _].
  destruct (od_get turn (dc_epochs s')) as [e|] eqn:Ht.
  - destruct (ci_open _ _ _ _ _ _ _ _ Hinv _ _ Ht) as (ep & He & Hturn). rewrite He. split_and!; [done| |done|].
    + intros i [= <-]. exists e, ep. split_and!; [done..|]. by destruct (ep_closing ep) eqn:Hc; rewrite ?Hc.
    + intros e' Heq. exists ep. destruct (ep_closing ep); by simplify_eq.
  - split_and!; [done| |done|done]. intros i Hi. destruct (ci_closed _ _ _ _ _ _ _ _ Hinv _ _ Hi) as (e & ep & He & Hturn & Hid).
    exists e, ep. split_and!; [done..|]. destruct (ci_status _ _ _ _ _ _ _ _ Hinv e ep He) as [[_ Hn]|(_ & _ & ?)]; [|done].
    rewrite Hturn in Hn. congruence.
Qed.

(** Beginning an epoch. *)
Lemma begin_good turn sid s t s' k waiting rets : good s waiting rets →
  od_get turn (dc_epochs s) = None → dc_closed s !! turn = None → k = dc_uuids s →
  ∀ s1, dc_writer s1 = dc_writer s → dc_heap s1 = dc_heap s → dc_epochs s1 = dc_epochs s → dc_closed s1 = dc_closed s →
  dc_uuids s1 = S k →
  submit (EpochBegin (fresh k) turn sid) None s1 = (t, s') →
  let epoch := mkEpoch (fresh k) turn t (if ticket_failed_now s' t then 1 else 0) 0 0 false None in
  let s2 := set_epochs (dc_heap s' ++ [epoch]) (od_set turn (length (dc_heap s')) (dc_epochs s')) (dc_closed s') s' in
  good s2 waiting rets ∧ dc_heap s2 !! length (dc_heap s') = Some epoch.
Proof.
  intros [Hinv Hok] Hopen Hclosed -> s1 Hw Hh He Hc Hu Hs epoch s2.
  apply submit_spec in Hs as (l & pre & st & Hlog & Hstep & Hpre & -> & Hst & Hf & Hh' & He' & Hc' & Hu').
  assert (capture_log s1 = capture_log s) as Hl1 by (unfold capture_log; by rewrite Hw). rewrite Hl1 in Hstep.
  split; [|by apply list_lookup_middle]. split.
  - unfold capture_inv. change (capture_log s2) with (capture_log s'). rewrite Hlog.
    unfold s2, epoch. simpl. rewrite Hh', Hh, He', He, Hc', Hc, Hu', Hu, Hf.
    replace (if failed st then 1 else 0) with (if st is TFailed _ then 1 else 0) by (by destruct st).
    apply (inv_begin fresh _ _ _ _ (l ++ pre)); [|apply log_step_refl|done|done| |lia].
    + eapply inv_extend; [done|apply heap_le_refl|lia|done|by apply new_ok_none].
    + intros e ep Hep Heq. destruct (ci_fresh _ _ _ _ _ _ _ _ Hinv e ep Hep) as (j & Hj & Hid).
      rewrite Hid in Heq. apply fresh_inj in Heq. lia.
  - change (capture_log s2) with (capture_log s'). rewrite Hlog, <- app_assoc.
    eapply complete_ok_plain; [done..| |].
    + intros t' b n. by eapply good_rets.
    + apply Forall_app_2; [by apply not_close_none|]. by apply Forall_singleton.
Qed.

Lemma epoch_or_closed_good turn sid s waiting rets : good s waiting rets →
  let '(o, id, s') := epoch_or_closed fresh turn sid s in good s' waiting rets ∧ writable s' o id.
Proof.
  intros Hg. unfold epoch_or_closed, open_epoch.
  pose proof (current_good turn s waiting rets Hg) as Hcur.
  destruct (current turn s) as [[o id] s1]. destruct Hcur as (Hg1 & Hw & Hn & _).
  destruct o as [e|]; [|destruct id as [i|]].
  - destruct id as [i|]; [|by destruct (Hn eq_refl)]. split; [done|]. by apply Hw.
  - split; [done|]. by apply Hw.
  - destruct (Hn eq_refl) as (_ & Hopen & Hclosed). unfold new_uuid.
    set (s2 := match sid with Some _ => _ | None => _ end).
    destruct (submit _ None s2) as [t s3] eqn:Hs.
    destruct (begin_good turn sid s1 t s3 (dc_uuids s1) waiting rets Hg1 Hopen Hclosed eq_refl s2) as [Hg3 Hlook];
      [by destruct sid..|done|].
    split; [done|]. eexists _, _. split; [exact Hlook|done].
Qed.

(** A change that leaves writer and epochs alone. *)
Lemma good_same s s' waiting rets : good s waiting rets → dc_writer s' = dc_writer s → dc_heap s' = dc_heap s →
  dc_epochs s' = dc_epochs s → dc_closed s' = dc_closed s → (dc_uuids s ≤ dc_uuids s')%nat → good s' waiting rets.
Proof.
  intros Hg Hw Hh He Hc Hu. eapply good_step; [done| |rewrite Hh; apply heap_le_refl|done..].
  unfold capture_log. rewrite Hw. apply log_step_refl.
Qed.

Lemma report_context_good turn sid sel hash strat s waiting rets : good s waiting rets →
  good (report_context fresh turn sid sel hash strat s).2 waiting rets.
Proof.
  intros Hg. unfold report_context. set (s0 := add_session_turn sid turn s).
  assert (good s0 waiting rets) as Hg0 by (by eapply good_same).
  destruct (negb (dc_report_context s0)); [done|].
  pose proof (epoch_or_closed_good turn (Some sid) s0 waiting rets Hg0) as Hep. unfold epoch_or_closed in Hep.
  destruct (open_epoch fresh turn (Some sid) s0) as [[[e id]|[]] s1]; try by destruct Hep.
  destruct Hep as [Hg1 Hw]. destruct (submit _ (Some e) s1) as [t s2] eqn:Hs. simpl.
  eapply submit_good; [done..|]. intros i [= <-]. done.
Qed.

Lemma invocation_opened_good turn sid s waiting rets : good s waiting rets →
  good (invocation_opened fresh turn sid s).2 waiting rets.
Proof.
  intros Hg. unfold invocation_opened, new_uuid. set (s0 := mkDurableCapture _ _ _ _ _ _ _ _).
  assert (good s0 waiting rets) as Hg0 by (eapply good_same; [done..|simpl; lia]).
  pose proof (epoch_or_closed_good turn sid s0 waiting rets Hg0) as Hep.
  destruct (epoch_or_closed fresh turn sid s0) as [[o id] s1]. destruct Hep as [Hg1 Hw].
  destruct (submit _ o s1) as [t s2] eqn:Hs. simpl. eapply submit_good; [done..|]. intros i [= <-]. done.
Qed.

Lemma invocation_ended_good turn inv st s waiting rets : good s waiting rets →
  good (invocation_ended turn inv st s) waiting rets.
Proof.
  intros Hg. unfold invocation_ended. pose proof (current_good turn s waiting rets Hg) as Hcur.
  destruct (current turn s) as [[o id] s1]. destruct Hcur as (Hg1 & Hw & Hn & _).
  destruct (submit _ o s1) as [t s2] eqn:Hs. simpl. eapply submit_good; [done..|]. simpl. intros i ->. auto.
Qed.

Lemma integrity_failure_good turn reason s waiting rets : good s waiting rets →
  good (integrity_failure turn reason s) waiting rets.
Proof.
  intros Hg. unfold integrity_failure. pose proof (current_good turn s waiting rets Hg) as Hcur.
  destruct (current turn s) as [[o id] s1]. destruct Hcur as (Hg1 & Hw & Hn & _).
  destruct (submit _ o s1) as [t s2] eqn:Hs. simpl. eapply submit_good; [done..|]. simpl. intros i ->.
  split; [auto|]. by intros ->.
Qed.

Lemma receipt_good r p s waiting rets : good s waiting rets → good (receipt fresh r p s).2 waiting rets.
Proof.
  intros Hg. unfold receipt. pose proof (epoch_or_closed_good (sr_turn_id r) (sr_session_id r) s waiting rets Hg) as Hep.
  destruct (epoch_or_closed fresh _ _ s) as [[o id] s1]. destruct Hep as [Hg1 Hw].
  destruct (purpose_for (sr_stage r) p); [|done].
  destruct (submit _ o s1) as [t s2] eqn:Hs. simpl. eapply submit_good; [done..|]. intros i [= <-]. simpl.
  split; [auto|]. by intros ->.
Qed.

Lemma intent_begin_good turn req stage sid model p s waiting rets : good s waiting rets →
  match intent_begin fresh turn req stage sid model p s with
  | (Ok x, s') => good s' (x :: waiting) rets
  | (Err _, s') => good s' waiting rets
  end.
Proof.
  intros Hg. unfold intent_begin. pose proof (epoch_or_closed_good turn sid s waiting rets Hg) as Hep.
  destruct (epoch_or_closed fresh turn sid s) as [[o id] s1]. destruct Hep as [Hg1 Hw].
  set (s2 := match o with Some e => _ | None => s1 end).
  assert (Forall2 ep_le (dc_heap s1) (dc_heap s2)) as Hle
    by (destruct o; [apply alter_le, add_intent_le|apply heap_le_refl]).
  assert (good s2 waiting rets) as Hg2.
  { eapply good_step; [exact Hg1| |done|by destruct o..|by destruct o]. by destruct o; apply log_step_refl. }
  destruct (purpose_for stage p) as [pp|err]; [|done].
  destruct (submit _ o s2) as [t s3] eqn:Hs. apply (writable_le _ _ _ _ Hle) in Hw.
  assert (good s3 waiting rets) as [Hinv Hok] by (eapply submit_good; [done..|]; by intros i [= <-]).
  split; [|done]. pose proof (submit_heap _ _ _ _ _ Hs) as Hle3.
  apply submit_spec in Hs as (l & pre & st & Hlog & _ & _ & -> & _).
  apply (writable_le _ _ _ _ Hle3) in Hw as (e & ep & He & <- & Ho).
  eapply inv_wait; [done|rewrite Hlog; by apply list_lookup_middle|exact He|done|].
  destruct o; [by destruct Ho|done].
Qed.

Lemma wait_log w t b w' : port_wait w t = (b, w') →
  log_step (port_log w) (port_log w') ∧ (b = true → ∃ n, port_ticket w' t = TWritten n).
Proof. intros Hw. pose proof (port_wait_log w t) as Hl. by rewrite Hw in Hl. Qed.

Lemma intent_end_good t o s waiting waiting' rets : good s waiting rets → (t, o) ∈ waiting → waiting' ⊆ waiting →
  let '(b, s') := intent_end t o s in good s' waiting' ((t, b, length (capture_log s')) :: rets).
Proof.
  intros Hg Ht Hsub. unfold intent_end. destruct (port_wait (dc_writer s) t) as [b w] eqn:Hw.
  apply wait_log in Hw as [Hstep _].
  set (s1 := set_writer w s). set (s2 := match o with Some e => _ | None => s1 end).
  assert (good s1 waiting rets) as [Hinv Hok] by (eapply good_step; [exact Hg|done|apply heap_le_refl|done..]).
  assert (capture_log s2 = capture_log s1) as Hlog by (by destruct o; [destruct b|]).
  split.
  - pose proof (inv_return fresh _ _ _ _ _ _ _ _ t o b Hinv Ht Hsub) as Hret. unfold capture_inv. rewrite Hlog.
    by destruct o; [destruct b|].
  - rewrite Hlog. intros i r st Hi. pose proof (Hok _ _ _ Hi) as Hat. destruct r; try done.
    destruct host_complete; [|done]. destruct Hat as (Hf & Hb & Hr & Hres). split; [done|split; [done|split; [done|]]].
    intros t' b' n r s' [[= -> -> ->]|Hin]%elem_of_cons Hle; [|by eapply Hres].
    apply lookup_lt_Some in Hi. lia.
Qed.

Lemma submit_all_good rs o s waiting rets : good s waiting rets →
  Forall (λ r, is_close r = false ∧ is_begin r = false ∧ ∃ id, epoch_of r = Some id ∧ writable s (Some o) id) rs →
  let s' := submit_all rs (Some o) s in good s' waiting rets ∧ Forall2 ep_le (dc_heap s) (dc_heap s').
Proof.
  unfold submit_all. intros Hg Hrs. revert s Hg Hrs.
  induction rs as [|r rs IH]; intros s Hg Hrs; [by split; [|apply heap_le_refl]|].
  apply Forall_cons in Hrs as [(Hc & Hb & id & Hid & Hw) Hrs]. simpl.
  destruct (submit r (Some o) s) as [t s1] eqn:Hs. simpl. pose proof (submit_heap _ _ _ _ _ Hs) as Hle.
  assert (good s1 waiting rets) as Hg1
    by (eapply submit_good; [done..|]; intros i Hi; rewrite Hid in Hi; by simplify_eq).
  destruct (IH s1 Hg1) as [Hg2 Hle2].
  { eapply Forall_impl; [exact Hrs|]. intros r' (? & ? & i & ? & ?). split_and!; [done..|].
    exists i. split; [done|]. by eapply writable_le. }
  split; [done|]. eapply Forall2_trans; [|exact Hle|exact Hle2].
  intros a b c (? & ? & ? & ? & ? & ?) (? & ? & ? & ? & ? & ?). unfold ep_le. split_and!; congruence || lia.
Qed.

Lemma identity_parts_records id summary parts dg : identity_parts sha256 id summary = (parts, dg) →
  Forall (λ r, is_close r = false ∧ is_begin r = false ∧ epoch_of r = Some id) parts.
Proof.
  unfold identity_parts. intros [= <- _]. apply Forall_lookup. intros i r Hr.
  rewrite list_lookup_imap in Hr. by destruct (_ !! i) as [c|]; simplify_eq/=.
Qed.

(** The close [close] writes for an epoch. *)
Definition close_record (epoch : Epoch) (summary : TurnCostSummary) (parts : nat) (digest : string) (begun : bool)
    : CaptureRecord :=
  EpochClose (ep_epoch_id epoch) (tc_turn_id summary) parts (length (tc_receipt_ids summary))
    (length (tc_unknown_attempt_ids summary)) digest (tc_pending_invocations summary) (tc_integrity_failures summary)
    (tc_known_subtotal_usd summary) (ep_intents epoch) (ep_unconfirmed_intents epoch) (ep_rejected epoch) begun
    (complete summary && begun && (ep_rejected epoch =? 0) && (ep_unconfirmed_intents epoch =? 0)).

Lemma close_complete_at heap epochs closed uuids l waiting rets e epoch summary parts digest begun :
  cap_inv fresh heap epochs closed uuids l waiting rets.*1 → heap !! e = Some epoch → ep_closing epoch = None →
  ep_turn_id epoch = tc_turn_id summary →
  (begun = true → ∃ r n, l !! ep_begin epoch = Some (r, TWritten n)) →
  complete_at l rets (length l) (close_record epoch summary parts digest begun).
Proof.
  intros Hinv He Hc Hturn Hbegun. unfold close_record. simpl.
  destruct (_ && (ep_unconfirmed_intents epoch =? 0)) eqn:Hb; [|done].
  apply andb_true_iff in Hb as [[[Hs ->]%andb_true_iff Hr%Z.eqb_eq]%andb_true_iff Hu%Z.eqb_eq].
  unfold complete in Hs. apply andb_true_iff in Hs as [[Hun%bool_decide_eq_true Hp%Z.eqb_eq]%andb_true_iff Hi%Z.eqb_eq].
  destruct (ci_clean _ _ _ _ _ _ _ _ Hinv e epoch He Hc Hr) as [Href Hres].
  split; [by rewrite Hun|split; [|split]].
  - destruct (Hbegun eq_refl) as (r & n & Hl). destruct (ci_begin _ _ _ _ _ _ _ _ Hinv e epoch He) as (sid & st & Hl').
    simplify_eq. exists (ep_begin epoch), sid, n. rewrite <- Hturn. split; [by eapply lookup_lt_Some|done].
  - intros j r s _. by apply Href.
  - intros t b n r s Hin _. apply (Hres Hu t b). apply list_elem_of_fmap. by exists (t, b, n).
Qed.

Lemma submit_close_good s e epoch summary parts digest begun t s' waiting rets : good s waiting rets →
  dc_heap s !! e = Some epoch → ep_closing epoch = None → ep_turn_id epoch = tc_turn_id summary →
  (begun = true → ∃ n, port_ticket (dc_writer s) (ep_begin epoch) = TWritten n) →
  submit (close_record epoch summary parts digest begun) (Some e) s = (t, s') →
  good (if ticket_failed_now s' t then s' else update_epoch (set_closing (Some t)) e s') waiting rets.
Proof.
  intros Hg He Hc Hturn Hbegun Hs. pose proof Hg as [Hinv Hok]. pose proof (submit_heap _ _ _ _ _ Hs) as Hle.
  apply submit_spec in Hs as (l & pre & st & Hlog & Hstep & Hpre & -> & Hst & Hf & Hh & He' & Hc' & Hu).
  assert (cap_inv fresh (dc_heap s) (dc_epochs s) (dc_closed s) (dc_uuids s) (l ++ pre) waiting rets.*1) as Hinv1
    by (eapply inv_extend; [done|apply heap_le_refl|lia|done|by apply new_ok_none]).
  assert (∀ t b n, (t, b, n) ∈ rets → (t < length (capture_log s))%nat) as Hrets by (intros ???; by eapply good_rets).
  assert (complete_ok (capture_log s') rets) as Hok'.
  { rewrite Hlog. apply (complete_ok_extend (l ++ pre)); [|apply log_step_refl| |].
    - eapply complete_ok_plain; [done..|by apply not_close_none].
    - intros t b n Hin%Hrets. rewrite length_app, <- (Forall2_length _ _ _ Hstep). lia.
    - intros i r s0 Hi. apply list_lookup_singleton_Some in Hi as [-> [= <- <-]]. rewrite Nat.add_0_r.
      eapply complete_at_extend; [|done|apply log_step_refl|].
      + eapply close_complete_at; [exact Hinv1|done..|]. intros Hb. destruct (Hbegun Hb) as [n Hn].
        rewrite port_ticket_log in Hn. fold (capture_log s) in Hn.
        destruct (ci_begin _ _ _ _ _ _ _ _ Hinv e epoch He) as (sid & s0 & Hl0). rewrite Hl0 in Hn. simpl in Hn. subst s0.
        destruct (log_step_lookup _ _ _ _ _ Hstep Hl0) as (s1 & Hl1 & Hs1). inversion Hs1; subst.
        eexists _, n. by apply lookup_app_l_Some.
      + intros t b n Hin%Hrets. rewrite length_app, <- (Forall2_length _ _ _ Hstep). lia. }
  rewrite Hf. destruct (failed st) eqn:Hfailed.
  - split; [|done]. unfold capture_inv. rewrite Hlog, He', Hc', Hu, Hh.
    eapply inv_extend; [exact Hinv1|apply alter_le, add_rejected_le|lia|apply log_step_refl|].
    apply Forall_singleton. split; [done|].
    exists e, (add_rejected epoch). rewrite list_lookup_alter_eq, He. split_and!; [done..|]. simpl. rewrite Hc.
    split; [destruct st; naive_solver|]. intros _. destruct (ci_counts _ _ _ _ _ _ _ _ Hinv _ _ He). lia.
  - split; [|done]. unfold capture_inv, update_epoch. simpl. fold (capture_log s').
    change (capture_log (set_epochs _ _ _ s')) with (capture_log s'). rewrite Hlog, He', Hc', Hu, Hh.
    by eapply inv_closing; [exact Hinv1|apply log_step_refl|..].
Qed.

Lemma close_good summary s waiting rets : good s waiting rets → good (close sha256 summary s).2 waiting rets.
Proof.
  intros Hg. unfold close. pose proof (current_good (tc_turn_id summary) s waiting rets Hg) as Hcur.
  destruct (current (tc_turn_id summary) s) as [[[e|] id] s1]; destruct Hcur as (Hg1 & Hw & Hn & Ht); [|done].
  destruct id as [id|]; [|by destruct (Hn eq_refl)]. specialize (Hw id eq_refl).
  change (default "" (Some id)) with id. cbv zeta. destruct (negb _).
  - destruct (match dc_heap s1 !! e with Some epoch => _ | None => true end); [done|].
    destruct (submit _ (Some e) s1) as [t s2] eqn:Hs. simpl.
    assert (good s2 waiting rets) as Hg2 by (eapply submit_good; [done..|]; by intros i [= <-]).
    eapply good_step; [exact Hg2|apply log_step_refl|apply alter_le; intros; apply set_terminal_le|done..].
  - destruct (identity_parts sha256 id summary) as [parts dg] eqn:Hparts.
    apply identity_parts_records in Hparts.
    destruct (submit_all_good parts e s1 waiting rets Hg1) as [Hg2 Hle].
    { eapply Forall_impl; [exact Hparts|]. intros r (? & ? & ?). eauto. }
    set (s2 := submit_all parts (Some e) s1) in *.
    destruct (dc_heap s2 !! e) as [epoch|] eqn:He2; [|done].
    destruct (port_wait (dc_writer s2) (ep_begin epoch)) as [begun w] eqn:Hwait. apply wait_log in Hwait as [Hstep Hbegun].
    set (s3 := set_writer w s2).
    assert (good s3 waiting rets) as Hg3 by (eapply good_step; [exact Hg2|done|apply heap_le_refl|done..]).
    destruct Hw as (e0 & ep & Hep & Hid & He0 & Hc). subst e0 id.
    destruct (Ht e eq_refl) as (ep0 & Hep0 & Hturn). rewrite Hep in Hep0. injection Hep0 as <-.
    eapply Forall2_lookup_l in Hle as (ep' & Hep' & (H1 & H2 & _ & H4 & _)); [|exact Hep].
    rewrite He2 in Hep'. injection Hep' as <-.
    destruct (submit _ (Some e) s3) as [t s4] eqn:Hs. rewrite <- H1 in Hs.
    assert (good (if ticket_failed_now s4 t then s4 else update_epoch (set_closing (Some t)) e s4) waiting rets) as Hg4
      by (eapply (submit_close_good s3 e epoch); [done|done|by rewrite H4|by rewrite H2|done|exact Hs]).
    by destruct (ticket_failed_now s4 t).
Qed.

Lemma stop_good s waiting rets : good s waiting rets → good (stop s).2 waiting rets.
Proof.
  intros Hg. unfold stop. set (s1 := foldl _ s _).
  assert (good s1 waiting rets) as Hg1.
  { unfold s1. generalize (od_keys (dc_epochs s)). intros turns. clear s1. revert s Hg.
    induction turns as [|turn turns IH]; intros s Hg; [done|]. simpl. apply IH, settle_good, Hg. }
  set (s2 := if dc_started s1 then _ else s1).
  assert (good s2 waiting rets) as Hg2.
  { unfold s2. destruct (dc_started s1); [|done]. destruct (raw_submit _ s1) as [t s3] eqn:Hr.
    apply raw_submit_spec in Hr as (_ & Hs3 & l & st & Hlog & Hstep & _). simpl.
    eapply (good_extend s1 s3 l); [done|done|done|rewrite Hs3; apply heap_le_refl|by rewrite Hs3..| |];
      by apply Forall_singleton. }
  pose proof (port_close_log (dc_writer s2)) as Hclose. destruct (port_close (dc_writer s2)) as [b w]. simpl in *.
  eapply good_step; [exact Hg2|done|apply heap_le_refl|done..].
Qed.

(** * Histories *)

(** Calls in the order their locked parts ran; [CallIntentReturns i] ends the wait of
    the [i]-th waiting intent. *)
Inductive capture_call :=
| CallEnableReportContext
| CallReportContext (turn_id session_id selection : string) (registry_hash strategy : option string)
| CallInvocationOpened (turn_id : string) (session_id : option string)
| CallInvocationEnded (turn_id invocation_id state : string)
| CallIntent (turn_id host_request_id stage : string) (session_id requested_model purpose : option string)
| CallIntentReturns (i : nat)
| CallReceipt (r : StageReceipt) (purpose : option string)
| CallIntegrityFailure (turn_id reason : string)
| CallClose (summary : TurnCostSummary)
| CallStop
| WriterWorks.

Record CaptureRun := mkCaptureRun {
  cr_capture : DurableCapture (W:=W);
  cr_waiting : list (nat * option nat);
  cr_returned : list (nat * bool * nat)
}.

Definition capture_step (x : CaptureRun) (c : capture_call) : CaptureRun :=
  let '(mkCaptureRun s waiting returned) := x in
  let to s := mkCaptureRun s waiting returned in
  match c with
  | CallEnableReportContext => to (enable_report_context s)
  | CallReportContext turn sid sel hash strat => to (report_context fresh turn sid sel hash strat s).2
  | CallInvocationOpened turn sid => to (invocation_opened fresh turn sid s).2
  | CallInvocationEnded turn inv st => to (invocation_ended turn inv st s)
  | CallIntent turn req stage sid model purpose =>
      match intent_begin fresh turn req stage sid model purpose s with
      | (Ok w, s) => mkCaptureRun s (w :: waiting) returned
      | (Err _, s) => to s
      end
  | CallIntentReturns i =>
      match waiting !! i with
      | Some (t, o) =>
          let '(b, s) := intent_end t o s in
          mkCaptureRun s (delete i waiting) ((t, b, length (capture_log s)) :: returned)
      | None => to s
      end
  | CallReceipt r purpose => to (receipt fresh r purpose s).2
  | CallIntegrityFailure turn reason => to (integrity_failure turn reason s)
  | CallClose summary => to (close sha256 summary s).2
  | CallStop => to (stop s).2
  | WriterWorks => to (set_writer (port_work (dc_writer s)) s)
  end.

Definition capture_run (w : W) (calls : list capture_call) : CaptureRun :=
  foldl capture_step (mkCaptureRun (new_capture w) [] []) calls.

Definition run_good (x : CaptureRun) : Prop := good (cr_capture x) (cr_waiting x) (cr_returned x).

Lemma capture_step_good x c : run_good x → run_good (capture_step x c).
Proof.
  destruct x as [s waiting returned]. unfold run_good. intros Hg. destruct c; simpl in *.
  - by eapply good_same.
  - by apply report_context_good.
  - by apply invocation_opened_good.
  - by apply invocation_ended_good.
  - pose proof (intent_begin_good turn_id host_request_id stage session_id requested_model purpose s waiting returned Hg) as Hb.
    by destruct (intent_begin _ _ _ _ _ _ _ s) as [[x|err] s1].
  - destruct (waiting !! i) as [[t o]|] eqn:Hi; [|done].
    pose proof (intent_end_good t o s waiting (delete i waiting) returned Hg) as He.
    destruct (intent_end t o s) as [b s1]. simpl. apply He; [by eapply list_elem_of_lookup_2|].
    intros y Hy. by eapply elem_of_submseteq, submseteq_delete.
  - by apply receipt_good.
  - by apply integrity_failure_good.
  - by apply close_good.
  - by apply stop_good.
  - eapply good_step; [exact Hg|apply port_work_log|apply heap_le_refl|done..].
Qed.

Lemma capture_run_good w calls : port_log w = [] → run_good (capture_run w calls).
Proof.
  intros Hw. unfold capture_run. assert (run_good (mkCaptureRun (new_capture w) [] [])) as Hg.
  { split.
    - unfold capture_inv, capture_log. simpl. rewrite Hw. constructor; simpl; try done; try constructor; set_solver.
    - unfold capture_log. simpl. rewrite Hw. by intros i r st ?. }
  revert Hg. generalize (mkCaptureRun (new_capture w) [] []). induction calls as [|c calls IH]; intros x Hg; [done|].
  simpl. apply IH, capture_step_good, Hg.
Qed.

(** * What a stream's records say *)

(** C24: after any history of calls, with the writer working at any time and failing
    or refusing any record, a turn has begun at most one epoch, under an id of its own;
    every record that names an epoch follows that epoch's begin; and after a close that
    waits to be written or has been written, what follows for its epoch is an opened or
    ended invocation, an intent, or a receipt or an integrity failure marked late. So
    no epoch has two closes of which neither failed, no identities, terminal snapshot or
    report context follow a close, and no receipt that follows it can be taken for part
    of it. *)
Theorem capture_epochs_sound w calls : port_log w = [] →
  let l := capture_log (cr_capture (capture_run w calls)) in
  (∀ i j id id' turn turn' sid sid' st st',
     l !! i = Some (EpochBegin id turn sid, st) → l !! j = Some (EpochBegin id' turn' sid', st') →
     id = id' ∨ turn = turn' → i = j) ∧
  (∀ i r st id, l !! i = Some (r, st) → epoch_of r = Some id →
     ∃ j turn sid st', (j ≤ i)%nat ∧ l !! j = Some (EpochBegin id turn sid, st')) ∧
  (∀ i j r r' st st' id, l !! i = Some (r, st) → failed st = false → is_close r = true →
     epoch_of r = Some id → (i < j)%nat → l !! j = Some (r', st') → epoch_of r' = Some id → straggler r' = true).
Proof.
  intros [Hinv _]%(capture_run_good _ calls) l. split_and!.
  - intros i j id id' turn turn' sid sid' st st' Hi Hj Heq.
    destruct (ci_begins _ _ _ _ _ _ _ _ Hinv _ _ _ _ _ Hi) as (e & ep & He & <- & <- & <-).
    destruct (ci_begins _ _ _ _ _ _ _ _ Hinv _ _ _ _ _ Hj) as (e' & ep' & He' & <- & <- & <-).
    assert (e = e') as -> by (destruct Heq; [by eapply (ci_ids _ _ _ _ _ _ _ _ Hinv)|by eapply (ci_turns _ _ _ _ _ _ _ _ Hinv)]).
    by simplify_eq.
  - intros i r st id Hi Hr. destruct (ci_tagged _ _ _ _ _ _ _ _ Hinv _ _ _ _ Hi Hr) as (e & ep & He & <- & Hle).
    destruct (ci_begin _ _ _ _ _ _ _ _ Hinv _ _ He) as (sid & st' & Hb). eauto 6.
  - intros i j r r' st st' id Hi Hst0 Hc Hr Hlt Hj Hr'.
    destruct (ci_tagged _ _ _ _ _ _ _ _ Hinv _ _ _ _ Hi Hr) as (e & ep & He & <- & _).
    destruct (ci_phase _ _ _ _ _ _ _ _ Hinv _ _ He) as [Hcl Hst].
    destruct (Hcl _ _ _ Hi Hr Hc) as [[? ->]|Hclosing]; [done|]. by eapply (proj2 (Hst i Hclosing)).
Qed.

(** C13: after any history of calls, a close that claims the host is complete tells the
    truth: its epoch's begin was durable when it was written, no record of the epoch
    before it was refused by the queue, every intent of the epoch that had returned by
    then had been durable within its wait, and no attempt is unknown, no invocation
    pending, no receipt refused. *)
Theorem host_complete_sound w calls : port_log w = [] →
  let x := capture_run w calls in
  ∀ i r st, capture_log (cr_capture x) !! i = Some (r, st) →
  complete_at (capture_log (cr_capture x)) (cr_returned x) i r.
Proof. intros [_ Hok]%(capture_run_good _ calls) x. exact Hok. Qed.
End calls.
