(* ===== verification/UsageContract.v ===== *)
(** The usage-capture contract, [optimus_security/usage_capture_contract.py]: the schema
    of every record's payload, the batches a host sends and the Gateway validates, and
    acknowledgements; and the host's builders of those payloads, from
    [optimus/usage/capture_events.py] and [optimus/usage/durable_capture.py].

    Parameters: SHA-256, the text of a time, what Python's [\d] takes for a digit beyond
    ASCII, and whether a usage carried its cache fact. An amount is a number of quanta of
    [10 ^ -SCALE]. *)
From Stdlib Require Ascii.
Import (notations) Ascii.
From stdpp Require Import pretty sorting.
From S2P Require Import Prelude Text Json JsonLoads Settlement Outbox Capture.

Local Open Scope string_scope.
Local Open Scope Z_scope.

Definition CONTRACT_VERSION : Z := 1.
Definition MAX_RECORDS : nat := 256.
Definition MAX_BODY_BYTES : N := (1024 * 1024)%N.
Definition MAX_STRING : nat := 512.

(** * Checks *)

Abbreviation Check := (json → bool).

Definition string_check : Check := λ v,
  match v with JString s => (0 <? py_len s)%nat && (py_len s <=? MAX_STRING)%nat | _ => false end.
Definition optional_check (check : Check) : Check := λ v, match v with JNull => true | _ => check v end.
Definition count_check : Check := λ v, match int_value v with Some n => 0 <=? n | None => false end.
Definition matches (pattern : string → bool) : Check := λ v, match v with JString s => pattern s | _ => false end.
Definition one_of (choices : list string) : Check := λ v,
  match v with JString s => bool_decide (s ∈ choices) | _ => false end.
Definition list_check (check : Check) : Check := λ v,
  match v with JArray l => (length l <=? MAX_LIST)%nat && forallb check l | _ => false end.
Definition strings_check : Check := list_check string_check.
Definition optional_strings : Check := list_check (optional_check string_check).
Definition boolean_check : Check := λ v, match v with JBool _ => true | _ => false end.

(** [_conforms]: exactly the schema's keys, and any of the optional ones. *)
Definition conforms (schema optional : list (string * Check)) : Check := λ v,
  match v with
  | JObject fields =>
      bool_decide (Forall (λ k, k ∈ od_keys fields) schema.*1) &&
      bool_decide (Forall (λ k, k ∈ schema.*1 ∨ k ∈ optional.*1) (od_keys fields)) &&
      forallb (λ kc, match od_get kc.1 fields with Some v => kc.2 v | None => false end) schema &&
      forallb (λ kc, match od_get kc.1 fields with Some v => kc.2 v | None => true end) optional
  | _ => false
  end.
Definition object_check (schema : list (string * Check)) : Check := conforms schema [].
Definition objects_check (schema : list (string * Check)) : Check := list_check (conforms schema []).

(** ** Patterns *)

Definition all_digits (s : string) : bool := forallb is_digit (String.list_ascii_of_string s).

(** [(0|[1-9][0-9]{0,30})(\.[0-9]{1,30})?]. *)
Definition decimal_whole (s : string) : bool :=
  String.eqb s "0" ||
  match s with
  | String c _ => negb (Ascii.eqb c "0") && all_digits s && (String.length s <=? 31)%nat
  | EmptyString => false
  end.
Definition is_decimal (s : string) : bool :=
  match split_char "." s with
  | [whole] => decimal_whole whole
  | [whole; fraction] => decimal_whole whole && all_digits fraction &&
      (1 <=? String.length fraction)%nat && (String.length fraction <=? 30)%nat
  | _ => false
  end.

(** [hex:[0-9a-f]{64}]. *)
Definition is_digest (s : string) : bool :=
  match after "hex:" s with Some d => is_hex 64 d | None => false end.

Section contract.
Variable sha256 : string → string.
Variable unicode_digit : string → bool.
Variable isoformat : timestamp → string.
Variable cache_reported : GatewayUsage → bool.
Variable SCALE : nat.

(** A character [\d] matches. *)
Definition digit_char (c : string) : bool :=
  match c with String a EmptyString => is_digit a | _ => unicode_digit c end.

(** A text against a list of patterns for its characters. *)
Fixpoint match_chars (patterns : list (string → bool)) (cs : list string) : option (list string) :=
  match patterns, cs with
  | [], _ => Some cs
  | p :: ps, c :: cs => if p c then match_chars ps cs else None
  | _ :: _, [] => None
  end.
Definition D : string → bool := digit_char.
Definition date_chars : list (string → bool) :=
  [D; D; D; D; String.eqb "-"; D; D; String.eqb "-"; D; D].
Definition is_date (s : string) : bool := bool_decide (match_chars date_chars (code_points s) = Some []).

(** [(\.\d{1,6})?(\+00:00|Z)]. *)
Fixpoint fraction_tail (seen allowed : nat) (cs : list string) : bool :=
  ((0 <? seen)%nat && (bool_decide (cs = ["Z"]) || bool_decide (cs = ["+"; "0"; "0"; ":"; "0"; "0"]))) ||
  match allowed, cs with
  | S n, c :: cs => digit_char c && fraction_tail (S seen) n cs
  | _, _ => false
  end.
Definition time_tail (cs : list string) : bool :=
  bool_decide (cs = ["Z"]) || bool_decide (cs = ["+"; "0"; "0"; ":"; "0"; "0"]) ||
  match cs with c :: cs => String.eqb c "." && fraction_tail 0 6 cs | [] => false end.
Definition is_timestamp (s : string) : bool :=
  match match_chars (date_chars ++ [String.eqb "T"; D; D; String.eqb ":"; D; D; String.eqb ":"; D; D])%list (code_points s) with
  | Some rest => time_tail rest
  | None => false
  end.

(** * Schemas *)

Definition S_ : Check := optional_check string_check.
Definition N_ : Check := optional_check count_check.
Definition AT : Check := matches is_timestamp.
Definition ID : Check := matches (is_hex 32).
Definition ID_ : Check := optional_check ID.
Definition USD : Check := matches is_decimal.
Definition USD_ : Check := optional_check USD.
Definition DIGEST : Check := matches is_digest.
Definition DATE_ : Check := optional_check (matches is_date).

Definition USAGE_SCHEMA : list (string * Check) :=
  [("gateway_request_id", string_check); ("provider", string_check); ("provider_request_id", S_);
   ("billing_units", count_check); ("cost_usd", USD); ("service", S_); ("native_unit", S_); ("model", S_);
   ("model_version", S_); ("price_snapshot_id", S_); ("resolved_provider", S_); ("resolved_model", S_);
   ("input_tokens", N_); ("output_tokens", N_); ("total_tokens", N_); ("reasoning_tokens", N_);
   ("cached_tokens", N_); ("cache_age_seconds", N_); ("route_request_id", S_); ("attempt", N_)].
Definition USAGE_OPTIONAL : list (string * Check) := [("cache_hit", boolean_check)].
Definition epoch_ids : Check := list_check ID.
Definition usage_check : Check := optional_check (conforms USAGE_SCHEMA USAGE_OPTIONAL).

Definition REGISTRY_ENTRY : list (string * Check) :=
  [("model", string_check); ("tier", S_); ("roles", strings_check); ("input_usd_per_million", USD_);
   ("output_usd_per_million", USD_);
   ("route", object_check [("providers", strings_check); ("quantizations", optional_strings);
                           ("allow_fallbacks", boolean_check); ("require_parameters", boolean_check)])].
Definition CATEGORY_PRICES : list (string * Check) := [("input", USD_); ("output", USD_); ("cached_input", USD_)].
Definition REFERENCE : list (string * Check) :=
  [("id", string_check); ("display", string_check); ("provider", S_);
   ("unit", one_of ["usd_per_million_tokens"]); ("prices", object_check CATEGORY_PRICES);
   ("tiers", objects_check [("min_input_tokens", count_check); ("prices", object_check CATEGORY_PRICES)]);
   ("reasoning_billed_as_output", optional_check boolean_check);
   ("reasoning_source", optional_check (object_check [("url", string_check); ("quote", string_check);
                                                      ("fetched_on", matches is_date)]));
   ("source", object_check [("url", S_); ("evidence", S_); ("revision", S_); ("price_as_of", DATE_)])].

Abbreviation schema := (list (string * Check)).
Definition stamped (rest : schema) : schema := ("kind", string_check) :: ("at", AT) :: rest.

Definition SCHEMAS : odict string schema :=
  [("stream.start", stamped []);
   ("stream.end", stamped [("open_epochs", epoch_ids)]);
   (GAP_KIND, [("kind", string_check); ("unconfirmed_from", count_check); ("unconfirmed_to", count_check)]);
   ("epoch.begin", stamped [("epoch_id", ID); ("turn_id", string_check); ("session_id", S_)]);
   ("epoch.terminal", stamped [("epoch_id", ID); ("turn_id", string_check); ("pending_invocations", count_check)]);
   ("epoch.identities", stamped [("epoch_id", ID); ("part", count_check); ("parts", count_check);
      ("settled_attempt_ids", strings_check); ("unknown_attempt_ids", strings_check)]);
   ("epoch.close", stamped [("epoch_id", ID); ("turn_id", string_check); ("identity_parts", count_check);
      ("settled_count", count_check); ("unknown_count", count_check); ("identities_digest", DIGEST);
      ("pending_invocations", count_check); ("integrity_failures", count_check); ("known_subtotal_usd", USD);
      ("intents", count_check); ("unconfirmed_intents", count_check); ("rejected_records", count_check);
      ("begin_confirmed", boolean_check); ("host_complete", boolean_check)]);
   ("invocation.open", stamped [("epoch_id", ID); ("invocation_id", ID)]);
   ("invocation.end", stamped [("epoch_id", ID_); ("invocation_id", ID); ("state", one_of ["ended"; "abandoned"])]);
   ("attempt.intent", stamped [("epoch_id", ID); ("host_request_id", string_check); ("stage", one_of STAGES);
      ("purpose", matches is_purpose); ("requested_model", S_)]);
   ("attempt.receipt", stamped [("epoch_id", ID); ("late", boolean_check); ("session_id", S_);
      ("turn_id", string_check); ("stage", one_of STAGES); ("purpose", matches is_purpose);
      ("attempt_id", string_check); ("gateway_request_id", S_); ("outcome", one_of OUTCOMES);
      ("reported_cost_usd", USD_); ("recorded_at", AT); ("requested_model", S_); ("role", S_);
      ("route", strings_check); ("reasoning", S_); ("quantizations", optional_strings); ("resolved_model", S_);
      ("provider", S_); ("resolved_provider", S_); ("strategy", S_); ("revision_digest", S_);
      ("registry_hash", S_); ("input_tokens", N_); ("output_tokens", N_); ("cached_tokens", N_);
      ("provider_request_id", S_); ("http_status", N_); ("post_teardown", boolean_check);
      ("usage", usage_check); ("facts_digest", DIGEST); ("settled_digest", DIGEST)]);
   ("integrity.failure", stamped [("epoch_id", ID_); ("turn_id", string_check); ("late", boolean_check);
      ("reason", one_of ["receipt_conflict"; "ledger_refused"])]);
   ("gateway.attempt.intent", stamped [("gateway_request_id", string_check); ("host_request_id", S_);
      ("attempt", count_check); ("route", S_)]);
   ("gateway.attempt.outcome", stamped [("gateway_request_id", string_check); ("attempt", count_check);
      ("outcome", one_of OUTCOMES); ("http_status", N_); ("cost_usd", USD_); ("billing_units", N_);
      ("intent_confirmed", boolean_check)]);
   ("turn.report_context", stamped [("epoch_id", ID); ("session_id", S_); ("turn_id", string_check);
      ("selection", one_of ["auto"; "fixed"]); ("registry_hash", S_); ("strategy", S_)]);
   ("gateway.registry.snapshot", stamped [("snapshot_id", DIGEST); ("registry_hash", string_check);
      ("price_as_of", DATE_); ("entries", objects_check REGISTRY_ENTRY)]);
   ("gateway.reference.snapshot", stamped [("snapshot_id", DIGEST); ("reference", object_check REFERENCE)])].

Definition SHARED_KINDS : list string := ["stream.start"; "stream.end"; GAP_KIND].
Definition KINDS_BY_WRITER : odict string (list string) :=
  [("host", (SHARED_KINDS ++ ["epoch.begin"; "epoch.terminal"; "epoch.identities"; "epoch.close";
      "invocation.open"; "invocation.end"; "attempt.intent"; "attempt.receipt"; "integrity.failure";
      "turn.report_context"])%list);
   ("gateway", (SHARED_KINDS ++ ["gateway.attempt.intent"; "gateway.attempt.outcome";
      "gateway.registry.snapshot"; "gateway.reference.snapshot"])%list)].

Inductive ContractError := mkContractError (code : string).

(** * Receipts *)

Definition RECEIPT_DIGEST_VERSION : string := "capture-receipt-v1".
Definition RECEIPT_NOT_FACTS : list string :=
  ["kind"; "at"; "recorded_at"; "post_teardown"; "late"; "epoch_id"; "facts_digest"; "settled_digest"].
Definition USAGE_ECHOES : list string :=
  ["provider"; "resolved_provider"; "resolved_model"; "input_tokens"; "output_tokens"; "cached_tokens";
   "provider_request_id"].

Definition fingerprint (facts : odict string json) : string :=
  "hex:" +:+ sha256 (json_dumps "," ":" (JArray [JString RECEIPT_DIGEST_VERSION; JObject facts])).

(** [receipt_fingerprints]. *)
Definition receipt_fingerprints (payload : odict string json) : string * string :=
  let facts := filter (λ kv, kv.1 ∉ RECEIPT_NOT_FACTS) payload in
  let facts := match od_get "usage" facts with
    | Some (JObject usage) =>
        od_set "usage" (JObject (od_set "cache_hit" (default (JBool false) (od_get "cache_hit" usage)) usage)) facts
    | _ => facts
    end in
  let settled := filter (λ kv, kv.1 ≠ "attempt_id") facts in
  (fingerprint facts, fingerprint settled).

(** [Decimal] of a plain decimal text: its digits and how many are behind the point. *)
Definition decimal_value (s : string) : option (N * nat) :=
  match split_char "." s with
  | [whole] => (λ n, (n, 0%nat)) <$> digits_value 0 whole
  | [whole; fraction] => (λ n, (n, String.length fraction)) <$> digits_value 0 (whole +:+ fraction)
  | _ => None
  end.
Definition decimal_equal (a b : N * nat) : bool :=
  (a.1 * 10 ^ N.of_nat b.2 =? b.1 * 10 ^ N.of_nat a.2)%N.
Definition same_decimal (left right : json) : bool :=
  match left, right with
  | JString a, JString b =>
      match decimal_value a, decimal_value b with Some x, Some y => decimal_equal x y | _, _ => false end
  | _, _ => false
  end.

(** [==] of values that a schema checked: texts, whole numbers and nulls. *)
Definition scalar_equal (a b : json) : bool :=
  match a, b with
  | JNull, JNull => true
  | JString x, JString y => String.eqb x y
  | JNumber _, JNumber _ => bool_decide (int_value a = int_value b)
  | JBool x, JBool y => Bool.eqb x y
  | _, _ => false
  end.

Definition field (k : string) (d : odict string json) : json := default JNull (od_get k d).
Definition is_text (s : string) (v : json) : bool := match v with JString x => String.eqb x s | _ => false end.
Definition is_null (v : json) : bool := match v with JNull => true | _ => false end.

(** [validate_receipt], of a payload that matches the schema. *)
Definition validate_receipt (payload : odict string json) : res ContractError unit :=
  let outcome := field "outcome" payload in
  let cost := field "reported_cost_usd" payload in
  let usage := field "usage" payload in
  let refuse b := raise_if b (mkContractError "receipt") in
  refuse (is_text "uncertain" outcome && negb (is_null cost)) ;;*
  refuse ((is_text "not_sent" outcome || is_text "rejected" outcome) &&
          negb (negb (is_null cost) && same_decimal cost (JString "0"))) ;;*
  refuse (is_text "unattributed" outcome && is_null usage) ;;*
  match usage with
  | JObject u =>
      refuse (negb (is_text "completed" outcome || is_text "unattributed" outcome) ||
              negb (same_decimal cost (field "cost_usd" u))) ;;*
      refuse (negb (scalar_equal (field "gateway_request_id" payload) (field "gateway_request_id" u))) ;;*
      refuse (existsb (λ k, negb (scalar_equal (field k payload) (field k u))) USAGE_ECHOES)
  | _ => Ok tt
  end ;;*
  let '(facts, settled) := receipt_fingerprints payload in
  refuse (negb (is_text facts (field "facts_digest" payload) && is_text settled (field "settled_digest" payload))).

(** * Payloads *)

Definition SNAPSHOT_VERSIONS : odict string string :=
  [("gateway.registry.snapshot", "registry-snapshot-v1"); ("gateway.reference.snapshot", "savings-reference-v1")].
Definition REGISTRY_BODY : list string := ["registry_hash"; "price_as_of"; "entries"].

Definition snapshot_id (kind : string) (payload : odict string json) : string :=
  let body := if String.eqb kind "gateway.reference.snapshot" then field "reference" payload
              else JObject ((λ k, (k, field k payload)) <$> REGISTRY_BODY) in
  "hex:" +:+ sha256 (json_dumps "," ":" (JArray [JString (default "" (od_get kind SNAPSHOT_VERSIONS)); body])).

(** [validate_payload]: the kind of a payload the writer may write. *)
Definition validate_payload (payload : json) (writer : string) : res ContractError string :=
  match payload with
  | JObject fields =>
      match od_get "kind" fields with
      | Some (JString kind) =>
          raise_if (negb (bool_decide (kind ∈ default [] (od_get writer KINDS_BY_WRITER)))) (mkContractError "kind") ;;*
          raise_if (negb (conforms (default [] (od_get kind SCHEMAS)) [] payload)) (mkContractError "payload") ;;*
          (if String.eqb kind "attempt.receipt" then validate_receipt fields else Ok tt) ;;*
          raise_if (bool_decide (is_Some (od_get kind SNAPSHOT_VERSIONS)) &&
                    negb (is_text (snapshot_id kind fields) (field "snapshot_id" fields))) (mkContractError "payload") ;;*
          Ok kind
      | _ => Err (mkContractError "kind")
      end
  | _ => Err (mkContractError "kind")
  end.

(** * Batches and acknowledgements *)

Record CaptureBatch := mkCaptureBatch {
  cb_writer : string;
  cb_stream_id : string;
  cb_ledger_instance : option string;
  cb_after_sequence : Z;
  cb_after_digest : string;
  cb_records : list OutboxRecord
}.

Record CaptureAck := mkCaptureAck {
  ca_ledger_instance : string;
  ca_stream_id : string;
  ca_sequence : Z;
  ca_digest : string;
  ca_conflicts : Z
}.

Definition text_or_null (s : option string) : json := match s with Some s => JString s | None => JNull end.

(** The document of [build_batch]. *)
Definition batch_document (writer stream_id : string) (ledger_instance : option string) (after_sequence : Z)
    (after_digest : string) (records : list OutboxRecord) : json :=
  JObject [("schema_version", JNumber (json_int CONTRACT_VERSION)); ("writer", JString writer);
           ("stream_id", JString stream_id); ("ledger_instance", text_or_null ledger_instance);
           ("after", JObject [("sequence", JNumber (json_int after_sequence)); ("digest", JString after_digest)]);
           ("records", JArray (JString ∘ ob_line <$> records))].

(** [build_batch]. *)
Definition build_batch (writer stream_id : string) (ledger_instance : option string) (after_sequence : Z)
    (after_digest : string) (records : list OutboxRecord) : string :=
  json_dumps_plain "," ":" (batch_document writer stream_id ledger_instance after_sequence after_digest records).

Definition REQUEST_KEYS : list string :=
  ["schema_version"; "writer"; "stream_id"; "ledger_instance"; "after"; "records"].
Definition ACK_KEYS : list string := ["status"; "ledger_instance"; "stream_id"; "sequence"; "digest"; "conflicts"].

Definition same_keys (keys : list string) (d : odict string json) : bool :=
  bool_decide (Forall (λ k, k ∈ keys) (od_keys d)) && bool_decide (Forall (λ k, k ∈ od_keys d) keys).

(** The loop of [parse_batch] over the lines. *)
Fixpoint parse_records (writer stream_id : string) (lines : list json) : res ContractError (list OutboxRecord) :=
  match lines with
  | [] => Ok []
  | JString line :: lines =>
      match (if ascii_text line then parse_line sha256 line else Err "") with
      | Err _ => Err (mkContractError "record")
      | Ok record =>
          raise_if (negb (String.eqb (ob_stream_id record) stream_id)) (mkContractError "stream") ;;*
          let* _ := validate_payload (JObject (ob_payload record)) writer in
          let* records := parse_records writer stream_id lines in
          Ok (record :: records)
      end
  | _ :: _ => Err (mkContractError "record")
  end.

Fixpoint increasing (records : list OutboxRecord) : bool :=
  match records with
  | a :: (b :: _) as rest => (ob_sequence a <? ob_sequence b) && increasing rest
  | _ => true
  end.

(** [parse_batch], of a body that reads as [document]. *)
Definition parse_document (document : odict string json) : res ContractError CaptureBatch :=
  raise_if (negb (same_keys REQUEST_KEYS document))
    (mkContractError (if bool_decide (Forall (λ k, k ∈ REQUEST_KEYS) (od_keys document)) then "malformed"
                      else "unknown_field")) ;;*
  raise_if (negb (is_schema_version (od_get "schema_version" document))) (mkContractError "schema") ;;*
  match field "writer" document with
  | JString writer =>
      raise_if (negb (bool_decide (is_Some (od_get writer KINDS_BY_WRITER)))) (mkContractError "writer") ;;*
      raise_if (negb (ID (field "stream_id" document)) || negb (ID_ (field "ledger_instance" document)))
        (mkContractError "stream") ;;*
      let stream_id := match field "stream_id" document with JString s => s | _ => "" end in
      let ledger := match field "ledger_instance" document with JString s => Some s | _ => None end in
      match field "after" document with
      | JObject after =>
          raise_if (negb (same_keys ["sequence"; "digest"] after)) (mkContractError "malformed") ;;*
          raise_if (negb (count_check (field "sequence" after)) || negb (matches (is_hex 64) (field "digest" after)))
            (mkContractError "malformed") ;;*
          let sequence := default 0 (int_value (field "sequence" after)) in
          let digest := match field "digest" after with JString s => s | _ => "" end in
          raise_if (negb (Bool.eqb (sequence =? 0) (String.eqb digest GENESIS))) (mkContractError "malformed") ;;*
          match field "records" document with
          | JArray lines =>
              raise_if (negb ((1 <=? length lines)%nat && (length lines <=? MAX_RECORDS)%nat)) (mkContractError "limit") ;;*
              let* records := parse_records writer stream_id lines in
              raise_if (negb (increasing records)) (mkContractError "order") ;;*
              Ok (mkCaptureBatch writer stream_id ledger sequence digest records)
          | _ => Err (mkContractError "limit")
          end
      | _ => Err (mkContractError "malformed")
      end
  | _ => Err (mkContractError "writer")
  end.

Definition parse_batch (body : string) : res ContractError CaptureBatch :=
  raise_if (MAX_BODY_BYTES <? N.of_nat (String.length body))%N (mkContractError "too_large") ;;*
  match json_loads body with
  | Some (JObject document) => parse_document document
  | _ => Err (mkContractError "malformed")
  end.

Definition build_ack (ack : CaptureAck) : json :=
  JObject [("status", JString "committed"); ("ledger_instance", JString (ca_ledger_instance ack));
           ("stream_id", JString (ca_stream_id ack)); ("sequence", JNumber (json_int (ca_sequence ack)));
           ("digest", JString (ca_digest ack)); ("conflicts", JNumber (json_int (ca_conflicts ack)))].

Definition parse_ack (document : json) (stream_id : string) : res ContractError CaptureAck :=
  match document with
  | JObject d =>
      raise_if (negb (same_keys ACK_KEYS d) || negb (is_text "committed" (field "status" d))) (mkContractError "malformed") ;;*
      raise_if (negb (is_text stream_id (field "stream_id" d)) || negb (ID (field "ledger_instance" d)))
        (mkContractError "stream") ;;*
      raise_if (negb (count_check (field "sequence" d) && (1 <=? default 0 (int_value (field "sequence" d))) &&
                      matches (is_hex 64) (field "digest" d) && count_check (field "conflicts" d)))
        (mkContractError "malformed") ;;*
      match field "ledger_instance" d, field "digest" d with
      | JString ledger, JString digest =>
          Ok (mkCaptureAck ledger stream_id (default 0 (int_value (field "sequence" d))) digest
                (default 0 (int_value (field "conflicts" d))))
      | _, _ => Err (mkContractError "malformed")
      end
  | _ => Err (mkContractError "malformed")
  end.

(** * The host's payloads *)

Fixpoint rstrip_zeros (s : string) : string :=
  match s with
  | EmptyString => ""
  | String c s' =>
      let r := rstrip_zeros s' in
      if String.eqb r "" && Ascii.eqb c "0" then "" else String c r
  end.

(** [decimal_text]: the plain decimal text of an amount, without trailing zeros. *)
Definition decimal_text (a : amount) : string :=
  let n := Z.to_N (Z.abs a) in
  let whole := pretty (n / 10 ^ N.of_nat SCALE)%N in
  let fraction := rstrip_zeros (padded SCALE (n mod 10 ^ N.of_nat SCALE)%N) in
  let text := if String.eqb fraction "" then whole else whole +:+ "." +:+ fraction in
  if a <? 0 then "-" +:+ text else text.

Definition int_or_null (n : option Z) : json := match n with Some n => JNumber (json_int n) | None => JNull end.
Definition usd_or_null (a : option amount) : json := match a with Some a => JString (decimal_text a) | None => JNull end.
Definition int_json (n : Z) : json := JNumber (json_int n).
Definition nat_json (n : nat) : json := int_json (Z.of_nat n).
Definition strings_json (l : list string) : json := JArray (JString <$> l).

(** [usage_payload]. *)
Definition usage_payload (u : GatewayUsage) : odict string json :=
  ([("gateway_request_id", JString (gu_gateway_request_id u)); ("provider", JString (gu_provider u));
    ("provider_request_id", text_or_null (gu_provider_request_id u));
    ("billing_units", int_json (gu_billing_units u)); ("cost_usd", JString (decimal_text (gu_cost_usd u)));
    ("service", text_or_null (gu_service u)); ("native_unit", text_or_null (gu_native_unit u));
    ("model", text_or_null (gu_model u)); ("model_version", text_or_null (gu_model_version u));
    ("price_snapshot_id", text_or_null (gu_price_snapshot_id u));
    ("resolved_provider", text_or_null (gu_resolved_provider u));
    ("resolved_model", text_or_null (gu_resolved_model u)); ("input_tokens", int_or_null (gu_input_tokens u));
    ("output_tokens", int_or_null (gu_output_tokens u)); ("total_tokens", int_or_null (gu_total_tokens u));
    ("reasoning_tokens", int_or_null (gu_reasoning_tokens u)); ("cached_tokens", int_or_null (gu_cached_tokens u));
    ("cache_age_seconds", int_or_null (gu_cache_age_seconds u));
    ("route_request_id", text_or_null (gu_route_request_id u)); ("attempt", int_or_null (gu_attempt u))]
   ++ if cache_reported u then [("cache_hit", JBool (gu_cache_hit u))] else [])%list.

(** [receipt_payload] without its kind, up to the fingerprints. *)
Definition receipt_facts (r : StageReceipt) (epoch_id : string) (late : bool) (purpose : string) : odict string json :=
  [("session_id", text_or_null (sr_session_id r)); ("turn_id", JString (sr_turn_id r)); ("stage", JString (sr_stage r));
   ("attempt_id", JString (sr_attempt_id r)); ("gateway_request_id", text_or_null (sr_gateway_request_id r));
   ("outcome", JString (sr_outcome r)); ("requested_model", text_or_null (sr_requested_model r));
   ("role", text_or_null (sr_role r)); ("reasoning", text_or_null (sr_reasoning r));
   ("resolved_model", text_or_null (sr_resolved_model r)); ("provider", text_or_null (sr_provider r));
   ("resolved_provider", text_or_null (sr_resolved_provider r)); ("strategy", text_or_null (sr_strategy r));
   ("revision_digest", text_or_null (sr_revision_digest r)); ("registry_hash", text_or_null (sr_registry_hash r));
   ("input_tokens", int_or_null (sr_input_tokens r)); ("output_tokens", int_or_null (sr_output_tokens r));
   ("cached_tokens", int_or_null (sr_cached_tokens r));
   ("provider_request_id", text_or_null (sr_provider_request_id r)); ("http_status", int_or_null (sr_http_status r));
   ("post_teardown", JBool (sr_post_teardown r)); ("epoch_id", JString epoch_id); ("purpose", JString purpose);
   ("route", strings_json (sr_route r)); ("quantizations", JArray (text_or_null <$> sr_quantizations r));
   ("reported_cost_usd", usd_or_null (sr_reported_cost_usd r)); ("recorded_at", JString (isoformat (sr_recorded_at r)));
   ("usage", match sr_gateway_usage r with Some u => JObject (usage_payload u) | None => JNull end);
   ("late", JBool late)].
Definition receipt_payload (r : StageReceipt) (epoch_id : string) (late : bool) (purpose : string) : odict string json :=
  let facts := receipt_facts r epoch_id late purpose in
  let '(facts_digest, settled_digest) := receipt_fingerprints facts in
  (facts ++ [("facts_digest", JString facts_digest); ("settled_digest", JString settled_digest)])%list.

Definition kind_of (r : CaptureRecord) : string :=
  match r with
  | StreamStart => "stream.start"
  | StreamEnd _ => "stream.end"
  | EpochBegin _ _ _ => "epoch.begin"
  | EpochTerminal _ _ _ => "epoch.terminal"
  | EpochIdentities _ _ _ _ _ => "epoch.identities"
  | EpochClose _ _ _ _ _ _ _ _ _ _ _ _ _ _ => "epoch.close"
  | InvocationOpen _ _ => "invocation.open"
  | InvocationEnd _ _ _ => "invocation.end"
  | AttemptIntent _ _ _ _ _ => "attempt.intent"
  | AttemptReceipt _ _ _ _ => "attempt.receipt"
  | IntegrityFailure _ _ _ _ => "integrity.failure"
  | TurnReportContext _ _ _ _ _ _ => "turn.report_context"
  end.

(** The facts each call of [_submit] passes. *)
Definition record_facts (r : CaptureRecord) : odict string json :=
  match r with
  | StreamStart => []
  | StreamEnd open_epochs => [("open_epochs", strings_json open_epochs)]
  | EpochBegin e t s => [("epoch_id", JString e); ("turn_id", JString t); ("session_id", text_or_null s)]
  | EpochTerminal e t n => [("epoch_id", JString e); ("turn_id", JString t); ("pending_invocations", int_json n)]
  | EpochIdentities e part parts settled unknown =>
      [("epoch_id", JString e); ("part", nat_json part); ("parts", nat_json parts);
       ("settled_attempt_ids", strings_json settled); ("unknown_attempt_ids", strings_json unknown)]
  | EpochClose e t parts settled unknown digest pending integrity subtotal intents unconfirmed rejected begun complete =>
      [("epoch_id", JString e); ("turn_id", JString t); ("identity_parts", nat_json parts);
       ("settled_count", nat_json settled); ("unknown_count", nat_json unknown); ("identities_digest", JString digest);
       ("pending_invocations", int_json pending); ("integrity_failures", int_json integrity);
       ("known_subtotal_usd", JString (decimal_text subtotal)); ("intents", int_json intents);
       ("unconfirmed_intents", int_json unconfirmed); ("rejected_records", int_json rejected);
       ("begin_confirmed", JBool begun); ("host_complete", JBool complete)]
  | InvocationOpen e i => [("epoch_id", JString e); ("invocation_id", JString i)]
  | InvocationEnd e i state => [("epoch_id", text_or_null e); ("invocation_id", JString i); ("state", JString state)]
  | AttemptIntent e req stage purpose model =>
      [("epoch_id", JString e); ("host_request_id", JString req); ("stage", JString stage);
       ("purpose", JString purpose); ("requested_model", text_or_null model)]
  | AttemptReceipt e late purpose r => receipt_payload r e late purpose
  | IntegrityFailure e t reason late =>
      [("epoch_id", text_or_null e); ("turn_id", JString t); ("reason", JString reason); ("late", JBool late)]
  | TurnReportContext e s t selection hash strategy =>
      [("epoch_id", JString e); ("session_id", JString s); ("turn_id", JString t); ("selection", JString selection);
       ("registry_hash", text_or_null hash); ("strategy", text_or_null strategy)]
  end.

(** The payload of a record written at a time. *)
Definition record_payload (at_ : timestamp) (r : CaptureRecord) : odict string json :=
  ("kind", JString (kind_of r)) :: ("at", JString (isoformat at_)) :: record_facts r.
End contract.

(** * Decimal texts *)

Lemma digits_all s : digits s → all_digits s = true.
Proof.
  unfold digits, all_digits. induction s as [|c s IH]; [done|]. simpl. destruct (is_digit c); [|done].
  destruct (take_digits s) as [d r] eqn:E. intros [= <- ->]. simpl. apply IH. congruence.
Qed.

Lemma all_digits_value s acc : all_digits s = true → ∃ n, digits_value acc s = Some n ∧ (acc * 10 ^ N.of_nat (String.length s) ≤ n)%N.
Proof.
  revert acc. induction s as [|c s IH]; intros acc Hs; [exists acc; split; [done|simpl; lia]|].
  unfold all_digits in *. simpl in *. apply andb_true_iff in Hs as [Hc Hs]. rewrite Hc.
  destruct (IH (acc * 10 + (Ascii.N_of_ascii c - 48))%N Hs) as (n & Hn & Hle). exists n. split; [done|].
  rewrite Nat2N.inj_succ, N.pow_succ_r by lia. nia.
Qed.

Lemma all_digits_app a b : all_digits (a +:+ b) = all_digits a && all_digits b.
Proof.
  unfold all_digits. induction a as [|c a IH]; [done|]. rewrite string_cons_app. simpl. by rewrite IH, andb_assoc.
Qed.

Lemma digit_no_point s : all_digits s = true → has_char "." s = false.
Proof.
  unfold all_digits. induction s as [|c s IH]; [done|]. simpl. intros [Hc Hs]%andb_true_iff. rewrite IH by done.
  rewrite orb_false_r. by apply (digit_cases c).
Qed.

Lemma pretty_whole n : (n < 10 ^ 31)%N → decimal_whole (pretty n) = true ∧ all_digits (pretty n) = true.
Proof.
  intros Hn. destruct (decide (n = 0%N)) as [->|Hpos]; [by split|].
  destruct (pretty_digits n "") as (c & d & Hp & Hd & Hc & Hv); [lia|]. rewrite string_app_nil in Hp.
  assert (pretty n = String c d) as ->.
  { rewrite <- Hp. unfold pretty, pretty_N. by rewrite decide_False. }
  apply digits_all in Hd. split; [|done]. unfold decimal_whole. rewrite Hc, Hd.
  assert (String.length (String c d) ≤ 31)%nat as Hlen; [|apply Nat.leb_le in Hlen as ->; by rewrite orb_true_r].
  simpl in Hv |- *. unfold all_digits in Hd. simpl in Hd. apply andb_true_iff in Hd as [Hcd Hd]. rewrite Hcd in Hv.
  destruct (all_digits_value d (Ascii.N_of_ascii c - 48) Hd) as (n' & Hn' & Hle). rewrite N.mul_0_l, N.add_0_l in Hv.
  rewrite Hv in Hn'. injection Hn' as <-.
  assert (1 ≤ Ascii.N_of_ascii c - 48)%N as Hone by (revert Hc; by apply (digit_cases c)).
  assert (10 ^ N.of_nat (String.length d) < 10 ^ 31)%N as Hlt by nia.
  apply N.pow_lt_mono_r_iff in Hlt; lia.
Qed.

Lemma padded_digits w n : all_digits (padded w n) = true ∧ String.length (padded w n) = w.
Proof.
  unfold all_digits. induction w as [|w [IH1 IH2]]; [done|]. cbn [padded String.list_ascii_of_string forallb String.length].
  rewrite IH1, IH2. destruct (pretty_char_value ((n / 10 ^ N.of_nat w) mod 10)) as [-> _]; [by apply N.mod_lt|done].
Qed.

Lemma rstrip_digits s : all_digits s = true →
  all_digits (rstrip_zeros s) = true ∧ (String.length (rstrip_zeros s) ≤ String.length s)%nat.
Proof.
  unfold all_digits. induction s as [|c s IH]; [done|]. simpl. intros [Hc Hs]%andb_true_iff.
  destruct (IH Hs) as [IH1 IH2]. destruct (_ && _); [split; [done|simpl; lia]|]. simpl. rewrite Hc, IH1. split; [done|lia].
Qed.

Lemma rstrip_padded_0 w : rstrip_zeros (padded w 0) = "".
Proof.
  induction w as [|w IH]; [done|]. cbn [padded rstrip_zeros]. rewrite IH, N.div_0_l by (apply N.pow_nonzero; lia). done.
Qed.

Section decimals.
Variable SCALE : nat.
Hypothesis scale_small : (SCALE ≤ 30)%nat.

(** The amounts a record can hold: none negative, and of at most 31 digits before the
    point. *)
Definition amount_ok (a : amount) : Prop := 0 ≤ a < 10 ^ 31 * 10 ^ Z.of_nat SCALE.

Lemma decimal_text_ok a : amount_ok a →
  is_decimal (decimal_text SCALE a) = true ∧ is_Some (decimal_value (decimal_text SCALE a)).
Proof.
  intros [Ha Hlt]. unfold decimal_text. rewrite (proj2 (Z.ltb_ge _ _) Ha), Z.abs_eq by done.
  set (n := Z.to_N a). set (whole := pretty (n / 10 ^ N.of_nat SCALE)%N).
  set (fraction := rstrip_zeros _).
  destruct (pretty_whole (n / 10 ^ N.of_nat SCALE)) as [Hw Hwd].
  { apply N.Div0.div_lt_upper_bound. unfold n. apply N2Z.inj_lt. rewrite Z2N.id, N2Z.inj_mul, !N2Z.inj_pow, nat_N_Z by done.
    rewrite Z.mul_comm in Hlt. exact Hlt. }
  fold whole in Hw, Hwd.
  destruct (padded_digits SCALE (n mod 10 ^ N.of_nat SCALE)) as [Hpd Hpl].
  destruct (rstrip_digits _ Hpd) as [Hfd Hfl]. fold fraction in Hfd, Hfl. rewrite Hpl in Hfl.
  unfold is_decimal, decimal_value. destruct (String.eqb_spec fraction "") as [Hf|Hf].
  - rewrite split_char_single by (by apply digit_no_point). split; [done|].
    destruct (all_digits_value whole 0 Hwd) as (v & -> & _). by eexists.
  - assert (split_char "." (whole +:+ "." +:+ fraction) = [whole; fraction]) as ->.
    { apply (split_char_join "." [whole; fraction]); [done|].
      repeat constructor; by apply digit_no_point. }
    rewrite Hw, Hfd. destruct (all_digits_value (whole +:+ fraction) 0) as (v & -> & _);
      [by rewrite all_digits_app, Hwd, Hfd|]. split; [|by eexists].
    assert (1 ≤ String.length fraction)%nat as ->%Nat.leb_le by (destruct fraction; [done|simpl; lia]).
    by apply Nat.leb_le; lia.
Qed.

Lemma same_decimal_refl a : amount_ok a →
  same_decimal (JString (decimal_text SCALE a)) (JString (decimal_text SCALE a)) = true.
Proof.
  intros Ha. unfold same_decimal. destruct (decimal_text_ok a Ha) as [_ [x ->]]. unfold decimal_equal. apply N.eqb_refl.
Qed.

Lemma decimal_text_0 : decimal_text SCALE 0 = "0".
Proof.
  unfold decimal_text. simpl Z.to_N. rewrite N.Div0.div_0_l, N.Div0.mod_0_l.
  by rewrite rstrip_padded_0.
Qed.
End decimals.

(** * What the host writes, the Gateway accepts *)

Definition text (s : string) : Prop := string_check (JString s) = true.
Definition opt_text (o : option string) : Prop := from_option text True o.
Definition opt_count (o : option Z) : Prop := from_option (λ n, 0 ≤ n) True o.

Lemma forallb_Forall {A} (f : A → bool) l : Forall (λ x, f x = true) l → forallb f l = true.
Proof. induction 1 as [|x l Hx _ IH]; [done|]. simpl. by rewrite Hx, IH. Qed.

Lemma text_or_null_ok o : opt_text o → S_ (text_or_null o) = true.
Proof. by destruct o. Qed.
Lemma count_ok n : 0 ≤ n → count_check (int_json n) = true.
Proof. intros Hn. unfold count_check, int_json. rewrite (proj2 (written_int n)). by apply Z.leb_le. Qed.
Lemma nat_ok n : count_check (nat_json n) = true.
Proof. apply count_ok. lia. Qed.
Lemma int_or_null_ok o : opt_count o → N_ (int_or_null o) = true.
Proof. destruct o as [n|]; [|done]. apply count_ok. Qed.
Lemma strings_ok l : (length l ≤ MAX_LIST)%nat → Forall text l → strings_check (strings_json l) = true.
Proof.
  intros Hl Ht. unfold strings_check, list_check, strings_json. rewrite length_fmap. apply Nat.leb_le in Hl as ->. simpl.
  apply forallb_Forall, Forall_fmap. by eapply Forall_impl.
Qed.
Lemma opt_strings_ok l : (length l ≤ MAX_LIST)%nat → Forall opt_text l → optional_strings (JArray (text_or_null <$> l)) = true.
Proof.
  intros Hl Ht. unfold optional_strings, list_check. rewrite length_fmap. apply Nat.leb_le in Hl as ->. simpl.
  apply forallb_Forall, Forall_fmap. eapply Forall_impl; [exact Ht|]. intros s Hs. by apply text_or_null_ok.
Qed.
Lemma ids_ok l : (length l ≤ MAX_LIST)%nat → Forall (λ i, is_hex 32 i = true) l → epoch_ids (strings_json l) = true.
Proof.
  intros Hl Ht. unfold epoch_ids, list_check, strings_json. rewrite length_fmap. apply Nat.leb_le in Hl as ->. simpl.
  apply forallb_Forall, Forall_fmap. by eapply Forall_impl.
Qed.

(** Checking an object field by field. *)
Lemma conforms_fields schema optional fields :
  bool_decide (Forall (λ k, k ∈ od_keys fields) schema.*1) = true →
  bool_decide (Forall (λ k, k ∈ schema.*1 ∨ k ∈ optional.*1) (od_keys fields)) = true →
  Forall (λ kc, ∃ v, od_get kc.1 fields = Some v ∧ kc.2 v = true) schema →
  Forall (λ kc, ∀ v, od_get kc.1 fields = Some v → kc.2 v = true) optional →
  conforms schema optional (JObject fields) = true.
Proof.
  intros H1 H2 H3 H4. unfold conforms. rewrite H1, H2. simpl. apply andb_true_iff. split.
  - apply forallb_Forall. eapply Forall_impl; [exact H3|]. intros kc (v & -> & ->). done.
  - apply forallb_Forall. eapply Forall_impl; [exact H4|]. intros kc Hv.
    destruct (od_get kc.1 fields) as [v|] eqn:E; [by apply Hv|done].
Qed.

Section host.
Variable sha256 : string → string.
Hypothesis sha256_hex : ∀ s, is_hex 64 (sha256 s) = true.
Variable unicode_digit : string → bool.
Variable isoformat : timestamp → string.
Hypothesis isoformat_ok : ∀ t, is_timestamp unicode_digit (isoformat t) = true.
Variable cache_reported : GatewayUsage → bool.
Variable SCALE : nat.
Hypothesis scale_small : (SCALE ≤ 30)%nat.

Lemma digest_ok s : is_digest ("hex:" +:+ sha256 s) = true.
Proof. unfold is_digest. simpl. apply sha256_hex. Qed.

(** What a usage and a receipt of the Gateway client hold. *)
Definition usage_ok (u : GatewayUsage) : Prop :=
  (text (gu_gateway_request_id u) ∧ text (gu_provider u) ∧ opt_text (gu_provider_request_id u) ∧
   0 ≤ gu_billing_units u ∧ amount_ok SCALE (gu_cost_usd u)) ∧
  Forall opt_text [gu_service u; gu_native_unit u; gu_model u; gu_model_version u; gu_price_snapshot_id u;
                   gu_resolved_provider u; gu_resolved_model u; gu_route_request_id u] ∧
  Forall opt_count [gu_input_tokens u; gu_output_tokens u; gu_total_tokens u; gu_reasoning_tokens u;
                    gu_cached_tokens u; gu_cache_age_seconds u; gu_attempt u].

Definition receipt_ok (r : StageReceipt) : Prop :=
  (∃ r0, post_init r0 = Ok r) ∧ text (sr_turn_id r) ∧ text (sr_attempt_id r) ∧
  Forall opt_text [sr_session_id r; sr_gateway_request_id r; sr_requested_model r; sr_role r; sr_reasoning r;
                   sr_resolved_model r; sr_provider r; sr_resolved_provider r; sr_strategy r; sr_revision_digest r;
                   sr_registry_hash r; sr_provider_request_id r] ∧
  Forall opt_count [sr_input_tokens r; sr_output_tokens r; sr_cached_tokens r; sr_http_status r] ∧
  from_option (amount_ok SCALE) True (sr_reported_cost_usd r) ∧ from_option usage_ok True (sr_gateway_usage r) ∧
  (length (sr_route r) ≤ MAX_LIST)%nat ∧ Forall text (sr_route r) ∧
  (length (sr_quantizations r) ≤ MAX_LIST)%nat ∧ Forall opt_text (sr_quantizations r).

Lemma usage_conforms u : usage_ok u → usage_check (JObject (usage_payload cache_reported SCALE u)) = true.
Proof.
  intros ((H1 & H2 & H3 & H4 & H5) & Ht & Hc). rewrite !Forall_cons in Ht. rewrite !Forall_cons in Hc. destruct_and!.
  unfold usage_check, optional_check. unfold usage_payload. destruct (cache_reported u); apply conforms_fields;
    [vm_compute; reflexivity|vm_compute; reflexivity| |..|vm_compute; reflexivity|vm_compute; reflexivity| |].
  1, 3: repeat constructor; eexists; (split; [reflexivity|]); simpl;
    first [done|by apply text_or_null_ok|by apply int_or_null_ok|by apply count_ok|by apply decimal_text_ok].
  - apply Forall_singleton. by intros v [= <-].
  - apply Forall_singleton. done.
Qed.

Lemma settle_fact_settled {A} `{EqDecision A} (current settled x : option A) :
  settle_fact current settled = Ok x → x = settled.
Proof. unfold settle_fact. destruct current; [case_decide|]; naive_solver. Qed.

(** What the constructor of a receipt has checked. *)
Lemma post_init_checked r0 r : post_init r0 = Ok r →
  sr_stage r ∈ STAGES ∧ sr_outcome r ∈ OUTCOMES ∧
  (sr_outcome r = "uncertain" → sr_reported_cost_usd r = None) ∧
  (sr_outcome r ∈ ZERO_COST_OUTCOMES → sr_reported_cost_usd r = Some 0) ∧
  (sr_outcome r = "unattributed" → sr_gateway_usage r ≠ None) ∧
  ∀ u, sr_gateway_usage r = Some u →
    sr_outcome r ∈ ["completed"; "unattributed"] ∧ sr_reported_cost_usd r = Some (gu_cost_usd u) ∧
    sr_gateway_request_id r = Some (gu_gateway_request_id u) ∧ sr_provider r = Some (gu_provider u) ∧
    sr_resolved_provider r = gu_resolved_provider u ∧ sr_resolved_model r = gu_resolved_model u ∧
    sr_input_tokens r = gu_input_tokens u ∧ sr_output_tokens r = gu_output_tokens u ∧
    sr_cached_tokens r = gu_cached_tokens u ∧ sr_provider_request_id r = gu_provider_request_id u.
Proof.
  unfold post_init. intros Hr. inv_res.
  assert (∀ (P : Prop) `{Decision P}, bool_decide (¬ P) = false → P) as Hdec
    by (intros P ? Hp; by apply bool_decide_eq_false, dec_stable in Hp).
  match goal with H : bool_decide (sr_stage _ ∉ _) || _ = false |- _ => apply orb_false_iff in H as [Hstage%Hdec Hout%Hdec] end.
  assert (sr_outcome r0 = "uncertain" → sr_reported_cost_usd r0 = None) as Hun.
  { intros He. match goal with H : bool_decide (_ = "uncertain") && _ = false |- _ => revert H end.
    rewrite (bool_decide_eq_true_2 _ He). destruct (sr_reported_cost_usd r0); [|done]. by rewrite bool_decide_eq_true_2. }
  assert (sr_outcome r0 ∈ ZERO_COST_OUTCOMES → sr_reported_cost_usd r0 = Some 0) as Hzero.
  { intros He. match goal with H : bool_decide (_ ∈ ZERO_COST_OUTCOMES) && _ = false |- _ => revert H end.
    rewrite (bool_decide_eq_true_2 _ He). apply Hdec. }
  assert (sr_outcome r0 = "unattributed" → sr_gateway_usage r0 ≠ None) as Hatt.
  { intros He Hn. match goal with H : bool_decide (_ = "unattributed") && _ = false |- _ => revert H end.
    by rewrite (bool_decide_eq_true_2 _ He), (bool_decide_eq_true_2 _ Hn). }
  destruct (sr_gateway_usage r0) as [u|] eqn:Hu; inv_res; [|by rewrite Hu].
  match goal with H : _ || _ || _ = false |- _ => apply orb_false_iff in H as [[Ho%Hdec Hc%Hdec]%orb_false_iff Hg%Hdec] end.
  repeat match goal with H : settle_fact _ _ = Ok _ |- _ => apply settle_fact_settled in H end.
  simpl. rewrite ?Hu. split_and!; [done..|]. intros u' [= <-]. done.
Qed.

Abbreviation payload_of := (record_payload sha256 isoformat cache_reported SCALE).

(** The fingerprints the Gateway computes are the ones the host wrote. *)
Lemma fingerprints_recomputed at_ e late purpose r :
  receipt_fingerprints sha256 (payload_of at_ (AttemptReceipt e late purpose r)) =
  receipt_fingerprints sha256 (receipt_facts isoformat cache_reported SCALE r e late purpose).
Proof.
  unfold record_payload, record_facts, receipt_payload, receipt_facts.
  destruct (receipt_fingerprints _ _) as [f s]. reflexivity.
Qed.

Lemma payload_digests at_ e late purpose r :
  let p := payload_of at_ (AttemptReceipt e late purpose r) in
  let d := receipt_fingerprints sha256 (receipt_facts isoformat cache_reported SCALE r e late purpose) in
  field "facts_digest" p = JString d.1 ∧ field "settled_digest" p = JString d.2.
Proof.
  unfold record_payload, record_facts, receipt_payload. destruct (receipt_fingerprints _ _) as [f s]. done.
Qed.

(** The fields of a written receipt the contract's rules speak of. *)
Lemma payload_fields at_ e late purpose r :
  let p := payload_of at_ (AttemptReceipt e late purpose r) in
  field "outcome" p = JString (sr_outcome r) ∧ field "reported_cost_usd" p = usd_or_null SCALE (sr_reported_cost_usd r) ∧
  field "usage" p = match sr_gateway_usage r with Some u => JObject (usage_payload cache_reported SCALE u) | None => JNull end ∧
  field "gateway_request_id" p = text_or_null (sr_gateway_request_id r) ∧
  (λ k, field k p) <$> USAGE_ECHOES =
    [text_or_null (sr_provider r); text_or_null (sr_resolved_provider r); text_or_null (sr_resolved_model r);
     int_or_null (sr_input_tokens r); int_or_null (sr_output_tokens r); int_or_null (sr_cached_tokens r);
     text_or_null (sr_provider_request_id r)].
Proof.
  unfold record_payload, record_facts, receipt_payload. destruct (receipt_fingerprints _ _) as [f s]. done.
Qed.

Lemma usage_fields u :
  let p := usage_payload cache_reported SCALE u in
  field "cost_usd" p = JString (decimal_text SCALE (gu_cost_usd u)) ∧
  field "gateway_request_id" p = JString (gu_gateway_request_id u) ∧
  (λ k, field k p) <$> USAGE_ECHOES =
    [JString (gu_provider u); text_or_null (gu_resolved_provider u); text_or_null (gu_resolved_model u);
     int_or_null (gu_input_tokens u); int_or_null (gu_output_tokens u); int_or_null (gu_cached_tokens u);
     text_or_null (gu_provider_request_id u)].
Proof. unfold usage_payload. by destruct (cache_reported u). Qed.

Lemma scalar_equal_refl v : match v with JArray _ | JObject _ => False | _ => True end → scalar_equal v v = true.
Proof. destruct v as [| [] | | | |]; simpl; try done; intros _; [by apply bool_decide_eq_true|apply String.eqb_refl]. Qed.

Lemma existsb_fields (a b : odict string json) keys : (λ k, field k a) <$> keys = (λ k, field k b) <$> keys →
  Forall (λ k, match field k a with JArray _ | JObject _ => False | _ => True end) keys →
  existsb (λ k, negb (scalar_equal (field k a) (field k b))) keys = false.
Proof.
  induction keys as [|k keys IH]; [done|]. simpl. intros [= Hk Hks] Hs. apply Forall_cons in Hs as [Hs Hss].
  by rewrite <- Hk, scalar_equal_refl, IH.
Qed.

Lemma echoes_equal at_ e late purpose r u :
  sr_provider r = Some (gu_provider u) → sr_resolved_provider r = gu_resolved_provider u →
  sr_resolved_model r = gu_resolved_model u → sr_input_tokens r = gu_input_tokens u →
  sr_output_tokens r = gu_output_tokens u → sr_cached_tokens r = gu_cached_tokens u →
  sr_provider_request_id r = gu_provider_request_id u →
  existsb (λ k, negb (scalar_equal (field k (payload_of at_ (AttemptReceipt e late purpose r)))
                                   (field k (usage_payload cache_reported SCALE u)))) USAGE_ECHOES = false.
Proof.
  intros H1 H2 H3 H4 H5 H6 H7. destruct (payload_fields at_ e late purpose r) as (_ & _ & _ & _ & Hp).
  destruct (usage_fields u) as (_ & _ & Hu). apply existsb_fields.
  - by rewrite Hp, Hu, H1, H2, H3, H4, H5, H6, H7.
  - assert (Forall (λ v, match v with JArray _ | JObject _ => False | _ => True end)
      ((λ k, field k (payload_of at_ (AttemptReceipt e late purpose r))) <$> USAGE_ECHOES)) as Hs.
    { assert (∀ o, match text_or_null o with JArray _ | JObject _ => False | _ => True end) as Ht by (by intros []).
      assert (∀ o, match int_or_null o with JArray _ | JObject _ => False | _ => True end) as Hi by (by intros []).
      rewrite Hp, !Forall_cons. split_and!; try apply Ht; try apply Hi. constructor. }
    by apply Forall_fmap in Hs.
Qed.

Lemma receipt_valid at_ e late purpose r : receipt_ok r →
  validate_receipt sha256 (payload_of at_ (AttemptReceipt e late purpose r)) = Ok tt.
Proof.
  intros ((r0 & Hr0) & _ & _ & _ & _ & Hcost & Husage & _).
  destruct (post_init_checked _ _ Hr0) as (_ & Hout & Hun & Hzero & Hatt & Hu).
  unfold validate_receipt. rewrite fingerprints_recomputed.
  destruct (payload_fields at_ e late purpose r) as (-> & -> & -> & -> & _).
  destruct (payload_digests at_ e late purpose r) as [-> ->].
  destruct (receipt_fingerprints sha256 (receipt_facts _ _ _ _ _ _ _)) as [f s]. simpl is_text.
  rewrite !String.eqb_refl. simpl negb. cbv iota.
  assert (raise_if ((String.eqb (sr_outcome r) "uncertain" && negb (is_null (usd_or_null SCALE (sr_reported_cost_usd r)))))
    (mkContractError "receipt") = Ok tt) as ->.
  { destruct (String.eqb_spec (sr_outcome r) "uncertain") as [He|]; [by rewrite (Hun He)|done]. }
  assert (raise_if ((String.eqb (sr_outcome r) "not_sent" || String.eqb (sr_outcome r) "rejected") &&
    negb (negb (is_null (usd_or_null SCALE (sr_reported_cost_usd r))) &&
          same_decimal (usd_or_null SCALE (sr_reported_cost_usd r)) (JString "0"))) (mkContractError "receipt") = Ok tt) as ->.
  { destruct (_ || _) eqn:Ho; [|done]. rewrite Hzero; [simpl; by rewrite decimal_text_0|].
    apply orb_true_iff in Ho as [->%String.eqb_eq| ->%String.eqb_eq]; set_solver. }
  destruct (sr_gateway_usage r) as [u|] eqn:Hru.
  - destruct (Hu u eq_refl) as (Hcompl & Hc & Hg & H1 & H2 & H3 & H4 & H5 & H6 & H7).
    simpl in Husage. destruct Husage as ((_ & _ & _ & _ & Ham) & _).
    destruct (usage_fields u) as (-> & -> & _). rewrite Hc, Hg, (echoes_equal _ _ _ _ _ u) by done.
    change (usd_or_null SCALE (Some (gu_cost_usd u))) with (JString (decimal_text SCALE (gu_cost_usd u))).
    rewrite same_decimal_refl by done. simpl. rewrite String.eqb_refl.
    rewrite !elem_of_cons in Hcompl. destruct Hcompl as [->|[->|[]%not_elem_of_nil]]; done.
  - simpl. destruct (String.eqb_spec (sr_outcome r) "unattributed") as [He|]; [|done]. by destruct (Hatt He).
Qed.

(** The records within the contract's limits: identities of the form of [uuid4().hex],
    texts within the limit, counts that are none of them negative, lists within the
    limit. [HostRecords] shows which of them a capture writes. *)
Abbreviation id i := (is_hex 32 i = true).
Definition record_ok (r : CaptureRecord) : Prop :=
  match r with
  | StreamStart => True
  | StreamEnd open_epochs => (length open_epochs ≤ MAX_LIST)%nat ∧ Forall (λ i, id i) open_epochs
  | EpochBegin e t s => id e ∧ text t ∧ opt_text s
  | EpochTerminal e t n => id e ∧ text t ∧ 0 ≤ n
  | EpochIdentities e _ _ settled unknown =>
      id e ∧ (length settled ≤ MAX_LIST)%nat ∧ Forall text settled ∧ (length unknown ≤ MAX_LIST)%nat ∧ Forall text unknown
  | EpochClose e t _ _ _ digest pending integrity subtotal intents unconfirmed rejected _ _ =>
      id e ∧ text t ∧ is_digest digest = true ∧ 0 ≤ pending ∧ 0 ≤ integrity ∧ amount_ok SCALE subtotal ∧
      0 ≤ intents ∧ 0 ≤ unconfirmed ∧ 0 ≤ rejected
  | InvocationOpen e i => id e ∧ id i
  | InvocationEnd e i state => from_option (λ e, id e) True e ∧ id i ∧ state ∈ ["ended"; "abandoned"]
  | AttemptIntent e req stage purpose model =>
      id e ∧ text req ∧ stage ∈ STAGES ∧ is_purpose purpose = true ∧ opt_text model
  | AttemptReceipt e _ purpose r => id e ∧ is_purpose purpose = true ∧ receipt_ok r
  | IntegrityFailure e t reason _ =>
      from_option (λ e, id e) True e ∧ text t ∧ reason ∈ ["receipt_conflict"; "ledger_refused"]
  | TurnReportContext e s t selection hash strategy =>
      id e ∧ text s ∧ text t ∧ selection ∈ ["auto"; "fixed"] ∧ opt_text hash ∧ opt_text strategy
  end.

Lemma at_ok t : AT unicode_digit (JString (isoformat t)) = true.
Proof. apply isoformat_ok. Qed.
Lemma one_of_ok s l : s ∈ l → one_of l (JString s) = true.
Proof. intros Hs. by apply bool_decide_eq_true. Qed.
Lemma id_or_null_ok o : from_option (λ e, id e) True o → ID_ (text_or_null o) = true.
Proof. by destruct o. Qed.
Lemma usd_or_null_ok o : from_option (amount_ok SCALE) True o → USD_ (usd_or_null SCALE o) = true.
Proof. destruct o as [a|]; [|done]. intros Ha. by apply decimal_text_ok. Qed.
Lemma usage_or_null_ok o : from_option usage_ok True o →
  usage_check (match o with Some u => JObject (usage_payload cache_reported SCALE u) | None => JNull end) = true.
Proof. destruct o; [|done]. apply usage_conforms. Qed.
Lemma usd_ok a : amount_ok SCALE a → USD (JString (decimal_text SCALE a)) = true.
Proof. intros Ha. by apply decimal_text_ok. Qed.
Lemma fingerprint_ok p : DIGEST (JString (receipt_fingerprints sha256 p).1) = true ∧
  DIGEST (JString (receipt_fingerprints sha256 p).2) = true.
Proof. split; apply digest_ok. Qed.

Ltac check_fields :=
  apply conforms_fields; [vm_compute; reflexivity|vm_compute; reflexivity| |constructor];
  repeat constructor; eexists; (split; [reflexivity|]); cbn [snd];
  first [done|apply at_ok|by apply text_or_null_ok|by apply int_or_null_ok|by apply count_ok|apply nat_ok
        |by apply strings_ok|by apply opt_strings_ok|by apply ids_ok|by apply id_or_null_ok|by apply usd_ok
        |by apply usd_or_null_ok|by apply usage_or_null_ok|by apply one_of_ok|apply fingerprint_ok].

Lemma record_conforms at_ r : record_ok r →
  conforms (default [] (od_get (kind_of r) (SCHEMAS unicode_digit))) [] (JObject (payload_of at_ r)) = true.
Proof.
  destruct r; intros Hr; simpl in Hr; try (destruct_and?; check_fields; fail).
  destruct Hr as (He & Hp & ((r0 & Hr0) & Ht & Ha & Htexts & Hcounts & Hcost & Husage & Hrl & Hrt & Hql & Hqt)).
  destruct (post_init_checked _ _ Hr0) as (Hstage & Hout & _).
  rewrite !Forall_cons in Htexts. rewrite !Forall_cons in Hcounts. destruct_and!.
  unfold record_payload, record_facts, receipt_payload.
  pose proof (fingerprint_ok (receipt_facts isoformat cache_reported SCALE receipt epoch_id late purpose)) as [Hf Hs].
  destruct (receipt_fingerprints _ _) as [f s]. simpl in Hf, Hs. check_fields.
Qed.
End host.

(** * The order of keys does not matter *)

(** A frame holds its payload with sorted keys. *)
Definition stable (c : Check) : Prop := ∀ v, json_ok v → c (json_sorted v) = c v.

Create HintDb stable.

Lemma stable_string : stable string_check.
Proof. by intros []. Qed.
Lemma stable_count : stable count_check.
Proof. by intros []. Qed.
Lemma stable_matches p : stable (matches p).
Proof. by intros []. Qed.
Lemma stable_one_of l : stable (one_of l).
Proof. by intros []. Qed.
Lemma stable_boolean : stable boolean_check.
Proof. by intros []. Qed.
Lemma stable_optional c : stable c → stable (optional_check c).
Proof. intros Hc [] Hv; try done; by apply Hc. Qed.
Lemma stable_list c : stable c → stable (list_check c).
Proof.
  intros Hc [] Hv; try done. inversion_clear Hv as [| | | |? Hl|]. simpl. rewrite length_map. f_equal.
  induction Hl as [|v l Hv Hl IH]; [done|]. simpl. by rewrite Hc, IH.
Qed.
#[export] Hint Resolve stable_string stable_count stable_matches stable_one_of stable_boolean stable_optional
  stable_list : stable.

Lemma sorted_keys p : od_keys (sorted_payload p) ≡ₚ od_keys p.
Proof. unfold sorted_payload, od_keys. rewrite merge_sort_Permutation, fmap_keys. done. Qed.

Lemma bool_decide_Forall_perm (P : string → Prop) `{∀ x, Decision (P x)} l k : l ≡ₚ k →
  bool_decide (Forall P l) = bool_decide (Forall P k).
Proof. intros Hp. apply bool_decide_ext. by rewrite Hp. Qed.

Lemma stable_conforms schema optional : Forall (λ kc, stable kc.2) schema → Forall (λ kc, stable kc.2) optional →
  stable (conforms schema optional).
Proof.
  intros Hs Ho v Hv. destruct v as [| | | | |fields]; try done. inversion_clear Hv as [| | | | |? Hnd Hk Hvs].
  change (json_sorted (JObject fields)) with (JObject (sorted_payload fields)). unfold conforms.
  assert (∀ k, od_get k (sorted_payload fields) = json_sorted <$> od_get k fields) as Hget
    by (intros k; by apply od_get_sorted).
  assert (∀ k v, od_get k fields = Some v → json_ok v) as Hok.
  { intros k v Hk'. apply od_get_Some_in in Hk'. rewrite Forall_fmap, Forall_forall in Hvs. by apply (Hvs (k, v)). }
  rewrite (bool_decide_Forall_perm _ _ _ (sorted_keys fields)). f_equal; [f_equal; [f_equal|]|].
  - apply bool_decide_ext. apply Forall_proper; [|done]. intros k. by rewrite sorted_keys.
  - clear -Hs Hget Hok. induction Hs as [|kc l Hkc _ IH]; [done|]. simpl. rewrite Hget, IH. f_equal.
    destruct (od_get kc.1 fields) as [v|] eqn:E; [|done]. simpl. by apply Hkc, (Hok _ _ E).
  - clear -Ho Hget Hok. induction Ho as [|kc l Hkc _ IH]; [done|]. simpl. rewrite Hget, IH. f_equal.
    destruct (od_get kc.1 fields) as [v|] eqn:E; [|done]. simpl. by apply Hkc, (Hok _ _ E).
Qed.

Ltac solve_stable :=
  repeat first [apply Forall_nil_2 | apply Forall_cons_2 | apply stable_conforms | apply stable_optional
               | apply stable_list | progress cbn [snd] | solve [auto with stable]].

Lemma schemas_stable unicode_digit kind :
  Forall (λ kc, stable kc.2) (default [] (od_get kind (SCHEMAS unicode_digit))).
Proof.
  assert (Forall (λ ks, Forall (λ kc, stable kc.2) ks.2) (SCHEMAS unicode_digit)) as Hs.
  { unfold SCHEMAS, stamped, S_, N_, AT, ID_, ID, USD_, USD, DIGEST, DATE_, epoch_ids, usage_check, USAGE_SCHEMA,
      USAGE_OPTIONAL, objects_check, object_check, strings_check, optional_strings. unfold REGISTRY_ENTRY, REFERENCE,
      CATEGORY_PRICES, object_check, objects_check, strings_check, optional_strings, S_, USD_, USD, DATE_, ID.
    solve_stable. }
  destruct (od_get kind (SCHEMAS unicode_digit)) as [s|] eqn:E; [|constructor]. apply od_get_Some_in in E.
  rewrite Forall_forall in Hs. by apply (Hs (kind, s)).
Qed.

Section sorted.
Variable sha256 : string → string.

Lemma field_sorted k p : NoDup p.*1 → field k (sorted_payload p) = json_sorted (field k p).
Proof. intros Hnd. unfold field. rewrite od_get_sorted by done. by destruct (od_get k p). Qed.

Lemma scalar_equal_sorted a b : scalar_equal (json_sorted a) (json_sorted b) = scalar_equal a b.
Proof. by destruct a, b. Qed.
Lemma is_text_sorted s v : is_text s (json_sorted v) = is_text s v.
Proof. by destruct v. Qed.
Lemma is_null_sorted v : is_null (json_sorted v) = is_null v.
Proof. by destruct v. Qed.
Lemma same_decimal_sorted a b : same_decimal (json_sorted a) (json_sorted b) = same_decimal a b.
Proof. by destruct a, b. Qed.

(** A dictionary as it is written: the text of each value. *)
Definition texts (d : odict string json) : odict string string := (λ kv, (kv.1, dumps kv.2)) <$> d.

(** Two dictionaries that are written as the same text. *)
Definition same_text (l k : odict string json) : Prop := NoDup l.*1 ∧ texts l ≡ₚ texts k.

Lemma texts_keys l : (texts l).*1 = l.*1.
Proof. apply fmap_keys. Qed.

Lemma same_text_dumps l k : same_text l k → dumps (JObject l) = dumps (JObject k).
Proof.
  intros [Hnd Hp]. cbn [json_dumps]. do 4 f_equal. change (map ?f l) with (texts l). change (map ?f k) with (texts k).
  apply keys_sorted_unique.
  - by rewrite merge_sort_Permutation, texts_keys.
  - apply StronglySorted_merge_sort; apply _.
  - apply StronglySorted_merge_sort; apply _.
  - by rewrite !merge_sort_Permutation.
Qed.

Lemma same_text_fingerprint l k : same_text l k → fingerprint sha256 l = fingerprint sha256 k.
Proof.
  intros Hs. unfold fingerprint.
  change (dumps (JArray [?x; JObject l])) with ("[" +:+ join "," [dumps x; dumps (JObject l)] +:+ "]").
  by rewrite (same_text_dumps _ _ Hs).
Qed.

Lemma same_text_filter (P : string → Prop) `{∀ k, Decision (P k)} l k : same_text l k →
  same_text (filter (λ kv, P kv.1) l) (filter (λ kv, P kv.1) k).
Proof.
  assert (∀ d, texts (filter (λ kv, P kv.1) d) = filter (λ kv, P kv.1) (texts d)) as Hf.
  { intros d. induction d as [|[x v] d IH]; [done|]. unfold texts in *. rewrite fmap_cons, !filter_cons. simpl.
    case_decide; [rewrite fmap_cons; by rewrite IH|done]. }
  intros [Hnd Hp]. split; [|by rewrite !Hf, Hp].
  clear -Hnd. induction l as [|[x v] l IH]; [done|]. simpl in Hnd. apply NoDup_cons in Hnd as [Hn Hnd].
  rewrite filter_cons. simpl. case_decide; [|auto]. simpl. apply NoDup_cons. split; [|auto].
  intros (y & -> & Hy)%list_elem_of_fmap. apply list_elem_of_filter in Hy as [_ Hy].
  apply Hn, list_elem_of_fmap. eauto.
Qed.

Lemma od_set_perm (k v : string) (d : odict string string) : NoDup d.*1 → od_set k v d ≡ₚ (k, v) :: filter (λ kv, kv.1 ≠ k) d.
Proof.
  induction d as [|[k' v'] d IH]; [done|]. intros Hnd. simpl in Hnd. apply NoDup_cons in Hnd as [Hn Hnd].
  cbn [od_set]. rewrite filter_cons. simpl. destruct (decide (k = k')) as [->|Hne].
  - rewrite decide_False by tauto. apply Permutation_skip.
    clear IH Hnd. induction d as [|[x y] d IH]; [done|]. simpl in Hn. apply not_elem_of_cons in Hn as [Hx Hn].
    rewrite filter_cons_True by (simpl; congruence). by rewrite <- IH.
  - rewrite decide_True by congruence. rewrite IH by done. apply Permutation_swap.
Qed.

Lemma same_text_set k v v' l d : same_text l d → dumps v = dumps v' → same_text (od_set k v l) (od_set k v' d).
Proof.
  assert (∀ v d, texts (od_set k v d) = od_set k (dumps v) (texts d)) as Hset.
  { intros w e. induction e as [|[x y] e IH]; [done|]. unfold texts in *. cbn [od_set]. rewrite fmap_cons. cbn [od_set fst snd].
    destruct (decide (k = x)); [done|]. by rewrite fmap_cons, IH. }
  intros [Hnd Hp] Hv. split; [by apply od_set_nodup|]. rewrite !Hset, Hv.
  rewrite !od_set_perm; [by rewrite Hp|by rewrite <- Hp, texts_keys|by rewrite texts_keys].
Qed.

Lemma same_text_sorted p : json_ok (JObject p) → same_text (sorted_payload p) p.
Proof.
  intros Hok. inversion_clear Hok as [| | | | |? Hnd Hk Hv]. split.
  - change (NoDup (od_keys (sorted_payload p))). by rewrite sorted_keys.
  - unfold texts, sorted_payload. rewrite merge_sort_Permutation, <- list_fmap_compose.
    apply Permutation_refl', list_fmap_ext. intros i [k v] Hi. simpl. f_equal. apply dumps_sorted.
    apply (Forall_lookup_1 _ _ i _ Hv). by rewrite list_lookup_fmap, Hi.
Qed.

Lemma od_get_filter (P : string * json → Prop) `{∀ x, Decision (P x)} k (d : odict string json) : (∀ v, P (k, v)) →
  od_get k (filter P d) = od_get k d.
Proof.
  intros Hk. induction d as [|[x v] d IH]; [done|]. rewrite filter_cons.
  case_decide as Hx; simpl; destruct (decide (k = x)) as [->|]; try done. by destruct Hx.
Qed.

Lemma value_ok p k v : json_ok (JObject p) → od_get k p = Some v → json_ok v.
Proof.
  intros Hok Hk. inversion_clear Hok as [| | | | |? _ _ Hv]. apply od_get_Some_in in Hk.
  rewrite Forall_fmap, Forall_forall in Hv. by apply (Hv (k, v)).
Qed.

Lemma fingerprints_sorted p : json_ok (JObject p) →
  receipt_fingerprints sha256 (sorted_payload p) = receipt_fingerprints sha256 p.
Proof.
  intros Hok. pose proof (same_text_sorted p Hok) as Hs.
  assert (NoDup p.*1) as Hnd by (by inversion Hok).
  apply (same_text_filter (λ k, k ∉ RECEIPT_NOT_FACTS)) in Hs. unfold receipt_fingerprints.
  assert (∀ d : odict string json, od_get "usage" (filter (λ kv, kv.1 ∉ RECEIPT_NOT_FACTS) d) = od_get "usage" d) as Hget.
  { intros d. apply od_get_filter. intros v. apply (bool_decide_unpack _). done. }
  rewrite !Hget.
  rewrite od_get_sorted by done.
  assert (∀ l k, same_text l k → (fingerprint sha256 l, fingerprint sha256 (filter (λ kv, kv.1 ≠ "attempt_id") l)) =
    (fingerprint sha256 k, fingerprint sha256 (filter (λ kv, kv.1 ≠ "attempt_id") k))) as Hfin.
  { intros l k Hlk. f_equal; apply same_text_fingerprint; [done|].
    exact (same_text_filter (λ k, k ≠ "attempt_id") l k Hlk). }
  destruct (od_get "usage" p) as [[| | | | |u]|] eqn:Hu; simpl; try by apply Hfin.
  change (merge_sort key_le (map _ u)) with (sorted_payload u).
  assert (json_ok (JObject u)) as Huok by (by eapply value_ok).
  assert (NoDup u.*1) as Hund by (by inversion Huok).
  apply Hfin, same_text_set; [done|]. apply same_text_dumps, same_text_set; [by apply same_text_sorted|].
  rewrite od_get_sorted by done. destruct (od_get "cache_hit" u) as [c|] eqn:Hc; [|done]. simpl.
  by eapply dumps_sorted, value_ok.
Qed.

Lemma field_ok p k : json_ok (JObject p) → json_ok (field k p).
Proof. intros Hok. unfold field. destruct (od_get k p) eqn:E; [by eapply value_ok|constructor]. Qed.

Lemma existsb_ext {A} (f g : A → bool) l : (∀ x, f x = g x) → existsb f l = existsb g l.
Proof. intros Hfg. induction l as [|x l IH]; [done|]. simpl. by rewrite Hfg, IH. Qed.

Lemma validate_receipt_sorted p : json_ok (JObject p) →
  validate_receipt sha256 (sorted_payload p) = validate_receipt sha256 p.
Proof.
  intros Hok. assert (NoDup p.*1) as Hnd by (by inversion Hok). unfold validate_receipt.
  rewrite fingerprints_sorted, !field_sorted by done. destruct (receipt_fingerprints sha256 p) as [facts settled].
  rewrite !is_text_sorted, !is_null_sorted.
  change (JString "0") with (json_sorted (JString "0")) at 1. rewrite same_decimal_sorted.
  pose proof (field_ok p "usage" Hok) as Hu. destruct (field "usage" p) as [| | | | |u]; try done.
  assert (NoDup u.*1) as Hund by (by inversion Hu).
  change (json_sorted (JObject u)) with (JObject (sorted_payload u)). cbv iota beta.
  rewrite !field_sorted by done. rewrite same_decimal_sorted, scalar_equal_sorted.
  rewrite (existsb_ext _ (λ k, negb (scalar_equal (field k p) (field k u)))); [done|].
  intros k. by rewrite !field_sorted, scalar_equal_sorted.
Qed.

Lemma snapshot_sorted kind p : json_ok (JObject p) → snapshot_id sha256 kind (sorted_payload p) = snapshot_id sha256 kind p.
Proof.
  intros Hok. assert (NoDup p.*1) as Hnd by (by inversion Hok). unfold snapshot_id.
  change (dumps (JArray [?x; ?y])) with ("[" +:+ join "," [dumps x; dumps y] +:+ "]").
  do 7 f_equal. destruct (String.eqb kind _).
  - rewrite field_sorted by done. by apply dumps_sorted, field_ok.
  - unfold REGISTRY_BODY. simpl. rewrite !field_sorted by done.
    by rewrite !dumps_sorted by (by apply field_ok).
Qed.

(** A payload is judged alike before it is framed and as it is read back. *)
Lemma validate_sorted unicode_digit p writer : json_ok (JObject p) →
  validate_payload sha256 unicode_digit (JObject (sorted_payload p)) writer =
  validate_payload sha256 unicode_digit (JObject p) writer.
Proof.
  intros Hok. assert (NoDup p.*1) as Hnd by (by inversion Hok). unfold validate_payload.
  rewrite od_get_sorted by done. destruct (od_get "kind" p) as [[| | |kind| |]|]; try done. simpl fmap. cbv iota.
  pose proof (stable_conforms _ [] (schemas_stable unicode_digit kind) (Forall_nil_2 _) (JObject p) Hok) as Hc.
  change (json_sorted (JObject p)) with (JObject (sorted_payload p)) in Hc.
  by rewrite Hc, validate_receipt_sorted, snapshot_sorted, field_sorted, is_text_sorted.
Qed.
End sorted.

(** * From the host to the Gateway *)

Section delivery.
Variable sha256 : string → string.
Hypothesis sha256_hex : ∀ s, is_hex 64 (sha256 s) = true.
Variable unicode_digit : string → bool.
Variable isoformat : timestamp → string.
Hypothesis isoformat_ok : ∀ t, is_timestamp unicode_digit (isoformat t) = true.
Variable cache_reported : GatewayUsage → bool.
Variable SCALE : nat.
Hypothesis scale_small : (SCALE ≤ 30)%nat.

Abbreviation payload_of := (record_payload sha256 isoformat cache_reported SCALE).
Abbreviation validate := (validate_payload sha256 unicode_digit).

Lemma record_validates at_ r : record_ok SCALE r → validate (JObject (payload_of at_ r)) "host" = Ok (kind_of r).
Proof.
  intros Hr. assert (od_get "kind" (payload_of at_ r) = Some (JString (kind_of r))) as Hkind by done.
  unfold validate_payload. rewrite Hkind.
  rewrite bool_decide_eq_true_2 by (destruct r; apply (bool_decide_unpack _); vm_compute; exact I). cbn [negb raise_if res_bind].
  rewrite (record_conforms sha256 sha256_hex unicode_digit isoformat isoformat_ok cache_reported SCALE scale_small at_ r Hr).
  cbn [negb raise_if res_bind].
  destruct (String.eqb_spec (kind_of r) "attempt.receipt") as [Hk|Hk].
  - destruct r; try done. cbn [kind_of]. rewrite (receipt_valid sha256 sha256_hex unicode_digit) by (done || apply Hr). done.
  - by destruct r.
Qed.

Lemma gap_validates first last : 0 ≤ first → 0 ≤ last →
  validate (JObject (gap_payload first last)) "host" = Ok GAP_KIND.
Proof.
  intros Hf Hl. unfold validate_payload, gap_payload. cbn [od_get fst]. rewrite decide_True by done.
  rewrite bool_decide_eq_true_2 by (apply (bool_decide_unpack _); vm_compute; exact I). cbn [negb raise_if res_bind].
  rewrite (conforms_fields (default [] (od_get GAP_KIND (SCHEMAS unicode_digit)))); [done|vm_compute; reflexivity..| |constructor].
  repeat constructor; eexists; (split; [reflexivity|]); cbn [snd]; [done|by apply count_ok..].
Qed.

(** What a host's stream holds: the capture's records, and the outbox's gaps. *)
Definition host_payload (p : odict string json) : Prop :=
  (∃ at_ r, record_ok SCALE r ∧ p = payload_of at_ r) ∨ (∃ first last, 0 ≤ first ∧ 0 ≤ last ∧ p = gap_payload first last).

Definition captured (sid : string) (r : OutboxRecord) : Prop :=
  ∃ p seq prev eid, host_payload p ∧ frameable sid seq prev p eid ∧ frame sha256 sid seq prev p eid = Some r.

Lemma ascii_text_app a b : ascii_text (a +:+ b) = ascii_text a && ascii_text b.
Proof.
  unfold ascii_text. induction a as [|c a IH]; [done|]. rewrite string_cons_app. simpl. by rewrite IH, andb_assoc.
Qed.

Lemma hex_ascii_text n s : is_hex n s = true → ascii_text s = true.
Proof.
  intros [_ Hs]%andb_true_iff. unfold ascii_text.
  rewrite forallb_forall in *. intros c Hc. specialize (Hs c Hc). apply N.ltb_lt. unfold hex_char in Hs.
  apply orb_true_iff in Hs as [[? H%Nat.leb_le]%andb_true_iff|[? H%Nat.leb_le]%andb_true_iff];
    unfold Ascii.nat_of_ascii in H; lia.
Qed.

Lemma frame_line_ascii sid seq prev p eid r : frameable sid seq prev p eid → frame sha256 sid seq prev p eid = Some r →
  ascii_text (ob_line r) = true.
Proof.
  intros Hf Hr. pose proof (frame_body_ok _ _ _ _ _ Hf) as Hok. unfold frame in Hr.
  destruct (printable_text _ (dumps_prints _ Hok)) as [Ha _].
  set (body := json_dumps "," ":" (frame_body sid seq prev p eid)) in *. clearbody body.
  destruct (json_loads _) as [[| | | | |document]|]; try done. destruct (string_field "event_id" document); [|done].
  destruct (od_get "payload" document) as [[]|]; try done. injection Hr as <-. cbn [ob_line]. rewrite !ascii_text_app, Ha, (hex_ascii_text 64) by done. done.
Qed.

Lemma captured_parses sid r : captured sid r →
  ob_stream_id r = sid ∧ ascii_text (ob_line r) = true ∧ parse_line sha256 (ob_line r) = Ok r ∧
  ∃ kind, validate (JObject (ob_payload r)) "host" = Ok kind.
Proof.
  intros (p & seq & prev & eid & Hp & Hf & Hr).
  destruct (frame_parses sha256 sha256_hex _ _ _ _ _ Hf) as (r' & Hr' & Hframed). rewrite Hr in Hr'. injection Hr' as <-.
  split; [apply Hframed|]. split; [by eapply frame_line_ascii|]. split; [apply Hframed|].
  rewrite (fr_payload _ _ _ _ _ _ _ Hframed). destruct Hf as (_ & _ & _ & Hj & _). rewrite validate_sorted by done.
  destruct Hp as [(at_ & cr & Hcr & ->)|(first & last & H1 & H2 & ->)]; eexists;
    [by apply record_validates|by apply gap_validates].
Qed.

Lemma parse_captured sid records : Forall (captured sid) records →
  parse_records sha256 unicode_digit "host" sid (JString ∘ ob_line <$> records) = Ok records.
Proof.
  induction 1 as [|r records Hr _ IH]; [done|]. destruct (captured_parses _ _ Hr) as (Hs & Ha & Hp & kind & Hv).
  rewrite fmap_cons. cbn [parse_records compose]. rewrite Ha, Hp, Hs, String.eqb_refl, Hv. cbn [negb raise_if res_bind].
  by rewrite IH.
Qed.

(** A record whose line is read back as it is. *)
Definition legible (sid : string) (r : OutboxRecord) : Prop :=
  ob_stream_id r = sid ∧ ascii_text (ob_line r) = true ∧ parse_line sha256 (ob_line r) = Ok r.

Lemma captured_legible sid r : captured sid r → legible sid r.
Proof. intros Hc. by destruct (captured_parses _ _ Hc) as (? & ? & ? & _). Qed.

Lemma batch_document_ok writer sid ledger seq digest records : ascii_text writer = true → is_hex 32 sid = true →
  from_option (λ l, is_hex 32 l = true) True ledger → is_hex 64 digest = true → Forall (legible sid) records →
  json_ok (batch_document writer sid ledger seq digest records).
Proof.
  intros Hw Hs Hl Hd Hr. unfold batch_document. constructor.
  - apply (bool_decide_unpack _). vm_compute. exact I.
  - simpl. rewrite !Forall_cons. split_and!; try by apply ascii_valid. constructor.
  - simpl. rewrite !Forall_cons. split_and!.
    + exact (proj1 (written_int 1)).
    + by apply ok_string, ascii_valid.
    + by apply ok_string, (hex_ascii 32).
    + destruct ledger; [by apply ok_string, (hex_ascii 32)|constructor].
    + constructor; [apply (bool_decide_unpack _); vm_compute; exact I| |].
      { simpl. rewrite !Forall_cons. split_and!; try by apply ascii_valid. constructor. }
      simpl. rewrite !Forall_cons. split_and!; [apply written_int|by apply ok_string, (hex_ascii 64)|constructor].
    + constructor. apply Forall_fmap. eapply Forall_impl; [exact Hr|]. intros r (_ & Ha & _).
      by apply ok_string, ascii_valid.
    + constructor.
Qed.

Lemma id_check s : is_hex 32 s = true → ID (JString s) = true.
Proof. done. Qed.

(** The fields of a batch's document, in whichever order. *)
Record batch_fields (writer sid : string) (ledger : option string) (seq : Z) (digest : string) (lines : list json)
    (doc : odict string json) : Prop := {
  bf_keys : same_keys REQUEST_KEYS doc = true;
  bf_schema : is_schema_version (od_get "schema_version" doc) = true;
  bf_writer : field "writer" doc = JString writer;
  bf_stream : field "stream_id" doc = JString sid;
  bf_ledger : field "ledger_instance" doc = text_or_null ledger;
  bf_after : ∃ after, field "after" doc = JObject after ∧ same_keys ["sequence"; "digest"] after = true ∧
    field "sequence" after = int_json seq ∧ field "digest" after = JString digest;
  bf_records : field "records" doc = JArray lines
}.

(** A prefix of a stream as a batch names it. *)
Definition prefix_ok (seq : Z) (digest : string) : Prop := 0 ≤ seq ∧ is_hex 64 digest = true ∧ (seq = 0 ↔ digest = GENESIS).

Lemma parse_fields writer sid ledger seq digest lines doc : is_Some (od_get writer KINDS_BY_WRITER) →
  is_hex 32 sid = true → from_option (λ l, is_hex 32 l = true) True ledger → prefix_ok seq digest →
  (1 ≤ length lines ≤ MAX_RECORDS)%nat → batch_fields writer sid ledger seq digest lines doc →
  parse_document sha256 unicode_digit doc =
    (let* records := parse_records sha256 unicode_digit writer sid lines in
     raise_if (negb (increasing records)) (mkContractError "order") ;;*
     Ok (mkCaptureBatch writer sid ledger seq digest records)).
Proof.
  clear scale_small. intros Hw Hs Hl (Hseq & Hd & Hgen) Hlen [H1 H2 H3 H4 H5 (after & H6 & A1 & A2 & A3) H7].
  unfold parse_document. rewrite H1, H2, H3, H4, H5, H6, H7. cbn [negb raise_if res_bind].
  rewrite (bool_decide_eq_true_2 _ Hw), id_check, id_or_null_ok by done. cbn [negb orb raise_if res_bind].
  rewrite A1, A2, A3, count_ok by done. cbn [matches]. rewrite Hd. cbn [negb orb raise_if res_bind].
  unfold int_json. rewrite (proj2 (written_int seq)). change (default 0 (Some seq)) with seq.
  assert (Bool.eqb (seq =? 0) (String.eqb digest GENESIS) = true) as ->.
  { apply Bool.eqb_true_iff. destruct (String.eqb_spec digest GENESIS) as [He|He].
    - apply Z.eqb_eq. by apply Hgen.
    - apply Z.eqb_neq. intros Hz. by apply He, Hgen. }
  rewrite (proj2 (Nat.leb_le _ _)), (proj2 (Nat.leb_le _ _)) by lia. cbn [negb andb raise_if res_bind].
  by destruct ledger.
Qed.

Lemma document_fields writer sid ledger seq digest records : ∃ doc,
  batch_document writer sid ledger seq digest records = JObject doc ∧
  batch_fields writer sid ledger seq digest (JString ∘ ob_line <$> records) doc.
Proof. eexists. split; [reflexivity|]. constructor; try done. by eexists. Qed.

Lemma sorted_fields writer sid ledger seq digest records : ∃ doc,
  json_sorted (batch_document writer sid ledger seq digest records) = JObject doc ∧
  batch_fields writer sid ledger seq digest (JString ∘ ob_line <$> records) doc.
Proof.
  assert (json_sorted (JArray (JString ∘ ob_line <$> records)) = JArray (JString ∘ ob_line <$> records)) as Hr.
  { cbn [json_sorted]. f_equal. change (json_sorted <$> (JString ∘ ob_line <$> records) = JString ∘ ob_line <$> records).
    by rewrite <- list_fmap_compose. }
  assert (json_sorted (text_or_null ledger) = text_or_null ledger) as Hl by (by destruct ledger).
  unfold batch_document. remember (JArray (JString ∘ ob_line <$> records)) as lines.
  remember (text_or_null ledger) as l. cbn [json_sorted map fst snd]. rewrite Hr, Hl.
  eexists. split; [reflexivity|]. constructor; try (by subst); try reflexivity. by eexists.
Qed.

Lemma parse_built sid ledger seq digest records doc :
  is_hex 32 sid = true → from_option (λ l, is_hex 32 l = true) True ledger → prefix_ok seq digest →
  Forall (captured sid) records → increasing records = true → (1 ≤ length records ≤ MAX_RECORDS)%nat →
  batch_fields "host" sid ledger seq digest (JString ∘ ob_line <$> records) doc →
  parse_document sha256 unicode_digit doc = Ok (mkCaptureBatch "host" sid ledger seq digest records).
Proof.
  intros Hs Hl Hpre Hr Hinc Hlen Hdoc.
  rewrite (parse_fields "host" sid ledger seq digest (JString ∘ ob_line <$> records));
    [|by eexists|done|done|done|by rewrite length_fmap|done].
  rewrite parse_captured by done. cbn [res_bind]. by rewrite Hinc.
Qed.

(** What a host captured, the Gateway accepts. A batch the host builds from up to 256
    records of its stream, in order, whatever prefix of the stream it says was
    committed, is read back by the Gateway as exactly those records: every line's
    digest, its stream, the kind and the schema of every payload and the recomputed
    fingerprints of receipts pass. *)
Theorem captured_batch_accepted sid ledger seq digest records :
  is_hex 32 sid = true → from_option (λ l, is_hex 32 l = true) True ledger →
  0 ≤ seq → is_hex 64 digest = true → (seq = 0 ↔ digest = GENESIS) →
  Forall (captured sid) records → increasing records = true → (1 ≤ length records ≤ MAX_RECORDS)%nat →
  let body := build_batch "host" sid ledger seq digest records in
  (N.of_nat (String.length body) ≤ MAX_BODY_BYTES)%N →
  parse_batch sha256 unicode_digit body = Ok (mkCaptureBatch "host" sid ledger seq digest records).
Proof.
  intros Hs Hl Hseq Hd Hgen Hr Hinc Hlen body Hbody. unfold parse_batch.
  rewrite (proj2 (N.ltb_ge _ _) Hbody). cbn [raise_if res_bind]. unfold body, build_batch.
  rewrite json_loads_plain by (apply batch_document_ok; try done; eapply Forall_impl; [exact Hr|apply captured_legible]).
  destruct (document_fields "host" sid ledger seq digest records) as (doc & -> & Hdoc). by apply parse_built.
Qed.

(** An acknowledgement is read back. *)
Lemma ack_read_back ack : is_hex 32 (ca_ledger_instance ack) = true → is_hex 64 (ca_digest ack) = true →
  1 ≤ ca_sequence ack → 0 ≤ ca_conflicts ack → parse_ack (build_ack ack) (ca_stream_id ack) = Ok ack.
Proof.
  intros Hl Hd Hs Hc. unfold parse_ack, build_ack.
  set (d := [("status", JString "committed"); _; _; _; _; _]).
  assert (same_keys ACK_KEYS d = true ∧ field "status" d = JString "committed" ∧
    field "stream_id" d = JString (ca_stream_id ack) ∧ field "ledger_instance" d = JString (ca_ledger_instance ack) ∧
    field "sequence" d = int_json (ca_sequence ack) ∧ field "digest" d = JString (ca_digest ack) ∧
    field "conflicts" d = int_json (ca_conflicts ack)) as (H1 & H2 & H3 & H4 & H5 & H6 & H7) by done.
  clearbody d. rewrite H1, H2, H3, H4, H5, H6, H7. cbn [is_text matches].
  rewrite !String.eqb_refl, id_check, !count_ok, Hd by (done || lia). unfold int_json.
  rewrite !(proj2 (written_int _)). change (default 0 (Some ?x)) with x.
  rewrite (proj2 (Z.leb_le _ _)) by done. by destruct ack.
Qed.
End delivery.
