(* ===== verification/OutboxQueue.v ===== *)
(** The outbox's owned writer, [OutboxWriter] of [optimus_security/durable_outbox.py]: a
    bounded queue in front of a stream's writer, drained by a thread of its own.

    Each public call is one step, as the writer's lock makes it; the thread's loop is
    one step per turn. Tickets are objects, numbered as they are handed out; beside each
    stands what was submitted with it. What the file system does to a turn's append is
    an argument of the turn: any failure, with any code, of opening and locking the
    stream, of a segment's creation and of a write at any byte. The [on_failure] hook,
    which no caller of the program sets, only notes what it is called with. The queue is an implementation of the port a capture
    submits to. *)
From stdpp Require Import sorting.
From S2P Require Import Prelude Text Json JsonLoads Settlement Outbox Capture UsageContract.

From stdpp Require Import pretty.

Local Open Scope string_scope.
Local Open Scope Z_scope.

(** * Tickets and statistics *)

Record Ticket := mkTicket {
  tk_resolved : bool;
  tk_record : option OutboxRecord;
  tk_failure : option string
}.

Definition new_ticket : Ticket := mkTicket false None None.

(** [_resolve]. *)
Definition resolve (record : option OutboxRecord) (failure : option string) : Ticket :=
  mkTicket true record failure.

(** [Ticket.wait], once the wait is over. *)
Definition waited (t : Ticket) : bool := tk_resolved t && bool_decide (tk_record t ≠ None).

Record WriterStats := mkWriterStats {
  st_confirmed_sequence : Z;
  st_pending : Z;
  st_rejected_full : Z;
  st_write_failures : Z;
  st_last_failure : option string
}.

Definition no_stats : WriterStats := mkWriterStats 0 0 0 0 None.
Definition count_pending (s : WriterStats) : WriterStats :=
  mkWriterStats (st_confirmed_sequence s) (st_pending s + 1) (st_rejected_full s) (st_write_failures s)
    (st_last_failure s).
Definition count_full (s : WriterStats) : WriterStats :=
  mkWriterStats (st_confirmed_sequence s) (st_pending s) (st_rejected_full s + 1) (st_write_failures s)
    (Some "QUEUE_FULL").
Definition count_failure (code : string) (s : WriterStats) : WriterStats :=
  mkWriterStats (st_confirmed_sequence s) (st_pending s - 1) (st_rejected_full s) (st_write_failures s + 1)
    (Some code).
Definition count_confirmed (sequence : Z) (s : WriterStats) : WriterStats :=
  mkWriterStats sequence (st_pending s - 1) (st_rejected_full s) (st_write_failures s) (st_last_failure s).

Inductive Thread := NotStarted | Running | Finished | Died.

#[export] Instance Thread_eq_dec : EqDecision Thread.
Proof. solve_decision. Defined.

(** * The writer *)

Section queue.
Context {P : Type}.
Variable sha256 : string → string.
Variable encode : P → odict string json.

(** [ow_queue]: what waits, with its ticket. [ow_reported]: what [on_failure] was
    called with. *)
Record OutboxWriter := mkOutboxWriter {
  ow_writer : StreamWriter;
  ow_dir : StreamDir;
  ow_queue : list (P * option string * nat);
  ow_maxsize : nat;
  ow_tickets : list (P * Ticket);
  ow_stats : WriterStats;
  ow_thread : Thread;
  ow_closed : bool;
  ow_reported : list string
}.

Definition new_outbox_writer (sid : string) (segment_bytes queue_records : nat) : OutboxWriter :=
  mkOutboxWriter (new_writer sid segment_bytes) (mkStreamDir sid [] None) [] queue_records [] no_stats
    NotStarted false [].

(** [Queue.put_nowait] raises [Full]; a size of 0 is no bound. *)
Definition queue_full (q : OutboxWriter) : bool :=
  (0 <? ow_maxsize q)%nat && (ow_maxsize q <=? length (ow_queue q))%nat.

(** [submit]. *)
Definition submit (payload : P) (event_id : option string) (q : OutboxWriter) : nat * OutboxWriter :=
  let t := length (ow_tickets q) in
  let give ticket := (ow_tickets q ++ [(payload, ticket)])%list in
  if ow_closed q then
    (t, mkOutboxWriter (ow_writer q) (ow_dir q) (ow_queue q) (ow_maxsize q)
          (give (resolve None (Some "CLOSED"))) (ow_stats q) (ow_thread q) true (ow_reported q))
  else
    let thread := if decide (ow_thread q = NotStarted) then Running else ow_thread q in
    if queue_full q then
      (t, mkOutboxWriter (ow_writer q) (ow_dir q) (ow_queue q) (ow_maxsize q)
            (give (resolve None (Some "QUEUE_FULL"))) (count_full (ow_stats q)) thread false (ow_reported q))
    else
      (t, mkOutboxWriter (ow_writer q) (ow_dir q) (ow_queue q ++ [(payload, event_id, t)])%list (ow_maxsize q)
            (give new_ticket) (count_pending (ow_stats q)) thread false (ow_reported q)).

Definition set_ticket (t : nat) (ticket : Ticket) (tickets : list (P * Ticket)) : list (P * Ticket) :=
  alter (λ x, (x.1, ticket)) t tickets.

(** One turn of [_run]'s loop. An error that is not the outbox's own is not caught: the
    thread dies with the ticket it was serving unresolved. *)
Definition run_turn (io : AppendIo) (q : OutboxWriter) : OutboxWriter :=
  if decide (ow_thread q = Running) then
    match ow_queue q with
    | [] =>
        if ow_closed q then
          mkOutboxWriter (close_writer (ow_writer q)) (ow_dir q) [] (ow_maxsize q) (ow_tickets q) (ow_stats q)
            Finished true (ow_reported q)
        else q
    | (payload, event_id, t) :: rest =>
        match append sha256 (encode payload) event_id io (ow_writer q, ow_dir q) with
        | (Ok record, (w, dir)) =>
            mkOutboxWriter w dir rest (ow_maxsize q) (set_ticket t (resolve (Some record) None) (ow_tickets q))
              (count_confirmed (ob_sequence record) (ow_stats q)) Running (ow_closed q) (ow_reported q)
        | (Err (mkOutboxError code _), (w, dir)) =>
            mkOutboxWriter w dir rest (ow_maxsize q) (set_ticket t (resolve None (Some code)) (ow_tickets q))
              (count_failure code (ow_stats q)) Running (ow_closed q) (ow_reported q ++ [code])%list
        | (Err FrameError, (w, dir)) =>
            mkOutboxWriter w dir rest (ow_maxsize q) (ow_tickets q) (ow_stats q) Died (ow_closed q) (ow_reported q)
        end
    end
  else q.

Definition run_turns (ios : list AppendIo) (q : OutboxWriter) : OutboxWriter :=
  foldl (λ q io, run_turn io q) q ios.

(** [close] up to the join. *)
Definition close_queue (q : OutboxWriter) : OutboxWriter :=
  let w := if decide (ow_thread q = NotStarted) then close_writer (ow_writer q) else ow_writer q in
  mkOutboxWriter w (ow_dir q) (ow_queue q) (ow_maxsize q) (ow_tickets q) (ow_stats q) (ow_thread q) true
    (ow_reported q).

(** [close]: the turns the thread takes before the join ends, and whether it is done. *)
Definition close (ios : list AppendIo) (q : OutboxWriter) : bool * OutboxWriter :=
  let q := run_turns ios (close_queue q) in
  (negb (bool_decide (ow_thread q = Running)), q).

(** [Ticket.wait] on a ticket of the writer, with the turns the thread takes meanwhile. *)
Definition wait (ios : list AppendIo) (t : nat) (q : OutboxWriter) : bool * OutboxWriter :=
  let q := run_turns ios q in
  (match ow_tickets q !! t with Some (_, ticket) => waited ticket | None => false end, q).

(** The calls of the host and the turns of the thread. *)
Inductive queue_call :=
| QSubmit (payload : P) (event_id : option string)
| QTurn (io : AppendIo)
| QClose.

Definition queue_step (q : OutboxWriter) (c : queue_call) : OutboxWriter :=
  match c with
  | QSubmit payload event_id => (submit payload event_id q).2
  | QTurn io => run_turn io q
  | QClose => close_queue q
  end.
End queue.
Arguments OutboxWriter : clear implicits.
Arguments queue_call : clear implicits.

(** * The thread survives *)

(** What a host may submit: a payload JSON can encode, that is no gap, and an event id
    of the right form if one is given. A payload that cannot be encoded raises in the
    thread, which dies of it. What a turn may meet: any failure; the ids it draws are
    those of [uuid4]. *)
Definition submission_ok (payload : odict string json) (event_id : option string) : Prop :=
  json_ok (JObject payload) ∧ has_kind GAP_KIND payload = false ∧
  from_option (λ e, is_hex 32 e = true) True event_id.
Definition io_ok (io : AppendIo) : Prop :=
  is_hex 32 (ai_check_id io) = true ∧ is_hex 32 (ai_gap_id io) = true ∧ is_hex 32 (ai_record_id io) = true.

Lemma submission_append payload event_id io : submission_ok payload event_id → io_ok io →
  append_ok payload event_id io.
Proof. intros (Hj & Hk & He) (Hc & Hg & Hr). split_and!; try done. by destruct event_id. Qed.

Definition writer_ok (w : StreamWriter) : Prop :=
  is_hex 32 (sw_stream_id w) = true ∧ is_hex 64 (sw_prev w) = true ∧ 1 ≤ sw_next_seq w.

#[local] Opaque frame.

Section survival.
Variable sha256 : string → string.
Hypothesis sha256_hex : ∀ s, is_hex 64 (sha256 s) = true.

Lemma write_bytes_core r force io w dir res w' dir' : write_bytes r force io (w, dir) = (res, (w', dir')) →
  sw_stream_id w' = sw_stream_id w ∧ sw_prev w' = sw_prev w ∧ sw_next_seq w' = sw_next_seq w ∧ sw_closed w' = sw_closed w.
Proof.
  unfold write_bytes, eff_bind. simpl. destruct (_ || _); simpl.
  - unfold roll. destruct (wi_roll io) as [[]|]; simpl; [by intros [= _ <- _]..|].
    destruct (wi_write io); by intros [= _ <- _].
  - destruct (sw_segment w); [destruct (wi_write io)|]; by intros [= _ <- _].
Qed.

(** The errors of a write and of an append. *)
Definition write_error (e : OutboxError) : Prop :=
  match e with mkOutboxError code _ => code = "WRITE_FAILED" | FrameError => True end.
Definition append_error (closed : bool) (io : AppendIo) (e : OutboxError) : Prop :=
  match e with
  | mkOutboxError code _ => code = "CLOSED" ∧ closed = true ∨ code = "TOO_LARGE" ∨ code = "WRITE_FAILED" ∨
      ∃ d, ai_open io = Some (code, d)
  | FrameError => True
  end.

Lemma write_error_append closed io e : write_error e → append_error closed io e.
Proof. destruct e; simpl; auto. Qed.

Lemma write_record_errors payload eid force io w dir res w' dir' :
  write_record sha256 payload eid force io (w, dir) = (res, (w', dir')) →
  sw_closed w' = sw_closed w ∧ ∀ e, res = Err e → write_error e.
Proof.
  unfold write_record. destruct (frame _ _ _ _ _ _) as [r|]; [|intros [= <- <- <-]; naive_solver].
  destruct (write_bytes r force io (take_sequence w, dir)) as [res1 [w1 dir1]] eqn:Hwb.
  apply write_bytes_core in Hwb as (_ & _ & _ & H4). simpl in *.
  destruct res1 as [[]|e]; intros [= <- <- <-]; [done|]. split; [by destruct (sw_broken_from w1)|].
  by intros e' [= <-].
Qed.

Lemma append_errors payload event_id io w dir res w' dir' :
  append sha256 payload event_id io (w, dir) = (res, (w', dir')) →
  sw_closed w' = sw_closed w ∧ ∀ e, res = Err e → append_error (sw_closed w) io e.
Proof.
  intros Ha. unfold append in Ha.
  apply eff_bind_eq in Ha as [(s & s' & Hs & Ha)|(e & Hs & _)]; [|done]. injection Hs as <- <-. simpl in Ha.
  apply eff_bind_eq in Ha as [([] & [w1 dir1] & Ho & Ha)|(e & Ho & ->)].
  2:{ destruct (sw_closed w) eqn:Hcl; [injection Ho as <- <- <-; naive_solver|]. destruct (sw_locked w); [done|].
      unfold open_stream in Ho. destruct (ai_open io) as [[code d]|] eqn:Hopen; [|done]. injection Ho as <- <- <-.
      split; [done|]. intros e [= <-]. simpl. eauto 6. }
  assert (sw_closed w1 = sw_closed w) as <-.
  { destruct (sw_closed w) eqn:Hcl; [done|]. destruct (sw_locked w); [by injection Ho as <- <-|].
    unfold open_stream in Ho. destruct (ai_open io) as [[]|]; [done|]. by injection Ho as <- <-. }
  clear Ho w dir. unfold check_size in Ha.
  apply eff_bind_eq in Ha as [([] & s2 & Hs & Ha)|(e & Hs & ->)]; simpl in Hs.
  2:{ destruct (frame _ _ _ _ _ _); [destruct (_ <? _)%N; [|done]|]; injection Hs as <- <- <-; naive_solver. }
  destruct (frame _ _ _ _ _ _); [|done]. destruct (_ <? _)%N; [done|]. injection Hs as <-.
  apply eff_bind_eq in Ha as [([] & [w2 dir2] & Hs & Ha)|(e & Hs & ->)]; unfold write_gap in Hs.
  - assert (sw_closed w2 = sw_closed w1) as <-.
    { destruct (sw_broken_from w1) as [b|]; [|by injection Hs as <- <-].
      destruct (write_record sha256 _ _ _ _ _) as [[r'|] [w3 dir3]] eqn:Hwr; [|done]. injection Hs as <- <-.
      by apply write_record_errors in Hwr as [? _]. }
    apply write_record_errors in Ha as [? He]. split; [done|]. intros e ->. by apply write_error_append, He.
  - destruct (sw_broken_from w1) as [b|]; [|done].
    destruct (write_record sha256 _ _ _ _ _) as [[r'|e'] [w3 dir3]] eqn:Hwr; [done|]. injection Hs as <- <- <-.
    apply write_record_errors in Hwr as [? He]. split; [done|]. intros e [= <-]. by apply write_error_append, He.
Qed.

(** What may be framed is framed. *)
Lemma write_record_ok payload eid force io w dir res w' dir' : writer_ok w →
  json_ok (JObject payload) → is_hex 32 eid = true →
  write_record sha256 payload eid force io (w, dir) = (res, (w', dir')) →
  writer_ok w' ∧ res ≠ Err FrameError ∧ ∀ r, res = Ok r → ob_payload r = sorted_payload payload.
Proof.
  intros (Hs & Hp & Hn) Hj He Hw.
  destruct (frame_parses sha256 sha256_hex (sw_stream_id w) (sw_next_seq w) (sw_prev w) payload eid) as (r & Hr & Hf);
    [by split_and!|].
  rewrite (write_record_framed _ _ _ _ _ _ _ _ Hr) in Hw.
  destruct (write_bytes r force io (take_sequence w, dir)) as [res1 [w1 dir1]] eqn:Hwb.
  apply write_bytes_core in Hwb as (H1 & H2 & H3 & H4). simpl in *.
  destruct res1 as [[]|e]; injection Hw as <- <- <-.
  - split; [split_and!; simpl; [congruence|apply Hf|lia]|]. split; [done|]. intros r' [= <-]. apply Hf.
  - destruct (sw_broken_from w1); (split; [split_and!; simpl; congruence || lia|done]).
Qed.

Lemma append_survives payload event_id io w dir res w' dir' : writer_ok w →
  submission_ok payload event_id → io_ok io →
  append sha256 payload event_id io (w, dir) = (res, (w', dir')) →
  writer_ok w' ∧ res ≠ Err FrameError ∧ ∀ r, res = Ok r → ob_payload r = sorted_payload payload.
Proof.
  intros Hw (Hj & Hk & Heid) (Hc & Hg & Hr) Ha. unfold append in Ha.
  apply eff_bind_eq in Ha as [(s & s' & Hs & Ha)|(e & Hs & _)]; [|done]. injection Hs as <- <-. simpl in Ha.
  apply eff_bind_eq in Ha as [([] & [w1 dir1] & Ho & Ha)|(e & Ho & ->)].
  2:{ destruct (sw_closed w); [by injection Ho as <- <- <-|]. destruct (sw_locked w); [done|].
      unfold open_stream in Ho. destruct (ai_open io) as [[code d]|]; [|done]. by injection Ho as <- <- <-. }
  assert (writer_ok w1) as Hw1.
  { destruct (sw_closed w) eqn:Hcl; [done|]. destruct (sw_locked w); [by injection Ho as <- <-|].
    unfold open_stream in Ho. destruct (ai_open io) as [[]|]; [done|]. by injection Ho as <- <-. }
  clear Ho Hw w dir.
  destruct (frame_parses sha256 sha256_hex (sw_stream_id w1) (sw_next_seq w1) (sw_prev w1) payload
              (default (ai_check_id io) event_id)) as (r & Hfr & _).
  { destruct Hw1 as (? & ? & ?). split_and!; try done. by destruct event_id. }
  apply eff_bind_eq in Ha as [([] & s2 & Hs & Ha)|(e & Hs & ->)]; unfold check_size in Hs; rewrite Hfr in Hs.
  2:{ destruct (_ <? _)%N; [|done]. by injection Hs as <- <- <-. }
  destruct (_ <? _)%N; [done|]. injection Hs as <-.
  apply eff_bind_eq in Ha as [([] & [w2 dir2] & Hs & Ha)|(e & Hs & ->)]; unfold write_gap in Hs.
  - assert (writer_ok w2) as Hw2.
    { destruct (sw_broken_from w1) as [b|]; [|by injection Hs as <- <-].
      destruct (write_record sha256 _ _ _ _ _) as [[r'|] [w3 dir3]] eqn:Hwr; [|done]. injection Hs as <- <-.
      apply write_record_ok in Hwr as [? _]; [done|done|apply gap_fields|done]. }
    apply write_record_ok in Ha; [done|done|done|by destruct event_id].
  - destruct (sw_broken_from w1) as [b|]; [|done].
    destruct (write_record sha256 _ _ _ _ _) as [[r'|e'] [w3 dir3]] eqn:Hwr; [done|]. injection Hs as <- <- <-.
    apply write_record_ok in Hwr as (? & ? & _); [|done|apply gap_fields|done]. split_and!; [done|congruence|done].
Qed.
End survival.
#[local] Transparent frame.

(** * The state of a queue *)

(** A ticket that was served: a record or a failure, never both. *)
Definition served (k : Ticket) : Prop :=
  tk_resolved k = true ∧ (tk_record k = None ↔ tk_failure k ≠ None).

Section state.
Context {P : Type}.
Variable sha256 : string → string.
Hypothesis sha256_hex : ∀ s, is_hex 64 (sha256 s) = true.
Variable encode : P → odict string json.
Variable sid : string.
Variable segment_bytes queue_records : nat.
Hypothesis sid_hex : is_hex 32 sid = true.

(** The records of the tickets, in the order they were handed out. *)
Definition written (q : OutboxWriter P) : list OutboxRecord := omap (λ x, tk_record x.2) (ow_tickets q).

Record queue_inv (q : OutboxWriter P) : Prop := {
  qi_waiting p eid t : (p, eid, t) ∈ ow_queue q →
    ow_tickets q !! t = Some (p, new_ticket) ∧ submission_ok (encode p) eid;
  qi_sorted : StronglySorted lt (ow_queue q).*2;
  qi_served t p k : ow_tickets q !! t = Some (p, k) → t ∈ (ow_queue q).*2 ∨ served k;
  qi_fifo t t' p k : ow_tickets q !! t = Some (p, k) → tk_record k ≠ None →
    t' ∈ (ow_queue q).*2 → (t < t')%nat;
  qi_payload t p k r : ow_tickets q !! t = Some (p, k) → tk_record k = Some r →
    ob_payload r = sorted_payload (encode p);
  qi_pending : st_pending (ow_stats q) = Z.of_nat (length (ow_queue q));
  qi_maxsize : ow_maxsize q = queue_records;
  qi_bound : (0 < queue_records)%nat → (length (ow_queue q) ≤ queue_records)%nat;
  qi_alive : ow_thread q ≠ Died;
  qi_running : ow_queue q ≠ [] → ow_thread q = Running;
  qi_finished : ow_thread q = Finished → ow_closed q = true;
  qi_writer : writer_ok (ow_writer q);
  qi_stream : ∃ calls, Forall call_ok calls ∧
    foldl (run_call sha256) (new_stream sid segment_bytes) calls = (ow_writer q, ow_dir q, written q)
}.

Lemma new_queue_inv : queue_inv (new_outbox_writer sid segment_bytes queue_records).
Proof.
  constructor; simpl; try done; try (intros; set_solver).
  - constructor.
  - lia.
Qed.

Lemma waiting_in_range q t : queue_inv q → t ∈ (ow_queue q).*2 → (t < length (ow_tickets q))%nat.
Proof.
  intros Hinv ([[p eid] t'] & -> & Hin)%list_elem_of_fmap. simpl.
  destruct (qi_waiting _ Hinv _ _ _ Hin) as [Ht _]. by eapply lookup_lt_Some.
Qed.

(** The calls of [submit] that admit nothing. *)
Lemma refuse_inv q p code stats thread closed : queue_inv q →
  st_pending stats = st_pending (ow_stats q) → thread ≠ Died →
  (ow_thread q = Running → thread = Running) → (thread = Finished → closed = true) →
  queue_inv (mkOutboxWriter (ow_writer q) (ow_dir q) (ow_queue q) (ow_maxsize q)
    (ow_tickets q ++ [(p, resolve None (Some code))]) stats thread closed (ow_reported q)).
Proof.
  intros Hinv Hs Hth Hrun Hfin.
  assert (∀ t x k, (ow_tickets q ++ [(p, resolve None (Some code))])%list !! t = Some (x, k) →
    ow_tickets q !! t = Some (x, k) ∨ k = resolve None (Some code)) as Hold.
  { intros t x k [Ht|[_ Ht]]%lookup_app_Some; [by left|].
    apply list_lookup_singleton_Some in Ht as [_ [= <- <-]]. by right. }
  destruct Hinv as [H1 H2 H3 H4 Hpay H5 H6 H7 H8 H9 H10 H11 H12]. constructor; simpl; try done.
  - intros x eid t Hin. destruct (H1 _ _ _ Hin) as [Ht ?]. split; [|done]. by apply lookup_app_l_Some.
  - intros t x k [Ht| ->]%Hold; [by eapply H3|]. by right.
  - intros t t' x k [Ht| ->]%Hold Hr Hin; [by eapply H4|done].
  - intros t x k r [Ht| ->]%Hold Hr; [by eapply Hpay|done].
  - by rewrite Hs.
  - intros Hq. by apply Hrun, H9.
  - destruct H12 as (calls & Hok & Hc). exists calls. split; [done|]. rewrite Hc. unfold written. simpl.
    by rewrite omap_app, app_nil_r.
Qed.

Lemma submit_inv p eid q : queue_inv q → submission_ok (encode p) eid → queue_inv (submit p eid q).2.
Proof.
  intros Hinv Hok. unfold submit. destruct (ow_closed q) eqn:Hclosed.
  { simpl. apply refuse_inv; try done. by apply (qi_alive _ Hinv). }
  set (thread := if decide (ow_thread q = NotStarted) then Running else ow_thread q).
  assert (thread ≠ Died) as Hth by (unfold thread; case_decide; [done|apply (qi_alive _ Hinv)]).
  assert (thread = Running) as Hrun.
  { unfold thread. case_decide; [done|]. pose proof (qi_alive _ Hinv). pose proof (qi_finished _ Hinv).
    destruct (ow_thread q); intuition congruence. }
  destruct (queue_full q) eqn:Hfull; simpl.
  { apply refuse_inv; try done. by rewrite Hrun. }
  pose proof (λ t, waiting_in_range q t Hinv) as Hrange.
  destruct Hinv as [H1 H2 H3 H4 Hpay H5 H6 H7 H8 H9 H10 H11 H12].
  assert (∀ t x k, (ow_tickets q ++ [(p, new_ticket)])%list !! t = Some (x, k) →
    ow_tickets q !! t = Some (x, k) ∨ t = length (ow_tickets q) ∧ x = p ∧ k = new_ticket) as Hold.
  { intros t x k [Ht|[Hle Ht]]%lookup_app_Some; [by left|].
    apply list_lookup_singleton_Some in Ht as [? [= <- <-]]. right. split; [lia|done]. }
  constructor; simpl; try done.
  - intros x e t [Hin|Hin]%elem_of_app.
    + destruct (H1 _ _ _ Hin) as [Ht ?]. split; [|done]. by apply lookup_app_l_Some.
    + apply list_elem_of_singleton in Hin as [= -> -> ->]. split; [by apply list_lookup_middle|done].
  - rewrite fmap_app. apply StronglySorted_app_2; [|done|by repeat constructor].
    intros t t' Ht Ht'%list_elem_of_singleton. subst t'. by apply Hrange.
  - intros t x k Ht. rewrite fmap_app, elem_of_app. destruct (Hold _ _ _ Ht) as [Ht'|(-> & -> & ->)].
    + destruct (H3 _ _ _ Ht'); auto.
    + left. right. simpl. by apply list_elem_of_singleton.
  - intros t t' x k Ht Hr. rewrite fmap_app, elem_of_app. destruct (Hold _ _ _ Ht) as [Ht'|(-> & -> & ->)]; [|done].
    intros [Hin|Hin%list_elem_of_singleton]; [by eapply H4|]. simpl in Hin. subst. by eapply lookup_lt_Some.
  - intros t x k r Ht Hr. destruct (Hold _ _ _ Ht) as [Ht'|(-> & -> & ->)]; [by eapply Hpay|done].
  - rewrite H5, length_app. simpl. lia.
  - intros Hpos. rewrite length_app. simpl. unfold queue_full in Hfull. rewrite H6 in Hfull.
    apply andb_false_iff in Hfull as [Hf%Nat.ltb_ge|Hf%Nat.leb_gt]; lia.
  - by rewrite Hrun.
  - destruct H12 as (calls & Hc & Hcalls). exists calls. split; [done|]. rewrite Hcalls. unfold written. simpl.
    by rewrite omap_app, app_nil_r.
Qed.

Lemma set_ticket_lookup t k t' (tickets : list (P * Ticket)) x k' :
  set_ticket t k tickets !! t' = Some (x, k') →
  t' = t ∧ k' = k ∨ t' ≠ t ∧ tickets !! t' = Some (x, k').
Proof.
  unfold set_ticket. destruct (decide (t' = t)) as [->|Hne].
  - rewrite list_lookup_alter_eq. destruct (tickets !! t) as [[]|]; [|done]. simpl. intros [= -> ->]. by left.
  - rewrite list_lookup_alter_ne by done. by right.
Qed.

(** The next ticket is served: its record comes after the others'. *)
Lemma written_set t k (tickets : list (P * Ticket)) p k0 : tickets !! t = Some (p, k0) → tk_record k0 = None →
  (∀ t' x k', tickets !! t' = Some (x, k') → tk_record k' ≠ None → (t' < t)%nat) →
  omap (λ x, tk_record x.2) (set_ticket t k tickets) =
  (omap (λ x, tk_record x.2) tickets ++ match tk_record k with Some r => [r] | None => [] end)%list.
Proof.
  intros Ht Hk0 Hlast. unfold set_ticket. rewrite <- (take_drop_middle tickets t (p, k0)) by done.
  pose proof (lookup_lt_Some _ _ _ Ht) as Hlt.
  assert (length (take t tickets) = t) as Hlen by (rewrite length_take; lia).
  rewrite alter_app_r_alt by lia. rewrite Hlen, Nat.sub_diag. simpl.
  assert (omap (λ x : P * Ticket, tk_record x.2) (drop (S t) tickets) = []) as Hnil.
  { apply elem_of_nil_inv. intros r ([x k'] & Hin & Hr)%list_elem_of_omap. simpl in Hr.
    apply list_elem_of_lookup in Hin as [i Hi]. rewrite lookup_drop in Hi.
    assert (S t + i < t)%nat; [|lia]. eapply Hlast; [done|congruence]. }
  assert (∀ k', omap (λ x : P * Ticket, tk_record x.2) ((p, k') :: drop (S t) tickets) =
    match tk_record k' with Some r => [r] | None => [] end) as Hcons.
  { intros k'. change (match tk_record k' with Some r => r :: omap (λ x : P * Ticket, tk_record x.2) (drop (S t) tickets)
      | None => omap (λ x : P * Ticket, tk_record x.2) (drop (S t) tickets) end = match tk_record k' with Some r => [r] | None => [] end).
    by rewrite Hnil. }
  rewrite !omap_app, !Hcons, Hk0. by rewrite app_nil_r.
Qed.

Lemma serve_inv q p eid t rest io w dir res k stats reported : queue_inv q → ow_queue q = (p, eid, t) :: rest → io_ok io →
  append sha256 (encode p) eid io (ow_writer q, ow_dir q) = (res, (w, dir)) →
  served k → tk_record k = match res with Ok r => Some r | Err _ => None end →
  st_pending stats = st_pending (ow_stats q) - 1 →
  queue_inv (mkOutboxWriter w dir rest (ow_maxsize q) (set_ticket t k (ow_tickets q)) stats Running (ow_closed q) reported).
Proof.
  intros [H1 H2 H3 H4 Hpay H5 H6 H7 H8 H9 H10 H11 H12] Hq Hio Ha Hk Hrec Hst. rewrite Hq in *. simpl in *.
  destruct (H1 p eid t) as [Ht Hok]; [by left|]. inversion H2 as [|? ? Hrest Hhd]; subst. rewrite Forall_forall in Hhd.
  constructor; simpl; try done.
  - intros x e t' Hin. destruct (H1 x e t') as [Ht' ?]; [by right|]. split; [|done].
    unfold set_ticket. rewrite list_lookup_alter_ne; [done|]. intros ->.
    apply (Nat.lt_irrefl t'), Hhd, list_elem_of_fmap. by exists (x, e, t').
  - intros t' x k' [[-> ->]|[Hne Ht']]%set_ticket_lookup; [by right|].
    destruct (H3 _ _ _ Ht') as [[Heq|Hin]%elem_of_cons|]; [done|by left|by right].
  - intros t' t'' x k' [[-> ->]|[Hne Ht']]%set_ticket_lookup Hr Hin; [by apply Hhd|].
    eapply H4; [done..|]. by right.
  - unfold set_ticket. intros t' x k' r. destruct (decide (t' = t)) as [->|Hne].
    + rewrite list_lookup_alter_eq, Ht. simpl. intros [= <- <-]. rewrite Hrec. intros Hr.
      eapply (append_survives _ sha256_hex _ _ _ _ _ _ _ _ H11 Hok Hio Ha). by destruct res; simplify_eq.
    + rewrite list_lookup_alter_ne by done. apply Hpay.
  - rewrite Hst, H5. lia.
  - intros Hpos. specialize (H7 Hpos). lia.
  - by eapply append_survives.
  - destruct H12 as (calls & Hc & Hcalls). exists (calls ++ [CallAppend (encode p) eid io])%list. split.
    + apply Forall_app_2; [done|]. apply Forall_singleton. by apply submission_append.
    + rewrite foldl_app, Hcalls. simpl. rewrite Ha. unfold written. simpl.
      rewrite (written_set t k _ p new_ticket), Hrec; [|done|done|].
      * destruct res; [done|]. by rewrite app_nil_r.
      * intros t' x k' Ht' Hr. eapply H4; [done..|]. by left.
Qed.

Lemma run_turn_inv io q : queue_inv q → io_ok io → queue_inv (run_turn sha256 encode io q).
Proof.
  intros Hinv Hio. unfold run_turn. case_decide as Hrun; [|done].
  destruct (ow_queue q) as [|[[p eid] t] rest] eqn:Hq.
  - destruct (ow_closed q) eqn:Hc; [|done].
    destruct Hinv as [H1 H2 H3 H4 Hpay H5 H6 H7 H8 H9 H10 H11 H12]. rewrite Hq in *. constructor; simpl; try done.
    destruct H12 as (calls & Hok & Hcalls). exists (calls ++ [Outbox.CallClose])%list. split.
    + apply Forall_app_2; [done|]. by apply Forall_singleton.
    + by rewrite foldl_app, Hcalls.
  - destruct (append sha256 (encode p) eid io (ow_writer q, ow_dir q)) as [res [w dir]] eqn:Ha.
    destruct (qi_waiting _ Hinv p eid t) as [_ Hok]; [rewrite Hq; by left|].
    destruct (append_survives _ sha256_hex _ _ _ _ _ _ _ _ (qi_writer _ Hinv) Hok Hio Ha) as (_ & Hres & _).
    destruct res as [r|[code d|]]; [| |done];
      (eapply serve_inv; [done|done|exact Hio|exact Ha|split; [done|]|done|done]); naive_solver.
Qed.

Lemma close_inv q : queue_inv q → queue_inv (close_queue q).
Proof.
  intros [H1 H2 H3 H4 Hpay H5 H6 H7 H8 H9 H10 H11 H12]. constructor; simpl; try done.
  - by case_decide.
  - destruct H12 as (calls & Hok & Hcalls). case_decide; [|by exists calls].
    exists (calls ++ [Outbox.CallClose])%list. split; [|by rewrite foldl_app, Hcalls].
    apply Forall_app_2; [done|]. by apply Forall_singleton.
Qed.

Definition queue_call_ok (c : queue_call P) : Prop :=
  match c with
  | QSubmit p eid => submission_ok (encode p) eid
  | QTurn io => io_ok io
  | QClose => True
  end.

Definition queue_run (calls : list (queue_call P)) : OutboxWriter P :=
  foldl (queue_step sha256 encode) (new_outbox_writer sid segment_bytes queue_records) calls.

Lemma queue_run_inv calls : Forall queue_call_ok calls → queue_inv (queue_run calls).
Proof.
  intros Hok. unfold queue_run. pose proof new_queue_inv as Hinv. revert Hinv.
  generalize (new_outbox_writer (P:=P) sid segment_bytes queue_records).
  induction Hok as [|c calls Hc _ IH]; intros q Hinv; [done|]. simpl. apply IH.
  destruct c; simpl in *; [by apply submit_inv|by apply run_turn_inv|by apply close_inv].
Qed.

Lemma run_turns_inv ios q : queue_inv q → Forall io_ok ios → queue_inv (run_turns sha256 encode ios q).
Proof.
  intros Hinv Hok. revert q Hinv. unfold run_turns.
  induction Hok as [|io ios Hio _ IH]; intros q Hinv; [done|]. simpl. by apply IH, run_turn_inv.
Qed.

Lemma run_turn_queue io q : queue_inv q → io_ok io → ow_queue (run_turn sha256 encode io q) = tail (ow_queue q).
Proof.
  intros Hinv Hio. unfold run_turn. case_decide as Hrun.
  - destruct (ow_queue q) as [|[[p eid] t] rest] eqn:Hq; [by destruct (ow_closed q)|].
    by destruct (append sha256 _ _ _ _) as [[r|[code d|]] [w dir]].
  - destruct (ow_queue q) eqn:Hq; [done|]. exfalso. apply Hrun, (qi_running _ Hinv). by rewrite Hq.
Qed.

Lemma run_turns_queue ios q : queue_inv q → Forall io_ok ios →
  ow_queue (run_turns sha256 encode ios q) = drop (length ios) (ow_queue q).
Proof.
  intros Hinv Hok. revert q Hinv. unfold run_turns. induction Hok as [|io ios Hio _ IH]; intros q Hinv; [done|].
  simpl. rewrite IH by (by apply run_turn_inv). rewrite run_turn_queue by done.
  destruct (ow_queue q); simpl; [by rewrite drop_nil|done].
Qed.

Lemma run_turns_idle ios q : ow_thread q ≠ Running → run_turns sha256 encode ios q = q.
Proof.
  intros Hq. unfold run_turns. induction ios as [|io ios IH]; [done|]. simpl.
  assert (run_turn sha256 encode io q = q) as -> by (unfold run_turn; by case_decide). apply IH.
Qed.

Lemma run_turns_finish ios q : queue_inv q → Forall io_ok ios → ow_closed q = true → ow_thread q = Running →
  (length (ow_queue q) < length ios)%nat →
  let q' := run_turns sha256 encode ios q in
  ow_thread q' = Finished ∧ sw_closed (ow_writer q') = true ∧ sw_locked (ow_writer q') = false.
Proof.
  intros Hinv Hok. revert q Hinv. induction Hok as [|io ios Hio Hios IH]; intros q Hinv Hc Hrun Hlen; [simpl in Hlen; lia|].
  pose proof (run_turn_inv io q Hinv Hio) as Hinv1. pose proof (run_turn_queue io q Hinv Hio) as Hq1.
  change (run_turns sha256 encode (io :: ios) q) with (run_turns sha256 encode ios (run_turn sha256 encode io q)).
  destruct (ow_queue q) as [|[[p eid] t] rest] eqn:Hq.
  - assert (∃ w, run_turn sha256 encode io q = w ∧ ow_thread w = Finished ∧ sw_closed (ow_writer w) = true ∧
      sw_locked (ow_writer w) = false) as (w & -> & Hw & Hw').
    { eexists. split; [done|]. unfold run_turn. by rewrite decide_True, Hq, Hc by done. }
    rewrite run_turns_idle by (by rewrite Hw). by split.
  - apply IH; [done| | |].
    + unfold run_turn. rewrite decide_True, Hq by done. by destruct (append sha256 _ _ _ _) as [[r|[code d|]] [w dir]].
    + unfold run_turn. rewrite decide_True, Hq by done. pose proof (qi_alive _ Hinv1) as Halive. revert Halive.
      unfold run_turn. rewrite decide_True, Hq by done. by destruct (append sha256 _ _ _ _) as [[r|[code d|]] [w dir]].
    + rewrite Hq1. simpl in *. lia.
Qed.

(** A ticket once resolved never changes again. *)
Lemma step_keeps_resolved c q t p k : queue_inv q → ow_tickets q !! t = Some (p, k) → tk_resolved k = true →
  ow_tickets (queue_step sha256 encode q c) !! t = Some (p, k).
Proof.
  intros Hinv Ht Hk. destruct c as [p' eid|io|]; simpl; [| |done].
  - unfold submit. destruct (ow_closed q); [|destruct (queue_full q)]; simpl; by apply lookup_app_l_Some.
  - unfold run_turn. case_decide; [|done]. destruct (ow_queue q) as [|[[p' eid] t'] rest] eqn:Hq; [by destruct (ow_closed q)|].
    assert (t ≠ t') as Hne.
    { intros ->. destruct (qi_waiting _ Hinv p' eid t') as [Hw _]; [rewrite Hq; by left|]. by simplify_eq. }
    destruct (append sha256 _ _ _ _) as [[r|[code d|]] [w dir]]; simpl; [| |done];
      unfold set_ticket; by rewrite list_lookup_alter_ne.
Qed.

Lemma run_keeps_resolved later q t p k : queue_inv q → Forall queue_call_ok later →
  ow_tickets q !! t = Some (p, k) → tk_resolved k = true →
  ow_tickets (foldl (queue_step sha256 encode) q later) !! t = Some (p, k).
Proof.
  intros Hinv Hok Ht Hk. revert q Hinv Ht. induction Hok as [|c calls Hc _ IH]; intros q Hinv Ht; [done|]. simpl.
  apply IH; [|by apply step_keeps_resolved].
  destruct c; simpl in *; [by apply submit_inv|by apply run_turn_inv|by apply close_inv].
Qed.

(** C10: the thread is live, for submissions that can be encoded as JSON. After any
    calls, as many turns of its loop as records wait, whatever failure the file system
    meets in each of them (opening, locking, rolling a segment, writing), leave nothing
    waiting: every ticket ever handed out has been resolved, with its record or with a
    failure and not both, and nothing counts as pending. If the writer was closed, one
    turn more ends the thread with the stream released. *)
Theorem queue_drains calls ios : Forall queue_call_ok calls → Forall io_ok ios →
  let q := queue_run calls in (length (ow_queue q) ≤ length ios)%nat →
  let q' := run_turns sha256 encode ios q in
  ow_queue q' = [] ∧ st_pending (ow_stats q') = 0 ∧
  (∀ t p k, ow_tickets q' !! t = Some (p, k) → served k) ∧
  (ow_closed q = true → ow_thread q = Running → (length (ow_queue q) < length ios)%nat →
   ow_thread q' = Finished ∧ sw_closed (ow_writer q') = true ∧ sw_locked (ow_writer q') = false).
Proof.
  intros Hok Hios q Hlen q'. pose proof (queue_run_inv calls Hok) as Hinv.
  pose proof (run_turns_inv ios q Hinv Hios) as Hinv'. fold q' in Hinv'.
  assert (ow_queue q' = []) as Hq by (unfold q'; rewrite run_turns_queue by done; by apply drop_ge).
  split_and!; [done| | |].
  - by rewrite (qi_pending _ Hinv'), Hq.
  - intros t p k Ht. destruct (qi_served _ Hinv' _ _ _ Ht) as [Hin|]; [|done]. by rewrite Hq in Hin; apply not_elem_of_nil in Hin.
  - intros Hc Hrun Hlt. by apply run_turns_finish.
Qed.

(** C23: what a ticket says is what the stream holds, for submissions that can be
    encoded as JSON. After any calls and any failures of the file system, the queue is
    within its bound and counts what waits; a resolved ticket never changes, whatever is
    called later; a record is confirmed only when every ticket before it was served; the
    records of the tickets, in the order they were handed out, are the ones the reader
    finds up to the writer's confirmed sequence, but for the gaps between them; and each
    carries what was submitted with its ticket. *)
Theorem queue_durable calls log : Forall queue_call_ok calls →
  let q := queue_run calls in
  let dir := mkStreamDir (sd_name (ow_dir q)) (sd_segments (ow_dir q)) log in
  ((0 < queue_records)%nat → (length (ow_queue q) ≤ queue_records)%nat) ∧
  st_pending (ow_stats q) = Z.of_nat (length (ow_queue q)) ∧
  (∀ t p k later, Forall queue_call_ok later → ow_tickets q !! t = Some (p, k) → tk_resolved k = true →
     ow_tickets (queue_run (calls ++ later)) !! t = Some (p, k)) ∧
  (∀ t t' p p' k k', (t < t')%nat → ow_tickets q !! t = Some (p, k) → ow_tickets q !! t' = Some (p', k') →
     waited k' = true → served k) ∧
  (∀ t p k r, ow_tickets q !! t = Some (p, k) → tk_record k = Some r → ob_payload r = sorted_payload (encode p)) ∧
  (few_segments (ow_writer q) → ∃ confirmed,
     filter (λ r, ¬ is_gap r) confirmed = written q ∧
     (acknowledged (read_ack sha256 dir) confirmed →
      filter (λ r, ob_sequence r ≤ sw_confirmed (ow_writer q)) (ss_records (scan_stream sha256 dir false)) = confirmed)).
Proof.
  intros Hok q dir. pose proof (queue_run_inv calls Hok) as Hinv. split_and!.
  - apply Hinv.
  - apply Hinv.
  - intros t p k later Hlater Ht Hk. unfold queue_run. rewrite foldl_app. by apply run_keeps_resolved.
  - intros t t' p p' k k' Hlt Ht Ht' [_ Hw%bool_decide_eq_true]%andb_true_iff.
    destruct (qi_served _ Hinv _ _ _ Ht) as [Hin|]; [|done].
    pose proof (qi_fifo _ Hinv _ _ _ _ Ht' Hw Hin). lia.
  - intros t p k r. apply (qi_payload _ Hinv).
  - intros Hfew. destruct (qi_stream _ Hinv) as (ocalls & Hcok & Hrun).
    destruct (run_calls_spec sha256 sha256_hex (read_ack sha256 dir) sid segment_bytes ocalls sid_hex Hcok)
      as (confirmed & Hsi & Hret); [by rewrite Hrun|].
    rewrite Hrun in Hsi, Hret. apply (inv_ack_log _ _ _ _ _ log) in Hsi. exists confirmed. split; [done|].
    intros Hack. by apply (scan_live _ _ _ _ Hsi).
Qed.
End state.

(** * The capture's writer *)

Definition ticket_state (k : Ticket) : TicketState :=
  match tk_record k, tk_failure k with
  | Some r, _ => TWritten (ob_sequence r)
  | None, Some code => TFailed code
  | None, None => TPending
  end.

(** A queue of capture records, and the turns its thread takes at each of the calls to
    come. *)
Record PortState := mkPortState {
  ps_queue : OutboxWriter CaptureRecord;
  ps_script : list (list AppendIo)
}.

(** The codes [_open] raises. *)
Definition open_codes (io : AppendIo) : Prop :=
  from_option (λ x, x.1 ∈ ["WRITE_FAILED"; "LOCK_FAILED"; "LOCK_CONTENTION"]) True (ai_open io).

Record queue_ok (q : OutboxWriter CaptureRecord) : Prop := {
  qo_waiting p eid t : (p, eid, t) ∈ ow_queue q → ow_tickets q !! t = Some (p, new_ticket);
  qo_nodup : NoDup (ow_queue q).*2;
  qo_closed : sw_closed (ow_writer q) = true → ow_closed q = true ∧ ow_queue q = [];
  qo_started : ow_thread q = NotStarted → ow_queue q = []
}.

Definition port_ok (s : PortState) : Prop := queue_ok (ps_queue s) ∧ Forall (Forall open_codes) (ps_script s).

Definition queue_log (q : OutboxWriter CaptureRecord) : list (CaptureRecord * TicketState) :=
  (λ x, (x.1, ticket_state x.2)) <$> ow_tickets q.

Section port.
Variable sha256 : string → string.
Variable encode : CaptureRecord → odict string json.

Lemma log_step_id l : log_step l l.
Proof. induction l; constructor; [split; [done|constructor]|done]. Qed.

Lemma set_ticket_log t k p tickets : tickets !! t = Some (p, new_ticket) → ticket_step TPending (ticket_state k) →
  log_step ((λ x : CaptureRecord * Ticket, (x.1, ticket_state x.2)) <$> tickets)
    ((λ x, (x.1, ticket_state x.2)) <$> set_ticket t k tickets).
Proof.
  intros Ht Hk. apply Forall2_fmap_2. unfold set_ticket. apply Forall2_same_length_lookup.
  split; [by rewrite length_alter|]. intros i x y Hx Hy. destruct (decide (i = t)) as [->|Hne].
  - rewrite list_lookup_alter_eq, Ht in Hy. simplify_eq/=. by split.
  - rewrite list_lookup_alter_ne in Hy by done. simplify_eq. split; [done|constructor].
Qed.

Lemma serve_ok q p eid t rest w dir k stats thread reported : queue_ok q → ow_queue q = (p, eid, t) :: rest →
  sw_closed w = sw_closed (ow_writer q) → thread ≠ NotStarted → ticket_step TPending (ticket_state k) →
  let q' tickets := mkOutboxWriter w dir rest (ow_maxsize q) tickets stats thread (ow_closed q) reported in
  queue_ok (q' (set_ticket t k (ow_tickets q))) ∧ queue_ok (q' (ow_tickets q)) ∧
  log_step (queue_log q) (queue_log (q' (set_ticket t k (ow_tickets q)))).
Proof.
  intros [H1 H2 H3 H4] Hq Hw Hth Hk q'. rewrite Hq in *. simpl in H2. apply NoDup_cons in H2 as [Hnot H2].
  assert (sw_closed w = true → False) as Hcl by (intros Hc; rewrite Hw in Hc; by destruct (H3 Hc)).
  split_and!.
  - constructor; simpl; try done. intros x e t' Hin. unfold set_ticket.
    rewrite list_lookup_alter_ne; [apply (H1 x e); by right|]. intros ->. apply Hnot, list_elem_of_fmap. by exists (x, e, t').
  - constructor; simpl; try done. intros x e t' Hin. apply (H1 x e). by right.
  - apply (set_ticket_log _ _ p); [|done]. apply (H1 p eid). by left.
Qed.

Lemma run_turn_ok io q : queue_ok q → open_codes io →
  queue_ok (run_turn sha256 encode io q) ∧ log_step (queue_log q) (queue_log (run_turn sha256 encode io q)).
Proof.
  intros Hq Hio. unfold run_turn. case_decide as Hrun; [|by split; [|apply log_step_id]].
  destruct (ow_queue q) as [|[[p eid] t] rest] eqn:Hqueue.
  { destruct (ow_closed q) eqn:Hc; [|by split; [|apply log_step_id]]. split; [|apply log_step_id].
    constructor; simpl; try done; [by intros ? ? ? ?%not_elem_of_nil|constructor]. }
  destruct (append sha256 (encode p) eid io (ow_writer q, ow_dir q)) as [res [w dir]] eqn:Ha.
  apply append_errors in Ha as [Hw He].
  destruct res as [r|[code d|]].
  - destruct (serve_ok q p eid t rest w dir (resolve (Some r) None) (count_confirmed (ob_sequence r) (ow_stats q))
      Running (ow_reported q)) as (? & _ & ?); [done..|constructor|by split].
  - destruct (serve_ok q p eid t rest w dir (resolve None (Some code)) (count_failure code (ow_stats q))
      Running (ow_reported q ++ [code])) as (? & _ & ?); [done..| |by split].
    constructor. specialize (He _ eq_refl). simpl in He |- *. intros Hcode.
    destruct He as [[-> Hc]|[->|[->|[d' Ho]]]]; [|by destruct Hcode..|].
    + destruct (qo_closed _ Hq Hc) as [_ Hn]. congruence.
    + unfold open_codes in Hio. rewrite Ho in Hio. simpl in Hio.
      rewrite !elem_of_cons, elem_of_nil in Hio. destruct Hcode as [-> | ->]; naive_solver.
  - destruct (serve_ok q p eid t rest w dir new_ticket (ow_stats q) Died (ow_reported q)) as (_ & ? & _);
      [done..|constructor|]. split; [done|apply log_step_id].
Qed.

Lemma run_turns_ok ios q : queue_ok q → Forall open_codes ios →
  queue_ok (run_turns sha256 encode ios q) ∧ log_step (queue_log q) (queue_log (run_turns sha256 encode ios q)).
Proof.
  intros Hq Hios. revert q Hq. unfold run_turns. induction Hios as [|io ios Hio _ IH]; intros q Hq; simpl.
  - split; [done|apply log_step_id].
  - destruct (run_turn_ok io q Hq Hio) as [Hq1 Hl1]. destruct (IH _ Hq1) as [Hq2 Hl2].
    split; [done|]. by eapply log_step_trans.
Qed.

Lemma submit_ok p eid q : queue_ok q →
  let '(t, q') := submit p eid q in queue_ok q' ∧ t = length (queue_log q) ∧ ∃ st, queue_log q' = (queue_log q ++ [(p, st)])%list.
Proof.
  intros Hq. unfold submit, queue_log. rewrite length_fmap. destruct Hq as [H1 H2 H3 H4].
  assert (∀ k x e t, (x, e, t) ∈ ow_queue q → (ow_tickets q ++ [(p, k)])%list !! t = Some (x, new_ticket)) as Hold.
  { intros k x e t Hin. apply lookup_app_l_Some. by eapply H1. }
  destruct (ow_closed q) eqn:Hc; [|destruct (queue_full q)].
  - split; [by constructor; simpl; eauto|]. split; [done|]. simpl. rewrite fmap_app. by eexists.
  - split; [constructor; simpl; eauto; by case_decide|].
    split; [done|]. simpl. rewrite fmap_app. by eexists.
  - split; [constructor; simpl|].
    + intros x e t [Hin|Hin]%elem_of_app; [by eapply Hold|]. apply list_elem_of_singleton in Hin as [= -> -> ->].
      by apply list_lookup_middle.
    + rewrite fmap_app. apply NoDup_app. split_and!; [done| |by apply NoDup_singleton].
      intros t ([[x e] t'] & -> & Hin)%list_elem_of_fmap Hl%list_elem_of_singleton. simpl in Hl. subst.
      apply H1, lookup_lt_Some in Hin. lia.
    + intros Hw. by destruct (H3 Hw).
    + by case_decide.
    + split; [done|]. simpl. rewrite fmap_app. by eexists.
Qed.

Lemma close_ok q : queue_ok q → queue_ok (close_queue q) ∧ queue_log (close_queue q) = queue_log q.
Proof.
  intros [H1 H2 H3 H4]. split; [|done]. constructor; simpl; try done. case_decide; [auto|].
  intros Hw. by destruct (H3 Hw).
Qed.

(** The thread takes the turns the script has for it. *)
Definition next_turns (s : PortState) : list AppendIo * list (list AppendIo) :=
  match ps_script s with [] => ([], []) | ios :: script => (ios, script) end.
Definition work (q : OutboxWriter CaptureRecord) (s : PortState) : PortState :=
  mkPortState (run_turns sha256 encode (next_turns s).1 q) (next_turns s).2.

Lemma work_ok q s : port_ok s → queue_ok q → port_ok (work q s) ∧ log_step (queue_log q) (queue_log (ps_queue (work q s))).
Proof.
  intros [_ Hs] Hq. unfold work, next_turns, port_ok. destruct (ps_script s) as [|ios script]; simpl.
  - split_and!; [done|constructor|apply log_step_id].
  - apply Forall_cons in Hs as [Hios Hs]. destruct (run_turns_ok ios q Hq Hios). by split_and!.
Qed.

Definition Port : Type := { s : PortState | port_ok s }.

Lemma submit_work_ok (s : Port) r : port_ok (work (submit r None (ps_queue (`s))).2 (`s)).
Proof.
  destruct s as [s Hs]. simpl. apply work_ok; [done|]. pose proof (submit_ok r None (ps_queue s)) as Hok.
  destruct (submit r None (ps_queue s)). by apply Hok, Hs.
Qed.
Lemma plain_work_ok (s : Port) : port_ok (work (ps_queue (`s)) (`s)).
Proof. destruct s as [s Hs]. apply work_ok; [done|]. apply Hs. Qed.
Lemma close_work_ok (s : Port) : port_ok (work (close_queue (ps_queue (`s))) (`s)).
Proof. destruct s as [s Hs]. apply work_ok; [done|]. apply close_ok, Hs. Qed.

#[local] Instance queue_port : OutboxPort Port := {
  port_submit s r := ((submit r None (ps_queue (`s))).1, exist port_ok _ (submit_work_ok s r));
  port_ticket s t := default TPending (snd <$> queue_log (ps_queue (`s)) !! t);
  port_wait s t :=
    (match ow_tickets (ps_queue (work (ps_queue (`s)) (`s))) !! t with Some (_, k) => waited k | None => false end,
     exist port_ok _ (plain_work_ok s));
  port_work s := exist port_ok _ (plain_work_ok s);
  port_close s :=
    (negb (bool_decide (ow_thread (ps_queue (work (close_queue (ps_queue (`s))) (`s))) = Running)),
     exist port_ok _ (close_work_ok s))
}.

(** The queue is the writer the capture's theorems ask for. *)
#[local] Instance queue_port_laws : OutboxPortLaws Port.
Proof.
  refine {| port_log s := queue_log (ps_queue (`s)) |}.
  - done.
  - intros s r. simpl. pose proof (submit_ok r None (ps_queue (`s))) as Hok.
    destruct (submit r None (ps_queue (`s))) as [t q] eqn:Hs. simpl.
    destruct Hok as (Hq & -> & st & Hlog); [apply (proj2_sig s)|]. split; [done|].
    destruct (work_ok q (`s)) as [_ Hstep]; [apply (proj2_sig s)|done|]. rewrite Hlog in Hstep.
    apply Forall2_app_inv_l in Hstep as (l & new & Hl & Hnew & Heq).
    apply Forall2_cons_inv_l in Hnew as ([r' st'] & new' & [Hr _] & Hnil & ->). apply Forall2_nil_inv_l in Hnil as ->.
    simpl in Hr. subst r'. eauto.
  - intros s t. simpl. split; [apply work_ok; apply (proj2_sig s)|]. intros Hb.
    unfold queue_log. rewrite list_lookup_fmap.
    destruct (ow_tickets _ !! t) as [[r k]|]; [|done]. simpl.
    apply andb_true_iff in Hb as [_ Hrec%bool_decide_eq_true]. unfold ticket_state.
    destruct (tk_record k) as [rec|]; [by eexists|done].
  - intros s. simpl. apply work_ok; apply (proj2_sig s).
  - intros s. simpl. destruct (close_ok (ps_queue (`s))) as [Hq Hlog]; [apply (proj2_sig s)|]. rewrite <- Hlog.
    apply work_ok; [apply (proj2_sig s)|done].
Defined.
End port.

(** * A host at work *)

Definition example_time (t : timestamp) : string := "2026-01-01T00:00:00Z".
Definition example_encode : CaptureRecord → odict string json :=
  record_payload checksum_hex example_time (λ _, true) 6 0.
Definition example_io (io : WriteIo) : AppendIo :=
  mkAppendIo None write_fine io (example_id "1") (example_id "2") (example_id "3").
Definition turns (n : nat) : list AppendIo := replicate n (example_io write_fine).

(** Nothing is written until the thread has turns: three at the wait of the intent, and
    enough at the wait of the close and after it. *)
Definition example_script : list (list AppendIo) :=
  [[]; []; []; []; turns 4; []; []; turns 3; turns 2; []].

Lemma example_port_ok : port_ok (mkPortState (new_outbox_writer (example_id "a") 4000 16) example_script).
Proof.
  split; [constructor; simpl; try done; [by intros ? ? ? ?%not_elem_of_nil|constructor]|].
  repeat constructor.
Qed.
Definition example_port : Port := exist port_ok _ example_port_ok.

Definition example_queue : OutboxPort Port := queue_port checksum_hex example_encode.
Definition example_laws : @OutboxPortLaws Port example_queue := queue_port_laws checksum_hex example_encode.

Definition example_settled : StageReceipt :=
  example_receipt "a1" (Some "g1") (Some 250000) 0.
Definition example_summary : TurnCostSummary := mkTurnCostSummary "s:1" 250000 [] ["a1"] 0 0.
Definition example_history : list capture_call :=
  [CallInvocationOpened "s:1" (Some "s"); CallIntent "s:1" "r1" "planning" (Some "s") None None;
   CallIntentReturns 0; CallReceipt example_settled None; CallClose example_summary; WriterWorks;
   CallReceipt example_settled None].
Definition example_run : CaptureRun :=
  @capture_run Port example_queue example_laws checksum_hex pretty example_port example_history.

Definition example_log : list (CaptureRecord * TicketState) :=
  @capture_log Port example_queue example_laws (cr_capture example_run).

Lemma pretty_fresh (i j : nat) : pretty i = pretty j → i = j.
Proof. apply (inj pretty). Qed.

Lemma capture_epochs_sound_witness :
  (λ x, (kind_of x.1, x.2)) <$> example_log =
    [("stream.start", TWritten 1); ("epoch.begin", TWritten 2); ("invocation.open", TWritten 3);
     ("attempt.intent", TWritten 4); ("attempt.receipt", TWritten 5); ("epoch.identities", TWritten 6);
     ("epoch.close", TWritten 7); ("attempt.receipt", TPending)] ∧
  ∀ r st, example_log !! 7%nat = Some (r, st) → epoch_of r = Some "1" → straggler r = true.
Proof.
  split; [vm_compute; reflexivity|]. intros r st.
  destruct (@capture_epochs_sound Port example_queue example_laws checksum_hex pretty pretty_fresh example_port
              example_history) as (_ & _ & Hafter); [vm_compute; reflexivity|].
  eapply (Hafter 6%nat 7%nat); [vm_compute; reflexivity|reflexivity|reflexivity|reflexivity|lia].
Defined.

Lemma host_complete_sound_witness :
  ∃ r st, example_log !! 6%nat = Some (r, st) ∧
    match r with EpochClose _ _ _ _ _ _ _ _ _ _ _ _ _ host_complete => host_complete | _ => false end = true ∧
    complete_at example_log (cr_returned example_run) 6 r ∧
    cr_returned example_run = [(3%nat, true, 4%nat)].
Proof.
  eexists _, _. split; [vm_compute; reflexivity|]. split; [reflexivity|]. split; [|vm_compute; reflexivity].
  eapply (@host_complete_sound Port example_queue example_laws checksum_hex pretty pretty_fresh example_port
    example_history); vm_compute; reflexivity.
Defined.

(** A queue of three numbers: the second write tears, and the writer is closed before the
    third. *)
Definition number_payload (n : Z) : odict string json := [("kind", JString "example"); ("n", int_json n)].
Definition torn : WriteIo := mkWriteIo None (Some 20%nat).
Definition example_queue_calls : list (queue_call Z) :=
  [QSubmit 1 None; QSubmit 2 None; QTurn (example_io write_fine); QTurn (example_io torn); QSubmit 3 None; QClose].
Definition drained : OutboxWriter Z :=
  run_turns checksum_hex number_payload (turns 2)
    (queue_run checksum_hex number_payload (example_id "a") 600 2 example_queue_calls).

Lemma number_payload_ok n : submission_ok (number_payload n) None.
Proof.
  split; [|by split]. constructor.
  - apply (bool_decide_unpack _). vm_compute. exact I.
  - simpl. rewrite !Forall_cons. split_and!; try by apply ascii_valid. constructor.
  - simpl. rewrite !Forall_cons. split_and!; [by apply ok_string, ascii_valid|apply written_int|constructor].
Qed.
Lemma example_io_ok io : io_ok (example_io io).
Proof. by split_and!. Qed.
Lemma example_queue_calls_ok : Forall (queue_call_ok number_payload) example_queue_calls.
Proof.
  apply Forall_forall. intros c Hc. unfold example_queue_calls in Hc. rewrite !elem_of_cons in Hc.
  destruct Hc as [->|[->|[->|[->|[->|[->|Hc]]]]]]; [apply number_payload_ok|apply number_payload_ok|apply example_io_ok|
    apply example_io_ok|apply number_payload_ok|exact I|by apply not_elem_of_nil in Hc].
Qed.

Lemma queue_drains_witness :
  ((λ x, (x.1, tk_failure x.2)) <$> ow_tickets drained) = [(1, None); (2, Some "WRITE_FAILED"); (3, None)] ∧
  ow_queue drained = [] ∧ ow_thread drained = Finished ∧ sw_locked (ow_writer drained) = false.
Proof.
  split; [vm_compute; reflexivity|].
  destruct (queue_drains checksum_hex checksum_is_hex number_payload (example_id "a") 600 2
              ltac:(vm_compute; reflexivity) example_queue_calls (turns 2))
    as (Hq & _ & _ & Hfin); [apply example_queue_calls_ok|apply Forall_replicate, example_io_ok|vm_compute; lia|].
  split; [exact Hq|]. destruct Hfin as (Ht & _ & Hl); [vm_compute; reflexivity|vm_compute; reflexivity|vm_compute; lia|].
  by split.
Defined.

Definition example_done_calls : list (queue_call Z) :=
  example_queue_calls ++ [QTurn (example_io write_fine); QTurn (example_io write_fine)].
Lemma example_done_calls_ok : Forall (queue_call_ok number_payload) example_done_calls.
Proof.
  apply Forall_app_2; [apply example_queue_calls_ok|]. repeat apply Forall_cons_2; try apply example_io_ok. constructor.
Qed.
Definition example_done : OutboxWriter Z :=
  queue_run checksum_hex number_payload (example_id "a") 600 2 example_done_calls.

Lemma queue_durable_witness :
  (ob_sequence <$> written example_done) = [1; 4] ∧
  ∃ confirmed, filter (λ r, ¬ is_gap r) confirmed = written example_done ∧
    filter (λ r, ob_sequence r ≤ sw_confirmed (ow_writer example_done))
      (ss_records (scan_stream checksum_hex (ow_dir example_done) false)) = confirmed.
Proof.
  split; [vm_compute; reflexivity|].
  pose proof (queue_durable checksum_hex checksum_is_hex number_payload (example_id "a") 600 2
    ltac:(vm_compute; reflexivity) example_done_calls None example_done_calls_ok) as H.
  unfold example_done. remember (queue_run checksum_hex number_payload (example_id "a") 600 2 example_done_calls) as q eqn:Hq.
  destruct H as (_ & _ & _ & _ & _ & Hscan).
  assert (few_segments (ow_writer q)) as Hfew by (rewrite Hq; vm_compute; reflexivity).
  assert (sd_ack_log (ow_dir q) = None) as Hlog by (rewrite Hq; vm_compute; reflexivity).
  clear Hq. destruct (Hscan Hfew) as (confirmed & Hw & Hs). exists confirmed.
  split; [exact Hw|]. destruct (ow_dir q) as [name files log]. simpl in Hlog. subst log. by apply Hs.
Defined.

(** A payload that JSON cannot hold, such as a number that is not one, stops the thread:
    it dies on it, and what is submitted after it is admitted but never served. *)
Definition not_a_number : odict string json := [("kind", JString "example"); ("n", JNumber "nan")].
Definition poisoned_queue : OutboxWriter (odict string json) :=
  (submit (number_payload 1) None (submit not_a_number None (new_outbox_writer (example_id "a") 600 16)).2).2.
Definition stopped_queue (n : nat) : OutboxWriter (odict string json) :=
  run_turns checksum_hex (λ p, p) (turns n) poisoned_queue.

Lemma unencodable_payload_stops_thread n : (0 < n)%nat →
  ow_thread (stopped_queue n) = Died ∧ tk_resolved <$> (snd <$> ow_tickets (stopped_queue n)) = [false; false] ∧
  length (ow_queue (stopped_queue n)) = 1%nat.
Proof.
  destruct n as [|n]; [lia|]. intros _.
  assert (stopped_queue (S n) = run_turn checksum_hex (λ p, p) (example_io write_fine) poisoned_queue) as ->.
  { change (stopped_queue (S n)) with (run_turns checksum_hex (λ p : odict string json, p) (turns n)
      (run_turn checksum_hex (λ p, p) (example_io write_fine) poisoned_queue)).
    apply run_turns_idle. vm_compute. discriminate. }
  vm_compute. done.
Qed.

(** * A payload and a batch the Gateway accepts *)

Definition ascii_digit (c : string) : bool := false.
Definition example_attempt : CaptureRecord := AttemptReceipt (example_id "b") false "agent.answer" example_settled.

Lemma example_time_ok t : is_timestamp ascii_digit (example_time t) = true.
Proof. vm_compute. reflexivity. Qed.

Lemma example_attempt_ok : record_ok 6 example_attempt.
Proof.
  split; [vm_compute; reflexivity|]. split; [vm_compute; reflexivity|].
  split; [exists example_settled; vm_compute; reflexivity|].
  unfold text. rewrite !Forall_cons.
  split_and!; try (apply Forall_nil; exact I); try (vm_compute; reflexivity); try exact I; vm_compute; lia || done.
Qed.

(** An intent and a gap, as the first two records of a stream. *)
Definition example_begin : CaptureRecord := EpochBegin (example_id "b") "s:1" (Some "s").
Definition example_records : list OutboxRecord :=
  match frame checksum_hex (example_id "a") 1 GENESIS (example_encode example_begin) (example_id "1") with
  | Some r => r :: match frame checksum_hex (example_id "a") 3 (ob_digest r) (gap_payload 2 2) (example_id "2") with
                   | Some g => [g] | None => [] end
  | None => []
  end.

Lemma example_begin_ok : json_ok (JObject (example_encode example_begin)).
Proof.
  constructor.
  - apply (bool_decide_unpack _). vm_compute. exact I.
  - simpl. rewrite !Forall_cons. split_and!; try by apply ascii_valid. constructor.
  - unfold example_encode, record_payload. simpl. rewrite !Forall_cons. split_and!; try (apply ok_string, ascii_valid; vm_compute; reflexivity). constructor.
Qed.
Lemma example_gap_ok : json_ok (JObject (gap_payload 2 2)).
Proof.
  constructor.
  - apply (bool_decide_unpack _). vm_compute. exact I.
  - simpl. rewrite !Forall_cons. split_and!; try by apply ascii_valid. constructor.
  - simpl. rewrite !Forall_cons. split_and!; [by apply ok_string, ascii_valid|exact (proj1 (written_int 2))..|constructor].
Qed.

Lemma example_records_captured :
  Forall (captured checksum_hex example_time (λ _, true) 6 (example_id "a")) example_records.
Proof.
  unfold example_records. destruct (frame _ _ 1 _ _ _) as [r|] eqn:Hr; [|constructor].
  assert (is_hex 64 (ob_digest r) = true) as Hd.
  { revert Hr. vm_compute. intros [= <-]. reflexivity. }
  constructor.
  { exists (example_encode example_begin), 1, GENESIS, (example_id "1"). split; [|split; [|done]].
    - left. exists 0, example_begin. split; [|done]. split_and!; vm_compute; reflexivity.
    - split_and!; [done|done|done|apply example_begin_ok|done]. }
  destruct (frame _ _ 3 _ _ _) as [g|] eqn:Hg; [|constructor]. constructor; [|constructor].
  exists (gap_payload 2 2), 3, (ob_digest r), (example_id "2"). split; [|split; [|done]].
  - right. by exists 2, 2.
  - split_and!; [done|done|done|apply example_gap_ok|done].
Qed.

Definition example_batch : string := build_batch "host" (example_id "a") None 0 GENESIS example_records.

Lemma captured_batch_accepted_witness :
  ob_sequence <$> example_records = [1; 3] ∧
  parse_batch checksum_hex ascii_digit example_batch =
    Ok (mkCaptureBatch "host" (example_id "a") None 0 GENESIS example_records).
Proof.
  split; [vm_compute; reflexivity|].
  apply (captured_batch_accepted checksum_hex checksum_is_hex ascii_digit example_time example_time_ok (λ _, true) 6
    ltac:(vm_compute; lia)); [reflexivity|exact I|lia|reflexivity|done|exact example_records_captured|reflexivity| |].
  - vm_compute. lia.
  - vm_compute. discriminate.
Defined.
