(* ===== verification/Ledger.v ===== *)
(** The Gateway's ledger of captured usage, [optimus_gateway/usage_store.py], over the
    tables of [migrations/optimus_usage/001_durable_capture.sql]: one batch is one
    transaction that replays, orders and stores records, projects receipts and
    certifies the coverage of epochs.

    A table is the list of its rows in the order they were inserted, or a map from its
    primary key. A statement is a function on the tables; a transaction that raises
    leaves them as they were. Transactions that touch the same rows wait for each other
    by the advisory locks they take, and are steps here. Rows selected without an order
    come in any order, the parameter [any_order]. The payloads were validated by the
    contract ([UsageContract.parse_batch]): a key its schema requires is there.

    Not modelled: migrations, the connection and its timeouts (a lost transaction is a
    step that changes nothing, or a step whose answer is lost), and the reads of
    [report_facts]. *)
From stdpp Require Import sorting pretty.
From S2P Require Import Prelude Text Json JsonLoads Settlement Outbox Capture UsageContract.

Local Open Scope string_scope.
Local Open Scope Z_scope.

(** * Tables *)

Record CaptureEvent := mkCaptureEvent {
  ce_stream_id : string;
  ce_sequence : Z;
  ce_event_id : string;
  ce_writer : string;
  ce_kind : string;
  ce_prev_digest : string;
  ce_record_digest : string;
  ce_payload : odict string json
}.

Record ReceiptRow := mkReceiptRow {
  rr_attempt_id : string;
  rr_gateway_request_id : option string;
  rr_epoch_id : string;
  rr_turn_id : string;
  rr_stage : string;
  rr_purpose : string;
  rr_outcome : string;
  rr_reported_cost_usd : option string;
  rr_facts_digest : string;
  rr_settled_digest : string;
  rr_late : bool;
  rr_stream_id : string;
  rr_sequence : Z
}.

Record AliasRow := mkAliasRow {
  al_attempt_id : string;
  al_canonical_attempt_id : string;
  al_stream_id : string;
  al_sequence : Z
}.

Record ConflictRow := mkConflictRow {
  cf_stream_id : string;
  cf_sequence : Z;
  cf_attempt_id : string;
  cf_existing_attempt_id : string;
  cf_reason : string
}.

Inductive CoverageState := CvOpen | CvComplete | CvIncomplete.
#[export] Instance CoverageState_eq_dec : EqDecision CoverageState.
Proof. solve_decision. Defined.

Record CoverageEpoch := mkCoverageEpoch {
  cv_stream_id : string;
  cv_turn_id : option string;
  cv_begin_sequence : option Z;
  cv_close_sequence : option Z;
  cv_state : CoverageState;
  cv_reasons : list string
}.

Record Cursor := mkCursor {
  cu_writer : string;
  cu_sequence : Z;
  cu_digest : string
}.

Record SnapshotRow := mkSnapshotRow {
  sn_kind : string;
  sn_body : odict string json;
  sn_captured_at : string;
  sn_stream_id : string;
  sn_sequence : Z
}.

Record Ledger := mkLedger {
  lg_events : list CaptureEvent;
  lg_receipts : list ReceiptRow;
  lg_aliases : list AliasRow;
  lg_conflicts : list ConflictRow;
  lg_epochs : gmap string CoverageEpoch;
  lg_cursors : gmap string Cursor;
  lg_snapshots : gmap string SnapshotRow
}.

Definition empty_ledger : Ledger := mkLedger [] [] [] [] ∅ ∅ ∅.

Inductive StoreError :=
| mkStoreError (code : string) (committed : option (Z * string))
(** a key a stored payload does not have *)
| StoreKeyError (key : string)
(** a primary key or a unique constraint of a table *)
| UniqueViolation (table : string).

Record IngestResult := mkIngestResult {
  ir_ack : CaptureAck;
  ir_inserted : nat;
  ir_replayed : nat
}.

Abbreviation storing A := (eff Ledger StoreError A).

Definition set_events (l : list CaptureEvent) (db : Ledger) : Ledger :=
  mkLedger l (lg_receipts db) (lg_aliases db) (lg_conflicts db) (lg_epochs db) (lg_cursors db) (lg_snapshots db).
Definition set_receipts (l : list ReceiptRow) (db : Ledger) : Ledger :=
  mkLedger (lg_events db) l (lg_aliases db) (lg_conflicts db) (lg_epochs db) (lg_cursors db) (lg_snapshots db).
Definition set_aliases (l : list AliasRow) (db : Ledger) : Ledger :=
  mkLedger (lg_events db) (lg_receipts db) l (lg_conflicts db) (lg_epochs db) (lg_cursors db) (lg_snapshots db).
Definition set_conflicts (l : list ConflictRow) (db : Ledger) : Ledger :=
  mkLedger (lg_events db) (lg_receipts db) (lg_aliases db) l (lg_epochs db) (lg_cursors db) (lg_snapshots db).
Definition set_epochs (m : gmap string CoverageEpoch) (db : Ledger) : Ledger :=
  mkLedger (lg_events db) (lg_receipts db) (lg_aliases db) (lg_conflicts db) m (lg_cursors db) (lg_snapshots db).
Definition set_cursors (m : gmap string Cursor) (db : Ledger) : Ledger :=
  mkLedger (lg_events db) (lg_receipts db) (lg_aliases db) (lg_conflicts db) (lg_epochs db) m (lg_snapshots db).
Definition set_snapshots (m : gmap string SnapshotRow) (db : Ledger) : Ledger :=
  mkLedger (lg_events db) (lg_receipts db) (lg_aliases db) (lg_conflicts db) (lg_epochs db) (lg_cursors db) m.

(** [payload->>'k'] of a text, a boolean and a whole number. *)
Definition text_of (k : string) (p : odict string json) : string := default "" (string_field k p).
Definition bool_of (k : string) (p : odict string json) : bool :=
  match od_get k p with Some (JBool b) => b | _ => false end.
Definition int_of (k : string) (p : odict string json) : Z := default 0 (int_field k p).
Definition texts_of (k : string) (p : odict string json) : list string :=
  match od_get k p with
  | Some (JArray l) => omap (λ v, match v with JString s => Some s | _ => None end) l
  | _ => []
  end.

Definition sorted_texts (l : list string) : list string := fst <$> merge_sort key_le ((λ s, (s, tt)) <$> l).

(** The orders of the sorted selects. *)
Definition newest_first (a b : CaptureEvent) : Prop := ce_sequence b ≤ ce_sequence a.
Definition part_le (a b : odict string json) : Prop := int_of "part" a ≤ int_of "part" b.
Definition number_le (a b : string * Z * Z) : Prop := a.1.2 ≤ b.1.2.
#[export] Instance newest_first_dec a b : Decision (newest_first a b).
Proof. unfold newest_first. apply _. Defined.
#[export] Instance part_le_dec a b : Decision (part_le a b).
Proof. unfold part_le. apply _. Defined.
#[export] Instance number_le_dec a b : Decision (number_le a b).
Proof. unfold number_le. apply _. Defined.

(** [if b: reasons.append(reason)]. *)
Definition when (b : bool) (reason : string) : list string := if b then [reason] else [].

Section ledger.
Variable sha256 : string → string.
Variable any_order : list CaptureEvent → list CaptureEvent.
Variable instance : string.

(** * Reading *)

Definition select (p : CaptureEvent → bool) (db : Ledger) : list CaptureEvent :=
  any_order (filter (λ e, p e = true) (lg_events db)).

Definition event_at (stream : string) (sequence : Z) (e : CaptureEvent) : bool :=
  String.eqb (ce_stream_id e) stream && (ce_sequence e =? sequence).

(** The events of an epoch of one kind, in one stream. *)
Definition of_epoch (stream kind epoch_id : string) (e : CaptureEvent) : bool :=
  String.eqb (ce_stream_id e) stream && String.eqb (ce_kind e) kind &&
  bool_decide (string_field "epoch_id" (ce_payload e) = Some epoch_id).

(** [_event]. *)
Definition event_payload (stream : string) (sequence : Z) (db : Ledger) : odict string json :=
  match select (event_at stream sequence) db with e :: _ => ce_payload e | [] => [] end.

(** [_count]. *)
Definition count_of (stream kind epoch_id : string) (db : Ledger) : nat :=
  length (select (of_epoch stream kind epoch_id) db).

(** [_values]. *)
Definition values_of (stream kind epoch_id k : string) (late : option bool) (db : Ledger) : list string :=
  (text_of k ∘ ce_payload) <$>
    select (λ e, of_epoch stream kind epoch_id e &&
                 match late with None => true | Some b => Bool.eqb (bool_of "late" (ce_payload e)) b end) db.

(** [_identities]: the last full set of parts before the close. *)
Definition identities (stream epoch_id : string) (close_seq expected : Z) (db : Ledger)
    : list string * list string * nat :=
  let rows := take (Z.to_nat expected)
    (merge_sort newest_first
       (select (λ e, of_epoch stream "epoch.identities" epoch_id e && (ce_sequence e <? close_seq)) db)) in
  let parts := merge_sort part_le (ce_payload <$> rows) in
  (concat (texts_of "settled_attempt_ids" <$> parts), concat (texts_of "unknown_attempt_ids" <$> parts), length rows).

(** [_identities_digest]. *)
Definition identities_digest (epoch_id : string) (settled unknown : list string) : string :=
  "hex:" +:+ sha256 (json_dumps "," ":"
    (JArray [JString DIGEST_VERSION; JArray [JString epoch_id; strings_json settled; strings_json unknown]])).

(** [r == h or r.startswith(h + ":")]. *)
Definition answers (h r : string) : bool := String.eqb r h || starts_with (h +:+ ":") r.

(** * Physical evidence *)

(** What a Gateway request's physical attempts lack, of the stream, number and
    sequence of each. *)
Definition physical_request (host_request_id gateway_request_id : string) (attempts : list (string * Z * Z))
    (answered : gmap string (string * string)) (db : Ledger) : list string :=
  match attempts with
  | [] => []
  | (stream, _, first_sequence) :: _ =>
      if negb (bool_decide ((λ a, a.1.2) <$> attempts = Z.of_nat <$> seq 1 (length attempts))) ||
         negb (forallb (λ a, String.eqb a.1.1 stream) attempts)
      then ["physical_attempt_missing"]
      else
        let found := (λ a, head (select (λ e, String.eqb (ce_stream_id e) stream &&
            String.eqb (ce_kind e) "gateway.attempt.outcome" &&
            bool_decide (string_field "gateway_request_id" (ce_payload e) = Some gateway_request_id) &&
            bool_decide (int_field "attempt" (ce_payload e) = Some a.1.2)) db)) <$> attempts in
        let outcomes := omap id found in
        let last_sequence := foldl Z.max (default 0 (snd <$> last attempts)) (ce_sequence <$> outcomes) in
        (concat ((λ o, match o with
            | None => ["physical_outcome_missing"]
            | Some e =>
                when (negb (bool_of "intent_confirmed" (ce_payload e))) "physical_intent_unconfirmed" ++
                when (String.eqb (text_of "outcome" (ce_payload e)) "uncertain") "physical_attempt_uncertain"
            end) <$> found) ++
         when (negb (bool_decide (select (λ e, String.eqb (ce_stream_id e) stream && String.eqb (ce_kind e) GAP_KIND &&
                 (first_sequence <? ce_sequence e) && (ce_sequence e <? last_sequence)) db = [])))
           "physical_stream_gap" ++
         if negb (Nat.eqb (length outcomes) (length attempts)) then []
         else
           let sent := filter (λ e, text_of "outcome" (ce_payload e) ≠ "not_sent") in
           match answered !! gateway_request_id with
           | Some (outcome, attempt_id) =>
               if answers host_request_id attempt_id then
                 when (String.eqb outcome "completed" &&
                       match last outcomes with
                       | Some e => bool_decide (text_of "outcome" (ce_payload e) ∈ ["failed"; "not_sent"])
                       | None => false
                       end) "physical_attempt_missing" ++
                 when (existsb (λ e, match od_get "cost_usd" (ce_payload e) with Some JNull => true | _ => false end)
                         (sent (removelast outcomes))) "physical_cost_unresolved"
               else when (negb (bool_decide (sent outcomes = []))) "physical_receipt_unmatched"
           | None => when (negb (bool_decide (sent outcomes = []))) "physical_receipt_unmatched"
           end)%list
  end.

(** The Gateway requests recorded for a host request. *)
Definition physical_intents (host_request_id : string) (db : Ledger) : list CaptureEvent :=
  select (λ e, String.eqb (ce_writer e) "gateway" && String.eqb (ce_kind e) "gateway.attempt.intent" &&
               bool_decide (string_field "host_request_id" (ce_payload e) = Some host_request_id)) db.
Definition gateway_requests (host_request_id : string) (db : Ledger) : list string :=
  remove_dups (text_of "gateway_request_id" ∘ ce_payload <$> physical_intents host_request_id db).

(** The physical attempts of a Gateway request, by their numbers. *)
Definition physical_attempts (host_request_id gateway_request_id : string) (db : Ledger) : list (string * Z * Z) :=
  merge_sort number_le
    ((λ e, (ce_stream_id e, int_of "attempt" (ce_payload e), ce_sequence e)) <$>
       filter (λ e, text_of "gateway_request_id" (ce_payload e) = gateway_request_id)
         (physical_intents host_request_id db)).

(** [_physical]. *)
Definition physical (intents : list string) (answered : gmap string (string * string)) (db : Ledger) : list string :=
  (concat ((λ h, let requests := gateway_requests h db in
       when (bool_decide (requests = [])) "physical_evidence_missing" ++
       concat ((λ g, physical_request h g (physical_attempts h g db) answered db) <$> requests)) <$> intents) ++
   let seen := concat ((λ h, gateway_requests h db) <$> intents) in
   when (negb (bool_decide (filter (λ kv : string * (string * string), kv.1 ∉ seen) (map_to_list answered) = [])))
     "receipt_without_physical")%list.

(** * Certification *)

(** The receipts that name a Gateway request: the last row of each wins. *)
Definition answered_of (stream epoch_id : string) (db : Ledger) : gmap string (string * string) :=
  foldl (λ m e, match string_field "gateway_request_id" (ce_payload e) with
                | Some (String _ _ as g) => <[g := (text_of "outcome" (ce_payload e), text_of "attempt_id" (ce_payload e))]> m
                | _ => m
                end) ∅
    (select (λ e, of_epoch stream "attempt.receipt" epoch_id e && negb (bool_of "late" (ce_payload e))) db).

Definition required (k : string) (p : odict string json) : res StoreError json :=
  match od_get k p with Some v => Ok v | None => Err (StoreKeyError k) end.

(** [_certify] up to its update: why the epoch is not covered. *)
Definition epoch_reasons (epoch_id stream : string) (begin_ : option Z) (close_seq : Z) (db : Ledger)
    : res StoreError (list string) :=
  let close := event_payload stream close_seq db in
  let* host_complete := required "host_complete" close in
  let* pending := required "pending_invocations" close in
  let* identity_parts := required "identity_parts" close in
  let* digest := required "identities_digest" close in
  let '(settled, unknown, parts) := identities stream epoch_id close_seq (default 0 (int_value identity_parts)) db in
  let receipts := values_of stream "attempt.receipt" epoch_id "attempt_id" (Some false) db in
  let late := values_of stream "attempt.receipt" epoch_id "attempt_id" (Some true) db in
  let intents := values_of stream "attempt.intent" epoch_id "host_request_id" None db in
  Ok (when (bool_decide (begin_ = None)) "begin_missing" ++
      when (match host_complete with JBool true => false | _ => true end) "host_incomplete" ++
      when (negb (default 0 (int_value pending) =? 0)) "pending_invocations" ++
      when (negb (Nat.eqb (count_of stream "invocation.open" epoch_id db) (count_of stream "invocation.end" epoch_id db)))
        "invocation_not_ended" ++
      when (negb (Nat.eqb (count_of stream "integrity.failure" epoch_id db) 0)) "integrity_failure" ++
      when (negb (Z.of_nat parts =? default 0 (int_value identity_parts)) ||
            negb (is_text (identities_digest epoch_id settled unknown) digest)) "identity_parts_incomplete" ++
      when (match begin_ with
            | Some b => negb (bool_decide (select (λ e, String.eqb (ce_stream_id e) stream &&
                          String.eqb (ce_kind e) GAP_KIND && (b <? ce_sequence e) && (ce_sequence e <? close_seq)) db = []))
            | None => false
            end) "stream_gap" ++
      when (negb (bool_decide (late = []))) "late_receipt" ++
      when (negb (bool_decide (sorted_texts receipts = sorted_texts settled))) "settled_identities_differ" ++
      when (existsb (λ r, negb (bool_decide (r ∈ rr_attempt_id <$> lg_receipts db) ||
                                bool_decide (r ∈ al_attempt_id <$> lg_aliases db))) receipts) "receipt_not_persisted" ++
      when (existsb (λ c, bool_decide (cf_attempt_id c ∈ receipts) || bool_decide (cf_existing_attempt_id c ∈ receipts))
              (lg_conflicts db)) "receipt_conflict" ++
      when (existsb (λ h, negb (existsb (answers h) receipts)) intents) "intent_without_receipt" ++
      when (existsb (λ r, negb (existsb (λ h, answers h r) intents)) receipts) "receipt_without_intent" ++
      physical intents (answered_of stream epoch_id db) db)%list.

(** The update of [_certify]. *)
Definition set_coverage (epoch_id : string) (reasons : list string) (db : Ledger) : Ledger :=
  set_epochs (alter (λ row, mkCoverageEpoch (cv_stream_id row) (cv_turn_id row) (cv_begin_sequence row)
                              (cv_close_sequence row) (if bool_decide (reasons = []) then CvComplete else CvIncomplete)
                              (sorted_texts (remove_dups reasons))) epoch_id (lg_epochs db)) db.

(** [_certify]. *)
Definition certify (epoch_id : string) : storing unit := λ db,
  match lg_epochs db !! epoch_id with
  | None => (Ok tt, db)
  | Some row =>
      match cv_close_sequence row with
      | None => (Ok tt, db)
      | Some close_seq =>
          match epoch_reasons epoch_id (cv_stream_id row) (cv_begin_sequence row) close_seq db with
          | Err e => (Err e, db)
          | Ok reasons => (Ok tt, set_coverage epoch_id reasons db)
          end
      end
  end.

Fixpoint certify_all (epoch_ids : list string) : storing unit :=
  match epoch_ids with
  | [] => eff_ret tt
  | e :: rest => certify e ;;! certify_all rest
  end.

(** [_recertify_for]. *)
Definition recertify_for (host_request_ids : list string) : storing unit := λ db,
  certify_all (remove_dups (text_of "epoch_id" ∘ ce_payload <$>
    select (λ e, String.eqb (ce_writer e) "host" && String.eqb (ce_kind e) "attempt.intent" &&
                 bool_decide (text_of "host_request_id" (ce_payload e) ∈ host_request_ids)) db)) db.

(** [_host_request_of]. *)
Definition host_request_of (outcome : odict string json) (db : Ledger) : option string :=
  match select (λ e, String.eqb (ce_writer e) "gateway" && String.eqb (ce_kind e) "gateway.attempt.intent" &&
                     bool_decide (string_field "gateway_request_id" (ce_payload e) = string_field "gateway_request_id" outcome) &&
                     bool_decide (int_field "attempt" (ce_payload e) = int_field "attempt" outcome)) db with
  | e :: _ => string_field "host_request_id" (ce_payload e)
  | [] => None
  end.

(** * Receipts *)

(** [_conflict]: evidence, never a charge. *)
Definition conflict (stream : string) (r : OutboxRecord) (existing reason : string) : storing Z :=
  let! db := (λ db, (Ok db, db)) in
  (if existsb (λ c, String.eqb (cf_stream_id c) stream && (cf_sequence c =? ob_sequence r)) (lg_conflicts db)
   then eff_raise (UniqueViolation "receipt_conflict")
   else λ db, (Ok tt, set_conflicts (lg_conflicts db ++
     [mkConflictRow stream (ob_sequence r) (text_of "attempt_id" (ob_payload r)) existing reason])%list db)) ;;!
  (match head (filter (λ row, rr_attempt_id row = existing) (lg_receipts db)) with
   | Some owner => if String.eqb (rr_epoch_id owner) "" then eff_ret tt else certify (rr_epoch_id owner)
   | None => eff_ret tt
   end) ;;!
  eff_ret 1.

Definition receipt_row (stream : string) (r : OutboxRecord) : ReceiptRow :=
  let p := ob_payload r in
  mkReceiptRow (text_of "attempt_id" p) (string_field "gateway_request_id" p) (text_of "epoch_id" p) (text_of "turn_id" p)
    (text_of "stage" p) (text_of "purpose" p) (text_of "outcome" p) (string_field "reported_cost_usd" p)
    (text_of "facts_digest" p) (text_of "settled_digest" p) (bool_of "late" p) stream (ob_sequence r).

(** Whether the unique constraints of the receipts leave room for a row. *)
Definition receipt_free (row : ReceiptRow) (db : Ledger) : bool :=
  bool_decide (rr_attempt_id row ∉ rr_attempt_id <$> lg_receipts db) &&
  match rr_gateway_request_id row with
  | None => true
  | Some g => bool_decide (Some g ∉ rr_gateway_request_id <$> lg_receipts db)
  end.

(** The alias of an attempt with the receipt it stands for. *)
Definition aliased (attempt_id : string) (db : Ledger) : option (AliasRow * ReceiptRow) :=
  match filter (λ a, al_attempt_id a = attempt_id) (lg_aliases db) with
  | a :: _ => (λ row, (a, row)) <$> head (filter (λ row, rr_attempt_id row = al_canonical_attempt_id a) (lg_receipts db))
  | [] => None
  end.

(** [_project_receipt]. *)
Definition project_receipt (stream : string) (r : OutboxRecord) : storing Z := λ db,
  let row := receipt_row stream r in
  match aliased (rr_attempt_id row) db with
  | Some (a, canonical) =>
      if bool_decide (rr_gateway_request_id canonical = rr_gateway_request_id row) &&
         String.eqb (rr_settled_digest canonical) (rr_settled_digest row)
      then (Ok 0, db)
      else conflict stream r (al_canonical_attempt_id a) "attempt_facts_differ" db
  | None =>
      if receipt_free row db then (Ok 0, set_receipts (lg_receipts db ++ [row])%list db)
      else match head (filter (λ x, rr_attempt_id x = rr_attempt_id row) (lg_receipts db)) with
      | Some same => if String.eqb (rr_facts_digest same) (rr_facts_digest row) then (Ok 0, db)
                     else conflict stream r (rr_attempt_id row) "attempt_facts_differ" db
      | None =>
          match head (filter (λ x, is_Some (rr_gateway_request_id row) ∧
                                   rr_gateway_request_id x = rr_gateway_request_id row) (lg_receipts db)) with
          | None => (Err (mkStoreError "order" None), db)
          | Some owner =>
              if String.eqb (rr_settled_digest owner) (rr_settled_digest row) then
                if bool_decide (rr_attempt_id row ∈ al_attempt_id <$> lg_aliases db)
                then (Err (UniqueViolation "receipt_alias"), db)
                else (Ok 0, set_aliases (lg_aliases db ++
                        [mkAliasRow (rr_attempt_id row) (rr_attempt_id owner) stream (ob_sequence r)])%list db)
              else conflict stream r (rr_attempt_id owner) "gateway_request_settled_differently" db
          end
      end
  end.

(** * Projection of an event *)

(** The upserts of [coverage_epoch] at a begin and at a close. *)
Definition upsert_begin (epoch_id stream turn_id : string) (sequence : Z) (db : Ledger) : Ledger :=
  set_epochs (<[epoch_id := match lg_epochs db !! epoch_id with
    | None => mkCoverageEpoch stream (Some turn_id) (Some sequence) None CvOpen []
    | Some row => mkCoverageEpoch (cv_stream_id row) (cv_turn_id row) (Some sequence) (cv_close_sequence row)
                    (cv_state row) (cv_reasons row)
    end]> (lg_epochs db)) db.
Definition upsert_close (epoch_id stream turn_id : string) (sequence : Z) (db : Ledger) : Ledger :=
  set_epochs (<[epoch_id := match lg_epochs db !! epoch_id with
    | None => mkCoverageEpoch stream (Some turn_id) None (Some sequence) CvOpen []
    | Some row => mkCoverageEpoch (cv_stream_id row) (cv_turn_id row) (cv_begin_sequence row) (Some sequence)
                    (cv_state row) (cv_reasons row)
    end]> (lg_epochs db)) db.

(** A gap ends what is open in its stream. *)
Definition gap_reason (p : odict string json) : string :=
  "stream_gap:" +:+ json_int (int_of "unconfirmed_from" p) +:+ "-" +:+ json_int (int_of "unconfirmed_to" p).
Definition close_open (stream reason : string) (db : Ledger) : Ledger :=
  set_epochs ((λ row, if String.eqb (cv_stream_id row) stream && bool_decide (cv_state row = CvOpen)
                      then mkCoverageEpoch (cv_stream_id row) (cv_turn_id row) (cv_begin_sequence row)
                             (cv_close_sequence row) CvIncomplete (cv_reasons row ++ [reason])%list
                      else row) <$> lg_epochs db) db.

(** [_project_gap]. *)
Definition span_text (first last : Z) : string := json_int first +:+ "-" +:+ json_int last.
Definition project_gap (stream : string) (first last : Z) (prior_ledger : option string) (db : Ledger) : Ledger :=
  let key := "unavailable:" +:+ stream +:+ ":" +:+ span_text first last in
  match lg_epochs db !! key with
  | Some _ => db
  | None => set_epochs (<[key := mkCoverageEpoch stream None None None CvIncomplete
      ["stream_span_unavailable:" +:+ span_text first last; "prior_ledger:" +:+ default "unknown" prior_ledger]]>
      (lg_epochs db)) db
  end.

Definition add_snapshot (kind stream : string) (r : OutboxRecord) (db : Ledger) : Ledger :=
  let p := ob_payload r in
  match lg_snapshots db !! text_of "snapshot_id" p with
  | Some _ => db
  | None => set_snapshots (<[text_of "snapshot_id" p :=
      mkSnapshotRow kind (filter (λ kv, kv.1 ∉ ["kind"; "at"; "snapshot_id"]) p) (text_of "at" p) stream (ob_sequence r)]>
      (lg_snapshots db)) db
  end.

(** [_project]: 1 for a receipt in conflict. *)
Definition project (stream : string) (r : OutboxRecord) : storing Z :=
  let p := ob_payload r in
  let kind := text_of "kind" p in
  if String.eqb kind "attempt.receipt" then
    let! conflicts := project_receipt stream r in
    certify (text_of "epoch_id" p) ;;!
    eff_ret conflicts
  else if String.eqb kind "integrity.failure" then
    (match string_field "epoch_id" p with
     | Some (String _ _ as e) => certify e
     | _ => eff_ret tt
     end) ;;!
    eff_ret 0
  else if bool_decide (is_Some (od_get kind SNAPSHOT_VERSIONS)) then λ db, (Ok 0, add_snapshot kind stream r db)
  else if String.eqb kind "gateway.attempt.intent" || String.eqb kind "gateway.attempt.outcome" then λ db,
    let host_request_id := if String.eqb kind "gateway.attempt.intent" then string_field "host_request_id" p
                           else host_request_of p db in
    (recertify_for (match host_request_id with Some (String _ _ as h) => [h] | _ => [] end) ;;! eff_ret 0) db
  else if String.eqb kind "epoch.begin" then λ db,
    (Ok 0, upsert_begin (text_of "epoch_id" p) stream (text_of "turn_id" p) (ob_sequence r) db)
  else if String.eqb kind "epoch.close" then λ db,
    (certify (text_of "epoch_id" p) ;;! eff_ret 0)
      (upsert_close (text_of "epoch_id" p) stream (text_of "turn_id" p) (ob_sequence r) db)
  else if String.eqb kind GAP_KIND then λ db, (Ok 0, close_open stream (gap_reason p) db)
  else eff_ret 0.

(** * Ingestion *)

Definition event_of (stream writer : string) (r : OutboxRecord) : CaptureEvent :=
  mkCaptureEvent stream (ob_sequence r) (ob_event_id r) writer (text_of "kind" (ob_payload r)) (ob_prev r) (ob_digest r)
    (ob_payload r).

(** The insert of an event: [false] when its event id is known. *)
Definition insert_event (e : CaptureEvent) : storing bool := λ db,
  if bool_decide (ce_event_id e ∈ ce_event_id <$> lg_events db) then (Ok false, db)
  else if existsb (event_at (ce_stream_id e) (ce_sequence e)) (lg_events db)
  then (Err (UniqueViolation "capture_event"), db)
  else (Ok true, set_events (lg_events db ++ [e])%list db).

(** The replay of records already committed: those left, and how many there were. *)
Fixpoint replay (stream : string) (base : Z * string) (records : list OutboxRecord) (db : Ledger)
    : res StoreError (list OutboxRecord * nat) :=
  match records with
  | r :: rest =>
      if ob_sequence r <=? base.1 then
        match head (filter (λ e, event_at stream (ob_sequence r) e = true) (lg_events db)) with
        | Some e => if String.eqb (ce_record_digest e) (ob_digest r)
                    then let* left := replay stream base rest db in Ok (left.1, S left.2)
                    else Err (mkStoreError "cursor_mismatch" (Some base))
        | None => Err (mkStoreError "cursor_mismatch" (Some base))
        end
      else Ok (records, 0%nat)
  | [] => Ok ([], 0%nat)
  end.

(** The loop over the new records: the prefix committed so far and the conflicts. *)
Fixpoint insert_records (stream writer : string) (base : Z * string) (conflicts : Z) (records : list OutboxRecord)
    : storing (Z * string * Z) :=
  match records with
  | [] => eff_ret (base, conflicts)
  | r :: rest =>
      match follows r base.1 base.2 with
      | Err _ => eff_raise (mkStoreError (if (base.1 + 1 <? ob_sequence r) && negb (has_kind GAP_KIND (ob_payload r))
                                          then "cursor_mismatch" else "order") (Some base))
      | Ok _ =>
          let! inserted := insert_event (event_of stream writer r) in
          if inserted : bool then
            let! c := project stream r in
            insert_records stream writer (ob_sequence r, ob_digest r) (conflicts + c) rest
          else eff_raise (mkStoreError "duplicate_event" (Some base))
      end
  end.

(** Where a batch starts: the base its new records follow, the records and how many were
    replayed. *)
Definition ingest_base (batch : CaptureBatch) : storing (Z * string * list OutboxRecord * nat) := λ db,
  let stream := cb_stream_id batch in
  let base := (λ c, (cu_sequence c, cu_digest c)) <$> lg_cursors db !! stream in
  let reached := default 0 (fst <$> base) in
  if bool_decide (base = None) || (reached <? cb_after_sequence batch) then
    (Ok (cb_after_sequence batch, cb_after_digest batch, cb_records batch, 0%nat),
     if reached <? cb_after_sequence batch
     then project_gap stream (reached + 1) (cb_after_sequence batch) (cb_ledger_instance batch) db
     else db)
  else
    let base := default (0, "") base in
    match replay stream base (cb_records batch) db with
    | Err e => (Err e, db)
    | Ok (records, replayed) =>
        match records with
        | r :: _ =>
            if negb ((cb_after_sequence batch =? base.1) && String.eqb (cb_after_digest batch) base.2) &&
               negb (ob_sequence r =? base.1 + 1)
            then (Err (mkStoreError "cursor_mismatch" (Some base)), db)
            else (Ok (base, records, replayed), db)
        | [] => (Ok (base, records, replayed), db)
        end
    end.

Definition set_cursor (stream writer : string) (base : Z * string) (db : Ledger) : Ledger :=
  set_cursors (<[stream := match lg_cursors db !! stream with
    | Some c => mkCursor (cu_writer c) base.1 base.2
    | None => mkCursor writer base.1 base.2
    end]> (lg_cursors db)) db.

(** [_ingest]. *)
Definition ingest_batch (batch : CaptureBatch) : storing IngestResult := λ db,
  let stream := cb_stream_id batch in
  let row := lg_cursors db !! stream in
  if match row with Some c => negb (String.eqb (cu_writer c) (cb_writer batch)) | None => false end
  then (Err (mkStoreError "order" None), db)
  else
    (let! start := ingest_base batch in
     let '(base, records, replayed) := start in
     let! done := insert_records stream (cb_writer batch) base 0 records in
     let '(base, conflicts) := done in
     if base.1 =? 0 then eff_raise (mkStoreError "order" None)
     else
       (λ db, (Ok tt, if negb (bool_decide (records = [])) || bool_decide (row = None)
                      then set_cursor stream (cb_writer batch) base db else db)) ;;!
       eff_ret (mkIngestResult (mkCaptureAck instance stream base.1 base.2 conflicts) (length records) replayed)) db.

(** What becomes of a transaction: it runs; it is lost before it commits; it commits and
    its answer is lost. *)
Inductive TransactionFate := Runs | LostBefore | LostAfter.

(** [ingest]. *)
Definition ingest (batch : CaptureBatch) (fate : TransactionFate) (db : Ledger) : res StoreError IngestResult * Ledger :=
  match ingest_batch batch db with
  | (Ok result, db') =>
      match fate with
      | Runs => (Ok result, db')
      | LostBefore => (Err (mkStoreError "unavailable" None), db)
      | LostAfter => (Err (mkStoreError "unavailable" None), db')
      end
  | (Err e, _) =>
      match fate with
      | Runs => (Err e, db)
      | _ => (Err (mkStoreError "unavailable" None), db)
      end
  end.

Definition ledger_run (batches : list (CaptureBatch * TransactionFate)) (db : Ledger) : Ledger :=
  foldl (λ db b, (ingest b.1 b.2 db).2) db batches.
End ledger.

(** * Batches the contract lets through *)

Record batch_ok (b : CaptureBatch) : Prop := {
  bo_after : 0 ≤ cb_after_sequence b;
  bo_genesis : cb_after_sequence b = 0 → cb_after_digest b = GENESIS;
  bo_records : cb_records b ≠ [];
  bo_each : Forall (λ r, ob_stream_id r = cb_stream_id b ∧ 1 ≤ ob_sequence r) (cb_records b)
}.

Lemma parse_line_sequence sha256 line r : parse_line sha256 line = Ok r → 1 ≤ ob_sequence r.
Proof.
  unfold parse_line. intros H. repeat (case_match; simplify_eq/=; inv_res); try done. bool_to_prop. simpl. lia.
Qed.

Lemma parse_records_each sha256 unicode_digit writer stream lines records :
  parse_records sha256 unicode_digit writer stream lines = Ok records →
  length records = length lines ∧ Forall (λ r, ob_stream_id r = stream ∧ 1 ≤ ob_sequence r) records.
Proof.
  revert records. induction lines as [|line lines IH]; intros records H; simpl in H; inv_res; [by split; [|constructor]|].
  destruct line as [| | |line| |]; try done. destruct (ascii_text line); [|done].
  destruct (parse_line sha256 line) as [r|] eqn:Hr; [|done]. inv_res. bool_to_prop.
  match goal with H : parse_records _ _ _ _ _ = Ok _ |- _ => apply IH in H as [Hl Hf] end.
  split; [simpl; lia|]. constructor; [|done]. split; [by apply String.eqb_eq|by eapply parse_line_sequence].
Qed.

Lemma parse_batch_ok sha256 unicode_digit body b : parse_batch sha256 unicode_digit body = Ok b → batch_ok b.
Proof.
  unfold parse_batch. intros H. inv_res. destruct (json_loads body) as [[]|]; try done.
  unfold parse_document in H. inv_res.
  destruct (field "writer" _) as [| | |w| |]; try done. inv_res.
  destruct (field "after" _) as [| | | | |a]; try done. inv_res.
  destruct (field "records" _) as [| | | |lines|]; try done. inv_res. bool_to_prop.
  match goal with H : parse_records _ _ _ _ _ = Ok _ |- _ => apply parse_records_each in H as [Hlen Hf] end.
  match goal with H : Bool.eqb _ _ = true |- _ => apply Bool.eqb_prop in H as Hgen end.
  match goal with H : (1 <=? length lines)%nat = true |- _ => apply Nat.leb_le in H as Hone end.
  constructor; simpl.
  - match goal with H : count_check _ = true |- _ => revert H end. unfold count_check.
    destruct (int_value _); [|done]. simpl. by intros ?%Z.leb_le.
  - intros Hz. apply String.eqb_eq. rewrite <- Hgen. by apply Z.eqb_eq.
  - intros ->. simpl in Hlen. lia.
  - done.
Qed.

(** * What the tables keep *)

Definition of_stream (s : string) (db : Ledger) : list CaptureEvent :=
  filter (λ e, ce_stream_id e = s) (lg_events db).

(** An event as the record it was. *)
Definition record_of (e : CaptureEvent) : OutboxRecord :=
  mkOutboxRecord (ce_stream_id e) (ce_sequence e) (ce_event_id e) (ce_prev_digest e) (ce_record_digest e) (ce_payload e) "".

Definition span_key (s : string) (first last : Z) : string := "unavailable:" +:+ s +:+ ":" +:+ span_text first last.

(** Each event follows the one before it, or a prefix its sender believed committed: then
    the span between is on record as unavailable. *)
Fixpoint chained (epochs : gmap string CoverageEpoch) (s : string) (base : Z * string) (events : list CaptureEvent) : Prop :=
  match events with
  | [] => True
  | e :: rest =>
      (follows (record_of e) base.1 base.2 = Ok tt ∨
       ∃ n d, base.1 < n ∧ is_Some (epochs !! span_key s (base.1 + 1) n) ∧ follows (record_of e) n d = Ok tt) ∧
      chained epochs s (ce_sequence e, ce_record_digest e) rest
  end.

Definition reached (events : list CaptureEvent) : Z * string :=
  match last events with Some e => (ce_sequence e, ce_record_digest e) | None => (0, GENESIS) end.

(** Every stored receipt is a charge, an identical replay of one, an alias of one, or
    evidence of a conflict. *)
Definition settled_by (db : Ledger) (row : ReceiptRow) : Prop :=
  (∃ r, r ∈ lg_receipts db ∧ rr_attempt_id r = rr_attempt_id row ∧ rr_facts_digest r = rr_facts_digest row) ∨
  (∃ a r, a ∈ lg_aliases db ∧ al_attempt_id a = rr_attempt_id row ∧ r ∈ lg_receipts db ∧
          rr_attempt_id r = al_canonical_attempt_id a ∧ rr_gateway_request_id r = rr_gateway_request_id row ∧
          rr_settled_digest r = rr_settled_digest row).
Definition in_conflict (db : Ledger) (s : string) (n : Z) : Prop :=
  ∃ c, c ∈ lg_conflicts db ∧ cf_stream_id c = s ∧ cf_sequence c = n.

Definition event_row (e : CaptureEvent) : ReceiptRow := receipt_row (ce_stream_id e) (record_of e).
Definition accounted (db : Ledger) (e : CaptureEvent) : Prop :=
  settled_by db (event_row e) ∨ in_conflict db (ce_stream_id e) (ce_sequence e).

Record receipts_inv (db : Ledger) (events : list CaptureEvent) : Prop := {
  ri_attempts : NoDup ((rr_attempt_id <$> lg_receipts db) ++ (al_attempt_id <$> lg_aliases db))%list;
  ri_gateway : NoDup (omap rr_gateway_request_id (lg_receipts db));
  ri_alias a : a ∈ lg_aliases db → al_canonical_attempt_id a ∈ rr_attempt_id <$> lg_receipts db;
  ri_rows r : r ∈ lg_receipts db → ∃ e, e ∈ events ∧ ce_kind e = "attempt.receipt" ∧ r = event_row e;
  ri_accounted e : e ∈ events → ce_kind e = "attempt.receipt" → accounted db e;
  ri_conflicts c : c ∈ lg_conflicts db → ∃ e, e ∈ events ∧ cf_stream_id c = ce_stream_id e ∧ cf_sequence c = ce_sequence e
}.

(** A stream's cursor is its last event. *)
Definition cursor_ok (db : Ledger) (s : string) : Prop :=
  match lg_cursors db !! s with
  | None => of_stream s db = []
  | Some c => of_stream s db ≠ [] ∧ (cu_sequence c, cu_digest c) = reached (of_stream s db) ∧
              Forall (λ e, ce_writer e = cu_writer c) (of_stream s db)
  end.

Record events_inv (db : Ledger) : Prop := {
  ei_ids : NoDup (ce_event_id <$> lg_events db);
  ei_kinds : Forall (λ e, ce_kind e = text_of "kind" (ce_payload e) ∧ 1 ≤ ce_sequence e) (lg_events db);
  ei_sorted s : StronglySorted Z.lt (ce_sequence <$> of_stream s db);
  ei_chained s : chained (lg_epochs db) s (0, GENESIS) (of_stream s db);
  ei_cursor s : cursor_ok db s
}.

(** What leaves the facts alone: it may only add to the coverage. *)
Record facts_kept (db db' : Ledger) : Prop := {
  fk_events : lg_events db' = lg_events db;
  fk_receipts : lg_receipts db' = lg_receipts db;
  fk_aliases : lg_aliases db' = lg_aliases db;
  fk_conflicts : lg_conflicts db' = lg_conflicts db;
  fk_cursors : lg_cursors db' = lg_cursors db;
  fk_epochs k : is_Some (lg_epochs db !! k) → is_Some (lg_epochs db' !! k)
}.

#[export] Instance facts_kept_refl : Reflexive facts_kept.
Proof. by constructor. Qed.
#[export] Instance facts_kept_trans : Transitive facts_kept.
Proof. intros a b c [] []. constructor; try congruence. auto. Qed.

(** Adding to the coverage keeps the facts. *)
Lemma set_epochs_kept m db : (∀ k, is_Some (lg_epochs db !! k) → is_Some (m !! k)) → facts_kept db (set_epochs m db).
Proof. intros H. by constructor. Qed.

Lemma insert_epoch_kept k row db : facts_kept db (set_epochs (<[k := row]> (lg_epochs db)) db).
Proof.
  apply set_epochs_kept. intros k' Hk. destruct (decide (k' = k)) as [->|]; [by rewrite lookup_insert_eq|].
  by rewrite lookup_insert_ne.
Qed.

Section facts.
Variable sha256 : string → string.
Variable any_order : list CaptureEvent → list CaptureEvent.

Lemma certify_kept epoch_id db r db' : certify sha256 any_order epoch_id db = (r, db') → facts_kept db db'.
Proof.
  unfold certify. intros H. repeat (case_match; simplify_eq/=); try done.
  apply set_epochs_kept. intros k Hk. destruct (decide (k = epoch_id)) as [->|Hne].
  - rewrite lookup_alter_eq. destruct Hk as [row ->]. done.
  - by rewrite lookup_alter_ne.
Qed.

Lemma certify_all_kept ids db r db' : certify_all sha256 any_order ids db = (r, db') → facts_kept db db'.
Proof.
  revert db. induction ids as [|e ids IH]; intros db H; simpl in H; run_eff; [done| |by eapply certify_kept].
  etransitivity; [by eapply certify_kept|by eapply IH].
Qed.

Lemma close_open_kept s reason db : facts_kept db (close_open s reason db).
Proof. apply set_epochs_kept. intros k [row Hk]. rewrite lookup_fmap, Hk. done. Qed.

Lemma project_gap_kept s first last prior db : facts_kept db (project_gap s first last prior db).
Proof. unfold project_gap. case_match; [done|]. apply insert_epoch_kept. Qed.
Lemma project_gap_span s first last prior db : is_Some (lg_epochs (project_gap s first last prior db) !! span_key s first last).
Proof.
  unfold project_gap, span_key. destruct (lg_epochs db !! _) eqn:E; [by rewrite E|]. simpl. by rewrite lookup_insert_eq.
Qed.

(** What the coverage's keys are does not matter to the receipts. *)
Lemma receipts_inv_kept db db' events : facts_kept db db' → receipts_inv db events → receipts_inv db' events.
Proof.
  intros [E1 E2 E3 E4 E5 _] [H1 H2 H3 H4 H5 H6]. constructor; rewrite ?E2, ?E3, ?E4; auto.
  intros e He Hk. unfold accounted, settled_by, in_conflict. rewrite E2, E3, E4. by apply H5.
Qed.

Lemma settled_by_app db receipts aliases conflicts row :
  settled_by db row →
  settled_by (mkLedger (lg_events db) (lg_receipts db ++ receipts) (lg_aliases db ++ aliases)
                (lg_conflicts db ++ conflicts) (lg_epochs db) (lg_cursors db) (lg_snapshots db))%list row.
Proof.
  intros [(r & Hr & H)|(a & r & Ha & H1 & Hr & H)]; [left; exists r|right; exists a, r]; simpl; rewrite ?elem_of_app; naive_solver.
Qed.

Lemma head_filter {A} (P : A → Prop) `{∀ x, Decision (P x)} l x : head (filter P l) = Some x → x ∈ l ∧ P x.
Proof.
  intros Hh. assert (x ∈ filter P l) as Hin by (destruct (filter P l); simplify_eq/=; left).
  apply list_elem_of_filter in Hin. tauto.
Qed.
Lemma head_filter_None {A} (P : A → Prop) `{∀ x, Decision (P x)} l x : head (filter P l) = None → x ∈ l → ¬ P x.
Proof.
  intros Hh Hx HP. assert (x ∈ filter P l) as Hin by (by apply list_elem_of_filter).
  destruct (filter P l); [by apply not_elem_of_nil in Hin|done].
Qed.

(** An alias stands for the one receipt of its canonical attempt. *)
Lemma aliased_None attempt db : aliased attempt db = None →
  (∀ a, a ∈ lg_aliases db → al_canonical_attempt_id a ∈ rr_attempt_id <$> lg_receipts db) →
  attempt ∉ al_attempt_id <$> lg_aliases db.
Proof.
  unfold aliased. intros H HFK (a & -> & Ha)%list_elem_of_fmap.
  destruct (filter _ (lg_aliases db)) as [|a' rest] eqn:E.
  - assert (a ∈ filter (λ x, al_attempt_id x = al_attempt_id a) (lg_aliases db)) as Hin by (by apply list_elem_of_filter).
    rewrite E in Hin. by apply not_elem_of_nil in Hin.
  - assert (a' ∈ lg_aliases db) as Ha'.
    { assert (a' ∈ filter (λ x, al_attempt_id x = al_attempt_id a) (lg_aliases db)) as Hin by (rewrite E; left).
      apply list_elem_of_filter in Hin. tauto. }
    apply HFK, list_elem_of_fmap in Ha' as (r & Hr & Hin).
    destruct (head (filter (λ row, rr_attempt_id row = al_canonical_attempt_id a') (lg_receipts db))) eqn:Eh; [done|].
    by apply (head_filter_None _ _ r) in Eh.
Qed.
Definition is_unique_violation (e : StoreError) : bool := match e with UniqueViolation _ => true | _ => false end.

Lemma certify_errors epoch_id db e db' :
  certify sha256 any_order epoch_id db = (Err e, db') → is_unique_violation e = false.
Proof.
  unfold certify. intros H. repeat (case_match; simplify_eq/=); try done.
  match goal with H : epoch_reasons _ _ _ _ _ _ _ = Err _ |- _ => revert H end. unfold epoch_reasons.
  intros H. repeat (apply res_bind_err in H as [H|(? & _ & H)]; [unfold required in H; by case_match; simplify_eq|]).
  by destruct (identities _ _ _ _ _ _) as [[? ?] ?].
Qed.

(** Rows that are added to the receipts, their aliases and their conflicts. *)
Definition add_rows (receipts : list ReceiptRow) (aliases : list AliasRow) (conflicts : list ConflictRow) (db : Ledger) : Ledger :=
  set_conflicts (lg_conflicts db ++ conflicts)%list
    (set_aliases (lg_aliases db ++ aliases)%list (set_receipts (lg_receipts db ++ receipts)%list db)).

(** A stored receipt and the rows its projection added. *)
Lemma receipts_inv_add db old e receipts aliases conflicts :
  receipts_inv db old → ce_kind e = "attempt.receipt" →
  let db' := add_rows receipts aliases conflicts db in
  NoDup ((rr_attempt_id <$> lg_receipts db') ++ (al_attempt_id <$> lg_aliases db'))%list →
  NoDup (omap rr_gateway_request_id (lg_receipts db')) →
  Forall (λ a, al_canonical_attempt_id a ∈ rr_attempt_id <$> lg_receipts db) aliases →
  Forall (λ r, r = event_row e) receipts →
  Forall (λ c, cf_stream_id c = ce_stream_id e ∧ cf_sequence c = ce_sequence e) conflicts →
  accounted db' e → receipts_inv db' (old ++ [e])%list.
Proof.
  intros [H1 H2 H3 H4 H5 H6] Hk db' Hn Hg Ha Hr Hc Hacc. constructor; [done|done|..].
  - simpl. intros a [Hin|Hin]%elem_of_app; rewrite fmap_app, elem_of_app; left; [by apply H3|].
    by eapply (Forall_forall (λ a, al_canonical_attempt_id a ∈ _)) in Ha.
  - simpl. intros r [Hin|Hin]%elem_of_app.
    + destruct (H4 r Hin) as (e' & ? & ? & ?). exists e'. rewrite elem_of_app. auto.
    + exists e. rewrite elem_of_app, list_elem_of_singleton. split_and!; [by right|done|].
      by eapply (Forall_forall (λ r, r = event_row e)) in Hr.
  - intros e' [Hin|Heq%list_elem_of_singleton]%elem_of_app Hk'; [|by subst].
    destruct (H5 e' Hin Hk') as [Hs|(c & Hcin & Hc')].
    + left. by apply (settled_by_app db receipts aliases conflicts) in Hs.
    + right. exists c. split; [|done]. simpl. rewrite elem_of_app. by left.
  - simpl. intros c [Hin|Hin]%elem_of_app.
    + destruct (H6 c Hin) as (e' & ? & ?). exists e'. rewrite elem_of_app. auto.
    + exists e. rewrite elem_of_app, list_elem_of_singleton. split; [by right|].
      by eapply (Forall_forall (λ c, cf_stream_id c = _ ∧ _)) in Hc.
Qed.

(** A receipt that adds no row. *)
Lemma receipts_inv_same db old e : receipts_inv db old → ce_kind e = "attempt.receipt" → settled_by db (event_row e) →
  receipts_inv db (old ++ [e])%list.
Proof.
  intros Hinv Hk Hs. replace db with (add_rows [] [] [] db) by (destruct db; unfold add_rows; simpl; by rewrite !app_nil_r).
  apply receipts_inv_add; [done|done|unfold add_rows; simpl; rewrite ?app_nil_r; apply Hinv..|constructor|constructor|constructor|].
  left. by apply (settled_by_app db [] [] []) in Hs.
Qed.

Lemma add_conflict_inv db old e c : receipts_inv db old → ce_kind e = "attempt.receipt" →
  cf_stream_id c = ce_stream_id e → cf_sequence c = ce_sequence e → receipts_inv (add_rows [] [] [c] db) (old ++ [e])%list.
Proof.
  intros Hinv Hk Hs Hn. apply receipts_inv_add; [done|done|unfold add_rows; simpl; rewrite ?app_nil_r; apply Hinv..|
    constructor|constructor|by apply Forall_singleton|].
  right. exists c. split; [|done]. simpl. rewrite elem_of_app, list_elem_of_singleton. by right.
Qed.

Lemma conflict_inv stream writer r existing reason db old res db' :
  receipts_inv db old → (∀ e, e ∈ old → event_at stream (ob_sequence r) e = false) →
  text_of "kind" (ob_payload r) = "attempt.receipt" →
  conflict sha256 any_order stream r existing reason db = (res, db') →
  match res with
  | Ok _ => facts_kept (add_rows [] [] [mkConflictRow stream (ob_sequence r) (text_of "attempt_id" (ob_payload r)) existing reason] db) db' ∧
            receipts_inv db' (old ++ [event_of stream writer r])%list
  | Err e => is_unique_violation e = false
  end.
Proof.
  intros Hinv Hnew Hk H. unfold conflict, eff_bind in H. simpl in H.
  assert (existsb (λ c, String.eqb (cf_stream_id c) stream && (cf_sequence c =? ob_sequence r)) (lg_conflicts db) = false) as Hno.
  { apply not_true_iff_false. intros (c & Hc%list_elem_of_In & Heq)%existsb_exists.
    apply (ri_conflicts _ _ Hinv) in Hc as (e & He & Hs & Hn). apply Hnew in He. unfold event_at in He. congruence. }
  rewrite Hno in H. set (db1 := set_conflicts _ db) in H.
  set (c := mkConflictRow stream (ob_sequence r) (text_of "attempt_id" (ob_payload r)) existing reason) in *.
  assert (add_rows [] [] [c] db = db1) as Hdb1 by (destruct db; unfold add_rows, db1; simpl; by rewrite !app_nil_r).
  assert (receipts_inv db1 (old ++ [event_of stream writer r])%list) as Hinv1
    by (rewrite <- Hdb1; by apply add_conflict_inv).
  rewrite Hdb1. clearbody db1. clear Hdb1.
  assert (∀ (x : eff Ledger StoreError unit) out, (∀ r' d, x db1 = (r', d) → facts_kept db1 d ∧
            match r' with Err e => is_unique_violation e = false | _ => True end) →
          match x db1 with (Ok _, s') => eff_ret 1 s' | (Err e, s') => (Err e, s') end = (res, out) →
          match res with Ok _ => facts_kept db1 out ∧ receipts_inv out (old ++ [event_of stream writer r])%list
                       | Err e => is_unique_violation e = false end) as Hgen.
  { intros x out Hx Hrun. destruct (x db1) as [[]] eqn:Ex; destruct (Hx _ _ eq_refl) as [Hkept He];
      unfold eff_ret in Hrun; simplify_eq; [|done]. split; [done|by eapply receipts_inv_kept]. }
  assert (∀ r' d, @eff_ret Ledger StoreError unit tt db1 = (r', d) → facts_kept db1 d ∧
            match r' with Err e => is_unique_violation e = false | _ => True end) as Hret
    by (unfold eff_ret; intros; by simplify_eq).
  destruct (head _) as [owner|]; [destruct (String.eqb (rr_epoch_id owner) "")|];
    [by apply (Hgen (eff_ret tt))| |by apply (Hgen (eff_ret tt))].
  apply (Hgen (certify sha256 any_order (rr_epoch_id owner))); [|done]. intros r' d Hc. split; [by eapply certify_kept|]. destruct r'; [done|by eapply certify_errors].
Qed.

Lemma add_receipt_inv db old e : receipts_inv db old → ce_kind e = "attempt.receipt" →
  rr_attempt_id (event_row e) ∉ al_attempt_id <$> lg_aliases db → receipt_free (event_row e) db = true →
  receipts_inv (add_rows [event_row e] [] [] db) (old ++ [e])%list.
Proof.
  intros Hinv Hk Hnot [Hf%bool_decide_eq_true Hg]%andb_true_iff.
  apply receipts_inv_add; try done; unfold add_rows; simpl; rewrite ?app_nil_r.
  - rewrite fmap_app. simpl. rewrite <- (assoc_L (++)).
    eapply (NoDup_Permutation_proper _ (rr_attempt_id (event_row e) :: _)); [apply Permutation_sym, Permutation_middle|].
    apply NoDup_cons. split; [|apply Hinv]. rewrite elem_of_app. tauto.
  - rewrite omap_app. change (omap rr_gateway_request_id [event_row e])
      with (match rr_gateway_request_id (event_row e) with Some y => [y] | None => [] end).
    destruct (rr_gateway_request_id (event_row e)) as [g|] eqn:Eg; [|rewrite app_nil_r; apply Hinv].
    apply NoDup_app. split_and!; [apply Hinv| |apply NoDup_singleton].
    intros g' (x & Hx & Hgx)%list_elem_of_omap Hl%list_elem_of_singleton. subst g'.
    apply bool_decide_eq_true in Hg. apply Hg, list_elem_of_fmap. eauto.
  - by apply Forall_singleton.
  - left. left. exists (event_row e). simpl. rewrite elem_of_app, list_elem_of_singleton. split_and!; [by right|done..].
Qed.

Lemma add_alias_inv db old e owner : receipts_inv db old → ce_kind e = "attempt.receipt" → owner ∈ lg_receipts db →
  rr_attempt_id (event_row e) ∉ al_attempt_id <$> lg_aliases db →
  rr_attempt_id (event_row e) ∉ rr_attempt_id <$> lg_receipts db →
  rr_gateway_request_id owner = rr_gateway_request_id (event_row e) →
  rr_settled_digest owner = rr_settled_digest (event_row e) →
  let a := mkAliasRow (rr_attempt_id (event_row e)) (rr_attempt_id owner) (ce_stream_id e) (ce_sequence e) in
  receipts_inv (add_rows [] [a] [] db) (old ++ [e])%list.
Proof.
  intros Hinv Hk Hin Hnot Hnr Hgw Hset a.
  apply receipts_inv_add; try done; unfold add_rows; simpl; rewrite ?app_nil_r.
  - rewrite fmap_app, (assoc_L (++)). apply NoDup_app. split_and!; [apply Hinv| |apply NoDup_singleton].
    intros x Hx Hl%list_elem_of_singleton. subst x. apply elem_of_app in Hx. tauto.
  - apply Hinv.
  - apply Forall_singleton. simpl. apply list_elem_of_fmap. eauto.
  - left. right. exists a, owner. simpl. rewrite elem_of_app, list_elem_of_singleton. split_and!; try done. by right.
Qed.

(** An attempt known as an alias, with the receipt it stands for. *)
Lemma aliased_Some attempt db a r : aliased attempt db = Some (a, r) →
  a ∈ lg_aliases db ∧ al_attempt_id a = attempt ∧ r ∈ lg_receipts db ∧ rr_attempt_id r = al_canonical_attempt_id a.
Proof.
  unfold aliased. destruct (filter _ (lg_aliases db)) as [|a' rest] eqn:Ef; [done|].
  destruct (head (filter (λ row, rr_attempt_id row = _) _)) as [row|] eqn:Eh; [|done]. intros [= -> ->].
  apply head_filter in Eh as [Hrin Hreq].
  assert (a ∈ filter (λ x, al_attempt_id x = attempt) (lg_aliases db)) as Hain by (rewrite Ef; left).
  apply list_elem_of_filter in Hain as [Hatt Hain]. done.
Qed.

(** What a step of the projection leaves. *)
Definition projected (db db' : Ledger) (events : list CaptureEvent) : Prop :=
  lg_events db' = lg_events db ∧ lg_cursors db' = lg_cursors db ∧
  (∀ k, is_Some (lg_epochs db !! k) → is_Some (lg_epochs db' !! k)) ∧ receipts_inv db' events.
Definition projects (db : Ledger) (events : list CaptureEvent) (x : res StoreError Z * Ledger) : Prop :=
  match x.1 with Ok _ => projected db x.2 events | Err e => is_unique_violation e = false end.

Lemma project_receipt_inv stream writer r db old :
  receipts_inv db old → (∀ e, e ∈ old → event_at stream (ob_sequence r) e = false) →
  text_of "kind" (ob_payload r) = "attempt.receipt" →
  projects db (old ++ [event_of stream writer r])%list (project_receipt sha256 any_order stream r db).
Proof.
  intros Hinv Hnew Hk. set (e := event_of stream writer r).
  assert (ce_kind e = "attempt.receipt") as Hke by done.
  assert (event_row e = receipt_row stream r) as Hrow by done.
  assert (∀ existing reason, projects db (old ++ [e])%list (conflict sha256 any_order stream r existing reason db)) as Hconf.
  { intros existing reason. destruct (conflict _ _ _ _ _ _ db) as [res db'] eqn:Hc.
    apply (conflict_inv stream writer _ _ _ _ old) in Hc; [|done..].
    unfold projects. simpl. destruct res; [|done]. destruct Hc as [[K1 K2 K3 K4 K5 K6] Hi]. by split_and!. }
  assert (∀ db', lg_events db' = lg_events db → lg_cursors db' = lg_cursors db → lg_epochs db' = lg_epochs db →
            receipts_inv db' (old ++ [e])%list → projects db (old ++ [e])%list (Ok 0, db')) as Hok.
  { intros db' H1 H2 H3 H4. unfold projects, projected. simpl. rewrite H3. by split_and!. }
  unfold project_receipt. rewrite <- Hrow.
  destruct (aliased _ db) as [[a canonical]|] eqn:Ha.
  { destruct (bool_decide _ && String.eqb _ _) eqn:Hsame; [|apply Hconf]. apply Hok; [done..|].
    apply receipts_inv_same; [done|done|]. apply aliased_Some in Ha as (? & ? & ? & ?). bool_to_prop.
    right. exists a, canonical. split_and!; try done. by apply String.eqb_eq. }
  pose proof (aliased_None _ _ Ha (ri_alias _ _ Hinv)) as Hnot.
  destruct (receipt_free (event_row e) db) eqn:Hfree.
  { apply Hok; [done..|]. pose proof (add_receipt_inv _ _ _ Hinv Hke Hnot Hfree) as Hadd.
    destruct db. unfold add_rows in Hadd. simpl in Hadd. by rewrite !app_nil_r in Hadd. }
  destruct (head (filter (λ x, rr_attempt_id x = _) _)) as [same|] eqn:Hsame.
  { apply head_filter in Hsame as [Hin Hatt]. destruct (String.eqb (rr_facts_digest same) _) eqn:Hfacts; [|apply Hconf].
    apply Hok; [done..|]. apply receipts_inv_same; [done|done|]. left. exists same. split_and!; try done. by apply String.eqb_eq. }
  destruct (head (filter (λ x, is_Some _ ∧ _) _)) as [owner|] eqn:Hown; [|done].
  apply head_filter in Hown as [Hin [Hsome Hgw]].
  destruct (String.eqb (rr_settled_digest owner) _) eqn:Hset; [|apply Hconf]. apply String.eqb_eq in Hset.
  rewrite bool_decide_eq_false_2 by done. apply Hok; [done..|].
  assert (rr_attempt_id (event_row e) ∉ rr_attempt_id <$> lg_receipts db) as Hnr.
  { intros (x & Hx & Hxin)%list_elem_of_fmap. by apply (head_filter_None _ _ x) in Hsame. }
  pose proof (add_alias_inv _ _ _ _ Hinv Hke Hin Hnot Hnr Hgw Hset) as Hadd.
  destruct db. unfold add_rows in Hadd. simpl in Hadd. by rewrite !app_nil_r in Hadd.
Qed.

Lemma receipts_inv_events db l events : receipts_inv db events → receipts_inv (set_events l db) events.
Proof. intros [H1 H2 H3 H4 H5 H6]. by constructor. Qed.

(** An event that is not a receipt. *)
Lemma receipts_inv_other db old e : receipts_inv db old → ce_kind e ≠ "attempt.receipt" → receipts_inv db (old ++ [e])%list.
Proof.
  intros [H1 H2 H3 H4 H5 H6] Hk. constructor; try done.
  - intros r Hr. destruct (H4 r Hr) as (x & ? & ? & ?). exists x. rewrite elem_of_app. auto.
  - intros x [Hin|Heq%list_elem_of_singleton]%elem_of_app Hx; [auto|by subst].
  - intros c Hc. destruct (H6 c Hc) as (x & ? & ?). exists x. rewrite elem_of_app. auto.
Qed.

Lemma certify_all_errors ids db e db' :
  certify_all sha256 any_order ids db = (Err e, db') → is_unique_violation e = false.
Proof.
  revert db. induction ids as [|i ids IH]; intros db H; simpl in H; run_eff; [by eapply IH|by eapply certify_errors].
Qed.

(** A certification after a step keeps what the step left. *)
Lemma projects_certify db db1 events (x : storing unit) c :
  projected db db1 events →
  (∀ r d, x db1 = (r, d) → facts_kept db1 d ∧ match r with Err e => is_unique_violation e = false | _ => True end) →
  projects db events ((x ;;! eff_ret c) db1).
Proof.
  intros (H1 & H2 & H3 & H4) Hx. unfold eff_bind. destruct (x db1) as [[u|e] d] eqn:E.
  - destruct (Hx _ _ eq_refl) as [Hk _]. pose proof Hk as [K1 K2 K3 K4 K5 K6].
    split_and!; simpl; [congruence|congruence|auto|by eapply receipts_inv_kept].
  - apply (Hx _ _ eq_refl).
Qed.

Lemma certify_step e db r d : certify sha256 any_order e db = (r, d) →
  facts_kept db d ∧ match r with Err e => is_unique_violation e = false | _ => True end.
Proof. intros H. split; [by eapply certify_kept|]. destruct r; [done|by eapply certify_errors]. Qed.

Lemma project_inv stream writer r db old :
  receipts_inv db old → (∀ e, e ∈ old → event_at stream (ob_sequence r) e = false) →
  projects db (old ++ [event_of stream writer r])%list (project sha256 any_order stream r db).
Proof.
  intros Hinv Hnew. set (e := event_of stream writer r). unfold project.
  set (kind := text_of "kind" (ob_payload r)). destruct (String.eqb_spec kind "attempt.receipt") as [Hk|Hk].
  { pose proof (project_receipt_inv stream writer r db old Hinv Hnew Hk) as Hp. unfold eff_bind.
    destruct (project_receipt _ _ _ _ db) as [[c|x] db1]; [|done].
    apply (projects_certify _ _ _ (certify sha256 any_order (text_of "epoch_id" (ob_payload r)))); [done|]. apply certify_step. }
  assert (receipts_inv db (old ++ [e])%list) as Hinv' by (by apply receipts_inv_other).
  assert (∀ db', facts_kept db db' → projected db db' (old ++ [e])%list) as Hok.
  { intros db' Hf. pose proof Hf as [K1 K2 K3 K4 K5 K6]. split_and!; try done. by eapply receipts_inv_kept. }
  destruct (String.eqb kind "integrity.failure").
  { destruct (string_field "epoch_id" _) as [[|? ?]|]; (apply projects_certify; [by apply Hok|]);
      [unfold eff_ret; intros; by simplify_eq|apply certify_step|unfold eff_ret; intros; by simplify_eq]. }
  destruct (bool_decide _).
  { apply Hok. unfold add_snapshot. case_match; by constructor. }
  destruct (_ || _).
  { apply (projects_certify _ _ _ (recertify_for sha256 any_order _)); [by apply Hok|]. unfold recertify_for. intros x d Hx.
    split; [by eapply certify_all_kept|]. destruct x; [done|by eapply certify_all_errors]. }
  destruct (String.eqb kind "epoch.begin"); [apply Hok, insert_epoch_kept|].
  destruct (String.eqb kind "epoch.close").
  { apply (projects_certify _ _ _ (certify sha256 any_order _)); [apply Hok, insert_epoch_kept|]. apply certify_step. }
  destruct (String.eqb kind GAP_KIND); [apply Hok, close_open_kept|by apply Hok].
Qed.

(** ** One batch *)

(** The tables while a batch of a stream is stored, up to [base]. *)
Record ingesting (db : Ledger) (s writer : string) (base : Z * string) : Prop := {
  in_ids : NoDup (ce_event_id <$> lg_events db);
  in_kinds : Forall (λ e, ce_kind e = text_of "kind" (ce_payload e) ∧ 1 ≤ ce_sequence e) (lg_events db);
  in_sorted s' : StronglySorted Z.lt (ce_sequence <$> of_stream s' db);
  in_chained s' : chained (lg_epochs db) s' (0, GENESIS) (of_stream s' db);
  in_other s' : s' ≠ s → cursor_ok db s';
  in_base : base = reached (of_stream s db) ∨
    (reached (of_stream s db)).1 < base.1 ∧
    is_Some (lg_epochs db !! span_key s ((reached (of_stream s db)).1 + 1) base.1);
  in_writer : Forall (λ e, ce_writer e = writer) (of_stream s db);
  in_receipts : receipts_inv db (lg_events db)
}.

Lemma follows_after r n d : follows r n d = Ok tt → n < ob_sequence r.
Proof.
  unfold follows. intros H. apply res_bind_ok in H as (u & H & _). destruct (has_kind _ _).
  - repeat case_match; inv_res; try done. bool_to_prop. lia.
  - inv_res. bool_to_prop. lia.
Qed.

Lemma chained_mono epochs epochs' s base l :
  (∀ k, is_Some (epochs !! k) → is_Some (epochs' !! k)) → chained epochs s base l → chained epochs' s base l.
Proof.
  intros Hk. revert base. induction l as [|e l IH]; [done|]. intros base [[H|(n & d & H1 & H2 & H3)] Hl];
    (split; [|by apply IH]); [by left|]. right. exists n, d. auto.
Qed.

Definition reached_from (base : Z * string) (l : list CaptureEvent) : Z * string :=
  match last l with Some e => (ce_sequence e, ce_record_digest e) | None => base end.

Lemma chained_snoc epochs s base l e : chained epochs s base l →
  (let b := reached_from base l in
   follows (record_of e) b.1 b.2 = Ok tt ∨
   ∃ n d, b.1 < n ∧ is_Some (epochs !! span_key s (b.1 + 1) n) ∧ follows (record_of e) n d = Ok tt) →
  chained epochs s base (l ++ [e])%list.
Proof.
  revert base. induction l as [|x l IH]; intros base H Hb; [by split|]. destruct H as [Hx Hl]. split; [done|].
  apply IH; [done|]. unfold reached_from in *. rewrite last_cons in Hb. by destruct (last l).
Qed.

(** Sequences up to the reached one. *)
Lemma sorted_reached l e : StronglySorted Z.lt (ce_sequence <$> l) → e ∈ l → ce_sequence e ≤ (reached l).1.
Proof.
  unfold reached. induction l as [|x l IH] using rev_ind; [by intros _ ?%not_elem_of_nil|].
  rewrite fmap_app, last_snoc. simpl. intros Hs [Hin|Heq%list_elem_of_singleton]%elem_of_app; [|by subst].
  apply StronglySorted_app in Hs as (Hlt & _ & _).
  specialize (Hlt (ce_sequence e) (ce_sequence x)). apply Z.lt_le_incl, Hlt; [by apply list_elem_of_fmap_2|left].
Qed.

Lemma of_stream_snoc s db e : of_stream s (set_events (lg_events db ++ [e])%list db) =
  (of_stream s db ++ if decide (ce_stream_id e = s) then [e] else [])%list.
Proof. unfold of_stream. simpl. rewrite filter_app, filter_cons, filter_nil. by case_decide. Qed.

Lemma sorted_snoc l x : StronglySorted Z.lt l → (∀ y, y ∈ l → y < x) → StronglySorted Z.lt (l ++ [x])%list.
Proof.
  intros Hs Hx. apply StronglySorted_app. split_and!; [|done|by repeat constructor].
  intros y z Hy Hz%list_elem_of_singleton. subst. auto.
Qed.

Lemma ingesting_below db s writer base e : ingesting db s writer base → e ∈ lg_events db → ce_stream_id e = s →
  ce_sequence e ≤ base.1.
Proof.
  intros H He Hs. assert (e ∈ of_stream s db) as Hin by (by apply list_elem_of_filter).
  apply (sorted_reached _ _ (in_sorted _ _ _ _ H s)) in Hin.
  destruct (in_base _ _ _ _ H) as [->|[? _]]; lia.
Qed.

(** A record that follows is new to its stream. *)
Lemma follows_new db s writer base r : ingesting db s writer base → follows r base.1 base.2 = Ok tt →
  ∀ e, e ∈ lg_events db → event_at s (ob_sequence r) e = false.
Proof.
  intros H Hf e He. apply follows_after in Hf. unfold event_at. destruct (String.eqb_spec (ce_stream_id e) s) as [Hs|]; [|done].
  pose proof (ingesting_below _ _ _ _ _ H He Hs). simpl. apply Z.eqb_neq. lia.
Qed.

Lemma stored_ingesting db s writer base r db2 : let e := event_of s writer r in
  ingesting db s writer base → 1 ≤ ob_sequence r → follows r base.1 base.2 = Ok tt →
  ob_event_id r ∉ ce_event_id <$> lg_events db →
  projected (set_events (lg_events db ++ [e])%list db) db2 (lg_events db ++ [e])%list →
  ingesting db2 s writer (ob_sequence r, ob_digest r) ∧ (ob_sequence r, ob_digest r) = reached (of_stream s db2).
Proof.
  intros e H Hone Hf Hid (H1 & H2 & H3 & H4). simpl in H1, H2, H3.
  assert (∀ s', of_stream s' db2 = (of_stream s' db ++ if decide (s = s') then [e] else [])%list) as Hof.
  { intros s'. pose proof (of_stream_snoc s' db e) as Hx. unfold of_stream in *. rewrite H1. exact Hx. }
  assert (reached (of_stream s db2) = (ob_sequence r, ob_digest r)) as Hre.
  { rewrite Hof, decide_True by done. unfold reached. by rewrite last_snoc. }
  split; [|done]. constructor; rewrite ?H1; try done.
  - rewrite fmap_app. apply NoDup_app. split_and!; [apply H| |apply NoDup_singleton].
    intros x Hx Heq%list_elem_of_singleton. by subst.
  - apply Forall_app_2; [apply H|]. by apply Forall_singleton.
  - intros s'. rewrite Hof, fmap_app. case_decide as Hs; [subst s'|rewrite app_nil_r; apply H].
    apply sorted_snoc; [apply H|]. intros y (x & -> & [Hsx Hx]%list_elem_of_filter)%list_elem_of_fmap.
    apply follows_after in Hf. pose proof (ingesting_below _ _ _ _ _ H Hx Hsx). simpl. lia.
  - intros s'. rewrite Hof. apply (chained_mono (lg_epochs db)); [done|].
    case_decide as Hs; [subst s'|rewrite app_nil_r; apply H]. apply chained_snoc; [apply H|].
    change (reached_from (0, GENESIS) (of_stream s db)) with (reached (of_stream s db)). simpl.
    destruct (in_base _ _ _ _ H) as [Hb|[Hlt Hspan]]; [left; by rewrite <- Hb|]. right. by exists base.1, base.2.
  - intros s' Hs. pose proof (in_other _ _ _ _ H s' Hs) as Hc. unfold cursor_ok in *.
    rewrite H2, Hof, decide_False, app_nil_r by done. done.
  - by left.
  - rewrite Hof, decide_True by done. apply Forall_app_2; [apply H|]. by apply Forall_singleton.
Qed.

(** The first record of a batch that is stored. *)
Lemma insert_record_step s writer r rest base conflicts db res db' :
  ingesting db s writer base → 1 ≤ ob_sequence r →
  insert_records sha256 any_order s writer base conflicts (r :: rest) db = (res, db') →
  let db1 := set_events (lg_events db ++ [event_of s writer r])%list db in
  (∃ c db2, follows r base.1 base.2 = Ok tt ∧ project sha256 any_order s r db1 = (Ok c, db2) ∧
     projected db1 db2 (lg_events db ++ [event_of s writer r])%list ∧
     ingesting db2 s writer (ob_sequence r, ob_digest r) ∧ (ob_sequence r, ob_digest r) = reached (of_stream s db2) ∧
     insert_records sha256 any_order s writer (ob_sequence r, ob_digest r) (conflicts + c) rest db2 = (res, db')) ∨
  ∃ e, res = Err e ∧ is_unique_violation e = false.
Proof.
  intros H Hr Hrun db1. simpl in Hrun. destruct (follows r base.1 base.2) as [[]|] eqn:Hf; [|run_eff; eauto].
  set (e := event_of s writer r) in *.
  assert (existsb (event_at (ce_stream_id e) (ce_sequence e)) (lg_events db) = false) as Hpk.
  { apply not_true_iff_false. intros (x & Hx%list_elem_of_In & Heq)%existsb_exists.
    pose proof (follows_new _ _ _ _ _ H Hf x Hx) as Hno. simpl in Heq. congruence. }
  unfold eff_bind at 1, insert_event in Hrun. rewrite Hpk in Hrun. case_bool_decide as Hid; [run_eff; eauto|].
  pose proof (project_inv s writer r db1 (lg_events db)
    (receipts_inv_events _ _ _ (in_receipts _ _ _ _ H)) (follows_new _ _ _ _ _ H Hf)) as Hp.
  unfold eff_bind in Hrun. fold db1 in Hrun. destruct (project sha256 any_order s r db1) as [[c|x] db2]; [|simplify_eq; eauto].
  left. exists c, db2. destruct (stored_ingesting db s writer base r db2 H Hr Hf Hid Hp) as [H2 Hre]. by split_and!.
Qed.

Lemma insert_records_inv s writer records : ∀ base conflicts db res db',
  ingesting db s writer base → Forall (λ r, 1 ≤ ob_sequence r) records →
  insert_records sha256 any_order s writer base conflicts records db = (res, db') →
  match res with
  | Ok (base', _) =>
      ingesting db' s writer base' ∧ lg_events db' = (lg_events db ++ (event_of s writer <$> records))%list ∧
      lg_cursors db' = lg_cursors db ∧ base.1 ≤ base'.1 ∧
      (if bool_decide (records = []) then base' = base ∧ db' = db else base' = reached (of_stream s db'))
  | Err e => is_unique_violation e = false
  end.
Proof.
  induction records as [|r records IH]; intros base conflicts db res db' H Hone Hrun.
  { simpl in Hrun. run_eff. rewrite app_nil_r. by split_and!. }
  apply Forall_cons in Hone as [Hr Hone].
  apply insert_record_step in Hrun as [(c & db2 & Hf & _ & Hp & H2 & Hre & Hrun)|(e & -> & He)]; [|done..].
  destruct Hp as (P1 & P2 & _ & _). simpl in P1, P2.
  apply (IH _ _ _ _ _ H2 Hone) in Hrun. destruct res as [[base' c']|]; [|done].
  destruct Hrun as (Hi & He & Hc & Hle & Hb). split_and!; [done| |congruence| |].
  - by rewrite He, P1, fmap_cons, <- (assoc_L (++)).
  - apply follows_after in Hf. simpl in Hle. lia.
  - rewrite bool_decide_eq_false_2 by done. destruct records; simpl in Hb; [|done]. by destruct Hb as [-> ->].
Qed.

Definition ledger_inv (db : Ledger) : Prop := events_inv db ∧ receipts_inv db (lg_events db).

Lemma empty_ledger_inv : ledger_inv empty_ledger.
Proof.
  split; constructor; simpl; try (by apply NoDup_nil_2); try (by intros ? ?%not_elem_of_nil); try done; intros; constructor.
Qed.

(** A record the tables hold. *)
Definition holds (db : Ledger) (s : string) (r : OutboxRecord) : Prop :=
  ∃ e, e ∈ lg_events db ∧ ce_stream_id e = s ∧ ce_sequence e = ob_sequence r ∧ ce_record_digest e = ob_digest r.

Lemma replay_ok s base db records left n : replay s base records db = Ok (left, n) →
  left = drop n records ∧ ∀ r, r ∈ take n records → holds db s r.
Proof.
  revert left n. induction records as [|r records IH]; intros left n H; simpl in H.
  { inv_res. split; [done|]. by intros r ?%not_elem_of_nil. }
  destruct (ob_sequence r <=? base.1); [|inv_res; split; [done|]; by intros x ?%not_elem_of_nil].
  destruct (head _) as [e|] eqn:He; [|done]. destruct (String.eqb_spec (ce_record_digest e) (ob_digest r)); [|done].
  apply head_filter in He as [Hin [Hs%String.eqb_eq Hn%Z.eqb_eq]%andb_true_iff].
  apply res_bind_ok in H as ([left' n'] & H & Heq). injection Heq as <- <-. apply IH in H as [-> Hr].
  split; [done|]. simpl. intros x [->|Hx]%elem_of_cons; [by exists e|by apply Hr].
Qed.

Lemma events_ingesting db s writer base : ledger_inv db → Forall (λ e, ce_writer e = writer) (of_stream s db) →
  (base = reached (of_stream s db) ∨ (reached (of_stream s db)).1 < base.1 ∧
    is_Some (lg_epochs db !! span_key s ((reached (of_stream s db)).1 + 1) base.1)) → ingesting db s writer base.
Proof. intros [[H1 H2 H3 H4 H5] H6] Hw Hb. by constructor. Qed.

Lemma ledger_inv_kept db db' : facts_kept db db' → ledger_inv db → ledger_inv db'.
Proof.
  intros Hk [[H1 H2 H3 H4 H5] H6]. pose proof Hk as [K1 K2 K3 K4 K5 K6].
  assert (∀ s, of_stream s db' = of_stream s db) as Hof by (intros s; unfold of_stream; by rewrite K1).
  split; [constructor; rewrite ?K1; try done|rewrite K1; by eapply receipts_inv_kept].
  - intros s. rewrite Hof. apply H3.
  - intros s. rewrite Hof. by eapply chained_mono.
  - intros s. specialize (H5 s). unfold cursor_ok in *. by rewrite K5, !Hof.
Qed.

(** Where a batch starts. *)
Lemma ingest_base_ok b db res db1 : ledger_inv db → batch_ok b →
  match lg_cursors db !! cb_stream_id b with Some c => cu_writer c = cb_writer b | None => True end →
  ingest_base b db = (res, db1) →
  match res with
  | Ok (base, records, replayed) =>
      ingesting db1 (cb_stream_id b) (cb_writer b) base ∧ facts_kept db db1 ∧ cb_after_sequence b ≤ base.1 ∧
      records = drop replayed (cb_records b) ∧
      (∀ r, r ∈ take replayed (cb_records b) → holds db (cb_stream_id b) r) ∧
      (records = [] → db1 = db ∧ base = reached (of_stream (cb_stream_id b) db) ∧ lg_cursors db !! cb_stream_id b ≠ None)
  | Err e => is_unique_violation e = false
  end.
Proof.
  intros Hinv Hb Hw H. set (s := cb_stream_id b) in *. pose proof (ei_cursor _ (proj1 Hinv) s) as Hc.
  unfold ingest_base in H. fold s in H. unfold cursor_ok in Hc.
  assert (Forall (λ e, ce_writer e = cb_writer b) (of_stream s db)) as Hwr.
  { destruct (lg_cursors db !! s); [|by rewrite Hc]. rewrite <- Hw. apply Hc. }
  set (reach := default 0 (fst <$> ((λ c, (cu_sequence c, cu_digest c)) <$> lg_cursors db !! s))) in *.
  assert ((reached (of_stream s db)).1 = reach) as Hreach.
  { unfold reach. destruct (lg_cursors db !! s) as [c|]; [|by rewrite Hc]. destruct Hc as (_ & <- & _). done. }
  destruct (bool_decide _ || (reach <? cb_after_sequence b)) eqn:Hahead.
  - injection H as <- <-. split_and!; [| |done|done|by intros r ?%not_elem_of_nil|intros He; by destruct (bo_records _ Hb)].
    + destruct (reach <? cb_after_sequence b) eqn:Hlt.
      * apply events_ingesting; [by eapply ledger_inv_kept; [apply project_gap_kept|]| |].
        { pose proof (project_gap_kept s (reach + 1) (cb_after_sequence b) (cb_ledger_instance b) db) as [K1 _ _ _ _ _].
          unfold of_stream in *. by rewrite K1. }
        right. pose proof (project_gap_kept s (reach + 1) (cb_after_sequence b) (cb_ledger_instance b) db) as [K1 _ _ _ _ _].
        unfold of_stream in *. rewrite K1, Hreach. simpl. split; [by apply Z.ltb_lt|apply project_gap_span].
      * rewrite orb_false_r in Hahead. apply bool_decide_eq_true in Hahead.
        destruct (lg_cursors db !! s); [done|]. apply events_ingesting; [done|done|]. left. rewrite Hc.
        apply Z.ltb_ge in Hlt. unfold reach in Hlt. simpl in Hlt. pose proof (bo_after _ Hb).
        assert (cb_after_sequence b = 0) as Hz by lia. unfold reached. simpl. by rewrite Hz, (bo_genesis _ Hb Hz).
    + destruct (reach <? cb_after_sequence b); [apply project_gap_kept|done].
  - apply orb_false_iff in Hahead as [Hsome%bool_decide_eq_false Hle%Z.ltb_ge]. rewrite <- Hreach in Hle.
    destruct (lg_cursors db !! s) as [c|]; [|done]. simpl in H. destruct Hc as (Hne & Hcur & _).
    destruct (replay s (cu_sequence c, cu_digest c) (cb_records b) db) as [[records n]|e] eqn:Hr.
    + apply replay_ok in Hr as [-> Hheld].
      assert (ingesting db s (cb_writer b) (cu_sequence c, cu_digest c)) as Hing by (apply events_ingesting; auto).
      rewrite <- Hcur in Hle.
      destruct (drop n (cb_records b)) as [|r rest] eqn:Hd; [|case_match]; simplify_eq; try done; (split_and!; done).
    + injection H as <- <-. revert Hr. generalize (cb_records b).
      induction l as [|r l IH]; simpl; [done|]. destruct (ob_sequence r <=? _); [|done].
      destruct (head _); [|naive_solver]. case_match; [|naive_solver]. intros [?|(? & _ & ?)]%res_bind_err; [auto|done].
Qed.

(** One batch: what is stored and what is acknowledged. *)
Definition batch_stored (instance : string) (b : CaptureBatch) (db db' : Ledger) (result : IngestResult) : Prop :=
  let s := cb_stream_id b in
  (∃ k, lg_events db' = (lg_events db ++ (event_of s (cb_writer b) <$> drop k (cb_records b)))%list) ∧
  (∀ r, r ∈ cb_records b → holds db' s r) ∧
  cb_after_sequence b ≤ (reached (of_stream s db')).1 ∧ Forall (λ e, ce_writer e = cb_writer b) (of_stream s db') ∧
  ca_ledger_instance (ir_ack result) = instance ∧ ca_stream_id (ir_ack result) = s ∧
  (ca_sequence (ir_ack result), ca_digest (ir_ack result)) = reached (of_stream s db').

Lemma holds_app db db' s r l : lg_events db' = (lg_events db ++ l)%list → holds db s r → holds db' s r.
Proof. intros He (e & Hin & H). exists e. rewrite He, elem_of_app. auto. Qed.

Lemma set_cursor_inv db s writer base : ingesting db s writer base → of_stream s db ≠ [] →
  base = reached (of_stream s db) →
  match lg_cursors db !! s with Some c => cu_writer c = writer | None => True end →
  ledger_inv (set_cursor s writer base db).
Proof.
  intros [H1 H2 H3 H4 H5 H6 H7 H8] Hne Hb Hw.
  split; [|destruct H8; by constructor]. constructor; try done. intros s'. unfold cursor_ok.
  change (of_stream s' (set_cursor s writer base db)) with (of_stream s' db). unfold set_cursor. cbn [lg_cursors set_cursors].
  destruct (decide (s' = s)) as [->|Hs]; [|rewrite lookup_insert_ne by done; by apply H5].
  rewrite lookup_insert_eq. destruct (lg_cursors db !! s) as [c|]; simpl; (split_and!; [done|by rewrite <- Hb; destruct base|]);
    [by rewrite Hw|done].
Qed.

Lemma ingest_batch_inv instance b db res db' : ledger_inv db → batch_ok b →
  ingest_batch sha256 any_order instance b db = (res, db') →
  match res with
  | Ok result => ledger_inv db' ∧ batch_stored instance b db db' result
  | Err e => is_unique_violation e = false
  end.
Proof.
  intros Hinv Hb H. unfold ingest_batch in H. set (s := cb_stream_id b) in *.
  destruct (match lg_cursors db !! s with Some c => negb (String.eqb (cu_writer c) (cb_writer b)) | None => false end) eqn:Hwr;
    [by simplify_eq|].
  assert (match lg_cursors db !! s with Some c => cu_writer c = cb_writer b | None => True end) as Hw.
  { destruct (lg_cursors db !! s); [|done]. apply negb_false_iff in Hwr. by apply String.eqb_eq. }
  unfold eff_bind at 1 in H. destruct (ingest_base b db) as [start db1] eqn:Hbase.
  apply ingest_base_ok in Hbase; [|done..]. destruct start as [[[base records] replayed]|]; [|by simplify_eq].
  destruct Hbase as (Hing & Hk & Hafter & Hrec & Hheld & Hnil). pose proof Hk as [K1 _ _ _ K5 _].
  unfold eff_bind at 1 in H. destruct (insert_records sha256 any_order s (cb_writer b) base 0 records db1) as [done_ db2] eqn:Hins.
  apply insert_records_inv in Hins; [|done|].
  2:{ subst records. apply Forall_drop. eapply Forall_impl; [apply (bo_each _ Hb)|]. naive_solver. }
  destruct done_ as [[base' conflicts]|]; [|by simplify_eq]. destruct Hins as (Hing2 & He2 & Hc2 & Hle & Hb2).
  destruct (base'.1 =? 0); [by run_eff|]. unfold eff_bind, eff_ret in H. injection H as <- <-.
  assert (∀ db3, lg_events db3 = lg_events db2 → base' = reached (of_stream s db2) → batch_stored instance b db db3
    (mkIngestResult (mkCaptureAck instance s base'.1 base'.2 conflicts) (length records) replayed)) as Hst.
  { intros db3 E3 Hre. assert (of_stream s db3 = of_stream s db2) as Hof by (unfold of_stream; by rewrite E3).
    unfold batch_stored. fold s. rewrite Hof, <- Hre. split_and!; simpl; try done; [| |lia|apply Hing2|by destruct base'].
    - exists replayed. by rewrite E3, He2, K1, <- Hrec.
    - intros r Hr. rewrite <- (take_drop replayed (cb_records b)) in Hr. apply elem_of_app in Hr as [Hr|Hr].
      + eapply holds_app; [|by apply Hheld]. rewrite E3, He2, K1. reflexivity.
      + exists (event_of s (cb_writer b) r). rewrite E3, He2, elem_of_app. split; [|done]. right.
        apply list_elem_of_fmap_2. by rewrite Hrec. }
  destruct records as [|r0 rest] eqn:Er.
  - destruct (Hnil eq_refl) as (-> & -> & Hrow). simpl in Hb2. destruct Hb2 as [-> ->].
    rewrite (bool_decide_eq_false_2 (lg_cursors db !! s = None)) by done. simpl. split; [done|]. by apply Hst.
  - simpl in Hb2. subst base'. simpl. split; [|by apply Hst]. apply set_cursor_inv; [done| |done|by rewrite Hc2, K5].
    intros Hn. unfold of_stream in Hn. rewrite He2, filter_app in Hn. apply app_eq_nil in Hn as [_ Hn].
    rewrite fmap_cons, filter_cons_True in Hn by done. done.
Qed.

(** ** Histories *)

Variable instance : string.
Variable unicode_digit : string → bool.

(** A batch as the Gateway hands it to the ledger: read by the contract. *)
Definition received (b : CaptureBatch) : Prop := ∃ body, parse_batch sha256 unicode_digit body = Ok b.

Lemma received_ok b : received b → batch_ok b.
Proof. intros [body H]. by eapply parse_batch_ok. Qed.

Abbreviation run := (ledger_run sha256 any_order instance).
Abbreviation take_batch := (ingest sha256 any_order instance).

Lemma ingest_inv b fate db : ledger_inv db → batch_ok b →
  ledger_inv (take_batch b fate db).2 ∧ (∃ l, lg_events (take_batch b fate db).2 = (lg_events db ++ l)%list) ∧
  match (take_batch b fate db).1 with
  | Ok result => batch_stored instance b db (take_batch b fate db).2 result
  | Err e => is_unique_violation e = false
  end.
Proof.
  intros Hinv Hb. unfold ingest. destruct (ingest_batch sha256 any_order instance b db) as [res db'] eqn:H.
  apply ingest_batch_inv in H; [|done..].
  assert (∃ l, lg_events db = (lg_events db ++ l)%list) as Hid by (exists []; by rewrite app_nil_r).
  destruct res as [result|e]; [destruct H as [Hi Hs]; destruct (proj1 Hs) as [k Hk]|]; destruct fate; simpl; eauto.
Qed.

Lemma run_inv batches db : ledger_inv db → Forall (λ x, received x.1) batches →
  ledger_inv (run batches db) ∧ ∃ l, lg_events (run batches db) = (lg_events db ++ l)%list.
Proof.
  intros Hinv Hr. revert db Hinv. induction Hr as [|[b fate] batches Hb _ IH]; intros db Hinv; simpl.
  { split; [done|]. exists []. by rewrite app_nil_r. }
  destruct (ingest_inv b fate db Hinv (received_ok _ Hb)) as (H1 & [l1 H2] & _).
  destruct (IH _ H1) as (H3 & l2 & H4). split; [done|]. exists (l1 ++ l2)%list. by rewrite H4, H2, (assoc_L (++)).
Qed.

(** Within a stream a sequence names one event. *)
Lemma stream_unique db s e e' : events_inv db → e ∈ lg_events db → e' ∈ lg_events db → ce_stream_id e = s →
  ce_stream_id e' = s → ce_sequence e = ce_sequence e' → e = e'.
Proof.
  intros Hinv He He' Hs Hs' Hn. assert (e ∈ of_stream s db ∧ e' ∈ of_stream s db) as [H H'] by (unfold of_stream; by rewrite !list_elem_of_filter).
  pose proof (ei_sorted _ Hinv s) as Hsort. revert H H' Hsort. generalize (of_stream s db).
  induction l as [|x l IH]; [by intros ?%not_elem_of_nil|]. simpl. intros Hin Hin' Hsort.
  inversion_clear Hsort as [|? ? Hsort' Hall]. rewrite Forall_fmap, Forall_forall in Hall.
  apply elem_of_cons in Hin as [->|Hin]; apply elem_of_cons in Hin' as [->|Hin']; [done|..|by apply IH].
  - specialize (Hall _ Hin'). simpl in Hall. lia.
  - specialize (Hall _ Hin). simpl in Hall. lia.
Qed.

Lemma replay_all s base db records : events_inv db → (∀ r, r ∈ records → holds db s r ∧ ob_sequence r ≤ base.1) →
  replay s base records db = Ok ([], length records).
Proof.
  intros Hinv. induction records as [|r records IH]; intros H; [done|]. simpl.
  destruct (H r ltac:(left)) as [(e & He & Hs & Hn & Hd) Hle]. apply Z.leb_le in Hle as ->.
  destruct (head (filter (λ e, event_at s (ob_sequence r) e = true) (lg_events db))) as [x|] eqn:Hh.
  - apply head_filter in Hh as [Hx [Hxs%String.eqb_eq Hxn%Z.eqb_eq]%andb_true_iff].
    rewrite (stream_unique db s x e) by (done || congruence). rewrite Hd, String.eqb_refl.
    rewrite IH; [done|]. intros r' Hr'. apply H. by right.
  - exfalso. apply (head_filter_None _ _ e) in Hh; [|done]. apply Hh. unfold event_at.
    by rewrite Hs, Hn, String.eqb_refl, Z.eqb_refl.
Qed.

Lemma reached_last_event db s e : events_inv db → e ∈ of_stream s db → ce_sequence e ≤ (reached (of_stream s db)).1.
Proof. intros Hinv He. by apply sorted_reached; [apply Hinv|]. Qed.

(** A batch whose records the tables hold is acknowledged again, and changes nothing. *)
Lemma resent_ok b db : ledger_inv db → batch_ok b → (∀ r, r ∈ cb_records b → holds db (cb_stream_id b) r) →
  cb_after_sequence b ≤ (reached (of_stream (cb_stream_id b) db)).1 →
  Forall (λ e, ce_writer e = cb_writer b) (of_stream (cb_stream_id b) db) →
  let re := reached (of_stream (cb_stream_id b) db) in
  take_batch b Runs db =
    (Ok (mkIngestResult (mkCaptureAck instance (cb_stream_id b) re.1 re.2 0) 0 (length (cb_records b))), db).
Proof.
  intros Hinv Hb Hheld Hafter Hw re. pose proof Hinv as [He _].
  destruct (cb_records b) as [|r0 rest] eqn:Er; [by destruct (bo_records _ Hb)|]. rewrite <- Er in *.
  assert (∃ e, e ∈ of_stream (cb_stream_id b) db) as [e0 He0].
  { destruct (Hheld r0) as (e & Hin & Hs & _); [rewrite Er; left|]. exists e. by apply list_elem_of_filter. }
  pose proof (ei_cursor _ He (cb_stream_id b)) as Hc. unfold cursor_ok in Hc.
  destruct (lg_cursors db !! cb_stream_id b) as [c|] eqn:Ec; [|rewrite Hc in He0; by apply not_elem_of_nil in He0].
  destruct Hc as (_ & Hcur & Hwc).
  assert (cu_writer c = cb_writer b) as Hcw.
  { rewrite Forall_forall in Hw. rewrite Forall_forall in Hwc. by rewrite <- (Hw e0), <- (Hwc e0). }
  assert (replay (cb_stream_id b) re (cb_records b) db = Ok ([], length (cb_records b))) as Hrep.
  { apply replay_all; [done|]. intros r Hr. split; [by apply Hheld|]. destruct (Hheld r Hr) as (e & Hin & Hs & Hn & _).
    rewrite <- Hn. apply reached_last_event; [done|]. by apply list_elem_of_filter. }
  assert (1 ≤ re.1) as Hone.
  { pose proof (reached_last_event db (cb_stream_id b) e0 He He0). apply list_elem_of_filter in He0 as [_ Hin].
    pose proof (ei_kinds _ He) as Hk. rewrite Forall_forall in Hk. apply Hk in Hin. unfold re. lia. }
  unfold ingest, ingest_batch, ingest_base, eff_bind. rewrite Ec. cbn [fmap option_fmap option_map default fst from_option].
  rewrite Hcur, Hcw, String.eqb_refl. cbn [negb]. fold re. rewrite bool_decide_eq_false_2 by done.
  change (cu_sequence c) with ((cu_sequence c, cu_digest c).1). rewrite Hcur. fold re.
  rewrite (proj2 (Z.ltb_ge _ _)) by done. cbn [orb]. unfold id.
  rewrite Hrep. simpl. rewrite (proj2 (Z.eqb_neq _ _)) by lia. done.
Qed.

(** C15: the ledger stores a stream exactly once and in order. After any batches, each of
    which was read by the contract and whose transaction ran, was lost, or committed with
    its answer lost: a stream's events have strictly increasing sequences and each
    follows the one before it, or a prefix its sender says another ledger committed, and
    then the span between is on record as unavailable. A batch is acknowledged exactly
    through the last event of its stream, once every record of it is stored with its
    digest; no constraint of a table is ever violated. And a batch that was acknowledged
    can be sent again at any later time: it is acknowledged again and nothing changes. *)
Theorem ledger_stream_exact batches b fate later : Forall (λ x, received x.1) batches → received b →
  Forall (λ x, received x.1) later →
  let db := run batches empty_ledger in
  (∀ s, StronglySorted Z.lt (ce_sequence <$> of_stream s db) ∧ chained (lg_epochs db) s (0, GENESIS) (of_stream s db)) ∧
  match take_batch b fate db with
  | (Err e, _) => is_unique_violation e = false
  | (Ok result, db') =>
      batch_stored instance b db db' result ∧
      let db'' := run later db' in
      ∃ again, take_batch b Runs db'' = (Ok again, db'') ∧ ir_inserted again = 0%nat
  end.
Proof.
  intros Hbs Hb Hlater db. destruct (run_inv batches empty_ledger empty_ledger_inv Hbs) as [Hinv _]. fold db in Hinv.
  split; [intros s; split; apply Hinv|]. pose proof (received_ok _ Hb) as Hok.
  destruct (ingest_inv b fate db Hinv Hok) as (Hinv' & _ & Hres).
  destruct (take_batch b fate db) as [[result|e] db']; [|done]. simpl in Hinv', Hres. split; [done|].
  destruct (run_inv later db' Hinv' Hlater) as [Hinv2 [l Hl]]. cbv zeta. set (db'' := run later db') in *.
  destruct Hres as ([k Hk] & Hheld & Hafter & Hw & _). set (s := cb_stream_id b) in *.
  assert (of_stream s db'' = of_stream s db' ++ filter (λ e, ce_stream_id e = s) l)%list as Hof
    by (unfold of_stream; by rewrite Hl, filter_app).
  destruct (cb_records b) as [|r0 rest] eqn:Er; [by destruct (bo_records _ Hok)|]. rewrite <- Er in Hheld.
  destruct (Hheld r0 ltac:(rewrite Er; left)) as (e0 & Hin0 & Hs0 & _).
  assert (e0 ∈ of_stream s db') as He0 by (by apply list_elem_of_filter).
  assert (Forall (λ e, ce_writer e = cb_writer b) (of_stream s db'')) as Hw2.
  { pose proof (ei_cursor _ (proj1 Hinv2) s) as Hc. unfold cursor_ok in Hc. rewrite Hof in *.
    destruct (lg_cursors db'' !! s) as [c|]; [|destruct (of_stream s db'); [by apply not_elem_of_nil in He0|done]].
    destruct Hc as (_ & _ & Hc). rewrite Forall_app in Hc. destruct Hc as [Hc1 Hc2]. rewrite Forall_forall in Hw, Hc1.
    apply Forall_app_2; [by rewrite Forall_forall|]. by rewrite <- (Hw e0), (Hc1 e0) by done. }
  eexists. split; [apply resent_ok; [done|done| | |done]|done].
  - intros r Hr. eapply holds_app; [exact Hl|]. by apply Hheld.
  - etransitivity; [exact Hafter|]. destruct (last (of_stream s db')) as [e1|] eqn:El.
    + replace (reached (of_stream s db')).1 with (ce_sequence e1) by (unfold reached; by rewrite El).
      apply reached_last_event; [apply Hinv2|]. fold s. rewrite Hof. apply elem_of_app. left. by apply last_Some_elem_of.
    + apply last_None in El. rewrite El in He0. by apply not_elem_of_nil in He0.
Qed.

(** C16: nothing is charged twice and nothing is left out. After any batches of any
    streams, an attempt has one receipt or is an alias of one, and a Gateway request has
    one receipt; every receipt is the projection of a stored event, and every stored
    event of a receipt is a charge, a replay with the same facts, an alias with the same
    settled facts under the same Gateway request, or evidence of a conflict. *)
Theorem ledger_charges_once batches : Forall (λ x, received x.1) batches →
  let db := run batches empty_ledger in
  NoDup ((rr_attempt_id <$> lg_receipts db) ++ (al_attempt_id <$> lg_aliases db))%list ∧
  NoDup (omap rr_gateway_request_id (lg_receipts db)) ∧
  (∀ r, r ∈ lg_receipts db → ∃ e, e ∈ lg_events db ∧ ce_kind e = "attempt.receipt" ∧ r = event_row e) ∧
  (∀ e, e ∈ lg_events db → ce_kind e = "attempt.receipt" → accounted db e).
Proof.
  intros Hbs db. destruct (run_inv batches empty_ledger empty_ledger_inv Hbs) as [[_ [H1 H2 H3 H4 H5 H6]] _]. by split_and!.
Qed.
End facts.

(** * Certified epochs *)

Section coverage.
Variable sha256 : string → string.
Variable any_order : list CaptureEvent → list CaptureEvent.
Hypothesis any_order_perm : ∀ l, any_order l ≡ₚ l.

(** The stored receipts of an epoch in its stream. *)
Definition epoch_receipts (s e : string) (db : Ledger) : list string :=
  (text_of "attempt_id" ∘ ce_payload) <$> filter (λ x, of_epoch s "attempt.receipt" e x = true) (lg_events db).

(** What makes an epoch complete, of what is stored now. *)
Record covered (db : Ledger) (e : string) (row : CoverageEpoch) : Prop := {
  cd_begin : is_Some (cv_begin_sequence row);
  cd_close : ∃ n close settled unknown, cv_close_sequence row = Some n ∧
    event_payload any_order (cv_stream_id row) n db = close ∧
    od_get "host_complete" close = Some (JBool true) ∧ int_of "pending_invocations" close = 0 ∧
    identities any_order (cv_stream_id row) e n (int_of "identity_parts" close) db =
      (settled, unknown, Z.to_nat (int_of "identity_parts" close)) ∧
    string_field "identities_digest" close = Some (identities_digest sha256 e settled unknown) ∧
    epoch_receipts (cv_stream_id row) e db ≡ₚ settled;
  cd_integrity x : x ∈ lg_events db → of_epoch (cv_stream_id row) "integrity.failure" e x = false;
  cd_late x : x ∈ lg_events db → of_epoch (cv_stream_id row) "attempt.receipt" e x = true → bool_of "late" (ce_payload x) = false;
  cd_persisted a : a ∈ epoch_receipts (cv_stream_id row) e db →
    a ∈ rr_attempt_id <$> lg_receipts db ∨ a ∈ al_attempt_id <$> lg_aliases db;
  cd_conflicts c r : c ∈ lg_conflicts db → r ∈ lg_receipts db → rr_attempt_id r = cf_existing_attempt_id c →
    rr_epoch_id r = e → rr_stream_id r ≠ cv_stream_id row
}.

Lemma elem_select p db x : x ∈ select any_order p db ↔ x ∈ lg_events db ∧ p x = true.
Proof. unfold select. rewrite any_order_perm, list_elem_of_filter. tauto. Qed.

(** A key without duplicates names one element. *)
Lemma NoDup_fmap_elem {A B} (f : A → B) (l : list A) x y : NoDup (f <$> l) → x ∈ l → y ∈ l → f x = f y → x = y.
Proof.
  induction l as [|z l IH]; [by intros _ ?%not_elem_of_nil|]. rewrite fmap_cons, NoDup_cons. intros [Hz Hl].
  intros [->|Hx]%elem_of_cons [->|Hy]%elem_of_cons Hf; [done|..|by apply IH]; destruct Hz.
  - rewrite Hf. by apply list_elem_of_fmap_2.
  - rewrite <- Hf. by apply list_elem_of_fmap_2.
Qed.

(** Filters that agree on the elements. *)
Lemma filter_agree {A} (p q : A → bool) (l : list A) : (∀ x, x ∈ l → p x = q x) →
  filter (λ x, p x = true) l = filter (λ x, q x = true) l.
Proof.
  intros H. induction l as [|x l IH]; [done|]. rewrite !filter_cons, (H x ltac:(left)), IH; [done|].
  intros y Hy. apply H. by right.
Qed.

Lemma when_nil b reason : when b reason = [] → b = false.
Proof. by destruct b. Qed.

Lemma sorted_texts_perm l : sorted_texts l ≡ₚ l.
Proof.
  unfold sorted_texts. rewrite merge_sort_Permutation, <- list_fmap_compose.
  change (id <$> l ≡ₚ l). by rewrite list_fmap_id.
Qed.

(** Reasons of none is an epoch covered. *)
Lemma receipt_row_of_epoch db events r s e : receipts_inv db events → r ∈ lg_receipts db → rr_epoch_id r = e → e ≠ "" →
  rr_stream_id r = s → ∃ x, x ∈ events ∧ of_epoch s "attempt.receipt" e x = true ∧ text_of "attempt_id" (ce_payload x) = rr_attempt_id r.
Proof.
  intros Hinv Hr He Hne Hs. destruct (ri_rows _ _ Hinv r Hr) as (x & Hx & Hk & ->). exists x. split; [done|]. split; [|done].
  simpl in He, Hs. unfold of_epoch. rewrite Hs, Hk, !String.eqb_refl. simpl. apply bool_decide_eq_true.
  unfold text_of in He. destruct (string_field "epoch_id" (ce_payload x)) as [y|]; simpl in He; congruence.
Qed.

Lemma values_late db s e b : values_of any_order s "attempt.receipt" e "attempt_id" (Some b) db ≡ₚ
  (text_of "attempt_id" ∘ ce_payload) <$> filter (λ x, of_epoch s "attempt.receipt" e x && Bool.eqb (bool_of "late" (ce_payload x)) b = true) (lg_events db).
Proof. unfold values_of, select. by rewrite any_order_perm. Qed.

Lemma no_reasons_covered db e row n : receipts_inv db (lg_events db) → e ≠ "" → cv_close_sequence row = Some n →
  epoch_reasons sha256 any_order e (cv_stream_id row) (cv_begin_sequence row) n db = Ok [] → covered db e row.
Proof.
  intros Hinv Hne Hn H. unfold epoch_reasons in H. set (s := cv_stream_id row) in *.
  set (close := event_payload any_order s n db) in *.
  apply res_bind_ok in H as (host & Hhost & H). apply res_bind_ok in H as (pending & Hpending & H).
  apply res_bind_ok in H as (parts & Hparts & H). apply res_bind_ok in H as (digest & Hdigest & H).
  unfold required in *. destruct (od_get "host_complete" close) eqn:E1; [|done]. injection Hhost as ->.
  destruct (od_get "pending_invocations" close) eqn:E2; [|done]. injection Hpending as ->.
  destruct (od_get "identity_parts" close) eqn:E3; [|done]. injection Hparts as ->.
  destruct (od_get "identities_digest" close) eqn:E4; [|done]. injection Hdigest as ->.
  assert (int_of "identity_parts" close = default 0 (int_value parts)) as Hp by (unfold int_of, int_field; by rewrite E3).
  rewrite <- Hp in H.
  destruct (identities any_order s e n (int_of "identity_parts" close) db) as [[settled unknown] k] eqn:Hid.
  injection H as H.
  apply app_eq_nil in H as [Hbegin%when_nil [Hcomplete%when_nil [Hpending%when_nil [_ [Hfail%when_nil
    [Hdig%when_nil [_ [Hlate%when_nil [Hsettled%when_nil [Hpersisted%when_nil [Hconflicts%when_nil
    _]%app_eq_nil]%app_eq_nil]%app_eq_nil]%app_eq_nil]%app_eq_nil]%app_eq_nil]%app_eq_nil]%app_eq_nil]%app_eq_nil]%app_eq_nil].
  bool_to_prop. rewrite existsb_false in Hpersisted. rewrite existsb_false in Hconflicts. apply Nat.eqb_eq in Hfail.
  assert (∀ x, x ∈ lg_events db → of_epoch s "attempt.receipt" e x = true → bool_of "late" (ce_payload x) = false) as Hnone.
  { intros x Hx Hof. destruct (bool_of "late" (ce_payload x)) eqn:El; [|done]. exfalso.
    assert (text_of "attempt_id" (ce_payload x) ∈ values_of any_order s "attempt.receipt" e "attempt_id" (Some true) db) as Hin.
    { rewrite values_late. apply (list_elem_of_fmap_2 (text_of "attempt_id" ∘ ce_payload)), list_elem_of_filter. by rewrite Hof, El. }
    rewrite Hlate in Hin. by apply not_elem_of_nil in Hin. }
  assert (values_of any_order s "attempt.receipt" e "attempt_id" (Some false) db ≡ₚ epoch_receipts s e db) as Hrec.
  { rewrite values_late. unfold epoch_receipts. apply reflexive_eq. f_equal. apply (filter_agree (λ x, of_epoch s "attempt.receipt" e x && Bool.eqb (bool_of "late" (ce_payload x)) false)).
    intros x Hx. destruct (of_epoch s "attempt.receipt" e x) eqn:Ho; [|done]. by rewrite (Hnone x Hx Ho). }
  constructor; fold s.
  - by destruct (cv_begin_sequence row).
  - exists n, close, settled, unknown. split_and!; [done|done| | | | |].
    + by destruct host as [|[]| | | |].
    + unfold int_of, int_field. by rewrite E2.
    + rewrite Hid. f_equal. lia.
    + unfold string_field. rewrite E4. destruct digest; try done. f_equal. by apply String.eqb_eq.
    + rewrite <- Hrec, <- (sorted_texts_perm settled), <- Hsettled. symmetry. apply sorted_texts_perm.
  - intros x Hx. apply not_true_iff_false. intros Hof.
    assert (x ∈ select any_order (of_epoch s "integrity.failure" e) db) as Hin by (by apply elem_select).
    unfold count_of in Hfail. destruct (select _ _ db); [by apply not_elem_of_nil in Hin|done].
  - exact Hnone.
  - intros a Ha. rewrite <- Hrec in Ha. specialize (Hpersisted a Ha). apply negb_false_iff, orb_true_iff in Hpersisted.
    by rewrite !bool_decide_eq_true in Hpersisted.
  - intros c r Hc Hr Hatt Hep Hst. destruct (receipt_row_of_epoch _ _ _ s e Hinv Hr Hep Hne Hst) as (x & Hx & Hof & Hxa).
    specialize (Hconflicts c Hc). apply orb_false_iff in Hconflicts as [_ Hno%bool_decide_eq_false]. apply Hno.
    rewrite Hrec, <- Hatt, <- Hxa. apply (list_elem_of_fmap_2 (text_of "attempt_id" ∘ ce_payload)), list_elem_of_filter. done.
Qed.

(** Every complete epoch but those of [P] is covered. *)
Record coverage_ok (P : string → Prop) (db : Ledger) : Prop := {
  co_closed e row : lg_epochs db !! e = Some row → cv_state row = CvComplete → is_Some (cv_close_sequence row);
  co_covered e row : lg_epochs db !! e = Some row → cv_state row = CvComplete → e ≠ "" → ¬ P e → covered db e row
}.

Lemma coverage_weaken (P Q : string → Prop) db : (∀ e, P e → Q e) → coverage_ok P db → coverage_ok Q db.
Proof. intros HPQ [H1 H2]. constructor; [done|]. intros e row Hr Hc Hne HQ. apply H2; auto. Qed.

(** No epoch is named by the empty text. *)
Lemma coverage_empty (P : string → Prop) db : coverage_ok (λ x, P x ∨ x = "") db → coverage_ok P db.
Proof. intros [H1 H2]. constructor; [done|]. intros e row Hr Hc Hne HP. apply H2; tauto. Qed.

(** Coverage is about the facts and the row's stream and sequences. *)
Lemma covered_same db db' e row row' : lg_events db' = lg_events db → lg_receipts db' = lg_receipts db →
  lg_aliases db' = lg_aliases db → lg_conflicts db' = lg_conflicts db → cv_stream_id row' = cv_stream_id row →
  cv_close_sequence row' = cv_close_sequence row → is_Some (cv_begin_sequence row') → covered db e row → covered db' e row'.
Proof.
  intros E1 E2 E3 E4 Es Ec Hb [H1 H2 H3 H4 H5 H6].
  unfold event_payload, identities, epoch_receipts, select in *.
  constructor; rewrite ?Es, ?Ec, ?E1, ?E2, ?E3, ?E4; try done.
  - unfold event_payload, identities, epoch_receipts, select. by rewrite E1.
  - unfold epoch_receipts. by rewrite E1.
Qed.

Lemma certify_coverage P e db u db' : certify sha256 any_order e db = (Ok u, db') → receipts_inv db (lg_events db) →
  coverage_ok (λ x, P x ∨ x = e) db → coverage_ok P db'.
Proof.
  intros H Hinv [Hcl Hco]. unfold certify in H. destruct (lg_epochs db !! e) as [row|] eqn:Er.
  2:{ simplify_eq. constructor; [done|]. intros x row' Hr Hc Hne HP. apply Hco; try done. intros [?| ->]; congruence. }
  destruct (cv_close_sequence row) as [n|] eqn:En.
  2:{ simplify_eq. constructor; [done|]. intros x row' Hr Hc Hne HP. apply Hco; try done. intros [?| ->]; [done|].
      destruct (Hcl _ _ Hr Hc). congruence. }
  destruct (epoch_reasons _ _ _ _ _ _ _) as [reasons|] eqn:Ere; [|done]. injection H as _ <-.
  constructor; unfold set_coverage; cbn [lg_epochs set_epochs]; intros x row'.
  - destruct (decide (x = e)) as [->|Hne].
    + rewrite lookup_alter_eq, Er. intros [= <-] _. simpl. by rewrite En.
    + rewrite lookup_alter_ne by done. apply Hcl.
  - destruct (decide (x = e)) as [->|Hxe].
    + rewrite lookup_alter_eq, Er. intros [= <-] Hc Hne HP. simpl in Hc. case_bool_decide as Hnil; [|done]. subst reasons.
      apply (covered_same db _ _ row); try done.
      * simpl. by apply (no_reasons_covered db e row n) in Ere as [? _ _ _ _ _].
      * by eapply no_reasons_covered.
    + rewrite lookup_alter_ne by done. intros Hr Hc Hne HP.
      apply (covered_same db _ _ row'); try done; [|apply Hco; try done; intros [?|?]; done].
      apply (cd_begin db x), Hco; try done. intros [?|?]; done.
Qed.

Lemma certify_all_coverage P ids db u db' : certify_all sha256 any_order ids db = (Ok u, db') →
  receipts_inv db (lg_events db) → coverage_ok P db → coverage_ok P db'.
Proof.
  revert db. induction ids as [|e ids IH]; intros db H Hinv Hco; simpl in H; run_eff; [done|].
  match goal with H : certify _ _ _ _ = _ |- _ => pose proof (certify_kept _ _ _ _ _ _ H) as Hk;
    apply (certify_coverage P) in H; [|done|by eapply coverage_weaken; [|exact Hco]; auto] end.
  eapply IH; [done| |done]. rewrite (fk_events _ _ Hk). by eapply receipts_inv_kept.
Qed.

(** Whether a new event bears on an epoch's coverage. *)
Definition concerns (ev : CaptureEvent) (e : string) : Prop :=
  (ce_kind ev = "attempt.receipt" ∨ ce_kind ev = "integrity.failure") ∧ string_field "epoch_id" (ce_payload ev) = Some e.

Lemma of_epoch_concerns s kind e ev : kind = "attempt.receipt" ∨ kind = "integrity.failure" → ¬ concerns ev e →
  of_epoch s kind e ev = false.
Proof.
  intros Hk Hno. apply not_true_iff_false. intros [[_ Hkk%String.eqb_eq]%andb_true_iff He%bool_decide_eq_true]%andb_true_iff.
  apply Hno. split; [|done]. by rewrite Hkk.
Qed.

Lemma select_snoc p db ev : p ev = false → select any_order p (set_events (lg_events db ++ [ev])%list db) = select any_order p db.
Proof.
  intros Hp. unfold select. simpl. rewrite filter_app, filter_cons_False, filter_nil, app_nil_r; [done|]. congruence.
Qed.

Lemma insert_coverage P db ev : coverage_ok P db →
  (∀ x, x ∈ lg_events db → ce_stream_id x = ce_stream_id ev → ce_sequence x < ce_sequence ev) →
  coverage_ok (λ e, P e ∨ concerns ev e) (set_events (lg_events db ++ [ev])%list db).
Proof.
  intros [Hcl Hco] Hnew. constructor; [done|]. simpl. intros e row Hr Hc Hne HP.
  assert (¬ P e ∧ ¬ concerns ev e) as [HP1 Hcon] by tauto.
  destruct (Hco e row Hr Hc Hne HP1) as [H1 (n & close & settled & unknown & En & Epay & Hhost & Hpen & Hid & Hdig & Hset) H3 H4 H5 H6].
  set (s := cv_stream_id row) in *.
  assert (epoch_receipts s e (set_events (lg_events db ++ [ev])%list db) = epoch_receipts s e db) as Hrec.
  { unfold epoch_receipts. simpl. rewrite filter_app, filter_cons_False, filter_nil, app_nil_r; [done|].
    rewrite of_epoch_concerns; [done|by left|done]. }
  assert (ce_stream_id ev = s → n < ce_sequence ev) as Hlt.
  { intros Hs. unfold event_payload in Epay. destruct (select any_order (event_at s n) db) as [|x rest] eqn:Esel;
      [by rewrite <- Epay in Hhost|].
    assert (x ∈ select any_order (event_at s n) db) as Hx by (rewrite Esel; left).
    apply elem_select in Hx as [Hx [Hxs%String.eqb_eq Hxn%Z.eqb_eq]%andb_true_iff].
    rewrite <- Hxn. apply Hnew; congruence. }
  constructor; fold s; simpl; try done.
  - exists n, close, settled, unknown. split_and!; try done.
    + unfold event_payload. rewrite select_snoc; [exact Epay|]. unfold event_at.
      destruct (String.eqb_spec (ce_stream_id ev) s) as [Hs|]; [|done]. simpl. apply Z.eqb_neq. specialize (Hlt Hs). lia.
    + unfold identities in *. rewrite select_snoc; [exact Hid|]. unfold of_epoch.
      destruct (String.eqb_spec (ce_stream_id ev) s) as [Hs|]; [|done]. specialize (Hlt Hs).
      rewrite (proj2 (Z.ltb_ge _ _)) by lia. apply andb_false_r.
    + by rewrite Hrec.
  - intros x [Hx|Hx%list_elem_of_singleton]%elem_of_app; [auto|]. subst x. apply of_epoch_concerns; [by right|done].
  - intros x [Hx|Hx%list_elem_of_singleton]%elem_of_app; [auto|]. subst x.
    rewrite of_epoch_concerns; [done|by left|done].
  - intros a. rewrite Hrec. apply H5.
Qed.

Lemma add_rows_coverage (P : string → Prop) db receipts aliases conflicts : coverage_ok P db →
  (∀ r, r ∈ receipts → P (rr_epoch_id r)) →
  (∀ c r, c ∈ conflicts → r ∈ lg_receipts db → rr_attempt_id r = cf_existing_attempt_id c → P (rr_epoch_id r)) →
  coverage_ok P (add_rows receipts aliases conflicts db).
Proof.
  intros [Hcl Hco] Hr Hc. constructor; [done|]. simpl. intros e row He Hs Hne HP.
  destruct (Hco e row He Hs Hne HP) as [H1 H2 H3 H4 H5 H6]. constructor; try done.
  - intros a Ha. simpl. rewrite !fmap_app, !elem_of_app. destruct (H5 a Ha); tauto.
  - simpl. intros c r [Hcin|Hcin]%elem_of_app [Hrin|Hrin]%elem_of_app Hatt Hep; [by eapply H6| | |];
      exfalso; apply HP; rewrite <- Hep; eauto.
Qed.

Lemma conflict_coverage P s writer r existing reason db old c db' : receipts_inv db old →
  lg_events db = (old ++ [event_of s writer r])%list → text_of "kind" (ob_payload r) = "attempt.receipt" →
  conflict sha256 any_order s r existing reason db = (Ok c, db') → coverage_ok P db → coverage_ok P db'.
Proof.
  intros Hinv Hev Hk H Hco. unfold conflict, eff_bind in H. simpl in H.
  destruct (existsb _ _); [done|]. set (row := mkConflictRow _ _ _ _ _) in H.
  set (db1 := set_conflicts _ db) in H.
  assert (add_rows [] [] [row] db = db1) as Hdb1 by (destruct db; unfold add_rows, db1; simpl; by rewrite !app_nil_r).
  assert (receipts_inv db1 (lg_events db1)) as Hinv1.
  { unfold db1 at 2. simpl. rewrite Hev, <- Hdb1. by apply add_conflict_inv. }
  assert (∀ Q : string → Prop, (∀ x, P x → Q x) →
    (∀ x, x ∈ lg_receipts db → rr_attempt_id x = existing → Q (rr_epoch_id x)) → coverage_ok Q db1) as Hadd.
  { intros Q HPQ HQ. rewrite <- Hdb1. apply add_rows_coverage; [by eapply coverage_weaken|by intros x ?%not_elem_of_nil|].
    intros y x Hy%list_elem_of_singleton Hx. subst y. by apply HQ. }
  clearbody db1. clear Hdb1.
  destruct (head (filter (λ x, rr_attempt_id x = existing) (lg_receipts db))) as [owner|] eqn:Hh.
  - assert (coverage_ok (λ x, P x ∨ x = rr_epoch_id owner) db1) as Hc1.
    { apply Hadd; [auto|]. intros x Hx Hatt. right. apply head_filter in Hh as [Ho Hoa].
      f_equal. eapply (NoDup_fmap_elem rr_attempt_id (lg_receipts db)); try done; [|congruence].
      pose proof (ri_attempts _ _ Hinv) as Hn. by apply NoDup_app in Hn as (? & _ & _). }
    destruct (String.eqb_spec (rr_epoch_id owner) "") as [Hnil|].
    + unfold eff_ret in H. simplify_eq. rewrite Hnil in Hc1. by apply coverage_empty.
    + destruct (certify _ _ _ db1) as [[]] eqn:Ec; unfold eff_ret in H; simplify_eq. by eapply certify_coverage.
  - unfold eff_ret in H. simplify_eq. apply Hadd; [done|]. intros x Hx Hatt. by apply (head_filter_None _ _ x) in Hh.
Qed.

Lemma project_receipt_coverage P s writer r db old c db' : receipts_inv db old →
  lg_events db = (old ++ [event_of s writer r])%list → text_of "kind" (ob_payload r) = "attempt.receipt" →
  P (text_of "epoch_id" (ob_payload r)) →
  project_receipt sha256 any_order s r db = (Ok c, db') → coverage_ok P db → coverage_ok P db'.
Proof.
  intros Hinv Hev Hk HP H Hco. unfold project_receipt in H.
  assert (∀ existing reason, conflict sha256 any_order s r existing reason db = (Ok c, db') → coverage_ok P db') as Hconf
    by (intros; by eapply (conflict_coverage P s writer)).
  destruct (aliased _ db) as [[a canonical]|]; [case_match; [by simplify_eq|by eapply Hconf]|].
  destruct (receipt_free _ db).
  { simplify_eq. replace (set_receipts _ db) with (add_rows [receipt_row s r] [] [] db)
      by (destruct db; unfold add_rows; simpl; by rewrite !app_nil_r).
    apply add_rows_coverage; [done| |by intros y x ?%not_elem_of_nil].
    intros x Hx%list_elem_of_singleton. by subst. }
  destruct (head _); [case_match; [by simplify_eq|by eapply Hconf]|].
  destruct (head _) as [owner|]; [|done]. case_match; [|by eapply Hconf]. case_match; [done|]. simplify_eq.
  set (a := mkAliasRow _ _ _ _).
  replace (set_aliases _ db) with (add_rows [] [a] [] db) by (destruct db; unfold add_rows; simpl; by rewrite !app_nil_r).
  apply add_rows_coverage; [done|by intros x ?%not_elem_of_nil|by intros y x ?%not_elem_of_nil].
Qed.

(** What changes the rows of the coverage, and not its facts. *)
Lemma epochs_coverage P db m : coverage_ok P db →
  (∀ e row', m !! e = Some row' → cv_state row' = CvComplete →
     ∃ row, lg_epochs db !! e = Some row ∧ cv_state row = CvComplete ∧ cv_stream_id row' = cv_stream_id row ∧
       (is_Some (cv_close_sequence row) → is_Some (cv_close_sequence row')) ∧
       (¬ P e → cv_close_sequence row' = cv_close_sequence row ∧
                (is_Some (cv_begin_sequence row) → is_Some (cv_begin_sequence row')))) →
  coverage_ok P (set_epochs m db).
Proof.
  intros [Hcl Hco] Hm. constructor; simpl; intros e row' He Hs.
  - destruct (Hm e row' He Hs) as (row & Hr & Hc & _ & Hcs & _). apply Hcs. by eapply Hcl.
  - intros Hne HP. destruct (Hm e row' He Hs) as (row & Hr & Hc & Est & _ & Hno). destruct (Hno HP) as [Ecl Hb].
    pose proof (Hco e row Hr Hc Hne HP) as Hcov. apply (covered_same db _ _ row); try done. apply Hb, Hcov.
Qed.

Lemma upsert_begin_coverage P e0 s turn n db : coverage_ok P db → coverage_ok P (upsert_begin e0 s turn n db).
Proof.
  intros Hco. apply epochs_coverage; [done|]. intros e row'. destruct (decide (e = e0)) as [->|Hne].
  - rewrite lookup_insert_eq. intros [= <-]. destruct (lg_epochs db !! e0) as [row|] eqn:Er; [|done]. simpl. intros Hs.
    exists row. by split_and!.
  - rewrite lookup_insert_ne by done. intros Hr Hs. exists row'. by split_and!.
Qed.

(** A close leaves only its own epoch to certify. *)
Lemma upsert_close_coverage (P : string → Prop) e0 s turn n db : coverage_ok P db →
  coverage_ok (λ x, P x ∨ x = e0) (upsert_close e0 s turn n db).
Proof.
  intros Hco. apply epochs_coverage; [by eapply coverage_weaken; [|exact Hco]; auto|]. intros e row'.
  destruct (decide (e = e0)) as [->|Hne].
  - rewrite lookup_insert_eq. intros [= <-]. destruct (lg_epochs db !! e0) as [row|] eqn:Er; [|done]. simpl. intros Hs.
    exists row. split_and!; try done. tauto.
  - rewrite lookup_insert_ne by done. intros Hr Hs. exists row'. by split_and!.
Qed.

Lemma project_coverage s writer r db old c db' : receipts_inv db old →
  (∀ e, e ∈ old → event_at s (ob_sequence r) e = false) → lg_events db = (old ++ [event_of s writer r])%list →
  coverage_ok (concerns (event_of s writer r)) db →
  project sha256 any_order s r db = (Ok c, db') → coverage_ok (λ _, False) db'.
Proof.
  intros Hinv Hnew Hev Hco H. unfold project in H. set (ev := event_of s writer r) in *.
  set (kind := text_of "kind" (ob_payload r)) in *. set (e0 := text_of "epoch_id" (ob_payload r)) in *.
  destruct (String.eqb_spec kind "attempt.receipt") as [Hk|Hk].
  { pose proof (project_receipt_inv sha256 any_order s writer r db old Hinv Hnew Hk) as Hp. unfold eff_bind in H.
    destruct (project_receipt _ _ _ _ db) as [[c1|] db1] eqn:Epr; [|done]. destruct Hp as (P1 & _ & _ & P4).
    apply (project_receipt_coverage (λ x, False ∨ x = e0) s writer _ _ old) in Epr; [|done..|by right|].
    2:{ eapply coverage_weaken; [|exact Hco]. intros x [_ Hx]. right. simpl in Hx. unfold e0, text_of. by rewrite Hx. }
    destruct (certify _ _ e0 db1) as [[]] eqn:Ec; unfold eff_ret in H; simplify_eq.
    eapply certify_coverage; [done| |done]. simpl in P1, P4. rewrite P1, Hev. exact P4. }
  assert (receipts_inv db (lg_events db)) as Hinv1 by (rewrite Hev; by apply receipts_inv_other).
  destruct (String.eqb_spec kind "integrity.failure") as [Hi|Hi].
  { unfold eff_bind in H. destruct (string_field "epoch_id" (ob_payload r)) as [e1|] eqn:Ee.
    - assert (coverage_ok (λ x, False ∨ x = e1) db) as Hco1.
      { eapply coverage_weaken; [|exact Hco]. intros x [_ Hx]. right. simpl in Hx. congruence. }
      destruct e1 as [|ch e1].
      + unfold eff_ret in H. simplify_eq. by apply coverage_empty.
      + destruct (certify _ _ _ db) as [[]] eqn:Ec; unfold eff_ret in H; simplify_eq. by eapply certify_coverage.
    - unfold eff_ret in H. simplify_eq. eapply coverage_weaken; [|exact Hco]. intros x [_ Hx]. simpl in Hx. congruence. }
  assert (coverage_ok (λ _, False) db) as Hco1.
  { eapply coverage_weaken; [|exact Hco]. intros x [[Hx|Hx] _]; [by destruct (Hk Hx)|by destruct (Hi Hx)]. }
  clear Hco. destruct (bool_decide _).
  { simplify_eq. unfold add_snapshot. case_match; [done|]. destruct Hco1 as [Hcl Hc1]. constructor; [done|].
    intros e row He Hs Hne HF. pose proof (Hc1 e row He Hs Hne HF) as Hcov. apply (covered_same db _ _ row); try done. apply Hcov. }
  destruct (_ || _).
  { unfold eff_bind in H. destruct (recertify_for _ _ _ db) as [[]] eqn:Ec; unfold eff_ret in H; simplify_eq.
    unfold recertify_for in Ec. by eapply certify_all_coverage. }
  destruct (String.eqb kind "epoch.begin").
  { simplify_eq. by apply upsert_begin_coverage. }
  destruct (String.eqb kind "epoch.close").
  { unfold eff_bind in H. destruct (certify _ _ e0 _) as [[]] eqn:Ec; unfold eff_ret in H; simplify_eq.
    eapply certify_coverage; [exact Ec|by apply receipts_inv_kept with db; [apply insert_epoch_kept|]|].
    by apply upsert_close_coverage. }
  destruct (String.eqb kind GAP_KIND); [|unfold eff_ret in H; by simplify_eq].
  simplify_eq. apply epochs_coverage; [done|]. intros e row'. rewrite lookup_fmap.
  destruct (lg_epochs db !! e) as [row|]; simpl; [|done]. intros [= <-] Hs. exists row. case_match; simpl in Hs; [done|]. by split_and!.
Qed.

(** ** Histories *)

Lemma insert_records_coverage s writer records : ∀ base conflicts db x db',
  ingesting db s writer base → Forall (λ r, 1 ≤ ob_sequence r) records → coverage_ok (λ _, False) db →
  insert_records sha256 any_order s writer base conflicts records db = (Ok x, db') → coverage_ok (λ _, False) db'.
Proof.
  induction records as [|r records IH]; intros base conflicts db x db' H Hone Hco Hrun; [simpl in Hrun; by run_eff|].
  apply Forall_cons in Hone as [Hr Hone].
  apply insert_record_step in Hrun as [(c & db2 & Hf & Hpr & Hp & H2 & _ & Hrun)|(e & ? & ?)]; [|done..].
  eapply IH; [done|done| |exact Hrun].
  eapply (project_coverage s writer r (set_events (lg_events db ++ [event_of s writer r])%list db) (lg_events db));
    [| |reflexivity| |exact Hpr].
  - by apply receipts_inv_events, (in_receipts _ _ _ _ H).
  - by eapply follows_new.
  - eapply coverage_weaken; [|apply (insert_coverage (λ _, False) db (event_of s writer r)); [done|]].
    { by intros e [?|?]. }
    intros y Hy Hs. simpl in *. apply follows_after in Hf. pose proof (ingesting_below _ _ _ _ _ H Hy Hs). lia.
Qed.

Lemma project_gap_coverage P s first last prior db : coverage_ok P db → coverage_ok P (project_gap s first last prior db).
Proof.
  intros Hco. unfold project_gap. case_match eqn:Hno; [done|]. apply epochs_coverage; [done|]. intros e row'.
  destruct (decide (e = "unavailable:" +:+ s +:+ ":" +:+ span_text first last)) as [->|Hne].
  - rewrite lookup_insert_eq. by intros [= <-].
  - rewrite lookup_insert_ne by done. intros Hr Hs. exists row'. by split_and!.
Qed.

Lemma ingest_batch_coverage instance b db x db' : ledger_inv db → batch_ok b → coverage_ok (λ _, False) db →
  ingest_batch sha256 any_order instance b db = (Ok x, db') → coverage_ok (λ _, False) db'.
Proof.
  intros Hinv Hb Hco H. unfold ingest_batch in H. set (s := cb_stream_id b) in *.
  destruct (match lg_cursors db !! s with Some c => negb (String.eqb (cu_writer c) (cb_writer b)) | None => false end) eqn:Hwr; [done|].
  assert (match lg_cursors db !! s with Some c => cu_writer c = cb_writer b | None => True end) as Hw.
  { destruct (lg_cursors db !! s); [|done]. apply negb_false_iff in Hwr. by apply String.eqb_eq. }
  unfold eff_bind at 1 in H. destruct (ingest_base b db) as [start db1] eqn:Hbase.
  assert (coverage_ok (λ _, False) db1) as Hco1.
  { unfold ingest_base in Hbase. repeat case_match; simplify_eq; try done; by apply project_gap_coverage. }
  apply ingest_base_ok in Hbase; [|done..]. destruct start as [[[base records] replayed]|]; [|done].
  destruct Hbase as (Hing & _ & _ & Hrec & _).
  unfold eff_bind at 1 in H. destruct (insert_records sha256 any_order s (cb_writer b) base 0 records db1) as [done_ db2] eqn:Hins.
  destruct done_ as [[base' conflicts]|]; [|done].
  apply insert_records_coverage in Hins; [|done| |done].
  2:{ subst records. apply Forall_drop. eapply Forall_impl; [apply (bo_each _ Hb)|]. naive_solver. }
  destruct (base'.1 =? 0); [by run_eff|]. unfold eff_bind, eff_ret in H. injection H as _ <-.
  destruct (_ || _); [|done]. destruct Hins as [Hcl Hc]. constructor; [done|]. intros e row He Hs Hne HF.
  pose proof (Hc e row He Hs Hne HF) as Hcov. apply (covered_same db2 _ _ row); try done. apply Hcov.
Qed.

(** C17: an epoch that reads as complete is covered by what is stored now. After any
    batches of any streams: its begin and its close are stored, the close says the host
    was complete with no invocation pending, the identity parts before it are all there
    and bound by its digest, and the receipts stored for the epoch are exactly the ones
    those parts name; each is a charge or an alias of one; none came late, no integrity
    failure is stored for it, and none of its charges is in conflict. So a late or
    contradicting record, of whichever stream, has downgraded the epoch when its batch
    was acknowledged. *)
Theorem complete_epochs_covered instance unicode_digit batches e row :
  Forall (λ x, received sha256 unicode_digit x.1) batches →
  let db := ledger_run sha256 any_order instance batches empty_ledger in
  lg_epochs db !! e = Some row → cv_state row = CvComplete → e ≠ "" → covered db e row.
Proof.
  intros Hbs db He Hs Hne. assert (ledger_inv db ∧ coverage_ok (λ _, False) db) as [_ [_ Hco]]; [|by apply Hco; auto].
  subst db. clear He. assert (ledger_inv empty_ledger ∧ coverage_ok (λ _, False) empty_ledger) as Hempty
    by (split; [apply empty_ledger_inv|by constructor]).
  revert Hempty. generalize empty_ledger. induction Hbs as [|[b fate] batches Hb _ IH]; intros db [Hinv Hco]; [done|].
  simpl. apply IH. split; [by apply ingest_inv, (received_ok sha256 unicode_digit)|]. unfold ingest.
  destruct (ingest_batch sha256 any_order instance b db) as [[r|x] db'] eqn:Hi; [|by destruct fate].
  apply ingest_batch_coverage in Hi; [|done|by apply (received_ok sha256 unicode_digit)|done]. by destruct fate.
Qed.
End coverage.

(** * A turn, its physical evidence and what comes after *)

From S2P Require Import OutboxQueue.

(** The records of a stream, framed one after another. *)
Fixpoint frame_all (sid : string) (n : Z) (prev : string) (ids : list string) (payloads : list (odict string json)) : list OutboxRecord :=
  match payloads, ids with
  | p :: payloads, i :: ids =>
      match frame checksum_hex sid n prev p i with
      | Some r => r :: frame_all sid (n + 1) (ob_digest r) ids payloads
      | None => []
      end
  | _, _ => []
  end.

Definition turn_epoch : string := example_id "b".
Definition turn_summary : TurnCostSummary := mkTurnCostSummary "s:1" 250000 [] ["a1"] 0 0.
Definition turn_parts := identity_parts checksum_hex turn_epoch turn_summary.
Definition turn_records : list CaptureRecord :=
  ([StreamStart; EpochBegin turn_epoch "s:1" (Some "s"); InvocationOpen turn_epoch (example_id "c");
    AttemptIntent turn_epoch "a1" "answer" "agent.answer" None;
    AttemptReceipt turn_epoch false "agent.answer" example_settled; InvocationEnd (Some turn_epoch) (example_id "c") "ended"] ++
   turn_parts.1 ++
   [EpochClose turn_epoch "s:1" 1 1 0 turn_parts.2 0 0 250000 1 0 0 true true;
    (* after the close, a straggler asks for another attempt that is never answered *)
    AttemptIntent turn_epoch "a2" "answer" "agent.answer" None])%list.
Definition id_of (c d : string) : string := c +:+ concat_all (replicate 31 d).
Definition hex_names : list string := ["1"; "2"; "3"; "4"; "5"; "6"; "7"; "8"; "9"].
Definition host_stream : list OutboxRecord :=
  frame_all (example_id "a") 1 GENESIS ((λ c, id_of c "0") <$> hex_names) (example_encode <$> turn_records).

Definition gateway_intent : odict string json :=
  [("kind", JString "gateway.attempt.intent"); ("at", JString (example_time 0)); ("gateway_request_id", JString "g1");
   ("host_request_id", JString "a1"); ("attempt", int_json 1); ("route", JNull)].
Definition gateway_outcome : odict string json :=
  [("kind", JString "gateway.attempt.outcome"); ("at", JString (example_time 0)); ("gateway_request_id", JString "g1");
   ("attempt", int_json 1); ("outcome", JString "completed"); ("http_status", int_json 200); ("cost_usd", JNull);
   ("billing_units", JNull); ("intent_confirmed", JBool true)].
Definition gateway_stream : list OutboxRecord :=
  frame_all (example_id "d") 1 GENESIS ((λ c, id_of c "1") <$> hex_names) [gateway_intent; gateway_outcome].

Definition batch_of (writer sid : string) (after : Z * string) (records : list OutboxRecord) : CaptureBatch :=
  mkCaptureBatch writer sid None after.1 after.2 records.
Definition turn_batch : CaptureBatch := batch_of "host" (example_id "a") (0, GENESIS) (take 8 host_stream).
Definition gateway_batch : CaptureBatch := batch_of "gateway" (example_id "d") (0, GENESIS) gateway_stream.
Definition straggler_batch : CaptureBatch :=
  batch_of "host" (example_id "a") (8, default GENESIS (ob_digest <$> host_stream !! 7%nat)) (drop 8 host_stream).

Definition turn_ledger : Ledger :=
  ledger_run checksum_hex id (example_id "e") [(turn_batch, Runs); (gateway_batch, LostAfter); (gateway_batch, Runs)] empty_ledger.

Lemma turn_batch_received : received checksum_hex ascii_digit turn_batch.
Proof. exists (build_batch "host" (example_id "a") None 0 GENESIS (take 8 host_stream)). vm_compute. reflexivity. Qed.
Lemma gateway_batch_received : received checksum_hex ascii_digit gateway_batch.
Proof. exists (build_batch "gateway" (example_id "d") None 0 GENESIS gateway_stream). vm_compute. reflexivity. Qed.
Lemma turn_batches_received : Forall (λ x, received checksum_hex ascii_digit x.1)
  [(turn_batch, Runs); (gateway_batch, LostAfter); (gateway_batch, Runs)].
Proof. repeat constructor; first [apply turn_batch_received|apply gateway_batch_received]. Qed.

Lemma ledger_stream_exact_witness :
  ∃ result db, ingest checksum_hex id (example_id "e") turn_batch Runs empty_ledger = (Ok result, db) ∧
    ca_sequence (ir_ack result) = 8 ∧ ir_inserted result = 8%nat ∧
    ∃ again, ingest checksum_hex id (example_id "e") turn_batch Runs db = (Ok again, db) ∧ ir_inserted again = 0%nat.
Proof.
  pose proof (ledger_stream_exact checksum_hex id (example_id "e") ascii_digit [] turn_batch Runs [] (Forall_nil_2 _)
    turn_batch_received (Forall_nil_2 _)) as [_ H].
  change (ledger_run checksum_hex id (example_id "e") [] empty_ledger) with empty_ledger in H.
  destruct (ingest checksum_hex id (example_id "e") turn_batch Runs empty_ledger) as [[result|e] db] eqn:E.
  - exists result, db. split; [done|]. destruct H as [_ H].
    assert (ca_sequence (ir_ack result) = 8 ∧ ir_inserted result = 8%nat) as [H1 H2]; [|by split_and!].
    revert E. vm_compute. intros [= <- _]. done.
  - exfalso. revert E. vm_compute. discriminate.
Defined.

Lemma ledger_charges_once_witness :
  length (lg_receipts turn_ledger) = 1%nat ∧ NoDup (omap rr_gateway_request_id (lg_receipts turn_ledger)).
Proof.
  split; [vm_compute; reflexivity|].
  apply (ledger_charges_once checksum_hex id (example_id "e") ascii_digit _ turn_batches_received).
Defined.

Lemma complete_epochs_covered_witness : ∃ row, lg_epochs turn_ledger !! turn_epoch = Some row ∧ covered checksum_hex id turn_ledger turn_epoch row.
Proof.
  destruct (lg_epochs turn_ledger !! turn_epoch) as [row|] eqn:E; [|exfalso; revert E; vm_compute; discriminate].
  exists row. split; [done|].
  refine (complete_epochs_covered checksum_hex id (λ l, reflexivity _) (example_id "e") ascii_digit _ turn_epoch row
    turn_batches_received E _ _).
  - revert E. vm_compute. by intros [= <-].
  - vm_compute. discriminate.
Defined.

(** An attempt that is asked for after its epoch was closed and is never answered need
    not show. Its intent is stored and acknowledged, but the projection of an intent
    certifies nothing: the epoch still reads as complete, although its own certification
    would now find an intent without a receipt and without physical evidence. *)
Example straggler_intent_unnoticed :
  let db := ledger_run checksum_hex id (example_id "e") [(straggler_batch, Runs)] turn_ledger in
  is_ok (ingest checksum_hex id (example_id "e") straggler_batch Runs turn_ledger).1 = true ∧
  cv_state <$> lg_epochs db !! turn_epoch = Some CvComplete ∧
  epoch_reasons checksum_hex id turn_epoch (example_id "a") (Some 2) 8 db =
    Ok ["intent_without_receipt"; "physical_evidence_missing"].
Proof. vm_compute. repeat split. Qed.
