(* ===== verification/Drain.v ===== *)
(** The delivery of outbox streams to the ledger: [optimus_security/outbox_drain.py], the
    host's send over HTTP ([optimus/usage/capture_delivery.py]) with the Gateway's route
    for it, and the Gateway's own send ([optimus_gateway/usage_capture.py]).

    A pass reads each stream, sends what is not acknowledged in bounded batches, stores
    the acknowledgement of each and deletes what it covers. The pass is written against
    any send; [SendLaws] says what it relies on, and both sends are instances over
    [Ledger]. What the network, the database and the disk do is in the arguments: a
    request or its reply may be lost, a transaction may be lost, an acknowledgement may
    land in part, and the stream's own writer goes on while a pass reads its stream.

    Not modelled: the thread that runs the passes and its waits, errors of [unlink] and
    of reading a file, and the negotiation of report capabilities. *)
From stdpp Require Import sorting pretty.
From S2P Require Import Prelude Text Json JsonLoads Settlement Outbox Capture UsageContract Ledger.

Local Open Scope string_scope.
Local Open Scope Z_scope.

(** * Passes *)

(** What a pass can raise: a stop of one stream, an error of the outbox, or another
    exception of the send. *)
Inductive DrainError :=
| DrainStop (reason : string) (transient : bool)
| DrainOutbox (e : OutboxError)
| DrainRaised (what : string).

Definition MAX_ATTEMPTS : nat := 3.
Definition BATCH_BUDGET : N := (MAX_BODY_BYTES - 4096)%N.
Definition WARN_PENDING_BYTES : Z := 256 * 1024 * 1024.

(** A [datetime], with or without its offset from UTC. *)
Record PyTime := mkPyTime { tm_aware : bool; tm_at : timestamp }.

Record Backlog := mkBacklog {
  bl_pending_events : Z;
  bl_pending_bytes : Z;
  bl_damaged_bytes : Z;
  bl_oldest_pending_at : option PyTime;
  bl_local_watermark : Z;
  bl_committed_watermark : Z;
  bl_last_failure : option string;
  bl_free_bytes : option Z;
  bl_warnings : list string
}.
Definition empty_backlog : Backlog := mkBacklog 0 0 0 None 0 0 None None [].

Record DrainReport := mkDrainReport {
  dp_committed : Z;
  dp_compacted : Z;
  dp_pending_streams : Z;
  dp_failures : list string;
  dp_backlog : Backlog
}.
Definition empty_report : DrainReport := mkDrainReport 0 0 0 [] empty_backlog.

Definition report_committed (n : Z) (p : DrainReport) : DrainReport :=
  mkDrainReport (dp_committed p + n) (dp_compacted p) (dp_pending_streams p) (dp_failures p) (dp_backlog p).
Definition report_compacted (n : nat) (p : DrainReport) : DrainReport :=
  mkDrainReport (dp_committed p) (dp_compacted p + Z.of_nat n) (dp_pending_streams p) (dp_failures p) (dp_backlog p).
Definition report_stop (reason : string) (p : DrainReport) : DrainReport :=
  mkDrainReport (dp_committed p) (dp_compacted p) (dp_pending_streams p + 1) (dp_failures p ++ [reason])%list (dp_backlog p).
Definition report_backlog (b : Backlog) (p : DrainReport) : DrainReport :=
  mkDrainReport (dp_committed p) (dp_compacted p) (dp_pending_streams p) (dp_failures p) b.

(** What a record takes of a batch: its line as a JSON text, and a separator. *)
Definition line_cost (r : OutboxRecord) : N := (N.of_nat (String.length (json_ascii_string (ob_line r))) + 2)%N.

(** [batches], with the batch that is being filled and its size. *)
Fixpoint batches_from (batch : list OutboxRecord) (size : N) (records : list OutboxRecord) : list (list OutboxRecord) :=
  match records with
  | [] => if bool_decide (batch = []) then [] else [batch]
  | r :: rest =>
      if negb (bool_decide (batch = [])) &&
         ((MAX_RECORDS <=? length batch)%nat || (BATCH_BUDGET <? size + line_cost r)%N)
      then batch :: batches_from [r] (line_cost r) rest
      else batches_from (batch ++ [r])%list (size + line_cost r)%N rest
  end.
Definition batches (records : list OutboxRecord) : list (list OutboxRecord) := batches_from [] 0 records.

Section drain.
Variable sha256 : string → string.

(** The ledger behind a send, and the send. *)
Context {G : Type}.
Variable send : string → option string → Z * string → list OutboxRecord → eff G DrainError CaptureAck.

Definition names (batch : list OutboxRecord) (withheld : option OutboxRecord) (ack : CaptureAck) : bool :=
  existsb (λ r, (ob_sequence r =? ca_sequence ack) && String.eqb (ob_digest r) (ca_digest ack))
    (option_list (last batch) ++ option_list withheld)%list.

(** [_committed]: [attempts] are left, and [last] is the last transient failure. *)
Fixpoint committed_loop (attempts : nat) (last_reason stream_id : string) (ledger : option string) (after : Z * string)
    (batch : list OutboxRecord) (withheld : option OutboxRecord) : eff G DrainError CaptureAck := λ g,
  match attempts with
  | O => (Err (DrainStop last_reason false), g)
  | S attempts =>
      match send stream_id ledger after batch g with
      | (Err (DrainStop reason true), g') => committed_loop attempts reason stream_id ledger after batch withheld g'
      | (Err e, g') => (Err e, g')
      | (Ok ack, g') =>
          if negb (String.eqb (ca_stream_id ack) stream_id) || negb (names batch withheld ack)
          then (Err (DrainStop "ack_mismatch" false), g')
          else (Ok ack, g')
      end
  end.
Definition committed (stream_id : string) (ledger : option string) (after : Z * string) (batch : list OutboxRecord)
    (withheld : option OutboxRecord) : eff G DrainError CaptureAck :=
  committed_loop MAX_ATTEMPTS "unsent" stream_id ledger after batch withheld.

(** The stream's directory, the ledger and the report of a pass. *)
Record Delivery := mkDelivery {
  dl_dir : StreamDir;
  dl_ledger : G;
  dl_report : DrainReport
}.
Abbreviation delivering A := (eff Delivery DrainError A).

(** What the disk does to the acknowledgement of a sequence: its event id, and how many
    bytes land when its write fails. *)
Definition AckIo : Type := Z → string * option nat.

Definition compact_stream (scan : StreamScan) (ledger : string) (active : option string) : delivering unit := λ d,
  let '(deleted, dir) := compact sha256 (dl_dir d) scan ledger active in
  (Ok tt, mkDelivery dir (dl_ledger d) (report_compacted (length deleted) (dl_report d))).

(** One batch of [_deliver]: the acknowledgement that was committed. *)
Definition deliver_batch (scan : StreamScan) (active : option string) (io : AckIo) (after : Z * string)
    (ledger : option string) (batch : list OutboxRecord) : delivering CaptureAck := λ d,
  match committed (sd_name (dl_dir d)) ledger after batch (ss_unverified_tail scan) (dl_ledger d) with
  | (Err e, g) => (Err e, mkDelivery (dl_dir d) g (dl_report d))
  | (Ok ack, g) =>
      let '(event_id, fault) := io (ca_sequence ack) in
      match write_ack sha256 (dl_dir d) scan (ca_ledger_instance ack) (ca_sequence ack) (ca_digest ack) event_id fault with
      | (Err e, dir) => (Err (DrainOutbox e), mkDelivery dir g (dl_report d))
      | (Ok written, dir) =>
          let report := if written : bool then report_committed (ca_sequence ack - after.1) (dl_report d) else dl_report d in
          (compact_stream scan (ca_ledger_instance ack) active ;;! eff_ret ack) (mkDelivery dir g report)
      end
  end.

Fixpoint deliver_batches (scan : StreamScan) (active : option string) (io : AckIo) (after : Z * string)
    (ledger : option string) (bs : list (list OutboxRecord)) : delivering unit :=
  match bs with
  | [] => eff_ret tt
  | batch :: rest =>
      let! ack := deliver_batch scan active io after ledger batch in
      deliver_batches scan active io (ca_sequence ack, ca_digest ack) (Some (ca_ledger_instance ack)) rest
  end.

(** [_deliver]. *)
Definition deliver (scan : StreamScan) (bound : Z) (active : option string) (io : AckIo) : delivering unit := λ d,
  let ack := read_ack sha256 (dl_dir d) in
  let after := match ack with Some a => (ak_sequence a, ak_digest a) | None => (0, GENESIS) end in
  let ledger := ak_ledger_instance <$> ack in
  let pending := filter (λ r, after.1 < ob_sequence r ∧ ob_sequence r ≤ bound) (ss_records scan) in
  match pending, ledger with
  | [], Some l => compact_stream scan l active d
  | _, _ => deliver_batches scan active io after ledger (batches pending) d
  end.

(** ** The backlog *)

(** [datetime.fromisoformat(str(value))], [None] where it raises, and [isoformat]. *)
Variable time_of : json → option PyTime.
Variable isoformat : PyTime → string.

Definition add_damage (dir : StreamDir) (b : Backlog) (d : Damage) : Backlog :=
  match list_find (λ f : string * string, f.1 = dm_segment d) (sd_segments dir) with
  | Some (_, (_, data)) =>
      mkBacklog (bl_pending_events b) (bl_pending_bytes b)
        (bl_damaged_bytes b + Z.max 0 (Z.of_nat (String.length data) - Z.of_nat (dm_offset d)))
        (bl_oldest_pending_at b) (bl_local_watermark b) (bl_committed_watermark b) (bl_last_failure b)
        (bl_free_bytes b) (bl_warnings b)
  | None => b
  end.

(** [at < oldest] of two times, which raises when only one has an offset. *)
Definition older (at_ : PyTime) (oldest : option PyTime) : bool :=
  match oldest with
  | None => true
  | Some o => Bool.eqb (tm_aware at_) (tm_aware o) && (tm_at at_ <? tm_at o)
  end.

Definition add_pending (b : Backlog) (r : OutboxRecord) : Backlog :=
  let at_ := match od_get "at" (ob_payload r) with Some v => time_of v | None => None end in
  mkBacklog (bl_pending_events b + 1) (bl_pending_bytes b + Z.of_nat (String.length (ob_line r)) + 1) (bl_damaged_bytes b)
    (match at_ with
     | Some t => if older t (bl_oldest_pending_at b) then Some t else bl_oldest_pending_at b
     | None => bl_oldest_pending_at b
     end) (bl_local_watermark b) (bl_committed_watermark b) (bl_last_failure b) (bl_free_bytes b) (bl_warnings b).

Definition set_watermarks (l c : Z) (b : Backlog) : Backlog :=
  mkBacklog (bl_pending_events b) (bl_pending_bytes b) (bl_damaged_bytes b) (bl_oldest_pending_at b) l c
    (bl_last_failure b) (bl_free_bytes b) (bl_warnings b).

Definition acknowledged_of (dir : StreamDir) : Z :=
  match read_ack sha256 dir with Some a => ak_sequence a | None => 0 end.

(** [_count]; [own] is the confirmed sequence of the writer when the stream is its own. *)
Definition count_backlog (dir : StreamDir) (scan : StreamScan) (own : option Z) (b : Backlog) : Backlog :=
  let acknowledged := acknowledged_of dir in
  let b := foldl (add_damage dir) b (ss_damage scan) in
  let b := foldl add_pending b (filter (λ r, acknowledged < ob_sequence r) (held scan)) in
  match own with Some confirmed => set_watermarks confirmed acknowledged b | None => b end.

(** ** A pass over every stream *)

(** The answer of [claim]. *)
Inductive Claim := Claimed | HeldElsewhere | LockFailed (message : string).

(** What happens around one stream in a pass: whether its lock can be had, what the
    stream's own writer does after the scan until its statistics are read and until its
    open segment is read, and the acknowledgements' writes. *)
Record StreamTurn := mkStreamTurn {
  tn_claim : Claim;
  tn_before_stats : list outbox_call;
  tn_before_active : list outbox_call;
  tn_io : AckIo
}.

(** The drain's writer, what it remembers between passes, and what it told [warn]. *)
Record DrainState := mkDrainState {
  dr_streams : list StreamDir;
  dr_writer : StreamWriter;
  dr_ledger : G;
  dr_last_failure : option string;
  dr_crossed : list string;
  dr_warned : list string;
  dr_last_report : DrainReport
}.

Definition writer_runs (calls : list outbox_call) (s : StreamWriter * StreamDir) : StreamWriter * StreamDir :=
  (foldl (run_call sha256) (s.1, s.2, []) calls).1.

(** [_readable]: the scan, how far it may be sent and the segment that must stay; [None] when
    another process writes the stream. *)
Definition readable (turn : StreamTurn) (w : StreamWriter) (dir : StreamDir)
    : res DrainError (option (StreamScan * Z * option string)) * (StreamWriter * StreamDir) :=
  if String.eqb (sd_name dir) (sw_stream_id w) then
    let scan := scan_stream sha256 dir false in
    let '(w1, dir1) := writer_runs (tn_before_stats turn) (w, dir) in
    let '(w2, dir2) := writer_runs (tn_before_active turn) (w1, dir1) in
    (Ok (Some (scan, sw_confirmed w1, active_segment w2)), (w2, dir2))
  else match tn_claim turn with
  | HeldElsewhere => (Ok None, (w, dir))
  | LockFailed message => (Err (DrainOutbox (mkOutboxError "LOCK_FAILED" message)), (w, dir))
  | Claimed => let scan := scan_stream sha256 dir true in (Ok (Some (scan, verified_sequence scan, None)), (w, dir))
  end.

(** The body of [drain_once]'s loop. *)
Definition drain_stream (turn : StreamTurn) (w : StreamWriter) (d : Delivery)
    : res DrainError unit * (StreamWriter * Delivery) :=
  match readable turn w (dl_dir d) with
  | (Err e, (w', dir)) => (Err e, (w', mkDelivery dir (dl_ledger d) (dl_report d)))
  | (Ok None, (w', dir)) => (Ok tt, (w', mkDelivery dir (dl_ledger d) (dl_report d)))
  | (Ok (Some (scan, bound, active)), (w', dir)) =>
      let '(r, d') := deliver scan bound active (tn_io turn) (mkDelivery dir (dl_ledger d) (dl_report d)) in
      let own := if String.eqb (sd_name dir) (sw_stream_id w') then Some (sw_confirmed w') else None in
      let counted report := report_backlog (count_backlog (dl_dir d') scan own (dp_backlog report)) report in
      match r with
      | Ok _ => (Ok tt, (w', mkDelivery (dl_dir d') (dl_ledger d') (counted (dl_report d'))))
      | Err (DrainStop reason _) =>
          (Ok tt, (w', mkDelivery (dl_dir d') (dl_ledger d') (counted (report_stop reason (dl_report d')))))
      | Err e => (Err e, (w', d'))
      end
  end.

Fixpoint drain_streams (turns : string → StreamTurn) (dirs : list StreamDir) (w : StreamWriter) (g : G) (report : DrainReport)
    : res DrainError unit * (list StreamDir * StreamWriter * G * DrainReport) :=
  match dirs with
  | [] => (Ok tt, ([], w, g, report))
  | dir :: rest =>
      match drain_stream (turns (sd_name dir)) w (mkDelivery dir g report) with
      | (Err e, (w', d)) => (Err e, (dl_dir d :: rest, w', dl_ledger d, dl_report d))
      | (Ok _, (w', d)) =>
          let '(r, (rest', w'', g', report')) := drain_streams turns rest w' (dl_ledger d) (dl_report d) in
          (r, (dl_dir d :: rest', w'', g', report'))
      end
  end.

(** The settings of a drain, and what the clock and the disk say when a pass ends. *)
Record DrainConfig := mkDrainConfig {
  dc_name : string;
  dc_warn_bytes : Z;
  dc_warn_age : Z;
  dc_warns : bool
}.

Definition or_none (s : option string) : string := default "None" s.

(** The facts of a warning. *)
Definition backlog_facts (b : Backlog) : string :=
  "events=" +:+ json_int (bl_pending_events b) +:+ " bytes=" +:+ json_int (bl_pending_bytes b) +:+
  " damaged=" +:+ json_int (bl_damaged_bytes b) +:+ " oldest=" +:+ or_none (isoformat <$> bl_oldest_pending_at b) +:+
  " last_failure=" +:+ or_none (bl_last_failure b).

Definition above_text (cfg : DrainConfig) (b : Backlog) (n : string) : string :=
  dc_name cfg +:+ ": capture backlog above its " +:+ n +:+ " threshold (" +:+ backlog_facts b +:+
  "); nothing pending is deleted.".
Definition below_text (cfg : DrainConfig) (b : Backlog) (n : string) : string :=
  dc_name cfg +:+ ": capture backlog back below its " +:+ n +:+ " threshold (" +:+ backlog_facts b +:+ ").".
Definition warnings (cfg : DrainConfig) (b : Backlog) (crossed before : list string) : list string :=
  ((above_text cfg b <$> filter (λ n, n ∉ before) crossed) ++ (below_text cfg b <$> filter (λ n, n ∉ crossed) before))%list.

(** [_observe]: the report with its warnings, and what is told. The clock has an offset: a
    time without one cannot be subtracted from it. *)
Definition observe (cfg : DrainConfig) (now : timestamp) (free : option Z) (report : DrainReport)
    : eff DrainState DrainError DrainReport := λ s,
  let failure := match last (dp_failures report) with Some f => Some f | None => dr_last_failure s end in
  let b := dp_backlog report in
  if match bl_oldest_pending_at b with Some t => negb (tm_aware t) | None => false end
  then (Err (DrainRaised "TypeError"),
        mkDrainState (dr_streams s) (dr_writer s) (dr_ledger s) failure (dr_crossed s) (dr_warned s) (dr_last_report s))
  else
    let crossed :=
      (when (match bl_oldest_pending_at b with Some t => dc_warn_age cfg <=? now - tm_at t | None => false end) "pending_age" ++
       when (dc_warn_bytes cfg <=? bl_pending_bytes b) "pending_bytes")%list in
    let b := mkBacklog (bl_pending_events b) (bl_pending_bytes b) (bl_damaged_bytes b) (bl_oldest_pending_at b)
               (bl_local_watermark b) (bl_committed_watermark b) failure free crossed in
    let report := report_backlog b report in
    let told := if dc_warns cfg then warnings cfg b crossed (dr_crossed s) else [] in
    (Ok report, mkDrainState (dr_streams s) (dr_writer s) (dr_ledger s) failure crossed (dr_warned s ++ told)%list report).

(** [drain_once]. A pass that raises keeps what it did and reports nothing. *)
Definition drain_once (cfg : DrainConfig) (turns : string → StreamTurn) (now : timestamp) (free : option Z)
    : eff DrainState DrainError DrainReport := λ s,
  let '(r, (dirs, w, g, report)) := drain_streams turns (dr_streams s) (dr_writer s) (dr_ledger s) empty_report in
  let s' := mkDrainState dirs w g (dr_last_failure s) (dr_crossed s) (dr_warned s) (dr_last_report s) in
  match r with
  | Err e => (Err e, s')
  | Ok _ => observe cfg now free report s'
  end.
End drain.

(** * The sends *)

(** [str.upper] of a code, which is ASCII. *)
Definition upper_char (c : Ascii.ascii) : Ascii.ascii :=
  let n := Ascii.N_of_ascii c in if ((97 <=? n) && (n <=? 122))%N then Ascii.ascii_of_N (n - 32) else c.
Fixpoint upper (s : string) : string :=
  match s with EmptyString => "" | String c s' => String (upper_char c) (upper s') end.

(** What becomes of a request: it is served and answered; it does not reach the Gateway; it
    is served and no answer comes back. *)
Inductive NetFate := Answered (fate : TransactionFate) | Unreached | ReplyLost (fate : TransactionFate).

Section sends.
Variable sha256 : string → string.
Variable any_order : list CaptureEvent → list CaptureEvent.
Variable instance : string.
Variable unicode_digit : string → bool.

(** [_direct_send], on the ledger and the fates of the transactions to come. *)
Definition direct_send (stream_id : string) (ledger : option string) (after : Z * string) (batch : list OutboxRecord)
    : eff (Ledger * list TransactionFate) DrainError CaptureAck := λ '(db, fates),
  match parse_batch sha256 unicode_digit (build_batch "gateway" stream_id ledger after.1 after.2 batch) with
  | Err (mkContractError code) => (Err (DrainStop ("invalid:" +:+ code) false), (db, fates))
  | Ok parsed =>
      let '(r, db') := ingest sha256 any_order instance parsed (default Runs (head fates)) db in
      (match r with
       | Ok result => Ok (ir_ack result)
       | Err (mkStoreError code _) => Err (DrainStop code (String.eqb code "unavailable"))
       | Err (StoreKeyError _) => Err (DrainRaised "KeyError")
       | Err (UniqueViolation _) => Err (DrainRaised "UniqueViolation")
       end, (db', tail fates))
  end.

(** [handle_usage_capture_request], of a request that is authorized or not, by a Gateway that
    has a store or not; an exception other than a [StoreError] leaves the request without
    an answer. *)
Definition handle_usage_capture_request (authorized stored : bool) (body : string) (fate : TransactionFate)
    : eff Ledger StoreError (Z * json) := λ db,
  if negb authorized then (Ok (401, JObject [("error", JString "unauthorized")]), db)
  else match parse_batch sha256 unicode_digit body with
  | Err (mkContractError code) =>
      (Ok (400, JObject [("status", JString "rejected"); ("code", JString ("CAPTURE_" +:+ upper code))]), db)
  | Ok batch =>
      if negb stored
      then (Ok (503, JObject [("status", JString "unavailable"); ("code", JString "ACCOUNTING_NOT_CONFIGURED");
                              ("retryable", JBool true)]), db)
      else match ingest sha256 any_order instance batch fate db with
      | (Ok result, db') => (Ok (200, build_ack (ir_ack result)), db')
      | (Err (mkStoreError code committed), db') =>
          if String.eqb code "unavailable"
          then (Ok (503, JObject [("status", JString "unavailable"); ("code", JString "LEDGER_UNAVAILABLE");
                                  ("retryable", JBool true)]), db')
          else (Ok (if String.eqb code "cursor_mismatch" then 409 else 400,
                    JObject ([("status", JString "rejected"); ("code", JString ("CAPTURE_" +:+ upper code))] ++
                             match committed with
                             | Some (sequence, digest) =>
                                 [("ledger_instance", JString instance); ("sequence", JNumber (json_int sequence));
                                  ("digest", JString digest)]
                             | None => []
                             end)%list), db')
      | (Err e, db') => (Err e, db')
      end
  end.

(** The host's side of a request: the body it sends, and its answer as [post_json] returns or
    raises it. *)
Definition body_bytes (payload : json) : string := json_dumps "," ":" payload.

Definition post_reply (stream_id : string) (status : Z) (reply : json) : res DrainError CaptureAck :=
  if status =? 200 then
    match json_loads (json_dumps "," ":" reply) with
    | Some document =>
        match parse_ack document stream_id with
        | Ok ack => Ok ack
        | Err _ => Err (DrainStop "malformed_ack" false)
        end
    | None => Err (DrainStop "refused:0" false)
    end
  else if status =? 503 then Err (DrainStop "ledger_unavailable" true)
  else Err (DrainStop ("refused:" +:+ json_int status) false).

(** [_post], on the ledger and the fates of the requests to come. *)
Definition post (authorized stored : bool) (stream_id : string) (ledger : option string) (after : Z * string)
    (batch : list OutboxRecord) : eff (Ledger * list NetFate) DrainError CaptureAck := λ '(db, fates),
  match json_loads (build_batch "host" stream_id ledger after.1 after.2 batch) with
  | None => (Err (DrainRaised "JSONDecodeError"), (db, fates))
  | Some payload =>
      let served fate := handle_usage_capture_request authorized stored (body_bytes payload) fate db in
      match default (Answered Runs) (head fates) with
      | Unreached => (Err (DrainStop "refused:0" false), (db, tail fates))
      | ReplyLost fate => (Err (DrainRaised "RemoteDisconnected"), ((served fate).2, tail fates))
      | Answered fate =>
          match served fate with
          | (Ok (status, reply), db') => (post_reply stream_id status reply, (db', tail fates))
          | (Err _, db') => (Err (DrainRaised "RemoteDisconnected"), (db', tail fates))
          end
      end
  end.
End sends.

(** * Batches *)

Definition batch_cost (batch : list OutboxRecord) : N := foldr (λ r n, (line_cost r + n)%N) 0%N batch.

Lemma batch_cost_app a b : batch_cost (a ++ b)%list = (batch_cost a + batch_cost b)%N.
Proof. induction a as [|r a IH]; [done|]. simpl. rewrite IH. lia. Qed.

(** What each batch keeps to. *)
Record batch_bounded (batch : list OutboxRecord) : Prop := {
  bb_some : batch ≠ [];
  bb_count : (length batch ≤ MAX_RECORDS)%nat;
  bb_cost : (length batch = 1)%nat ∨ (batch_cost batch ≤ BATCH_BUDGET)%N
}.

Lemma batches_from_spec records : ∀ batch size, size = batch_cost batch → (batch = [] ∨ batch_bounded batch) →
  concat (batches_from batch size records) = (batch ++ records)%list ∧ Forall batch_bounded (batches_from batch size records).
Proof.
  assert (∀ r, batch_bounded [r]) as Hone by (intros r; constructor; [done|unfold MAX_RECORDS; simpl; lia|by left]).
  induction records as [|r records IH]; intros batch size -> Hb; cbn [batches_from].
  { case_bool_decide as Hn; simpl; [by subst|]. rewrite app_nil_r. split; [done|]. constructor; [by destruct Hb|done]. }
  case_bool_decide as Hn; cbn [negb andb].
  { subst batch. simpl. apply IH; [simpl; lia|by right]. }
  match goal with |- context [if ?b then _ else _] => destruct b eqn:Hfull end.
  - destruct (IH [r] (line_cost r)) as [H1 H2]; [simpl; lia|by right|]. simpl. rewrite H1. split; [done|].
    constructor; [by destruct Hb|done].
  - apply orb_false_iff in Hfull as [Hlen%Nat.leb_gt Hcost%N.ltb_ge].
    assert ((batch_cost batch + line_cost r)%N = batch_cost (batch ++ [r])) as Hsum by (rewrite batch_cost_app; simpl; lia).
    rewrite Hsum in *. destruct (IH (batch ++ [r])%list _ eq_refl) as [H1 H2].
    + right. constructor; [by destruct batch|rewrite length_app; simpl; lia|by right].
    + rewrite H1, <- (assoc_L (++)). done.
Qed.

Lemma batches_spec records : concat (batches records) = records ∧ Forall batch_bounded (batches records).
Proof. apply (batches_from_spec records [] 0); [done|by left]. Qed.

(** ** Sizes of texts *)

Lemma escape_char_length c : printable_char c = true ∨ c = NEWLINE → (String.length (json_escape_char c) ≤ 2)%nat.
Proof.
  intros [Hc|Hc]; [|by subst]. destruct c as [[] [] [] [] [] [] [] []]; try (vm_compute in Hc; discriminate); vm_compute; lia.
Qed.

Lemma escape_char_plain c s : printable_char c = true ∨ c = NEWLINE →
  json_escape_ascii (String c s) = json_escape_char c +:+ json_escape_ascii s.
Proof.
  intros Hc. cbn [json_escape_ascii]. rewrite (proj2 (N.ltb_lt _ _)); [done|].
  destruct Hc as [Hc|Hc]; [|by subst]. unfold printable_char in Hc. apply andb_true_iff in Hc as [_ Hc%N.ltb_lt]. done.
Qed.

Lemma escaped_line_length s : prints s → (String.length (json_escape_ascii (s +:+ String NEWLINE "")) ≤ 2 * String.length s + 2)%nat.
Proof.
  induction s as [|c s IH]; intros Hs; [vm_compute; lia|]. simpl in Hs. apply andb_true_iff in Hs as [Hc Hs].
  rewrite string_cons_app, escape_char_plain, string_length_app by auto. specialize (IH Hs).
  pose proof (escape_char_length c ltac:(by left)). simpl. lia.
Qed.

Lemma pretty_N_go_length k : ∀ n s, (n < 10 ^ N.of_nat k)%N → (String.length (pretty_N_go n s) ≤ k + String.length s)%nat.
Proof.
  induction k as [|k IH]; intros n s Hn.
  - assert (n = 0%N) as -> by (simpl in Hn; lia). done.
  - destruct (decide (n = 0%N)) as [->|Hz]; [rewrite pretty_N_go_0; lia|]. rewrite pretty_N_go_step by lia.
    etransitivity; [apply IH|simpl; lia]. rewrite Nat2N.inj_succ, N.pow_succ_r' in Hn. apply N.Div0.div_lt_upper_bound. lia.
Qed.

Lemma json_int_length n : 0 ≤ n < 2 ^ 63 → (String.length (json_int n) ≤ 19)%nat.
Proof.
  intros [H0 Hn]. unfold json_int. assert (∃ p, n = Z.of_N p ∧ (p < 10 ^ N.of_nat 19)%N) as (p & -> & Hp).
  { exists (Z.to_N n). split; [lia|]. change (10 ^ N.of_nat 19)%N with 10000000000000000000%N. lia. }
  assert (pretty (Z.of_N p) = pretty p) as -> by (by destruct p).
  unfold pretty, pretty_N. case_decide as Hz; [simpl; lia|].
  pose proof (pretty_N_go_length 19 p "" Hp). simpl in *. lia.
Qed.

Lemma quoted_length s : prints s → (String.length (json_ascii_string s) ≤ 2 * String.length s + 2)%nat.
Proof.
  intros Hs. unfold json_ascii_string. rewrite !string_length_app.
  assert (String.length (json_escape_ascii s) ≤ 2 * String.length s)%nat; [|simpl; lia].
  induction s as [|c s IH]; [done|]. simpl in Hs. apply andb_true_iff in Hs as [Hc Hs].
  rewrite escape_char_plain, string_length_app by auto. specialize (IH Hs).
  pose proof (escape_char_length c ltac:(by left)). simpl. lia.
Qed.

Lemma hex_prints n s : is_hex n s = true → prints s.
Proof.
  unfold is_hex. intros [_ Hs]%andb_true_iff. induction s as [|c s IH]; [done|]. simpl in Hs |- *.
  apply andb_true_iff in Hs as [Hc Hs]. rewrite IH by done. rewrite andb_true_r. unfold hex_char in Hc. unfold printable_char.
  unfold Ascii.nat_of_ascii in Hc. apply andb_true_iff. rewrite N.leb_le, N.ltb_lt.
  apply orb_true_iff in Hc as [[H1%Nat.leb_le H2%Nat.leb_le]%andb_true_iff|[H1%Nat.leb_le H2%Nat.leb_le]%andb_true_iff]; lia.
Qed.

Lemma hex_quoted n s : is_hex n s = true → (String.length (json_ascii_string s) ≤ 2 * n + 2)%nat.
Proof. intros Hs. rewrite <- (hex_length n s Hs). by apply quoted_length, (hex_prints n). Qed.

Lemma batch_dumps writer sid ledger seq digest records :
  json_dumps "," ":" (batch_document writer sid ledger seq digest records) =
  let entry k v := json_ascii_string k +:+ ":" +:+ v in
  "{" +:+ join ","
    [entry "after" ("{" +:+ join "," [entry "digest" (json_ascii_string digest); entry "sequence" (json_int seq)] +:+ "}");
     entry "ledger_instance" (json_dumps "," ":" (text_or_null ledger));
     entry "records" (json_dumps "," ":" (JArray (JString ∘ ob_line <$> records)));
     entry "schema_version" "1"; entry "stream_id" (json_ascii_string sid);
     entry "writer" (json_ascii_string writer)] +:+ "}".
Proof. reflexivity. Qed.

Lemma records_length records :
  (N.of_nat (String.length (json_dumps "," ":" (JArray (JString ∘ ob_line <$> records)))) ≤ batch_cost records + 2)%N.
Proof.
  cbn [json_dumps]. change (map (json_dumps "," ":") (JString ∘ ob_line <$> records))
    with (json_dumps "," ":" <$> (JString ∘ ob_line <$> records)). rewrite <- list_fmap_compose.
  rewrite !string_length_app.
  assert (N.of_nat (String.length (join "," (json_dumps "," ":" ∘ (JString ∘ ob_line) <$> records))) ≤ batch_cost records)%N;
    [|simpl; lia].
  induction records as [|r records IH]; [done|]. rewrite fmap_cons.
  change ((json_dumps "," ":" ∘ (JString ∘ ob_line)) r) with (json_ascii_string (ob_line r)).
  change (batch_cost (r :: records)) with (line_cost r + batch_cost records)%N. unfold line_cost at 1.
  destruct records as [|r' records]; [cbn [fmap list_fmap join batch_cost foldr]; lia|].
  rewrite fmap_cons in *. rewrite join_cons, !string_length_app. change (String.length ",") with 1%nat. lia.
Qed.

Lemma body_length writer sid ledger seq digest records : writer = "host" ∨ writer = "gateway" → is_hex 32 sid = true →
  from_option (λ l, is_hex 32 l = true) True ledger → 0 ≤ seq < 2 ^ 63 → is_hex 64 digest = true →
  (N.of_nat (String.length (json_dumps "," ":" (batch_document writer sid ledger seq digest records))) ≤ batch_cost records + 1000)%N.
Proof.
  intros Hw Hs Hl Hseq Hd. rewrite batch_dumps. cbv zeta. cbn [join].
  pose proof (records_length records) as Hr. pose proof (hex_quoted _ _ Hs) as H1. pose proof (hex_quoted _ _ Hd) as H2.
  pose proof (json_int_length _ Hseq) as H3.
  assert (String.length (json_dumps "," ":" (text_or_null ledger)) ≤ 66)%nat as H4.
  { destruct ledger as [l|]; [apply (hex_quoted _ _ Hl)|vm_compute; lia]. }
  assert (String.length (json_ascii_string writer) ≤ 9)%nat as H5 by (destruct Hw as [->| ->]; vm_compute; lia).
  repeat match goal with |- context [json_ascii_string ?k] => match k with
    | String _ _ => let n := eval vm_compute in (json_ascii_string k) in change (json_ascii_string k) with n end end.
  rewrite !string_length_app. cbn [String.length]. lia.
Qed.

(** ** What a send's body reads as *)

Lemma batch_increasing_app a b : increasing (a ++ b)%list = true → increasing a = true ∧ increasing b = true.
Proof.
  induction a as [|x a IH]; intros H; [done|]. destruct a as [|y a].
  - split; [done|]. destruct b; [done|]. simpl in H. by apply andb_true_iff in H as [_ H].
  - change (increasing ((x :: y :: a) ++ b)) with ((ob_sequence x <? ob_sequence y) && increasing ((y :: a) ++ b)) in H.
    apply andb_true_iff in H as [Hxy H]. destruct (IH H) as [Ha Hb]. split; [|done].
    change (increasing (x :: y :: a)) with ((ob_sequence x <? ob_sequence y) && increasing (y :: a)). by rewrite Hxy, Ha.
Qed.

Lemma increasing_concat bs b : b ∈ bs → increasing (concat bs) = true → increasing b = true.
Proof.
  intros Hb. induction bs as [|c bs IH]; [by apply not_elem_of_nil in Hb|]. simpl. intros [H1 H2]%batch_increasing_app.
  apply elem_of_cons in Hb as [->|Hb]; auto.
Qed.

Section bodies.
Variable sha256 : string → string.
Variable unicode_digit : string → bool.

Lemma parse_records_legible writer sid records rs : Forall (legible sha256 sid) records →
  parse_records sha256 unicode_digit writer sid (JString ∘ ob_line <$> records) = Ok rs → rs = records.
Proof.
  intros Hl. revert rs. induction Hl as [|r records (Hs & Ha & Hp) _ IH]; intros rs H; [by injection H|].
  rewrite fmap_cons in H. cbn [parse_records compose] in H. rewrite Ha, Hp in H. inv_res. f_equal. by apply IH.
Qed.

(** A prefix and a batch after it, as a drain sends them. *)
Record sends_ok (writer sid : string) (ledger : option string) (after : Z * string) (batch : list OutboxRecord) : Prop := {
  so_writer : writer = "host" ∨ writer = "gateway";
  so_stream : is_hex 32 sid = true;
  so_ledger : from_option (λ l, is_hex 32 l = true) True ledger;
  so_prefix : prefix_ok after.1 after.2;
  so_records : Forall (legible sha256 sid) batch;
  so_count : (1 ≤ length batch ≤ MAX_RECORDS)%nat
}.

Lemma sent_document_ok writer sid ledger after batch : sends_ok writer sid ledger after batch →
  json_ok (batch_document writer sid ledger after.1 after.2 batch).
Proof.
  intros [Hw Hs Hl (_ & Hd & _) Hr _]. eapply batch_document_ok; try done. by destruct Hw as [->| ->].
Qed.

Lemma sent_loads writer sid ledger after batch : sends_ok writer sid ledger after batch →
  json_loads (build_batch writer sid ledger after.1 after.2 batch) = Some (batch_document writer sid ledger after.1 after.2 batch).
Proof. intros Hok. unfold build_batch. by rewrite json_loads_plain by (by apply sent_document_ok). Qed.

Lemma parsed_same writer sid ledger after batch doc b : sends_ok writer sid ledger after batch →
  batch_fields writer sid ledger after.1 after.2 (JString ∘ ob_line <$> batch) doc →
  parse_document sha256 unicode_digit doc = Ok b → b = mkCaptureBatch writer sid ledger after.1 after.2 batch.
Proof.
  intros [Hw Hs Hl Hp Hr Hc] Hdoc H.
  rewrite (parse_fields sha256 unicode_digit writer sid ledger after.1 after.2 (JString ∘ ob_line <$> batch)) in H;
    [|by destruct Hw as [->| ->]; eexists|done|done|done|by rewrite length_fmap|done].
  apply res_bind_ok in H as (rs & Hrs & H). apply parse_records_legible in Hrs as ->; [|done]. inv_res. done.
Qed.

(** The Gateway reads what was sent, if it accepts it. *)
Lemma built_parsed writer sid ledger after batch b : sends_ok writer sid ledger after batch →
  parse_batch sha256 unicode_digit (build_batch writer sid ledger after.1 after.2 batch) = Ok b →
  b = mkCaptureBatch writer sid ledger after.1 after.2 batch.
Proof.
  intros Hok H. unfold parse_batch in H. inv_res. rewrite sent_loads in H by done.
  destruct (document_fields writer sid ledger after.1 after.2 batch) as (doc & Hd & Hdoc). rewrite Hd in H.
  by eapply parsed_same.
Qed.

Lemma posted_parsed writer sid ledger after batch b : sends_ok writer sid ledger after batch →
  parse_batch sha256 unicode_digit (body_bytes (batch_document writer sid ledger after.1 after.2 batch)) = Ok b →
  b = mkCaptureBatch writer sid ledger after.1 after.2 batch.
Proof.
  intros Hok H. unfold parse_batch, body_bytes in H. inv_res. rewrite json_loads_dumps in H by (by apply sent_document_ok).
  destruct (sorted_fields writer sid ledger after.1 after.2 batch) as (doc & Hd & Hdoc). rewrite Hd in H.
  by eapply parsed_same.
Qed.
End bodies.

(** A frame is one line of printable characters. *)
Lemma frame_line_prints sha256 sid seq prev p eid r : (∀ s, is_hex 64 (sha256 s) = true) →
  frameable sid seq prev p eid → frame sha256 sid seq prev p eid = Some r → ∃ s, prints s ∧ ob_line r = s +:+ String NEWLINE "".
Proof.
  intros Hhex Hf Hr. pose proof (dumps_prints _ (frame_body_ok _ _ _ _ _ Hf)) as Hb. unfold frame in Hr.
  set (body := json_dumps "," ":" (frame_body sid seq prev p eid)) in *. clearbody body.
  destruct (json_loads _) as [[| | | | |document]|]; try done. destruct (string_field "event_id" document); [|done].
  destruct (od_get "payload" document) as [[]|]; try done. injection Hr as <-. cbn [ob_line].
  exists (sha256 body +:+ " " +:+ body). rewrite !printable_app, (hex_prints 64), Hb by done. split; [done|].
  by rewrite !string_app_assoc.
Qed.

Section accepted.
Variable sha256 : string → string.
Hypothesis sha256_hex : ∀ s, is_hex 64 (sha256 s) = true.
Variable unicode_digit : string → bool.
Variable isoformat : timestamp → string.
Hypothesis isoformat_ok : ∀ t, is_timestamp unicode_digit (isoformat t) = true.
Variable cache_reported : GatewayUsage → bool.
Variable SCALE : nat.
Hypothesis scale_small : (SCALE ≤ 30)%nat.
Abbreviation captured := (captured sha256 isoformat cache_reported SCALE).

Lemma captured_line sid r : captured sid r → ∃ s, prints s ∧ ob_line r = s +:+ String NEWLINE "".
Proof. intros (p & seq & prev & eid & _ & Hf & Hr). by eapply frame_line_prints. Qed.

Lemma captured_cost sid r : captured sid r → (N.of_nat (String.length (ob_line r)) ≤ MAX_RECORD_BYTES)%N →
  (line_cost r ≤ BATCH_BUDGET)%N.
Proof.
  intros (s & Hs & Hline)%captured_line Hlen. unfold line_cost, json_ascii_string. rewrite Hline in *.
  pose proof (escaped_line_length s Hs). rewrite !string_length_app in *. change (String.length quote) with 1%nat.
  change (String.length (String NEWLINE "")) with 1%nat in Hlen.
  unfold BATCH_BUDGET, MAX_BODY_BYTES. unfold MAX_RECORD_BYTES in Hlen. lia.
Qed.

(** However captured records are cut into batches, the batches are the records in order,
    and each is within the route's limit and reads as exactly the batch's records. *)
Lemma batches_accepted sid records ledger after batch : is_hex 32 sid = true →
  Forall (captured sid) records → Forall (λ r, N.of_nat (String.length (ob_line r)) ≤ MAX_RECORD_BYTES)%N records →
  increasing records = true →
  from_option (λ l, is_hex 32 l = true) True ledger → prefix_ok after.1 after.2 → after.1 < 2 ^ 63 →
  concat (batches records) = records ∧
  (batch ∈ batches records →
   parse_batch sha256 unicode_digit (body_bytes (batch_document "host" sid ledger after.1 after.2 batch)) =
     Ok (mkCaptureBatch "host" sid ledger after.1 after.2 batch)).
Proof.
  intros Hs Hr Hlen Hinc Hl Hp Hseq. destruct (batches_spec records) as [Hcat Hb]. split; [done|]. intros Hin.
  rewrite Forall_forall in Hb. destruct (Hb batch Hin) as [Hne Hcount Hcost].
  assert (Forall (captured sid) batch ∧ Forall (λ r, N.of_nat (String.length (ob_line r)) ≤ MAX_RECORD_BYTES)%N batch) as [Hrb Hlb].
  { rewrite <- Hcat in Hr, Hlen. rewrite Forall_concat in Hr, Hlen. rewrite Forall_forall in Hr, Hlen. auto. }
  assert (batch_cost batch ≤ BATCH_BUDGET)%N as Hbudget.
  { destruct Hcost as [H1|]; [|done]. destruct batch as [|r [|]]; try done. apply Forall_cons in Hrb as [Hc _].
    apply Forall_cons in Hlb as [Hn _]. pose proof (captured_cost _ _ Hc Hn). simpl. lia. }
  assert (increasing batch = true) as Hincb by (eapply increasing_concat; [done|by rewrite Hcat]).
  assert (1 ≤ length batch ≤ MAX_RECORDS)%nat as Hn by (destruct batch; [done|simpl in *; lia]).
  unfold parse_batch, body_bytes. rewrite (proj2 (N.ltb_ge _ _)).
  2:{ destruct Hp as (? & ? & _). etransitivity; [apply body_length; auto; lia|]. unfold BATCH_BUDGET, MAX_BODY_BYTES in *. lia. }
  cbn [raise_if res_bind]. rewrite json_loads_dumps.
  2:{ apply (sent_document_ok sha256). constructor; auto. eapply Forall_impl; [exact Hrb|]. intros r Hc.
      by eapply captured_legible. }
  destruct (sorted_fields "host" sid ledger after.1 after.2 batch) as (doc & -> & Hdoc). by eapply parse_built.
Qed.
End accepted.
