(* ===== verification/HostRecords.v ===== *)
(** What a host's capture writes, the usage contract accepts: the records of
    [optimus/usage/durable_capture.py], under any history of calls, against
    [optimus_security/usage_capture_contract.py], and the batches the drain of
    [optimus/usage/capture_delivery.py] cuts them into.

    The capture passes on texts, counts and receipts it is given, and makes the rest
    itself: epoch and invocation ids, purposes, parts of identities, counts of what it
    refused. The contract's limits on the former are conditions on the calls
    ([call_within]); that the latter keep the contract's limits is proved here. One
    does not: nothing bounds the open epochs a stream's end lists. *)
From stdpp Require Import sorting pretty.
From S2P Require Import Prelude Text Json JsonLoads Settlement Outbox UsageContract OutboxQueue Drain Capture.

Local Open Scope string_scope.
Local Open Scope Z_scope.

(** A record the capture may write: as the contract wants it, but for the number of
    epochs in a stream's end. *)
Definition written_ok (SCALE : nat) (r : CaptureRecord) : Prop :=
  match r with
  | StreamEnd open_epochs => Forall (λ i, is_hex 32 i = true) open_epochs
  | _ => record_ok SCALE r
  end.

(** The stream's end lists more open epochs than the contract allows. *)
Definition overlong (r : CaptureRecord) : bool :=
  match r with StreamEnd open_epochs => (MAX_LIST <? length open_epochs)%nat | _ => false end.

(** Calls whose arguments keep the contract's limits: texts of at most 512 characters,
    counts and amounts that are not negative, the stages, states and reasons of the
    program, and receipts that their constructor accepted. *)
Definition call_within (SCALE : nat) (c : capture_call) : Prop :=
  match c with
  | CallEnableReportContext | CallIntentReturns _ | CallStop | WriterWorks => True
  | CallReportContext turn session selection hash strategy =>
      text turn ∧ text session ∧ selection ∈ ["auto"; "fixed"] ∧ opt_text hash ∧ opt_text strategy
  | CallInvocationOpened turn session => text turn ∧ opt_text session
  | CallInvocationEnded turn invocation state => is_hex 32 invocation = true ∧ state ∈ ["ended"; "abandoned"]
  | CallIntent turn request stage session model purpose =>
      text turn ∧ text request ∧ stage ∈ STAGES ∧ opt_text session ∧ opt_text model
  | CallReceipt r purpose => receipt_ok SCALE r
  | CallIntegrityFailure turn reason => text turn ∧ reason ∈ ["receipt_conflict"; "ledger_refused"]
  | CallClose summary =>
      text (tc_turn_id summary) ∧ Forall text (tc_receipt_ids summary) ∧ Forall text (tc_unknown_attempt_ids summary) ∧
      0 ≤ tc_pending_invocations summary ∧ 0 ≤ tc_integrity_failures summary ∧
      amount_ok SCALE (tc_known_subtotal_usd summary)
  end.

Lemma purpose_for_ok stage purpose p : purpose_for stage purpose = Ok p → is_purpose p = true.
Proof.
  unfold purpose_for. destruct purpose as [q|]; intros Hp; inv_res.
  - match goal with H : _ || _ = false |- _ => apply orb_false_iff in H as [Hq _] end.
    by apply negb_false_iff in Hq.
  - destruct (od_get stage DEFAULT_PURPOSES) as [q|] eqn:Hg; simplify_eq. apply od_get_Some_in in Hg.
    unfold DEFAULT_PURPOSES in Hg. rewrite !elem_of_cons in Hg.
    destruct Hg as [[= _ ->]|[[= _ ->]|[[= _ ->]|[[= _ ->]|[[= _ ->]|[]%not_elem_of_nil]]]]]; reflexivity.
Qed.

Section writes.
Context {W : Type} `{OutboxPortLaws W}.
Variable sha256 : string → string.
Hypothesis sha256_hex : ∀ s, is_hex 64 (sha256 s) = true.
Variable fresh : nat → string.
Hypothesis fresh_hex : ∀ n, is_hex 32 (fresh n) = true.
Variable SCALE : nat.

Abbreviation capture := (DurableCapture (W := W)).
Implicit Types s : capture.

Definition epoch_ok (e : Epoch) : Prop :=
  is_hex 32 (ep_epoch_id e) = true ∧ 0 ≤ ep_rejected e ∧ 0 ≤ ep_intents e ∧ 0 ≤ ep_unconfirmed_intents e.

Record writes_inv s : Prop := {
  wr_log : Forall (λ x, written_ok SCALE x.1) (capture_log s);
  wr_heap : Forall epoch_ok (dc_heap s);
  wr_closed : map_Forall (λ _ id, is_hex 32 id = true) (dc_closed s)
}.

Lemma log_step_written l l' : log_step l l' →
  Forall (λ x, written_ok SCALE x.1) l → Forall (λ x, written_ok SCALE x.1) l'.
Proof. induction 1 as [|x y l l' [Hxy _] _ IH]; [done|]. rewrite !Forall_cons, Hxy. tauto. Qed.

(** The writer works. *)
Lemma work_writes w s : log_step (capture_log s) (port_log w) → writes_inv s → writes_inv (set_writer w s).
Proof. intros Hl [H1 H2 H3]. split; simpl; [by eapply log_step_written|done|done]. Qed.

Lemma update_writes f e s : (∀ x, epoch_ok x → epoch_ok (f x)) → writes_inv s → writes_inv (update_epoch f e s).
Proof. intros Hf [H1 H2 H3]. split; simpl; [done| |done]. apply Forall_alter; [done|]. intros x _. apply Hf. Qed.

Lemma add_rejected_ok x : epoch_ok x → epoch_ok (add_rejected x).
Proof. intros (? & ? & ? & ?). split_and!; simpl; done || lia. Qed.
Lemma add_intent_ok x : epoch_ok x → epoch_ok (add_intent x).
Proof. intros (? & ? & ? & ?). split_and!; simpl; done || lia. Qed.
Lemma add_unconfirmed_ok x : epoch_ok x → epoch_ok (add_unconfirmed x).
Proof. intros (? & ? & ? & ?). split_and!; simpl; done || lia. Qed.
#[local] Hint Resolve update_writes add_rejected_ok add_intent_ok add_unconfirmed_ok : core.

Lemma raw_submit_writes r s : written_ok SCALE r → writes_inv s → writes_inv (raw_submit r s).2.
Proof.
  intros Hr [H1 H2 H3]. destruct (raw_submit r s) as [t s'] eqn:Hs. simpl.
  apply raw_submit_spec in Hs as (_ & Hs' & l & st & Hlog & Hl & _).
  split; [|by rewrite Hs'..]. rewrite Hlog. apply Forall_app_2; [by eapply log_step_written|]. by apply Forall_singleton.
Qed.

Lemma submit_writes r o s : written_ok SCALE r → writes_inv s → writes_inv (submit r o s).2.
Proof.
  intros Hr Hi. unfold submit.
  set (s0 := if dc_started s then s else _).
  assert (writes_inv s0) as Hinit.
  { unfold s0. destruct (dc_started s); [done|]. apply raw_submit_writes; [exact I|]. destruct Hi. by split. }
  pose proof (raw_submit_writes r s0 Hr Hinit) as H1. destruct (raw_submit r s0) as [t s1]. simpl in *.
  destruct o as [e|]; [|done]. destruct (ticket_failed_now s1 t); auto.
Qed.

Lemma settle_writes turn s : writes_inv s → writes_inv (settle_closing turn s).
Proof.
  intros Hi. unfold settle_closing. destruct (od_get turn (dc_epochs s)) as [e|]; [|done].
  destruct (dc_heap s !! e) as [ep|] eqn:He; [|done]. destruct (ep_closing ep) as [t|]; [|done].
  destruct (port_ticket (dc_writer s) t); [done| |by apply update_writes; [intros x [? ?]; by split; [|apply add_rejected_ok; split]|]].
  destruct Hi as [H1 H2 H3]. split; simpl; [done|done|]. apply map_Forall_insert_2; [|done].
  rewrite Forall_forall in H2. apply list_elem_of_lookup_2 in He. by apply H2.
Qed.

Lemma current_writes turn s o id s' : current turn s = (o, id, s') → writes_inv s →
  writes_inv s' ∧ from_option (λ i, is_hex 32 i = true) True id ∧ (o ≠ None → id ≠ None).
Proof.
  unfold current. intros Hc Hi%(settle_writes turn). destruct (od_get turn _) as [e|].
  - destruct (dc_heap _ !! e) as [ep|] eqn:He; simplify_eq; [|done]. split_and!; [done| |done].
    destruct Hi as [_ H2 _]. rewrite Forall_forall in H2. apply list_elem_of_lookup_2 in He. by apply H2.
  - simplify_eq. split_and!; [done| |done]. destruct (dc_closed _ !! turn) as [i|] eqn:Hcl; [|done].
    by apply (wr_closed _ Hi turn).
Qed.

Lemma open_epoch_writes turn session s r s' : text turn → opt_text session →
  open_epoch fresh turn session s = (r, s') → writes_inv s →
  writes_inv s' ∧ ∃ id, is_hex 32 id = true ∧ match r with Ok (_, i) => i = id | Err x => x = ClosedEpoch id end.
Proof.
  intros Ht Hs Ho Hi. unfold open_epoch in Ho.
  destruct (current turn s) as [[o id] s1] eqn:Hc. apply current_writes in Hc as (H1 & Hid & Hne); [|done].
  destruct o as [e|].
  - destruct id as [id|]; [|by destruct Hne]. injection Ho as <- <-. eauto.
  - destruct id as [id|]; [injection Ho as <- <-; eauto|]. simpl in Ho.
    set (s2 := match session with Some sid => _ | None => _ end) in Ho.
    assert (writes_inv s2) as H2 by (unfold s2; destruct H1, session; by split).
    pose proof (submit_writes (EpochBegin (fresh (dc_uuids s1)) turn session) None s2
      (conj (fresh_hex _) (conj Ht Hs)) H2) as [H3 H4 H5].
    destruct (submit _ None s2) as [t s3]. injection Ho as <- <-. split; [|eauto]. split; simpl; [done| |done].
    apply Forall_app_2; [done|]. apply Forall_singleton. split_and!; simpl; [done|by destruct (ticket_failed_now s3 t)|lia|lia].
Qed.

Lemma epoch_or_closed_writes turn session s o id s' : text turn → opt_text session →
  epoch_or_closed fresh turn session s = (o, id, s') → writes_inv s → writes_inv s' ∧ is_hex 32 id = true.
Proof.
  intros Ht Hs He Hi. unfold epoch_or_closed in He. destruct (open_epoch fresh turn session s) as [r s1] eqn:Ho.
  apply open_epoch_writes in Ho as (H1 & i & Hid & Hr); [|done..].
  destruct r as [[e i']|x]; [|rewrite Hr in He]; injection He as <- <- <-; split; congruence || done.
Qed.

(** ** The calls *)

Lemma report_context_writes turn session selection hash strategy s :
  call_within SCALE (CallReportContext turn session selection hash strategy) → writes_inv s →
  writes_inv (report_context fresh turn session selection hash strategy s).2.
Proof.
  intros (Ht & Hs & Hsel & Hh & Hst) Hi. unfold report_context.
  assert (writes_inv (add_session_turn session turn s)) as H1 by (destruct Hi; by split).
  destruct (dc_report_context _); [|done]. simpl.
  destruct (open_epoch fresh turn (Some session) _) as [[[e id]|x] s1] eqn:Ho; apply open_epoch_writes in Ho as (H2 & i & Hid & Hr);
    try done. subst i.
  pose proof (submit_writes (TurnReportContext id session turn selection hash strategy) (Some e) s1) as H3.
  destruct (submit _ (Some e) s1) as [t s2]. apply H3; [by split_and!|done].
Qed.

Lemma invocation_opened_writes turn session s : text turn → opt_text session → writes_inv s →
  writes_inv (invocation_opened fresh turn session s).2.
Proof.
  intros Ht Hs Hi. unfold invocation_opened. simpl. set (s0 := mkDurableCapture _ _ _ _ _ _ _ _).
  assert (writes_inv s0) as Hi0 by (destruct Hi; by split).
  destruct (epoch_or_closed fresh turn session s0) as [[e id] s1] eqn:He.
  apply epoch_or_closed_writes in He as [H1 Hid]; [|done..]. simpl. apply submit_writes; [|done]. by split.
Qed.

Lemma invocation_ended_writes turn invocation state s :
  call_within SCALE (CallInvocationEnded turn invocation state) → writes_inv s →
  writes_inv (invocation_ended turn invocation state s).
Proof.
  intros (Hn & Hst) Hi. unfold invocation_ended. destruct (current turn s) as [[e id] s1] eqn:Hc.
  apply current_writes in Hc as (H1 & Hid & _); [|done]. apply submit_writes; [|done]. by split_and!.
Qed.

Lemma intent_begin_writes turn request stage session model purpose s :
  call_within SCALE (CallIntent turn request stage session model purpose) → writes_inv s →
  writes_inv (intent_begin fresh turn request stage session model purpose s).2.
Proof.
  intros (Ht & Hq & Hst & Hs & Hm) Hi. unfold intent_begin.
  destruct (epoch_or_closed fresh turn session s) as [[e id] s1] eqn:He.
  apply epoch_or_closed_writes in He as [H1 Hid]; [|done..].
  set (s2 := match e with Some e => _ | None => _ end). assert (writes_inv s2) as H2 by (unfold s2; destruct e; auto).
  destruct (purpose_for stage purpose) as [p|x] eqn:Hp; [|done]. apply purpose_for_ok in Hp.
  pose proof (submit_writes (AttemptIntent id request stage p model) e s2) as H3.
  destruct (submit _ e s2) as [t s3]. apply H3; [by split_and!|done].
Qed.

Lemma intent_end_writes t o s : writes_inv s → writes_inv (intent_end t o s).2.
Proof.
  intros Hi. unfold intent_end. pose proof (port_wait_log (dc_writer s) t) as Hw.
  destruct (port_wait (dc_writer s) t) as [b w]. destruct Hw as [Hw _].
  pose proof (work_writes w s Hw Hi) as H1. simpl. destruct o as [e|]; [|done]. destruct b; auto.
Qed.

Lemma receipt_writes r purpose s : receipt_ok SCALE r → writes_inv s → writes_inv (receipt fresh r purpose s).2.
Proof.
  intros Hr Hi. unfold receipt. pose proof Hr as (_ & Ht & _ & Htexts & _). apply Forall_cons in Htexts as [Hs _].
  destruct (epoch_or_closed fresh (sr_turn_id r) (sr_session_id r) s) as [[e id] s1] eqn:He.
  apply epoch_or_closed_writes in He as [H1 Hid]; [|done..].
  destruct (purpose_for (sr_stage r) purpose) as [p|x] eqn:Hp; [|done]. apply purpose_for_ok in Hp.
  simpl. apply submit_writes; [|done]. by split_and!.
Qed.

Lemma integrity_failure_writes turn reason s :
  call_within SCALE (CallIntegrityFailure turn reason) → writes_inv s → writes_inv (integrity_failure turn reason s).
Proof.
  intros (Ht & Hr) Hi. unfold integrity_failure. destruct (current turn s) as [[e id] s1] eqn:Hc.
  apply current_writes in Hc as (H1 & Hid & _); [|done]. apply submit_writes; [|done]. by split_and!.
Qed.

Lemma submit_all_writes rs o s : Forall (written_ok SCALE) rs → writes_inv s → writes_inv (submit_all rs o s).
Proof.
  intros Hr. unfold submit_all. revert s. induction Hr as [|r rs Hr _ IH]; intros s Hi; [done|]. simpl.
  by apply IH, submit_writes.
Qed.

(** The parts of a close keep the limits. *)
Lemma parts_written id summary : is_hex 32 id = true →
  Forall text (tc_receipt_ids summary) → Forall text (tc_unknown_attempt_ids summary) →
  Forall (written_ok SCALE) (identity_parts sha256 id summary).1.
Proof.
  intros Hid Hs Hu. unfold identity_parts. simpl.
  destruct (identity_chunks_complete (tc_receipt_ids summary) (tc_unknown_attempt_ids summary)) as (H1 & H2 & _ & H3 & _).
  set (chunks := identity_chunks _ _) in *. generalize (length chunks). intros n.
  apply Forall_lookup. intros i r Hr. rewrite list_lookup_imap in Hr. apply fmap_Some in Hr as ([a b] & Hc & ->). simpl.
  apply list_elem_of_lookup_2 in Hc. rewrite Forall_forall in H3. destruct (H3 _ Hc) as [Ha Hb].
  rewrite <- H1, Forall_concat, Forall_fmap, Forall_forall in Hs. rewrite <- H2, Forall_concat, Forall_fmap, Forall_forall in Hu.
  split_and!; [done|done|exact (Hs _ Hc)|done|exact (Hu _ Hc)].
Qed.

Lemma close_writes summary s : call_within SCALE (CallClose summary) → writes_inv s →
  writes_inv (close sha256 summary s).2.
Proof.
  intros (Ht & Hrec & Hunk & Hp & Hint & Hsub) Hi. unfold close.
  destruct (current (tc_turn_id summary) s) as [[[e|] id] s1] eqn:Hc; apply current_writes in Hc as (H1 & Hid & Hne); [|done..].
  destruct id as [id|]; [|by destruct Hne]. simpl in Hid. simpl default.
  destruct (tc_pending_invocations summary =? 0); simpl.
  - pose proof (parts_written id summary Hid Hrec Hunk) as Hparts.
    assert (writes_inv (submit_all (identity_parts sha256 id summary).1 (Some e) s1)) as H2 by by apply submit_all_writes.
    change (imap _ _) with (identity_parts sha256 id summary).1.
    destruct (dc_heap _ !! e) as [ep|] eqn:He; [|done].
    pose proof (wr_heap _ H2) as Hheap. rewrite Forall_forall in Hheap. apply list_elem_of_lookup_2 in He.
    destruct (Hheap _ He) as (_ & Hrej & Hin & Hun).
    pose proof (port_wait_log (dc_writer (submit_all (identity_parts sha256 id summary).1 (Some e) s1)) (ep_begin ep)) as Hw.
    destruct (port_wait _ _) as [b w]. destruct Hw as [Hw _]. pose proof (work_writes w _ Hw H2) as H3.
    match goal with |- context [submit ?r (Some e) ?x] => pose proof (submit_writes r (Some e) x) as H4; destruct (submit r (Some e) x) as [t s4] end.
    assert (writes_inv s4) as H5.
    { apply H4; [|done]. split_and!; try done. by apply (digest_ok sha256 sha256_hex). }
    destruct (ticket_failed_now s4 t); simpl; [done|]. apply update_writes; [|done]. by intros x [? ?].
  - destruct (match dc_heap s1 !! e with Some epoch => _ | None => _ end); [done|].
    match goal with |- context [submit ?r (Some e) ?x] => pose proof (submit_writes r (Some e) x) as H4; destruct (submit r (Some e) x) as [t s4] end.
    simpl. apply update_writes; [by intros x [? ?]|]. apply H4; [by split_and!|done].
Qed.

Lemma stop_writes s : writes_inv s → writes_inv (stop s).2.
Proof.
  intros Hi. unfold stop.
  assert (∀ ks s, writes_inv s → writes_inv (foldl (λ s turn_id, settle_closing turn_id s) s ks)) as Hfold.
  { induction ks as [|k ks IH]; intros s0 H1; [done|]. simpl. by apply IH, settle_writes. }
  apply (Hfold (od_keys (dc_epochs s))) in Hi. set (s1 := foldl _ _ _) in *.
  set (s2 := if dc_started s1 then _ else s1).
  assert (writes_inv s2) as H2.
  { unfold s2. destruct (dc_started s1); [|done]. apply raw_submit_writes; [|done]. simpl.
    apply Forall_fmap, Forall_forall. intros [i []] Hin. rewrite merge_sort_Permutation in Hin.
    apply list_elem_of_fmap in Hin as (i' & [= ->] & Hin). apply list_elem_of_omap in Hin as (e & _ & He).
    apply fmap_Some in He as (ep & He & ->). apply list_elem_of_lookup_2 in He.
    pose proof (wr_heap _ Hi) as Hheap. rewrite Forall_forall in Hheap. by apply Hheap. }
  pose proof (port_close_log (dc_writer s2)) as Hc. destruct (port_close (dc_writer s2)) as [b w]. simpl in *.
  by apply work_writes.
Qed.

Lemma step_writes x c : call_within SCALE c → writes_inv (cr_capture x) →
  writes_inv (cr_capture (capture_step sha256 fresh x c)).
Proof.
  destruct x as [s waiting returned]. intros Hc Hi. destruct c; simpl in Hi |- *.
  - destruct Hi; by split.
  - by apply report_context_writes.
  - destruct Hc. by apply invocation_opened_writes.
  - by apply invocation_ended_writes.
  - pose proof (intent_begin_writes turn_id host_request_id stage session_id requested_model purpose s Hc Hi) as H1.
    by destruct (intent_begin _ _ _ _ _ _ _ s) as [[x|err] s1].
  - destruct (waiting !! i) as [[t o]|]; [|done]. pose proof (intent_end_writes t o s Hi) as H1.
    by destruct (intent_end t o s) as [b s1].
  - by apply receipt_writes.
  - by apply integrity_failure_writes.
  - by apply close_writes.
  - by apply stop_writes.
  - apply work_writes; [apply port_work_log|done].
Qed.

Lemma run_writes w calls : port_log w = [] → Forall (call_within SCALE) calls →
  writes_inv (cr_capture (capture_run sha256 fresh w calls)).
Proof.
  intros Hw Hok. unfold capture_run.
  assert (writes_inv (cr_capture (mkCaptureRun (new_capture w) [] []))) as Hi.
  { split; simpl; [unfold capture_log; simpl; by rewrite Hw|constructor|apply map_Forall_empty]. }
  revert Hi. generalize (mkCaptureRun (new_capture w) [] []). induction Hok as [|c calls Hc _ IH]; intros x Hi; [done|].
  simpl. by apply IH, step_writes.
Qed.
End writes.

(** * The contract's verdict *)

Section verdict.
Variable sha256 : string → string.
Hypothesis sha256_hex : ∀ s, is_hex 64 (sha256 s) = true.
Variable unicode_digit : string → bool.
Variable isoformat : timestamp → string.
Hypothesis isoformat_ok : ∀ t, is_timestamp unicode_digit (isoformat t) = true.
Variable cache_reported : GatewayUsage → bool.
Variable SCALE : nat.
Hypothesis scale_small : (SCALE ≤ 30)%nat.
Abbreviation payload_of := (record_payload sha256 isoformat cache_reported SCALE).
Abbreviation validate := (validate_payload sha256 unicode_digit).

Lemma written_record_ok r : written_ok SCALE r → overlong r = false → record_ok SCALE r.
Proof. destruct r; simpl; try done. intros Hl Ho%Nat.ltb_ge. by split. Qed.

(** A list over the limit fails the schema. *)
Lemma overlong_refused at_ r : overlong r = true → validate (JObject (payload_of at_ r)) "host" = Err (mkContractError "payload").
Proof.
  destruct r as [|l| | | | | | | | | |]; try done. intros Ho. simpl in Ho.
  assert (od_get "kind" (payload_of at_ (StreamEnd l)) = Some (JString "stream.end")) as Hkind by done.
  unfold validate_payload. rewrite Hkind.
  rewrite bool_decide_eq_true_2 by (apply (bool_decide_unpack _); vm_compute; exact I). cbn [negb raise_if res_bind].
  assert (epoch_ids (strings_json l) = false) as Hf.
  { unfold epoch_ids, list_check, strings_json. rewrite length_fmap. apply Nat.ltb_lt in Ho.
    by rewrite (proj2 (Nat.leb_gt _ _)). }
  match goal with |- context [raise_if (negb ?b)] => assert (b = false) as ->; [|done] end.
  destruct (conforms _ _ _) eqn:Hc; [|done]. unfold conforms in Hc. apply andb_true_iff in Hc as [[_ Hc]%andb_true_iff _].
  change (default [] (od_get "stream.end" (SCHEMAS unicode_digit)))
    with [("kind", string_check); ("at", AT unicode_digit); ("open_epochs", epoch_ids)] in Hc.
  cbn [forallb] in Hc. rewrite !andb_true_iff in Hc. destruct Hc as (_ & _ & Hc & _). rewrite <- Hf. symmetry. exact Hc.
Qed.

Lemma written_verdict at_ r : written_ok SCALE r →
  validate (JObject (payload_of at_ r)) "host" =
  if overlong r then Err (mkContractError "payload") else Ok (kind_of r).
Proof.
  intros Hr. destruct (overlong r) eqn:Ho; [by apply overlong_refused|].
  apply (record_validates sha256 sha256_hex unicode_digit isoformat isoformat_ok cache_reported SCALE scale_small).
  by apply written_record_ok.
Qed.

Section capture.
Context {W : Type} `{OutboxPortLaws W}.
Variable fresh : nat → string.
Hypothesis fresh_hex : ∀ n, is_hex 32 (fresh n) = true.
Abbreviation log_of w calls := (capture_log (cr_capture (capture_run sha256 fresh (W := W) w calls))).

(** C14: the contract's verdict on every record a capture writes. After any history of
    calls whose texts, counts and receipts keep the contract's limits, over any writer,
    every record the capture has submitted, written at any time, is accepted from a host
    under its own kind: it has exactly the keys of its schema, each of its type and
    within its limits, and a receipt keeps the rules across its fields and has the
    fingerprints the Gateway recomputes; with one exception, the end of a stream with
    more than 256 open epochs, which the contract refuses. The verdict is the same on the
    payload as a frame holds it, with its keys sorted. *)
Theorem host_payload_accepted w calls i r st at_ :
  port_log w = [] → Forall (call_within SCALE) calls → log_of w calls !! i = Some (r, st) →
  let verdict := if overlong r then Err (mkContractError "payload") else Ok (kind_of r) in
  validate (JObject (payload_of at_ r)) "host" = verdict ∧
  (json_ok (JObject (payload_of at_ r)) → validate (JObject (sorted_payload (payload_of at_ r))) "host" = verdict).
Proof.
  intros Hw Hok Hi verdict.
  assert (written_ok SCALE r) as Hr.
  { pose proof (wr_log _ _ (run_writes sha256 sha256_hex fresh fresh_hex SCALE w calls Hw Hok)) as Hl.
    rewrite Forall_lookup in Hl. by apply (Hl _ _ Hi). }
  split; [by apply written_verdict|]. intros Hj. rewrite validate_sorted by done. by apply written_verdict.
Qed.

(** A frame of the stream the capture writes: of a record it submitted, other than an
    overlong end, or of a gap the outbox put in. *)
Definition framed_record w calls (sid : string) (r : OutboxRecord) : Prop :=
  ∃ p seq prev eid, frameable sid seq prev p eid ∧ frame sha256 sid seq prev p eid = Some r ∧
    ((∃ at_ cr, cr ∈ (log_of w calls).*1 ∧ overlong cr = false ∧ p = payload_of at_ cr) ∨
     ∃ first last, 0 ≤ first ∧ 0 ≤ last ∧ p = gap_payload first last).

Lemma framed_captured w calls sid r : port_log w = [] → Forall (call_within SCALE) calls →
  framed_record w calls sid r → captured sha256 isoformat cache_reported SCALE sid r.
Proof.
  intros Hw Hok (p & seq & prev & eid & Hf & Hr & Hp). exists p, seq, prev, eid. split_and!; [|done..].
  destruct Hp as [(at_ & cr & Hin & Ho & ->)|?]; [left|by right]. exists at_, cr. split; [|done].
  apply written_record_ok; [|done]. apply list_elem_of_fmap in Hin as ([cr' st] & -> & Hin).
  pose proof (wr_log _ _ (run_writes sha256 sha256_hex fresh fresh_hex SCALE w calls Hw Hok)) as Hl.
  rewrite Forall_forall in Hl. by apply (Hl _ Hin).
Qed.

(** C18: what a capture wrote, the drain sends so that the contract accepts it. For any
    history of calls within the contract's limits, any increasing choice of the records
    of its stream (gaps of the outbox included, an end with more than 256 open epochs
    excluded), none longer than the outbox's record limit, is cut into batches that are
    these records in order; and for any ledger and any committed prefix, below sequence
    2^63, that a batch names, the batch's body is within the route's limit and the
    Gateway reads it back as exactly the batch's records. *)
Theorem drained_batches_accepted w calls sid records ledger after batch :
  port_log w = [] → Forall (call_within SCALE) calls → is_hex 32 sid = true →
  Forall (framed_record w calls sid) records →
  Forall (λ r, N.of_nat (String.length (ob_line r)) ≤ MAX_RECORD_BYTES)%N records →
  increasing records = true →
  from_option (λ l, is_hex 32 l = true) True ledger → prefix_ok after.1 after.2 → after.1 < 2 ^ 63 →
  concat (batches records) = records ∧
  (batch ∈ batches records →
   parse_batch sha256 unicode_digit (body_bytes (batch_document "host" sid ledger after.1 after.2 batch)) =
     Ok (mkCaptureBatch "host" sid ledger after.1 after.2 batch)).
Proof.
  intros Hw Hok Hs Hr. apply (batches_accepted sha256 sha256_hex unicode_digit isoformat isoformat_ok cache_reported SCALE
    scale_small); [done|]. eapply Forall_impl; [exact Hr|]. intros r. by apply framed_captured.
Qed.
End capture.
End verdict.

(** * A capture over a writer that writes at once *)

#[local] Instance at_once : OutboxPort log := {|
  port_submit l r := (length l, (l ++ [(r, TWritten (Z.of_nat (length l) + 1))])%list);
  port_ticket l t := default TPending (snd <$> l !! t);
  port_wait l t := (match l !! t with Some (_, TWritten _) => true | _ => false end, l);
  port_work l := l;
  port_close l := (true, l)
|}.

#[local] Instance at_once_laws : OutboxPortLaws log.
Proof.
  refine {| port_log l := l |}; simpl; intros; try apply log_step_refl; [done| |].
  - split; [done|]. eexists _, _. split; [done|apply log_step_refl].
  - split; [apply log_step_refl|]. destruct (w !! t) as [[r []]|]; naive_solver.
Defined.

Definition example_ids (n : nat) : string := if Nat.even n then example_id "c" else example_id "b".
Lemma example_ids_hex n : is_hex 32 (example_ids n) = true.
Proof. unfold example_ids. by destruct (Nat.even n). Qed.

Lemma example_history_within : Forall (call_within 6) example_history.
Proof.
  unfold example_history, opt_text, text. assert (receipt_ok 6 example_settled) as Hr by apply example_attempt_ok.
  repeat apply Forall_cons_2; try apply Forall_nil_2; try exact Hr; try exact I; cbn [call_within];
    split_and?; try (vm_compute; reflexivity); try exact I; try (apply (bool_decide_unpack _); vm_compute; exact I);
    try (repeat constructor; vm_compute; reflexivity); vm_compute; lia || done.
Qed.

(** 257 turns begun, none closed, and the capture stopped. *)
Definition many_turns : list capture_call :=
  ((λ n : nat, CallInvocationOpened (pretty n) None) <$> seq 0 257) ++ [CallStop].

Lemma many_turns_within : Forall (call_within 6) many_turns.
Proof.
  apply Forall_app_2; [|by apply Forall_singleton]. apply Forall_fmap, Forall_forall. intros n Hn. split; [|exact I].
  assert (Forall (λ n : nat, text (pretty n)) (seq 0 257)) as Hall.
  { apply (bool_decide_unpack _). vm_compute. exact I. }
  rewrite Forall_forall in Hall. by apply Hall.
Qed.

Abbreviation example_capture calls := (cr_capture (capture_run checksum_hex example_ids (W := log) [] calls)).

Lemma example_fifth : ∃ r st, capture_log (example_capture example_history) !! 4%nat = Some (r, st) ∧
  overlong r = false ∧ kind_of r = "attempt.receipt".
Proof. eexists _, _. split; [vm_compute; reflexivity|]. split; reflexivity. Qed.

Lemma many_turns_last : ∃ l st, capture_log (example_capture many_turns) !! 515%nat = Some (StreamEnd l, st) ∧
  length l = 257%nat.
Proof. eexists _, _. split; [vm_compute; reflexivity|]. vm_compute. reflexivity. Qed.

Lemma host_payload_accepted_witness :
  (∃ r st, capture_log (example_capture example_history) !! 4%nat = Some (r, st) ∧
     validate_payload checksum_hex ascii_digit (JObject (example_encode r)) "host" = Ok "attempt.receipt") ∧
  ∃ l st, capture_log (example_capture many_turns) !! 515%nat = Some (StreamEnd l, st) ∧ length l = 257%nat ∧
    validate_payload checksum_hex ascii_digit (JObject (example_encode (StreamEnd l))) "host" = Err (mkContractError "payload").
Proof.
  pose proof (host_payload_accepted checksum_hex checksum_is_hex ascii_digit example_time example_time_ok (λ _, true) 6
    ltac:(vm_compute; lia) example_ids example_ids_hex (W := log) []) as H.
  split.
  - destruct example_fifth as (r & st & Hl & Ho & Hk). exists r, st. split; [exact Hl|].
    destruct (H example_history 4%nat r st 0 eq_refl example_history_within Hl) as [Hv _].
    refine (eq_trans Hv _). rewrite Ho, Hk. reflexivity.
  - destruct many_turns_last as (l & st & Hl & Hlen). exists l, st. split; [exact Hl|]. split; [exact Hlen|].
    destruct (H many_turns 515%nat _ st 0 eq_refl many_turns_within Hl) as [Hv _].
    refine (eq_trans Hv _). unfold overlong. rewrite Hlen. reflexivity.
Defined.

Lemma example_begin_written : example_begin ∈ (capture_log (example_capture example_history)).*1.
Proof. apply list_elem_of_In. vm_compute. right. left. reflexivity. Qed.

Lemma example_records_framed :
  Forall (framed_record checksum_hex example_time (λ _, true) 6 example_ids (W := log) [] example_history (example_id "a"))
    example_records.
Proof.
  unfold example_records. destruct (frame _ _ 1 _ _ _) as [r|] eqn:Hr; [|constructor].
  assert (is_hex 64 (ob_digest r) = true) as Hd.
  { revert Hr. vm_compute. intros [= <-]. reflexivity. }
  constructor.
  { exists (example_encode example_begin), 1, GENESIS, (example_id "1"). split; [|split; [done|]].
    - split_and!; [done|done|done|apply example_begin_ok|done].
    - left. exists 0, example_begin. split; [apply example_begin_written|done]. }
  destruct (frame _ _ 3 _ _ _) as [g|] eqn:Hg; [|constructor]. constructor; [|constructor].
  exists (gap_payload 2 2), 3, (ob_digest r), (example_id "2"). split; [|split; [done|]].
  - split_and!; [done|done|done|apply example_gap_ok|done].
  - right. by exists 2, 2.
Qed.

Lemma drained_batches_accepted_witness :
  length (batches example_records) = 1%nat ∧
  parse_batch checksum_hex ascii_digit (body_bytes (batch_document "host" (example_id "a") None 0 GENESIS example_records)) =
    Ok (mkCaptureBatch "host" (example_id "a") None 0 GENESIS example_records).
Proof.
  split; [vm_compute; reflexivity|].
  pose proof (drained_batches_accepted checksum_hex checksum_is_hex ascii_digit example_time example_time_ok (λ _, true) 6
    ltac:(vm_compute; lia) example_ids example_ids_hex (W := log) [] example_history (example_id "a") example_records None
    (0, GENESIS) example_records) as H.
  apply (H eq_refl example_history_within eq_refl example_records_framed);
    [apply (bool_decide_unpack _); vm_compute; exact I|vm_compute; reflexivity|exact I|by split_and!|vm_compute; reflexivity|].
  assert (batches example_records = [example_records]) as -> by (vm_compute; reflexivity). left.
Defined.
