(* ===== verification/Delivery.v ===== *)
(** What the delivery of [Drain] achieves: the ledger holds a prefix of each stream and the
    stream's stored acknowledgement stays within it, through losses of requests, replies
    and transactions; a pass that ends well has delivered everything it saw. This is
    proved for passes whose scan shows the stream's remaining records and whose
    acknowledgements are written whole or not at all; the examples at the end show what
    can go wrong without. The pass is proved against [SendLaws]; the Gateway's own send and
    the host's post are shown to be instances over [Ledger]. *)
From stdpp Require Import sorting.
From S2P Require Import Prelude Text Json JsonLoads Settlement Outbox Capture UsageContract OutboxQueue Ledger Drain.

Local Open Scope string_scope.
Local Open Scope Z_scope.

(** * The log of acknowledgements *)

Lemma byte_lines_app t b :
  byte_lines (t +:+ String NEWLINE b) = (byte_lines (t +:+ String NEWLINE "") ++ byte_lines b)%list.
Proof.
  induction t as [|c t IH]; [done|]. rewrite !string_cons_app. cbn [byte_lines]. destruct (Ascii.eqb c NEWLINE).
  { by rewrite IH. }
  assert (match t +:+ String NEWLINE b with String d _ => Ascii.eqb d NEWLINE | "" => false end =
          match t +:+ String NEWLINE "" with String d _ => Ascii.eqb d NEWLINE | "" => false end) as -> by (by destruct t).
  destruct (Ascii.eqb c RETURN && _); [by rewrite IH|]. rewrite IH.
  assert (byte_lines (t +:+ String NEWLINE "") ≠ []) as Hne.
  { destruct t as [|d t]; [done|]. rewrite string_cons_app. cbn [byte_lines].
    repeat case_match; done. }
  by destruct (byte_lines (t +:+ String NEWLINE "")).
Qed.

Lemma whole_byte_lines log line : whole_lines log → byte_lines (log +:+ line) = (byte_lines log ++ byte_lines line)%list.
Proof. intros [->|[t ->]]; [done|]. rewrite string_app_assoc. apply byte_lines_app. Qed.

Lemma byte_lines_line s : prints s → byte_lines (s +:+ String NEWLINE "") = [s +:+ String NEWLINE ""].
Proof.
  induction s as [|c s IH]; intros Hs; [done|]. rewrite string_cons_app. simpl in Hs. apply andb_true_iff in Hs as [Hc Hs].
  cbn [byte_lines]. rewrite IH by done.
  destruct (Ascii.eqb_spec c NEWLINE) as [->|_]; [by vm_compute in Hc|].
  destruct (Ascii.eqb_spec c RETURN) as [->|_]; [by vm_compute in Hc|done].
Qed.

Section acks.
Variable sha256 : string → string.
Hypothesis sha256_hex : ∀ s, is_hex 64 (sha256 s) = true.

(** The line of an acknowledgement is read as that acknowledgement. *)
Lemma ack_line sid instance seq digest eid dir : is_hex 32 sid = true → is_hex 32 instance = true → 1 ≤ seq →
  is_hex 64 digest = true → is_hex 32 eid = true → sd_name dir = sid →
  ∃ r s, frame sha256 sid 1 GENESIS (ack_payload dir instance seq digest) eid = Some r ∧
    prints s ∧ ob_line r = s +:+ String NEWLINE "" ∧ ack_of sha256 sid (ob_line r) = Some (mkAck instance sid seq digest).
Proof.
  intros Hs Hi Hq Hd He Hn.
  assert (frameable sid 1 GENESIS (ack_payload dir instance seq digest) eid) as Hf.
  { split_and!; try done. unfold ack_payload. rewrite Hn. constructor.
    - apply (bool_decide_unpack _). vm_compute. exact I.
    - simpl. rewrite !Forall_cons. split_and!; try by apply ascii_valid. constructor.
    - simpl. rewrite !Forall_cons. split_and!; [by apply ok_string, (hex_ascii 32)|by apply ok_string, (hex_ascii 32)|
        apply written_int|by apply ok_string, (hex_ascii 64)|constructor]. }
  destruct (frame_parses sha256 sha256_hex _ _ _ _ _ Hf) as (r & Hr & Hframed).
  destruct (frame_line_prints sha256 _ _ _ _ _ _ sha256_hex Hf Hr) as (s & Hps & Hline). exists r, s. split_and!; try done.
  unfold ack_of. rewrite (fr_parse _ _ _ _ _ _ _ Hframed), (fr_payload _ _ _ _ _ _ _ Hframed). unfold ack_payload. rewrite Hn.
  change (sorted_payload [("ledger_instance", JString instance); ("stream_id", JString sid); ("sequence", JNumber (json_int seq));
    ("digest", JString digest)]) with [("digest", JString digest); ("ledger_instance", JString instance);
    ("sequence", JNumber (json_int seq)); ("stream_id", JString sid)].
  set (d := [("digest", JString digest); _; _; _]).
  change (string_field "ledger_instance" d) with (Some instance). change (string_field "stream_id" d) with (Some sid).
  change (string_field "digest" d) with (Some digest). change (int_field "sequence" d) with (int_value (JNumber (json_int seq))).
  rewrite (proj2 (written_int seq)), Hi, Hd, String.eqb_refl, (proj2 (Z.leb_le _ _)) by done. done.
Qed.

Lemma landed_all n s : (String.length s ≤ n)%nat → landed n s = s.
Proof.
  unfold landed. revert n. induction s as [|c s IH]; intros [|n] Hn; try done; simpl in Hn; [lia|].
  simpl. by rewrite IH by lia.
Qed.

(** The log holds whole lines, and its last acknowledgement is [ack]. *)
Definition log_ok (dir : StreamDir) (ack : option Ack) : Prop :=
  whole_lines (default "" (sd_ack_log dir)) ∧ read_ack sha256 dir = ack.

Definition add_log (dir : StreamDir) (data : string) : StreamDir :=
  mkStreamDir (sd_name dir) (sd_segments dir) (Some (default "" (sd_ack_log dir) +:+ data)).

Lemma add_log_nothing dir ack : log_ok dir ack → log_ok (add_log dir "") ack.
Proof.
  intros [Hw Hr]. unfold log_ok, add_log in *. cbn [sd_ack_log default]. rewrite string_app_nil. split; [done|].
  unfold read_ack in *. cbn [sd_ack_log sd_name]. destruct (sd_ack_log dir); cbn [default]; [|done]. done.
Qed.

Lemma add_log_line dir ack line a s : log_ok dir ack → prints s → line = s +:+ String NEWLINE "" →
  ack_of sha256 (sd_name dir) line = Some a → log_ok (add_log dir line) (Some a).
Proof.
  intros [Hw _] Hs Hline Ha. split; cbn [add_log sd_ack_log default from_option].
  { subst line. apply whole_lines_line. }
  unfold read_ack, add_log. cbn [sd_ack_log sd_name]. rewrite whole_byte_lines, Hline, byte_lines_line by done. unfold id.
  rewrite omap_app. rewrite <- Hline. simpl. rewrite Ha. by rewrite last_snoc.
Qed.

(** A failed write of an acknowledgement leaves nothing of it or all of it. *)
Definition clean_fault (dir : StreamDir) (instance : string) (seq : Z) (digest eid : string) (fault : option nat) : Prop :=
  match fault with
  | None => True
  | Some n => n = 0%nat ∨
      ∀ r, frame sha256 (sd_name dir) 1 GENESIS (ack_payload dir instance seq digest) eid = Some r → (String.length (ob_line r) ≤ n)%nat
  end.

Lemma write_ack_spec dir scan instance seq digest eid fault ack res dir' :
  is_hex 32 (sd_name dir) = true → is_hex 32 instance = true → 1 ≤ seq → is_hex 64 digest = true → is_hex 32 eid = true →
  scan_of dir scan = true → (∃ r, r ∈ held scan ∧ ob_sequence r = seq ∧ ob_digest r = digest) → log_ok dir ack →
  (∀ a, ack = Some a → ak_sequence a < seq) → clean_fault dir instance seq digest eid fault →
  write_ack sha256 dir scan instance seq digest eid fault = (res, dir') →
  sd_name dir' = sd_name dir ∧ sd_segments dir' = sd_segments dir ∧
  let new := Some (mkAck instance (sd_name dir) seq digest) in
  match fault with
  | None => res = Ok true ∧ log_ok dir' new
  | Some _ => (∃ e, res = Err e) ∧ (log_ok dir' ack ∨ log_ok dir' new)
  end.
Proof.
  intros Hn Hi Hq Hd He Hscan (r & Hr & Hrs & Hrd) Hlog Hold Hclean H. unfold write_ack in H.
  rewrite Hi, Hd, Hscan in H. cbn [andb negb] in H.
  assert (existsb (λ r, (ob_sequence r =? seq) && String.eqb (ob_digest r) digest) (held scan) = true) as Hex.
  { apply existsb_exists. exists r. rewrite <- list_elem_of_In. split; [done|]. by rewrite Hrs, Hrd, Z.eqb_refl, String.eqb_refl. }
  rewrite Hex in H. cbn [negb] in H. destruct Hlog as [Hw Hack]. rewrite Hack in H.
  assert (match ack with Some stored => seq <=? ak_sequence stored | None => false end = false) as Hnew.
  { destruct ack as [a|]; [|done]. apply Z.leb_gt. by apply Hold. }
  rewrite Hnew in H. destruct (ack_line (sd_name dir) instance seq digest eid dir) as (f & s & Hf & Hs & Hl & Ha); try done.
  rewrite Hf in H. pose proof (conj Hw Hack : log_ok dir ack) as Hlog.
  destruct fault as [n|]; injection H as <- <-; (split; [done|]); (split; [done|]).
  - split; [by eexists|]. change (mkStreamDir _ _ _) with (add_log dir (landed n (ob_line f))).
    destruct Hclean as [->|Hall].
    + left. replace (landed 0 (ob_line f)) with "" by (by destruct (ob_line f)). by apply add_log_nothing.
    + right. rewrite landed_all by auto. by eapply add_log_line.
  - split; [done|]. change (mkStreamDir _ _ _) with (add_log dir (ob_line f)). by eapply add_log_line.
Qed.

(** Compaction leaves the log alone. *)
Lemma compact_log dir scan instance active names dir' ack : compact sha256 dir scan instance active = (names, dir') →
  log_ok dir ack → sd_name dir' = sd_name dir ∧ log_ok dir' ack.
Proof.
  intros H [Hw Hr]. unfold compact in H. repeat case_match; simplify_eq; done.
Qed.
End acks.

(** * Batches from a position *)

(** How many more records a batch takes that has [count] of them and their [size]. *)
Fixpoint room (count : nat) (size : N) (records : list OutboxRecord) : nat :=
  match records with
  | [] => 0
  | r :: rest =>
      if negb (count =? 0)%nat && ((MAX_RECORDS <=? count)%nat || (BATCH_BUDGET <? size + line_cost r)%N) then 0%nat
      else S (room (S count) (size + line_cost r)%N rest)
  end.
Definition first_batch (records : list OutboxRecord) : nat := room 0 0 records.

Lemma room_take k l : ∀ c s, room c s (take k l) = Nat.min (room c s l) k.
Proof.
  revert k. induction l as [|r l IH]; intros [|k] c s; simpl; try lia. case_match; [done|]. rewrite IH. lia.
Qed.

Lemma batches_from_room records : ∀ batch size, (batch ++ records ≠ [])%list →
  batches_from batch size records =
    (batch ++ take (room (length batch) size records) records)%list ::
    batches (drop (room (length batch) size records) records).
Proof.
  induction records as [|r records IH]; intros batch size Hne; cbn [batches_from room].
  { rewrite app_nil_r in Hne. rewrite bool_decide_eq_false_2 by done. by rewrite app_nil_r. }
  assert (negb (bool_decide (batch = [])) = negb (length batch =? 0)%nat) as Hb by (by destruct batch).
  rewrite Hb. case_match.
  - rewrite take_0, app_nil_r, drop_0. unfold batches. cbn [batches_from bool_decide negb andb app]. done.
  - rewrite IH by (by destruct batch). rewrite length_app. cbn [length]. rewrite Nat.add_1_r, <- (assoc_L (++)). done.
Qed.

Lemma batches_cons records : records ≠ [] →
  batches records = take (first_batch records) records :: batches (drop (first_batch records) records).
Proof. intros Hne. unfold batches at 1. by rewrite batches_from_room. Qed.

Lemma first_batch_bounds records : records ≠ [] → (1 ≤ first_batch records ≤ MAX_RECORDS)%nat ∧ (first_batch records ≤ length records)%nat.
Proof.
  intros Hne. assert (first_batch records ≤ length records)%nat as Hle.
  { unfold first_batch. generalize 0%nat as c, 0%N as s. clear Hne.
    induction records as [|r records IH]; intros c s; simpl; [done|]. case_match; [lia|]. specialize (IH (S c) (s + line_cost r)%N). lia. }
  destruct (batches_spec records) as [_ Hb]. rewrite batches_cons in Hb by done. apply Forall_cons in Hb as [[_ Hc _] _].
  rewrite length_take, Nat.min_l in Hc by done. split; [|done]. split; [|done].
  unfold first_batch. destruct records; [done|]. simpl. lia.
Qed.

(** * A stream's records *)

(** The records of a stream, as they were confirmed one after the other. *)
Record stream_of (sid : string) (records : list OutboxRecord) : Prop := {
  sr_linked : linked 0 GENESIS records;
  sr_each : Forall (λ r, ob_stream_id r = sid ∧ is_hex 64 (ob_digest r) = true) records;
  sr_genesis : Forall (λ r, ob_digest r ≠ GENESIS) records
}.

Lemma linked_after records : ∀ n d r, linked n d records → r ∈ records → n < ob_sequence r.
Proof.
  induction records as [|x l IH]; intros n d r Hl Hr; [by apply not_elem_of_nil in Hr|]. simpl in Hl. destruct Hl as [Hf Hl].
  apply follows_after in Hf. apply elem_of_cons in Hr as [->|Hr]; [done|]. specialize (IH _ _ _ Hl Hr). lia.
Qed.

Lemma linked_drop records : ∀ n d k, linked n d records →
  linked (end_from n d (take k records)).1 (end_from n d (take k records)).2 (drop k records).
Proof.
  induction records as [|x l IH]; intros n d [|k] Hl; try done. cbn [take drop]. rewrite end_from_cons. apply IH. by destruct Hl.
Qed.

(** A position in a stream: what its first [a] records end with. *)
Definition mark (R : list OutboxRecord) (a : nat) : Z * string := end_of (take a R).

Lemma mark_S R a r : R !! a = Some r → mark R (S a) = (ob_sequence r, ob_digest r).
Proof. intros Hr. unfold mark, end_of, end_from. rewrite (take_S_r _ _ r) by done. by rewrite last_snoc. Qed.

Lemma linked_mark R a : linked 0 GENESIS R → linked (mark R a).1 (mark R a).2 (drop a R).
Proof. apply linked_drop. Qed.

Lemma mark_lt R a b : linked 0 GENESIS R → (a < b ≤ length R)%nat → (mark R a).1 < (mark R b).1.
Proof.
  intros Hl Hab. destruct b as [|b]; [lia|]. destruct (lookup_lt_is_Some_2 R b) as [r Hr]; [lia|]. rewrite (mark_S _ _ _ Hr).
  eapply linked_after; [by apply linked_mark|]. apply list_elem_of_lookup. exists (b - a)%nat. rewrite lookup_drop.
  replace (a + (b - a))%nat with b by lia. done.
Qed.

Lemma mark_inj R a b : linked 0 GENESIS R → (a ≤ length R)%nat → (b ≤ length R)%nat → (mark R a).1 = (mark R b).1 → a = b.
Proof.
  intros Hl Ha Hb He. destruct (Nat.lt_trichotomy a b) as [H|[H|H]]; [|done|];
    [pose proof (mark_lt R a b Hl ltac:(lia))|pose proof (mark_lt R b a Hl ltac:(lia))]; lia.
Qed.

Lemma mark_prefix sid R a : stream_of sid R → (a ≤ length R)%nat → prefix_ok (mark R a).1 (mark R a).2.
Proof.
  intros [Hl He Hg] Ha. destruct a as [|a]; [by split_and!|]. destruct (lookup_lt_is_Some_2 R a) as [r Hr]; [lia|].
  pose proof (mark_lt R 0 (S a) Hl ltac:(lia)) as Hpos. rewrite (mark_S _ _ _ Hr) in *. simpl in *.
  rewrite Forall_forall in He, Hg. assert (r ∈ R) as Hin by (by eapply list_elem_of_lookup_2).
  destruct (He r Hin) as [_ Hd]. specialize (Hg r Hin). split; [lia|]. split; [done|]. split; [lia|done].
Qed.

(** * Passes over a send *)

(** What a send promises about one stream of records [R]: [at_ m g] says the ledger behind it
    holds the first [m] of them. Sent a batch that starts no later than that, it commits
    it or not; only when it has does it answer, and then with where it now ends. *)
Class SendLaws {G : Type} (send : string → option string → Z * string → list OutboxRecord → eff G DrainError CaptureAck)
    (sid instance : string) (R : list OutboxRecord) (at_ : nat → G → Prop) : Prop := {
  send_law a n m ledger g r g' : (a ≤ m ≤ length R)%nat → (1 ≤ n ≤ MAX_RECORDS)%nat → (a + n ≤ length R)%nat →
    from_option (λ l, is_hex 32 l = true) True ledger → at_ m g →
    send sid ledger (mark R a) (take n (drop a R)) g = (r, g') →
    ∃ m', at_ m' g' ∧ (m' = m ∨ m' = Nat.max m (a + n)) ∧
      match r with
      | Ok ack => m' = Nat.max m (a + n) ∧ ca_ledger_instance ack = instance ∧ ca_stream_id ack = sid ∧
                  (ca_sequence ack, ca_digest ack) = mark R m'
      | Err _ => True
      end;
  at_unique m m' g : at_ m g → at_ m' g → m = m'
}.

Section pass.
Variable sha256 : string → string.
Hypothesis sha256_hex : ∀ s, is_hex 64 (sha256 s) = true.
Context {G : Type}.
Variable send : string → option string → Z * string → list OutboxRecord → eff G DrainError CaptureAck.
Variables sid instance : string.
Variable R : list OutboxRecord.
Variable at_ : nat → G → Prop.
Context `{!SendLaws send sid instance R at_}.
Hypothesis sid_hex : is_hex 32 sid = true.
Hypothesis instance_hex : is_hex 32 instance = true.
Hypothesis R_ok : stream_of sid R.

(** The send gave [e] up: it raised it, or it raised it as transient in the last attempt. *)
Definition send_fails (e : DrainError) : Prop :=
  ∃ ledger after batch g g' e', send sid ledger after batch g = (Err e', g') ∧
    (e = e' ∨ ∃ reason, e' = DrainStop reason true ∧ e = DrainStop reason false).

(** An acknowledgement could not be written. *)
Definition ack_fails (io : AckIo) (e : DrainError) : Prop := ∃ seq n x, (io seq).2 = Some n ∧ e = DrainOutbox x.

(** The ledger is within a batch or the withheld record after it. *)
Definition named_at (withheld : option OutboxRecord) (m end_ : nat) : Prop :=
  (m ≤ end_)%nat ∨ m = S end_ ∧ is_Some withheld ∧ withheld = R !! end_.

Lemma names_mark a n m withheld ack : (1 ≤ n)%nat → (a + n ≤ length R)%nat → named_at withheld m (a + n) →
  (ca_sequence ack, ca_digest ack) = mark R (Nat.max m (a + n)) → names (take n (drop a R)) withheld ack = true.
Proof.
  intros Hn Hlen Hm Hack. unfold names. rewrite existsb_app, orb_true_iff.
  destruct Hm as [Hm|(-> & [w Hw] & Hr)].
  - left. rewrite Nat.max_r in Hack by done. destruct (lookup_lt_is_Some_2 R (a + n - 1)) as [r Hr]; [lia|].
    replace (a + n)%nat with (S (a + n - 1)) in Hack by lia. rewrite (mark_S _ _ _ Hr) in Hack. injection Hack as Hs Hd.
    assert (last (take n (drop a R)) = Some r) as ->.
    { rewrite last_lookup, length_take, length_drop. rewrite lookup_take_lt by lia. rewrite lookup_drop.
      rewrite <- Hr. f_equal. lia. }
    simpl. by rewrite Hs, Hd, Z.eqb_refl, String.eqb_refl.
  - right. rewrite Nat.max_l in Hack by lia. rewrite Hw in Hr. symmetry in Hr. rewrite (mark_S _ _ _ Hr) in Hack. injection Hack as Hs Hd.
    rewrite Hw. simpl. by rewrite Hs, Hd, Z.eqb_refl, String.eqb_refl.
Qed.

Lemma committed_spec a n ledger withheld attempts : (1 ≤ n ≤ MAX_RECORDS)%nat → (a + n ≤ length R)%nat →
  from_option (λ l, is_hex 32 l = true) True ledger →
  ∀ m reason g r g', (a ≤ m ≤ length R)%nat → named_at withheld m (a + n) → at_ m g →
  (attempts = 0%nat → send_fails (DrainStop reason false)) →
  committed_loop send attempts reason sid ledger (mark R a) (take n (drop a R)) withheld g = (r, g') →
  ∃ m', at_ m' g' ∧ (m' = m ∨ m' = Nat.max m (a + n)) ∧
    match r with
    | Ok ack => m' = Nat.max m (a + n) ∧ ca_ledger_instance ack = instance ∧ ca_stream_id ack = sid ∧
                (ca_sequence ack, ca_digest ack) = mark R m'
    | Err e => send_fails e
    end.
Proof.
  intros Hn Hlen Hledger. induction attempts as [|attempts IH]; intros m reason g r g' Hm Hname Hat Hzero H; simpl in H.
  { injection H as <- <-. exists m. split_and!; auto. }
  destruct (send sid ledger (mark R a) (take n (drop a R)) g) as [res g1] eqn:Hs.
  destruct (send_law a n m ledger g res g1 Hm Hn Hlen Hledger Hat Hs) as (m1 & Hat1 & Hm1 & Hres).
  destruct res as [ack|e].
  - destruct Hres as (-> & Hi & Hsid & Hmark). rewrite Hsid, String.eqb_refl in H. simpl in H.
    rewrite (names_mark a n m withheld ack) in H by (done || lia). simpl in H. injection H as <- <-.
    exists (Nat.max m (a + n)). split_and!; auto.
  - assert (send_fails e) as He by (do 6 eexists; split; [exact Hs|by left]).
    destruct e as [why []|x|x]; [|injection H as <- <-; exists m1; by split_and!..].
    destruct (IH m1 why g1 r g') as (m2 & Hat2 & Hm2 & Hres2); [lia| |done| |done|].
    + destruct Hm1 as [->| ->]; [done|]. destruct Hname as [Hle|(-> & Hw)]; [left; lia|]. right. split; [lia|done].
    + intros _. do 6 eexists. split; [exact Hs|]. right. by eexists.
    + exists m2. split; [done|]. split; [lia|]. destruct r as [ack|e]; [|done]. destruct Hres2 as (-> & ?). split; [lia|done].
Qed.

Definition ack_at (a : nat) : option Ack :=
  if (a =? 0)%nat then None else Some (mkAck instance sid (mark R a).1 (mark R a).2).

(** The stream's stored acknowledgement names its first [a] records and the ledger holds its
    first [m]: it is ahead by no more than the batch that starts at [a]. *)
Record delivered_to (a m : nat) (d : Delivery) : Prop := {
  dt_name : sd_name (dl_dir d) = sid;
  dt_log : log_ok sha256 (dl_dir d) (ack_at a);
  dt_at : at_ m (dl_ledger d);
  dt_le : (a ≤ m ≤ length R)%nat;
  dt_lead : (m ≤ a + first_batch (drop a R))%nat
}.

(** What a pass sees of the stream: its scan, read up to its bound, holds the [k] records after
    the acknowledgement, and as far as the ledger holds more, that is the withheld tail. *)
Record sees (a m k : nat) (scan : StreamScan) (bound : Z) : Prop := {
  se_stream : ss_stream_id scan = sid ∧ Forall (λ r, ob_stream_id r = sid) (held scan);
  se_pending : filter (λ r, (mark R a).1 < ob_sequence r ∧ ob_sequence r ≤ bound) (ss_records scan) = take k (drop a R);
  se_length : (a + k ≤ length R)%nat;
  se_ledger : named_at (ss_unverified_tail scan) m (a + k)
}.

(** Its acknowledgements have fresh identifiers, and a failed write leaves all or nothing. *)
Definition io_ok (io : AckIo) : Prop := ∀ dir seq digest, sd_name dir = sid →
  is_hex 32 (io seq).1 = true ∧ clean_fault sha256 dir instance seq digest (io seq).1 (io seq).2.

Abbreviation deliver_ := (deliver sha256 send).

Lemma mark_hex m : (1 ≤ m ≤ length R)%nat → 1 ≤ (mark R m).1 ∧ is_hex 64 (mark R m).2 = true.
Proof.
  intros Hm. destruct (mark_prefix sid R m R_ok ltac:(lia)) as (_ & Hd & _). split; [|done].
  pose proof (mark_lt R 0 m (sr_linked _ _ R_ok) ltac:(lia)) as Hlt. change (mark R 0).1 with 0 in Hlt. lia.
Qed.

(** The record an acknowledgement names is held. *)
Lemma mark_held a n m scan : (1 ≤ n)%nat → (a + n ≤ length R)%nat →
  (∀ r, R !! (a + n - 1)%nat = Some r → r ∈ ss_records scan) → named_at (ss_unverified_tail scan) m (a + n) →
  let m' := Nat.max m (a + n) in ∃ x, x ∈ held scan ∧ ob_sequence x = (mark R m').1 ∧ ob_digest x = (mark R m').2.
Proof.
  intros Hn Hlen Hlast Hname m'. unfold held. destruct Hname as [Hnamed|(Hnamed & [w Hw] & Hr)].
  - destruct (lookup_lt_is_Some_2 R (a + n - 1)) as [x Hx]; [lia|]. exists x. rewrite elem_of_app. split; [left; by apply Hlast|].
    replace m' with (S (a + n - 1)) by lia. by rewrite (mark_S _ _ _ Hx).
  - exists w. rewrite elem_of_app, Hw. split; [right; simpl; left|]. rewrite Hw in Hr. symmetry in Hr.
    replace m' with (S (a + n)) by lia. by rewrite (mark_S _ _ _ Hr).
Qed.

Lemma deliver_batch_spec a n m ledger scan active io d r d' : (1 ≤ n ≤ MAX_RECORDS)%nat → (a + n ≤ length R)%nat →
  (n ≤ first_batch (drop a R))%nat → from_option (λ l, is_hex 32 l = true) True ledger →
  ss_stream_id scan = sid ∧ Forall (λ r, ob_stream_id r = sid) (held scan) →
  (∀ r, R !! (a + n - 1)%nat = Some r → r ∈ ss_records scan) → named_at (ss_unverified_tail scan) m (a + n) →
  io_ok io → delivered_to a m d →
  deliver_batch sha256 send scan active io (mark R a) ledger (take n (drop a R)) d = (r, d') →
  match r with
  | Ok ack => let m' := Nat.max m (a + n) in
      delivered_to m' m' d' ∧ (ca_sequence ack, ca_digest ack) = mark R m' ∧ ca_ledger_instance ack = instance
  | Err e => (∃ a' m', delivered_to a' m' d' ∧ (a ≤ a')%nat ∧ (m ≤ m')%nat) ∧ (send_fails e ∨ ack_fails io e)
  end.
Proof.
  intros Hn Hlen Hfirst Hledger [Hss Hheld] Hlast Hname Hio [Hnm Hlog Hat Hle Hlead] H. unfold deliver_batch in H.
  rewrite Hnm in H. unfold committed in H.
  destruct (committed_loop send MAX_ATTEMPTS "unsent" sid ledger _ _ _ (dl_ledger d)) as [res g] eqn:Hc.
  destruct (committed_spec a n ledger (ss_unverified_tail scan) MAX_ATTEMPTS Hn Hlen Hledger m "unsent" (dl_ledger d) res g
    Hle Hname Hat ltac:(done) Hc) as (m' & Hat' & Hm' & Hres).
  assert (Nat.max m (a + n) ≤ length R)%nat as Hmax by lia.
  destruct res as [ack|e].
  2:{ injection H as <- <-. split; [|by left]. exists a, m'. split; [|lia]. constructor; try done; lia. }
  destruct Hres as (Hmm & Hi & _ & Hmark). rewrite Hi in H. destruct (io (ca_sequence ack)) as [eid fault] eqn:Eio.
  destruct (mark_hex m' ltac:(lia)) as [Hone Hhex]. assert (ca_sequence ack = (mark R m').1 ∧ ca_digest ack = (mark R m').2)
    as [Hseq Hdig] by (by rewrite <- Hmark). destruct (Hio (dl_dir d) (ca_sequence ack) (ca_digest ack) Hnm) as [Heid Hclean].
  rewrite Eio in Heid, Hclean. simpl in Heid, Hclean.
  assert (scan_of (dl_dir d) scan = true) as Hscan.
  { unfold scan_of. rewrite Hss, Hnm, String.eqb_refl. simpl. apply forallb_forall. intros x Hx%list_elem_of_In.
    rewrite Forall_forall in Hheld. rewrite Hheld by done. apply String.eqb_refl. }
  pose proof (mark_held a n m scan ltac:(lia) Hlen Hlast Hname) as Hin. cbv zeta in Hin.
  rewrite <- Hmm, <- Hseq, <- Hdig in Hin.
  assert (∀ x, ack_at a = Some x → ak_sequence x < ca_sequence ack) as Hnew.
  { unfold ack_at. destruct (a =? 0)%nat; [done|]. intros x [= <-]. simpl. rewrite Hseq. apply mark_lt; [apply R_ok|lia]. }
  destruct (write_ack sha256 (dl_dir d) scan instance (ca_sequence ack) (ca_digest ack) eid fault) as [wr dir'] eqn:Hwr.
  apply (write_ack_spec sha256 sha256_hex _ _ _ _ _ _ _ (ack_at a)) in Hwr; try done; [|by rewrite Hnm|by rewrite Hseq|by rewrite Hdig].
  destruct Hwr as (Hnm' & _ & Hw). rewrite Hnm in Hnm', Hw. rewrite Hseq, Hdig in Hw.
  assert (∀ l, log_ok sha256 l (Some (mkAck instance sid (mark R m').1 (mark R m').2)) → log_ok sha256 l (ack_at m')) as Hnewlog.
  { intros l Hl. unfold ack_at. destruct (Nat.eqb_spec m' 0); [lia|done]. }
  destruct fault as [k|].
  - destruct Hw as [[x ->] Hlog']. injection H as <- <-. split; [|right; exists (ca_sequence ack), k, x; by rewrite Eio].
    destruct Hlog' as [Hlog'|Hlog'].
    + exists a, m'. split; [|lia]. constructor; try done; simpl; lia.
    + exists m', m'. split; [|lia]. constructor; simpl; [done|by apply Hnewlog|done|lia|lia].
  - destruct Hw as [-> Hlog']. unfold eff_bind, compact_stream, eff_ret in H. cbn [dl_dir dl_ledger dl_report] in H.
    destruct (compact sha256 dir' scan instance active) as [names_ dir2] eqn:Hcomp. injection H as <- <-.
    destruct (compact_log sha256 _ _ _ _ _ _ _ Hcomp Hlog') as [Hnm2 Hlog2]. rewrite <- Hmm.
    split; [|by split]. constructor; simpl; [congruence|by apply Hnewlog|done|lia|lia].
Qed.

Lemma first_named a m k tail : (1 ≤ k)%nat → (a + k ≤ length R)%nat → (m ≤ a + first_batch (drop a R))%nat →
  named_at tail m (a + k) →
  let n := first_batch (take k (drop a R)) in
  (1 ≤ n ≤ MAX_RECORDS)%nat ∧ (n ≤ k)%nat ∧ (n ≤ first_batch (drop a R))%nat ∧ named_at tail m (a + n) ∧
  ((m ≤ a + n)%nat ∨ m = S (a + k) ∧ n = k).
Proof.
  intros Hk Hlen Hlead Hname n.
  assert (take k (drop a R) ≠ []) as Hne by (intros H%(f_equal length); rewrite length_take, length_drop in H; simpl in H; lia).
  destruct (first_batch_bounds _ Hne) as [Hn _]. fold n in Hn.
  assert (n = Nat.min (first_batch (drop a R)) k) as Hmin by (apply room_take). split_and!; try lia.
  - destruct Hname as [Hm|(Hm & Hw)]; [left; lia|right]. assert (n = k) as -> by lia. done.
  - destruct Hname as [Hm|(Hm & Hw)]; lia.
Qed.

Lemma deliver_batches_spec scan active io : io_ok io → ss_stream_id scan = sid ∧ Forall (λ r, ob_stream_id r = sid) (held scan) →
  ∀ k a m ledger d r d', from_option (λ l, is_hex 32 l = true) True ledger → (a + k ≤ length R)%nat →
  named_at (ss_unverified_tail scan) m (a + k) →
  (∀ i r, (a ≤ i < a + k)%nat → R !! i = Some r → r ∈ ss_records scan) → delivered_to a m d →
  deliver_batches sha256 send scan active io (mark R a) ledger (batches (take k (drop a R))) d = (r, d') →
  ∃ a' m', delivered_to a' m' d' ∧ (a ≤ a')%nat ∧ (m ≤ m')%nat ∧
    match r with
    | Ok _ => (a + k ≤ a')%nat ∧ if (k =? 0)%nat then a' = a ∧ m' = m else a' = m'
    | Err e => send_fails e ∨ ack_fails io e
    end.
Proof.
  intros Hio Hss k. induction (lt_wf k) as [k _ IH]. intros a m ledger d r d' Hledger Hlen Hnamed Hin Hd H.
  destruct (Nat.eqb_spec k 0) as [->|Hk].
  { rewrite take_0 in H. injection H as <- <-. exists a, m. split; [done|]. lia. }
  destruct (first_named a m k (ss_unverified_tail scan)) as (Hn & Hnk & Hnf & Hname & Htail); [lia|done|apply Hd|done|].
  set (n := first_batch (take k (drop a R))) in *.
  rewrite batches_cons in H by (intros E%(f_equal length); rewrite length_take, length_drop in E; simpl in E; lia). fold n in H.
  rewrite take_take, Nat.min_l in H by done. rewrite skipn_firstn_comm, drop_drop in H. cbn [deliver_batches] in H.
  unfold eff_bind in H. destruct (deliver_batch _ _ _ _ _ _ _ _ _) as [res d1] eqn:Hb.
  apply (deliver_batch_spec a n m) in Hb; try done; [|lia|intros x Hx; apply (Hin (a + n - 1)%nat); [lia|done]].
  destruct res as [ack|e]; [|injection H as <- <-; destruct Hb as [(a' & m' & ? & ? & ?) ?]; by exists a', m'].
  destruct Hb as (Hd1 & Hmark & Hi). rewrite Hmark, Hi in H.
  destruct Htail as [Hmn|[Hahead Hnk']].
  2:{ rewrite Hnk', Nat.sub_diag, take_0 in H. injection H as <- <-. exists (Nat.max m (a + n)), (Nat.max m (a + n)).
      split; [done|]. lia. }
  assert (Nat.max m (a + n) = a + n)%nat as Hmax by lia.
  rewrite Hmax in *.
  destruct (IH (k - n)%nat ltac:(lia) (a + n)%nat (a + n)%nat (Some instance) d1 r d') as (a' & m' & H1 & H2 & H3 & H4); try done.
  - lia.
  - left. lia.
  - intros i x Hix Hx. apply (Hin i); [lia|done].
  - exists a', m'. split; [done|]. split; [lia|]. split; [lia|]. destruct r; [|done]. destruct H4 as [H4 H5]. split; [lia|].
    destruct (k - n =? 0)%nat; [lia|done].
Qed.

Lemma deliver_spec a m k scan bound active io d r d' : io_ok io → delivered_to a m d → sees a m k scan bound →
  deliver_ scan bound active io d = (r, d') →
  ∃ a' m', delivered_to a' m' d' ∧ (a ≤ a')%nat ∧ (m ≤ m')%nat ∧
    match r with
    | Ok _ => (a + k ≤ a')%nat ∧ ((1 ≤ k)%nat → a' = m')
    | Err e => send_fails e ∨ ack_fails io e
    end.
Proof.
  intros Hio Hd [Hss Hpending Hlen Hnamed] H. unfold deliver in H. pose proof (proj2 (dt_log _ _ _ Hd)) as Hack. rewrite Hack in H.
  assert (match ack_at a with Some x => (ak_sequence x, ak_digest x) | None => (0, GENESIS) end = mark R a) as Hafter.
  { unfold ack_at. destruct (Nat.eqb_spec a 0) as [->|]; [done|]. simpl. by destruct (mark R a). }
  rewrite Hafter, Hpending in H.
  assert (from_option (λ l, is_hex 32 l = true) True (ak_ledger_instance <$> ack_at a)) as Hledger
    by (unfold ack_at; by destruct (a =? 0)%nat).
  assert (∀ i x, (a ≤ i < a + k)%nat → R !! i = Some x → x ∈ ss_records scan) as Hin.
  { intros i x Hi Hx. assert (x ∈ take k (drop a R)) as Hmem.
    { apply list_elem_of_lookup. exists (i - a)%nat. rewrite lookup_take_lt, lookup_drop by lia. by replace (a + (i - a))%nat with i by lia. }
    rewrite <- Hpending in Hmem. by apply list_elem_of_filter in Hmem as [_ ?]. }
  assert (deliver_batches sha256 send scan active io (mark R a) (ak_ledger_instance <$> ack_at a) (batches (take k (drop a R))) d = (r, d') →
    ∃ a' m', delivered_to a' m' d' ∧ (a ≤ a')%nat ∧ (m ≤ m')%nat ∧
      match r with Ok _ => (a + k ≤ a')%nat ∧ ((1 ≤ k)%nat → a' = m') | Err e => send_fails e ∨ ack_fails io e end) as Hgo.
  { intros Hb. apply (deliver_batches_spec scan active io Hio Hss k a m) in Hb as (a' & m' & ? & ? & ? & Hr); try done.
    exists a', m'. split_and!; try done. destruct r; [|done]. destruct Hr as [? Hr]. split; [done|]. intros Hk.
    destruct (Nat.eqb_spec k 0); [lia|done]. }
  destruct (take k (drop a R)) as [|x l] eqn:Hl; [|by apply Hgo].
  destruct (ak_ledger_instance <$> ack_at a) as [l|] eqn:El; [|by apply Hgo].
  unfold compact_stream in H. destruct (compact sha256 (dl_dir d) scan l active) as [names_ dir'] eqn:Hc. injection H as <- <-.
  destruct Hd as [Hnm Hlog Hat Hle Hlead]. destruct (compact_log sha256 _ _ _ _ _ _ _ Hc Hlog) as [Hnm' Hlog'].
  assert (k = 0%nat) as -> by (apply (f_equal length) in Hl; rewrite length_take, length_drop in Hl; simpl in Hl; lia).
  exists a, m. split; [|lia]. constructor; simpl; try done. congruence.
Qed.

(** ** Any number of passes *)

(** A pass, and what happens since the last one: the writer appends, other streams are
    delivered, a report is started. *)
Record Pass := mkPass {
  pa_before : Delivery (G:=G) → Delivery (G:=G);
  pa_scan : StreamScan;
  pa_bound : Z;
  pa_active : option string;
  pa_io : AckIo
}.

Definition pass (p : Pass) (d : Delivery) : res DrainError unit * Delivery :=
  deliver_ (pa_scan p) (pa_bound p) (pa_active p) (pa_io p) (pa_before p d).
Definition passes (ps : list Pass) (d : Delivery) : Delivery := foldl (λ d p, (pass p d).2) d ps.

(** Wherever the stream and the ledger are, what happens in between leaves them there, and
    the pass sees what is there. *)
Definition sees_all (p : Pass) (d : Delivery) : Prop :=
  io_ok (pa_io p) ∧ ∀ a m, delivered_to a m d → delivered_to a m (pa_before p d) ∧ ∃ k, sees a m k (pa_scan p) (pa_bound p).
Fixpoint all_see (ps : list Pass) (d : Delivery) : Prop :=
  match ps with
  | [] => True
  | p :: ps => sees_all p d ∧ all_see ps (pass p d).2
  end.

Lemma all_see_snoc ps p : ∀ d, all_see (ps ++ [p])%list d ↔ all_see ps d ∧ sees_all p (passes ps d).
Proof. induction ps as [|q ps IH]; intros d; simpl; [tauto|]. rewrite IH. simpl. tauto. Qed.

Lemma passes_spec ps : ∀ a m d, delivered_to a m d → all_see ps d →
  ∃ a' m', delivered_to a' m' (passes ps d) ∧ (a ≤ a')%nat ∧ (m ≤ m')%nat.
Proof.
  induction ps as [|p ps IH]; intros a m d Hd Hsee; [by exists a, m|]. destruct Hsee as [[Hio Hp] Hsee].
  destruct (Hp _ _ Hd) as (Hd0 & k & Hk). simpl. destruct (pass p d) as [r d1] eqn:Hpass. simpl in *.
  destruct (deliver_spec a m k _ _ _ _ _ r d1 Hio Hd0 Hk Hpass) as (a1 & m1 & Hd1 & Ha & Hm & _).
  destruct (IH a1 m1 d1 Hd1 Hsee) as (a2 & m2 & Hd2 & Ha2 & Hm2). exists a2, m2. split; [done|]. lia.
Qed.

Lemma last_pass_spec ps p a0 m0 d0 : delivered_to a0 m0 d0 → all_see (ps ++ [p])%list d0 →
  ∃ a m k a' m', delivered_to a m (passes ps d0) ∧ sees a m k (pa_scan p) (pa_bound p) ∧
    delivered_to a' m' (pass p (passes ps d0)).2 ∧ (a0 ≤ a ≤ a')%nat ∧ (m0 ≤ m ≤ m')%nat ∧
    match (pass p (passes ps d0)).1 with
    | Ok _ => (a + k ≤ a')%nat ∧ ((1 ≤ k)%nat → a' = m')
    | Err e => send_fails e ∨ ack_fails (pa_io p) e
    end.
Proof.
  intros Hd0 [Hsee [Hio Hp]]%all_see_snoc. destruct (passes_spec ps a0 m0 d0 Hd0 Hsee) as (a & m & Hd & Ha & Hm).
  destruct (Hp a m Hd) as (Hd1 & k & Hk). destruct (pass p (passes ps d0)) as [r d'] eqn:Hpass.
  destruct (deliver_spec a m k _ _ _ _ _ r d' Hio Hd1 Hk Hpass) as (a' & m' & Hd' & Ha' & Hm' & Hr).
  exists a, m, k, a', m'. simpl. split; [done|]. split; [done|]. split; [done|]. split; [lia|]. split; [lia|]. done.
Qed.

(** What a writer and other streams do leaves a stream where it is. *)
Lemma delivered_kept a m d d' : delivered_to a m d → sd_name (dl_dir d') = sd_name (dl_dir d) →
  sd_ack_log (dl_dir d') = sd_ack_log (dl_dir d) → at_ m (dl_ledger d') → delivered_to a m d'.
Proof.
  intros [H1 [H2 H3] H4 H5 H6] Hn Hl Hat. constructor; try done; [congruence|]. unfold log_ok, read_ack in *. by rewrite Hl, Hn.
Qed.
End pass.

(** * The sends over the ledger *)

Section ledger_sends.
Variable sha256 : string → string.
Variable any_order : list CaptureEvent → list CaptureEvent.
Variables writer sid instance : string.
Variable R : list OutboxRecord.
Hypothesis R_ok : stream_of sid R.

(** The ledger holds the first [m] records of the stream, and no other event of it. *)
Definition ledger_at (m : nat) (db : Ledger) : Prop :=
  ledger_inv db ∧ (m ≤ length R)%nat ∧ of_stream sid db = event_of sid writer <$> take m R.

Lemma ledger_at_unique m m' db : ledger_at m db → ledger_at m' db → m = m'.
Proof.
  intros (_ & H1 & H2) (_ & H3 & H4). rewrite H2 in H4. apply (f_equal length) in H4.
  rewrite !length_fmap, !length_take in H4. lia.
Qed.

Lemma reached_mark m db : ledger_at m db → reached (of_stream sid db) = mark R m.
Proof.
  intros (_ & Hm & ->). unfold reached, mark, end_of, end_from. rewrite fmap_last. by destruct (last (take m R)).
Qed.

Lemma position_unique i j r x : R !! i = Some r → R !! j = Some x → ob_sequence r = ob_sequence x → i = j.
Proof.
  intros Hi Hj Heq. apply lookup_lt_Some in Hi as Hli. apply lookup_lt_Some in Hj as Hlj.
  assert ((mark R (S i)).1 = (mark R (S j)).1) as Hmark by (by rewrite (mark_S _ _ _ Hi), (mark_S _ _ _ Hj)).
  apply mark_inj in Hmark; [lia|apply R_ok|lia|lia].
Qed.

Lemma slice_lookup a n i r : take n (drop a R) !! i = Some r ↔ (i < n)%nat ∧ R !! (a + i)%nat = Some r.
Proof. rewrite lookup_take_Some, lookup_drop. tauto. Qed.

(** What a batch adds comes after what is there. *)
Lemma added_new a n k m db : (a + n ≤ length R)%nat → (k < n)%nat → (m ≤ length R)%nat → ledger_inv db →
  of_stream sid db = ((event_of sid writer <$> take m R) ++ (event_of sid writer <$> drop k (take n (drop a R))))%list →
  (m ≤ a + k)%nat.
Proof.
  intros Hlen Hk Hm Hinv Hof. destruct (decide (m ≤ a + k)%nat) as [|Hlt]; [done|]. exfalso.
  pose proof (ei_sorted _ (proj1 Hinv) sid) as Hsort. rewrite Hof, fmap_app in Hsort.
  apply StronglySorted_app_1_elem_of with (x1 := (mark R m).1) (x2 := (mark R (S (a + k))).1) in Hsort.
  - destruct (decide (m = S (a + k))) as [Heq|]; [rewrite <- Heq in Hsort; lia|].
    pose proof (mark_lt R (S (a + k)) m (sr_linked _ _ R_ok) ltac:(lia)). lia.
  - destruct m as [|m']; [lia|]. destruct (lookup_lt_is_Some_2 R m') as [r Hr]; [lia|]. rewrite (mark_S _ _ _ Hr). simpl.
    apply list_elem_of_fmap. exists (event_of sid writer r). split; [done|]. apply list_elem_of_fmap_2.
    apply list_elem_of_lookup. exists m'. apply lookup_take_Some. split; [done|lia].
  - destruct (lookup_lt_is_Some_2 R (a + k)) as [r Hr]; [lia|]. rewrite (mark_S _ _ _ Hr). simpl.
    apply list_elem_of_fmap. exists (event_of sid writer r). split; [done|]. apply list_elem_of_fmap_2.
    apply list_elem_of_lookup. exists 0%nat. rewrite lookup_drop, slice_lookup. split; [lia|]. by rewrite Nat.add_0_r.
Qed.

(** A committed batch that starts within what the ledger holds extends it to the batch's end. *)
Lemma stored_extends a n m ledger db db' result : (a ≤ m)%nat → (1 ≤ n)%nat → (a + n ≤ length R)%nat →
  ledger_at m db → ledger_inv db' →
  batch_stored instance (mkCaptureBatch writer sid ledger (mark R a).1 (mark R a).2 (take n (drop a R))) db db' result →
  ledger_at (Nat.max m (a + n)) db'.
Proof.
  intros Ham Hn Hlen (Hinv & Hm & Hof) Hinv' ([k Hk] & Hheld & _). cbn [cb_stream_id cb_writer cb_records] in *.
  assert (of_stream sid db' = (event_of sid writer <$> take m R) ++ (event_of sid writer <$> drop k (take n (drop a R))))%list as Hof'.
  { unfold of_stream in *. rewrite Hk, filter_app, Hof. f_equal. generalize (drop k (take n (drop a R))). clear.
    induction l as [|x l IH]; [done|]. by rewrite fmap_cons, filter_cons_True, IH. }
  assert ((k < n)%nat → (m ≤ a + k)%nat) as Hnew by (intros; by apply (added_new a n k m db')).
  split; [done|]. split; [lia|]. rewrite Hof', <- fmap_app. f_equal. destruct (decide (a + n ≤ m)%nat) as [Hge|Hlt].
  - rewrite Nat.max_l by done. rewrite drop_ge; [by rewrite app_nil_r|]. rewrite length_take, length_drop. lia.
  - rewrite Nat.max_r by lia. destruct (lookup_lt_is_Some_2 R m) as [r Hr]; [lia|].
    destruct (Hheld r) as (e & He & Hs & Hseq & _).
    { apply list_elem_of_lookup. exists (m - a)%nat. rewrite slice_lookup. split; [lia|]. by replace (a + (m - a))%nat with m by lia. }
    assert (e ∈ of_stream sid db') as Hin by (by apply list_elem_of_filter). rewrite Hof', <- fmap_app in Hin.
    apply list_elem_of_fmap in Hin as (x & -> & Hx). simpl in Hseq. assert (k = m - a)%nat as ->.
    { apply elem_of_app in Hx as [Hx|Hx]; apply list_elem_of_lookup in Hx as [j Hx].
      - apply lookup_take_Some in Hx as [Hx ?]. apply (position_unique _ m _ r) in Hx; [lia|done..].
      - rewrite lookup_drop, slice_lookup in Hx. destruct Hx as [Hjn Hx]. apply (position_unique _ m _ r) in Hx; [lia|done..]. }
    rewrite skipn_firstn_comm, drop_drop. replace (a + (m - a))%nat with m by lia.
    replace (n - (m - a))%nat with (a + n - m)%nat by lia.
    rewrite <- (take_drop m (take (a + n) R)), take_take, Nat.min_l, skipn_firstn_comm by lia. done.
Qed.

Lemma slice_batch_ok a n ledger : (1 ≤ n)%nat → (a + n ≤ length R)%nat →
  batch_ok (mkCaptureBatch writer sid ledger (mark R a).1 (mark R a).2 (take n (drop a R))).
Proof.
  intros Hn Hlen. destruct (mark_prefix sid R a R_ok ltac:(lia)) as (H0 & _ & Hg). constructor; simpl; [done|by apply Hg| |].
  - intros E%(f_equal length). rewrite length_take, length_drop in E. simpl in E. lia.
  - apply Forall_forall. intros r Hr. apply list_elem_of_lookup in Hr as [i [_ Hr]%slice_lookup].
    assert (r ∈ R) as Hin by (by eapply list_elem_of_lookup_2).
    pose proof (sr_each _ _ R_ok) as He. rewrite Forall_forall in He. split; [by apply He|].
    pose proof (linked_after R 0 GENESIS r (sr_linked _ _ R_ok) Hin). lia.
Qed.

(** One transaction with a batch of the stream. *)
Lemma ingest_extends a n m ledger fate db res db' : (a ≤ m)%nat → (1 ≤ n)%nat → (a + n ≤ length R)%nat → ledger_at m db →
  ingest sha256 any_order instance (mkCaptureBatch writer sid ledger (mark R a).1 (mark R a).2 (take n (drop a R))) fate db = (res, db') →
  ∃ m', ledger_at m' db' ∧ (m' = m ∨ m' = Nat.max m (a + n)) ∧
    match res with
    | Ok result => m' = Nat.max m (a + n) ∧ ca_ledger_instance (ir_ack result) = instance ∧ ca_stream_id (ir_ack result) = sid ∧
                   (ca_sequence (ir_ack result), ca_digest (ir_ack result)) = mark R m'
    | Err _ => True
    end.
Proof.
  intros Ham Hn Hlen Hat H. unfold ingest in H. set (b := mkCaptureBatch _ _ _ _ _ _) in *.
  destruct (ingest_batch sha256 any_order instance b db) as [r1 db1] eqn:Hi.
  apply ingest_batch_inv in Hi; [|apply Hat|by apply slice_batch_ok].
  destruct r1 as [result|e]; [|exists m; destruct fate; injection H as <- <-; by split_and!; auto].
  destruct Hi as [Hinv1 Hst]. pose proof (stored_extends a n m ledger db db1 result Ham Hn Hlen Hat Hinv1 Hst) as Hat1.
  destruct fate; injection H as <- <-; [|by exists m; split_and!; auto|by exists (Nat.max m (a + n)); split_and!; auto].
  exists (Nat.max m (a + n)). split; [done|]. split; [auto|]. rewrite <- (reached_mark _ _ Hat1).
  destruct Hst as (_ & _ & _ & _ & H1 & H2 & H3). done.
Qed.

Hypothesis writer_known : writer = "host" ∨ writer = "gateway".
Hypothesis sid_hex : is_hex 32 sid = true.
Hypothesis R_legible : Forall (legible sha256 sid) R.

Lemma slice_sends_ok a n ledger : (1 ≤ n ≤ MAX_RECORDS)%nat → (a + n ≤ length R)%nat →
  from_option (λ l, is_hex 32 l = true) True ledger → sends_ok sha256 writer sid ledger (mark R a) (take n (drop a R)).
Proof.
  intros Hn Hlen Hl. constructor; try done.
  - by apply (mark_prefix sid R a R_ok ltac:(lia)).
  - apply Forall_take, Forall_drop. done.
  - rewrite length_take, length_drop. lia.
Qed.
End ledger_sends.

(** The Gateway's own send keeps the laws of a send. *)
Lemma direct_send_laws sha256 any_order unicode_digit sid instance R : is_hex 32 sid = true → stream_of sid R →
  Forall (legible sha256 sid) R →
  SendLaws (direct_send sha256 any_order instance unicode_digit) sid instance R (λ m g, ledger_at "gateway" sid R m g.1).
Proof.
  intros Hs HR Hleg. split; [|intros m m' g; apply ledger_at_unique].
  intros a n m ledger [db fates] r g' Ham Hn Hlen Hl Hat H. unfold direct_send in H. simpl in Hat.
  destruct (parse_batch sha256 unicode_digit _) as [parsed|[code]] eqn:Hp.
  2:{ injection H as <- <-. exists m. by split_and!; auto. }
  apply built_parsed in Hp as ->; [|by apply slice_sends_ok; auto].
  destruct (ingest sha256 any_order instance _ _ db) as [res db'] eqn:Hi.
  apply (ingest_extends sha256 any_order "gateway" sid instance R HR a n m) in Hi as (m' & Hat' & Hm' & Hres); [|lia|lia|done|done].
  exists m'. destruct res as [result|[]]; injection H as <- <-; (split; [done|]); (split; [done|]); done.
Qed.

(** An acknowledgement comes back over the wire as it was sent, if at all. *)
Lemma posted_ack sid ack ack' : is_hex 32 (ca_ledger_instance ack) = true → is_hex 32 (ca_stream_id ack) = true →
  is_hex 64 (ca_digest ack) = true → post_reply sid 200 (build_ack ack) = Ok ack' →
  ca_stream_id ack = sid ∧ ca_ledger_instance ack' = ca_ledger_instance ack ∧ ca_stream_id ack' = sid ∧
  ca_sequence ack' = ca_sequence ack ∧ ca_digest ack' = ca_digest ack.
Proof.
  intros Hi Hs Hd. unfold post_reply. change (200 =? 200) with true. cbv iota. rewrite json_loads_dumps.
  2:{ unfold build_ack. constructor; [apply (bool_decide_unpack _); vm_compute; exact I| |].
      { simpl. rewrite !Forall_cons. split_and!; try by apply ascii_valid. constructor. }
      simpl. rewrite !Forall_cons. split_and!; [by apply ok_string, ascii_valid|by apply ok_string, (hex_ascii 32)|
        by apply ok_string, (hex_ascii 32)|apply written_int|by apply ok_string, (hex_ascii 64)|apply written_int|constructor]. }
  change (json_sorted (build_ack ack)) with (JObject [("conflicts", JNumber (json_int (ca_conflicts ack)));
    ("digest", JString (ca_digest ack)); ("ledger_instance", JString (ca_ledger_instance ack));
    ("sequence", JNumber (json_int (ca_sequence ack))); ("status", JString "committed"); ("stream_id", JString (ca_stream_id ack))]).
  unfold parse_ack. set (d := [("conflicts", _); _; _; _; _; _]).
  change (field "stream_id" d) with (JString (ca_stream_id ack)). change (field "ledger_instance" d) with (JString (ca_ledger_instance ack)).
  change (field "digest" d) with (JString (ca_digest ack)). change (field "sequence" d) with (int_json (ca_sequence ack)).
  unfold int_json. rewrite (proj2 (written_int _)). intros H. case_match eqn:Hm; [|done]. injection H as <-.
  inv_res. bool_to_prop. simpl in *. match goal with H : String.eqb _ _ = true |- _ => apply String.eqb_eq in H end. done.
Qed.

(** What the Gateway's route does with a batch of the stream. *)
Lemma handled_extends sha256 any_order unicode_digit authorized stored sid instance R a n m ledger fate db res db' :
  is_hex 32 sid = true → stream_of sid R → Forall (legible sha256 sid) R → (a ≤ m ≤ length R)%nat → (1 ≤ n ≤ MAX_RECORDS)%nat →
  (a + n ≤ length R)%nat → from_option (λ l, is_hex 32 l = true) True ledger → ledger_at "host" sid R m db →
  handle_usage_capture_request sha256 any_order instance unicode_digit authorized stored
    (body_bytes (batch_document "host" sid ledger (mark R a).1 (mark R a).2 (take n (drop a R)))) fate db = (res, db') →
  ∃ m', ledger_at "host" sid R m' db' ∧ (m' = m ∨ m' = Nat.max m (a + n)) ∧
    match res with
    | Ok (status, reply) => status = 200 → ∃ ack, reply = build_ack ack ∧ m' = Nat.max m (a + n) ∧
        ca_ledger_instance ack = instance ∧ ca_stream_id ack = sid ∧ (ca_sequence ack, ca_digest ack) = mark R m'
    | Err _ => True
    end.
Proof.
  intros Hs HR Hleg Ham Hn Hlen Hl Hat Hh.
  assert (sends_ok sha256 "host" sid ledger (mark R a) (take n (drop a R))) as Hok by (by apply slice_sends_ok; auto).
  unfold handle_usage_capture_request in Hh.
  destruct authorized; cbn [negb] in Hh; [|injection Hh as <- <-; exists m; by split_and!; auto].
  destruct (parse_batch sha256 unicode_digit _) as [batch|[code]] eqn:Hp; [|injection Hh as <- <-; exists m; by split_and!; auto].
  destruct stored; cbn [negb] in Hh; [|injection Hh as <- <-; exists m; by split_and!; auto].
  apply posted_parsed in Hp as ->; [|done].
  destruct (ingest sha256 any_order instance _ fate db) as [r1 db1] eqn:Hi.
  apply (ingest_extends sha256 any_order "host" sid instance R HR a n m) in Hi as (m' & Hat' & Hm' & Hres); [|lia|lia|done|done].
  exists m'. destruct r1 as [result|[code committed| |]]; [|destruct (String.eqb code "unavailable")|..]; injection Hh as <- <-;
    (split; [done|]); (split; [done|]); try done; [by intros _; exists (ir_ack result)|]. by destruct (String.eqb code _).
Qed.

(** The answer of the route as the host reads it. *)
Lemma replied_ack sid instance R status reply m' n m ack' : is_hex 32 sid = true → is_hex 32 instance = true → stream_of sid R →
  (1 ≤ n)%nat → (m' ≤ length R)%nat →
  (status = 200 → ∃ ack, reply = build_ack ack ∧ m' = Nat.max m n ∧
     ca_ledger_instance ack = instance ∧ ca_stream_id ack = sid ∧ (ca_sequence ack, ca_digest ack) = mark R m') →
  post_reply sid status reply = Ok ack' →
  m' = Nat.max m n ∧ ca_ledger_instance ack' = instance ∧ ca_stream_id ack' = sid ∧ (ca_sequence ack', ca_digest ack') = mark R m'.
Proof.
  intros Hs Hinst HR Hn Hm Hres Hreply. destruct (Z.eqb_spec status 200) as [->|Hne].
  2:{ unfold post_reply in Hreply. rewrite (proj2 (Z.eqb_neq _ _)) in Hreply by done. by destruct (status =? 503). }
  destruct (Hres eq_refl) as (ack & -> & Hmax & H1 & H2 & H3).
  destruct (mark_hex sid R HR m' ltac:(lia)) as [_ Hhex]. assert (ca_digest ack = (mark R m').2) as Hdig by (by rewrite <- H3).
  apply posted_ack in Hreply as (_ & E1 & E2 & E3 & E4); [|congruence..]. split; [done|]. split; [congruence|]. split; [done|].
  congruence.
Qed.

(** Proofs about a send never compute the texts it sends. *)
#[local] Strategy 100 [json_loads].

(** The host's post keeps the laws of a send, through the Gateway's route. *)
Lemma post_laws sha256 any_order unicode_digit authorized stored sid instance R : is_hex 32 sid = true →
  is_hex 32 instance = true → stream_of sid R → Forall (legible sha256 sid) R →
  SendLaws (post sha256 any_order instance unicode_digit authorized stored) sid instance R (λ m g, ledger_at "host" sid R m g.1).
Proof.
  intros Hs Hinst HR Hleg. split; [|intros m m' g; apply ledger_at_unique].
  intros a n m ledger [db fates] r g' Ham Hn Hlen Hl Hat H. unfold post in H. simpl in Hat.
  pose proof (sent_loads sha256 _ _ _ _ _ (slice_sends_ok sha256 "host" sid R HR ltac:(by left) Hs Hleg a n ledger Hn Hlen Hl)) as Hloads.
  destruct (json_loads (build_batch _ _ _ _ _ _)) as [payload|]; [|done]. injection Hloads as Hpayload. subst payload.
  destruct (default (Answered Runs) (head fates)) as [fate| |fate]; [|injection H as <- <-; exists m; by split_and!; auto|];
    destruct (handle_usage_capture_request sha256 any_order instance unicode_digit authorized stored _ fate db) as [res db'] eqn:Hh;
    destruct (handled_extends _ _ _ _ _ sid instance R a n m ledger fate db res db' Hs HR Hleg Ham Hn Hlen Hl Hat Hh)
      as (m' & Hat' & Hm' & Hres); exists m'.
  2:{ injection H as <- <-. by split_and!. }
  destruct res as [[status reply]|]; injection H as <- <-; (split; [done|]); (split; [done|]); [|done].
  destruct (post_reply sid status reply) as [ack'|] eqn:Hreply; [|done].
  apply (replied_ack sid instance R status reply m' (a + n) m); try done; [lia|]. apply Hat'.
Qed.

(** Batches of other streams leave a stream's prefix where it is. *)
Lemma other_batch_kept sha256 any_order writer sid instance R m b fate db : cb_stream_id b ≠ sid → batch_ok b →
  ledger_at writer sid R m db → ledger_at writer sid R m (ingest sha256 any_order instance b fate db).2.
Proof.
  intros Hne Hb (Hinv & Hm & Hof). destruct (ingest_inv sha256 any_order instance b fate db Hinv Hb) as (Hinv' & _ & _).
  split; [done|]. split; [done|]. rewrite <- Hof. unfold ingest in *.
  destruct (ingest_batch sha256 any_order instance b db) as [[result|e] db'] eqn:Hi; [|by destruct fate].
  apply ingest_batch_inv in Hi as [_ ([k Hk] & _)]; [|done|done].
  assert (of_stream sid db' = of_stream sid db) as Heq; [|by destruct fate].
  unfold of_stream. rewrite Hk, filter_app, (proj2 (filter_nil_iff _ (_ <$> _))); [by rewrite app_nil_r|].
  intros x (r & -> & _)%list_elem_of_fmap. done.
Qed.

(** * What a pass sees of a live stream *)

Lemma kept_below_subset first placed x : x ∈ kept_below first placed → x ∈ placed.
Proof.
  induction placed as [|y placed IH]; simpl; [done|]. case_match; [by intros ?%not_elem_of_nil|].
  intros [->|Hx]%elem_of_cons; [by left|right; auto].
Qed.

Lemma place_stream r sid placed opens damaged ack placed' : place r sid placed opens damaged ack = Ok placed' →
  ob_stream_id r = sid ∧ ∀ x, x ∈ placed' → x ∈ placed.
Proof.
  unfold place. intros H. apply res_bind_ok in H as (u & Hs & H). unfold raise_if in Hs.
  destruct (String.eqb_spec (ob_stream_id r) sid); [|done]. split; [done|]. intros x Hx.
  destruct (has_kind GAP_KIND (ob_payload r)).
  - destruct (int_field _ _); [|done]. destruct (int_field _ _); [|done]. apply res_bind_ok in H as (u' & _ & H).
    destruct (bool_decide _ || _); [destruct (base _); apply res_bind_ok in H as (? & _ & H); apply res_bind_ok in H as (? & _ & H)|
      apply res_bind_ok in H as (? & _ & H)]; injection H as <-; by eapply kept_below_subset.
  - apply res_bind_ok in H as (u' & _ & H). destruct (bool_decide _ && _); [|destruct (base placed)];
      repeat (apply res_bind_ok in H as (? & _ & H)); by injection H as <-.
Qed.

Lemma scan_lines_stream sha256 sid ack name lines : ∀ offset st, Forall (λ x, ob_stream_id x.2 = sid) (sn_placed st) →
  Forall (λ x, ob_stream_id x.2 = sid) (sn_placed (scan_lines sha256 sid ack name offset lines st)).
Proof.
  induction lines as [|line lines IH]; intros offset st Hst; simpl; [done|]. destruct (parse_line sha256 line) as [r|]; [|done].
  destruct (place _ _ _ _ _ _) as [placed|] eqn:Hp; [|done]. apply place_stream in Hp as [Hr Hsub].
  apply IH. simpl. apply Forall_app. split; [|by repeat constructor]. rewrite Forall_forall in *. auto.
Qed.

Lemma anchored_subset ack placed damage : (check_anchor ack placed damage).1 = placed ∨ (check_anchor ack placed damage).1 = [].
Proof. unfold check_anchor. repeat (case_match; simpl; auto). Qed.

Lemma withheld_last orphan ack placed x : withheld_tail orphan ack placed = Some x → last placed = Some x.
Proof. unfold withheld_tail. destruct (last placed) as [[name r]|]; [|done]. case_match; by intros [= <-]. Qed.

Lemma scanned_stream sha256 dir orphan : Forall (λ r, ob_stream_id r = sd_name dir) (held (scan_stream sha256 dir orphan)).
Proof.
  unfold scan_stream, held. set (st := foldl _ _ _).
  assert (Forall (λ x, ob_stream_id x.2 = sd_name dir) (sn_placed st)) as Hst.
  { unfold st. assert (Forall (λ x, ob_stream_id x.2 = sd_name dir) (sn_placed (mkScanState [] [] false false))) as H0 by constructor.
    revert H0. generalize (mkScanState [] [] false false), (segments_in_order dir). intros s l. revert s.
    induction l as [|x l IH]; intros s Hs; [done|]. simpl. apply IH. unfold scan_segment. case_match; [done|]. by apply scan_lines_stream. }
  pose proof (anchored_subset (read_ack sha256 dir) (sn_placed st) (sn_damage st)) as Hsub.
  destruct (check_anchor _ _ _) as [placed damage]. simpl in Hsub.
  assert (Forall (λ x, ob_stream_id x.2 = sd_name dir) placed) as Hp by (destruct Hsub as [->| ->]; [done|constructor]).
  cbn [ss_records ss_unverified_tail]. rewrite Forall_forall in Hp. apply Forall_forall. intros r [Hr|Hr]%elem_of_app.
  - destruct (withheld_tail orphan (read_ack sha256 dir) placed) eqn:Ht; apply list_elem_of_fmap in Hr as (x & -> & Hx); [|by apply Hp].
    apply Hp. apply withheld_last in Ht. destruct placed as [|y l]; [done|].
    rewrite (app_removelast_last y) by done. apply elem_of_app. by left.
  - destruct (withheld_tail orphan (read_ack sha256 dir) placed) as [x|] eqn:Ht; simpl in Hr; [|by apply not_elem_of_nil in Hr].
    apply list_elem_of_singleton in Hr as ->. by apply Hp, last_Some_elem_of, (withheld_last orphan (read_ack sha256 dir)).
Qed.

Lemma filter_after n d l : linked n d l → filter (λ r, n < ob_sequence r) l = l.
Proof. intros Hl. apply filter_keeps, Forall_forall. intros r Hr. by eapply linked_after. Qed.

Lemma pending_after l a : linked 0 GENESIS l → (a ≤ length l)%nat → filter (λ r, (mark l a).1 < ob_sequence r) l = drop a l.
Proof.
  intros Hlinked Ha. rewrite <- (take_drop a l) at 1. rewrite filter_app, (proj2 (filter_nil_iff _ (take a l))).
  - by eapply filter_after, linked_mark.
  - intros r Hr. apply list_elem_of_lookup in Hr as [i [Hi Hlt]%lookup_take_Some]. apply lookup_lt_Some in Hi as Hli.
    replace (ob_sequence r) with (mark l (S i)).1 by (by rewrite (mark_S _ _ _ Hi)).
    destruct (decide (S i = a)) as [->|]; [lia|]. pose proof (mark_lt l (S i) a Hlinked ltac:(lia)). lia.
Qed.

(** A scan that shows the first records of the stream up to its bound. *)
Lemma prefix_sees sid R shown scan bound later a m : linked 0 GENESIS shown → ss_stream_id scan = sid →
  Forall (λ r, ob_stream_id r = sid) (held scan) → filter (λ r, ob_sequence r ≤ bound) (ss_records scan) = shown →
  R = (shown ++ later)%list → (a ≤ m ≤ length shown)%nat → sees sid R a m (length shown - a) scan bound.
Proof.
  intros Hlinked Hs Hheld Hshown HR Ham.
  assert (mark R a = mark shown a) as Hmark by (unfold mark; by rewrite HR, take_app_le by lia).
  constructor; [done| |rewrite HR, length_app; lia|left; lia].
  rewrite Hmark, <- (list_filter_filter (λ r, (mark shown a).1 < ob_sequence r) (λ r, ob_sequence r ≤ bound)), Hshown.
  rewrite HR, drop_app_le, take_app_length' by (rewrite ?length_drop; lia). apply pending_after; [done|lia].
Qed.

(** A live writer's stream shows every confirmed record after the acknowledgement. *)
Lemma live_sees sha256 sid R w dir confirmed later a m : stream_inv sha256 (read_ack sha256 dir) w dir confirmed → few_segments w →
  sd_name dir = sid → acknowledged (read_ack sha256 dir) confirmed → R = (confirmed ++ later)%list →
  (a ≤ m ≤ length confirmed)%nat →
  sees sid R a m (length confirmed - a) (scan_stream sha256 dir false) (sw_confirmed w).
Proof.
  intros Hinv Hfew <- Hack HR Ham. eapply prefix_sees; [apply Hinv| |apply scanned_stream|by apply scan_live|done|done].
  unfold scan_stream. by destruct (check_anchor _ _ _).
Qed.

(** * Delivery *)

Section delivery.
Variable sha256 : string → string.
Hypothesis sha256_hex : ∀ s, is_hex 64 (sha256 s) = true.
Variable any_order : list CaptureEvent → list CaptureEvent.
Variable unicode_digit : string → bool.
Variables authorized stored : bool.
Variables sid instance : string.
Variable R : list OutboxRecord.
Abbreviation send := (post sha256 any_order instance unicode_digit authorized stored).
Abbreviation ledger_holds := (λ m (g : Ledger * list NetFate), ledger_at "host" sid R m g.1).
Abbreviation reaches := (delivered_to sha256 sid instance R ledger_holds).

(** A host's stream is delivered exactly once and in order, under two conditions that are
    hypotheses here and not proved of the code: each pass's scan shows exactly the
    stream's records after the acknowledgement, up to its bound, and perhaps the record
    the ledger is ahead by ([sees]), and a failed write of an acknowledgement leaves the
    whole line or nothing ([clean_fault]). Take the records of a stream, any such passes of
    the drain over it, and around them anything the writer and other streams do that
    leaves the acknowledgement and the stream's events as they are. Requests may not reach
    the Gateway, and transactions and replies may be lost at any point. Then at any time
    the ledger's events of the stream are a prefix of its records, each once; the stored
    acknowledgement names one of them; and the ledger is ahead of it by at most a batch.
    A pass that ends without an error has committed and acknowledged everything it saw,
    and one that does not, failed because the send gave up or an acknowledgement could
    not be written. *)
Theorem host_delivery_exact d0 ps p : is_hex 32 sid = true → is_hex 32 instance = true → stream_of sid R →
  Forall (legible sha256 sid) R → reaches 0 0 d0 →
  all_see sha256 send sid instance R ledger_holds (ps ++ [p])%list d0 →
  let d := passes sha256 send ps d0 in let '(r, d') := pass sha256 send p d in
  ∃ a m k a' m', reaches a m d ∧ sees sid R a m k (pa_scan p) (pa_bound p) ∧ reaches a' m' d' ∧
    (a ≤ a')%nat ∧ (m ≤ m')%nat ∧
    match r with
    | Ok _ => (a + k ≤ a')%nat ∧ ((1 ≤ k)%nat → a' = m')
    | Err e => send_fails send sid e ∨ ack_fails (pa_io p) e
    end.
Proof.
  intros Hs Hi HR Hleg Hd0 Hsee d. pose proof (post_laws sha256 any_order unicode_digit authorized stored sid instance R Hs Hi HR Hleg) as Hlaws.
  destruct (last_pass_spec sha256 sha256_hex send sid instance R ledger_holds Hs Hi HR ps p 0 0 d0 Hd0 Hsee)
    as (a & m & k & a' & m' & H1 & H2 & H3 & H4 & H5 & H6).
  fold d in H1, H3, H6. destruct (pass sha256 send p d) as [r d']. exists a, m, k, a', m'. split_and!; try done; lia.
Qed.
End delivery.

(** A pass whose scan is the whole stream. *)
Definition whole_pass {G} (sid : string) (records : list OutboxRecord) (bound : Z) (io : AckIo) : Pass (G:=G) :=
  mkPass id (mkStreamScan sid records [] [] None None) bound None io.

Lemma whole_pass_sees sha256 {G} sid instance R at_ bound io (d : Delivery (G:=G)) : stream_of sid R → io_ok sha256 sid instance io →
  Forall (λ r, ob_sequence r ≤ bound) R → sees_all sha256 sid instance R at_ (whole_pass sid R bound io) d.
Proof.
  intros HR Hio Hb. split; [done|]. intros a m Hd. split; [done|]. exists (length R - a)%nat.
  apply (prefix_sees _ _ R _ _ []); [apply (sr_linked _ _ HR)|done| |by apply filter_keeps|by rewrite app_nil_r|exact (dt_le _ _ _ _ _ _ _ _ Hd)].
  unfold held. simpl. rewrite app_nil_r. eapply Forall_impl; [exact (sr_each _ _ HR)|]. by intros r [? _].
Qed.

(** * A turn's stream, its reply lost once *)

Definition turn_stream : list OutboxRecord := take 3 host_stream.
Definition turn_sid : string := example_id "a".
Definition turn_instance : string := example_id "e".

Lemma turn_stream_of : stream_of turn_sid turn_stream.
Proof. constructor; [vm_compute; repeat split|apply (bool_decide_unpack _); vm_compute; exact I..]. Qed.

Lemma turn_legible : Forall (legible checksum_hex turn_sid) turn_stream.
Proof. unfold turn_stream. vm_compute take. repeat constructor. Qed.

Definition fine_io : AckIo := λ _, (example_id "f", None).
Definition turn_start : Delivery := mkDelivery (mkStreamDir turn_sid [] None) (empty_ledger, [ReplyLost Runs]) empty_report.
Abbreviation turn_send := (post checksum_hex id turn_instance ascii_digit true true).
Abbreviation turn_holds := (λ m (g : Ledger * list NetFate), ledger_at "host" turn_sid turn_stream m g.1).

Lemma fine_io_ok : io_ok checksum_hex turn_sid turn_instance fine_io.
Proof. intros dir seq digest _. done. Qed.

Lemma turn_bound : Forall (λ r, ob_sequence r ≤ 3) turn_stream.
Proof. apply (bool_decide_unpack _). vm_compute. exact I. Qed.

Lemma turn_start_reaches : delivered_to checksum_hex turn_sid turn_instance turn_stream turn_holds 0 0 turn_start.
Proof.
  constructor; [done|by split; [left|]| |vm_compute; lia|lia]. split; [apply empty_ledger_inv|]. split; [lia|done].
Qed.

Abbreviation turn_pass := (whole_pass turn_sid turn_stream 3 fine_io).
Definition turn_delivered : res DrainError unit * Delivery :=
  pass checksum_hex turn_send turn_pass (passes checksum_hex turn_send [turn_pass] turn_start).

Lemma host_delivery_exact_witness :
  turn_delivered.1 = Ok tt ∧ length (lg_events (dl_ledger turn_delivered.2).1) = 3%nat ∧
  ∃ a m, delivered_to checksum_hex turn_sid turn_instance turn_stream turn_holds a m turn_delivered.2.
Proof.
  assert (∀ d, sees_all checksum_hex turn_sid turn_instance turn_stream turn_holds turn_pass d) as Hsees
    by (intros d; apply whole_pass_sees; [apply turn_stream_of|apply fine_io_ok|apply turn_bound]).
  pose proof (host_delivery_exact checksum_hex checksum_is_hex id ascii_digit true true turn_sid turn_instance turn_stream
    turn_start [turn_pass] turn_pass eq_refl eq_refl turn_stream_of turn_legible turn_start_reaches
    (conj (Hsees _) (conj (Hsees _) I))) as H.
  split; [vm_compute; reflexivity|]. split; [vm_compute; reflexivity|].
  unfold turn_delivered. cbv zeta in H. destruct (pass checksum_hex turn_send turn_pass _) as [r d'].
  destruct H as (a & m & k & a' & m' & _ & _ & H & _). by exists a', m'.
Defined.

(** * What can go wrong *)

(** A Gateway's stream in segments of 900 bytes, which hold two of its records. *)
Definition attempt_intent (n : Z) : odict string json :=
  [("kind", JString "gateway.attempt.intent"); ("at", JString (example_time 0)); ("gateway_request_id", JString "g1");
   ("host_request_id", JString "a1"); ("attempt", int_json n); ("route", JNull)].
Definition append_attempt (n : Z) (event : string) : outbox_call :=
  CallAppend (attempt_intent n) (Some (example_id event))
    (mkAppendIo None write_fine write_fine (example_id "1") (example_id "2") (example_id "3")).
Definition raced_start : StreamWriter * StreamDir * list OutboxRecord :=
  run_call checksum_hex (new_stream (example_id "a") 900) (append_attempt 1 "4").

(** While a pass reads the stream, its writer appends two more records: the first still fits
    the segment that was scanned, the second opens the next. *)
Definition raced_turn : StreamTurn :=
  mkStreamTurn Claimed [append_attempt 2 "5"; append_attempt 3 "6"] [] (λ _, (example_id "7", None)).
Definition quiet_turn : StreamTurn := mkStreamTurn Claimed [] [] (λ _, (example_id "8", None)).
Abbreviation drain_gateway turn w d :=
  (drain_stream checksum_hex (direct_send checksum_hex id (example_id "e") ascii_digit) (λ _, None) turn w d).
Definition raced_pass : res DrainError unit * (StreamWriter * Delivery) :=
  drain_gateway raced_turn raced_start.1.1 (mkDelivery raced_start.1.2 (empty_ledger, []) empty_report).
Definition next_pass : res DrainError unit * (StreamWriter * Delivery) :=
  drain_gateway quiet_turn raced_pass.2.1 (mkDelivery (dl_dir raced_pass.2.2) (dl_ledger raced_pass.2.2) empty_report).

(** A compaction can delete records that were never sent. A pass scans its own writer's
    stream and only then asks which segment is open. When the writer appends to the
    scanned segment and rolls to the next in between, the pass acknowledges what it
    scanned and deletes the segment, with the confirmed record that came after the scan.
    Here the writer confirmed three records and the ledger got the first; the second is
    gone, the third no longer connects to anything and is not read, and the next pass
    reports no failure and nothing pending. *)
Example compaction_races_writer :
  raced_pass.1 = Ok tt ∧ sw_confirmed raced_pass.2.1 = 3 ∧
  (ce_sequence <$> lg_events (dl_ledger raced_pass.2.2).1) = [1] ∧
  (sd_segments (dl_dir raced_pass.2.2)).*1 = ["seg-000002.log"] ∧
  ss_records (scan_stream checksum_hex (dl_dir raced_pass.2.2) false) = [] ∧
  ss_records (scan_stream checksum_hex (dl_dir raced_pass.2.2) true) = [] ∧
  next_pass.1 = Ok tt ∧ dp_failures (dl_report next_pass.2.2) = [] ∧
  bl_pending_events (dp_backlog (dl_report next_pass.2.2)) = 0 ∧
  (ce_sequence <$> lg_events (dl_ledger next_pass.2.2).1) = [1].
Proof. vm_compute. repeat split. Qed.

(** ** A torn acknowledgement *)

(** An acknowledgement whose write tears leaves a line without an end, so the next one is
    appended to it and lost with it, although its pass takes it for written: here two
    passes over a delivered stream, the second without an error, leave no acknowledgement
    that can be read. This is why [host_delivery_exact] asks for writes that leave all or
    nothing. *)
Definition torn_io : AckIo := λ _, (example_id "f", Some 20%nat).
Definition torn_first : res DrainError unit * Delivery :=
  pass checksum_hex turn_send (whole_pass turn_sid turn_stream 3 torn_io)
    (mkDelivery (mkStreamDir turn_sid [] None) (empty_ledger, []) empty_report).
Definition torn_second : res DrainError unit * Delivery := pass checksum_hex turn_send turn_pass torn_first.2.

Example torn_ack_lost :
  torn_first.1 = Err (DrainOutbox (mkOutboxError "WRITE_FAILED" "an acknowledgement was not recorded")) ∧
  torn_second.1 = Ok tt ∧ read_ack checksum_hex (dl_dir torn_second.2) = None ∧
  length (lg_events (dl_ledger torn_second.2).1) = 3%nat.
Proof. vm_compute. repeat split. Qed.
