(* ===== verification/Admission.v ===== *)
(** Admission of serialized messages (src/optimus/acp/admission.py): the limits, an
    account of how many items and bytes are in custody, and the reservations that are
    taken of it and given back.

    A reservation is an object its holder keeps, so the reservations an account has
    granted live in a list and are named by their position. Every method runs under the
    account's lock, so a history is a list of calls. Logging is kept as the list of
    reported transitions, without the waiting time. *)
From S2P Require Import Prelude.

Local Open Scope string_scope.
Local Open Scope Z_scope.

(** * Limits *)

Inductive AdmissionClass := ORDINARY | REQUIRED.
#[export] Instance AdmissionClass_eq_dec : EqDecision AdmissionClass.
Proof. solve_decision. Defined.

Record AdmissionLimits := mkAdmissionLimits {
  pending_items : Z;
  active_prompts : Z;
  active_requests : Z;
  inbound_bytes : Z;
  frame_bytes : Z;
  outbound_items : Z;
  control_items : Z;
  outbound_bytes : Z;
  control_bytes : Z;
  subprocess_items : Z;
  stderr_bytes : Z;
  stderr_line_bytes : Z
}.

Definition limit_fields (l : AdmissionLimits) : list Z :=
  [pending_items l; active_prompts l; active_requests l; inbound_bytes l; frame_bytes l;
   outbound_items l; control_items l; outbound_bytes l; control_bytes l; subprocess_items l;
   stderr_bytes l; stderr_line_bytes l].

(** [AdmissionLimits.__post_init__]: the limits as constructed, or [ValueError]. *)
Definition limits_post_init (l : AdmissionLimits) : res string AdmissionLimits :=
  raise_if (existsb (λ z, z <=? 0) (limit_fields l))
    "admission limits must be positive finite integers" ;;*
  raise_if (outbound_bytes l <=? control_bytes l)
    "control reserve must be smaller than outbound capacity" ;;*
  Ok l.

Definition DEFAULT_LIMITS : AdmissionLimits :=
  mkAdmissionLimits 64 8 8 (16 * 1024 * 1024) (8 * 1024 * 1024) 64 8 (16 * 1024 * 1024)
    (1024 * 1024) 64 (256 * 1024) (16 * 1024).

(** * Accounts *)

Record Reservation := mkReservation {
  rv_count : Z;
  rv_size : Z;
  rv_released : bool
}.

(** A reported transition of a queue with the numbers of its snapshot. *)
Record QueueReport := mkQueueReport {
  qr_transition : string;
  qr_count : Z;
  qr_size : Z;
  qr_rejected : Z
}.

Record AdmissionAccount := mkAdmissionAccount {
  aa_queue_id : string;
  aa_count_limit : Z;
  aa_byte_limit : Z;
  aa_reserved_count : Z;
  aa_reserved_bytes : Z;
  aa_count : Z;
  aa_bytes : Z;
  aa_rejected : Z;
  aa_full : bool;
  aa_closed : bool;
  aa_reservations : list Reservation;
  aa_reports : list QueueReport
}.

(** [AdmissionAccount.__init__]. *)
Definition new_account (count bytes reserved_count reserved_bytes : Z) (queue_id : string)
    : res string AdmissionAccount :=
  raise_if ((count <=? 0) || (bytes <=? 0) || (reserved_count <? 0)
            || negb ((0 <=? reserved_bytes) && (reserved_bytes <? bytes)))
    "invalid finite admission capacity" ;;*
  raise_if (negb (bool_decide (queue_id ∈ ["inbound"; "outbound"; "subprocess"])))
    "unknown admission queue" ;;*
  Ok (mkAdmissionAccount queue_id count bytes reserved_count reserved_bytes 0 0 0 false false [] []).

Definition set_use (count bytes : Z) (rs : list Reservation) (a : AdmissionAccount)
    : AdmissionAccount :=
  mkAdmissionAccount (aa_queue_id a) (aa_count_limit a) (aa_byte_limit a) (aa_reserved_count a)
    (aa_reserved_bytes a) count bytes (aa_rejected a) (aa_full a) (aa_closed a) rs (aa_reports a).
Definition set_flags (rejected : Z) (full closed : bool) (a : AdmissionAccount)
    : AdmissionAccount :=
  mkAdmissionAccount (aa_queue_id a) (aa_count_limit a) (aa_byte_limit a) (aa_reserved_count a)
    (aa_reserved_bytes a) (aa_count a) (aa_bytes a) rejected full closed (aa_reservations a)
    (aa_reports a).

(** [_report]: one line of the log. *)
Definition report (transition : string) (a : AdmissionAccount) : AdmissionAccount :=
  mkAdmissionAccount (aa_queue_id a) (aa_count_limit a) (aa_byte_limit a) (aa_reserved_count a)
    (aa_reserved_bytes a) (aa_count a) (aa_bytes a) (aa_rejected a) (aa_full a) (aa_closed a)
    (aa_reservations a)
    (aa_reports a ++ [mkQueueReport transition (aa_count a) (aa_bytes a) (aa_rejected a)]).

(** [AdmissionAccount.close]. *)
Definition account_close (a : AdmissionAccount) : AdmissionAccount :=
  if aa_closed a then a else report "closing" (set_flags (aa_rejected a) (aa_full a) true a).

Definition MAX_REJECTED : Z := 2 ^ 63 - 1.

(** The test of [try_reserve]: the reservation does not fit. *)
Definition does_not_fit (count bytes : Z) (kind : AdmissionClass) (a : AdmissionAccount) : bool :=
  (aa_count_limit a + aa_reserved_count a <? aa_count a + count)
  || (aa_byte_limit a <? aa_bytes a + bytes)
  || (bool_decide (kind = ORDINARY)
      && ((aa_count_limit a <? aa_count a + count)
          || (aa_byte_limit a - aa_reserved_bytes a <? aa_bytes a + bytes))).

(** [AdmissionAccount.try_reserve]: the position of the reservation, or [None]. *)
Definition try_reserve (count bytes : Z) (kind : AdmissionClass)
    : eff AdmissionAccount string (option nat) := λ a,
  if (count <? 0) || (bytes <? 0) then (Err "negative reservation", a)
  else if does_not_fit count bytes kind a || aa_closed a then
    let rejected := Z.min MAX_REJECTED (aa_rejected a + 1) in
    if negb (aa_full a) && negb (aa_closed a)
    then (Ok None, report "full" (set_flags rejected true (aa_closed a) a))
    else (Ok None, set_flags rejected (aa_full a) (aa_closed a) a)
  else
    let granted := set_use (aa_count a + count) (aa_bytes a + bytes)
      (aa_reservations a ++ [mkReservation count bytes false]) a in
    let i := length (aa_reservations a) in
    if aa_full a
    then (Ok (Some i), report "recovered" (set_flags (aa_rejected a) false (aa_closed a) granted))
    else (Ok (Some i), granted).

(** [Reservation.release]. *)
Definition release (i : nat) (a : AdmissionAccount) : AdmissionAccount :=
  match aa_reservations a !! i with
  | Some r =>
      if rv_released r then a
      else set_use (aa_count a - rv_count r) (aa_bytes a - rv_size r)
             (<[i := mkReservation (rv_count r) (rv_size r) true]> (aa_reservations a)) a
  | None => a
  end.

(** * Histories *)

Inductive admission_op :=
| OReserve (count bytes : Z) (kind : AdmissionClass)
| ORelease (i : nat)
| OClose.

(** A history also keeps the class of each reservation it was granted, which the account
    does not. *)
Definition run_admission_op (op : admission_op) (s : AdmissionAccount * list AdmissionClass)
    : AdmissionAccount * list AdmissionClass :=
  match op with
  | OReserve count bytes kind =>
      match try_reserve count bytes kind s.1 with
      | (Ok (Some _), a) => (a, (s.2 ++ [kind])%list)
      | (_, a) => (a, s.2)
      end
  | ORelease i => (release i s.1, s.2)
  | OClose => (account_close s.1, s.2)
  end.

Definition run_admission (ops : list admission_op) (a : AdmissionAccount)
    : AdmissionAccount * list AdmissionClass :=
  fold_left (λ s op, run_admission_op op s) ops (a, []).

(** * Custody *)

(** What a reservation still holds. *)
Definition held_count (r : Reservation) : Z := if rv_released r then 0 else rv_count r.
Definition held_size (r : Reservation) : Z := if rv_released r then 0 else rv_size r.

(** What the reservations of one class hold. *)
Definition of_class (kind : AdmissionClass) (f : Reservation → Z)
    (rs : list Reservation) (kinds : list AdmissionClass) : Z :=
  sumZ (zip_with (λ r k, if decide (k = kind) then f r else 0) rs kinds).

Record account_inv (a : AdmissionAccount) : Prop := {
  ai_sizes : Forall (λ r, 0 ≤ rv_count r ∧ 0 ≤ rv_size r) (aa_reservations a);
  ai_count : aa_count a = sumZ (held_count <$> aa_reservations a);
  ai_bytes : aa_bytes a = sumZ (held_size <$> aa_reservations a);
  ai_reserve : 0 < aa_count_limit a ∧ 0 ≤ aa_reserved_count a
    ∧ 0 ≤ aa_reserved_bytes a < aa_byte_limit a;
  ai_count_limit : aa_count a ≤ aa_count_limit a + aa_reserved_count a;
  ai_byte_limit : aa_bytes a ≤ aa_byte_limit a;
  ai_rejected : 0 ≤ aa_rejected a ≤ MAX_REJECTED
}.

(** The invariant of a history: the account's, and that the ordinary reservations leave
    the reserve alone. *)
Record history_inv (s : AdmissionAccount * list AdmissionClass) : Prop := {
  hi_account : account_inv s.1;
  hi_kinds : length s.2 = length (aa_reservations s.1);
  hi_ordinary_count :
    of_class ORDINARY held_count (aa_reservations s.1) s.2 ≤ aa_count_limit s.1;
  hi_ordinary_size :
    of_class ORDINARY held_size (aa_reservations s.1) s.2
      ≤ aa_byte_limit s.1 - aa_reserved_bytes s.1
}.

Lemma held_bounds r : 0 ≤ rv_count r ∧ 0 ≤ rv_size r → 0 ≤ held_count r ∧ 0 ≤ held_size r.
Proof. unfold held_count, held_size. destruct (rv_released r); lia. Qed.

(** A sum over a list of which one element is replaced. *)
Lemma sumZ_insert (l : list Z) i x y : l !! i = Some x → sumZ (<[i := y]> l) = sumZ l - x + y.
Proof.
  revert i. induction l as [|z l IH]; intros [|i] H; simplify_eq/=; rewrite ?sumZ_cons; [lia|].
  rewrite (IH _ H). lia.
Qed.

Lemma zip_with_insert_l {A B C} (f : A → B → C) (l : list A) (k : list B) i x :
  zip_with f (<[i := x]> l) k
  = match k !! i with Some y => <[i := f x y]> (zip_with f l k) | None => zip_with f l k end.
Proof.
  revert k i. induction l as [|a l IH]; intros [|b k] [|i]; try done; simpl.
  - by case_match.
  - rewrite IH. by destruct (k !! i).
Qed.

(** Giving back a reservation of a class takes what it held from that class only. *)
Lemma of_class_release kind (f : Reservation → Z) rs kinds i r r' :
  rs !! i = Some r → f r' = 0 → 0 ≤ f r →
  of_class kind f (<[i := r']> rs) kinds ≤ of_class kind f rs kinds.
Proof.
  unfold of_class. intros Hi H0 Hp. rewrite zip_with_insert_l. destruct (kinds !! i) as [k|] eqn:Hk; [|done].
  assert (zip_with (λ r k, if decide (k = kind) then f r else 0) rs kinds !! i
    = Some (if decide (k = kind) then f r else 0)) as Hz by (by rewrite lookup_zip_with, Hi, Hk).
  rewrite (sumZ_insert _ _ _ _ Hz). case_decide; lia.
Qed.

Lemma of_class_snoc kind (f : Reservation → Z) rs kinds r k : length kinds = length rs →
  of_class kind f (rs ++ [r]) (kinds ++ [k])
  = of_class kind f rs kinds + (if decide (k = kind) then f r else 0).
Proof.
  intros Hl. unfold of_class. rewrite zip_with_app by done. rewrite sumZ_app. simpl. lia.
Qed.

(** The two classes hold all that is held. *)
Lemma of_class_total (f : Reservation → Z) rs kinds : length kinds = length rs →
  of_class ORDINARY f rs kinds + of_class REQUIRED f rs kinds = sumZ (f <$> rs).
Proof.
  unfold of_class. revert kinds. induction rs as [|r rs IH]; intros [|k kinds] Hl; simplify_eq/=; [done|].
  specialize (IH _ Hl). destruct k; simpl; lia.
Qed.

Lemma of_class_nonneg kind (f : Reservation → Z) rs kinds :
  Forall (λ r, 0 ≤ f r) rs → 0 ≤ of_class kind f rs kinds.
Proof.
  intros Hf. revert kinds. unfold of_class. induction Hf as [|r rs Hr _ IH]; intros [|k kinds]; try done.
  simpl zip_with. rewrite sumZ_cons. specialize (IH kinds). case_decide; lia.
Qed.

(** * What the calls do *)

Lemma fits_iff count bytes kind a :
  does_not_fit count bytes kind a = false ↔
  aa_count a + count ≤ aa_count_limit a + aa_reserved_count a ∧ aa_bytes a + bytes ≤ aa_byte_limit a
  ∧ (kind = ORDINARY → aa_count a + count ≤ aa_count_limit a
       ∧ aa_bytes a + bytes ≤ aa_byte_limit a - aa_reserved_bytes a).
Proof.
  unfold does_not_fit. rewrite !orb_false_iff, andb_false_iff, orb_false_iff, !Z.ltb_ge, bool_decide_eq_false.
  destruct kind; naive_solver.
Qed.

(** What a call of [try_reserve] that does not raise may do: refuse and change no more than
    the counter, the flag and the log, or grant and take what it was asked. *)
Lemma try_reserve_cases count bytes kind a r a' : try_reserve count bytes kind a = (r, a') →
  (r = Err "negative reservation" ∧ a' = a ∧ (count < 0 ∨ bytes < 0)) ∨
  (r = Ok None ∧ (does_not_fit count bytes kind a = true ∨ aa_closed a = true)
   ∧ aa_reservations a' = aa_reservations a ∧ aa_count a' = aa_count a ∧ aa_bytes a' = aa_bytes a
   ∧ aa_rejected a' = Z.min MAX_REJECTED (aa_rejected a + 1)) ∨
  (r = Ok (Some (length (aa_reservations a))) ∧ 0 ≤ count ∧ 0 ≤ bytes
   ∧ does_not_fit count bytes kind a = false ∧ aa_closed a = false
   ∧ aa_reservations a' = (aa_reservations a ++ [mkReservation count bytes false])%list
   ∧ aa_count a' = aa_count a + count ∧ aa_bytes a' = aa_bytes a + bytes ∧ aa_rejected a' = aa_rejected a).
Proof.
  unfold try_reserve. intros H. destruct ((count <? 0) || (bytes <? 0)) eqn:Hneg.
  { simplify_eq. left. apply orb_true_iff in Hneg as [?%Z.ltb_lt|?%Z.ltb_lt]; auto. }
  right. apply orb_false_iff in Hneg as [?%Z.ltb_ge ?%Z.ltb_ge].
  destruct (does_not_fit count bytes kind a || aa_closed a) eqn:Hfull.
  - left. apply orb_true_iff in Hfull. case_match; simplify_eq; by split_and!.
  - right. apply orb_false_iff in Hfull as [? ?]. case_match; simplify_eq; by split_and!.
Qed.

(** The limits are never changed. *)
Definition same_limits (a a' : AdmissionAccount) : Prop :=
  aa_count_limit a' = aa_count_limit a ∧ aa_byte_limit a' = aa_byte_limit a
  ∧ aa_reserved_count a' = aa_reserved_count a ∧ aa_reserved_bytes a' = aa_reserved_bytes a.

Lemma try_reserve_limits count bytes kind a : same_limits a (try_reserve count bytes kind a).2.
Proof. unfold try_reserve. repeat case_match; done. Qed.

Lemma release_limits i a : same_limits a (release i a).
Proof. unfold release. repeat case_match; done. Qed.

Lemma close_limits a : same_limits a (account_close a).
Proof. unfold account_close. by case_match. Qed.

Lemma close_use a :
  aa_reservations (account_close a) = aa_reservations a ∧ aa_count (account_close a) = aa_count a
  ∧ aa_bytes (account_close a) = aa_bytes a ∧ aa_rejected (account_close a) = aa_rejected a.
Proof. unfold account_close. by case_match. Qed.

(** * The invariant is kept *)

Lemma try_reserve_inv count bytes kind a r a' : account_inv a →
  try_reserve count bytes kind a = (r, a') → account_inv a'.
Proof.
  intros [Hs Hc Hb Hr Hcl Hbl Hrej] H. pose proof (try_reserve_limits count bytes kind a) as (L1 & L2 & L3 & L4).
  rewrite H in L1, L2, L3, L4. simpl in *. unfold MAX_REJECTED in *.
  apply try_reserve_cases in H as [(_ & -> & _)|[(_ & _ & E1 & E2 & E3 & E4)|(_ & ? & ? & Hfit & _ & E1 & E2 & E3 & E4)]].
  - by constructor.
  - constructor; rewrite ?E1, ?E2, ?E3, ?E4, ?L1, ?L2, ?L3, ?L4; unfold MAX_REJECTED; try done; lia.
  - apply fits_iff in Hfit as (? & ? & _).
    constructor; rewrite ?E1, ?E2, ?E3, ?E4, ?L1, ?L2, ?L3, ?L4, ?fmap_app, ?sumZ_app; try done; try lia.
    + apply Forall_app. split; [done|]. by repeat constructor.
    + simpl. unfold held_count at 2. simpl. lia.
    + simpl. unfold held_size at 2. simpl. lia.
Qed.

Lemma release_inv i a : account_inv a → account_inv (release i a).
Proof.
  intros [Hs Hc Hb Hr Hcl Hbl Hrej]. unfold release. destruct (aa_reservations a !! i) as [r|] eqn:Hi; [|by constructor].
  destruct (rv_released r) eqn:Hrel; [by constructor|].
  pose proof (Forall_lookup_1 _ _ _ _ Hs Hi) as [? ?].
  constructor; simpl; try done; try lia.
  - by apply Forall_insert.
  - rewrite list_fmap_insert, (sumZ_insert _ _ (rv_count r)); [unfold held_count at 2; simpl; lia|].
    rewrite list_lookup_fmap, Hi. simpl. unfold held_count. by rewrite Hrel.
  - rewrite list_fmap_insert, (sumZ_insert _ _ (rv_size r)); [unfold held_size at 2; simpl; lia|].
    rewrite list_lookup_fmap, Hi. simpl. unfold held_size. by rewrite Hrel.
Qed.

Lemma account_close_inv a : account_inv a → account_inv (account_close a).
Proof.
  intros [Hs Hc Hb Hr Hcl Hbl Hrej]. destruct (close_use a) as (E1 & E2 & E3 & E4).
  destruct (close_limits a) as (L1 & L2 & L3 & L4).
  constructor; by rewrite ?E1, ?E2, ?E3, ?E4, ?L1, ?L2, ?L3, ?L4.
Qed.

Lemma reserve_history_inv count bytes kind s : history_inv s →
  history_inv (run_admission_op (OReserve count bytes kind) s).
Proof.
  intros [Ha Hk Hc Hb]. destruct s as [a kinds]. simpl in *.
  destruct (try_reserve count bytes kind a) as [r a'] eqn:H. pose proof (try_reserve_inv _ _ _ _ _ _ Ha H) as Ha'.
  pose proof (try_reserve_limits count bytes kind a) as (L1 & L2 & L3 & L4). rewrite H in L1, L2, L3, L4. simpl in *.
  pose proof (of_class_total held_count _ _ Hk) as Tc. pose proof (of_class_total held_size _ _ Hk) as Tb.
  assert (Forall (λ r, 0 ≤ held_count r ∧ 0 ≤ held_size r) (aa_reservations a)) as Hn
    by (eapply Forall_impl; [exact (ai_sizes _ Ha)|]; intros; by apply held_bounds).
  apply Forall_and in Hn as [Nc Nb].
  pose proof (of_class_nonneg REQUIRED _ _ kinds Nc). pose proof (of_class_nonneg REQUIRED _ _ kinds Nb).
  pose proof (ai_count _ Ha). pose proof (ai_bytes _ Ha).
  apply try_reserve_cases in H
    as [(-> & -> & _)|[(-> & _ & E1 & E2 & E3 & E4)|(-> & ? & ? & Hfit & _ & E1 & E2 & E3 & E4)]].
  - by constructor.
  - constructor; simpl; rewrite ?E1, ?L1, ?L2, ?L4; done.
  - apply fits_iff in Hfit as (_ & _ & Hord).
    constructor; simpl; rewrite ?E1, ?L1, ?L2, ?L4, ?length_app, ?of_class_snoc by done; simpl; try done;
      try lia; cbn; case_decide as Hd; try lia; destruct (Hord Hd); lia.
Qed.

Lemma release_history_inv i s : history_inv s → history_inv (run_admission_op (ORelease i) s).
Proof.
  intros [Ha Hk Hc Hb]. destruct s as [a kinds]. simpl in *.
  destruct (release_limits i a) as (L1 & L2 & L3 & L4).
  assert (∀ r, aa_reservations a !! i = Some r → 0 ≤ held_count r ∧ 0 ≤ held_size r) as Hn
    by (intros r Hi; apply held_bounds; by apply (Forall_lookup_1 _ _ _ _ (ai_sizes _ Ha) Hi)).
  constructor; simpl; [by apply release_inv|..]; rewrite ?L1, ?L2, ?L4; unfold release;
    (destruct (aa_reservations a !! i) as [r|] eqn:Hi; [destruct (rv_released r) eqn:Hrel|]); simpl; try done.
  - by rewrite length_insert.
  - etrans; [|exact Hc]. eapply of_class_release; [exact Hi|done|]. by apply Hn.
  - etrans; [|exact Hb]. eapply of_class_release; [exact Hi|done|]. by apply Hn.
Qed.

Lemma history_op_inv op s : history_inv s → history_inv (run_admission_op op s).
Proof.
  destruct op; [apply reserve_history_inv|apply release_history_inv|].
  intros [Ha Hk Hc Hb]. destruct s as [a kinds]. simpl in *.
  destruct (close_use a) as (E1 & E2 & E3 & E4). destruct (close_limits a) as (L1 & L2 & L3 & L4).
  constructor; simpl; rewrite ?E1, ?L1, ?L2, ?L4; try done. by apply account_close_inv.
Qed.

Lemma new_account_inv count bytes rc rb q a : new_account count bytes rc rb q = Ok a →
  history_inv (a, []) ∧ aa_count_limit a = count ∧ aa_byte_limit a = bytes ∧ aa_reserved_count a = rc
  ∧ aa_reserved_bytes a = rb ∧ aa_count a = 0 ∧ aa_bytes a = 0 ∧ aa_closed a = false
  ∧ aa_reservations a = [].
Proof.
  unfold new_account. intros H. inv_res. bool_to_prop.
  split_and!; try done. constructor; simpl; try done; try (unfold of_class; simpl; lia).
  constructor; simpl; try done; unfold MAX_REJECTED; lia.
Qed.

Lemma run_admission_inv ops s : history_inv s → history_inv (fold_left (λ s op, run_admission_op op s) ops s).
Proof. revert s. induction ops as [|op ops IH]; intros s Hs; [done|]. apply IH. by apply history_op_inv. Qed.

Lemma op_limits op s : same_limits s.1 (run_admission_op op s).1.
Proof.
  destruct op as [c b k|i|]; simpl; [|apply release_limits|apply close_limits].
  pose proof (try_reserve_limits c b k s.1) as H. destruct (try_reserve c b k s.1) as [[[i|]|e] a]; exact H.
Qed.

Lemma run_admission_limits ops s : same_limits s.1 (fold_left (λ s op, run_admission_op op s) ops s).1.
Proof.
  revert s. induction ops as [|op ops IH]; intros s; [done|]. simpl.
  destruct (IH (run_admission_op op s)) as (E1 & E2 & E3 & E4). destruct (op_limits op s) as (F1 & F2 & F3 & F4).
  unfold same_limits. by rewrite E1, E2, E3, E4.
Qed.

(** C37: an account is exact, bounded, and keeps its reserve. After any calls, what it counts
    as in custody is what its unreleased reservations hold, however often each was
    released; it is within the limits; and as long as the account is open, a required
    reservation that fits the reserve together with the required ones still held is
    granted, whatever ordinary reservations are held. *)
Theorem reservations_exact (count bytes reserved_count reserved_bytes : Z) (queue_id : string)
    (a0 : AdmissionAccount) (ops : list admission_op) :
  new_account count bytes reserved_count reserved_bytes queue_id = Ok a0 →
  let '(a, kinds) := run_admission ops a0 in
  aa_count a = sumZ (held_count <$> aa_reservations a) ∧ aa_bytes a = sumZ (held_size <$> aa_reservations a) ∧
  0 ≤ aa_count a ≤ count + reserved_count ∧ 0 ≤ aa_bytes a ≤ bytes ∧
  ∀ c b, 0 ≤ c → 0 ≤ b → aa_closed a = false →
    of_class REQUIRED held_count (aa_reservations a) kinds + c ≤ reserved_count →
    of_class REQUIRED held_size (aa_reservations a) kinds + b ≤ reserved_bytes →
    ∃ a', try_reserve c b REQUIRED a = (Ok (Some (length (aa_reservations a))), a').
Proof.
  intros Hnew. apply new_account_inv in Hnew as (Hinv & L1 & L2 & L3 & L4 & _).
  pose proof (run_admission_inv ops (a0, []) Hinv) as Hi. pose proof (run_admission_limits ops (a0, [])) as HL.
  unfold run_admission. destruct (fold_left _ ops (a0, [])) as [a kinds]. destruct HL as (M1 & M2 & M3 & M4). simpl in *.
  destruct Hi as [Ha Hk Hc Hb]. simpl in *. pose proof Ha as [Hs Ec Eb _ Bc Bb _].
  assert (0 ≤ aa_count a ∧ 0 ≤ aa_bytes a) as [? ?].
  { rewrite Ec, Eb. split; apply sumZ_nonneg, Forall_fmap; (eapply Forall_impl; [exact Hs|]); intros r Hr; apply (held_bounds r Hr). }
  split_and!; try done; try lia. intros c b Hc0 Hb0 Hopen Fc Fb.
  pose proof (of_class_total held_count _ _ Hk). pose proof (of_class_total held_size _ _ Hk).
  destruct (try_reserve c b REQUIRED a) as [r a'] eqn:Htry.
  apply try_reserve_cases in Htry as [(_ & _ & ?)|[(_ & [Hfit|?] & _)|(-> & _)]]; [lia| |congruence|by eexists].
  assert (does_not_fit c b REQUIRED a = false); [|congruence]. apply fits_iff. split_and!; [lia..|done].
Qed.

Lemma reservations_exact_witness :
  ∃ a, new_account 2 100 1 10 "outbound" = Ok a ∧
  let '(b, kinds) := run_admission [OReserve 1 60 ORDINARY; OReserve 1 30 ORDINARY; ORelease 0; ORelease 0;
    OReserve 1 60 ORDINARY] a in
  ∃ a', try_reserve 1 10 REQUIRED b = (Ok (Some (length (aa_reservations b))), a').
Proof.
  eexists. split; [reflexivity|].
  pose proof (reservations_exact 2 100 1 10 "outbound" _
    [OReserve 1 60 ORDINARY; OReserve 1 30 ORDINARY; ORelease 0; ORelease 0; OReserve 1 60 ORDINARY] eq_refl) as H.
  destruct (run_admission _ _) as [b kinds] eqn:E. vm_compute in E. simplify_eq.
  apply H; vm_compute; congruence.
Defined.
