(* ===== verification/Framing.v ===== *)
(** Message framing (src/optimus/acp/framing.py): a JSON object behind a [Content-Length]
    header, as it is written to a stream and read from it in pieces.

    The reader is the stream that is left and the sizes of the pieces it hands out: a read
    of at most [n] bytes gives at least one, unless the stream is at its end. Python's
    [bytes] are the [string] of those bytes; a decoded [str] is its UTF-8 bytes. *)
From Stdlib Require Ascii.
Import (notations) Ascii.
From stdpp Require Import pretty.
From S2P Require Import Prelude Text Json JsonLoads Admission.

Local Open Scope string_scope.
Local Open Scope Z_scope.

(** * Bytes *)

Definition CR : Ascii.ascii := byte_of 13.
Definition CRLF : string := String CR (String NEWLINE "").
Definition HEADER_END : string := CRLF +:+ CRLF.

(** The white space of [bytes.strip]. *)
Definition byte_space (c : Ascii.ascii) : bool :=
  let n := Ascii.nat_of_ascii c in ((9 <=? n) && (n <=? 13))%nat || (n =? 32)%nat.
Fixpoint bytes_lstrip (s : string) : string :=
  match s with
  | String c s' => if byte_space c then bytes_lstrip s' else s
  | EmptyString => ""
  end.
Fixpoint bytes_rstrip (s : string) : string :=
  match s with
  | EmptyString => ""
  | String c s' => if String.eqb (bytes_lstrip s) "" then "" else String c (bytes_rstrip s')
  end.
Definition bytes_strip (s : string) : string := bytes_rstrip (bytes_lstrip s).

(** [bytes.lower]: ASCII letters only. *)
Fixpoint bytes_lower (s : string) : string :=
  match s with
  | EmptyString => ""
  | String c s' => String (lower_ascii c) (bytes_lower s')
  end.

(** [bytes.splitlines]: lines end at a carriage return, a line feed or both; an empty last
    line is dropped. *)
Fixpoint bytes_splitlines (s : string) : list string :=
  match s with
  | EmptyString => []
  | String c s1 =>
      if Ascii.eqb c NEWLINE then "" :: bytes_splitlines s1
      else if Ascii.eqb c CR then
        match s1 with
        | String c2 s2 => if Ascii.eqb c2 NEWLINE then "" :: bytes_splitlines s2
                          else "" :: bytes_splitlines s1
        | EmptyString => [""]
        end
      else match bytes_splitlines s1 with
           | line :: lines => String c line :: lines
           | [] => [String c ""]
           end
  end.

(** [bytes.partition]: what precedes and what follows the first occurrence, if there is
    one. *)
Fixpoint partition (sep s : string) : option (string * string) :=
  match after sep s with
  | Some rest => Some ("", rest)
  | None =>
      match s with
      | String c s' => match partition sep s' with
                       | Some (a, b) => Some (String c a, b)
                       | None => None
                       end
      | EmptyString => None
      end
  end.

(** [int] of bytes in base ten: a sign, digits with single underscores between them, at
    most 4300 digits. *)
Definition MAX_STR_DIGITS : nat := 4300.
Fixpoint int_digits (acc : N) (s : string) : option (N * nat) :=
  match s with
  | EmptyString => None
  | String c s' =>
      if is_digit c then
        let acc' := (acc * 10 + (Ascii.N_of_ascii c - 48))%N in
        match s' with
        | EmptyString => Some (acc', 1%nat)
        | String c2 s2 =>
            match (if Ascii.eqb c2 "_" then int_digits acc' s2 else int_digits acc' s') with
            | Some (v, n) => Some (v, S n)
            | None => None
            end
        end
      else None
  end.
Definition bounded_digits (s : string) : option Z :=
  match int_digits 0 s with
  | Some (v, n) => if (MAX_STR_DIGITS <? n)%nat then None else Some (Z.of_N v)
  | None => None
  end.
Definition py_int (bytes : string) : option Z :=
  match bytes_strip bytes with
  | String c s => if Ascii.eqb c "-" then Z.opp <$> bounded_digits s
                  else if Ascii.eqb c "+" then bounded_digits s
                  else bounded_digits (String c s)
  | EmptyString => None
  end.

(** Whether [bytes.decode("utf-8")] accepts the bytes: no overlong forms, no surrogates,
    nothing above U+10FFFF. *)
Definition tail_byte (c : Ascii.ascii) : bool :=
  let n := Ascii.N_of_ascii c in ((128 <=? n) && (n <? 192))%N.
Fixpoint utf8_decodes (s : string) : bool :=
  match s with
  | EmptyString => true
  | String c s1 =>
      let n := Ascii.N_of_ascii c in
      if (n <? 128)%N then utf8_decodes s1
      else match s1 with
      | EmptyString => false
      | String c2 s2 =>
          let n2 := Ascii.N_of_ascii c2 in
          if (n <? 224)%N then (194 <=? n)%N && tail_byte c2 && utf8_decodes s2
          else match s2 with
          | EmptyString => false
          | String c3 s3 =>
              if (n <? 240)%N then
                tail_byte c2 && tail_byte c3
                && (if (n =? 224)%N then (160 <=? n2)%N else if (n =? 237)%N then (n2 <? 160)%N else true)
                && utf8_decodes s3
              else match s3 with
              | EmptyString => false
              | String c4 s4 =>
                  (n <? 245)%N && tail_byte c2 && tail_byte c3 && tail_byte c4
                  && (if (n =? 240)%N then (144 <=? n2)%N else if (n =? 244)%N then (n2 <? 144)%N else true)
                  && utf8_decodes s4
              end
          end
      end
  end.

(** * Frames *)

Definition PARSE_ERROR : Z := -32700.
Definition INVALID_REQUEST : Z := -32600.

Record FramingError := mkFramingError { fe_message : string; fe_code : Z }.
Definition framing_error (message : string) : FramingError := mkFramingError message PARSE_ERROR.

Definition encode_message (payload : list (string * json)) : string :=
  let body := json_dumps_verbatim "," ":" (JObject payload) in
  "Content-Length: " +:+ json_int (Z.of_nat (String.length body)) +:+ HEADER_END +:+ body.

Fixpoint content_length_of (lines : list string) : res FramingError Z :=
  match lines with
  | [] => Err (framing_error "missing Content-Length")
  | raw_line :: lines' =>
      match partition ":" raw_line with
      | None => content_length_of lines'
      | Some (name, value) =>
          if negb (String.eqb (bytes_lower (bytes_strip name)) "content-length") then content_length_of lines'
          else match py_int (bytes_strip value) with
          | None => Err (framing_error "invalid Content-Length")
          | Some length =>
              if length <? 0 then Err (framing_error "invalid Content-Length") else Ok length
          end
      end
  end.
Definition parse_content_length (header_bytes : string) : res FramingError Z :=
  content_length_of (bytes_splitlines header_bytes).

(** * Reading from a stream *)

Record Reader := mkReader { rd_stream : string; rd_pieces : list nat }.

Fixpoint split_at (n : nat) (s : string) : string * string :=
  match n, s with
  | S n', String c s' => let '(a, b) := split_at n' s' in (String c a, b)
  | _, _ => ("", s)
  end.

(** [await reader.read(size)] for a positive [size]. *)
Definition read (size : nat) (r : Reader) : string * Reader :=
  let piece := Nat.max 1 (Nat.min size (default size (head (rd_pieces r)))) in
  let '(chunk, rest) := split_at piece (rd_stream r) in
  (chunk, mkReader rest (tail (rd_pieces r))).

(** What reading gives and the reader it leaves; [None] is fuel that ran out. *)
Abbreviation reading A := (option (res FramingError A * Reader)).

(** The loop that collects a header, a byte at a time. It stops at the byte after the
    limit, so the fuel counts the bytes that may still come. *)
Fixpoint read_header (fuel : nat) (header_limit : Z) (header : string) (r : Reader)
    : reading string :=
  if contains HEADER_END header then Some (Ok header, r)
  else match fuel with
  | O => None
  | S fuel' =>
      let '(chunk, r') := read 1 r in
      if String.eqb chunk "" then Some (Err (framing_error "unexpected end of stream"), r')
      else
        let header' := header +:+ chunk in
        if header_limit <? Z.of_nat (String.length header')
        then Some (Err (mkFramingError "header too large" INVALID_REQUEST), r')
        else read_header fuel' header_limit header' r'
  end.

(** The loop that collects a body; every piece brings at least one byte. *)
Fixpoint read_body (fuel : nat) (content_length : nat) (body : string) (r : Reader)
    : reading string :=
  if (content_length <=? String.length body)%nat then Some (Ok body, r)
  else match fuel with
  | O => None
  | S fuel' =>
      let '(chunk, r') := read (Nat.min (Z.to_nat 65536) (content_length - String.length body)) r in
      if String.eqb chunk "" then Some (Err (framing_error "unexpected end of stream"), r')
      else read_body fuel' content_length (body +:+ chunk) r'
  end.

Definition decode_body (body : string) : res FramingError (list (string * json)) :=
  match (if utf8_decodes body then json_loads body else None) with
  | None => Err (framing_error "invalid JSON body")
  | Some (JObject decoded) => Ok decoded
  | Some _ => Err (framing_error "JSON-RPC message must be an object")
  end.

Definition read_message (header_limit body_limit : Z) (r : Reader) : reading (list (string * json)) :=
  match read_header (S (Z.to_nat header_limit)) header_limit "" r with
  | None => None
  | Some (Err e, r1) => Some (Err e, r1)
  | Some (Ok header, r1) =>
      let '(header_bytes, remainder) := default (header, "") (partition HEADER_END header) in
      match parse_content_length header_bytes with
      | Err e => Some (Err e, r1)
      | Ok content_length =>
          if body_limit <? content_length
          then Some (Err (mkFramingError "body too large" INVALID_REQUEST), r1)
          else
            let n := Z.to_nat content_length in
            match read_body n n remainder r1 with
            | None => None
            | Some (Err e, r2) => Some (Err e, r2)
            | Some (Ok body, r2) => Some (decode_body (split_at n body).1, r2)
            end
      end
  end.

(** [read_message(reader)] with its default limits. *)
Definition read_next : Reader → reading (list (string * json)) :=
  read_message 8192 (frame_bytes DEFAULT_LIMITS).

(** Reading message after message until one fails. *)
Fixpoint read_messages (n : nat) (r : Reader) : reading (list (list (string * json))) :=
  match n with
  | O => Some (Ok [], r)
  | S n' =>
      match read_next r with
      | Some (Ok m, r1) =>
          match read_messages n' r1 with
          | Some (Ok ms, r2) => Some (Ok (m :: ms), r2)
          | other => other
          end
      | Some (Err e, r1) => Some (Err e, r1)
      | None => None
      end
  end.

Definition example_header (header : string) : res FramingError Z := parse_content_length header.
Example framing_examples :
  example_header ("X: 1" +:+ CRLF +:+ "content-LENGTH :  +1_0 ") = Ok 10 ∧
  example_header "Content-Length: -1" = Err (framing_error "invalid Content-Length") ∧
  example_header "Content-Length: 1__0" = Err (framing_error "invalid Content-Length") ∧
  example_header ("Length: 3" +:+ CRLF) = Err (framing_error "missing Content-Length") ∧
  read_messages 2 (mkReader (encode_message [("a", JString "é")] +:+ encode_message [] +:+ "rest") [5; 0; 1]%nat) =
    Some (Ok [[("a", JString "é")]; []], mkReader "rest" []) ∧
  read_next (mkReader "Content-Length: 9000000" []) =
    Some (Err (framing_error "unexpected end of stream"), mkReader "" []).
Proof. vm_compute. done. Qed.

(** * Reading pieces *)

Lemma split_at_spec n s : let '(a, b) := split_at n s in
  s = a +:+ b ∧ String.length a = Nat.min n (String.length s).
Proof.
  revert s. induction n as [|n IH]; intros [|c s]; try done; simpl; [].
  specialize (IH s). destruct (split_at n s) as [a b]. destruct IH as [-> Hl]. rewrite string_cons_app. split; [done|]. simpl. by rewrite Hl.
Qed.

Lemma split_at_all n s t : String.length s = n → split_at n (s +:+ t) = (s, t).
Proof. revert n. induction s as [|c s IH]; intros [|n] H; simplify_eq/=; [by destruct t|]. by rewrite IH. Qed.

Lemma read_spec n r chunk r' : (1 ≤ n)%nat → read n r = (chunk, r') →
  rd_stream r = chunk +:+ rd_stream r' ∧ (String.length chunk ≤ n)%nat ∧ (chunk = "" → rd_stream r = "").
Proof.
  unfold read. intros Hn H.
  pose proof (split_at_spec (Nat.max 1 (Nat.min n (default n (head (rd_pieces r))))) (rd_stream r)) as Hs.
  destruct (split_at _ _) as [a b]. destruct Hs as [Hs Hl]. simplify_eq/=. split; [done|]. split; [lia|].
  intros ->. simpl in Hl. destruct (rd_stream r); [done|simpl in Hl; lia].
Qed.

Lemma read_one c s pieces : read 1 (mkReader (String c s) pieces) = (String c "", mkReader s (tail pieces)).
Proof.
  unfold read. simpl. replace (match default 1%nat (head pieces) with O => O | S _ => 1%nat end) with
    (Nat.min 1 (default 1%nat (head pieces))) by (by destruct (default 1%nat (head pieces))).
  replace (Nat.max 1 _) with 1%nat by lia. simpl. by destruct s.
Qed.

(** * Headers *)

Lemma after_app p s : after p (p +:+ s) = Some s.
Proof. induction p as [|c p IH]; [done|]. rewrite string_cons_app. simpl. by rewrite Ascii.eqb_refl. Qed.

Lemma header_end_cr : HEADER_END = String CR (String NEWLINE CRLF).
Proof. done. Qed.

Lemma no_end_before t s : has_char CR t = false → contains HEADER_END (t +:+ s) = contains HEADER_END s.
Proof.
  induction t as [|c t IH]; intros H; [done|]. rewrite string_cons_app. simpl in H. apply orb_false_iff in H as [Hc Ht].
  cbn [contains]. rewrite IH by done. rewrite Ascii.eqb_sym in Hc. rewrite header_end_cr. cbn [starts_with].
  by rewrite Hc.
Qed.

Lemma header_step fuel limit header c s pieces : contains HEADER_END header = false →
  Z.of_nat (String.length header) + 1 ≤ limit →
  read_header (S fuel) limit header (mkReader (String c s) pieces)
  = read_header fuel limit (header +:+ String c "") (mkReader s (tail pieces)).
Proof.
  intros Hc Hl. cbn [read_header]. rewrite Hc, read_one.
  change (String.eqb (String c "") "") with false. cbv iota. rewrite string_length_app. simpl String.length.
  replace (limit <? _) with false; [done|]. symmetry. apply Z.ltb_ge. lia.
Qed.

(** The header of a frame is read to its end and no further. *)
Lemma read_header_frame t rest pieces limit fuel : has_char CR t = false →
  Z.of_nat (String.length t) + 4 ≤ limit → (String.length t + 4 ≤ fuel)%nat →
  ∃ pieces', read_header fuel limit "" (mkReader (t +:+ HEADER_END +:+ rest) pieces)
    = Some (Ok (t +:+ HEADER_END), mkReader rest pieces').
Proof.
  intros Ht Hl Hf.
  assert (∀ u header fuel pieces, has_char CR u = false → has_char CR header = false →
    Z.of_nat (String.length (header +:+ u)) + 4 ≤ limit → (String.length u + 4 ≤ fuel)%nat →
    ∃ pieces', read_header fuel limit header (mkReader (u +:+ HEADER_END +:+ rest) pieces)
      = Some (Ok (header +:+ u +:+ HEADER_END), mkReader rest pieces')) as Hgo; [|by apply (Hgo t "")].
  clear. intros u. induction u as [|c u IH]; intros header fuel pieces Hu Hh Hl Hf.
  - rewrite string_length_app in Hl. simpl in Hl, Hf. do 4 (destruct fuel as [|fuel]; [lia|]).
    rewrite !string_nil_app, header_end_cr. unfold CRLF. rewrite !string_cons_app, !string_nil_app.
    assert (contains HEADER_END header = false) as H0 by (by rewrite <- (string_app_nil header), no_end_before).
    do 4 (rewrite header_step; [|first [exact H0 | rewrite ?string_app_assoc, no_end_before by exact Hh; reflexivity]
      |rewrite ?string_length_app; simpl; lia]).
    exists (tail (tail (tail (tail pieces)))). rewrite !string_app_assoc.
    destruct fuel; cbn [read_header]; by rewrite no_end_before.
  - simpl in Hu. apply orb_false_iff in Hu as [Hc Hu]. rewrite string_length_app in Hl. simpl in Hl, Hf.
    destruct fuel as [|fuel]; [lia|]. rewrite !string_cons_app.
    rewrite header_step; [|by rewrite <- (string_app_nil header), no_end_before|lia].
    destruct (IH (header +:+ String c "") fuel (tail pieces) Hu) as [pieces' ->].
    + by rewrite has_char_app, Hh; simpl; rewrite Hc.
    + rewrite !string_length_app. simpl. lia.
    + lia.
    + exists pieces'. by rewrite string_app_assoc, string_cons_app, string_nil_app.
Qed.

Lemma partition_frame t : has_char CR t = false → partition HEADER_END (t +:+ HEADER_END) = Some (t, "").
Proof.
  induction t as [|c t IH]; intros H; [done|]. simpl in H. apply orb_false_iff in H as [Hc Ht]. rewrite string_cons_app.
  cbn [partition]. rewrite Ascii.eqb_sym in Hc. rewrite header_end_cr at 1. cbn [after]. by rewrite Hc, IH.
Qed.

(** * The length of a body *)

Lemma digit_not_space c : is_digit c = true →
  byte_space c = false ∧ Ascii.eqb c "-" = false ∧ Ascii.eqb c "+" = false ∧ Ascii.eqb c "_" = false
  ∧ Ascii.eqb c CR = false ∧ Ascii.eqb c NEWLINE = false.
Proof. intros H. by apply (digit_cases c). Qed.

Lemma digits_inv c d : digits (String c d) → is_digit c = true ∧ digits d.
Proof.
  unfold digits. simpl. destruct (is_digit c); [|done]. destruct (take_digits d). intros H. by simplify_eq.
Qed.

Lemma digits_strip d : digits d → bytes_lstrip d = d ∧ bytes_rstrip d = d.
Proof.
  induction d as [|c d IH]; intros Hd; [done|]. apply digits_inv in Hd as [Hc Hd].
  destruct (digit_not_space c Hc) as (Hs & _). destruct (IH Hd) as [_ IH']. cbn [bytes_lstrip bytes_rstrip]. rewrite Hs.
  split; [done|]. change (String.eqb (String c d) "") with false. cbv iota. by rewrite IH'.
Qed.

Lemma digits_no_char d x : digits d → is_digit x = false → has_char x d = false.
Proof.
  intros Hd Hx. induction d as [|c d IH]; [done|]. apply digits_inv in Hd as [Hc Hd]. cbn [has_char].
  rewrite (IH Hd), orb_false_r. destruct (Ascii.eqb_spec c x); [congruence|done].
Qed.

Lemma int_digits_value d acc v : digits d → d ≠ "" → digits_value acc d = Some v →
  int_digits acc d = Some (v, String.length d).
Proof.
  revert acc. induction d as [|c d IH]; [done|]. intros acc Hd _ Hv. apply digits_inv in Hd as [Hc Hd].
  cbn [int_digits digits_value] in *. rewrite Hc in *. destruct d as [|c2 d]; [simpl in Hv; by simplify_eq|].
  apply digits_inv in Hd as Hd2. destruct Hd2 as [Hc2 _].
  destruct (digit_not_space c2 Hc2) as (_ & _ & _ & Hu & _). rewrite Hu. by rewrite IH.
Qed.

Lemma digits_value_large d acc v : digits_value acc d = Some v → (acc * 10 ^ N.of_nat (String.length d) ≤ v)%N.
Proof.
  revert acc. induction d as [|c d IH]; intros acc H; [simpl in *; simplify_eq; lia|].
  cbn [digits_value String.length] in *. destruct (is_digit c); [|done]. apply IH in H.
  rewrite Nat2N.inj_succ, N.pow_succ_r'. nia.
Qed.

(** The decimal of a natural number that is not enormous. *)
Lemma decimal_digits (n : nat) : (Z.of_nat n < 10 ^ 20) → ∃ d, json_int (Z.of_nat n) = d ∧ digits d ∧ d ≠ ""
  ∧ digits_value 0 d = Some (N.of_nat n) ∧ (String.length d ≤ 20)%nat.
Proof.
  intros Hn. unfold json_int. destruct n as [|n].
  { exists "0". change (pretty (Z.of_nat 0)) with "0". split_and!; try done. simpl. lia. }
  replace (pretty (Z.of_nat (S n))) with (pretty (N.of_nat (S n))) by (by simpl).
  destruct (pretty_digits (N.of_nat (S n)) "") as (c & d & Hp & Hd & Hc & Hv); [lia|].
  rewrite string_app_nil in Hp. exists (String c d). split; [exact Hp|]. split_and!; try done.
  assert (is_digit c = true ∧ 1 ≤ Ascii.N_of_ascii c - 48)%N as [Hdig H1].
  { apply digits_inv in Hd as [Hdig _]. split; [done|]. revert Hc. by apply (digit_cases c). }
  cbn [digits_value] in Hv. rewrite Hdig in Hv. apply digits_value_large in Hv. cbn [String.length].
  destruct (decide (S (String.length d) ≤ 20)%nat) as [|Hbig]; [done|].
  assert (10 ^ 20 ≤ 10 ^ N.of_nat (String.length d))%N by (apply N.pow_le_mono_r; lia). nia.
Qed.

Lemma content_length_read n d : digits d → d ≠ "" → digits_value 0 d = Some n → (String.length d ≤ MAX_STR_DIGITS)%nat →
  parse_content_length ("Content-Length: " +:+ d) = Ok (Z.of_N n).
Proof.
  intros Hd Hne Hv Hl. unfold parse_content_length.
  assert (∀ t, has_char CR t = false → has_char NEWLINE t = false → t ≠ "" → bytes_splitlines t = [t]) as Hone.
  { clear. induction t as [|c t IH]; [done|]. simpl. intros [Hc Ht]%orb_false_iff [Hc' Ht']%orb_false_iff _.
    rewrite Hc', Hc. destruct t; [done|]. by rewrite IH. }
  rewrite Hone; [|rewrite has_char_app; by apply digits_no_char..|done].
  change (content_length_of ["Content-Length: " +:+ d]) with
    (match py_int (bytes_strip (" " +:+ d)) with
     | None => Err (framing_error "invalid Content-Length")
     | Some length => if length <? 0 then Err (framing_error "invalid Content-Length") else Ok length
     end).
  destruct (digits_strip d Hd) as [E1 E2]. unfold bytes_strip, py_int. change (bytes_lstrip (" " +:+ d)) with (bytes_lstrip d).
  unfold bytes_strip. rewrite !E1, E2, E1, E2. destruct d as [|c d]; [done|]. pose proof Hd as [Hc _]%digits_inv.
  destruct (digit_not_space c Hc) as (_ & -> & -> & _). unfold bounded_digits.
  rewrite (int_digits_value _ _ _ Hd Hne Hv). replace (MAX_STR_DIGITS <? _)%nat with false by (symmetry; by apply Nat.ltb_ge).
  by replace (Z.of_N n <? 0) with false by (symmetry; apply Z.ltb_ge; lia).
Qed.

(** * The text of a body *)

Lemma valid_app a b : valid_text a → valid_text b → valid_text (a +:+ b).
Proof.
  intros (ca & Ha & ->) (cb & Hb & ->). exists (ca ++ cb)%list. split; [by apply Forall_app|].
  unfold encode_text. rewrite fmap_app. clear. induction (utf8_encode <$> ca) as [|x l IH]; [done|].
  simpl. by rewrite string_app_assoc, IH.
Qed.

Lemma valid_join sep l : valid_text sep → Forall valid_text l → valid_text (join sep l).
Proof.
  intros Hs. induction 1 as [|x l Hx Hl IH]; [by exists []|]. destruct l as [|y l]; [done|].
  rewrite join_cons. auto using valid_app.
Qed.

Lemma escape_char_ascii c : (Ascii.N_of_ascii c <? 128)%N = true → ascii_text (json_escape_char c) = true.
Proof. destruct c as [[] [] [] [] [] [] [] []]; done. Qed.
Lemma escape_char_high c : (Ascii.N_of_ascii c <? 128)%N = false → json_escape_char c = String c "".
Proof. destruct c as [[] [] [] [] [] [] [] []]; done. Qed.

Lemma escape_encoded v : scalar v → valid_text (json_escape (utf8_encode v)).
Proof.
  intros Hv. pose proof Hv as [_ Hmax].
  assert (∀ w, (128 ≤ w < 256)%N → json_escape_char (byte_N w) = String (byte_N w) "") as Hbyte.
  { intros w Hw. apply escape_char_high. rewrite byte_N_value by lia. apply N.ltb_ge. lia. }
  assert (valid_text (utf8_encode v)) as Hval.
  { exists [v]. split; [by constructor|]. unfold encode_text. simpl. by rewrite string_app_nil. }
  revert Hval. unfold utf8_encode.
  destruct (N.ltb_spec v 128) as [H1|H1].
  { intros _. simpl. rewrite string_app_nil. apply ascii_valid, escape_char_ascii. rewrite byte_N_value by lia.
    by apply N.ltb_lt. }
  destruct (N.ltb_spec v 2048); [|destruct (N.ltb_spec v 65536)]; cbn [json_escape];
    rewrite !Hbyte by N_div; done.
Qed.

Lemma escape_valid s : valid_text s → valid_text (json_escape s).
Proof.
  intros (cps & Hc & ->). unfold encode_text. induction Hc as [|v cps Hv Hc IH]; [by exists []|]. simpl.
  rewrite json_escape_app. apply valid_app; [by apply escape_encoded|done].
Qed.

Lemma json_string_valid s : valid_text s → valid_text (json_string s).
Proof. intros Hs. unfold json_string. apply valid_app; [by apply ascii_valid|]. apply valid_app; [by apply escape_valid|by apply ascii_valid]. Qed.

Lemma verbatim_valid v : json_ok v → valid_text (json_dumps_verbatim "," ":" v).
Proof.
  induction v as [|b|l|s|l IH|fields IH] using json_nested_ind; intros Hok; inversion_clear Hok.
  - by apply ascii_valid.
  - destruct b; by apply ascii_valid.
  - apply ascii_valid, (proj1 (printable_text l ltac:(by eapply number_prints))).
  - by apply json_string_valid.
  - cbn [json_dumps_verbatim]. apply valid_app; [by apply ascii_valid|]. apply valid_app; [|by apply ascii_valid].
    apply valid_join; [by apply ascii_valid|]. apply Forall_fmap. rewrite Forall_forall in *. simpl. auto.
  - cbn [json_dumps_verbatim]. apply valid_app; [by apply ascii_valid|]. apply valid_app; [|by apply ascii_valid].
    apply valid_join; [by apply ascii_valid|]. apply Forall_fmap, Forall_forall. pose proof (proj1 (Forall_forall _ _) H0) as Hkeys. rewrite Forall_forall in IH, H1.
    intros kv Hin. simpl. assert (kv.1 ∈ fields.*1 ∧ kv.2 ∈ fields.*2) as [? ?] by (split; by apply list_elem_of_fmap_2).
    apply valid_app; [by apply json_string_valid, Hkeys|]. apply valid_app; [by apply ascii_valid|by auto].
Qed.

(** ** Decoding *)

Ltac N_tests := repeat match goal with
  | |- context [(?a <? ?b)%N] => first [replace (a <? b)%N with true by (symmetry; apply N.ltb_lt; N_div)
                                       |replace (a <? b)%N with false by (symmetry; apply N.ltb_ge; N_div)]
  | |- context [(?a <=? ?b)%N] => first [replace (a <=? b)%N with true by (symmetry; apply N.leb_le; N_div)
                                        |replace (a <=? b)%N with false by (symmetry; apply N.leb_gt; N_div)]
  | |- context [(?a =? ?b)%N] => first [replace (a =? b)%N with true by (symmetry; apply N.eqb_eq; N_div)
                                       |replace (a =? b)%N with false by (symmetry; apply N.eqb_neq; N_div)]
  end.

Lemma decodes_encoded v s : scalar v → utf8_decodes (utf8_encode v +:+ s) = utf8_decodes s.
Proof.
  intros [Hs Hmax]. unfold utf8_encode.
  destruct (N.ltb_spec v 128) as [H1|H1].
  { rewrite string_cons_app, string_nil_app. cbn [utf8_decodes]. rewrite byte_N_value by lia.
    by replace (v <? 128)%N with true by (symmetry; by apply N.ltb_lt). }
  destruct (N.ltb_spec v 2048) as [H2|H2]; [|destruct (N.ltb_spec v 65536) as [H3|H3]];
    rewrite !string_cons_app, string_nil_app; cbn [utf8_decodes]; unfold tail_byte; rewrite !byte_N_value by N_div.
  - N_tests. done.
  - destruct (N.eqb_spec (224 + v / 4096) 224); [|destruct (N.eqb_spec (224 + v / 4096) 237)]; N_tests; done.
  - destruct (N.eqb_spec (240 + v / 262144) 240); [|destruct (N.eqb_spec (240 + v / 262144) 244)]; N_tests; done.
Qed.

Lemma valid_decodes s : valid_text s → utf8_decodes s = true.
Proof.
  intros (cps & Hc & ->). unfold encode_text. induction Hc as [|v cps Hv _ IH]; [done|]. simpl. by rewrite decodes_encoded.
Qed.

Lemma decode_written payload : json_ok (JObject payload) →
  decode_body (json_dumps_verbatim "," ":" (JObject payload)) = Ok payload.
Proof. intros Hok. unfold decode_body. by rewrite (valid_decodes _ (verbatim_valid _ Hok)), (json_loads_verbatim _ Hok). Qed.

(** * Bodies *)

Lemma read_body_exact body rest : ∀ fuel got r, rd_stream r = body +:+ rest → (String.length body ≤ fuel)%nat →
  ∃ pieces, read_body fuel (String.length (got +:+ body)) got r = Some (Ok (got +:+ body), mkReader rest pieces).
Proof.
  intros fuel. revert body. induction fuel as [|fuel IH]; intros body got r Hr Hf.
  - destruct body; [|simpl in Hf; lia]. rewrite string_app_nil. cbn [read_body]. rewrite Nat.leb_refl.
    destruct r. simpl in Hr. subst. by eexists.
  - cbn [read_body]. destruct (Nat.leb_spec (String.length (got +:+ body)) (String.length got)) as [Hle|Hgt];
      rewrite string_length_app in *.
    { destruct body; [|simpl in Hle; lia]. rewrite string_app_nil. destruct r. simpl in Hr. subst. by eexists. }
    destruct (read _ r) as [chunk r'] eqn:Hread. apply read_spec in Hread as (Hs & Hl & Hend); [|lia].
    destruct (String.eqb_spec chunk "") as [->|Hne].
    { destruct body; [simpl in Hgt; lia|]. rewrite Hr in Hend. by specialize (Hend eq_refl). }
    assert (∃ body', body = chunk +:+ body' ∧ rd_stream r' = body' +:+ rest) as (body' & -> & Hr').
    { rewrite Hr in Hs. assert (String.length chunk ≤ String.length body)%nat as Hcl by lia. clear -Hs Hcl.
      revert body Hs Hcl. induction chunk as [|c chunk IHc]; intros body Hs Hcl; [by exists body|].
      destruct body as [|c' body]; [simpl in Hcl; lia|]. rewrite !string_cons_app in Hs. injection Hs as -> Hs.
      destruct (IHc body Hs ltac:(simpl in Hcl; lia)) as (b' & -> & ?). by exists b'. }
    rewrite string_length_app in Hf. destruct chunk as [|c chunk]; [done|]. simpl in Hf.
    rewrite <- string_length_app, <- string_app_assoc. apply IH; [done|lia].
Qed.

(** * Round trip and bounds *)

Definition body_text (payload : list (string * json)) : string := json_dumps_verbatim "," ":" (JObject payload).

(** A message that may be sent: a JSON object whose text is not longer than a frame may be. *)
Definition sendable (payload : list (string * json)) : Prop :=
  json_ok (JObject payload) ∧ Z.of_nat (String.length (body_text payload)) ≤ frame_bytes DEFAULT_LIMITS.

Lemma read_next_frame payload rest pieces : sendable payload →
  ∃ pieces', read_next (mkReader (encode_message payload +:+ rest) pieces) = Some (Ok payload, mkReader rest pieces').
Proof.
  intros [Hok Hlen]. pose proof (decode_written payload Hok) as Hdec. unfold encode_message. change (json_dumps_verbatim "," ":" (JObject payload))
    with (body_text payload) in *. set (body := body_text payload) in *. cbv zeta. change (frame_bytes DEFAULT_LIMITS) with 8388608 in *.
  destruct (decimal_digits (String.length body)) as (d & -> & Hd & Hne & Hv & Hdl); [lia|].
  assert (has_char CR ("Content-Length: " +:+ d) = false) as Hcr by (rewrite has_char_app; by apply digits_no_char).
  assert (Z.of_nat (String.length ("Content-Length: " +:+ d)) ≤ 36) as Hhl by (rewrite string_length_app; simpl; lia).
  destruct (read_header_frame ("Content-Length: " +:+ d) (body +:+ rest) pieces 8192 (S (Z.to_nat 8192)) Hcr) as [p1 Hh]; [lia..|].
  rewrite !string_app_assoc in *. unfold read_next, read_message. rewrite Hh. rewrite <- string_app_assoc, partition_frame by done.
  simpl default. cbv iota beta. rewrite (content_length_read (N.of_nat (String.length body)) d) by (done || unfold MAX_STR_DIGITS; lia).
  change (frame_bytes DEFAULT_LIMITS) with 8388608. replace (8388608 <? _) with false by (symmetry; apply Z.ltb_ge; lia).
  replace (Z.to_nat (Z.of_N (N.of_nat (String.length body)))) with (String.length body) by lia.
  destruct (read_body_exact body rest (String.length body) "" (mkReader (body +:+ rest) p1) eq_refl ltac:(lia)) as [p2 Hb].
  rewrite string_nil_app in Hb. rewrite Hb. exists p2. rewrite <- (string_app_nil body), split_at_all by (by rewrite string_app_nil).
  cbn [fst]. by rewrite Hdec.
Qed.

(** C38: framing loses nothing. However the stream hands out its bytes, reading as many
    messages as were written one after the other, each a JSON object within the frame
    limit, gives exactly those messages, in their order, and leaves what follows them
    unread. *)
Theorem framing_round_trip (ms : list (list (string * json))) (rest : string) (pieces : list nat) :
  Forall sendable ms →
  ∃ pieces', read_messages (length ms) (mkReader (concat_all (encode_message <$> ms) +:+ rest) pieces)
    = Some (Ok ms, mkReader rest pieces').
Proof.
  intros Hms. revert pieces. induction Hms as [|m ms Hm _ IH]; intros pieces; [by exists pieces|]. cbn [fmap list_fmap concat_all].
  rewrite string_app_assoc. destruct (read_next_frame m (concat_all (encode_message <$> ms) +:+ rest) pieces Hm) as [p1 H1].
  destruct (IH p1) as [p2 H2]. exists p2. cbn [length read_messages]. by rewrite H1, H2.
Qed.

Lemma framing_round_trip_witness :
  ∃ pieces', read_messages 2 (mkReader (concat_all (encode_message <$> [[("a", JString "é")]; []]) +:+ "rest") [3; 7]%nat)
    = Some (Ok [[("a", JString "é")]; []], mkReader "rest" pieces').
Proof.
  apply (framing_round_trip [[("a", JString "é")]; []] "rest" [3; 7]%nat).
  repeat constructor; simpl; try apply NoDup_nil_2; try (by apply not_elem_of_nil); try (vm_compute; discriminate);
    try (by apply ascii_valid).
  by exists [233%N]; split; [repeat constructor|].
Defined.

Lemma read_header_bounded limit : ∀ fuel header r, (Z.to_nat limit < String.length header + fuel)%nat →
  (String.length header ≤ Z.to_nat limit)%nat →
  ∃ x r' taken, read_header fuel limit header r = Some (x, r') ∧ rd_stream r = taken +:+ rd_stream r'
    ∧ (String.length header + String.length taken ≤ S (Z.to_nat limit))%nat
    ∧ (∀ h, x = Ok h → h = header +:+ taken ∧ contains HEADER_END h = true).
Proof.
  induction fuel as [|fuel IH]; intros header r Hf Hl; [lia|]. cbn [read_header].
  destruct (contains HEADER_END header) eqn:Hc.
  { exists (Ok header), r, "". simpl. split_and!; try done; [lia|]. intros h Hh. simplify_eq. by rewrite string_app_nil. }
  destruct (read 1 r) as [chunk r'] eqn:Hr. apply read_spec in Hr as (Hs & H1 & _); [|lia].
  destruct (String.eqb_spec chunk "") as [->|Hne].
  { exists (Err (framing_error "unexpected end of stream")), r', "". simpl. split_and!; try done. lia. }
  assert (String.length chunk = 1%nat) as H1' by (destruct chunk as [|? []]; simpl in *; [done|done|lia]).
  destruct (Z.ltb_spec limit (Z.of_nat (String.length (header +:+ chunk)))) as [Hlt|Hge].
  { eexists _, r', chunk. split_and!; [done|done|lia|done]. }
  rewrite string_length_app in Hge. destruct (IH (header +:+ chunk) r') as (x & r2 & taken & -> & Hs2 & Hl2 & Hx); [rewrite string_length_app; lia..|].
  exists x, r2, (chunk +:+ taken). rewrite string_length_app in Hl2. rewrite string_length_app, string_app_assoc, <- Hs2.
  split_and!; [done|done|lia|]. intros h Hh. destruct (Hx h Hh) as [-> Hc2]. by rewrite string_app_assoc in Hc2 |- *.
Qed.

Lemma read_body_bounded n : ∀ fuel body r, (n ≤ String.length body + fuel)%nat → (String.length body ≤ n)%nat →
  ∃ x r' taken, read_body fuel n body r = Some (x, r') ∧ rd_stream r = taken +:+ rd_stream r'
    ∧ (String.length body + String.length taken ≤ n)%nat.
Proof.
  induction fuel as [|fuel IH]; intros body r Hf Hl; cbn [read_body].
  { replace (n <=? String.length body)%nat with true by (symmetry; apply Nat.leb_le; lia). exists (Ok body), r, "". simpl. split_and!; [done|done|lia]. }
  destruct (Nat.leb_spec n (String.length body)).
  { exists (Ok body), r, "". simpl. split_and!; [done|done|lia]. }
  destruct (read _ r) as [chunk r'] eqn:Hr. apply read_spec in Hr as (Hs & H1 & _); [|lia].
  destruct (String.eqb_spec chunk "") as [->|Hne].
  { eexists _, r', "". simpl. split_and!; [done|done|lia]. }
  assert (1 ≤ String.length chunk)%nat by (destruct chunk; simpl; [done|lia]).
  destruct (IH (body +:+ chunk) r') as (x & r2 & taken & -> & Hs2 & Hl2); [rewrite string_length_app; lia..|].
  exists x, r2, (chunk +:+ taken). rewrite string_length_app in Hl2. rewrite string_length_app, string_app_assoc, <- Hs2.
  split_and!; [done|done|lia].
Qed.

Lemma partition_app sep s a b : partition sep s = Some (a, b) → s = a +:+ sep +:+ b.
Proof.
  assert (∀ p t u, after p t = Some u → t = p +:+ u) as Ha.
  { induction p as [|c p IH]; intros t u H; simpl in H; [by simplify_eq|]. destruct t as [|c' t]; [done|].
    destruct (Ascii.eqb_spec c c'); [|done]. subst. by rewrite string_cons_app, <- (IH _ _ H). }
  revert a b. induction s as [|c s IH]; intros a b H; cbn [partition] in H; destruct (after sep _) as [r|] eqn:Hr;
    simplify_eq; try (by rewrite string_nil_app; apply Ha).
  destruct (partition sep s) as [[a' b']|]; [|done]. simplify_eq. rewrite string_cons_app. by rewrite <- (IH a' b eq_refl).
Qed.

Lemma content_length_nonneg header n : parse_content_length header = Ok n → 0 ≤ n.
Proof.
  unfold parse_content_length. induction (bytes_splitlines header) as [|line lines IH]; [done|]. cbn [content_length_of].
  repeat (case_match; try done). intros H'. inv_res. by apply Z.ltb_ge.
Qed.

