(* ===== verification/AcpSettlement.v ===== *)
(** The vocabulary of prompt settlement (src/optimus/acp/settlement.py): the classes of work
    of a turn and the registry of their gates, owners and outcomes, the states of a send,
    what an outcome means for each class, and the effect of a turn's operations.

    A frozen set of strings is the list of its elements. An [in] test against all members
    of an enumeration, which cannot fail, is left out. *)
From S2P Require Import Prelude Conversation.

Local Open Scope string_scope.

(** * Enumerations *)

Inductive WorkClass :=
| WC_PLANNING_ITERATION | WC_PLANNING_READ | WC_GATEWAY | WC_EXECUTION | WC_PLAN_PERSISTENCE |
  WC_PROGRESS | WC_PROVISIONAL_PLAN | WC_PERMISSION | WC_TERMINAL_SET_MESSAGE |
  WC_FALLBACK_SUB_SEND | WC_PROTOCOL_RESPONSE | WC_TERMINAL_REFUSAL |
  WC_NON_TURN_PROTOCOL_RESPONSE | WC_WARNING_NOTICE | WC_SETTLEMENT_TELEMETRY.
#[export] Instance WorkClass_eq_dec : EqDecision WorkClass.
Proof. solve_decision. Defined.
Definition WorkClass_value (x : WorkClass) : string :=
  match x with
  | WC_PLANNING_ITERATION => "Planning iteration"
  | WC_PLANNING_READ => "Planning READ"
  | WC_GATEWAY => "Gateway"
  | WC_EXECUTION => "Execution (READ/WRITE/TEST)"
  | WC_PLAN_PERSISTENCE => "Plan persistence"
  | WC_PROGRESS => "Progress"
  | WC_PROVISIONAL_PLAN => "Provisional plan"
  | WC_PERMISSION => "Permission"
  | WC_TERMINAL_SET_MESSAGE => "Terminal-set message"
  | WC_FALLBACK_SUB_SEND => "Fallback sub-send"
  | WC_PROTOCOL_RESPONSE => "Protocol response"
  | WC_TERMINAL_REFUSAL => "Terminal refusal"
  | WC_NON_TURN_PROTOCOL_RESPONSE => "Non-turn protocol response"
  | WC_WARNING_NOTICE => "80%-warning notice"
  | WC_SETTLEMENT_TELEMETRY => "Settlement telemetry"
  end.

Inductive WorkKind :=
| WK_DIRECTIVE | WK_SEND | WK_EVIDENCE_APPEND.
#[export] Instance WorkKind_eq_dec : EqDecision WorkKind.
Proof. solve_decision. Defined.

Inductive OwnerKind :=
| OK_TURN_CONTROL | OK_NOTICE_CONTROL.
#[export] Instance OwnerKind_eq_dec : EqDecision OwnerKind.
Proof. solve_decision. Defined.

Inductive GateLane :=
| GL_EXECUTION_START | GL_TERMINAL_DELIVERY | GL_TRANSPORT_ABANDONED_CHECK.
#[export] Instance GateLane_eq_dec : EqDecision GateLane.
Proof. solve_decision. Defined.

Inductive StartOperation :=
| SO_TRY_START | SO_START_TERMINAL_MESSAGE | SO_START_RESPONSE_SEND | SO_START_NOTICE_SEND |
  SO_START_NON_TURN_RESPONSE_SEND | SO_BEGIN_WARNING_ATTEMPT.
#[export] Instance StartOperation_eq_dec : EqDecision StartOperation.
Proof. solve_decision. Defined.

Inductive Consequence :=
| CQ_PLANNING_HALT_ONLY | CQ_READ_NEVER_IN_E | CQ_GATEWAY_COST_NEVER_IN_E |
  CQ_EXECUTION_EFFECT_ALGEBRA | CQ_PLAN_PERSISTENCE_NEVER_IN_E | CQ_PROGRESS_BEST_EFFORT |
  CQ_PROVISIONAL_PLAN_HISTORY | CQ_PERMISSION_APPROVAL | CQ_TERMINAL_SET_FINAL_DELIVERY |
  CQ_PROTOCOL_RESPONSE_RPC_ONLY | CQ_TERMINAL_REFUSAL_BEST_EFFORT |
  CQ_NON_TURN_PROTOCOL_RESPONSE_RPC_ONLY | CQ_WARNING_NOTICE_BEST_EFFORT |
  CQ_SETTLEMENT_TELEMETRY_EVIDENCE.
#[export] Instance Consequence_eq_dec : EqDecision Consequence.
Proof. solve_decision. Defined.

Inductive SendState :=
| S_QUEUED | S_WRITE_STARTED | S_FLUSHED | S_CONCLUSIVE_FAILURE | S_AMBIGUOUS | S_SUPPRESSED.
#[export] Instance SendState_eq_dec : EqDecision SendState.
Proof. solve_decision. Defined.
Definition SendState_value (x : SendState) : string :=
  match x with
  | S_QUEUED => "queued"
  | S_WRITE_STARTED => "write_started"
  | S_FLUSHED => "flushed"
  | S_CONCLUSIVE_FAILURE => "conclusive_failure"
  | S_AMBIGUOUS => "ambiguous"
  | S_SUPPRESSED => "suppressed"
  end.

Inductive SendOutcome :=
| O_FLUSHED | O_CONCLUSIVE_FAILURE | O_AMBIGUOUS | O_SUPPRESSED.
#[export] Instance SendOutcome_eq_dec : EqDecision SendOutcome.
Proof. solve_decision. Defined.
Definition SendOutcome_value (x : SendOutcome) : string :=
  match x with
  | O_FLUSHED => "flushed"
  | O_CONCLUSIVE_FAILURE => "conclusive_failure"
  | O_AMBIGUOUS => "ambiguous"
  | O_SUPPRESSED => "suppressed"
  end.

Inductive Settlement :=
| ST_COMPLETED | ST_REJECTED | ST_FAILED | ST_CANCELLED | ST_TRANSPORT_ABANDONED.
#[export] Instance Settlement_eq_dec : EqDecision Settlement.
Proof. solve_decision. Defined.
Definition Settlement_value (x : Settlement) : string :=
  match x with
  | ST_COMPLETED => "completed"
  | ST_REJECTED => "rejected"
  | ST_FAILED => "failed"
  | ST_CANCELLED => "cancelled"
  | ST_TRANSPORT_ABANDONED => "transport_abandoned"
  end.

Inductive FinalDelivery :=
| FD_NOT_ATTEMPTED | FD_PARTIAL | FD_FLUSHED | FD_CONCLUSIVE_FAILURE | FD_AMBIGUOUS.
#[export] Instance FinalDelivery_eq_dec : EqDecision FinalDelivery.
Proof. solve_decision. Defined.
Definition FinalDelivery_value (x : FinalDelivery) : string :=
  match x with
  | FD_NOT_ATTEMPTED => "not_attempted"
  | FD_PARTIAL => "partial"
  | FD_FLUSHED => "flushed"
  | FD_CONCLUSIVE_FAILURE => "conclusive_failure"
  | FD_AMBIGUOUS => "ambiguous"
  end.

Inductive RpcResponseDelivery :=
| RD_NOT_ATTEMPTED | RD_FLUSHED | RD_CONCLUSIVE_FAILURE | RD_AMBIGUOUS.
#[export] Instance RpcResponseDelivery_eq_dec : EqDecision RpcResponseDelivery.
Proof. solve_decision. Defined.
Definition RpcResponseDelivery_value (x : RpcResponseDelivery) : string :=
  match x with
  | RD_NOT_ATTEMPTED => "not_attempted"
  | RD_FLUSHED => "flushed"
  | RD_CONCLUSIVE_FAILURE => "conclusive_failure"
  | RD_AMBIGUOUS => "ambiguous"
  end.

Inductive ConversationCommit :=
| CC_COMMITTED | CC_NOT_COMMITTED.
#[export] Instance ConversationCommit_eq_dec : EqDecision ConversationCommit.
Proof. solve_decision. Defined.
Definition ConversationCommit_value (x : ConversationCommit) : string :=
  match x with
  | CC_COMMITTED => "committed"
  | CC_NOT_COMMITTED => "not_committed"
  end.

Inductive ProvisionalHistoryEffect :=
| PH_PRIOR_HISTORY_FLUSH_TRUE | PH_PRIOR_HISTORY_FLUSH_FALSE | PH_LATCH_DELIVERY_INDETERMINATE.
#[export] Instance ProvisionalHistoryEffect_eq_dec : EqDecision ProvisionalHistoryEffect.
Proof. solve_decision. Defined.

Inductive PermissionEligibility :=
| PE_AWAITABLE | PE_NOT_APPROVED.
#[export] Instance PermissionEligibility_eq_dec : EqDecision PermissionEligibility.
Proof. solve_decision. Defined.

(** * Lifecycles *)

Definition PLANNING_READ_LIFECYCLE : list string :=
  ["not_started"; "started"; "succeeded"; "failed_no_effect"; "abandoned_no_effect"; "suppressed"].
Definition PLANNING_READ_TERMINAL : list string :=
  ["succeeded"; "failed_no_effect"; "abandoned_no_effect"; "suppressed"].
Definition GATEWAY_LIFECYCLE : list string :=
  ["not_started"; "started"; "succeeded"; "failed_known_cost"; "cost_unknown"; "suppressed"].
Definition GATEWAY_TERMINAL : list string :=
  ["succeeded"; "failed_known_cost"; "cost_unknown"; "suppressed"].
Definition EXECUTION_READ_LIFECYCLE : list string := PLANNING_READ_LIFECYCLE.
Definition EXECUTION_READ_TERMINAL : list string := PLANNING_READ_TERMINAL.
Definition EXECUTION_WRITE_TEST_LIFECYCLE : list string :=
  ["not_started"; "started"; "succeeded"; "failed_no_effect"; "failed_effect_unknown"; "suppressed"].
Definition EXECUTION_WRITE_TEST_TERMINAL : list string :=
  ["succeeded"; "failed_no_effect"; "failed_effect_unknown"; "suppressed"].
Definition PLAN_PERSISTENCE_LIFECYCLE : list string :=
  ["not_started"; "started"; "persisted"; "persistence_failed"; "persistence_partial"; "suppressed"].
Definition PLAN_PERSISTENCE_TERMINAL : list string :=
  ["persisted"; "persistence_failed"; "persistence_partial"; "suppressed"].
Definition COMMON_SEND_LIFECYCLE : list string :=
  ["queued"; "write_started"; "flushed"; "conclusive_failure"; "ambiguous"; "suppressed"].
Definition COMMON_SEND_TERMINAL : list string :=
  ["flushed"; "conclusive_failure"; "ambiguous"; "suppressed"].
Definition EFFECTFUL_KINDS : list string := ["write"; "test"].

Record WorkClassSpec := mkWorkClassSpec {
  ws_work_class : WorkClass;
  ws_kind : WorkKind;
  ws_owner : option OwnerKind;
  ws_gate_lane : option GateLane;
  ws_start_operation : option StartOperation;
  ws_lifecycle_vocabulary : list string;
  ws_terminal_vocabulary : list string;
  ws_consequence : Consequence
}.

Definition WORK_CLASS_REGISTRY : list WorkClassSpec := (
  [
   mkWorkClassSpec WC_PLANNING_ITERATION WK_DIRECTIVE (Some OK_TURN_CONTROL) None
     None []
     [] CQ_PLANNING_HALT_ONLY;
   mkWorkClassSpec WC_PLANNING_READ WK_DIRECTIVE (Some OK_TURN_CONTROL) (Some GL_EXECUTION_START)
     (Some SO_TRY_START) PLANNING_READ_LIFECYCLE
     PLANNING_READ_TERMINAL CQ_READ_NEVER_IN_E;
   mkWorkClassSpec WC_GATEWAY WK_DIRECTIVE (Some OK_TURN_CONTROL) (Some GL_EXECUTION_START)
     (Some SO_TRY_START) GATEWAY_LIFECYCLE
     GATEWAY_TERMINAL CQ_GATEWAY_COST_NEVER_IN_E;
   mkWorkClassSpec WC_EXECUTION WK_DIRECTIVE (Some OK_TURN_CONTROL) (Some GL_EXECUTION_START)
     (Some SO_TRY_START) (EXECUTION_READ_LIFECYCLE ++ EXECUTION_WRITE_TEST_LIFECYCLE)
     (EXECUTION_READ_TERMINAL ++ EXECUTION_WRITE_TEST_TERMINAL) CQ_EXECUTION_EFFECT_ALGEBRA;
   mkWorkClassSpec WC_PLAN_PERSISTENCE WK_DIRECTIVE (Some OK_TURN_CONTROL) (Some GL_EXECUTION_START)
     (Some SO_TRY_START) PLAN_PERSISTENCE_LIFECYCLE
     PLAN_PERSISTENCE_TERMINAL CQ_PLAN_PERSISTENCE_NEVER_IN_E;
   mkWorkClassSpec WC_PROGRESS WK_SEND (Some OK_TURN_CONTROL) (Some GL_EXECUTION_START)
     (Some SO_TRY_START) COMMON_SEND_LIFECYCLE
     COMMON_SEND_TERMINAL CQ_PROGRESS_BEST_EFFORT;
   mkWorkClassSpec WC_PROVISIONAL_PLAN WK_SEND (Some OK_TURN_CONTROL) (Some GL_EXECUTION_START)
     (Some SO_TRY_START) COMMON_SEND_LIFECYCLE
     COMMON_SEND_TERMINAL CQ_PROVISIONAL_PLAN_HISTORY;
   mkWorkClassSpec WC_PERMISSION WK_SEND (Some OK_TURN_CONTROL) (Some GL_EXECUTION_START)
     (Some SO_TRY_START) COMMON_SEND_LIFECYCLE
     COMMON_SEND_TERMINAL CQ_PERMISSION_APPROVAL;
   mkWorkClassSpec WC_TERMINAL_SET_MESSAGE WK_SEND (Some OK_TURN_CONTROL) (Some GL_TERMINAL_DELIVERY)
     (Some SO_START_TERMINAL_MESSAGE) COMMON_SEND_LIFECYCLE
     COMMON_SEND_TERMINAL CQ_TERMINAL_SET_FINAL_DELIVERY;
   mkWorkClassSpec WC_FALLBACK_SUB_SEND WK_SEND (Some OK_TURN_CONTROL) (Some GL_TERMINAL_DELIVERY)
     (Some SO_START_TERMINAL_MESSAGE) COMMON_SEND_LIFECYCLE
     COMMON_SEND_TERMINAL CQ_TERMINAL_SET_FINAL_DELIVERY;
   mkWorkClassSpec WC_PROTOCOL_RESPONSE WK_SEND (Some OK_TURN_CONTROL) (Some GL_TRANSPORT_ABANDONED_CHECK)
     (Some SO_START_RESPONSE_SEND) COMMON_SEND_LIFECYCLE
     COMMON_SEND_TERMINAL CQ_PROTOCOL_RESPONSE_RPC_ONLY;
   mkWorkClassSpec WC_TERMINAL_REFUSAL WK_SEND (Some OK_NOTICE_CONTROL) (Some GL_TRANSPORT_ABANDONED_CHECK)
     (Some SO_START_NOTICE_SEND) COMMON_SEND_LIFECYCLE
     COMMON_SEND_TERMINAL CQ_TERMINAL_REFUSAL_BEST_EFFORT;
   mkWorkClassSpec WC_NON_TURN_PROTOCOL_RESPONSE WK_SEND (Some OK_NOTICE_CONTROL) (Some GL_TRANSPORT_ABANDONED_CHECK)
     (Some SO_START_NON_TURN_RESPONSE_SEND) COMMON_SEND_LIFECYCLE
     COMMON_SEND_TERMINAL CQ_NON_TURN_PROTOCOL_RESPONSE_RPC_ONLY;
   mkWorkClassSpec WC_WARNING_NOTICE WK_SEND (Some OK_NOTICE_CONTROL) (Some GL_TRANSPORT_ABANDONED_CHECK)
     (Some SO_BEGIN_WARNING_ATTEMPT) COMMON_SEND_LIFECYCLE
     COMMON_SEND_TERMINAL CQ_WARNING_NOTICE_BEST_EFFORT;
   mkWorkClassSpec WC_SETTLEMENT_TELEMETRY WK_EVIDENCE_APPEND None None
     None []
     [] CQ_SETTLEMENT_TELEMETRY_EVIDENCE
  ])%list.

Record TurnSettlementSnapshot := mkTurnSettlementSnapshot {
  sn_settlement : Settlement;
  sn_final_delivery : FinalDelivery;
  sn_rpc_response_delivery : RpcResponseDelivery;
  sn_conversation_commit : ConversationCommit;
  sn_effect_state : EffectState;
  sn_cost_complete : bool
}.
#[export] Instance EffectState_eq_dec : EqDecision EffectState.
Proof. solve_decision. Defined.
#[export] Instance TurnSettlementSnapshot_eq_dec : EqDecision TurnSettlementSnapshot.
Proof. solve_decision. Defined.

(** * What an outcome means

    A [SettlementInvariantError] is the start of its message. *)

(** [SendState(outcome.value)]: every outcome is the value of a state. *)
Definition state_of (outcome : SendOutcome) : SendState :=
  match outcome with
  | O_FLUSHED => S_FLUSHED
  | O_CONCLUSIVE_FAILURE => S_CONCLUSIVE_FAILURE
  | O_AMBIGUOUS => S_AMBIGUOUS
  | O_SUPPRESSED => S_SUPPRESSED
  end.

(** [SendOutcome(state.value)]; a state that is not terminal has no outcome, and the call
    would raise [ValueError]. *)
Definition outcome_of (state : SendState) : option SendOutcome :=
  match state with
  | S_FLUSHED => Some O_FLUSHED
  | S_CONCLUSIVE_FAILURE => Some O_CONCLUSIVE_FAILURE
  | S_AMBIGUOUS => Some O_AMBIGUOUS
  | S_SUPPRESSED => Some O_SUPPRESSED
  | S_QUEUED | S_WRITE_STARTED => None
  end.

(** The set the controls test a slot's state against. *)
Definition terminal_state (state : SendState) : bool :=
  bool_decide (state ∈ [S_FLUSHED; S_CONCLUSIVE_FAILURE; S_AMBIGUOUS; S_SUPPRESSED]).

Definition send_outcome_to_delivery_value (outcome : SendOutcome) : string :=
  match outcome with
  | O_FLUSHED => "flushed"
  | O_CONCLUSIVE_FAILURE => "conclusive_failure"
  | O_AMBIGUOUS => "ambiguous"
  | O_SUPPRESSED => "not_attempted"
  end.

(** The member of an enumeration with this value. *)
Definition FinalDelivery_of (v : string) : option FinalDelivery :=
  list_find (λ x, FinalDelivery_value x = v)
    [FD_NOT_ATTEMPTED; FD_PARTIAL; FD_FLUSHED; FD_CONCLUSIVE_FAILURE; FD_AMBIGUOUS] ≫= λ p, Some p.2.
Definition RpcResponseDelivery_of (v : string) : option RpcResponseDelivery :=
  list_find (λ x, RpcResponseDelivery_value x = v)
    [RD_NOT_ATTEMPTED; RD_FLUSHED; RD_CONCLUSIVE_FAILURE; RD_AMBIGUOUS] ≫= λ p, Some p.2.

Definition FINAL_DELIVERY_CLASSES : list WorkClass := [WC_TERMINAL_SET_MESSAGE; WC_FALLBACK_SUB_SEND].
Definition RPC_RESPONSE_DELIVERY_CLASSES : list WorkClass :=
  [WC_PROTOCOL_RESPONSE; WC_NON_TURN_PROTOCOL_RESPONSE].
Definition SEND_WORK_CLASSES : list WorkClass :=
  ws_work_class <$> filter (λ spec, ws_kind spec = WK_SEND) WORK_CLASS_REGISTRY.

Definition final_delivery_for_outcome (work_class : WorkClass) (outcome : SendOutcome)
    : res string (option FinalDelivery) :=
  if bool_decide (work_class ∈ FINAL_DELIVERY_CLASSES)
  then match FinalDelivery_of (send_outcome_to_delivery_value outcome) with
       | Some d => Ok (Some d)
       | None => Err "ValueError"
       end
  else if bool_decide (work_class ∈ SEND_WORK_CLASSES) then Ok None
  else Err "final_delivery is not defined for work class".

Definition rpc_response_delivery_for_outcome (work_class : WorkClass) (outcome : SendOutcome)
    : res string (option RpcResponseDelivery) :=
  if bool_decide (work_class ∈ RPC_RESPONSE_DELIVERY_CLASSES)
  then match RpcResponseDelivery_of (send_outcome_to_delivery_value outcome) with
       | Some d => Ok (Some d)
       | None => Err "ValueError"
       end
  else if bool_decide (work_class ∈ SEND_WORK_CLASSES) then Ok None
  else Err "rpc_response_delivery is not defined for work class".

Definition provisional_history_for_outcome (outcome : SendOutcome) : ProvisionalHistoryEffect :=
  match outcome with
  | O_FLUSHED => PH_PRIOR_HISTORY_FLUSH_TRUE
  | O_AMBIGUOUS => PH_LATCH_DELIVERY_INDETERMINATE
  | O_CONCLUSIVE_FAILURE | O_SUPPRESSED => PH_PRIOR_HISTORY_FLUSH_FALSE
  end.

Definition permission_eligibility_for_outcome (outcome : SendOutcome) : PermissionEligibility :=
  match outcome with
  | O_FLUSHED => PE_AWAITABLE
  | O_AMBIGUOUS | O_CONCLUSIVE_FAILURE | O_SUPPRESSED => PE_NOT_APPROVED
  end.

Definition notice_behavior_for_outcome (work_class : WorkClass) (outcome : SendOutcome)
    : res string string :=
  raise_if (negb (bool_decide (work_class ∈ [WC_PROGRESS; WC_TERMINAL_REFUSAL; WC_WARNING_NOTICE])))
    "notice behavior is not defined for work class" ;;*
  Ok "best_effort".

(** [compute_effect_state]: directives as pairs of a kind and its terminal. *)
Definition compute_effect_state (directive_terminals : list (string * string)) : EffectState :=
  let effectful := (filter (λ kt, kt.1 ∈ EFFECTFUL_KINDS) directive_terminals).*2 in
  if existsb (λ t, String.eqb t "failed_effect_unknown") effectful then INDETERMINATE
  else if bool_decide (effectful = []) then NONE
  else if forallb (λ t, String.eqb t "succeeded") effectful then COMPLETE
  else if negb (existsb (λ t, String.eqb t "succeeded") effectful) then NONE
  else PARTIAL.

(** * The registry is complete *)

(** Every class of work has exactly one row; those that are sends have the states of a send
    for their lifecycle and its outcomes for their terminals, and the delivery fields are
    defined for exactly those. *)
Lemma registry_complete work_class :
  ∃ spec, filter (λ s, ws_work_class s = work_class) WORK_CLASS_REGISTRY = [spec]
  ∧ (ws_kind spec = WK_SEND ↔
       ws_lifecycle_vocabulary spec =
         SendState_value <$> [S_QUEUED; S_WRITE_STARTED; S_FLUSHED; S_CONCLUSIVE_FAILURE; S_AMBIGUOUS; S_SUPPRESSED]
       ∧ ws_terminal_vocabulary spec =
         SendOutcome_value <$> [O_FLUSHED; O_CONCLUSIVE_FAILURE; O_AMBIGUOUS; O_SUPPRESSED])
  ∧ ∀ outcome, (ws_kind spec = WK_SEND ↔ is_ok (final_delivery_for_outcome work_class outcome) = true)
    ∧ (ws_kind spec = WK_SEND ↔ is_ok (rpc_response_delivery_for_outcome work_class outcome) = true).
Proof.
  destruct work_class; (eexists; split; [reflexivity|]); (split; [by split; [intros _; split; reflexivity|intros [? _]]
    || by split; [discriminate|intros [H _]; vm_compute in H; discriminate]|]);
    intros []; vm_compute; split; split; done.
Qed.

(** ** Sends *)

Lemma outcome_of_state outcome : outcome_of (state_of outcome) = Some outcome.
Proof. by destruct outcome. Qed.

Lemma terminal_state_of outcome : terminal_state (state_of outcome) = true.
Proof. by destruct outcome. Qed.

Lemma terminal_state_iff state : terminal_state state = true ↔ ∃ outcome, state = state_of outcome.
Proof. destruct state; split; try done; try (by intros [[] ?]); intros _; [by exists O_FLUSHED|by exists O_CONCLUSIVE_FAILURE|by exists O_AMBIGUOUS|by exists O_SUPPRESSED]. Qed.

(** ** Effects *)

(** The terminals that count: those of writes and tests. *)
Definition effects (l : list (string * string)) : list string :=
  (filter (λ kt, kt.1 ∈ EFFECTFUL_KINDS) l).*2.

Lemma existsb_eqb t l : existsb (λ u, String.eqb u t) l = true ↔ t ∈ l.
Proof.
  rewrite existsb_exists. split.
  - intros (u & Hu & ->%String.eqb_eq). by apply list_elem_of_In.
  - intros Hu. exists t. rewrite String.eqb_refl. split; [by apply list_elem_of_In|done].
Qed.

Lemma forallb_eqb t l : forallb (λ u, String.eqb u t) l = true ↔ ∀ u, u ∈ l → u = t.
Proof.
  rewrite forallb_forall. split; intros H u Hu; [by apply String.eqb_eq, H, list_elem_of_In|].
  apply String.eqb_eq, H. by apply list_elem_of_In.
Qed.

(** What each answer says: an unknown effect is never hidden, [COMPLETE] means that
    something was done and all of it succeeded, [NONE] that nothing succeeded, [PARTIAL]
    that some did and some did not. *)
Lemma effect_state_spec l :
  match compute_effect_state l with
  | INDETERMINATE => "failed_effect_unknown" ∈ effects l
  | COMPLETE => effects l ≠ [] ∧ ∀ t, t ∈ effects l → t = "succeeded"
  | NONE => "failed_effect_unknown" ∉ effects l ∧ "succeeded" ∉ effects l
  | PARTIAL => "failed_effect_unknown" ∉ effects l ∧ "succeeded" ∈ effects l ∧ ∃ t, t ∈ effects l ∧ t ≠ "succeeded"
  end.
Proof.
  unfold compute_effect_state. change ((filter (λ kt, kt.1 ∈ EFFECTFUL_KINDS) l).*2) with (effects l).
  destruct (existsb _ (effects l)) eqn:Hu; [by apply existsb_eqb|].
  apply not_true_iff_false in Hu. rewrite existsb_eqb in Hu.
  case_bool_decide as He; [rewrite He; split; by apply not_elem_of_nil|].
  destruct (forallb _ (effects l)) eqn:Hs; [by split; [|apply forallb_eqb]|].
  destruct (existsb (λ t, String.eqb t "succeeded") (effects l)) eqn:Hex; simpl.
  - split; [done|]. split; [by apply existsb_eqb|]. apply not_true_iff_false in Hs. rewrite forallb_eqb in Hs.
    destruct (decide (Exists (λ t, t ≠ "succeeded") (effects l))) as [(t & Ht & ?)%Exists_exists|Hn]; [by exists t|].
    exfalso. apply Hs. intros u Hin. destruct (decide (u = "succeeded")); [done|]. exfalso. apply Hn, Exists_exists. by exists u.
  - split; [done|]. apply not_true_iff_false in Hex. by rewrite existsb_eqb in Hex.
Qed.

Lemma effect_unknown l : "failed_effect_unknown" ∈ effects l → compute_effect_state l = INDETERMINATE.
Proof. intros H. unfold compute_effect_state. change ((filter (λ kt, kt.1 ∈ EFFECTFUL_KINDS) l).*2) with (effects l). by rewrite (proj2 (existsb_eqb _ _) H). Qed.
