(* ===== verification/TurnControl.v ===== *)
(** The control of a turn (src/optimus/acp/lifecycle.py, [TurnControl]): which operations and
    sends may start, cancellation, the terminal lane, the send slots of which the turn is
    the owner, teardown of the transport and the one finalization.

    Every method runs under the control's lock, so a history is a list of calls. The fields
    of the object are grouped into records: the gate, the directives, the delivery facts
    and the ending. What the control calls (the permission handle's [cancel], the hooks of
    finalization, the insertion into the conversation) is kept as a list of callouts. *)
From S2P Require Import Prelude Conversation AcpSettlement.

Local Open Scope string_scope.
Local Open Scope Z_scope.

(** * Data *)

Inductive TerminalLane := UNDECIDED | GRANTED | DECLINED.
#[export] Instance TerminalLane_eq_dec : EqDecision TerminalLane.
Proof. solve_decision. Defined.

Inductive CancelResult := ACCEPTED | IGNORED_AFTER_CUTOFF.

Inductive DirectiveKind :=
| D_PLANNING_READ | D_GATEWAY | D_READ | D_WRITE | D_TEST | D_PLAN_PERSISTENCE.
#[export] Instance DirectiveKind_eq_dec : EqDecision DirectiveKind.
Proof. solve_decision. Defined.
Definition DirectiveKind_value (k : DirectiveKind) : string :=
  match k with
  | D_PLANNING_READ => "planning_read" | D_GATEWAY => "gateway" | D_READ => "read"
  | D_WRITE => "write" | D_TEST => "test" | D_PLAN_PERSISTENCE => "plan_persistence"
  end.

Inductive SendKind := K_PROGRESS | K_PROVISIONAL_PLAN | K_PERMISSION.
Definition SendKind_value (k : SendKind) : string :=
  match k with
  | K_PROGRESS => "progress" | K_PROVISIONAL_PLAN => "provisional_plan" | K_PERMISSION => "permission"
  end.

Record TerminalDecision := mkTerminalDecision {
  td_lane : TerminalLane;
  td_cancellation_accepted : bool
}.

Record TurnSendKey := mkTurnSendKey { tk_kind : string; tk_message_id : string }.
#[export] Instance TurnSendKey_eq_dec : EqDecision TurnSendKey.
Proof. solve_decision. Defined.

Record StartLease := mkStartLease {
  sl_granted : bool;
  sl_send_key : option TurnSendKey;
  sl_operation_id : option string
}.

Record SendSlot := mkSendSlot {
  slot_key : TurnSendKey;
  slot_authoritative : SendState;
  slot_diagnostic : option SendOutcome;
  slot_writer_tokens : Z;
  slot_work_class : string
}.

(** [_FREEZE_TERMINAL]. *)
Definition freeze_terminal (k : DirectiveKind) : string :=
  match k with
  | D_GATEWAY => "cost_unknown"
  | D_WRITE | D_TEST => "failed_effect_unknown"
  | D_READ | D_PLANNING_READ => "abandoned_no_effect"
  | D_PLAN_PERSISTENCE => "persistence_partial"
  end.

(** * State *)

Record Gate := mkGate {
  execution_gate_open : bool;
  terminal_lane : TerminalLane;
  cancellation_accepted : bool;
  transport_abandoned : bool;
  terminal_decision : option TerminalDecision
}.

Abbreviation directive_key := (DirectiveKind * string)%type.

Record Work := mkWork {
  directives : odict directive_key string;
  directive_diagnostics : odict directive_key string;
  directives_frozen : bool
}.

Record Facts := mkFacts {
  fact_settlement : Settlement;
  fact_commit : ConversationCommit;
  fact_final : FinalDelivery;
  fact_rpc : RpcResponseDelivery;
  fact_prior_history_flush : bool;
  fact_indeterminate : bool;
  fact_effect : EffectState;
  fact_cost_complete : bool
}.

Record Ending := mkEnding {
  teardown_classification : option FinalDelivery;
  frozen_snapshot : option TurnSettlementSnapshot;
  finalized : bool;
  final_outcome : option TurnSettlementSnapshot;
  response_started : bool
}.

Inductive Callout :=
| CancelPermission
| InsertConversation
| RemoveActive
| SettlementCallback (snapshot : TurnSettlementSnapshot).
#[export] Instance Callout_eq_dec : EqDecision Callout.
Proof. solve_decision. Defined.

Record Hooks := mkHooks {
  has_permission_handle : bool;
  has_remover : bool;
  has_callback : bool;
  callouts : list Callout
}.

Record TurnControl := mkTurnControl {
  t_gate : Gate;
  t_work : Work;
  t_slots : odict TurnSendKey SendSlot;
  t_facts : Facts;
  t_end : Ending;
  t_hooks : Hooks
}.

(** [TurnControl.__init__]. *)
Definition new_turn : TurnControl :=
  mkTurnControl (mkGate true UNDECIDED false false None) (mkWork [] [] false) []
    (mkFacts ST_FAILED CC_NOT_COMMITTED FD_NOT_ATTEMPTED RD_NOT_ATTEMPTED false false NONE true)
    (mkEnding None None false None false) (mkHooks false false false []).

Definition set_gate (g : Gate) (t : TurnControl) : TurnControl :=
  mkTurnControl g (t_work t) (t_slots t) (t_facts t) (t_end t) (t_hooks t).
Definition set_work (w : Work) (t : TurnControl) : TurnControl :=
  mkTurnControl (t_gate t) w (t_slots t) (t_facts t) (t_end t) (t_hooks t).
Definition set_slots (l : odict TurnSendKey SendSlot) (t : TurnControl) : TurnControl :=
  mkTurnControl (t_gate t) (t_work t) l (t_facts t) (t_end t) (t_hooks t).
Definition set_facts (f : Facts) (t : TurnControl) : TurnControl :=
  mkTurnControl (t_gate t) (t_work t) (t_slots t) f (t_end t) (t_hooks t).
Definition set_end (e : Ending) (t : TurnControl) : TurnControl :=
  mkTurnControl (t_gate t) (t_work t) (t_slots t) (t_facts t) e (t_hooks t).
Definition set_hooks (h : Hooks) (t : TurnControl) : TurnControl :=
  mkTurnControl (t_gate t) (t_work t) (t_slots t) (t_facts t) (t_end t) h.

Definition set_directives (l : odict directive_key string) (t : TurnControl) : TurnControl :=
  set_work (mkWork l (directive_diagnostics (t_work t)) (directives_frozen (t_work t))) t.
Definition set_slot (k : TurnSendKey) (s : SendSlot) (t : TurnControl) : TurnControl :=
  set_slots (od_set k s (t_slots t)) t.
Definition callout (c : Callout) (t : TurnControl) : TurnControl :=
  set_hooks (mkHooks (has_permission_handle (t_hooks t)) (has_remover (t_hooks t))
    (has_callback (t_hooks t)) (callouts (t_hooks t) ++ [c])) t.

Definition set_final (d : FinalDelivery) (f : Facts) : Facts :=
  mkFacts (fact_settlement f) (fact_commit f) d (fact_rpc f) (fact_prior_history_flush f)
    (fact_indeterminate f) (fact_effect f) (fact_cost_complete f).
Definition set_rpc (d : RpcResponseDelivery) (f : Facts) : Facts :=
  mkFacts (fact_settlement f) (fact_commit f) (fact_final f) d (fact_prior_history_flush f)
    (fact_indeterminate f) (fact_effect f) (fact_cost_complete f).
Definition set_history (flush indeterminate : bool) (f : Facts) : Facts :=
  mkFacts (fact_settlement f) (fact_commit f) (fact_final f) (fact_rpc f) flush indeterminate
    (fact_effect f) (fact_cost_complete f).
Definition set_effect (e : EffectState) (cost : bool) (f : Facts) : Facts :=
  mkFacts (fact_settlement f) (fact_commit f) (fact_final f) (fact_rpc f)
    (fact_prior_history_flush f) (fact_indeterminate f) e cost.

Definition slot_with (state : SendState) (s : SendSlot) : SendSlot :=
  mkSendSlot (slot_key s) state (slot_diagnostic s) (slot_writer_tokens s) (slot_work_class s).
Definition slot_diagnosed (outcome : SendOutcome) (s : SendSlot) : SendSlot :=
  mkSendSlot (slot_key s) (slot_authoritative s) (Some outcome) (slot_writer_tokens s) (slot_work_class s).
Definition new_slot (k : TurnSendKey) (state : SendState) (work_class : string) : SendSlot :=
  mkSendSlot k state None 0 work_class.

(** * The helpers that run under the lock *)

Definition TERMINAL_CLASSES : list string := ["terminal_set"; "fallback"].
Definition GATED_SENDS : list string := ["progress"; "provisional_plan"; "permission"].

(** [_classify_teardown_delivery_locked]. *)
Definition classify_teardown_delivery (slots : odict TurnSendKey SendSlot) (final : FinalDelivery)
    : FinalDelivery :=
  let terminal_slots := filter (λ s, slot_work_class s ∈ TERMINAL_CLASSES) (od_values slots) in
  let states := slot_authoritative <$> terminal_slots in
  if bool_decide (terminal_slots = [])
  then if decide (final = FD_AMBIGUOUS) then FD_AMBIGUOUS else FD_NOT_ATTEMPTED
  else if bool_decide (S_AMBIGUOUS ∈ states) then FD_AMBIGUOUS
  else if bool_decide (Forall (λ x, x = S_FLUSHED) states) then FD_FLUSHED
  else if bool_decide (S_FLUSHED ∈ states) then FD_PARTIAL
  else if bool_decide (S_CONCLUSIVE_FAILURE ∈ states) then FD_CONCLUSIVE_FAILURE
  else FD_NOT_ATTEMPTED.

(** [_apply_send_consequence_locked]: a slot's outcome, once it is in the slots. *)
Definition apply_send_consequence (slot : SendSlot) (outcome : SendOutcome) (t : TurnControl) : TurnControl :=
  let kind := slot_work_class slot in
  if bool_decide (kind ∈ TERMINAL_CLASSES)
  then set_facts (set_final (classify_teardown_delivery (t_slots t) (fact_final (t_facts t))) (t_facts t)) t
  else if String.eqb kind "protocol_response" then
    let d := match outcome with
             | O_SUPPRESSED => RD_NOT_ATTEMPTED
             | O_FLUSHED => RD_FLUSHED
             | O_CONCLUSIVE_FAILURE => RD_CONCLUSIVE_FAILURE
             | O_AMBIGUOUS => RD_AMBIGUOUS
             end in
    set_facts (set_rpc d (t_facts t)) t
  else if String.eqb kind "provisional_plan" then
    match outcome with
    | O_AMBIGUOUS => set_facts (set_history (fact_prior_history_flush (t_facts t)) true (t_facts t)) t
    | O_FLUSHED => set_facts (set_history true (fact_indeterminate (t_facts t)) (t_facts t)) t
    | O_CONCLUSIVE_FAILURE | O_SUPPRESSED => t
    end
  else t.

(** [_recompute_effect_and_cost_locked]. *)
Definition effectful_terminals (l : odict directive_key string) : list (string * string) :=
  (λ d, (DirectiveKind_value d.1.1, d.2)) <$>
    filter (λ d, d.1.1 ∈ [D_WRITE; D_TEST] ∧ d.2 ∉ ["not_started"; "started"]) l.
Definition cost_known (l : odict directive_key string) : bool :=
  negb (bool_decide (Exists (λ d, d.1.1 = D_GATEWAY ∧ d.2 = "cost_unknown") l)).
Definition recompute_effect_and_cost (t : TurnControl) : TurnControl :=
  let l := directives (t_work t) in
  set_facts (set_effect (compute_effect_state (effectful_terminals l)) (cost_known l) (t_facts t)) t.

(** [_suppress_not_started_directives_locked]. *)
Definition suppress_not_started (t : TurnControl) : TurnControl :=
  set_directives ((λ d, (d.1, if String.eqb d.2 "not_started" then "suppressed" else d.2))
    <$> directives (t_work t)) t.

(** [_freeze_started_directives_locked]. *)
Definition freeze_started (t : TurnControl) : TurnControl :=
  set_directives ((λ d, (d.1, if String.eqb d.2 "started" then freeze_terminal d.1.1 else d.2))
    <$> directives (t_work t)) t.

(** [_suppress_queued_execution_gate_sends_locked]. *)
Definition suppress_queued_sends (t : TurnControl) : TurnControl :=
  set_slots ((λ ks, (ks.1,
      if bool_decide (slot_work_class ks.2 ∈ GATED_SENDS) && bool_decide (slot_authoritative ks.2 = S_QUEUED)
      then slot_with S_SUPPRESSED ks.2 else ks.2)) <$> t_slots t) t.

(** The loop over the slots at teardown and at finalization: what is queued is suppressed,
    what is being written is ambiguous, and each takes its consequence at once. *)
Definition settle_slot (t : TurnControl) (k : TurnSendKey) : TurnControl :=
  match od_get k (t_slots t) with
  | Some slot =>
      match slot_authoritative slot with
      | S_QUEUED =>
          apply_send_consequence slot O_SUPPRESSED (set_slot k (slot_with S_SUPPRESSED slot) t)
      | S_WRITE_STARTED =>
          apply_send_consequence slot O_AMBIGUOUS (set_slot k (slot_with S_AMBIGUOUS slot) t)
      | _ => t
      end
  | None => t
  end.
Definition settle_slots (t : TurnControl) : TurnControl :=
  foldl settle_slot t (od_keys (t_slots t)).

(** * Methods *)

Definition register_operations (ops : list directive_key) (t : TurnControl) : TurnControl :=
  let initial := if execution_gate_open (t_gate t) then "not_started" else "suppressed" in
  set_directives (foldl (λ d key, if od_mem key d then d else od_set key initial d) (directives (t_work t)) ops) t.

(** [try_start] of a directive and of a send. *)
Definition try_start_directive (kind : DirectiveKind) (operation_id : string) (t : TurnControl)
    : StartLease * TurnControl :=
  let key := (kind, operation_id) in
  let granted := mkStartLease true None (Some operation_id) in
  let denied := mkStartLease false None (Some operation_id) in
  let put state := set_directives (od_set key state (directives (t_work t))) t in
  if negb (execution_gate_open (t_gate t)) then (denied, put "suppressed")
  else match od_get key (directives (t_work t)) with
       | None => (granted, put "started")
       | Some current =>
           if String.eqb current "not_started" then (granted, put "started")
           else if String.eqb current "started" then (granted, t)
           else (denied, t)
       end.

Definition try_start_send (kind : SendKind) (operation_id : string) (t : TurnControl)
    : StartLease * TurnControl :=
  let send_key := mkTurnSendKey (SendKind_value kind) operation_id in
  if negb (execution_gate_open (t_gate t)) || transport_abandoned (t_gate t)
  then (mkStartLease false (Some send_key) None,
        set_slot send_key (new_slot send_key S_SUPPRESSED (SendKind_value kind)) t)
  else (mkStartLease true (Some send_key) None,
        set_slot send_key (new_slot send_key S_QUEUED (SendKind_value kind)) t).

Definition complete_directive (kind : DirectiveKind) (operation_id terminal : string) (t : TurnControl)
    : TurnControl :=
  let key := (kind, operation_id) in
  if directives_frozen (t_work t) || bool_decide (is_Some (frozen_snapshot (t_end t)))
  then set_work (mkWork (directives (t_work t)) (od_set key terminal (directive_diagnostics (t_work t)))
                   (directives_frozen (t_work t))) t
  else recompute_effect_and_cost (set_directives (od_set key terminal (directives (t_work t))) t).

Definition refresh_effect_state (t : TurnControl) : EffectState * TurnControl :=
  let t' := if directives_frozen (t_work t) then t else recompute_effect_and_cost t in
  (fact_effect (t_facts t'), t').

Definition request_session_cancel (t : TurnControl) : CancelResult * TurnControl :=
  let g := t_gate t in
  if decide (terminal_lane g = UNDECIDED) then
    let t1 := set_gate (mkGate false (terminal_lane g) (cancellation_accepted g) (transport_abandoned g)
                          (terminal_decision g)) t in
    let t2 := suppress_queued_sends (suppress_not_started t1) in
    (ACCEPTED, set_gate (mkGate false (terminal_lane g) true (transport_abandoned g) (terminal_decision g)) t2)
  else (IGNORED_AFTER_CUTOFF, t).

Definition seal_final_delivery (t : TurnControl) : TerminalDecision * TurnControl :=
  let g := t_gate t in
  match terminal_decision g with
  | Some d => (d, t)
  | None =>
      let lane := if transport_abandoned g || bool_decide (terminal_lane g = DECLINED)
                  then DECLINED else GRANTED in
      let d := mkTerminalDecision lane (cancellation_accepted g) in
      (d, set_gate (mkGate (execution_gate_open g) lane (cancellation_accepted g) (transport_abandoned g)
                      (Some d)) t)
  end.

Definition record_outcome (outcome : Settlement) (t : TurnControl) : TurnControl :=
  let f := t_facts t in
  if bool_decide (frozen_snapshot (t_end t) = None) && negb (finalized (t_end t))
  then set_facts (mkFacts (if cancellation_accepted (t_gate t) then ST_CANCELLED else outcome) (fact_commit f)
                    (fact_final f) (fact_rpc f) (fact_prior_history_flush f) (fact_indeterminate f)
                    (fact_effect f) (fact_cost_complete f)) t
  else t.

(** [commit_conversation(insert)], with what calling [insert] does: it returns or raises. *)
Definition commit_conversation {E} (insert : res E unit) : eff TurnControl E bool := λ t,
  let f := t_facts t in
  if finalized (t_end t) || transport_abandoned (t_gate t) || bool_decide (fact_final f ≠ FD_FLUSHED)
  then (Ok false, t)
  else match insert with
       | Err e => (Err e, callout InsertConversation t)
       | Ok _ =>
           (Ok true, set_facts (mkFacts (fact_settlement f) CC_COMMITTED (fact_final f) (fact_rpc f)
                       (fact_prior_history_flush f) (fact_indeterminate f) (fact_effect f)
                       (fact_cost_complete f)) (callout InsertConversation t))
       end.

Definition declare_terminal_messages (message_ids : list string) (t : TurnControl) : TurnControl :=
  if transport_abandoned (t_gate t) || finalized (t_end t) then t
  else
    let slots := foldl (λ l m, let key := mkTurnSendKey "terminal_set" m in
                   if od_mem key l then l else od_set key (new_slot key S_QUEUED "terminal_set") l)
                   (t_slots t) message_ids in
    let t1 := set_slots slots t in
    set_facts (set_final (classify_teardown_delivery slots (fact_final (t_facts t))) (t_facts t)) t1.

Definition start_terminal_message (message_id : string) (fallback : bool) (t : TurnControl)
    : StartLease * TurnControl :=
  let kind := if fallback then "fallback" else "terminal_set" in
  let send_key := mkTurnSendKey kind message_id in
  if finalized (t_end t) then (mkStartLease false (Some send_key) None, t)
  else if decide (terminal_lane (t_gate t) = GRANTED) then
    match od_get send_key (t_slots t) with
    | Some slot => (mkStartLease (bool_decide (slot_authoritative slot = S_QUEUED)) (Some send_key) None, t)
    | None => (mkStartLease true (Some send_key) None, set_slot send_key (new_slot send_key S_QUEUED kind) t)
    end
  else (mkStartLease false (Some send_key) None,
        set_slot send_key (new_slot send_key S_SUPPRESSED kind) t).

Definition RESPONSE_KEY : TurnSendKey := mkTurnSendKey "protocol_response" "response".

Definition start_response_send (t : TurnControl) : StartLease * TurnControl :=
  let e := t_end t in
  if response_started e || finalized e then (mkStartLease false (Some RESPONSE_KEY) None, t)
  else
    let t1 := set_end (mkEnding (teardown_classification e) (frozen_snapshot e) (finalized e) (final_outcome e) true) t in
    if transport_abandoned (t_gate t)
    then (mkStartLease false (Some RESPONSE_KEY) None,
          set_facts (set_rpc RD_NOT_ATTEMPTED (t_facts t1))
            (set_slot RESPONSE_KEY (new_slot RESPONSE_KEY S_SUPPRESSED "protocol_response") t1))
    else (mkStartLease true (Some RESPONSE_KEY) None,
          set_slot RESPONSE_KEY (new_slot RESPONSE_KEY S_QUEUED "protocol_response") t1).

(** ** The owner of sends *)

Definition mark_write_started (k : TurnSendKey) (t : TurnControl) : bool * TurnControl :=
  match od_get k (t_slots t) with
  | Some slot =>
      if decide (slot_authoritative slot = S_QUEUED)
      then (true, set_slot k (slot_with S_WRITE_STARTED slot) t) else (false, t)
  | None => (false, t)
  end.

Definition claim_write_started (k : TurnSendKey) : eff TurnControl string SendState := λ t,
  match od_get k (t_slots t) with
  | None => (Err "KeyError", t)
  | Some slot =>
      if decide (slot_authoritative slot = S_QUEUED)
      then (Ok S_WRITE_STARTED, set_slot k (slot_with S_WRITE_STARTED slot) t)
      else (Ok (slot_authoritative slot), t)
  end.

Definition publish_authoritative (k : TurnSendKey) (outcome : SendOutcome) : eff TurnControl string unit := λ t,
  match od_get k (t_slots t) with
  | None => (Err "KeyError", t)
  | Some slot =>
      if finalized (t_end t) then (Ok tt, set_slot k (slot_diagnosed outcome slot) t)
      else if terminal_state (slot_authoritative slot) then (Ok tt, t)
      else (Ok tt, apply_send_consequence slot outcome (set_slot k (slot_with (state_of outcome) slot) t))
  end.

Definition publish_diagnostic (k : TurnSendKey) (outcome : SendOutcome) : eff TurnControl string unit := λ t,
  match od_get k (t_slots t) with
  | None => (Err "KeyError", t)
  | Some slot => (Ok tt, set_slot k (slot_diagnosed outcome slot) t)
  end.

(** ** Endings *)

Definition snapshot_of (settlement : Settlement) (f : Facts) : TurnSettlementSnapshot :=
  mkTurnSettlementSnapshot settlement (fact_final f) (fact_rpc f) (fact_commit f) (fact_effect f)
    (fact_cost_complete f).

Definition set_frozen (frozen : bool) (t : TurnControl) : TurnControl :=
  set_work (mkWork (directives (t_work t)) (directive_diagnostics (t_work t)) frozen) t.

(** The part of [request_transport_teardown] under the lock, when it has not been done. *)
Definition teardown_locked (t : TurnControl) : TurnControl :=
  let g := t_gate t in
  let t1 := set_gate (mkGate false (terminal_lane g) (cancellation_accepted g) true (terminal_decision g)) t in
  let t2 := settle_slots (freeze_started (suppress_not_started t1)) in
  let t3 := set_frozen true (recompute_effect_and_cost t2) in
  let e := t_end t3 in
  let t4 := set_end (mkEnding (teardown_classification e) (Some (snapshot_of ST_TRANSPORT_ABANDONED (t_facts t3)))
                       (finalized e) (final_outcome e) (response_started e)) t3 in
  let accepted := match terminal_decision g with
                  | None => cancellation_accepted g
                  | Some d => td_cancellation_accepted d
                  end in
  let t5 := set_gate (mkGate false DECLINED (cancellation_accepted g) true
                        (Some (mkTerminalDecision DECLINED accepted))) t4 in
  let e := t_end t5 in
  set_end (mkEnding (Some (classify_teardown_delivery (t_slots t5) (fact_final (t_facts t5))))
             (frozen_snapshot e) (finalized e) (final_outcome e) (response_started e)) t5.

Definition request_transport_teardown (t : TurnControl) : FinalDelivery * TurnControl :=
  if finalized (t_end t) then (fact_final (t_facts t), t)
  else match teardown_classification (t_end t) with
       | Some d => (d, t)
       | None =>
           let t1 := teardown_locked t in
           let t2 := if has_permission_handle (t_hooks t1) then callout CancelPermission t1 else t1 in
           (default FD_NOT_ATTEMPTED (teardown_classification (t_end t2)), t2)
       end.

(** The assertion that a finalized control has an outcome cannot fail ([ti_finalized]). *)
Definition finalize_once (t : TurnControl) : TurnSettlementSnapshot * TurnControl :=
  if finalized (t_end t)
  then (default (snapshot_of (fact_settlement (t_facts t)) (t_facts t)) (final_outcome (t_end t)), t)
  else
    let g := t_gate t in
    let t1 := set_gate (mkGate false (terminal_lane g) (cancellation_accepted g) (transport_abandoned g)
                          (terminal_decision g)) t in
    let t2 := settle_slots (set_frozen true t1) in
    let f := t_facts t2 in
    let outcome := default
      (snapshot_of (if cancellation_accepted g then ST_CANCELLED else fact_settlement f) f)
      (frozen_snapshot (t_end t2)) in
    let e := t_end t2 in
    let t3 := set_end (mkEnding (teardown_classification e) (frozen_snapshot e) true (Some outcome)
                         (response_started e)) t2 in
    let t4 := if has_remover (t_hooks t3) then callout RemoveActive t3 else t3 in
    let t5 := if has_callback (t_hooks t4) then callout (SettlementCallback outcome) t4 else t4 in
    (outcome, t5).

Definition set_finalization_hooks (remover callback : bool) (t : TurnControl) : TurnControl :=
  set_hooks (mkHooks (has_permission_handle (t_hooks t)) remover callback (callouts (t_hooks t))) t.
Definition set_permission_handle (handle : bool) (t : TurnControl) : TurnControl :=
  set_hooks (mkHooks handle (has_remover (t_hooks t)) (has_callback (t_hooks t)) (callouts (t_hooks t))) t.

(** ** Questions *)

Definition halt_requested (t : TurnControl) : bool :=
  cancellation_accepted (t_gate t) || transport_abandoned (t_gate t).
Definition provider_attempt_started (t : TurnControl) : bool :=
  bool_decide (Exists (λ d, d.1.1 = D_GATEWAY ∧ d.2 ∉ ["not_started"; "suppressed"]) (directives (t_work t))).
Definition directive_state (kind : DirectiveKind) (operation_id : string) (t : TurnControl) : option string :=
  od_get (kind, operation_id) (directives (t_work t)).

(** * Histories *)

Inductive turn_op :=
| TRegister (ops : list directive_key)
| TStartDirective (kind : DirectiveKind) (operation_id : string)
| TStartSend (kind : SendKind) (operation_id : string)
| TComplete (kind : DirectiveKind) (operation_id terminal : string)
| TRefresh
| TCancel
| TSeal
| TRecord (outcome : Settlement)
| TCommit (insert : res string unit)
| TDeclare (message_ids : list string)
| TStartTerminal (message_id : string) (fallback : bool)
| TStartResponse
| TMark (k : TurnSendKey)
| TClaim (k : TurnSendKey)
| TPublish (k : TurnSendKey) (outcome : SendOutcome)
| TDiagnose (k : TurnSendKey) (outcome : SendOutcome)
| TTeardown
| TFinalize
| THooks (remover callback : bool)
| TPermission (handle : bool).

Definition run_turn_op (op : turn_op) (t : TurnControl) : TurnControl :=
  match op with
  | TRegister ops => register_operations ops t
  | TStartDirective kind i => (try_start_directive kind i t).2
  | TStartSend kind i => (try_start_send kind i t).2
  | TComplete kind i terminal => complete_directive kind i terminal t
  | TRefresh => (refresh_effect_state t).2
  | TCancel => (request_session_cancel t).2
  | TSeal => (seal_final_delivery t).2
  | TRecord outcome => record_outcome outcome t
  | TCommit insert => (commit_conversation insert t).2
  | TDeclare ids => declare_terminal_messages ids t
  | TStartTerminal m fallback => (start_terminal_message m fallback t).2
  | TStartResponse => (start_response_send t).2
  | TMark k => (mark_write_started k t).2
  | TClaim k => (claim_write_started k t).2
  | TPublish k o => (publish_authoritative k o t).2
  | TDiagnose k o => (publish_diagnostic k o t).2
  | TTeardown => (request_transport_teardown t).2
  | TFinalize => (finalize_once t).2
  | THooks r c => set_finalization_hooks r c t
  | TPermission h => set_permission_handle h t
  end.

Definition run_turn (ops : list turn_op) (t : TurnControl) : TurnControl :=
  foldl (λ t op, run_turn_op op t) t ops.

(** * What settling the slots does *)

Definition settled_state (x : SendState) : SendState :=
  match x with S_QUEUED => S_SUPPRESSED | S_WRITE_STARTED => S_AMBIGUOUS | other => other end.
Definition settled (s : SendSlot) : SendSlot := slot_with (settled_state (slot_authoritative s)) s.
Definition settled_slots (l : odict TurnSendKey SendSlot) : odict TurnSendKey SendSlot :=
  (λ ks, (ks.1, settled ks.2)) <$> l.

Lemma slot_with_same s : slot_with (slot_authoritative s) s = s.
Proof. by destruct s. Qed.

Lemma settled_terminal s : terminal_state (slot_authoritative (settled s)) = true.
Proof. destruct s as [? [] ? ? ?]; done. Qed.

Lemma od_get_middle {K V} `{EqDecision K} (l r : odict K V) k v : k ∉ od_keys l → od_get k (l ++ (k, v) :: r) = Some v.
Proof.
  induction l as [|[k' v'] l IH]; simpl; intros H; [by rewrite decide_True|].
  apply not_elem_of_cons in H as [? ?]. rewrite decide_False by congruence. auto.
Qed.
Lemma od_set_middle {K V} `{EqDecision K} (l r : odict K V) k v w : k ∉ od_keys l →
  od_set k w (l ++ (k, v) :: r) = (l ++ (k, w) :: r)%list.
Proof.
  induction l as [|[k' v'] l IH]; simpl; intros H; [by rewrite decide_True|].
  apply not_elem_of_cons in H as [? ?]. rewrite decide_False by congruence. f_equal. auto.
Qed.

(** What a consequence leaves alone. *)
Lemma consequence_frame slot o t : let t' := apply_send_consequence slot o t in
  t_gate t' = t_gate t ∧ t_work t' = t_work t ∧ t_slots t' = t_slots t ∧ t_end t' = t_end t ∧ t_hooks t' = t_hooks t
  ∧ fact_settlement (t_facts t') = fact_settlement (t_facts t) ∧ fact_commit (t_facts t') = fact_commit (t_facts t)
  ∧ fact_effect (t_facts t') = fact_effect (t_facts t) ∧ fact_cost_complete (t_facts t') = fact_cost_complete (t_facts t).
Proof. unfold apply_send_consequence. repeat case_match; by split_and!. Qed.

Record settle_frame (t t' : TurnControl) : Prop := {
  sf_gate : t_gate t' = t_gate t;
  sf_work : t_work t' = t_work t;
  sf_end : t_end t' = t_end t;
  sf_hooks : t_hooks t' = t_hooks t;
  sf_settlement : fact_settlement (t_facts t') = fact_settlement (t_facts t);
  sf_commit : fact_commit (t_facts t') = fact_commit (t_facts t);
  sf_effect : fact_effect (t_facts t') = fact_effect (t_facts t);
  sf_cost : fact_cost_complete (t_facts t') = fact_cost_complete (t_facts t)
}.

#[local] Instance settle_frame_preorder : PreOrder settle_frame.
Proof. split; [by intros t; constructor|]. intros t1 t2 t3 [] []. constructor; congruence. Qed.

Lemma consequence_same slot o t : settle_frame t (apply_send_consequence slot o t).
Proof. destruct (consequence_frame slot o t) as (? & ? & _ & ? & ? & ? & ? & ? & ?). by constructor. Qed.

Lemma settle_slot_frame t k : settle_frame t (settle_slot t k).
Proof.
  unfold settle_slot. repeat case_match; try reflexivity;
    (etrans; [|apply consequence_same]); by constructor.
Qed.

Lemma settle_slot_slots t k s l r : t_slots t = (l ++ (k, s) :: r)%list → k ∉ od_keys l →
  t_slots (settle_slot t k) = (l ++ (k, settled s) :: r)%list.
Proof.
  intros Ht Hk. unfold settle_slot. rewrite Ht, od_get_middle by done. unfold settled, settled_state.
  destruct (slot_authoritative s) eqn:E; rewrite <- ?E, ?slot_with_same; try done;
    (match goal with |- t_slots (apply_send_consequence ?s ?o ?t) = _ =>
      destruct (consequence_frame s o t) as (_ & _ & -> & _) end); simpl; rewrite Ht; by apply od_set_middle.
Qed.

Lemma settle_slots_spec t : NoDup (od_keys (t_slots t)) →
  t_slots (settle_slots t) = settled_slots (t_slots t) ∧ settle_frame t (settle_slots t).
Proof.
  intros Hnd. unfold settle_slots.
  assert (∀ r l u, t_slots u = (l ++ r)%list → NoDup (od_keys (l ++ r)) →
    t_slots (foldl settle_slot u (od_keys r)) = (l ++ settled_slots r)%list ∧ settle_frame u (foldl settle_slot u (od_keys r)))
    as Hgo; [|by apply (Hgo (t_slots t) [])].
  clear. induction r as [|[k s] r IH]; intros l u Hu Hnd; simpl; [by rewrite Hu|].
  assert (k ∉ od_keys l) as Hk.
  { unfold od_keys in Hnd. rewrite fmap_app in Hnd. apply NoDup_app in Hnd as (_ & Hd & _). intros Hin.
    apply (Hd k Hin). by left. }
  pose proof (settle_slot_slots _ _ _ _ _ Hu Hk) as Hs. destruct (IH (l ++ [(k, settled s)])%list (settle_slot u k)) as [E F].
  - by rewrite <- app_assoc.
  - rewrite <- app_assoc. revert Hnd. unfold od_keys. by rewrite !fmap_app.
  - split; [by rewrite E, <- app_assoc|]. etrans; [apply settle_slot_frame|exact F].
Qed.

(** * The invariant *)

(** How the flags of a control go together. *)
Record flags_ok (g : Gate) (frozen : bool) (e : Ending) : Prop := {
  ti_finalized : finalized e = true ↔ is_Some (final_outcome e);
  ti_finalized_closed : finalized e = true → execution_gate_open g = false ∧ frozen = true;
  ti_torn : transport_abandoned g = true ↔ is_Some (frozen_snapshot e);
  ti_snapshot : ∀ s, frozen_snapshot e = Some s → sn_settlement s = ST_TRANSPORT_ABANDONED;
  ti_classified : transport_abandoned g = true ↔ is_Some (teardown_classification e);
  ti_torn_closed : transport_abandoned g = true → execution_gate_open g = false ∧ frozen = true ∧ terminal_lane g = DECLINED;
  ti_declined : terminal_lane g = DECLINED → transport_abandoned g = true;
  ti_cancelled : cancellation_accepted g = true → execution_gate_open g = false;
  ti_decided : match terminal_decision g with
               | None => terminal_lane g = UNDECIDED
               | Some d => terminal_lane g = td_lane d ∧ td_lane d ≠ UNDECIDED
                           ∧ td_cancellation_accepted d = cancellation_accepted g
               end
}.

Definition slot_matches (ks : TurnSendKey * SendSlot) : Prop := slot_work_class ks.2 = tk_kind ks.1.
Definition slot_settled (ks : TurnSendKey * SendSlot) : Prop := terminal_state (slot_authoritative ks.2) = true.

Record turn_inv (t : TurnControl) : Prop := {
  ti_flags : flags_ok (t_gate t) (directives_frozen (t_work t)) (t_end t);
  ti_keys : NoDup (od_keys (t_slots t));
  ti_classes : Forall slot_matches (t_slots t);
  ti_settled : finalized (t_end t) = true → Forall slot_settled (t_slots t);
  ti_operations : NoDup (od_keys (directives (t_work t)))
}.

Lemma Forall_od_set {K V} `{EqDecision K} (P : K * V → Prop) (d : odict K V) k v :
  Forall P d → P (k, v) → Forall P (od_set k v d).
Proof.
  intros Hd Hp. induction Hd as [|[k' v'] d Hx Hd IH]; simpl; [by constructor|]. case_decide; subst; by constructor.
Qed.

Lemma od_get_Forall {K V} `{EqDecision K} (P : K * V → Prop) (d : odict K V) k v :
  Forall P d → od_get k d = Some v → P (k, v).
Proof. intros Hd Hg. eapply Forall_forall; [exact Hd|]. by apply od_get_Some_in. Qed.

(** Keeping every slot, with its class, under its key. *)
Lemma keys_fmap {K V} (f : K * V → V) (d : odict K V) : od_keys ((λ kv, (kv.1, f kv)) <$> d) = od_keys d.
Proof. unfold od_keys. rewrite <- list_fmap_compose. by apply list_fmap_ext. Qed.

Lemma settled_slots_ok l : NoDup (od_keys l) → Forall slot_matches l →
  NoDup (od_keys (settled_slots l)) ∧ Forall slot_matches (settled_slots l) ∧ Forall slot_settled (settled_slots l).
Proof.
  intros Hnd Hm. unfold settled_slots. rewrite (keys_fmap (λ ks, settled ks.2)). split; [done|].
  split; [by apply Forall_fmap|]. apply Forall_fmap, Forall_forall. intros ks _. apply settled_terminal.
Qed.

Lemma slots_step t k s : turn_inv t → slot_work_class s = tk_kind k →
  (finalized (t_end t) = true → terminal_state (slot_authoritative s) = true) → turn_inv (set_slot k s t).
Proof.
  intros [Hf Hk Hc Hs Ho] Hw Ht. constructor; simpl; try done.
  - by apply od_set_nodup.
  - by apply Forall_od_set.
  - intros Hfin. apply Forall_od_set; [by apply Hs|]. by apply Ht.
Qed.

Lemma facts_step t f : turn_inv t → turn_inv (set_facts f t).
Proof. intros [? ? ? ? ?]. by constructor. Qed.
Lemma hooks_step t h : turn_inv t → turn_inv (set_hooks h t).
Proof. intros [? ? ? ? ?]. by constructor. Qed.
Lemma directives_step t l : turn_inv t → NoDup (od_keys l) → turn_inv (set_directives l t).
Proof. intros [? ? ? ? ?] ?. by constructor. Qed.

Lemma consequence_inv slot o t : turn_inv t → turn_inv (apply_send_consequence slot o t).
Proof. intros Ht. unfold apply_send_consequence. repeat case_match; auto using facts_step. Qed.

Lemma new_turn_inv : turn_inv new_turn.
Proof.
  constructor; simpl; try done; try apply NoDup_nil_2.
  constructor; simpl; try done; split; try done; by intros [? ?].
Qed.

Lemma settle_inv t : NoDup (od_keys (t_slots t)) → Forall slot_matches (t_slots t) →
  flags_ok (t_gate t) (directives_frozen (t_work t)) (t_end t) → NoDup (od_keys (directives (t_work t))) →
  turn_inv (settle_slots t).
Proof.
  intros Hk Hm Hf Ho. destruct (settle_slots_spec t Hk) as [Hs [Eg Ew Ee _ _ _ _ _]].
  destruct (settled_slots_ok _ Hk Hm) as (? & ? & ?). constructor; rewrite ?Hs, ?Eg, ?Ew, ?Ee; done.
Qed.

Lemma foldl_nodup {K V A} `{EqDecision K} (f : odict K V → A → odict K V) (l : list A) d :
  (∀ d a, NoDup (od_keys d) → NoDup (od_keys (f d a))) → NoDup (od_keys d) → NoDup (od_keys (foldl f d l)).
Proof. intros Hf. revert d. induction l as [|a l IH]; intros d Hd; simpl; [done|]. by apply IH, Hf. Qed.

Lemma foldl_Forall {K V A} (P : K * V → Prop) (f : odict K V → A → odict K V) (l : list A) d :
  (∀ d a, Forall P d → Forall P (f d a)) → Forall P d → Forall P (foldl f d l).
Proof. intros Hf. revert d. induction l as [|a l IH]; intros d Hd; simpl; [done|]. by apply IH, Hf. Qed.

Lemma cancel_inv t : turn_inv t → turn_inv (request_session_cancel t).2.
Proof.
  intros [Hf Hk Hc Hs Ho]. unfold request_session_cancel. case_decide as Hl; [|by constructor]. simpl.
  constructor; simpl.
  - destruct Hf as [F1 F2 F3 FS F4 F5 FD F6 F7]. constructor; simpl; try done; [naive_solver..|].
    case_match; [|done]. destruct F7 as (? & ? & _). congruence.
  - by rewrite keys_fmap.
  - apply Forall_fmap. eapply Forall_impl; [exact Hc|]. intros [k s]. unfold slot_matches. simpl. by case_match.
  - intros Hfin. apply Forall_fmap. eapply Forall_impl; [by apply Hs|]. intros [k s]. unfold slot_settled. simpl. by case_match.
  - by rewrite keys_fmap.
Qed.

Lemma teardown_inv t : turn_inv t → finalized (t_end t) = false → turn_inv (teardown_locked t).
Proof.
  intros [Hf Hk Hc Hs Ho] Hfin. unfold teardown_locked.
  set (t2 := freeze_started _). destruct (settle_slots_spec t2 Hk) as [Es [Eg Ew Ee _ _ _ _ _]].
  destruct (settled_slots_ok _ Hk Hc) as (N & M & T).
  assert (flags_ok (mkGate false DECLINED (cancellation_accepted (t_gate t)) true
    (Some (mkTerminalDecision DECLINED (match terminal_decision (t_gate t) with
       | None => cancellation_accepted (t_gate t) | Some d => td_cancellation_accepted d end)))) true
    (mkEnding (Some FD_PARTIAL) (Some (snapshot_of ST_TRANSPORT_ABANDONED (t_facts t))) (finalized (t_end t)) (final_outcome (t_end t))
       (response_started (t_end t)))) as Hfl.
  { destruct Hf as [F1 F2 F3 FS F4 F5 FD F6 F7]. constructor; simpl; try done.
    - intros s Hsn. by simplify_eq.
    - split_and!; try done. case_match; [|done]. by destruct F7 as (_ & _ & ?). }
  destruct Hfl as [F1 F2 F3 FS F4 F5 FD F6 F7]. simpl in *.
  constructor; simpl; rewrite ?Es, ?Ew, ?Ee; simpl; try done.
  { constructor; simpl; try done. intros s Hsn. by simplify_eq. }
  rewrite (keys_fmap (λ d, if String.eqb d.2 "started" then freeze_terminal d.1.1 else d.2)).
  by rewrite (keys_fmap (λ d, if String.eqb d.2 "not_started" then "suppressed" else d.2)).
Qed.

Lemma callout_inv (b : bool) c t : turn_inv t → turn_inv (if b then callout c t else t).
Proof. intros Ht. destruct b; [by apply hooks_step|done]. Qed.

Lemma finalize_inv t : turn_inv t → turn_inv (finalize_once t).2.
Proof.
  intros Ht. unfold finalize_once. destruct (finalized (t_end t)) eqn:Hfin; [done|]. pose proof Ht as [Hf Hk Hc Hs Ho].
  set (t1 := set_frozen true _). destruct (settle_slots_spec t1 Hk) as [Es [Eg Ew Ee _ _ _ _ _]].
  destruct (settled_slots_ok _ Hk Hc) as (N & M & T).
  apply callout_inv, callout_inv. constructor; simpl; rewrite ?Es, ?Eg, ?Ew, ?Ee; simpl; try done.
  destruct Hf as [F1 F2 F3 FS F4 F5 FD F6 F7]. constructor; simpl; try done; naive_solver.
Qed.

Lemma declare_inv ids t : turn_inv t → turn_inv (declare_terminal_messages ids t).
Proof.
  intros Ht. unfold declare_terminal_messages. destruct (transport_abandoned _ || finalized _) eqn:Hg; [done|].
  apply orb_false_iff in Hg as [_ Hfin]. destruct Ht as [Hf Hk Hc Hs Ho]. apply facts_step. constructor; simpl; try done.
  - apply foldl_nodup; [|done]. intros d m Hd. case_match; [done|]. by apply od_set_nodup.
  - apply foldl_Forall; [|done]. intros d m Hd. case_match; [done|]. by apply Forall_od_set.
  - congruence.
Qed.

Lemma register_inv ops t : turn_inv t → turn_inv (register_operations ops t).
Proof.
  intros Ht. apply directives_step; [done|]. apply foldl_nodup; [|apply Ht]. intros d k Hd. case_match; [done|].
  by apply od_set_nodup.
Qed.

(** Every call keeps the invariant. *)
Lemma turn_op_inv op t : turn_inv t → turn_inv (run_turn_op op t).
Proof.
  intros Ht. pose proof Ht as [Hf Hk Hc Hs Ho]. pose proof Hf as [F1 F2 F3 FS F4 F5 FD F6 _].
  assert (∀ k slot, od_get k (t_slots t) = Some slot → slot_work_class slot = tk_kind k) as Hcls
    by (intros k slot Hg; apply (od_get_Forall _ _ _ _ Hc Hg)).
  assert (∀ k slot, od_get k (t_slots t) = Some slot → finalized (t_end t) = true →
    terminal_state (slot_authoritative slot) = true) as Hset
    by (intros k slot Hg Hfin; apply (od_get_Forall _ _ _ _ (Hs Hfin) Hg)).
  assert (∀ k slot, od_get k (t_slots t) = Some slot → slot_authoritative slot = S_QUEUED → finalized (t_end t) = true → False) as Hq.
  { intros k slot Hg Ha Hfin. pose proof (Hset k slot Hg Hfin) as Hx. by rewrite Ha in Hx. }
  destruct op; simpl.
  - by apply register_inv.
  - unfold try_start_directive. repeat case_match; simpl; try done; by apply directives_step, od_set_nodup.
  - unfold try_start_send. case_match eqn:Hg; simpl; apply slots_step; try done.
    intros Hfin. apply orb_false_iff in Hg as [Hg%negb_false_iff _]. destruct (F2 Hfin). congruence.
  - unfold complete_directive. case_match; [by constructor|]. by apply facts_step, directives_step, od_set_nodup.
  - unfold refresh_effect_state. simpl. case_match; [done|by apply facts_step].
  - by apply cancel_inv.
  - unfold seal_final_delivery. destruct (terminal_decision (t_gate t)) as [d|] eqn:Hd; [done|]. simpl.
    constructor; simpl; try done. constructor; simpl; try done.
    + intros Hab. destruct (F5 Hab) as (? & ? & ?). by rewrite Hab.
    + case_match eqn:E; [|done]. apply orb_true_iff in E as [?|?%bool_decide_eq_true]; auto.
    + split; [done|]. split; [by case_match|done].
  - unfold record_outcome. case_match; [by apply facts_step|done].
  - unfold commit_conversation. repeat case_match; simpl; [done|by apply facts_step, hooks_step|by apply hooks_step].
  - by apply declare_inv.
  - unfold start_terminal_message. repeat case_match; simpl; try done; apply slots_step; try done; congruence.
  - unfold start_response_send. destruct (response_started (t_end t) || finalized (t_end t)) eqn:Hg; [done|].
    apply orb_false_iff in Hg as [_ Hfin].
    assert (turn_inv (set_end (mkEnding (teardown_classification (t_end t)) (frozen_snapshot (t_end t))
      (finalized (t_end t)) (final_outcome (t_end t)) true) t)) by (constructor; simpl; try done; constructor; simpl; try done; apply Hf).
    case_match; simpl; [apply facts_step|]; apply slots_step; try done; simpl; congruence.
  - unfold mark_write_started. repeat case_match; simpl; try done. apply slots_step; [done|simpl; by eapply Hcls|]. intros. exfalso. eauto.
  - unfold claim_write_started. repeat case_match; simpl; try done. apply slots_step; [done|simpl; by eapply Hcls|]. intros. exfalso. eauto.
  - unfold publish_authoritative. destruct (od_get k (t_slots t)) as [slot|] eqn:Hg; [|done].
    destruct (finalized (t_end t)) eqn:Hfin; simpl; [by apply slots_step; [|simpl; eapply Hcls|simpl; intros; eapply Hset]|].
    case_match; simpl; [done|]. apply consequence_inv, slots_step; [done|simpl; by eapply Hcls|]. intros; apply terminal_state_of.
  - unfold publish_diagnostic. case_match; simpl; [|done]. apply slots_step; [done|simpl; by eapply Hcls|simpl; by eapply Hset].
  - unfold request_transport_teardown. destruct (finalized (t_end t)) eqn:Hfin; [done|]. case_match; [done|]. simpl.
    case_match; [apply hooks_step|]; by apply teardown_inv.
  - by apply finalize_inv.
  - by apply hooks_step.
  - by apply hooks_step.
Qed.

Lemma turn_run_inv ops t : turn_inv t → turn_inv (run_turn ops t).
Proof. revert t. induction ops as [|op ops IH]; intros t Ht; [done|]. by apply IH, turn_op_inv. Qed.

(** * What each call changes *)

Lemma teardown_frame t : NoDup (od_keys (t_slots t)) → let t' := teardown_locked t in
  finalized (t_end t') = finalized (t_end t) ∧ final_outcome (t_end t') = final_outcome (t_end t)
  ∧ fact_settlement (t_facts t') = fact_settlement (t_facts t) ∧ fact_commit (t_facts t') = fact_commit (t_facts t)
  ∧ t_hooks t' = t_hooks t ∧ t_gate t' = mkGate false DECLINED (cancellation_accepted (t_gate t)) true
      (terminal_decision (t_gate t')) ∧ t_slots t' = settled_slots (t_slots t).
Proof.
  intros Hk. unfold teardown_locked. set (t2 := freeze_started _).
  destruct (settle_slots_spec t2 Hk) as [Es [Eg Ew Ee Eh Hst Hco _ _]]. simpl. rewrite Es, Ee, Eh, Hst, Hco. by split_and!.
Qed.

Lemma op_gate op t : match op with
  | TCancel | TSeal | TTeardown | TFinalize => True
  | _ => t_gate (run_turn_op op t) = t_gate t
  end.
Proof.
  destruct op; try done; simpl; unfold try_start_directive, try_start_send, complete_directive, refresh_effect_state,
    record_outcome, commit_conversation, declare_terminal_messages, start_terminal_message, start_response_send,
    mark_write_started, claim_write_started, publish_authoritative, publish_diagnostic;
    repeat case_match; try done.
  exact (sf_gate _ _ (consequence_same _ _ _)).
Qed.

Lemma op_settlement op t : turn_inv t → match op with
  | TRecord _ | TFinalize => True
  | _ => fact_settlement (t_facts (run_turn_op op t)) = fact_settlement (t_facts t)
  end.
Proof.
  intros Ht. destruct op; try done; simpl; unfold try_start_directive, try_start_send, complete_directive,
    refresh_effect_state, request_session_cancel, seal_final_delivery, commit_conversation, declare_terminal_messages,
    start_terminal_message, start_response_send, mark_write_started, claim_write_started, publish_authoritative,
    publish_diagnostic, request_transport_teardown; repeat case_match; try done;
    first [exact (sf_settlement _ _ (consequence_same _ _ _))
      |exact (proj1 (proj2 (proj2 (teardown_frame t (ti_keys _ Ht)))))].
Qed.

Lemma op_finalized op t : turn_inv t → op ≠ TFinalize → finalized (t_end (run_turn_op op t)) = finalized (t_end t).
Proof.
  intros Ht Hop. destruct op; try done; simpl; unfold try_start_directive, try_start_send, complete_directive,
    refresh_effect_state, request_session_cancel, seal_final_delivery, record_outcome, commit_conversation,
    declare_terminal_messages, start_terminal_message, start_response_send, mark_write_started, claim_write_started,
    publish_authoritative, publish_diagnostic, request_transport_teardown; repeat case_match; try done;
    (etrans; [first [exact (f_equal finalized (sf_end _ _ (consequence_same _ _ _)))
      |exact (proj1 (teardown_frame t (ti_keys _ Ht)))]|done]).
Qed.

(** After finalization nothing that was settled changes, and nothing is called. *)
Lemma finalized_op op t : turn_inv t → finalized (t_end t) = true →
  let t' := run_turn_op op t in t_facts t' = t_facts t ∧ t_end t' = t_end t ∧ callouts (t_hooks t') = callouts (t_hooks t).
Proof.
  intros Ht Hfin. destruct (ti_finalized_closed _ _ _ (ti_flags _ Ht) Hfin) as [Hclosed Hfrozen].
  destruct op; simpl; unfold try_start_directive, try_start_send, complete_directive,
    refresh_effect_state, request_session_cancel, seal_final_delivery, record_outcome, commit_conversation,
    declare_terminal_messages, start_terminal_message, start_response_send, mark_write_started, claim_write_started,
    publish_authoritative, publish_diagnostic, request_transport_teardown, finalize_once;
    rewrite ?Hfin, ?Hclosed, ?Hfrozen, ?orb_true_r, ?andb_false_r; simpl; repeat case_match; by split_and!.
Qed.

Lemma finalized_run ops t : turn_inv t → finalized (t_end t) = true → let t' := run_turn ops t in
  t_facts t' = t_facts t ∧ t_end t' = t_end t ∧ callouts (t_hooks t') = callouts (t_hooks t).
Proof.
  revert t. induction ops as [|op ops IH]; intros t Ht Hfin; [done|]. simpl.
  destruct (finalized_op op t Ht Hfin) as (E1 & E2 & E3). destruct (IH (run_turn_op op t)) as (F1 & F2 & F3).
  - by apply turn_op_inv.
  - by rewrite E2.
  - split_and!; congruence.
Qed.

(** * How a turn is settled *)

Definition is_teardown (op : turn_op) : bool := match op with TTeardown => true | _ => false end.
Definition is_finalize (op : turn_op) : bool := match op with TFinalize => true | _ => false end.

(** A cancellation is accepted if it comes before the lane is decided. *)
Fixpoint cancelled_by (ops : list turn_op) : bool :=
  match ops with
  | [] => false
  | TCancel :: _ => true
  | TSeal :: _ | TTeardown :: _ => false
  | _ :: ops' => cancelled_by ops'
  end.

Fixpoint last_recorded (default : Settlement) (ops : list turn_op) : Settlement :=
  match ops with
  | [] => default
  | TRecord outcome :: ops' => last_recorded outcome ops'
  | _ :: ops' => last_recorded default ops'
  end.

Lemma teardown_gate t : turn_inv t → finalized (t_end t) = false →
  let g := t_gate (request_transport_teardown t).2 in
  transport_abandoned g = true ∧ cancellation_accepted g = cancellation_accepted (t_gate t) ∧ terminal_lane g = DECLINED.
Proof.
  intros Ht Hfin. unfold request_transport_teardown. rewrite Hfin.
  destruct (teardown_classification (t_end t)) as [d|] eqn:Hd.
  - pose proof (ti_flags _ Ht) as Hf. assert (transport_abandoned (t_gate t) = true) as Hab by (apply (ti_classified _ _ _ Hf); by rewrite Hd).
    split; [done|]. split; [done|]. by apply (ti_torn_closed _ _ _ Hf).
  - destruct (teardown_frame t (ti_keys _ Ht)) as (_ & _ & _ & _ & _ & Hg & _).
    assert (∀ b : bool, t_gate (if b then callout CancelPermission (teardown_locked t) else teardown_locked t)
      = t_gate (teardown_locked t)) as Hb by (by intros []). simpl. rewrite Hb, Hg. done.
Qed.

(** One call's part in the history. *)
Lemma op_history op t : turn_inv t → finalized (t_end t) = false → is_finalize op = false →
  let t' := run_turn_op op t in
  transport_abandoned (t_gate t') = transport_abandoned (t_gate t) || is_teardown op
  ∧ cancellation_accepted (t_gate t') = cancellation_accepted (t_gate t)
      || (bool_decide (terminal_lane (t_gate t) = UNDECIDED) && match op with TCancel => true | _ => false end)
  ∧ (terminal_lane (t_gate t') = UNDECIDED ↔ terminal_lane (t_gate t) = UNDECIDED
       ∧ match op with TSeal | TTeardown => False | _ => True end)
  ∧ (transport_abandoned (t_gate t') = false → cancellation_accepted (t_gate t') = false →
     fact_settlement (t_facts t') = match op with TRecord o => o | _ => fact_settlement (t_facts t) end).
Proof.
  intros Ht Hfin Hop. cbv zeta. pose proof (op_gate op t) as Hg. pose proof (op_settlement op t Ht) as Hs.
  pose proof (ti_flags _ Ht) as Hf. destruct op; try done; simpl is_teardown;
    try (try rewrite Hg; rewrite ?andb_false_r, ?orb_false_r; split_and!; try done; tauto).
  - simpl run_turn_op in *. unfold request_session_cancel in *. case_decide as Hl; simpl in *.
    + rewrite !(bool_decide_true _ Hl), !orb_false_r, orb_true_r. split_and!; try done; tauto.
    + rewrite !(bool_decide_false _ Hl), !orb_false_r. split_and!; try done; tauto.
  - simpl run_turn_op in *. unfold seal_final_delivery in *. pose proof (ti_decided _ _ _ Hf) as Hd.
    destruct (terminal_decision (t_gate t)) as [d|]; simpl in *; rewrite ?orb_false_r, ?andb_false_r, ?orb_false_r;
      split_and!; try done; [destruct Hd as (? & ? & _); split; [congruence|tauto]|].
    split; [by case_match|tauto].
  - rewrite Hg, andb_false_r, !orb_false_r. split_and!; try done; [tauto|]. intros Hab Hca. simpl. unfold record_outcome.
    rewrite Hfin, Hca. destruct (frozen_snapshot (t_end t)) eqn:Hsn; [|done].
    assert (transport_abandoned (t_gate t) = true); [|congruence]. apply (ti_torn _ _ _ Hf). by rewrite Hsn.
  - simpl run_turn_op. destruct (teardown_gate t Ht Hfin) as (-> & -> & ->). rewrite orb_true_r, andb_false_r, orb_false_r.
    split_and!; try done. split; [done|tauto].
Qed.

Lemma run_history ops t : turn_inv t → finalized (t_end t) = false → existsb is_finalize ops = false →
  let t' := run_turn ops t in
  turn_inv t' ∧ finalized (t_end t') = false
  ∧ transport_abandoned (t_gate t') = transport_abandoned (t_gate t) || existsb is_teardown ops
  ∧ cancellation_accepted (t_gate t') = cancellation_accepted (t_gate t)
      || (bool_decide (terminal_lane (t_gate t) = UNDECIDED) && cancelled_by ops)
  ∧ (transport_abandoned (t_gate t') = false → cancellation_accepted (t_gate t') = false →
     fact_settlement (t_facts t') = last_recorded (fact_settlement (t_facts t)) ops).
Proof.
  revert t. induction ops as [|op ops IH]; intros t Ht Hfin Hops; simpl in *.
  { rewrite andb_false_r, !orb_false_r. by split_and!. }
  apply orb_false_iff in Hops as [Hop Hops]. destruct (op_history op t Ht Hfin Hop) as (Ha & Hc & Hl & Hs).
  assert (finalized (t_end (run_turn_op op t)) = false) as Hfin'.
  { rewrite op_finalized; [done..|]. by intros ->. }
  destruct (IH (run_turn_op op t) (turn_op_inv _ _ Ht) Hfin' Hops) as (I1 & I2 & I3 & I4 & I5).
  change (foldl (λ t op, run_turn_op op t) (run_turn_op op t) ops) with (run_turn ops (run_turn_op op t)).
  split_and!; try done.
  - by rewrite I3, Ha, orb_assoc.
  - rewrite I4, Hc. assert (bool_decide (terminal_lane (t_gate (run_turn_op op t)) = UNDECIDED)
      = bool_decide (terminal_lane (t_gate t) = UNDECIDED) && match op with TSeal | TTeardown => false | _ => true end) as ->.
    { destruct (bool_decide (terminal_lane (t_gate t) = UNDECIDED)) eqn:E; [apply bool_decide_eq_true in E|apply bool_decide_eq_false in E];
        [|apply bool_decide_eq_false; tauto]. destruct op; simpl; apply bool_decide_eq_true || apply bool_decide_eq_false; tauto. }
    destruct (cancellation_accepted (t_gate t)), (bool_decide (terminal_lane (t_gate t) = UNDECIDED)), op; simpl; try done;
      by rewrite ?orb_true_r.
  - intros Hna Hnc. rewrite (I5 Hna Hnc). rewrite I3 in Hna. rewrite I4 in Hnc. apply orb_false_iff in Hna as [Hna _].
    apply orb_false_iff in Hnc as [Hnc _]. rewrite (Hs Hna Hnc). by destruct op.
Qed.

(** The callouts that announce a finalization. *)
Definition announcement (c : Callout) : bool :=
  match c with RemoveActive | SettlementCallback _ => true | _ => false end.
Definition announcements (t : TurnControl) : list Callout := filter announcement (callouts (t_hooks t)).

Lemma announcements_callout c t : announcements (callout c t) = (announcements t ++ (if announcement c then [c] else []))%list.
Proof.
  unfold announcements, callout. simpl. rewrite filter_app. f_equal. destruct c; reflexivity.
Qed.

Lemma op_announcements op t : turn_inv t → is_finalize op = false → announcements (run_turn_op op t) = announcements t.
Proof.
  intros Ht Hop. destruct op; try done; simpl; unfold try_start_directive, try_start_send, complete_directive,
    refresh_effect_state, request_session_cancel, seal_final_delivery, record_outcome, commit_conversation,
    declare_terminal_messages, start_terminal_message, start_response_send, mark_write_started, claim_write_started,
    publish_authoritative, publish_diagnostic, request_transport_teardown; repeat case_match; try done;
    simpl; try (change (announcements (set_facts ?f ?u)) with (announcements u));
    try (rewrite announcements_callout, app_nil_r; try done);
    unfold announcements; by rewrite ?(sf_hooks _ _ (consequence_same _ _ _)),
      ?(proj1 (proj2 (proj2 (proj2 (proj2 (teardown_frame t (ti_keys _ Ht))))))).
Qed.

Lemma run_announcements ops t : turn_inv t → existsb is_finalize ops = false → announcements (run_turn ops t) = announcements t.
Proof.
  revert t. induction ops as [|op ops IH]; intros t Ht; [done|]. simpl. intros [Hop Hops]%orb_false_iff.
  change (announcements (run_turn ops (run_turn_op op t)) = announcements t).
  rewrite (IH _ (turn_op_inv _ _ Ht) Hops). by apply op_announcements.
Qed.

(** What the finalization itself does. *)
Lemma finalize_spec t o t1 : turn_inv t → finalized (t_end t) = false → finalize_once t = (o, t1) →
  finalized (t_end t1) = true ∧ final_outcome (t_end t1) = Some o
  ∧ announcements t1 = (announcements t ++ (if has_remover (t_hooks t) then [RemoveActive] else [])
      ++ (if has_callback (t_hooks t) then [SettlementCallback o] else []))%list
  ∧ sn_settlement o = (if transport_abandoned (t_gate t) then ST_TRANSPORT_ABANDONED
      else if cancellation_accepted (t_gate t) then ST_CANCELLED else fact_settlement (t_facts t))
  ∧ sn_conversation_commit o = (match frozen_snapshot (t_end t) with
      | Some s => sn_conversation_commit s | None => fact_commit (t_facts t) end).
Proof.
  intros Ht Hfin. unfold finalize_once. rewrite Hfin. set (u := settle_slots _).
  destruct (settle_slots_spec (set_frozen true (set_gate (mkGate false (terminal_lane (t_gate t))
    (cancellation_accepted (t_gate t)) (transport_abandoned (t_gate t)) (terminal_decision (t_gate t))) t)) (ti_keys _ Ht))
    as [_ [_ _ Ee Eh Hst Hco _ _]]. change (settle_slots _) with u in Ee, Eh, Hst, Hco. simpl in Ee, Eh, Hst, Hco. clearbody u.
  rewrite Ee, Hst. intros H. simplify_eq/=. rewrite !Eh.
  assert (∀ (b : bool) c v, t_end (if b then callout c v else v) = t_end v) as Hend by (by intros []).
  assert (∀ (b : bool) c v, announcements (if b then callout c v else v)
    = (announcements v ++ (if b then (if announcement c then [c] else []) else []))%list) as Hann
    by (intros [] c v; [apply announcements_callout|by rewrite app_nil_r]).
  assert (∀ (b : bool) c v, has_callback (t_hooks (if b then callout c v else v)) = has_callback (t_hooks v)) as Hcb by (by intros []).
  rewrite !Hend, !Hann, !Hcb. simpl. rewrite !Eh. unfold announcements. simpl. rewrite Eh. split_and!; try done.
  - by rewrite <- app_assoc.
  - pose proof (ti_flags _ Ht) as Hf. destruct (frozen_snapshot (t_end t)) as [s|] eqn:Hsn; simpl.
    + rewrite (ti_snapshot _ _ _ Hf s Hsn). assert (transport_abandoned (t_gate t) = true) as -> by (apply (ti_torn _ _ _ Hf); by rewrite Hsn). done.
    + destruct (transport_abandoned (t_gate t)) eqn:Hab; [|done]. apply (ti_torn _ _ _ Hf) in Hab. rewrite Hsn in Hab. by destruct Hab.
  - by destruct (frozen_snapshot (t_end t)).
Qed.

(** C19: a turn is settled once, and as it went. The first finalization, after any calls,
    gives [TRANSPORT_ABANDONED] if the transport was torn down, else [CANCELLED] if a
    cancellation came before the terminal lane was decided, else the outcome recorded last,
    or [FAILED]. Whatever is called afterwards, the facts and the outcome stay as they are,
    every further finalization returns the same outcome, and the hooks are called once. *)
Theorem turn_settlement_exact (before after : list turn_op) :
  existsb is_finalize before = false →
  let t := run_turn before new_turn in
  let '(o, t1) := finalize_once t in
  let t2 := run_turn after t1 in
  sn_settlement o = (if existsb is_teardown before then ST_TRANSPORT_ABANDONED
                     else if cancelled_by before then ST_CANCELLED else last_recorded ST_FAILED before) ∧
  finalize_once t2 = (o, t2) ∧ t_facts t2 = t_facts t1 ∧ t_end t2 = t_end t1 ∧
  announcements t2 = ((if has_remover (t_hooks t) then [RemoveActive] else [])
                      ++ (if has_callback (t_hooks t) then [SettlementCallback o] else []))%list.
Proof.
  intros Hb. cbv zeta. destruct (run_history before new_turn new_turn_inv eq_refl Hb) as (Hi & Hfin & Ha & Hc & Hs).
  pose proof (run_announcements before new_turn new_turn_inv Hb) as Hann.
  destruct (finalize_once (run_turn before new_turn)) as [o t1] eqn:Hf.
  pose proof (finalize_inv _ Hi) as Hi1. rewrite Hf in Hi1. simpl in Hi1.
  destruct (finalize_spec _ _ _ Hi Hfin Hf) as (Hfin1 & Ho & Hn & Hst & _).
  destruct (finalized_run after t1 Hi1 Hfin1) as (E1 & E2 & E3). split_and!; try done.
  - rewrite Hst, Ha, Hc. simpl. destruct (existsb is_teardown before) eqn:Ht; [done|]. destruct (cancelled_by before) eqn:Hcb; [done|].
    simpl in *. apply Hs; [by rewrite Ha|by rewrite Hc].
  - unfold finalize_once. by rewrite E2, Hfin1, Ho.
  - unfold announcements in *. by rewrite E3, Hn, Hann.
Qed.

Lemma turn_settlement_exact_witness :
  let '(o, t1) := finalize_once (run_turn [THooks true true; TSeal; TCancel; TRecord ST_COMPLETED] new_turn) in
  let t2 := run_turn [TTeardown; TCancel; TFinalize] t1 in
  sn_settlement o = ST_COMPLETED ∧ finalize_once t2 = (o, t2) ∧ announcements t2 = [RemoveActive; SettlementCallback o].
Proof.
  pose proof (turn_settlement_exact [THooks true true; TSeal; TCancel; TRecord ST_COMPLETED] [TTeardown; TCancel; TFinalize] eq_refl) as H.
  cbv zeta in *. destruct (finalize_once _) as [o t1]. destruct H as (H1 & H2 & _ & _ & H3). by split_and!.
Defined.

(** * What authorizes a commit *)

Definition terminal_slots (t : TurnControl) : list SendSlot :=
  filter (λ s, slot_work_class s ∈ TERMINAL_CLASSES) (od_values (t_slots t)).

(** The protocol of the terminal messages: the lane is decided and the whole set is declared
    before one is started. *)
Definition declared_start (op : turn_op) (t : TurnControl) : Prop :=
  match op with
  | TStartTerminal m fallback =>
      terminal_lane (t_gate t) ≠ UNDECIDED ∧ fallback = false
      ∧ is_Some (od_get (mkTurnSendKey "terminal_set" m) (t_slots t))
  | _ => True
  end.
Fixpoint declared_starts (ops : list turn_op) (t : TurnControl) : Prop :=
  match ops with
  | [] => True
  | op :: ops' => declared_start op t ∧ declared_starts ops' (run_turn_op op t)
  end.
#[local] Instance declared_start_dec op t : Decision (declared_start op t).
Proof. destruct op; simpl; apply _. Defined.

(** Delivery in full means that there are messages and all of them were flushed. *)
Definition flushed_means_all (t : TurnControl) : Prop :=
  transport_abandoned (t_gate t) = false → fact_final (t_facts t) = FD_FLUSHED →
  terminal_slots t ≠ [] ∧ Forall (λ s, slot_authoritative s = S_FLUSHED) (terminal_slots t).

Lemma classify_flushed slots final : classify_teardown_delivery slots final = FD_FLUSHED →
  let l := filter (λ s, slot_work_class s ∈ TERMINAL_CLASSES) (od_values slots) in
  l ≠ [] ∧ Forall (λ s, slot_authoritative s = S_FLUSHED) l.
Proof.
  unfold classify_teardown_delivery. repeat (case_bool_decide; try done); [by case_decide|]. intros _. split; [done|].
  by apply Forall_fmap in H1.
Qed.

(** Slots of the same class and state count the same. *)
Lemma terminal_slots_same t t' :
  (λ s, (slot_work_class s, slot_authoritative s)) <$> od_values (t_slots t')
  = (λ s, (slot_work_class s, slot_authoritative s)) <$> od_values (t_slots t) →
  transport_abandoned (t_gate t') = transport_abandoned (t_gate t) →
  fact_final (t_facts t') = fact_final (t_facts t) → flushed_means_all t → flushed_means_all t'.
Proof.
  intros Hs Hg Hf Ht Hab Hfl. rewrite Hg in Hab. rewrite Hf in Hfl. destruct (Ht Hab Hfl) as [Hne Hall].
  assert (∀ l k : list SendSlot, (λ s, (slot_work_class s, slot_authoritative s)) <$> l
      = (λ s, (slot_work_class s, slot_authoritative s)) <$> k →
    slot_authoritative <$> filter (λ s, slot_work_class s ∈ TERMINAL_CLASSES) l
    = slot_authoritative <$> filter (λ s, slot_work_class s ∈ TERMINAL_CLASSES) k) as Hgo.
  { clear. induction l as [|a l IH]; intros [|b k] H; simplify_eq/=; [done|]. rewrite !filter_cons. rewrite H.
    case_decide; simpl; [f_equal; [done|]|]; by apply IH. }
  pose proof (Hgo _ _ Hs) as Hst. unfold terminal_slots in *.
  rewrite <- (Forall_fmap slot_authoritative (λ x, x = S_FLUSHED)) in *. rewrite <- (fmap_nil_iff slot_authoritative) in *.
  by rewrite Hst.
Qed.

(** Changing the slot of another class does not count. *)
Lemma terminal_slots_put k s t : slot_work_class s ∉ TERMINAL_CLASSES →
  (∀ old, od_get k (t_slots t) = Some old → slot_work_class old ∉ TERMINAL_CLASSES) →
  terminal_slots (set_slot k s t) = terminal_slots t.
Proof.
  unfold terminal_slots, set_slot, set_slots, od_values. simpl. intros Hs.
  induction (t_slots t) as [|[k' s'] l IH]; simpl; intros Hold.
  - by rewrite filter_cons_False.
  - destruct (decide (k = k')) as [->|Hne].
    + rewrite fmap_cons. cbn [snd]. by rewrite !filter_cons_False by auto.
    + rewrite fmap_cons, !filter_cons, IH by done. done.
Qed.

Lemma put_flushed k slot s t : od_get k (t_slots t) = Some slot → slot_work_class s = slot_work_class slot →
  slot_authoritative slot ≠ S_FLUSHED → flushed_means_all t → flushed_means_all (set_slot k s t).
Proof.
  intros Hg Hs Hnf Ht Hab Hfl. simpl in Hab, Hfl. destruct (Ht Hab Hfl) as [Hne Hall].
  assert (slot_work_class slot ∉ TERMINAL_CLASSES) as Hc.
  { intros Hc. apply Hnf. rewrite Forall_forall in Hall. apply Hall, list_elem_of_filter. split; [done|].
    apply list_elem_of_fmap. exists (k, slot). split; [done|]. by apply od_get_Some_in. }
  rewrite terminal_slots_put; [done|by rewrite Hs|]. intros old Ho. by simplify_eq.
Qed.

(** A consequence applied once its slot is in place. *)
Lemma consequence_flushed k slot s o t : od_get k (t_slots t) = Some slot → slot_work_class s = slot_work_class slot →
  slot_authoritative slot ≠ S_FLUSHED → flushed_means_all t →
  flushed_means_all (apply_send_consequence slot o (set_slot k s t)).
Proof.
  intros Hg Hs Hnf Ht. pose proof (put_flushed k slot s t Hg Hs Hnf Ht) as Hp.
  unfold apply_send_consequence. destruct (bool_decide (slot_work_class slot ∈ TERMINAL_CLASSES)).
  - intros _ Hfl. by apply classify_flushed in Hfl.
  - repeat case_match; exact Hp.
Qed.

Lemma settle_slots_flushed t : flushed_means_all t → flushed_means_all (settle_slots t).
Proof.
  unfold settle_slots. generalize (od_keys (t_slots t)). intros l. revert t. induction l as [|k l IH]; intros t Ht; [done|].
  simpl. apply IH. unfold settle_slot. destruct (od_get k (t_slots t)) as [slot|] eqn:Hg; [|done].
  destruct (slot_authoritative slot) eqn:Ha; try done; by apply (consequence_flushed k slot); [..|rewrite Ha|].
Qed.

Lemma fresh_send_flushed k s t : Forall slot_matches (t_slots t) → slot_work_class s ∉ TERMINAL_CLASSES → tk_kind k ∉ TERMINAL_CLASSES →
  flushed_means_all t → flushed_means_all (set_slot k s t).
Proof.
  intros Ht Hs Hk Hf Hab Hfl. rewrite terminal_slots_put; [by apply Hf|done|].
  intros old Ho. by rewrite (od_get_Forall _ _ _ _ Ht Ho).
Qed.

Lemma gated_not_terminal x : x ∈ GATED_SENDS → x ∉ TERMINAL_CLASSES.
Proof. intros Hx%list_elem_of_In. destruct Hx as [<-|[<-|[<-|[]]]]; by apply (bool_decide_unpack (_ ∉ _)). Qed.

Lemma cancel_flushed t : flushed_means_all t → flushed_means_all (request_session_cancel t).2.
Proof.
  intros Hf. unfold request_session_cancel. case_decide; [|done]. simpl. intros Hab Hfl. simpl in *.
  destruct (Hf Hab Hfl) as [Hne Hall]. unfold terminal_slots, od_values in *. simpl.
  assert (∀ l : odict TurnSendKey SendSlot, filter (λ s, slot_work_class s ∈ TERMINAL_CLASSES)
    (((λ ks, (ks.1, if bool_decide (slot_work_class ks.2 ∈ GATED_SENDS) && bool_decide (slot_authoritative ks.2 = S_QUEUED)
        then slot_with S_SUPPRESSED ks.2 else ks.2)) <$> l).*2) = filter (λ s, slot_work_class s ∈ TERMINAL_CLASSES) (l.*2)) as ->;
    [|done]. clear. induction l as [|[k s] l IH]; [done|]. rewrite !fmap_cons. cbn [fst snd].
  destruct (bool_decide (slot_work_class s ∈ GATED_SENDS)) eqn:Hg; [|by rewrite !filter_cons, IH].
  apply bool_decide_eq_true, gated_not_terminal in Hg. rewrite !filter_cons_False; [done|done|by case_match].
Qed.

Lemma diagnosed_flushed k slot o t : od_get k (t_slots t) = Some slot → flushed_means_all t →
  flushed_means_all (set_slot k (slot_diagnosed o slot) t).
Proof.
  intros Hg. apply terminal_slots_same; [|done..]. unfold set_slot, od_values. simpl. revert Hg.
  induction (t_slots t) as [|[k' s'] l IH]; [done|]. simpl. case_decide; simpl; intros Hg; [by simplify_eq|]. f_equal. by apply IH.
Qed.

Lemma flushed_op op t : turn_inv t → declared_start op t → flushed_means_all t → flushed_means_all (run_turn_op op t).
Proof.
  intros Ht Hd Hf. assert (∀ u, t_slots u = t_slots t → transport_abandoned (t_gate u) = transport_abandoned (t_gate t) →
    fact_final (t_facts u) = fact_final (t_facts t) → flushed_means_all u) as Hsame
    by (intros u Hs ? ?; apply (terminal_slots_same t); [by rewrite Hs|done..]).
  destruct op; simpl; try (by apply Hsame).
  - unfold try_start_directive. repeat case_match; by apply Hsame.
  - unfold try_start_send. case_match; simpl; apply fresh_send_flushed; try done; try apply Ht;
      destruct kind; simpl; unfold TERMINAL_CLASSES; set_solver.
  - unfold complete_directive. case_match; by apply Hsame.
  - unfold refresh_effect_state. simpl. case_match; by apply Hsame.
  - by apply cancel_flushed.
  - unfold seal_final_delivery. case_match; by apply Hsame.
  - unfold record_outcome. case_match; by apply Hsame.
  - unfold commit_conversation. repeat case_match; by apply Hsame.
  - unfold declare_terminal_messages. case_match; [done|]. intros _ Hfl. by apply classify_flushed in Hfl.
  - destruct Hd as (Hl & -> & slot & Hg). unfold start_terminal_message. destruct (finalized (t_end t)); [done|].
    case_decide as Hgr; [by rewrite Hg|]. intros Hab. simpl in Hab. destruct (terminal_lane (t_gate t)) eqn:E; try done.
    rewrite (ti_declined _ _ _ (ti_flags _ Ht) E) in Hab. done.
  - unfold start_response_send. case_match; [done|]. case_match eqn:Hab; simpl; [intros Hna; simpl in Hna; congruence|].
    apply fresh_send_flushed; [apply Ht|unfold TERMINAL_CLASSES; set_solver..|by apply Hsame].
  - unfold mark_write_started. destruct (od_get k (t_slots t)) as [slot|] eqn:Hg; [|done]. case_decide as Ha; [|done].
    by apply (put_flushed k slot); [..|rewrite Ha|].
  - unfold claim_write_started. destruct (od_get k (t_slots t)) as [slot|] eqn:Hg; [|done]. case_decide as Ha; [|done].
    by apply (put_flushed k slot); [..|rewrite Ha|].
  - unfold publish_authoritative. destruct (od_get k (t_slots t)) as [slot|] eqn:Hg; [|done].
    destruct (finalized (t_end t)); [by apply diagnosed_flushed|]. destruct (terminal_state _) eqn:Hts; [done|].
    apply (consequence_flushed k slot); try done. intros Ha. by rewrite Ha in Hts.
  - unfold publish_diagnostic. destruct (od_get k (t_slots t)) as [slot|] eqn:Hg; [by apply diagnosed_flushed|done].
  - destruct (finalized (t_end t)) eqn:Hfin; [unfold request_transport_teardown; by rewrite Hfin|].
    destruct (teardown_gate t Ht Hfin) as (Hab & _). intros Hna. congruence.
  - unfold finalize_once. case_match; [done|]. cbv zeta. simpl.
    assert (∀ (b : bool) c u, flushed_means_all u → flushed_means_all (if b then callout c u else u)) as Hco by (by intros []).
    apply Hco, Hco. match goal with |- flushed_means_all (set_end _ ?u) => change (flushed_means_all u) end.
    by apply settle_slots_flushed, Hsame.
Qed.

Lemma declared_run ops t : turn_inv t → declared_starts ops t → flushed_means_all t → flushed_means_all (run_turn ops t).
Proof.
  revert t. induction ops as [|op ops IH]; intros t Ht Hd Hf; [done|]. destruct Hd as [Hd Hds].
  apply (IH (run_turn_op op t)); [by apply turn_op_inv|done|by apply flushed_op].
Qed.

(** Only a whole delivery is committed. In a history that decides the lane and declares
    the terminal messages before it starts them, a commit that returns true finds the turn
    neither torn down nor finalized, at least one terminal message, and all of them
    flushed; then, and only then, the turn is inserted into the conversation. *)
Theorem commit_needs_flush (ops : list turn_op) (insert : res string unit) (answer : res string bool) (t' : TurnControl) :
  declared_starts ops new_turn →
  let t := run_turn ops new_turn in
  commit_conversation insert t = (answer, t') →
  (answer = Ok true →
     finalized (t_end t) = false ∧ transport_abandoned (t_gate t) = false ∧ terminal_slots t ≠ [] ∧
     Forall (λ s, slot_authoritative s = S_FLUSHED) (terminal_slots t) ∧
     callouts (t_hooks t') = (callouts (t_hooks t) ++ [InsertConversation])%list ∧ fact_commit (t_facts t') = CC_COMMITTED) ∧
  (answer = Ok false → t' = t) ∧
  (∀ e, answer = Err e → insert = Err e ∧ fact_commit (t_facts t') = fact_commit (t_facts t)).
Proof.
  intros Hd t. assert (flushed_means_all t) as Hf by (apply declared_run; [apply new_turn_inv|done|done]).
  unfold commit_conversation. destruct (finalized _ || _ || _) eqn:Hg; [intros H; simplify_eq; split_and!; by try intros|].
  apply orb_false_iff in Hg as [[Hfin Hab]%orb_false_iff Hfl%bool_decide_eq_false].
  assert (fact_final (t_facts t) = FD_FLUSHED) as Hfl' by (by apply dec_stable).
  destruct insert as [[]|e]; intros H; simplify_eq; (split; [|split]); try done.
  - intros _. destruct (Hf Hab Hfl') as [? ?]. by split_and!.
  - intros e' He. by simplify_eq.
Qed.

Definition flushed_turn : list turn_op :=
  [TSeal; TDeclare ["plan"; "text"]; TStartTerminal "plan" false; TClaim (mkTurnSendKey "terminal_set" "plan");
   TPublish (mkTurnSendKey "terminal_set" "plan") O_FLUSHED; TStartTerminal "text" false;
   TPublish (mkTurnSendKey "terminal_set" "text") O_FLUSHED].

Lemma commit_needs_flush_witness :
  commit_conversation (E:=string) (Ok tt) (run_turn flushed_turn new_turn) =
    (Ok true, (commit_conversation (E:=string) (Ok tt) (run_turn flushed_turn new_turn)).2) ∧
  length (terminal_slots (run_turn flushed_turn new_turn)) = 2%nat ∧
  Forall (λ s, slot_authoritative s = S_FLUSHED) (terminal_slots (run_turn flushed_turn new_turn)).
Proof.
  split; [vm_compute; reflexivity|]. split; [vm_compute; reflexivity|].
  assert (declared_starts flushed_turn new_turn) as Hd.
  { simpl. split_and!; try done; try (by eexists); vm_compute; intros H; discriminate H. }
  destruct (commit_needs_flush flushed_turn (Ok tt) (Ok true)
    (commit_conversation (E:=string) (Ok tt) (run_turn flushed_turn new_turn)).2 Hd ltac:(vm_compute; reflexivity)) as [H _].
  by apply H.
Defined.

(** The declaration is needed: with a message that is started without it, the messages that
    were flushed before it authorize the commit. *)
Example undeclared_message_commits :
  let t := run_turn [TSeal; TDeclare ["plan"]; TStartTerminal "plan" false;
             TPublish (mkTurnSendKey "terminal_set" "plan") O_FLUSHED; TStartTerminal "text" false] new_turn in
  (commit_conversation (E:=string) (Ok tt) t).1 = Ok true ∧ slot_authoritative <$> terminal_slots t = [S_FLUSHED; S_QUEUED].
Proof. vm_compute. done. Qed.

(** * Halting *)

(** A call that closes the execution gate. *)
Definition halts (op : turn_op) (t : TurnControl) : Prop :=
  match op with
  | TCancel => (request_session_cancel t).1 = ACCEPTED
  | TTeardown | TFinalize => True
  | _ => False
  end.

(** What is reported as the end of an operation is not that it has started. *)
Definition reports_terminal (op : turn_op) : Prop :=
  match op with TComplete _ _ terminal => terminal ≠ "started" | _ => True end.

Lemma slots_get_fmap {K V} `{EqDecision K} (f : K * V → V) (d : odict K V) k :
  od_get k ((λ kv, (kv.1, f kv)) <$> d) = (λ v, f (k, v)) <$> od_get k d.
Proof. induction d as [|[k' v] d IH]; [done|]. simpl. case_decide; [by subst|done]. Qed.

Lemma teardown_work t : NoDup (od_keys (t_slots t)) →
  directives (t_work (teardown_locked t)) = (λ d, (d.1, if String.eqb d.2 "started" then freeze_terminal d.1.1 else d.2)) <$>
    ((λ d, (d.1, if String.eqb d.2 "not_started" then "suppressed" else d.2)) <$> directives (t_work t)).
Proof.
  intros Hk. unfold teardown_locked. set (t2 := freeze_started _).
  destruct (settle_slots_spec t2 Hk) as [_ [_ Ew _ _ _ _ _ _]]. simpl. by rewrite Ew.
Qed.

(** The states of a directive after teardown. *)
Lemma teardown_directive t k : NoDup (od_keys (t_slots t)) →
  od_get k (directives (t_work (teardown_locked t))) =
  (λ v, if String.eqb v "not_started" then "suppressed" else if String.eqb v "started" then freeze_terminal k.1 else v)
    <$> od_get k (directives (t_work t)).
Proof.
  intros Hk. rewrite teardown_work by done.
  rewrite (slots_get_fmap (λ d, if String.eqb d.2 "started" then freeze_terminal d.1.1 else d.2)).
  rewrite (slots_get_fmap (λ d, if String.eqb d.2 "not_started" then "suppressed" else d.2)).
  destruct (od_get k (directives (t_work t))) as [v|]; [|done]. simpl. by destruct (String.eqb v "not_started").
Qed.

Lemma gate_closed_op op t : turn_inv t → execution_gate_open (t_gate t) = false → reports_terminal op →
  let t' := run_turn_op op t in execution_gate_open (t_gate t') = false ∧
  ∀ k, od_get k (directives (t_work t')) = Some "started" → od_get k (directives (t_work t)) = Some "started".
Proof.
  intros Ht Hg Hr. pose proof (op_gate op t) as Hgate.
  assert (∀ (k k' : directive_key) v d, v ≠ "started" → od_get k (od_set k' v d) = Some "started" →
    od_get k d = Some "started") as Hput.
  { intros k k' v d Hv. destruct (decide (k = k')) as [->|]; [rewrite od_get_set_eq; naive_solver|by rewrite od_get_set_ne]. }
  cbv zeta. destruct op; try (split; [by rewrite Hgate|clear Hgate]); simpl; try done.
  - clear Hr. intros k. unfold register_operations. rewrite Hg. simpl. generalize (directives (t_work t)). intros d. revert d.
    induction ops as [|key ops IH]; intros d; simpl; [done|]. intros H%IH. destruct (od_mem key d); [done|]. by apply Hput in H.
  - intros k. unfold try_start_directive. rewrite Hg. simpl. by apply Hput.
  - intros k. unfold try_start_send. by case_match.
  - intros k. unfold complete_directive. case_match; [done|]. by apply Hput.
  - intros k. unfold refresh_effect_state. simpl. by case_match.
  - unfold request_session_cancel. case_decide; simpl; [|done]. split; [done|]. intros k.
    rewrite (slots_get_fmap (λ d, if String.eqb d.2 "not_started" then "suppressed" else d.2)).
    destruct (od_get k (directives (t_work t))) as [v|]; simpl; [|done]. by case_match.
  - unfold seal_final_delivery. by case_match.
  - intros k. unfold record_outcome. by case_match.
  - intros k. unfold commit_conversation. by repeat case_match.
  - intros k. unfold declare_terminal_messages. by case_match.
  - intros k. unfold start_terminal_message. by repeat case_match.
  - intros k. unfold start_response_send. by repeat case_match.
  - intros k'. unfold mark_write_started. by repeat case_match.
  - intros k'. unfold claim_write_started. by repeat case_match.
  - intros k'. unfold publish_authoritative. repeat case_match; try done. simpl. by rewrite (sf_work _ _ (consequence_same _ _ _)).
  - intros k'. unfold publish_diagnostic. by repeat case_match.
  - unfold request_transport_teardown. do 2 (case_match; [done|]). cbv zeta. cbn [snd].
    assert (∀ b : bool, t_gate (if b then callout CancelPermission (teardown_locked t) else teardown_locked t) = t_gate (teardown_locked t)
      ∧ t_work (if b then callout CancelPermission (teardown_locked t) else teardown_locked t) = t_work (teardown_locked t)) as Hb by (by intros []).
    destruct (Hb (has_permission_handle (t_hooks (teardown_locked t)))) as [-> ->].
    destruct (teardown_frame t (ti_keys _ Ht)) as (_ & _ & _ & _ & _ & -> & _). split; [done|].
    intros k. rewrite teardown_directive by apply Ht. destruct (od_get k (directives (t_work t))) as [v|]; simpl; [|done].
    destruct (String.eqb_spec v "not_started"); [done|]. destruct (String.eqb_spec v "started"); [by subst|done].
  - unfold finalize_once. case_match; [done|]. cbv zeta. simpl.
    assert (∀ (b : bool) c u, t_gate (if b then callout c u else u) = t_gate u ∧ t_work (if b then callout c u else u) = t_work u) as Hb by (by intros []).
    rewrite !(proj1 (Hb _ _ _)), !(proj2 (Hb _ _ _)). simpl.
    destruct (settle_slots_spec (set_frozen true (set_gate (mkGate false (terminal_lane (t_gate t)) (cancellation_accepted (t_gate t))
      (transport_abandoned (t_gate t)) (terminal_decision (t_gate t))) t)) (ti_keys _ Ht)) as [_ [-> -> _ _ _ _ _ _]]. by split.
Qed.

Lemma closed_run ops t : turn_inv t → execution_gate_open (t_gate t) = false → Forall reports_terminal ops →
  let t' := run_turn ops t in execution_gate_open (t_gate t') = false ∧
  ∀ k, od_get k (directives (t_work t')) = Some "started" → od_get k (directives (t_work t)) = Some "started".
Proof.
  revert t. induction ops as [|op ops IH]; intros t Ht Hg Hr; [done|]. inversion_clear Hr as [|? ? Ho Hos].
  destruct (gate_closed_op op t Ht Hg Ho) as [Hg1 Hk1]. destruct (IH (run_turn_op op t)) as [Hg2 Hk2]; [by apply turn_op_inv|done|done|].
  split; [done|]. intros k Hk. by apply Hk1, Hk2.
Qed.

Lemma halts_closes op t : turn_inv t → halts op t → execution_gate_open (t_gate (run_turn_op op t)) = false.
Proof.
  intros Ht. destruct op; try done; simpl.
  - unfold request_session_cancel. case_decide; [done|]. by intros.
  - intros _. destruct (finalized (t_end t)) eqn:Hfin.
    + unfold request_transport_teardown. rewrite Hfin. by apply (ti_finalized_closed _ _ _ (ti_flags _ Ht)).
    + destruct (teardown_gate t Ht Hfin) as [Hab _]. apply (ti_torn_closed _ _ _ (ti_flags _ (turn_op_inv TTeardown t Ht)) Hab).
  - intros _. pose proof (ti_flags _ (finalize_inv t Ht)) as Hf. apply (ti_finalized_closed _ _ _ Hf).
    destruct (finalized (t_end t)) eqn:Hfin; [unfold finalize_once; by rewrite Hfin|].
    destruct (finalize_once t) as [o t1] eqn:E. by destruct (finalize_spec _ _ _ Ht Hfin E).
Qed.

(** A halt is final. After a cancellation that was accepted, a teardown or the
    finalization, no operation and no gated send is granted a start, whatever else is
    called, and no operation becomes started that was not, as long as no call reports
    "started" as the end of an operation. *)
Theorem halt_is_final (before : list turn_op) (op : turn_op) (after : list turn_op) :
  let t := run_turn before new_turn in
  halts op t → Forall reports_terminal after →
  let t1 := run_turn_op op t in let t2 := run_turn after t1 in
  (∀ kind i, sl_granted (try_start_directive kind i t2).1 = false) ∧
  (∀ kind i, sl_granted (try_start_send kind i t2).1 = false) ∧
  ∀ kind i, directive_state kind i t2 = Some "started" → directive_state kind i t1 = Some "started".
Proof.
  intros t Hh Ha t1 t2. assert (turn_inv t) as Ht by apply turn_run_inv, new_turn_inv.
  destruct (closed_run after t1) as [Hg Hk]; [by apply turn_op_inv|by apply halts_closes|done|]. fold t2 in Hg, Hk.
  split_and!.
  - intros kind i. unfold try_start_directive. by rewrite Hg.
  - intros kind i. unfold try_start_send. by rewrite Hg.
  - intros kind i. apply Hk.
Qed.

Lemma halt_is_final_witness :
  let t1 := run_turn_op TCancel (run_turn [TStartDirective D_WRITE "w"; TRegister [(D_TEST, "t")]] new_turn) in
  let t2 := run_turn [TComplete D_WRITE "w" "succeeded"; TStartDirective D_TEST "t"; TSeal; TTeardown] t1 in
  directive_state D_WRITE "w" t1 = Some "started" ∧ directive_state D_TEST "t" t2 = Some "suppressed" ∧
  ∀ kind i, sl_granted (try_start_directive kind i t2).1 = false.
Proof.
  split; [vm_compute; reflexivity|]. split; [vm_compute; reflexivity|].
  refine (proj1 (halt_is_final [TStartDirective D_WRITE "w"; TRegister [(D_TEST, "t")]] TCancel
    [TComplete D_WRITE "w" "succeeded"; TStartDirective D_TEST "t"; TSeal; TTeardown] _ _)); [vm_compute; reflexivity|].
  repeat constructor; discriminate.
Defined.

(** * Teardown *)

Lemma directive_effectful kind i v l : od_get (kind, i) l = Some v → kind ∈ [D_WRITE; D_TEST] →
  v ∉ ["not_started"; "started"] → v ∈ effects (effectful_terminals l).
Proof.
  intros Hg Hk Hv. apply od_get_Some_in in Hg. unfold effects, effectful_terminals.
  apply list_elem_of_fmap. exists (DirectiveKind_value kind, v). split; [done|]. apply list_elem_of_filter. split.
  - apply list_elem_of_In in Hk. destruct Hk as [<-|[<-|[]]]; by apply (bool_decide_unpack _).
  - apply list_elem_of_fmap. exists ((kind, i), v). split; [done|]. by apply list_elem_of_filter.
Qed.

Lemma teardown_takes t : turn_inv t → finalized (t_end t) = false → transport_abandoned (t_gate t) = false →
  let t1 := (request_transport_teardown t).2 in
  frozen_snapshot (t_end t1) = Some (snapshot_of ST_TRANSPORT_ABANDONED (t_facts (teardown_locked t)))
  ∧ t_work t1 = t_work (teardown_locked t).
Proof.
  intros Ht Hfin Hab. unfold request_transport_teardown. rewrite Hfin. destruct (teardown_classification (t_end t)) eqn:E.
  { assert (transport_abandoned (t_gate t) = true); [|congruence]. apply (ti_classified _ _ _ (ti_flags _ Ht)). by rewrite E. }
  cbv zeta. cbn [snd]. assert (∀ (b : bool) u, t_end (if b then callout CancelPermission u else u) = t_end u
    ∧ t_work (if b then callout CancelPermission u else u) = t_work u) as Hb by (by intros []).
  rewrite (proj1 (Hb _ _)), (proj2 (Hb _ _)). done.
Qed.

(** A turn that was torn down is finalized with the snapshot of that moment. *)
Lemma finalize_torn t s : turn_inv t → finalized (t_end t) = false → frozen_snapshot (t_end t) = Some s → (finalize_once t).1 = s.
Proof.
  intros Ht Hfin Hsn. unfold finalize_once. rewrite Hfin. cbn [fst].
  match goal with |- default _ (frozen_snapshot (t_end (settle_slots ?u))) = _ =>
    destruct (settle_slots_spec u) as [_ [_ _ -> _ _ _ _ _]] end; [apply (ti_keys _ Ht)|]. simpl. by rewrite Hsn.
Qed.

(** C40: a teardown admits what it does not know. The frozen snapshot says
    [TRANSPORT_ABANDONED]; if a write or a test was running, or its effect was unknown, it
    says that the effect is indeterminate; if one had succeeded it does not say that there
    was none; if a call of the Gateway was running, or its cost was unknown, it says that
    the cost is incomplete. No operation is left running, and the snapshot is what the turn
    is finalized with. *)
Theorem teardown_honest (before : list turn_op) :
  let t := run_turn before new_turn in
  finalized (t_end t) = false → transport_abandoned (t_gate t) = false →
  let t1 := (request_transport_teardown t).2 in
  ∃ s, frozen_snapshot (t_end t1) = Some s ∧ sn_settlement s = ST_TRANSPORT_ABANDONED ∧
  (∀ kind i, kind ∈ [D_WRITE; D_TEST] →
     (directive_state kind i t = Some "started" ∨ directive_state kind i t = Some "failed_effect_unknown") →
     sn_effect_state s = INDETERMINATE) ∧
  (∀ kind i, kind ∈ [D_WRITE; D_TEST] → directive_state kind i t = Some "succeeded" → sn_effect_state s ≠ NONE) ∧
  (∀ i, directive_state D_GATEWAY i t = Some "started" ∨ directive_state D_GATEWAY i t = Some "cost_unknown" →
     sn_cost_complete s = false) ∧
  (∀ kind i, directive_state kind i t1 ≠ Some "started") ∧
  (finalize_once t1).1 = s.
Proof.
  intros t Hfin Hab t1. assert (turn_inv t) as Ht by apply turn_run_inv, new_turn_inv.
  destruct (teardown_takes t Ht Hfin Hab) as [Hsn Hw]. fold t1 in Hsn, Hw.
  assert (∀ k, od_get k (directives (t_work (teardown_locked t))) = _) as Hdir
    by (intros k; exact (teardown_directive t k (ti_keys _ Ht))).
  assert (fact_effect (t_facts (teardown_locked t)) = compute_effect_state (effectful_terminals (directives (t_work (teardown_locked t))))
    ∧ fact_cost_complete (t_facts (teardown_locked t)) = cost_known (directives (t_work (teardown_locked t)))) as [He Hc] by done.
  eexists. split; [exact Hsn|]. split; [done|]. unfold directive_state in *. rewrite Hw. cbn [snapshot_of sn_effect_state sn_cost_complete].
  rewrite He, Hc. split_and!.
  - intros kind i Hk Hst. apply effect_unknown, (directive_effectful kind i); [|done|by apply (bool_decide_unpack _)].
    rewrite Hdir. destruct Hst as [->| ->]; simpl; [|done]. apply list_elem_of_In in Hk. by destruct Hk as [<-|[<-|[]]].
  - intros kind i Hk Hst Hn. pose proof (effect_state_spec (effectful_terminals (directives (t_work (teardown_locked t))))) as Hspec.
    rewrite Hn in Hspec. destruct Hspec as [_ Hno]. apply Hno, (directive_effectful kind i); [|done|by apply (bool_decide_unpack _)].
    by rewrite Hdir, Hst.
  - intros i Hst. unfold cost_known. rewrite bool_decide_true; [done|]. apply Exists_exists. exists ((D_GATEWAY, i), "cost_unknown").
    split; [|done]. apply od_get_Some_in. rewrite Hdir. by destruct Hst as [->| ->].
  - intros kind i. rewrite Hdir. destruct (od_get _ _) as [v|]; simpl; [|done]. intros [= Hv]. revert Hv. repeat case_match; try done.
    + by destruct kind.
    + intros ->. done.
  - apply finalize_torn; [apply (turn_op_inv TTeardown t Ht)| |done].
    by rewrite <- Hfin; apply (op_finalized TTeardown t Ht).
Qed.

Lemma teardown_honest_witness :
  let t := run_turn [TStartDirective D_WRITE "w"; TStartDirective D_GATEWAY "g"; TComplete D_GATEWAY "g" "succeeded"] new_turn in
  ∃ s, (finalize_once (request_transport_teardown t).2).1 = s ∧ sn_effect_state s = INDETERMINATE ∧ sn_cost_complete s = true.
Proof.
  destruct (teardown_honest [TStartDirective D_WRITE "w"; TStartDirective D_GATEWAY "g"; TComplete D_GATEWAY "g" "succeeded"]
    eq_refl eq_refl) as (s & Hs & _ & Hw & _ & _ & _ & Hf).
  exists s. split; [exact Hf|]. split; [|vm_compute in Hs; by simplify_eq].
  apply (Hw D_WRITE "w"); [by left|left; vm_compute; reflexivity].
Defined.
