(* ===== verification/OutboundWriter.v ===== *)
(** The outbound writer (src/optimus/acp/outbound_writer.py): messages are admitted into a
    bounded queue, and one thread writes and flushes them in order and completes the
    future of each.

    Whoever keeps the state of a send is an interface, the class [SendOwner] (the [SendOwner]
    protocol of the source); what the writer relies on are its laws, [SendOwnerLaws].
    Everything other threads do between two steps of the writer's thread is explicit: the
    state holds a schedule, and before each step the thread runs the next entry of it. An
    entry is a list of calls: submissions, cancellations of futures, the request to close,
    and steps of the owners. A theorem for all schedules is a theorem for all interleavings.
    A submission runs as one entry: its critical section is under the lock, and a message
    it refuses is known to no other thread.

    Items are shared between the submitter, the queue and the thread, so they live in a list
    and are named by their position. Faults of the transport are a list, one for each call:
    a write may raise after any number of bytes. *)
From stdpp Require Import sorting.
From S2P Require Import Prelude Text Json JsonLoads Admission Conversation AcpSettlement.

Local Open Scope string_scope.
Local Open Scope Z_scope.

(** * Owners of sends *)

Class SendOwner (Own K : Type) := {
  owner_claim : K → eff Own string SendState;
  owner_publish : K → SendOutcome → eff Own string unit;
  owner_diagnose : K → SendOutcome → eff Own string unit;
  owner_on_release : K → eff Own string unit
}.

(** How other threads may move the state of a send: they queue it, claim it, suppress it
    while it is queued, and give it up while it is written. *)
Inductive moves : option SendState → option SendState → Prop :=
| move_stay s : moves s s
| move_create s : s ≠ S_FLUSHED → s ≠ S_CONCLUSIVE_FAILURE → moves None (Some s)
| move_start : moves (Some S_QUEUED) (Some S_WRITE_STARTED)
| move_suppress : moves (Some S_QUEUED) (Some S_SUPPRESSED)
| move_abandon s : s = S_QUEUED ∨ s = S_WRITE_STARTED → moves (Some s) (Some S_AMBIGUOUS).

(** What the writer relies on. A send that is not known raises; a claim starts a queued send,
    or suppresses it, and reports any other state; publishing ends a send that is being
    written and leaves one that has ended. *)
Class SendOwnerLaws (Own K : Type) `{SendOwner Own K} `{EqDecision K} := {
  so_state : K → Own → option SendState;
  so_inv : Own → Prop;
  claim_law k o : so_inv o → let '(r, o') := owner_claim k o in
    so_inv o' ∧ (∀ k', k' ≠ k → so_state k' o' = so_state k' o) ∧
    match so_state k o with
    | None => is_ok r = false ∧ so_state k o' = None
    | Some S_QUEUED => (r = Ok S_WRITE_STARTED ∧ so_state k o' = Some S_WRITE_STARTED)
                       ∨ (r = Ok S_SUPPRESSED ∧ so_state k o' = Some S_SUPPRESSED)
    | Some s => r = Ok s ∧ so_state k o' = Some s
    end;
  publish_law k outcome o : so_inv o → let '(r, o') := owner_publish k outcome o in
    so_inv o' ∧ (∀ k', k' ≠ k → so_state k' o' = so_state k' o) ∧
    match so_state k o with
    | None => is_ok r = false ∧ so_state k o' = None
    | Some S_QUEUED => r = Ok tt ∧ (so_state k o' = Some S_QUEUED ∨ so_state k o' = Some (state_of outcome))
    | Some S_WRITE_STARTED => r = Ok tt ∧ so_state k o' = Some (state_of outcome)
    | Some s => r = Ok tt ∧ so_state k o' = Some s
    end;
  diagnose_law k outcome o : so_inv o → let '(r, o') := owner_diagnose k outcome o in
    so_inv o' ∧ ∀ k', so_state k' o' = so_state k' o;
  release_law k o : so_inv o → let '(r, o') := owner_on_release k o in
    so_inv o' ∧ ∀ k', so_state k' o' = so_state k' o
}.

(** * Futures *)

Section writer.
Context {Own K : Type} `{Hlaws : SendOwnerLaws Own K}.

Record SendCompletion := mkSendCompletion { sc_send_key : K; sc_outcome : SendOutcome }.

(** [concurrent.futures.Future]: its states, and the methods that are used of it. *)
Inductive FutureState :=
| PENDING
| RUNNING
| CANCELLED
| CANCELLED_AND_NOTIFIED
| FINISHED (completion : SendCompletion).

Definition future_done (f : FutureState) : bool :=
  match f with PENDING | RUNNING => false | _ => true end.
Definition future_cancelled (f : FutureState) : bool :=
  match f with CANCELLED | CANCELLED_AND_NOTIFIED => true | _ => false end.
Definition future_cancel (f : FutureState) : FutureState :=
  match f with PENDING => CANCELLED | _ => f end.
Definition future_set_result (c : SendCompletion) (f : FutureState) : res string FutureState :=
  if future_done f then Err "InvalidStateError" else Ok (FINISHED c).
Definition future_set_running_or_notify_cancel (f : FutureState) : res string (bool * FutureState) :=
  match f with
  | CANCELLED => Ok (false, CANCELLED_AND_NOTIFIED)
  | PENDING => Ok (true, RUNNING)
  | _ => Err "Future in unexpected state"
  end.

(** * State *)

(** [OutboundQueueItem]; a payload [json.dumps] refuses is [None], and the token keeps
    whether it was released. *)
Record Item := mkItem {
  it_payload : option (list (string * json));
  it_send_key : K;
  it_future : FutureState;
  it_has_token : bool;
  it_token_released : bool;
  it_prepare_error : bool;
  it_encoded : option string;
  it_admission_class : AdmissionClass;
  it_reservation : option nat
}.

(** What the transport did for an item: the bytes a write got out and whether it returned,
    and whether a flush returned. *)
Inductive PhysicalEvent :=
| PWrite (i : nat) (bytes : string) (returned : bool)
| PFlush (i : nat) (returned : bool).

(** What other threads call between two steps of the writer's thread. *)
Inductive env_call :=
| EnvSubmit (payload : option (list (string * json))) (encoded : option string) (send_key : K) (has_token : bool)
    (kind : AdmissionClass) (rejection : SendOutcome)
| EnvCancel (i : nat)
| EnvClose
| EnvOwner (step : Own → Own).

Record Writer := mkWriter {
  w_owner : Own;
  w_items : list Item;
  w_queue : list (option nat);
  w_account : AdmissionAccount;
  w_started : bool;
  w_closed : bool;
  w_admission_failure : bool;
  w_log : list PhysicalEvent;
  w_faults : list (option nat);
  w_schedule : list (list env_call)
}.
Abbreviation writer A := (eff Writer string A).

Definition set_owner (o : Own) (w : Writer) : Writer :=
  mkWriter o (w_items w) (w_queue w) (w_account w) (w_started w) (w_closed w) (w_admission_failure w)
    (w_log w) (w_faults w) (w_schedule w).
Definition set_items (l : list Item) (w : Writer) : Writer :=
  mkWriter (w_owner w) l (w_queue w) (w_account w) (w_started w) (w_closed w) (w_admission_failure w)
    (w_log w) (w_faults w) (w_schedule w).
Definition set_queue (q : list (option nat)) (w : Writer) : Writer :=
  mkWriter (w_owner w) (w_items w) q (w_account w) (w_started w) (w_closed w) (w_admission_failure w)
    (w_log w) (w_faults w) (w_schedule w).
Definition set_account (a : AdmissionAccount) (w : Writer) : Writer :=
  mkWriter (w_owner w) (w_items w) (w_queue w) a (w_started w) (w_closed w) (w_admission_failure w)
    (w_log w) (w_faults w) (w_schedule w).
Definition set_flags (closed failure : bool) (w : Writer) : Writer :=
  mkWriter (w_owner w) (w_items w) (w_queue w) (w_account w) (w_started w) closed failure
    (w_log w) (w_faults w) (w_schedule w).
Definition set_transport (log : list PhysicalEvent) (faults : list (option nat)) (w : Writer) : Writer :=
  mkWriter (w_owner w) (w_items w) (w_queue w) (w_account w) (w_started w) (w_closed w) (w_admission_failure w)
    log faults (w_schedule w).
Definition set_schedule (s : list (list env_call)) (w : Writer) : Writer :=
  mkWriter (w_owner w) (w_items w) (w_queue w) (w_account w) (w_started w) (w_closed w) (w_admission_failure w)
    (w_log w) (w_faults w) s.

Definition item_future (f : FutureState) (it : Item) : Item :=
  mkItem (it_payload it) (it_send_key it) f (it_has_token it) (it_token_released it) (it_prepare_error it)
    (it_encoded it) (it_admission_class it) (it_reservation it).
Definition item_released (it : Item) : Item :=
  mkItem (it_payload it) (it_send_key it) (it_future it) (it_has_token it) true (it_prepare_error it)
    (it_encoded it) (it_admission_class it) (it_reservation it).
Definition item_encoded (encoded : option string) (error : bool) (it : Item) : Item :=
  mkItem (it_payload it) (it_send_key it) (it_future it) (it_has_token it) (it_token_released it) error
    encoded (it_admission_class it) (it_reservation it).
Definition item_reserved (r : option nat) (it : Item) : Item :=
  mkItem (it_payload it) (it_send_key it) (it_future it) (it_has_token it) (it_token_released it)
    (it_prepare_error it) (it_encoded it) (it_admission_class it) r.

(** [DedicatedOutboundWriter.__init__] and [start]. *)
Definition queue_maxsize (limits : AdmissionLimits) : Z := outbound_items limits + control_items limits + 1.
Definition new_writer (limits : AdmissionLimits) (o : Own) (faults : list (option nat)) (schedule : list (list env_call))
    : res string Writer :=
  let* account := new_account (outbound_items limits) (outbound_bytes limits) (control_items limits)
                    (control_bytes limits) "outbound" in
  Ok (mkWriter o [] [] account true false false [] faults schedule).

(** [eff] code that runs on the owners, on an item, and that catches what it calls. *)
Definition on_owner {A} (c : eff Own string A) : writer A := λ w,
  let '(r, o) := c (w_owner w) in (r, set_owner o w).
Definition get_item (i : nat) : writer Item := λ w,
  match w_items w !! i with Some it => (Ok it, w) | None => (Err "no such item", w) end.
Definition put_item (i : nat) (f : Item → Item) : writer unit := λ w,
  (Ok tt, set_items (alter f i (w_items w)) w).
Definition eff_try {S E A} (c : eff S E A) (handler : E → eff S E A) : eff S E A := λ s,
  match c s with (Ok a, s') => (Ok a, s') | (Err e, s') => handler e s' end.
Definition eff_finally {S E A} (c : eff S E A) (last : eff S E unit) : eff S E A := λ s,
  let '(r, s1) := c s in
  match last s1 with (Ok _, s2) => (r, s2) | (Err e, s2) => (Err e, s2) end.

Definition set_result (i : nat) (outcome : SendOutcome) : writer unit :=
  let! it := get_item i in λ w,
  match future_set_result (mkSendCompletion (it_send_key it) outcome) (it_future it) with
  | Ok f => put_item i (item_future f) w
  | Err e => (Err e, w)
  end.

(** [if not future.done(): future.set_result(...)]. *)
Definition complete_if_pending (i : nat) (outcome : SendOutcome) : writer unit :=
  let! it := get_item i in
  if future_done (it_future it) then eff_ret tt else set_result i outcome.

(** [WriterToken.release], if the item has a token. *)
Definition release_token (i : nat) : writer unit :=
  let! it := get_item i in
  if negb (it_has_token it) || it_token_released it then eff_ret tt
  else put_item i item_released ;;! on_owner (owner_on_release (it_send_key it)).

Definition classify_physical_outcome (preparation_error write_started write_error flush_error : bool) : SendOutcome :=
  if preparation_error && negb write_started then O_CONCLUSIVE_FAILURE
  else if write_error || flush_error then O_AMBIGUOUS
  else O_FLUSHED.

(** * Submitting and closing *)

(** [_fail_closed]; [pause] lets other threads run. What is raised after the future is
    completed is raised at the end. *)
Definition fail_closed (pause : writer unit) (i : nat) (outcome : SendOutcome) : writer unit :=
  let! it := get_item i in
  let key := it_send_key it in
  let! settled :=
    eff_try
      (pause ;;! on_owner (owner_publish key outcome) ;;!
       let! o := eff_try (pause ;;! let! current := on_owner (owner_claim key) in
                          eff_ret (default outcome (outcome_of current)))
                   (λ _, eff_ret outcome) in
       eff_ret (Ok o))
      (λ e, eff_ret (Err e)) in
  pause ;;!
  complete_if_pending i (match settled with Ok o => o | Err _ => outcome end) ;;!
  pause ;;!
  release_token i ;;!
  match settled with Ok _ => eff_ret tt | Err e => eff_raise e end.

Definition encode_item (it : Item) : Item :=
  if it_prepare_error it || bool_decide (is_Some (it_encoded it)) then it
  else match it_payload it with
       | None => item_encoded None true it
       | Some payload => item_encoded (Some (json_dumps_plain "," ":" (JObject payload) +:+ String NEWLINE "")) false it
       end.

Section bounded.
Context (limits : AdmissionLimits).

Definition put_nowait (x : option nat) : writer unit := λ w,
  if queue_maxsize limits <=? Z.of_nat (length (w_queue w)) then (Err "queue.Full", w)
  else (Ok tt, set_queue (w_queue w ++ [x]) w).

Definition reserve (i : nat) : writer (option nat) :=
  let! it := get_item i in
  if it_prepare_error it then eff_ret None
  else match it_encoded it with
       | None => eff_raise "AssertionError"
       | Some data => λ w,
           let '(r, a) := try_reserve 1 (Z.of_nat (String.length data)) (it_admission_class it) (w_account w) in
           (r, set_account a w)
       end.

(** The part of [submit] after a message was not admitted. *)
Definition refuse (i : nat) : writer unit :=
  let! it := get_item i in
  let outcome :=
    if future_cancelled (it_future it)
       || (negb (it_prepare_error it) && bool_decide (it_admission_class it = ORDINARY))
    then O_SUPPRESSED else O_CONCLUSIVE_FAILURE in
  fail_closed (eff_ret tt) i outcome ;;!
  let! it := get_item i in
  if negb (it_prepare_error it) && bool_decide (it_admission_class it = REQUIRED)
     && negb (future_cancelled (it_future it))
  then λ w, (Ok tt, set_flags (w_closed w) true w) else eff_ret tt.

(** [submit] of the item at position [i]. *)
Definition submit (i : nat) : writer unit :=
  put_item i encode_item ;;! λ w,
  if w_closed w then (Err "dedicated outbound writer is closed", w)
  else if negb (w_started w) then (Err "dedicated outbound writer not started", w)
  else
    (let! reserved := reserve i in
     put_item i (item_reserved reserved) ;;!
     match reserved with
     | Some _ => put_nowait (Some i)
     | None => refuse i
     end) w.

(** [_submit_dedicated] (src/optimus/acp/server.py), through which every message is
    submitted: a message the writer did not take is completed as rejected. *)
Definition submit_dedicated (i : nat) (rejection : SendOutcome) : writer unit :=
  eff_try (submit i) (λ e,
    let! it := get_item i in
    (if bool_decide (it_reservation it = None)
        && negb (match it_future it with RUNNING => true | _ => false end) then
       eff_try (on_owner (owner_publish (it_send_key it) rejection)) (λ _, eff_ret tt) ;;!
       eff_try (complete_if_pending i rejection) (λ _, eff_ret tt) ;;!
       eff_try (release_token i) (λ _, eff_ret tt)
     else eff_ret tt) ;;!
    eff_raise e).

Definition request_close : writer unit := λ w,
  if w_closed w then (Ok tt, w)
  else match put_nowait None (set_flags true (w_admission_failure w) w) with
       | (Ok _, w') => (Ok tt, set_account (account_close (w_account w')) w')
       | (Err e, w') => (Err e, w')
       end.

(** * Other threads *)

Definition new_item payload encoded send_key has_token kind : Item :=
  mkItem payload send_key PENDING has_token false false encoded kind None.

Definition env_step (w : Writer) (c : env_call) : Writer :=
  match c with
  | EnvSubmit payload encoded send_key has_token kind rejection =>
      (submit_dedicated (length (w_items w)) rejection
         (set_items (w_items w ++ [new_item payload encoded send_key has_token kind]) w)).2
  | EnvCancel i => set_items (alter (λ it, item_future (future_cancel (it_future it)) it) i (w_items w)) w
  | EnvClose => (request_close w).2
  | EnvOwner step => set_owner (step (w_owner w)) w
  end.

(** The next entry of the schedule. *)
Definition interfere : writer unit := λ w,
  match w_schedule w with
  | [] => (Ok tt, w)
  | calls :: rest => (Ok tt, foldl env_step (set_schedule rest w) calls)
  end.

(** * The writer's thread *)

(** The transport's [write_bytes] and [flush]. *)
Definition write_bytes (i : nat) (data : string) : writer unit := λ w,
  match default None (head (w_faults w)) with
  | None => (Ok tt, set_transport (w_log w ++ [PWrite i data true]) (tail (w_faults w)) w)
  | Some n => (Err "write", set_transport (w_log w ++ [PWrite i (String.substring 0 n data) false]) (tail (w_faults w)) w)
  end.
Definition transport_flush (i : nat) : writer unit := λ w,
  match default None (head (w_faults w)) with
  | None => (Ok tt, set_transport (w_log w ++ [PFlush i true]) (tail (w_faults w)) w)
  | Some _ => (Err "flush", set_transport (w_log w ++ [PFlush i false]) (tail (w_faults w)) w)
  end.

(** Whether a call raised. *)
Definition raised {A} (c : writer A) : writer bool := eff_try (c ;;! eff_ret false) (λ _, eff_ret true).

Definition set_running (i : nat) : writer bool :=
  let! it := get_item i in λ w,
  match future_set_running_or_notify_cancel (it_future it) with
  | Ok (running, f) => (Ok running, set_items (alter (item_future f) i (w_items w)) w)
  | Err e => (Err e, w)
  end.

(** The physical write of an item and how it went. *)
Definition write_out (i : nat) (it : Item) : writer SendOutcome :=
  if it_prepare_error it then eff_ret O_CONCLUSIVE_FAILURE
  else match it_encoded it with
  | None => eff_raise "AssertionError"
  | Some data =>
      let! write_error := raised (interfere ;;! write_bytes i data) in
      let! flush_error := (if write_error then eff_ret false else raised (interfere ;;! transport_flush i)) in
      eff_ret (classify_physical_outcome false true write_error flush_error)
  end.

(** The outcome that is authoritative once the write is over. *)
Definition settle_outcome (key : K) (outcome : SendOutcome) : writer SendOutcome :=
  eff_try
    (interfere ;;!
     let! current := on_owner (owner_claim key) in
     match current with
     | S_AMBIGUOUS =>
         (if decide (outcome = O_AMBIGUOUS) then eff_ret tt
          else interfere ;;! on_owner (owner_diagnose key outcome)) ;;!
         eff_ret O_AMBIGUOUS
     | S_SUPPRESSED => eff_ret O_SUPPRESSED
     | S_FLUSHED => eff_ret O_FLUSHED
     | S_CONCLUSIVE_FAILURE => eff_ret O_CONCLUSIVE_FAILURE
     | S_QUEUED | S_WRITE_STARTED =>
         interfere ;;! on_owner (owner_publish key outcome) ;;! eff_ret outcome
     end)
    (λ _, eff_try (interfere ;;! on_owner (owner_publish key O_AMBIGUOUS)) (λ _, eff_ret tt) ;;!
          eff_ret O_AMBIGUOUS).

Definition process_item (i : nat) : writer unit :=
  let! it := get_item i in
  let key := it_send_key it in
  interfere ;;!
  let! running := set_running i in
  if negb running then
    interfere ;;! on_owner (owner_publish key O_SUPPRESSED) ;;!
    interfere ;;! complete_if_pending i O_SUPPRESSED ;;!
    interfere ;;! release_token i
  else
    interfere ;;!
    let! state := on_owner (owner_claim key) in
    if decide (state = S_SUPPRESSED) then
      interfere ;;! set_result i O_SUPPRESSED ;;! interfere ;;! release_token i
    else
      let! outcome := write_out i it in
      let! authoritative := settle_outcome key outcome in
      interfere ;;! set_result i authoritative ;;! interfere ;;! release_token i.

(** [item.reservation.release()]. *)
Definition release_reservation (i : nat) : writer unit :=
  let! it := get_item i in
  match it_reservation it with
  | Some r => λ w, (Ok tt, set_account (release r (w_account w)) w)
  | None => eff_ret tt
  end.

(** One turn of [_run] for an item: whatever is raised, the reservation is released. *)
Definition serve (i : nat) : writer unit :=
  eff_finally
    (eff_try (process_item i) (λ _, eff_try (fail_closed interfere i O_AMBIGUOUS) (λ _, eff_ret tt)))
    (interfere ;;! release_reservation i).

(** [self._queue.get()]: the queue's head, as soon as there is one; [None] if nothing ever
    comes, which leaves the thread waiting. The schedule's length is enough fuel. *)
Fixpoint get_loop (fuel : nat) (w : Writer) : option (option nat) * Writer :=
  match w_queue w with
  | x :: rest => (Some x, set_queue rest w)
  | [] => match fuel with
          | O => (None, w)
          | S fuel' => get_loop fuel' (interfere w).2
          end
  end.
Definition queue_get (w : Writer) : option (option nat) * Writer := get_loop (length (w_schedule w)) w.

(** [_run]: ends at the sentinel ([true]) or waits for ever ([false]); [None] is fuel that
    ran out. *)
Fixpoint run (fuel : nat) (w : Writer) : option (bool * Writer) :=
  match fuel with
  | O => None
  | S fuel' =>
      match queue_get w with
      | (None, w') => Some (false, w')
      | (Some None, w') => Some (true, w')
      | (Some (Some i), w') => run fuel' (serve i w').2
      end
  end.
End bounded.
End writer.

(** * The thread comes to an end *)

Section progress.
Context {Own K : Type} `{Hlaws : SendOwnerLaws Own K} (limits : AdmissionLimits).
Implicit Types (w : Writer (Own:=Own) (K:=K)).

(** A call of another thread: leaves the schedule, and adds no more than [n] to the queue. *)
Definition adds {A} (n : nat) (c : eff (Writer (Own:=Own) (K:=K)) string A) : Prop :=
  ∀ w, w_schedule (c w).2 = w_schedule w ∧ (length (w_queue (c w).2) ≤ length (w_queue w) + n)%nat.

(** What the thread has still to do: what is queued, and what may come. *)
Definition work w : nat := length (w_queue w) + length (mjoin (w_schedule w)).
Definition calm {A} (c : eff (Writer (Own:=Own) (K:=K)) string A) : Prop := ∀ w, (work (c w).2 ≤ work w)%nat.

Lemma adds_bind {A B} n m (c : eff _ string A) (k : A → eff _ string B) :
  adds n c → (∀ a, adds m (k a)) → adds (n + m) (eff_bind c k).
Proof.
  intros Hc Hk w. unfold eff_bind. specialize (Hc w). destruct (c w) as [[a|e] w1]; simpl in *; [|split; [apply Hc|lia]].
  destruct (Hk a w1) as [-> ?]. split; [apply Hc|lia].
Qed.
Lemma adds_try {A} n m (c : eff _ string A) h : adds n c → (∀ e, adds m (h e)) → adds (n + m) (eff_try c h).
Proof.
  intros Hc Hk w. unfold eff_try. specialize (Hc w). destruct (c w) as [[a|e] w1]; simpl in *; [split; [apply Hc|lia]|].
  destruct (Hk e w1) as [-> ?]. split; [apply Hc|lia].
Qed.
Lemma calm_bind {A B} (c : eff _ string A) (k : A → eff _ string B) : calm c → (∀ a, calm (k a)) → calm (eff_bind c k).
Proof.
  intros Hc Hk w. unfold eff_bind. specialize (Hc w). destruct (c w) as [[a|e] w1]; simpl in *; [|done]. specialize (Hk a w1). lia.
Qed.
Lemma calm_try {A} (c : eff _ string A) h : calm c → (∀ e, calm (h e)) → calm (eff_try c h).
Proof.
  intros Hc Hk w. unfold eff_try. specialize (Hc w). destruct (c w) as [[a|e] w1]; simpl in *; [done|]. specialize (Hk e w1). lia.
Qed.
Lemma adds_calm {A} (c : eff _ string A) : adds 0 c → calm c.
Proof. intros Hc w. destruct (Hc w) as [Hs Hq]. unfold work. rewrite Hs. lia. Qed.

(** Steps that leave the queue. *)
Lemma adds_ret {A} (a : A) : adds 0 (eff_ret a).
Proof. intros w. simpl. split; [done|lia]. Qed.
Lemma adds_raise {A} e : adds 0 (eff_raise (A:=A) e).
Proof. intros w. simpl. split; [done|lia]. Qed.
Lemma adds_owner {A} (c : eff Own string A) : adds 0 (on_owner c).
Proof. intros w. unfold on_owner. destruct (c (w_owner w)). simpl. split; [done|lia]. Qed.
Lemma adds_get i : adds 0 (get_item i).
Proof. intros w. unfold get_item. case_match; (split; [done|simpl; lia]). Qed.
Lemma adds_put i f : adds 0 (put_item i f).
Proof. intros w. simpl. split; [done|lia]. Qed.
Lemma adds_result i outcome : adds 0 (set_result i outcome).
Proof. apply (adds_bind 0 0); [apply adds_get|]. intros it w. case_match; simpl; (split; [done|lia]). Qed.
Lemma adds_complete i outcome : adds 0 (complete_if_pending i outcome).
Proof. apply (adds_bind 0 0); [apply adds_get|]. intros it. case_match; [apply adds_ret|apply adds_result]. Qed.
Lemma adds_token i : adds 0 (release_token i).
Proof.
  apply (adds_bind 0 0); [apply adds_get|]. intros it. case_match; [apply adds_ret|].
  apply (adds_bind 0 0); [apply adds_put|]. intros _. apply adds_owner.
Qed.
Lemma adds_running i : adds 0 (set_running i).
Proof. apply (adds_bind 0 0); [apply adds_get|]. intros it w. repeat case_match; simpl; (split; [done|lia]). Qed.
Lemma adds_write i data : adds 0 (write_bytes i data).
Proof. intros w. unfold write_bytes. case_match; simpl; (split; [done|lia]). Qed.
Lemma adds_flush i : adds 0 (transport_flush i).
Proof. intros w. unfold transport_flush. case_match; simpl; (split; [done|lia]). Qed.
Lemma adds_release i : adds 0 (release_reservation i).
Proof. apply (adds_bind 0 0); [apply adds_get|]. intros it. case_match; [|apply adds_ret]. intros w. simpl. split; [done|lia]. Qed.
Lemma adds_reserve i : adds 0 (reserve i).
Proof.
  apply (adds_bind 0 0); [apply adds_get|]. intros it. case_match; [apply adds_ret|]. case_match; [|apply adds_raise].
  intros w. destruct (try_reserve _ _ _ _). simpl. split; [done|lia].
Qed.
Lemma adds_queue x : adds 1 (put_nowait limits x).
Proof. intros w. unfold put_nowait. case_match; simpl; rewrite ?length_app; simpl; (split; [done|lia]). Qed.
#[local] Hint Resolve adds_ret adds_raise adds_owner adds_get adds_put adds_result adds_complete adds_token adds_running
  adds_write adds_flush adds_release adds_reserve : core.
#[local] Hint Resolve adds_calm : core.

Ltac quiet := repeat first
  [ solve [auto]
  | match goal with
    | |- ∀ _, _ => intros ?
    | |- adds 0 (eff_bind _ _) => apply (adds_bind 0 0)
    | |- adds 0 (eff_try _ _) => apply (adds_try 0 0)
    | |- calm (eff_bind _ _) => apply calm_bind
    | |- calm (eff_try _ _) => apply calm_try
    end
  | progress cbv zeta
  | case_match ].

Lemma adds_fail_closed i outcome : adds 0 (fail_closed (eff_ret tt) i outcome).
Proof. unfold fail_closed. quiet. Qed.
Lemma calm_fail_closed pause i outcome : calm pause → calm (fail_closed pause i outcome).
Proof. intros Hp. unfold fail_closed. quiet. Qed.
#[local] Hint Resolve adds_fail_closed calm_fail_closed : core.

Lemma adds_refuse i : adds 0 (refuse i).
Proof. unfold refuse. quiet. intros w. simpl. split; [done|lia]. Qed.
#[local] Hint Resolve adds_refuse : core.

Lemma adds_submit i : adds 1 (submit limits i).
Proof.
  apply (adds_bind 0 1); [auto|]. intros _ w. destruct (w_closed w); [simpl; split; [done|lia]|].
  destruct (negb (w_started w)); [simpl; split; [done|lia]|].
  revert w. apply (adds_bind 0 1); [auto|]. intros r. apply (adds_bind 0 1); [auto|]. intros _.
  case_match; [apply adds_queue|]. intros w. destruct (adds_refuse i w). split; [done|lia].
Qed.
Lemma adds_submit_dedicated i rejection : adds 1 (submit_dedicated limits i rejection).
Proof. apply (adds_try 1 0); [apply adds_submit|]. quiet. Qed.

Lemma env_step_work w c : w_schedule (env_step limits w c) = w_schedule w
  ∧ (length (w_queue (env_step limits w c)) ≤ length (w_queue w) + 1)%nat.
Proof.
  destruct c as [payload enc k t kind rejection|i| |step]; simpl; try (split; [done|lia]).
  - by destruct (adds_submit_dedicated (length (w_items w)) rejection (set_items (w_items w ++ [new_item payload enc k t kind]) w)).
  - unfold request_close. case_match; [simpl; split; [done|lia]|].
    destruct (adds_queue None (set_flags true (w_admission_failure w) w)) as [Hs Hq]. by destruct (put_nowait _ _ _) as [[] ?].
Qed.

Lemma env_steps_work calls : ∀ w, w_schedule (foldl (env_step limits) w calls) = w_schedule w
  ∧ (length (w_queue (foldl (env_step limits) w calls)) ≤ length (w_queue w) + length calls)%nat.
Proof.
  induction calls as [|c calls IH]; intros w; simpl; [split; [done|lia]|].
  destruct (IH (env_step limits w c)) as [-> ?]. destruct (env_step_work w c) as [-> ?]. split; [done|lia].
Qed.

Lemma interfere_work w : w_schedule (interfere limits w).2 = tail (w_schedule w) ∧ (work (interfere limits w).2 ≤ work w)%nat.
Proof.
  unfold interfere, work. destruct (w_schedule w) as [|calls rest] eqn:Hs; simpl; [by rewrite Hs|].
  destruct (env_steps_work calls (set_schedule rest w)) as [-> Hq]. simpl in *. split; [done|]. rewrite length_app. lia.
Qed.
Lemma calm_interfere : calm (interfere limits).
Proof. intros w. apply interfere_work. Qed.
#[local] Hint Resolve calm_interfere : core.

Lemma calm_serve i : calm (serve limits i).
Proof.
  assert (calm (eff_try (process_item limits i) (λ _, eff_try (fail_closed (interfere limits) i O_AMBIGUOUS) (λ _, eff_ret tt)))) as Hc.
  { unfold process_item, write_out, settle_outcome, raised. quiet. }
  intros w. unfold serve, eff_finally. specialize (Hc w). destruct (eff_try _ _ w) as [r w1]. simpl in Hc.
  assert (calm (interfere limits ;;! release_reservation i)) as Hl by quiet. specialize (Hl w1).
  destruct ((interfere limits ;;! release_reservation i) w1) as [[] w2]; simpl in *; lia.
Qed.

(** The queue's head, or nothing that will ever come. *)
Lemma get_loop_spec (P : Writer → Prop) fuel w : (∀ w, P w → P (interfere limits w).2) → P w → (length (w_schedule w) ≤ fuel)%nat →
  ∃ w0, P w0 ∧ (work w0 ≤ work w)%nat ∧
    match get_loop limits fuel w with
    | (None, w') => w' = w0 ∧ w_queue w0 = [] ∧ w_schedule w0 = []
    | (Some x, w') => ∃ rest, w_queue w0 = x :: rest ∧ w' = set_queue rest w0
    end.
Proof.
  intros Hi. revert w. induction fuel as [|fuel IH]; intros w Hw Hf; simpl; destruct (w_queue w) as [|x rest] eqn:Hq.
  - exists w. split; [done|]. split; [done|]. split; [done|]. split; [done|]. destruct (w_schedule w); simpl in *; [done|lia].
  - exists w. split; [done|]. split; [done|]. by exists rest.
  - destruct (interfere_work w) as [Hs Hwk]. destruct (IH (interfere limits w).2) as (w0 & ? & ? & ?); [by apply Hi| |].
    + rewrite Hs. destruct (w_schedule w); simpl in *; lia.
    + exists w0. split; [done|]. split; [lia|done].
  - exists w. split; [done|]. split; [done|]. by exists rest.
Qed.
End progress.

(** * The invariant *)

Section proofs.
Context {Own K : Type} `{Hlaws : SendOwnerLaws Own K} (limits : AdmissionLimits).
(** The keys of the sends that are ever submitted, in order. *)
Context (keys : list K) (Hkeys : NoDup keys).
Implicit Types (w : Writer (Own:=Own) (K:=K)) (it : Item (K:=K)) (i : nat) (l : list PhysicalEvent).

Definition event_item (e : PhysicalEvent) : nat := match e with PWrite i _ _ | PFlush i _ => i end.
Definition log_of i (l : list PhysicalEvent) : list PhysicalEvent := filter (λ e, event_item e = i) l.

(** What may be known of an item: its record, what the transport did for it, and the
    state of its send. *)
Definition Phase : Type := Item (K:=K) → list PhysicalEvent → option SendState → Prop.
Definition phase_at (ph : Phase) w i it : Prop :=
  ph it (log_of i (w_log w)) (so_state (it_send_key it) (w_owner w)).

(** What other threads may do to an item: cancel its future while that is pending, and
    move its send. *)
Definition stable (ph : Phase) : Prop :=
  (∀ it l s, ph it l s → it_future it = PENDING → ph (item_future CANCELLED it) l s) ∧
  (∀ it l s s', ph it l s → moves s s' → ph it l s').

(** No other item's outcome: the send is not known to have been written or to have failed. *)
Definition early (s : option SendState) : Prop := s ≠ Some S_FLUSHED ∧ s ≠ Some S_CONCLUSIVE_FAILURE.

(** What an outcome says about the bytes: flushed, that all were written and flushed, once;
    suppressed or failed, that none was written; ambiguous, that they were written at most once
    and nothing after them. *)
Definition tells i (data : string) (outcome : SendOutcome) l : Prop :=
  match outcome with
  | O_FLUSHED => l = [PWrite i data true; PFlush i true]
  | O_SUPPRESSED | O_CONCLUSIVE_FAILURE => l = []
  | O_AMBIGUOUS => l = [] ∨ (∃ n, l = [PWrite i (String.substring 0 n data) false])
      ∨ ∃ flushed, l = [PWrite i data true; PFlush i flushed]
  end.

(** In the queue; and at the end. *)
Definition waiting : Phase := λ it l s,
  (it_future it = PENDING ∨ it_future it = CANCELLED) ∧ l = [] ∧ early s ∧ it_token_released it = false.
Definition reported i : Phase := λ it l s,
  (∃ outcome, it_future it = FINISHED (mkSendCompletion (it_send_key it) outcome)
     ∧ tells i (default "" (it_encoded it)) outcome l
     ∧ (outcome = O_FLUSHED → s = Some S_FLUSHED ∨ s = Some S_AMBIGUOUS))
  ∨ (future_cancelled (it_future it) = true ∧ l = []).
(** The owner knows a send as flushed only if it was. *)
Definition honest i (data : string) l (s : option SendState) : Prop :=
  s = Some S_FLUSHED → l = [PWrite i data true; PFlush i true].
Definition completed i : Phase := λ it l s, reported i it l s ∧ honest i (default "" (it_encoded it)) l s.
Definition ended i : Phase := λ it l s, completed i it l s ∧ (it_has_token it = true → it_token_released it = true).

(** Custody: the item is ready to be written and holds a reservation of its size. *)
Definition holds w it : Prop :=
  it_prepare_error it = false ∧ ∃ data r, it_encoded it = Some data ∧ it_reservation it = Some r
  ∧ aa_reservations (w_account w) !! r = Some (mkReservation 1 (Z.of_nat (String.length data)) false).

Definition submitted_key (c : env_call (Own:=Own) (K:=K)) : option K :=
  match c with EnvSubmit _ _ k _ _ _ => Some k | _ => None end.
(** What is asked of other threads: owners move sends lawfully, and a rejection does not
    claim delivery. *)
Definition env_ok (c : env_call (Own:=Own) (K:=K)) : Prop :=
  match c with
  | EnvOwner step => ∀ o, so_inv o → so_inv (step o) ∧ ∀ k, moves (so_state k o) (so_state k (step o))
  | EnvSubmit _ _ _ _ _ rejection => rejection ≠ O_FLUSHED
  | _ => True
  end.

Definition calls_left (rest : list env_call) w : list env_call := (rest ++ mjoin (w_schedule w))%list.

(** The state between two steps: [acts] are the items that are being worked on, with what is
    known of each, [cu] those of them in custody, [q] the items in the queue, and [rest]
    the calls of the current entry of the schedule that are still to come. *)
Record winv (acts : list (nat * Phase)) (cu q : list nat) (rest : list env_call) w : Prop := {
  wi_queue : w_queue w = ((Some <$> q) ++ (if w_closed w then [None] else []))%list;
  wi_started : w_started w = true;
  wi_owner : so_inv (w_owner w);
  wi_ids : StronglySorted Nat.lt (cu ++ q);
  wi_acts : NoDup (acts.*1 ++ q);
  wi_range : ∀ i, i ∈ (acts.*1 ++ q)%list → (i < length (w_items w))%nat;
  wi_cu : cu ⊆ acts.*1;
  wi_holds : ∀ i it, i ∈ (cu ++ q)%list → w_items w !! i = Some it → holds w it;
  wi_distinct : ∀ i j it it', i ∈ (cu ++ q)%list → j ∈ (cu ++ q)%list → w_items w !! i = Some it →
    w_items w !! j = Some it' → it_reservation it = it_reservation it' → i = j;
  wi_unreleased : ∀ r rv, aa_reservations (w_account w) !! r = Some rv → rv_released rv = false →
    ∃ i it, i ∈ (cu ++ q)%list ∧ w_items w !! i = Some it ∧ it_reservation it = Some r;
  wi_count : aa_count (w_account w) = Z.of_nat (length (cu ++ q));
  wi_account : account_inv (w_account w);
  wi_limits : aa_count_limit (w_account w) = outbound_items limits
    ∧ aa_reserved_count (w_account w) = control_items limits;
  wi_waiting : ∀ i it, i ∈ q → w_items w !! i = Some it → phase_at waiting w i it;
  wi_active : ∀ i ph it, (i, ph) ∈ acts → w_items w !! i = Some it → phase_at ph w i it;
  wi_stable : Forall (λ a, stable a.2) acts;
  wi_settled : ∀ i it, w_items w !! i = Some it → i ∉ (acts.*1 ++ q)%list → phase_at (ended i) w i it;
  wi_keys : ((it_send_key <$> w_items w) ++ omap submitted_key (calls_left rest w))%list = keys;
  wi_early : ∀ k, k ∉ it_send_key <$> w_items w → early (so_state k (w_owner w));
  wi_env : Forall env_ok (calls_left rest w);
  wi_log : StronglySorted Nat.le (event_item <$> w_log w);
  wi_log_range : ∀ e, e ∈ w_log w → (event_item e < length (w_items w))%nat
    ∧ (∀ i, i ∈ cu → (event_item e ≤ i)%nat) ∧ ∀ i, i ∈ q → (event_item e < i)%nat
}.

(** ** Phases *)

#[local] Instance moves_trans : Transitive moves.
Proof.
  intros a b c Hab Hbc. inversion Hab; inversion Hbc; subst; simplify_eq; try (by constructor); try naive_solver;
    try (by apply move_create); by apply move_abandon; auto.
Qed.

Lemma early_moves s s' : early s → moves s s' → early s'.
Proof. unfold early. intros [? ?] Hm. inversion Hm; subst; split; try done; naive_solver. Qed.

Lemma waiting_stable : stable waiting.
Proof.
  split.
  - intros it l s (_ & ? & ? & ?) _. split; [by right|done].
  - intros it l s s' (? & ? & He & ?) Hm. repeat split; try done; by apply (early_moves s s').
Qed.

Lemma reported_stable i : stable (reported i).
Proof.
  split.
  - intros it l s [(oc & Hf & _)|(Hc & ?)] Hp; [congruence|]. by rewrite Hp in Hc.
  - intros it l s s' [(oc & Hf & Ht & Hs)|Hc] Hm; [left|by right]. exists oc. split; [done|]. split; [done|].
    intros Ho. destruct (Hs Ho) as [->| ->]; inversion Hm; subst; naive_solver.
Qed.

Lemma honest_moves i data l s s' : honest i data l s → moves s s' → honest i data l s'.
Proof. unfold honest. intros Hh Hm. inversion Hm; subst; try naive_solver. Qed.

Lemma completed_stable i : stable (completed i).
Proof.
  destruct (reported_stable i) as [H1 H2]. split.
  - intros it l s [? ?] Hp. split; [by apply H1|done].
  - intros it l s s' [? ?] Hm. split; [by eapply H2|by eapply honest_moves].
Qed.

Lemma ended_stable i : stable (ended i).
Proof.
  destruct (completed_stable i) as [H1 H2]. split.
  - intros it l s [? ?] Hp. split; [by apply H1|done].
  - intros it l s s' [? ?] Hm. split; [by apply (H2 it l s)|done].
Qed.

(** ** Changing one item *)

Definition statics it := (it_send_key it, it_has_token it, it_prepare_error it, it_encoded it, it_reservation it).

Definition same_rest w w' : Prop :=
  w_queue w' = w_queue w ∧ w_account w' = w_account w ∧ w_started w' = w_started w ∧ w_closed w' = w_closed w
  ∧ w_schedule w' = w_schedule w.

Lemma send_keys_alter f i (items : list (Item (K:=K))) : (∀ it, it_send_key (f it) = it_send_key it) →
  it_send_key <$> alter f i items = it_send_key <$> items.
Proof.
  intros Hf. revert i. induction items as [|it items IH]; intros [|i]; try done.
  - change (it_send_key (f it) :: (it_send_key <$> items) = it_send_key it :: (it_send_key <$> items)).
    by rewrite Hf.
  - change (it_send_key it :: (it_send_key <$> alter f i items) = it_send_key it :: (it_send_key <$> items)).
    by rewrite IH.
Qed.

(** Items with the same key are the same item. *)
Lemma keys_inj acts cu q rest w i j it it' : winv acts cu q rest w → w_items w !! i = Some it → w_items w !! j = Some it' →
  it_send_key it = it_send_key it' → i = j.
Proof.
  intros Hw Hi Hj Hk. pose proof Hkeys as Hnd. rewrite <- (wi_keys _ _ _ _ _ Hw) in Hnd. apply NoDup_app in Hnd as [Hnd _].
  apply (NoDup_lookup (it_send_key <$> w_items w) i j (it_send_key it) Hnd); rewrite list_lookup_fmap; [by rewrite Hi|].
  rewrite Hj. simpl. by rewrite Hk.
Qed.

Lemma keys_fresh acts cu q rest w i it k : winv acts cu q rest w → w_items w !! i = Some it →
  k ∈ omap submitted_key (calls_left rest w) → k ≠ it_send_key it.
Proof.
  intros Hw Hi Hk ->. pose proof Hkeys as Hnd. rewrite <- (wi_keys _ _ _ _ _ Hw) in Hnd. apply NoDup_app in Hnd as (_ & Hd & _). apply (Hd (it_send_key it)); [|done].
  apply list_elem_of_fmap. exists it. split; [done|]. by eapply list_elem_of_lookup_2.
Qed.

(** One item moves from one phase to the next: its own record, its own send and its own part
    of the log change. *)
Lemma winv_touch i ph ph' acts cu q rest w w' f :
  winv ((i, ph) :: acts) cu q rest w → same_rest w w' → w_items w' = alter f i (w_items w) →
  (∀ it, it_send_key (f it) = it_send_key it) → (i ∉ cu ∨ ∀ it, statics (f it) = statics it) → so_inv (w_owner w') →
  (∀ it k, w_items w !! i = Some it → k ≠ it_send_key it → so_state k (w_owner w') = so_state k (w_owner w)) →
  (∀ j, j ≠ i → log_of j (w_log w') = log_of j (w_log w)) →
  StronglySorted Nat.le (event_item <$> w_log w') →
  (∀ e, e ∈ w_log w' → e ∈ w_log w ∨ event_item e = i ∧ cu = [i]) →
  stable ph' → (∀ it, w_items w !! i = Some it → phase_at ph w i it →
    ph' (f it) (log_of i (w_log w')) (so_state (it_send_key it) (w_owner w'))) →
  winv ((i, ph') :: acts) cu q rest w'.
Proof.
  intros Hw (Eq & Ea & Es & Ec & Esch) Ei Hf Hfs Ho Hk Hlog Hsort Hev Hst Hph. pose proof Hw as [].
  assert (i ∉ q) as Hiq by (intros Hi; simpl in wi_acts0; apply NoDup_cons in wi_acts0 as [Hn _]; apply Hn, elem_of_app; by right).
  assert (∀ it, i ∈ (cu ++ q)%list → statics (f it) = statics it) as Hf'
    by (intros it [Hi|Hi]%elem_of_app; [by destruct Hfs|done]).
  (* every item of the new state comes from one of the old *)
  assert (∀ j it', w_items w' !! j = Some it' → ∃ it, w_items w !! j = Some it ∧ (j ∈ (cu ++ q)%list → statics it' = statics it) ∧ (j ≠ i → it' = it) ∧ (j = i → it' = f it)) as Hback.
  { intros j it' Hj. rewrite Ei in Hj. destruct (decide (j = i)) as [->|Hne].
    - rewrite list_lookup_alter_eq in Hj. destruct (w_items w !! i) as [it|]; [|done]. simplify_eq/=. exists it. split; [done|]. split; [apply Hf'|done].
    - rewrite list_lookup_alter_ne in Hj by done. by exists it'. }
  assert (∀ j it it', w_items w !! j = Some it → w_items w !! i = Some it' → j ≠ i → it_send_key it ≠ it_send_key it') as Hne
    by (intros j it it' Hj Hi Hji Heq; apply Hji; by eapply keys_inj).
  assert (∀ (P : Phase) j it, j ≠ i → w_items w !! j = Some it → phase_at P w j it → phase_at P w' j it) as Hother.
  { intros P j it Hji Hj HP. unfold phase_at in *. rewrite Hlog by done.
    destruct (w_items w !! i) as [it'|] eqn:Hi; [rewrite (Hk it') by (done || by eapply Hne); done|].
    exfalso. apply lookup_ge_None in Hi. specialize (wi_range0 i ltac:(by left)). lia. }
  assert (∀ j, j ∈ (cu ++ q)%list → j = i ∨ j ≠ i) as Hdec by (intros j _; destruct (decide (j = i)); auto).
  constructor; rewrite ?Eq, ?Ea, ?Es, ?Ec, ?Esch; try done.
  - intros j Hj. rewrite Ei, length_alter. by apply wi_range0.
  - intros j it' Hj Hl. destruct (Hback j it' Hl) as (it & Hit & Hstat & _). specialize (wi_holds0 j it Hj Hit).
    specialize (Hstat Hj). unfold holds, statics in *. injection Hstat as _ _ S3 S4 S5. by rewrite Ea, S3, S4, S5.
  - intros j k it' it2' Hj Hk' Hl1 Hl2 Hr. destruct (Hback _ _ Hl1) as (it & Hit & S1 & _). destruct (Hback _ _ Hl2) as (it2 & Hit2 & S2 & _).
    specialize (S1 Hj). specialize (S2 Hk'). unfold statics in *. injection S1 as _ _ _ _ R1. injection S2 as _ _ _ _ R2.
    apply (wi_distinct0 j k it it2); try done. congruence.
  - intros r rv Hr Hrel. destruct (wi_unreleased0 r rv Hr Hrel) as (j & it & Hj & Hit & Hres). exists j.
    rewrite Ei. destruct (decide (j = i)) as [->|Hji].
    + exists (f it). rewrite list_lookup_alter_eq, Hit. split; [done|]. split; [done|]. specialize (Hf' it Hj). unfold statics in Hf'. injection Hf' as _ _ _ _ ->. done.
    + exists it. by rewrite list_lookup_alter_ne.
  - intros j it' Hj Hl. destruct (Hback j it' Hl) as (it & Hit & _ & Hsame & _).
    assert (j ≠ i) as Hji by (intros ->; apply NoDup_app in wi_acts0 as (_ & Hd & _); by apply (Hd i); [left|]).
    rewrite (Hsame Hji). apply Hother; auto.
  - intros j P it' Hj Hl. destruct (Hback j it' Hl) as (it & Hit & _ & Hsame & Hmine).
    apply elem_of_cons in Hj as [Hj|Hj].
    + simplify_eq. rewrite (Hmine eq_refl). unfold phase_at. rewrite Hf. by apply Hph; [|eapply wi_active0; [left|]].
    + assert (j ≠ i) as Hji. { intros ->. simpl in wi_acts0. apply NoDup_cons in wi_acts0 as [Hn _]. apply Hn.
        apply elem_of_app. left. apply list_elem_of_fmap. by exists (i, P). }
      rewrite (Hsame Hji). apply Hother; [done..|]. apply wi_active0; [by right|done].
  - inversion_clear wi_stable0. by constructor.
  - intros j it' Hl Hj. destruct (Hback j it' Hl) as (it & Hit & _ & Hsame & _).
    assert (j ≠ i) as Hji by (intros ->; apply Hj; by left). rewrite (Hsame Hji). apply Hother; [done..|]. by apply wi_settled0.
  - unfold calls_left. by rewrite Ei, Esch, send_keys_alter.
  - rewrite Ei, send_keys_alter by done. intros k Hk'. destruct (w_items w !! i) as [it|] eqn:Hi.
    + rewrite (Hk it); [by apply wi_early0|done|]. intros ->. apply Hk', list_elem_of_fmap. exists it. split; [done|by eapply list_elem_of_lookup_2].
    + exfalso. apply lookup_ge_None in Hi. specialize (wi_range0 i ltac:(by left)). lia.
  - unfold calls_left. by rewrite Esch.
  - intros e He. rewrite Ei, length_alter. destruct (Hev e He) as [He'|[-> ->]]; [by apply wi_log_range0|].
    split; [apply wi_range0; by left|]. split; [by intros j ->%list_elem_of_singleton|].
    intros j Hj. simpl in wi_ids0. apply StronglySorted_inv in wi_ids0 as [_ Hall]. rewrite Forall_forall in Hall. by apply Hall.
Qed.

Lemma same_rest_refl w : same_rest w w.
Proof. by repeat split. Qed.
#[local] Hint Resolve same_rest_refl : core.

(** Knowing less of an item. *)
Lemma winv_weaken i ph ph' acts cu q rest w : winv ((i, ph) :: acts) cu q rest w → stable ph' →
  (∀ it l s, ph it l s → ph' it l s) → winv ((i, ph') :: acts) cu q rest w.
Proof.
  intros Hw Hst Himp. apply (winv_touch i ph ph' acts cu q rest w w (λ it, it)); try done; try (by right); try apply Hw.
  - symmetry. apply list_alter_id. done.
  - intros e He. by left.
  - intros it Hit Hp. by apply Himp.
Qed.

(** * Triples *)

(** Running [c] for an item that is worked on takes it from phase [ph] to the phase of the
    result; meanwhile other threads may have added to the queue. *)
Definition triple {A} (cu : list nat) (rest : list env_call) (i : nat) (ph : Phase) (c : eff (Writer (Own:=Own) (K:=K)) string A)
    (Q : res string A → Phase) : Prop :=
  ∀ acts q w, winv ((i, ph) :: acts) cu q rest w →
  ∃ q', winv ((i, Q (c w).1) :: acts) cu (q ++ q') rest (c w).2.

Lemma triple_ret {A} cu rest i ph (a : A) : triple cu rest i ph (eff_ret a) (λ _, ph).
Proof. intros acts q w Hw. exists []. by rewrite app_nil_r. Qed.
Lemma triple_raise {A} cu rest i ph (e : string) : triple cu rest i ph (eff_raise (A:=A) e) (λ _, ph).
Proof. intros acts q w Hw. exists []. by rewrite app_nil_r. Qed.

Lemma triple_bind {A B} cu rest i ph (c : eff _ string A) (k : A → eff _ string B) Q R :
  triple cu rest i ph c Q → (∀ a, triple cu rest i (Q (Ok a)) (k a) R) →
  (∀ e, stable (R (Err e)) ∧ ∀ it l s, Q (Err e) it l s → R (Err e) it l s) →
  triple cu rest i ph (eff_bind c k) R.
Proof.
  intros Hc Hk He acts q w Hw. destruct (Hc acts q w Hw) as [q1 H1]. unfold eff_bind. destruct (c w) as [[a|e] w1]; simpl in *.
  - destruct (Hk a acts _ w1 H1) as [q2 H2]. exists (q1 ++ q2)%list. by rewrite app_assoc.
  - exists q1. destruct (He e). by eapply winv_weaken.
Qed.

Lemma triple_try {A} cu rest i ph (c : eff _ string A) h Q R :
  triple cu rest i ph c Q → (∀ a, stable (R (Ok a)) ∧ ∀ it l s, Q (Ok a) it l s → R (Ok a) it l s) → (∀ e, triple cu rest i (Q (Err e)) (h e) R) →
  triple cu rest i ph (eff_try c h) R.
Proof.
  intros Hc Ha Hh acts q w Hw. destruct (Hc acts q w Hw) as [q1 H1]. unfold eff_try. destruct (c w) as [[a|e] w1]; simpl in *.
  - exists q1. destruct (Ha a). by eapply winv_weaken.
  - destruct (Hh e acts _ w1 H1) as [q2 H2]. exists (q1 ++ q2)%list. by rewrite app_assoc.
Qed.

Lemma triple_conseq {A} cu rest i ph ph0 (c : eff _ string A) Q Q' :
  triple cu rest i ph0 c Q → stable ph0 → (∀ it l s, ph it l s → ph0 it l s) →
  (∀ r, stable (Q' r)) → (∀ r it l s, Q r it l s → Q' r it l s) → triple cu rest i ph c Q'.
Proof.
  intros Hc Hst Hpre HQ Hpost acts q w Hw.
  destruct (Hc acts q w (winv_weaken _ _ _ _ _ _ _ _ Hw Hst Hpre)) as [q' H']. exists q'. eapply winv_weaken; [exact H'|apply HQ|apply Hpost].
Qed.

Definition never : Phase := λ _ _ _, False.
Lemma never_stable : stable never.
Proof. by split. Qed.

(** A result that is never raised. *)
Definition returns {A} (Q : A → Phase) : res string A → Phase :=
  λ r, match r with Ok a => Q a | Err _ => never end.

Lemma triple_seq {A B} cu rest i ph (c : eff _ string A) (k : A → eff _ string B) Q R :
  triple cu rest i ph c (returns Q) → (∀ a, triple cu rest i (Q a) (k a) R) → (∀ r, stable (R r)) →
  triple cu rest i ph (eff_bind c k) R.
Proof. intros Hc Hk HR. apply (triple_bind cu rest i ph c k (returns Q) R Hc Hk). by intros e. Qed.

(** Other threads run, and what is known of the item stays. *)
Definition pausing (cu : list nat) (rest : list env_call) (pause : eff (Writer (Own:=Own) (K:=K)) string unit) : Prop :=
  ∀ i ph, triple cu rest i ph pause (returns (λ _, ph)).

Lemma no_pause cu rest : pausing cu rest (eff_ret tt).
Proof. intros i ph acts q w Hw. exists []. by rewrite app_nil_r. Qed.

Lemma triple_pause {B} cu rest i ph pause (k : eff _ string B) R : pausing cu rest pause →
  triple cu rest i ph k R → (∀ r, stable (R r)) → triple cu rest i ph (pause ;;! k) R.
Proof. intros Hp Hk HR. by apply (triple_seq cu rest i ph pause _ (λ _, ph)). Qed.

(** ** The steps *)

(** An item that is worked on is there. *)
Lemma active_item i ph acts cu q rest w : winv ((i, ph) :: acts) cu q rest w →
  ∃ it, w_items w !! i = Some it ∧ phase_at ph w i it ∧ stable ph.
Proof.
  intros Hw. destruct (lookup_lt_is_Some_2 (w_items w) i) as [it Hit].
  { apply (wi_range _ _ _ _ _ Hw). by left. }
  exists it. split; [done|]. split; [apply (wi_active _ _ _ _ _ Hw); [by left|done]|].
  pose proof (wi_stable _ _ _ _ _ Hw) as Hs. by inversion_clear Hs.
Qed.

(** What is read of an item stays true but for its future and its token. *)
Definition and_statics (ph : Phase) (it0 : Item) : Phase := λ it l s,
  ph it l s ∧ statics it = statics it0 ∧ ∃ l0 s0, ph it0 l0 s0.

Lemma and_statics_stable ph it0 : stable ph → stable (and_statics ph it0).
Proof.
  intros [H1 H2]. split.
  - intros it l s (? & ? & ?) Hp. split; [by apply H1|]. by split.
  - intros it l s s' (? & ? & ?) Hm. split; [by apply (H2 it l s)|]. by split.
Qed.

Lemma triple_get cu rest i ph :
  triple cu rest i ph (get_item i) (λ r, match r with Ok it0 => and_statics ph it0 | Err _ => λ _ _ _, False end).
Proof.
  intros acts q w Hw. exists []. rewrite app_nil_r. unfold get_item.
  destruct (active_item _ _ _ _ _ _ _ Hw) as (it & Hit & Hp & Hst). rewrite Hit. simpl.
  apply (winv_touch i ph _ acts cu q rest w w (λ it, it)); try done; try (by right); try apply Hw.
  - symmetry. by apply list_alter_id.
  - intros e He. by left.
  - by apply and_statics_stable.
  - intros it' Hit' Hp'. simplify_eq. split; [done|]. split; [done|]. do 2 eexists. exact Hp.
Qed.

(** A call of the owner about the send of the item. *)
Definition owner_step {A} (k : K) (c : eff Own string A) (R : res string A → option SendState → option SendState → Prop) : Prop :=
  ∀ o, so_inv o → so_inv (c o).2 ∧ (∀ k', k' ≠ k → so_state k' (c o).2 = so_state k' o)
    ∧ R (c o).1 (so_state k o) (so_state k (c o).2).

Lemma triple_owner {A} cu rest i ph k (c : eff Own string A) R Q : owner_step k c R →
  (∀ it l s, ph it l s → it_send_key it = k) → (∀ r, stable (Q r)) →
  (∀ r it l s s', ph it l s → R r s s' → Q r it l s') → triple cu rest i ph (on_owner c) Q.
Proof.
  intros Hc Hk Hst Himp acts q w Hw. exists []. rewrite app_nil_r.
  destruct (active_item _ _ _ _ _ _ _ Hw) as (it & Hit & Hp & _). destruct (Hc (w_owner w) (wi_owner _ _ _ _ _ Hw)) as (Hi & Ho & HR).
  unfold on_owner. destruct (c (w_owner w)) as [r o'] eqn:E. simpl in *. pose proof (Hk _ _ _ Hp) as Hkey.
  apply (winv_touch i ph (Q r) acts cu q rest w _ (λ it, it) Hw); try done; try (by right).
  - simpl. symmetry. by apply list_alter_id.
  - intros it' k' Hit' Hne. simplify_eq. by apply Ho.
  - apply (wi_log _ _ _ _ _ Hw).
  - intros e He. by left.
  - intros it' Hit' Hp'. simplify_eq/=. eapply Himp; [exact Hp|]. exact HR.
Qed.

Definition claim_step (r : res string SendState) (s s' : option SendState) : Prop :=
  match s with
  | None => is_ok r = false ∧ s' = None
  | Some S_QUEUED => (r = Ok S_WRITE_STARTED ∧ s' = Some S_WRITE_STARTED) ∨ (r = Ok S_SUPPRESSED ∧ s' = Some S_SUPPRESSED)
  | Some x => r = Ok x ∧ s' = Some x
  end.
Definition publish_step (outcome : SendOutcome) (r : res string unit) (s s' : option SendState) : Prop :=
  match s with
  | None => is_ok r = false ∧ s' = None
  | Some S_QUEUED => r = Ok tt ∧ (s' = Some S_QUEUED ∨ s' = Some (state_of outcome))
  | Some S_WRITE_STARTED => r = Ok tt ∧ s' = Some (state_of outcome)
  | Some x => r = Ok tt ∧ s' = Some x
  end.

Lemma claim_owner k : owner_step k (owner_claim k) claim_step.
Proof. intros o Ho. pose proof (claim_law k o Ho) as H'. destruct (owner_claim k o). exact H'. Qed.
Lemma publish_owner k outcome : owner_step k (owner_publish k outcome) (publish_step outcome).
Proof. intros o Ho. pose proof (publish_law k outcome o Ho) as H'. destruct (owner_publish k outcome o). exact H'. Qed.
Lemma diagnose_owner k outcome : owner_step k (owner_diagnose k outcome) (λ _ s s', s' = s).
Proof. intros o Ho. pose proof (diagnose_law k outcome o Ho) as H'. destruct (owner_diagnose k outcome o). destruct H'. by repeat split. Qed.
Lemma release_owner k : owner_step k (owner_on_release k) (λ _ s s', s' = s).
Proof. intros o Ho. pose proof (release_law k o Ho) as H'. destruct (owner_on_release k o). destruct H'. by repeat split. Qed.

(** A change of the item's own record. *)
Lemma winv_item i ph Q acts cu q rest w f : winv ((i, ph) :: acts) cu q rest w →
  (∀ it, it_send_key (f it) = it_send_key it) → (i ∉ cu ∨ ∀ it, statics (f it) = statics it) →
  stable Q → (∀ it l s, w_items w !! i = Some it → ph it l s → Q (f it) l s) →
  winv ((i, Q) :: acts) cu q rest (set_items (alter f i (w_items w)) w).
Proof.
  intros Hw Hf Hfs Hst Himp. apply (winv_touch i ph Q acts cu q rest w _ f Hw); try done; try apply Hw.
  - intros e He. by left.
  - intros it Hit Hp. by apply Himp.
Qed.

Lemma triple_set_result cu rest i ph outcome Q : stable Q →
  (∀ it l s, ph it l s → future_done (it_future it) = false) →
  (∀ it l s, ph it l s → Q (item_future (FINISHED (mkSendCompletion (it_send_key it) outcome)) it) l s) →
  triple cu rest i ph (set_result i outcome) (returns (λ _, Q)).
Proof.
  intros Hst Hnd Himp acts q w Hw. exists []. rewrite app_nil_r.
  destruct (active_item _ _ _ _ _ _ _ Hw) as (it & Hit & Hp & _). unfold set_result, get_item, eff_bind. rewrite Hit.
  unfold future_set_result. rewrite (Hnd _ _ _ Hp). simpl. apply (winv_item i ph); try done; try (by right).
  intros it' l s Hit' Hp'. simplify_eq. by apply Himp.
Qed.

Lemma triple_complete cu rest i ph outcome Q : stable Q →
  (∀ it l s, ph it l s → future_done (it_future it) = true → Q it l s) →
  (∀ it l s, ph it l s → future_done (it_future it) = false →
     Q (item_future (FINISHED (mkSendCompletion (it_send_key it) outcome)) it) l s) →
  triple cu rest i ph (complete_if_pending i outcome) (returns (λ _, Q)).
Proof.
  intros Hst Hd Hn acts q w Hw. exists []. rewrite app_nil_r.
  destruct (active_item _ _ _ _ _ _ _ Hw) as (it & Hit & Hp & _). unfold complete_if_pending, set_result, get_item, eff_bind.
  rewrite Hit. destruct (future_done (it_future it)) eqn:Hdone.
  - apply (winv_touch i ph Q acts cu q rest w w (λ it, it)); try done; try (by right); try apply Hw.
    + symmetry. by apply list_alter_id.
    + intros e He. by left.
    + intros it' Hit' Hp'. simplify_eq. by apply Hd.
  - unfold future_set_result. rewrite Hit, Hdone. simpl. apply (winv_item i ph); try done; try (by right).
    intros it' l s Hit' Hp'. simplify_eq. by apply Hn.
Qed.

Lemma triple_token cu rest i ph Q : stable Q →
  (∀ it l s, ph it l s → (it_has_token it = true → it_token_released it = true) → Q it l s) →
  (∀ it l s, ph it l s → Q (item_released it) l s) →
  triple cu rest i ph (release_token i) (λ _, Q).
Proof.
  intros Hst Hd Hn acts q w Hw. destruct (active_item _ _ _ _ _ _ _ Hw) as (it & Hit & Hp & _).
  unfold release_token. unfold eff_bind at 1, get_item. rewrite Hit.
  destruct (negb (it_has_token it) || it_token_released it) eqn:Hc.
  - exists []. rewrite app_nil_r. apply (winv_touch i ph Q acts cu q rest w w (λ it, it)); try done; try (by right); try apply Hw.
    + symmetry. by apply list_alter_id.
    + intros e He. by left.
    + intros it' Hit' Hp'. simplify_eq. apply Hd; [done|]. intros Ht. rewrite Ht in Hc. done.
  - assert (winv ((i, λ it' l s, Q it' l s ∧ it_send_key it' = it_send_key it) :: acts) cu q rest
      (set_items (alter item_released i (w_items w)) w)) as Hw1.
    { apply (winv_item i ph); try done; try (by right).
      - destruct Hst as [S1 S2]. split; [intros ? ? ? [? ?] ?; split; [by apply S1|done]|].
        intros ? ? ? ? [? ?] ?. split; [by eapply S2|done].
      - intros it' l s Hit' Hp'. simplify_eq. split; [by apply Hn|done]. }
    unfold put_item, eff_bind. simpl.
    apply (triple_owner cu rest i _ (it_send_key it) (owner_on_release (it_send_key it)) (λ _ s s', s' = s) (λ _, Q)) in Hw1;
      [exact Hw1|apply release_owner|by intros ? ? ? [_ ?]|done|]. by intros ? ? ? ? ? [? _] ->.
Qed.

(** ** A message that is given up *)

Definition keyed (k : K) (ph : Phase) : Phase := λ it l s, it_send_key it = k ∧ ph it l s.
Definition given (P : Prop) (ph : Phase) : Phase := λ it l s, P ∧ ph it l s.

Lemma keyed_stable k ph : stable ph → stable (keyed k ph).
Proof. intros [H1 H2]. split; [intros ? ? ? [? ?] ?; split; [done|by apply H1]|intros ? ? ? ? [? ?] ?; split; [done|by eapply H2]]. Qed.
Lemma given_stable P ph : stable ph → stable (given P ph).
Proof. intros [H1 H2]. split; [intros ? ? ? [? ?] ?; split; [done|by apply H1]|intros ? ? ? ? [? ?] ?; split; [done|by eapply H2]]. Qed.

(** Nothing was written and the send is not known as flushed, or the item is completed. *)
Definition unwritten i : Phase := λ it l s,
  (future_done (it_future it) = false ∧ l = [] ∧ s ≠ Some S_FLUSHED) ∨ completed i it l s.

Lemma unwritten_stable i : stable (unwritten i).
Proof.
  destruct (completed_stable i) as [H1 H2]. split.
  - intros it l s [(_ & -> & Hs)|Hc] Hp; right; [split; [by right|by intros ?]|by apply H1].
  - intros it l s s' [(? & ? & Hs)|Hc] Hm; [left|right; by eapply H2]. split; [done|]. split; [done|]. inversion Hm; subst; naive_solver.
Qed.
#[local] Hint Resolve waiting_stable completed_stable ended_stable unwritten_stable keyed_stable given_stable never_stable : core.

(** Reading the key of an item. *)
Lemma winv_read acts cu q rest i ph Q w it : winv ((i, ph) :: acts) cu q rest w → w_items w !! i = Some it → stable Q →
  (∀ l s, ph it l s → Q it l s) → winv ((i, keyed (it_send_key it) Q) :: acts) cu q rest w.
Proof.
  intros Hw Hit Hst Hi. apply (winv_touch i ph _ acts cu q rest w w (λ it, it)); try done; try (by right); try apply Hw; auto.
  - symmetry. by apply list_alter_id.
  - intros it' Hit' Hp'. simplify_eq. split; [done|by apply Hi].
Qed.

Lemma triple_reading {A} cu rest i ph (body : Item → eff _ string A) Q :
  (∀ it0 l0 s0, ph it0 l0 s0 → triple cu rest i (keyed (it_send_key it0) ph) (body it0) Q) →
  triple cu rest i ph (eff_bind (get_item i) body) Q.
Proof.
  intros Hb acts q w Hw. destruct (active_item _ _ _ _ _ _ _ Hw) as (it & Hit & Hp & Hst).
  unfold eff_bind, get_item. rewrite Hit. apply (Hb it _ _ Hp). by eapply winv_read.
Qed.

(** Publishing an outcome that does not claim delivery, and asking for the state. *)
Lemma publish_unwritten i outcome it l s s' r : outcome ≠ O_FLUSHED → unwritten i it l s → publish_step outcome r s s' →
  unwritten i it l s'.
Proof.
  intros Ho [(? & ? & Hs)|[Hr Hh]] Hp; [left|right].
  - split; [done|]. split; [done|]. destruct s as [[]|], outcome; simpl in *; naive_solver.
  - split; [|intros ->; apply Hh; destruct s as [[]|], outcome; simpl in *; naive_solver].
    destruct Hr as [(oc & Hf & Ht & Hoc)|Hc]; [left|by right].
    exists oc. split; [done|]. split; [done|]. intros E. destruct (Hoc E) as [->| ->]; simpl in *; naive_solver.
Qed.
Lemma claim_unwritten i it l s s' r : unwritten i it l s → claim_step r s s' →
  unwritten i it l s' ∧ (future_done (it_future it) = false → r ≠ Ok S_FLUSHED).
Proof.
  intros [(? & ? & Hs)|[Hc Hh]] Hp.
  - split; [left; split; [done|]; split; [done|]|intros _]; destruct s as [[]|]; simpl in *; naive_solver.
  - split; [right|destruct Hc as [(oc & Hf & _)|[Hf _]]; [by rewrite Hf|by destruct (it_future it)]].
    split; [|intros ->; apply Hh; destruct s as [[]|]; simpl in *; naive_solver].
    destruct Hc as [(oc & Hf & Ht & Hoc)|Hc]; [left|by right]. exists oc. split; [done|]. split; [done|].
    intros E. destruct (Hoc E) as [->| ->]; simpl in *; naive_solver.
Qed.

(** Completing it with an outcome that does not claim delivery. *)
Definition undelivered (outcome : SendOutcome) i : Phase := λ it l s,
  unwritten i it l s ∧ (future_done (it_future it) = false → outcome ≠ O_FLUSHED).

Lemma undelivered_stable outcome i : stable (undelivered outcome i).
Proof.
  destruct (unwritten_stable i) as [H1 H2]. split; [intros it l s [? ?] Hp; split; [by apply H1|done]|intros it l s s' [? ?] Hm].
  split; [by eapply H2|done].
Qed.
#[local] Hint Resolve undelivered_stable : core.

Lemma triple_give_up cu rest i outcome :
  triple cu rest i (undelivered outcome i) (complete_if_pending i outcome) (returns (λ _, completed i)).
Proof.
  apply triple_complete; [done|..].
  - intros it l s [[(Hd & _)|?] _] Hdone; [congruence|done].
  - intros it l s [[(_ & -> & Hs)|[[(? & Hf & _)|[Hc _]] _]] Ho] Hd.
    + split; [|by intros ?]. left. exists outcome. specialize (Ho Hd). split; [done|]. split; [by destruct outcome; try left|done].
    + by rewrite Hf in Hd.
    + by destruct (it_future it).
Qed.

Lemma triple_release_token cu rest i : triple cu rest i (completed i) (release_token i) (λ _, ended i).
Proof. by apply triple_token; [done|intros it l s ? ?; split|intros it l s ?; split]. Qed.

Lemma returns_stable {A} (Q : A → Phase) : (∀ a, stable (Q a)) → ∀ r, stable (returns Q r).
Proof. intros HQ [a|e]; [apply HQ|done]. Qed.
#[local] Hint Resolve returns_stable : core.

Lemma triple_weaken {A} cu rest i ph ph0 (c : eff _ string A) Q : (∀ it l s, ph it l s → ph0 it l s) → stable ph0 →
  triple cu rest i ph0 c Q → triple cu rest i ph c Q.
Proof. intros Hi Hst Hc acts q w Hw. apply (Hc acts q w). by eapply winv_weaken. Qed.

Lemma triple_return {A} cu rest i ph (a : A) R : (∀ it l s, ph it l s → R (Ok a) it l s) → stable (R (Ok a)) →
  triple cu rest i ph (eff_ret a) R.
Proof. intros Hi Hst. apply (triple_weaken cu rest i ph (R (Ok a))); [done..|]. intros acts q w Hw. exists []. by rewrite app_nil_r. Qed.
Lemma triple_fails {A} cu rest i ph e (R : res string A → Phase) : (∀ it l s, ph it l s → R (Err e) it l s) → stable (R (Err e)) →
  triple cu rest i ph (eff_raise e) R.
Proof. intros Hi Hst. apply (triple_weaken cu rest i ph (R (Err e))); [done..|]. intros acts q w Hw. exists []. by rewrite app_nil_r. Qed.

(** Asking for the state of the send. *)
Lemma triple_claim cu rest i k : triple cu rest i (keyed k (unwritten i)) (on_owner (owner_claim k))
  (λ r it l s, unwritten i it l s ∧ (future_done (it_future it) = false → r ≠ Ok S_FLUSHED)).
Proof.
  apply (triple_owner cu rest i _ k _ _ _ (claim_owner k)); [by intros it l s [? _]| |].
  - intros r. destruct (unwritten_stable i) as [H1 H2]. split; [intros it l s [? ?] ?; split; [by apply H1|done]|].
    intros it l s s' [? ?] ?. split; [by eapply H2|done].
  - intros r it l s s' [_ Hu] Hc. by eapply claim_unwritten.
Qed.

Lemma triple_publish cu rest i k outcome : outcome ≠ O_FLUSHED →
  triple cu rest i (keyed k (unwritten i)) (on_owner (owner_publish k outcome)) (λ _, keyed k (unwritten i)).
Proof.
  intros Ho. apply (triple_owner cu rest i _ k _ _ _ (publish_owner k outcome)); [by intros it l s [? _]|auto|].
  intros r it l s s' [Hk Hu] Hp. split; [done|]. by eapply publish_unwritten.
Qed.

Lemma triple_current cu rest pause i k outcome : pausing cu rest pause → outcome ≠ O_FLUSHED →
  triple cu rest i (keyed k (unwritten i))
    (eff_try (pause ;;! let! current := on_owner (owner_claim k) in eff_ret (default outcome (outcome_of current)))
       (λ _, eff_ret outcome))
    (returns (λ o, undelivered o i)).
Proof.
  intros Hpause Ho.
  apply (triple_try cu rest i _ _ _ (λ r, match r with Ok o => undelivered o i | Err _ => unwritten i end)); [|by auto|].
  - apply triple_pause; [done| |by intros []]. eapply triple_bind; [apply triple_claim| |].
    + intros a. apply triple_return; [|done]. intros it l s [Hu Hr]. split; [done|]. intros Hd. specialize (Hr Hd). by destruct a.
    + intros e. split; [done|]. by intros it l s [? _].
  - intros e. apply triple_return; [by intros it l s Hu; split|apply undelivered_stable].
Qed.

(** [_fail_closed] always completes the item, truthfully, and releases its token. *)
Lemma triple_fail_closed cu rest pause i outcome : pausing cu rest pause → outcome ≠ O_FLUSHED →
  triple cu rest i (unwritten i) (fail_closed pause i outcome) (λ _, ended i).
Proof.
  intros Hpause Ho. apply triple_reading. intros it0 _ _ _. set (k := it_send_key it0).
  apply (triple_seq cu rest i _ _ _ (λ settled, undelivered (match settled with Ok o => o | Err _ => outcome end) i)); [| |done].
  - apply (triple_try cu rest i _ _ _ (λ r, match r with
      Ok settled => undelivered (match settled with Ok o => o | Err _ => outcome end) i | Err _ => unwritten i end)); [|by auto|].
    + apply triple_pause; [done| |by intros []].
      eapply triple_bind; [by apply triple_publish| |intros e; split; [done|by intros it l s [_ ?]]].
      intros ?. eapply triple_seq; [by apply triple_current| |by intros []]. intros o. by apply triple_return.
    + intros e. apply triple_return; [by intros it l s Hu; split|apply undelivered_stable].
  - intros settled. apply triple_pause; [done| |done]. eapply triple_seq; [apply triple_give_up| |done]. intros ?.
    apply triple_pause; [done| |done]. eapply triple_bind; [apply triple_release_token| |done].
    intros ?. destruct settled; [by apply triple_return|by apply triple_fails].
Qed.

(** ** Other threads *)

Definition touched (it it' : Item (K:=K)) : Prop := it' = it ∨ it_future it = PENDING ∧ it' = item_future CANCELLED it.

Lemma touched_facts it it' : touched it it' → statics it' = statics it.
Proof. by intros [->|[_ ->]]. Qed.
Lemma touched_stable ph it it' l s s' : stable ph → touched it it' → moves s s' → ph it l s → ph it' l s'.
Proof. intros [H1 H2] [->|[? ->]] Hm Hp; [by eapply H2|]. eapply H2; [by apply H1|done]. Qed.

(** Futures are cancelled and sends are moved. *)
Lemma winv_shift acts cu q rest w w' : winv acts cu q rest w → same_rest w w' → w_log w' = w_log w →
  so_inv (w_owner w') → (∀ k, moves (so_state k (w_owner w)) (so_state k (w_owner w'))) →
  Forall2 touched (w_items w) (w_items w') → winv acts cu q rest w'.
Proof.
  intros Hw (Eq & Ea & Es & Ec & Esch) El Ho Hm Hit. pose proof Hw as [].
  assert (∀ j it', w_items w' !! j = Some it' → ∃ it, w_items w !! j = Some it ∧ touched it it') as Hback
    by (intros j it' Hj; by apply (Forall2_lookup_r _ _ _ _ _ Hit) in Hj).
  assert (∀ (P : Phase) j it', stable P → (∀ it, w_items w !! j = Some it → phase_at P w j it) → w_items w' !! j = Some it' → phase_at P w' j it') as Hph.
  { intros P j it' HP H1 Hj. destruct (Hback _ _ Hj) as (it & Hl & Ht). specialize (H1 it Hl). unfold phase_at in *. rewrite El.
    pose proof (touched_facts _ _ Ht) as Hs. unfold statics in Hs. injection Hs as -> _ _ _ _. by eapply touched_stable. }
  assert (length (w_items w') = length (w_items w)) as Hlen by (symmetry; by eapply Forall2_length).
  assert (it_send_key <$> w_items w' = it_send_key <$> w_items w) as Hsk.
  { clear -Hit. induction Hit as [|it it' l l' Ht _ IH]; [done|]. rewrite !fmap_cons, IH. f_equal.
    pose proof (touched_facts _ _ Ht) as Hs. unfold statics in Hs. by injection Hs. }
  constructor; unfold calls_left; rewrite ?Eq, ?Ea, ?Es, ?Ec, ?Esch, ?El, ?Hlen, ?Hsk; try done.
  - intros j it' Hj Hl. destruct (Hback j it' Hl) as (it & Hl' & Ht%touched_facts). specialize (wi_holds0 j it Hj Hl').
    unfold holds, statics in *. injection Ht as _ _ S3 S4 S5. by rewrite Ea, S3, S4, S5.
  - intros j k it' it2' Hj Hk' Hl1 Hl2 Hr. destruct (Hback _ _ Hl1) as (it & Hi1 & S1%touched_facts). destruct (Hback _ _ Hl2) as (it2 & Hi2 & S2%touched_facts).
    unfold statics in *. injection S1 as _ _ _ _ R1. injection S2 as _ _ _ _ R2. apply (wi_distinct0 j k it it2); try done. congruence.
  - intros r rv Hr Hrel. destruct (wi_unreleased0 r rv Hr Hrel) as (j & it & Hj & Hl & Hres).
    destruct (Forall2_lookup_l _ _ _ _ _ Hit Hl) as (it' & Hl' & Ht%touched_facts). exists j, it'. split; [done|]. split; [done|].
    unfold statics in Ht. injection Ht as _ _ _ _ ->. done.
  - intros j it' Hj. apply Hph; [done|]. intros it Hl. by apply wi_waiting0.
  - intros j ph it' Hj. apply Hph; [|intros it Hl; by apply wi_active0]. rewrite Forall_forall in wi_stable0. by apply (wi_stable0 (j, ph)).
  - intros j it' Hl Hj. revert Hl. apply Hph; [done|]. intros it Hl. by apply wi_settled0.
  - intros k Hk. eapply early_moves; [by apply wi_early0|done].
Qed.

(** A call that is no submission is done. *)
Lemma winv_call acts cu q c rest w : winv acts cu q (c :: rest) w → submitted_key c = None →
  winv acts cu q rest w.
Proof.
  intros [] Hc. unfold calls_left in *. simpl in *. rewrite Hc in *. constructor; try done. by apply Forall_cons in wi_env0 as [_ ?].
Qed.

Lemma winv_cancel acts cu q rest w i : winv acts cu q rest w →
  winv acts cu q rest (set_items (alter (λ it, item_future (future_cancel (it_future it)) it) i (w_items w)) w).
Proof.
  intros Hw. eapply (winv_shift acts cu q rest w); try done; [apply Hw|intros k; constructor|]. simpl.
  apply Forall2_same_length_lookup_2; [by rewrite length_alter|]. intros j it it' Hj Hj'. destruct (decide (j = i)) as [->|].
  - rewrite list_lookup_alter_eq, Hj in Hj'. simplify_eq/=. destruct it as [? ? f ?]. unfold touched. simpl. destruct f; by (left + right).
  - rewrite list_lookup_alter_ne in Hj' by done. simplify_eq. by left.
Qed.

Lemma winv_moved acts cu q rest w step : winv acts cu q (EnvOwner step :: rest) w →
  winv acts cu q rest (set_owner (step (w_owner w)) w).
Proof.
  intros Hw. assert (env_ok (EnvOwner step)) as Hok
    by (pose proof (wi_env _ _ _ _ _ Hw) as He; unfold calls_left in He; simpl in He; by apply Forall_cons in He as [? _]).
  destruct (Hok (w_owner w) (wi_owner _ _ _ _ _ Hw)) as [Hi Hm]. apply winv_call in Hw; [|done].
  apply (winv_shift acts cu q rest w); try done. apply Forall2_same_length_lookup_2; [done|]. simpl. intros j it it' H1 H2. simplify_eq. by left.
Qed.

(** There is always room in the queue: an item in it holds a reservation, and one more place
    is for the sentinel. *)
Lemma queue_room acts cu q rest w : winv acts cu q rest w →
  Z.of_nat (length q) ≤ outbound_items limits + control_items limits.
Proof.
  intros []. destruct wi_limits0 as [<- <-]. pose proof (ai_count_limit _ wi_account0) as Hlim. rewrite wi_count0, length_app in Hlim. lia.
Qed.

Lemma winv_close acts cu q rest w : winv acts cu q rest w → winv acts cu q rest (request_close limits w).2.
Proof.
  intros Hw. unfold request_close. destruct (w_closed w) eqn:Hc; [done|]. unfold put_nowait. simpl.
  pose proof (queue_room _ _ _ _ _ Hw) as Hroom. pose proof Hw as []. rewrite Hc, app_nil_r in wi_queue0.
  rewrite wi_queue0, length_fmap. unfold queue_maxsize. destruct (_ <=? _) eqn:Hf; [apply Z.leb_le in Hf; lia|]. simpl.
  destruct (close_use (w_account w)) as (E1 & E2 & E3 & E4). destruct (close_limits (w_account w)) as (L1 & L2 & L3 & L4).
  constructor; simpl; unfold holds; simpl; rewrite ?E1, ?E2, ?L1, ?L3; try done. by apply account_close_inv.
Qed.

(** ** Submitting *)

Definition encode_ok it : Prop := it_prepare_error it = true ∨ it_prepare_error it = false ∧ is_Some (it_encoded it).
Definition fresh : Phase := λ it l s, waiting it l s ∧ it_reservation it = None ∧ it_prepare_error it = false.
Definition encoded : Phase := λ it l s, waiting it l s ∧ it_reservation it = None ∧ encode_ok it.

Lemma waiting_and_stable (P : Item → Prop) : (∀ it, P it → P (item_future CANCELLED it)) →
  stable (λ it l s, waiting it l s ∧ P it).
Proof.
  destruct waiting_stable as [H1 H2]. intros HP. split; [intros it l s [? ?] ?; split; [by apply H1|auto]|].
  intros it l s s' [? ?] ?. split; [by eapply H2|done].
Qed.
Lemma fresh_stable : stable fresh.
Proof. by apply waiting_and_stable. Qed.
Lemma encoded_stable : stable encoded.
Proof. by apply waiting_and_stable. Qed.
#[local] Hint Resolve fresh_stable encoded_stable : core.

Lemma waiting_unwritten i it l s : waiting it l s → unwritten i it l s.
Proof. intros ([Hf|Hf] & -> & [Hs _] & _); [left; by rewrite Hf|]. right. split; [right; by rewrite Hf|by intros ?]. Qed.

Lemma log_of_nil i l : (∀ e, e ∈ l → event_item e ≠ i) → log_of i l = [].
Proof.
  intros Hl. unfold log_of. destruct (filter _ l) as [|e l'] eqn:Hf; [done|].
  assert (e ∈ filter (λ e, event_item e = i) l) as [Hi He]%list_elem_of_filter by (rewrite Hf; by left). by destruct (Hl e He).
Qed.

(** A submission adds an item. *)
Lemma winv_new acts cu q rest w payload enc k t kind rejection :
  winv acts cu q (EnvSubmit payload enc k t kind rejection :: rest) w →
  winv ((length (w_items w), fresh) :: acts) cu q rest (set_items (w_items w ++ [new_item payload enc k t kind]) w).
Proof.
  intros []. unfold calls_left in *. simpl in *. set (n := length (w_items w)).
  assert (n ∉ (acts.*1 ++ q)%list) as Hn by (intros Hi; apply wi_range0 in Hi; unfold n in Hi; lia).
  assert (n ∉ (cu ++ q)%list) as Hnc.
  { intros [Hi|Hi]%elem_of_app; apply Hn, elem_of_app; [left; by apply wi_cu0|by right]. }
  assert (log_of n (w_log w) = []) as Hlog.
  { apply log_of_nil. intros e Hin. apply wi_log_range0 in Hin as [Hl _]. unfold n. lia. }
  assert (∀ j it, j ≠ n → (w_items w ++ [new_item payload enc k t kind])%list !! j = Some it → w_items w !! j = Some it) as Hold.
  { intros j it Hne Hj. apply lookup_app_Some in Hj as [Hj|[Hge Hj]]; [done|]. apply list_lookup_singleton_Some in Hj as [? _]. unfold n in Hne. lia. }
  assert (∀ j it, j ∈ (cu ++ q)%list → (w_items w ++ [new_item payload enc k t kind])%list !! j = Some it → w_items w !! j = Some it) as Hcq.
  { intros j it Hj. apply Hold. by intros ->. }
  apply Forall_cons in wi_env0 as [_ Henv].
  assert (k ∉ it_send_key <$> w_items w) as Hnk.
  { pose proof Hkeys as Hnd. rewrite <- wi_keys0 in Hnd. apply NoDup_app in Hnd as (_ & Hd & _). intros Hin. apply (Hd k Hin). by left. }
  constructor; simpl; try done.
  - by constructor.
  - intros j [->|Hj]%elem_of_cons; rewrite length_app; simpl; [unfold n; lia|]. apply wi_range0 in Hj. lia.
  - intros j Hj. right. by apply wi_cu0.
  - intros j it Hj Hl. exact (wi_holds0 j it Hj (Hcq _ _ Hj Hl)).
  - intros j j' it it' Hj Hj' Hl Hl'. apply wi_distinct0; auto.
  - intros r rv Hr Hrel. destruct (wi_unreleased0 r rv Hr Hrel) as (j & it & Hj & Hl & Hres). exists j, it.
    split; [done|]. split; [by apply lookup_app_l_Some|done].
  - intros j it Hj Hl. apply (wi_waiting0 j it Hj). apply Hcq; [apply elem_of_app; by right|done].
  - intros j ph it [[= -> ->]|Hj]%elem_of_cons Hl.
    + unfold n in Hl. rewrite list_lookup_middle in Hl by done. simplify_eq. unfold phase_at. simpl. rewrite Hlog.
      split; [|done]. split; [by left|]. split; [done|]. split; [|done]. by apply wi_early0.
    + apply (wi_active0 j ph it Hj). apply Hold; [|done]. intros ->. apply Hn, elem_of_app. left.
      apply list_elem_of_fmap. by exists (n, ph).
  - by constructor.
  - intros j it Hl Hj. apply not_elem_of_cons in Hj as [Hne Hj]. apply (wi_settled0 j it); [by apply Hold|done].
  - rewrite fmap_app, <- app_assoc. exact wi_keys0.
  - intros k' Hk'. apply wi_early0. intros Hin. apply Hk'. rewrite fmap_app. apply elem_of_app. by left.
  - intros e He. destruct (wi_log_range0 e He) as (? & ? & ?). rewrite length_app. split; [lia|done].
Qed.

(** The account refuses. *)
Lemma winv_account acts cu q rest w a : winv acts cu q rest w → aa_reservations a = aa_reservations (w_account w) →
  aa_count a = aa_count (w_account w) → same_limits (w_account w) a → account_inv a → winv acts cu q rest (set_account a w).
Proof. intros [] E1 E2 (L1 & _ & L3 & _) Ha. constructor; simpl; unfold holds; simpl; rewrite ?E1, ?E2, ?L1, ?L3; done. Qed.

Lemma winv_flags acts cu q rest w b : winv acts cu q rest w → winv acts cu q rest (set_flags (w_closed w) b w).
Proof. intros []. by constructor. Qed.

Lemma triple_refuse cu rest i : triple cu rest i (unwritten i) (refuse i) (λ _, ended i).
Proof.
  apply triple_reading. intros it0 l0 s0 _. eapply triple_bind.
  - apply (triple_weaken cu rest i _ (unwritten i)); [by intros it l s [_ ?]|done|].
    apply triple_fail_closed; [apply no_pause|by case_match].
  - intros ?. apply triple_reading. intros it1 _ _ _. apply (triple_weaken cu rest i _ (ended i)); [by intros it l s [_ ?]|done|].
    case_match; [|by apply triple_return]. intros acts q w Hw. exists []. rewrite app_nil_r. by apply winv_flags.
  - done.
Qed.

(** An item that is not worked on any more. *)
Lemma winv_drop acts cu q rest i w : winv ((i, ended i) :: acts) cu q rest w → i ∉ cu → winv acts cu q rest w.
Proof.
  intros [] Hi. simpl in *. apply NoDup_cons in wi_acts0 as [Hn Hnd]. constructor; try done.
  - intros j Hj. apply wi_range0. by right.
  - intros j Hj. specialize (wi_cu0 j Hj). apply elem_of_cons in wi_cu0 as [->|?]; [done|done].
  - intros j ph it Hj. apply wi_active0. by right.
  - by apply Forall_cons in wi_stable0 as [_ ?].
  - intros j it Hl Hj. destruct (decide (j = i)) as [->|Hne]; [by apply wi_active0; [left|]|].
    apply wi_settled0; [done|]. by apply not_elem_of_cons.
Qed.

(** The item that was added last is admitted: it holds a reservation and joins the queue. *)
Lemma winv_admit acts cu q rest i w data a it : winv ((i, encoded) :: acts) cu q rest w → i ∉ cu →
  S i = length (w_items w) → w_closed w = false → w_items w !! i = Some it → it_prepare_error it = false → it_encoded it = Some data →
  aa_reservations a = (aa_reservations (w_account w) ++ [mkReservation 1 (Z.of_nat (String.length data)) false])%list →
  aa_count a = aa_count (w_account w) + 1 → same_limits (w_account w) a → account_inv a →
  winv acts cu (q ++ [i]) rest
    (set_queue (w_queue w ++ [Some i]) (set_items (alter (item_reserved (Some (length (aa_reservations (w_account w))))) i (w_items w)) (set_account a w))).
Proof.
  intros Hw Hi Hlen Hc Hit Hpe Henc E1 E2 (L1 & _ & L3 & _) Ha. pose proof Hw as []. simpl in wi_acts0. apply NoDup_cons in wi_acts0 as [Hn Hnd].
  set (r := length (aa_reservations (w_account w))).
  assert (i ∉ q) as Hiq by (intros ?; apply Hn, elem_of_app; by right).
  assert (phase_at encoded w i it) as (Hwait & Hnone & _) by (apply wi_active0; [by left|done]).
  assert (∀ j, j ∈ (cu ++ q)%list → (j < i)%nat) as Hlt.
  { intros j Hj. assert (j < length (w_items w))%nat; [|assert (j ≠ i); [|lia]].
    - apply wi_range0. apply elem_of_app in Hj as [Hj|Hj]; apply elem_of_app; [left; by apply wi_cu0|by right].
    - intros ->. apply elem_of_app in Hj as [?|?]; done. }
  assert (∀ j it', j ≠ i → alter (item_reserved (Some r)) i (w_items w) !! j = Some it' → w_items w !! j = Some it') as Hold
    by (intros j it' Hne Hj; by rewrite list_lookup_alter_ne in Hj).
  assert (∀ it', alter (item_reserved (Some r)) i (w_items w) !! i = Some it' → it' = item_reserved (Some r) it) as Hnew
    by (intros it' Hj; rewrite list_lookup_alter_eq, Hit in Hj; by simplify_eq/=).
  assert (∀ j it' r', j ∈ (cu ++ q)%list → w_items w !! j = Some it' → it_reservation it' = Some r' → (r' < r)%nat) as Hres.
  { intros j it' r' Hj Hl Hr. destruct (wi_holds0 j it' Hj Hl) as (_ & d & r0 & _ & Hr0 & Hrv). simplify_eq. by eapply lookup_lt_Some. }
  assert (∀ j, j ∈ (cu ++ q ++ [i])%list ↔ j ∈ (cu ++ q)%list ∨ j = i) as Hin by (intros j; rewrite !elem_of_app, list_elem_of_singleton; tauto).
  constructor; simpl; rewrite ?Hc; try done.
  - by rewrite wi_queue0, Hc, !app_nil_r, fmap_app.
  - rewrite app_assoc. apply StronglySorted_app_2; [|done|by repeat constructor].
    intros j j' Hj ->%list_elem_of_singleton. by apply Hlt.
  - rewrite app_assoc. apply NoDup_app. split; [done|]. split; [|by apply NoDup_singleton].
    intros j Hj ->%list_elem_of_singleton. done.
  - intros j. rewrite app_assoc, elem_of_app, list_elem_of_singleton, length_alter. intros [Hj| ->]; [apply wi_range0; by right|lia].
  - intros j Hj. pose proof (wi_cu0 j Hj) as [->|?]%elem_of_cons; done.
  - intros j it' Hj Hl. apply Hin in Hj as [Hj| ->]; unfold holds; simpl; rewrite E1.
    + assert (w_items w !! j = Some it') as Hl' by (apply Hold; [apply Hlt in Hj; lia|done]).
      destruct (wi_holds0 j it' Hj Hl') as (? & d & r0 & ? & ? & ?). split; [done|]. exists d, r0. split; [done|]. split; [done|].
      by apply lookup_app_l_Some.
    + rewrite (Hnew _ Hl). split; [done|]. exists data, r. split; [done|]. split; [done|]. unfold r. by apply list_lookup_middle.
  - intros j j' it1 it2 Hj Hj' Hl1 Hl2 Hr. apply Hin in Hj as [Hj| ->], Hj' as [Hj'| ->]; try done.
    + apply (wi_distinct0 j j' it1 it2); try done; (apply Hold; [|done]); [apply Hlt in Hj|apply Hlt in Hj']; lia.
    + rewrite (Hnew _ Hl2) in Hr. simpl in Hr. apply Hold in Hl1; [|apply Hlt in Hj; lia]. specialize (Hres _ _ _ Hj Hl1 Hr). lia.
    + rewrite (Hnew _ Hl1) in Hr. simpl in Hr. apply Hold in Hl2; [|apply Hlt in Hj'; lia]. specialize (Hres _ _ _ Hj' Hl2 (eq_sym Hr)). lia.
  - intros r' rv. rewrite E1. intros [Hr|[Hr Hr']]%lookup_app_Some Hrel.
    + destruct (wi_unreleased0 r' rv Hr Hrel) as (j & it' & Hj & Hl & Hres'). exists j, it'. split; [apply Hin; by left|].
      split; [|done]. rewrite list_lookup_alter_ne; [done|]. apply Hlt in Hj. lia.
    + apply list_lookup_singleton_Some in Hr' as [Hr' _]. exists i, (item_reserved (Some r) it). split; [apply Hin; by right|].
      split; [by rewrite list_lookup_alter_eq, Hit|]. simpl. unfold r. f_equal. lia.
  - rewrite E2, wi_count0, !length_app. simpl. lia.
  - by rewrite L1, L3.
  - intros j it' Hj Hl. apply elem_of_app in Hj as [Hj| ->%list_elem_of_singleton].
    + apply (wi_waiting0 j it' Hj). apply Hold; [|done]. by intros ->.
    + rewrite (Hnew _ Hl). exact Hwait.
  - intros j ph it' Hj Hl. apply wi_active0; [by right|]. apply Hold; [|done]. intros ->. apply Hn, elem_of_app. left.
    apply list_elem_of_fmap. by exists (i, ph).
  - by apply Forall_cons in wi_stable0 as [_ ?].
  - intros j it' Hl Hj. rewrite app_assoc, not_elem_of_app, list_elem_of_singleton in Hj. destruct Hj as [Hj Hne].
    apply (wi_settled0 j it'); [by apply Hold|]. by apply not_elem_of_cons.
  - by rewrite send_keys_alter.
  - by rewrite send_keys_alter.
  - intros e He. rewrite length_alter. destruct (wi_log_range0 e He) as (? & ? & Hq). split; [done|]. split; [done|].
    intros j [Hj| ->%list_elem_of_singleton]%elem_of_app; [by apply Hq|]. destruct Hwait as (_ & Hnil & _).
    assert (event_item e ≠ i); [|lia]. intros Hi'. assert (e ∈ log_of i (w_log w)) as Hx by (by apply list_elem_of_filter).
    rewrite Hnil in Hx. by apply elem_of_nil in Hx.
Qed.

(** What became of the item of a submission. *)
Definition refused i : Phase := λ it l s, waiting it l s ∧ it_reservation it = None.
Lemma refused_stable i : stable (refused i).
Proof. by apply waiting_and_stable. Qed.
#[local] Hint Resolve refused_stable : core.

Definition submitted acts cu q rest i (o : res string unit * Writer (Own:=Own) (K:=K)) : Prop :=
  winv acts cu (q ++ [i]) rest o.2 ∧ o.1 = Ok tt
  ∨ (∃ q', winv ((i, ended i) :: acts) cu (q ++ q') rest o.2)
  ∨ winv ((i, refused i) :: acts) cu q rest o.2 ∧ is_ok o.1 = false.

Lemma winv_encode acts cu q rest i w : winv ((i, fresh) :: acts) cu q rest w → i ∉ cu →
  winv ((i, encoded) :: acts) cu q rest (set_items (alter encode_item i (w_items w)) w).
Proof.
  intros Hw Hi. apply (winv_item i fresh); try done; [|by left|].
  - intros it. unfold encode_item. by repeat case_match.
  - intros it l s _ (Hwt & Hr & Hp). unfold encode_item. rewrite Hp. simpl. case_bool_decide as He; [split; [done|]; split; [done|by right]|].
    destruct (it_payload it); (split; [exact Hwt|]; split; [done|]); [right; split; [done|by eexists]|by left].
Qed.

(** A message that is not admitted is given up. *)
Lemma refuse_submitted acts cu q rest i w : winv ((i, encoded) :: acts) cu q rest w → i ∉ cu →
  submitted acts cu q rest i ((put_item i (item_reserved None) ;;! refuse i) w).
Proof.
  intros Hw Hi. right; left. unfold eff_bind, put_item.
  assert (winv ((i, unwritten i) :: acts) cu q rest (set_items (alter (item_reserved None) i (w_items w)) w)) as Hw1.
  { apply (winv_item i encoded); try done; [by left|]. intros it l s _ (Hwt & _ & _). by apply waiting_unwritten. }
  exact (triple_refuse cu rest i acts q _ Hw1).
Qed.

Lemma reserve_submitted acts cu q rest i w : winv ((i, encoded) :: acts) cu q rest w → i ∉ cu →
  S i = length (w_items w) → w_closed w = false →
  submitted acts cu q rest i ((let! reserved := reserve i in
     put_item i (item_reserved reserved) ;;!
     match reserved with Some _ => put_nowait limits (Some i) | None => refuse i end) w).
Proof.
  intros Hw Hi Hlen Hc. destruct (active_item _ _ _ _ _ _ _ Hw) as (it & Hit & (Hwt & Hnone & Henc) & _).
  unfold reserve. unfold eff_bind at 1 2, get_item. rewrite Hit. destruct Henc as [Hpe|[Hpe [data Hdata]]]; rewrite Hpe.
  { simpl. by apply refuse_submitted. }
  rewrite Hdata. destruct (try_reserve 1 _ _ _) as [r a] eqn:Ht.
  pose proof (try_reserve_inv _ _ _ _ _ _ (wi_account _ _ _ _ _ Hw) Ht) as Ha.
  pose proof (try_reserve_limits 1 (Z.of_nat (String.length data)) (it_admission_class it) (w_account w)) as Hl. rewrite Ht in Hl.
  apply try_reserve_cases in Ht as [(-> & _ & Hneg)|[(-> & _ & E1 & E2 & _)|(-> & _ & _ & _ & _ & E1 & E2 & _)]].
  - lia.
  - apply refuse_submitted; [|done]. by apply winv_account.
  - pose proof (queue_room _ _ _ _ _ Hw) as Hroom. pose proof (wi_queue _ _ _ _ _ Hw) as Hq. rewrite Hc, app_nil_r in Hq.
    unfold eff_bind, put_item, put_nowait. cbn [w_queue set_items set_account]. rewrite Hq at 1. rewrite length_fmap. unfold queue_maxsize.
    destruct (_ <=? _) eqn:Hf; [apply Z.leb_le in Hf; lia|]. left. split; [|done]. by apply (winv_admit acts cu q rest i w data a it).
Qed.

Lemma submit_submitted acts cu q rest i w : winv ((i, fresh) :: acts) cu q rest w → i ∉ cu →
  S i = length (w_items w) → submitted acts cu q rest i (submit limits i w).
Proof.
  intros Hw Hi Hlen. apply winv_encode in Hw; [|done]. unfold submit. unfold eff_bind at 1, put_item. cbn [w_closed set_items].
  destruct (w_closed w) eqn:Hc.
  - right; right. split; [|done]. eapply winv_weaken; [done|auto|]. by intros it l s (? & ? & _).
  - pose proof (wi_started _ _ _ _ _ Hw) as Hst. cbn [w_started set_items] in *. rewrite Hst. simpl negb. cbv iota.
    apply reserve_submitted; [done..| |done]. simpl. by rewrite length_alter.
Qed.

(** A message the writer did not take is completed as rejected. *)
Lemma triple_reject cu rest i k rejection : rejection ≠ O_FLUSHED →
  triple cu rest i (keyed k (unwritten i))
    (eff_try (on_owner (owner_publish k rejection)) (λ _, eff_ret tt) ;;!
     eff_try (complete_if_pending i rejection) (λ _, eff_ret tt) ;;!
     eff_try (release_token i) (λ _, eff_ret tt)) (λ _, ended i).
Proof.
  intros Hr. apply (triple_seq cu rest i _ _ _ (λ _, unwritten i)); [| |done].
  - eapply triple_try; [by apply triple_publish| |]; intros x; [split; [apply unwritten_stable|by intros it l s [_ ?]]|].
    apply triple_return; [by intros it l s [_ ?]|apply unwritten_stable].
  - intros _. apply (triple_seq cu rest i _ _ _ (λ _, completed i)); [| |done].
    + apply (triple_weaken cu rest i _ (undelivered rejection i)); [by intros it l s Hu; split|done|].
      eapply triple_try; [apply triple_give_up| |]; intros x; [split; [apply completed_stable|done]|]. by apply triple_return; [|apply completed_stable].
    + intros _. eapply triple_try; [apply triple_release_token|done|]. intros e. by apply triple_return.
Qed.

Lemma submit_dedicated_winv acts cu q rest i w rejection : winv ((i, fresh) :: acts) cu q rest w → i ∉ cu →
  S i = length (w_items w) → rejection ≠ O_FLUSHED →
  ∃ q', winv acts cu (q ++ q') rest (submit_dedicated limits i rejection w).2.
Proof.
  intros Hw Hi Hlen Hr. pose proof (submit_submitted _ _ _ _ _ _ Hw Hi Hlen) as Hs.
  assert (∀ k w1 q1, winv ((i, keyed k (unwritten i)) :: acts) cu (q ++ q1) rest w1 → ∃ q', winv acts cu (q ++ q') rest
    ((eff_try (on_owner (owner_publish k rejection)) (λ _, eff_ret tt) ;;!
      eff_try (complete_if_pending i rejection) (λ _, eff_ret tt) ;;!
      eff_try (release_token i) (λ _, eff_ret tt)) w1).2) as Hreject.
  { intros k w1 q1 H1. destruct (triple_reject cu rest i k rejection Hr _ _ _ H1) as [q2 H2]. exists (q1 ++ q2)%list.
    rewrite app_assoc. by eapply winv_drop. }
  assert (∀ A e (c : eff _ string A) w1, ((c ;;! eff_raise (A:=unit) e) w1).2 = (c w1).2) as Hraise
    by (intros A e c w1; unfold eff_bind; by destruct (c w1) as [[]]).
  unfold submit_dedicated, eff_try at 1. destruct (submit limits i w) as [r w1]. unfold submitted in Hs. simpl in Hs.
  destruct Hs as [[Hs ->]|[[q1 Hs]|[Hs Hok]]]; [by exists [i]| |].
  - destruct r as [[]|e]; [exists q1; by eapply winv_drop|]. destruct (active_item _ _ _ _ _ _ _ Hs) as (it & Hit & Hp & _).
    unfold eff_bind at 1, get_item. rewrite Hit, Hraise. destruct (_ && _); [|exists q1; by eapply winv_drop].
    apply (Hreject _ w1 q1). eapply winv_read; [done..|]. intros l s [? _]. by right.
  - destruct r as [|e]; [done|]. destruct (active_item _ _ _ _ _ _ _ Hs) as (it & Hit & (Hwt & Hnone) & _).
    unfold eff_bind at 1, get_item. rewrite Hit, Hraise, Hnone. destruct Hwt as ([Hf|Hf] & _); rewrite Hf; simpl;
      (apply (Hreject _ w1 []); rewrite app_nil_r; eapply winv_read; [done..|]; intros l s [? _]; by apply waiting_unwritten).
Qed.

(** A call of another thread. *)
Lemma env_step_winv acts cu q c rest w : winv acts cu q (c :: rest) w → ∃ q', winv acts cu (q ++ q') rest (env_step limits w c).
Proof.
  intros Hw. destruct c as [payload enc k t kind rejection|i| |step]; simpl.
  - assert (rejection ≠ O_FLUSHED) as Hr
      by (pose proof (wi_env _ _ _ _ _ Hw) as He; unfold calls_left in He; simpl in He; by apply Forall_cons in He as [? _]).
    apply submit_dedicated_winv; [by eapply winv_new| | |done].
    + intros Hi. apply (wi_cu _ _ _ _ _ Hw) in Hi. assert (length (w_items w) < length (w_items w))%nat; [|lia].
      apply (wi_range _ _ _ _ _ Hw), elem_of_app. by left.
    + simpl. rewrite length_app. simpl. lia.
  - exists []. rewrite app_nil_r. apply winv_cancel. by eapply winv_call.
  - exists []. rewrite app_nil_r. apply winv_close. by eapply winv_call.
  - exists []. rewrite app_nil_r. by apply winv_moved.
Qed.

Lemma env_steps_winv acts cu calls : ∀ q w, winv acts cu q calls w → ∃ q', winv acts cu (q ++ q') [] (foldl (env_step limits) w calls).
Proof.
  induction calls as [|c calls IH]; intros q w Hw; [exists []; by rewrite app_nil_r|].
  destruct (env_step_winv _ _ _ _ _ _ Hw) as [q1 H1]. destruct (IH _ _ H1) as [q2 H2]. exists (q1 ++ q2)%list. by rewrite app_assoc.
Qed.

Lemma interfere_winv acts cu q w : winv acts cu q [] w →
  (interfere limits w).1 = Ok tt ∧ ∃ q', winv acts cu (q ++ q') [] (interfere limits w).2.
Proof.
  intros Hw. unfold interfere. destruct (w_schedule w) as [|calls sched] eqn:Hs; (split; [done|]); [exists []; by rewrite app_nil_r|].
  apply env_steps_winv. destruct Hw. unfold calls_left in *. rewrite Hs in *. by constructor.
Qed.

Lemma interfere_pausing cu : pausing cu [] (interfere limits).
Proof.
  intros i ph acts q w Hw. destruct (interfere_winv _ _ _ _ Hw) as [Hok Hq]. destruct (interfere limits w) as [r w']. simpl in *.
  by subst.
Qed.

(** ** The writer's thread *)
Abbreviation thread i := (triple [i] []).
Abbreviation pauses i := (interfere_pausing [i]).

(** What is never changed of an item in custody. *)
Definition ready (k : K) (data : string) (ph : Phase) : Phase := λ it l s,
  (it_send_key it = k ∧ it_prepare_error it = false ∧ it_encoded it = Some data) ∧ ph it l s.
Lemma ready_stable k data ph : stable ph → stable (ready k data ph).
Proof. intros [H1 H2]. split; [intros ? ? ? [? ?] ?; split; [done|by apply H1]|intros ? ? ? ? [? ?] ?; split; [done|by eapply H2]]. Qed.

(** The future is not pending any more; nothing was written. *)
Definition cancelled : Phase := λ it l s, it_future it = CANCELLED_AND_NOTIFIED ∧ l = [] ∧ s ≠ Some S_FLUSHED.
Definition running : Phase := λ it l s, it_future it = RUNNING ∧ l = [] ∧ early s.
(** The send is claimed: it can only be given up. *)
Definition claimed (P : list PhysicalEvent → Prop) : Phase := λ it l s,
  it_future it = RUNNING ∧ P l ∧ (s = Some S_WRITE_STARTED ∨ s = Some S_AMBIGUOUS).
(** The outcome is settled. *)
Definition settled i data (outcome : SendOutcome) : Phase := λ it l s,
  it_future it = RUNNING ∧ tells i data outcome l ∧ (outcome = O_FLUSHED → s = Some S_FLUSHED ∨ s = Some S_AMBIGUOUS)
  ∧ honest i data l s.

Lemma cancelled_stable : stable cancelled.
Proof.
  split; [intros it l s [? ?] ?; congruence|intros it l s s' (? & ? & ?) Hm]. split; [done|]. split; [done|]. inversion Hm; subst; naive_solver.
Qed.
Lemma running_stable : stable running.
Proof. split; [intros it l s [? ?] ?; congruence|intros it l s s' (? & ? & ?) ?; split; [done|]; split; [done|by eapply early_moves]]. Qed.
Lemma claimed_stable P : stable (claimed P).
Proof.
  split; [intros it l s [? ?] ?; congruence|intros it l s s' (? & ? & Hs) Hm; split; [done|]; split; [done|]].
  destruct Hs as [->| ->]; inversion Hm; subst; naive_solver.
Qed.
Lemma settled_stable i data outcome : stable (settled i data outcome).
Proof.
  split; [intros it l s [? ?] ?; congruence|intros it l s s' (? & ? & Hs & ?) Hm; split; [done|]; split; [done|]].
  split; [|by eapply honest_moves]. intros Ho. destruct (Hs Ho) as [->| ->]; inversion Hm; subst; naive_solver.
Qed.
#[local] Hint Resolve ready_stable cancelled_stable running_stable claimed_stable settled_stable : core.

Lemma triple_set_running i k data : thread i i (ready k data waiting) (set_running i)
  (returns (λ r : bool, ready k data (if r then running else cancelled))).
Proof.
  intros acts q w Hw. exists []. rewrite app_nil_r. destruct (active_item _ _ _ _ _ _ _ Hw) as (it & Hit & Hp & _).
  unfold set_running, eff_bind, get_item. rewrite Hit. destruct Hp as (Hst & [Hf|Hf] & _); rewrite Hf; simpl;
    (apply (winv_item i (ready k data waiting)); try done; [by right|auto|]); intros it' l s Hit' ((? & ? & ?) & _ & ? & [? ?] & _); by split_and!.
Qed.

(** The claim that starts the write. *)
Lemma triple_start i k data : thread i i (ready k data running) (on_owner (owner_claim k))
  (λ r, match r with
        | Ok S_SUPPRESSED => ready k data (settled i data O_SUPPRESSED)
        | Ok _ => ready k data (claimed (λ l, l = []))
        | Err _ => unwritten i
        end).
Proof.
  apply (triple_owner [i] [] i _ k _ _ _ (claim_owner k)).
  - by intros it l s [[? _] _].
  - intros [[]|e]; auto.
  - intros r it l s s' [Hst (Hf & -> & He1 & He2)] Hc. destruct s as [[]|]; simpl in Hc; try done;
      [destruct Hc as [[-> ->]|[-> ->]]|..|destruct Hc as [Hr ->]; destruct r; [done|]; left; rewrite Hf; naive_solver];
      try (destruct Hc as [-> ->]); (split; [done|]); (split; [done|]); (split; [done|]); unfold honest; naive_solver.
Qed.

(** The transport does something for the item. *)
Lemma winv_log i ph Q acts q w e faults : winv ((i, ph) :: acts) [i] q [] w → event_item e = i → stable Q →
  (∀ it l s, ph it l s → Q it (l ++ [e])%list s) → winv ((i, Q) :: acts) [i] q [] (set_transport (w_log w ++ [e]) faults w).
Proof.
  intros Hw He Hst Hi. apply (winv_touch i ph Q acts [i] q [] w _ (λ it, it) Hw); try done; try (by right).
  - symmetry. by apply list_alter_id.
  - apply Hw.
  - intros j Hj. simpl. unfold log_of. by rewrite filter_app, filter_cons_False, filter_nil, app_nil_r by congruence.
  - simpl. rewrite fmap_app. apply StronglySorted_app_2; [|apply Hw|by repeat constructor].
    intros j j' (e' & -> & He')%list_elem_of_fmap ->%list_elem_of_singleton. rewrite He.
    apply (wi_log_range _ _ _ _ _ Hw e' He'). by left.
  - intros e' [He'| ->%list_elem_of_singleton]%elem_of_app; [by left|by right].
  - intros it Hit Hp. simpl. unfold log_of. rewrite filter_app, filter_cons_True by done. by apply Hi.
Qed.

(** What a call of the transport may leave in the log. *)
Definition written i data (r : res string unit) l : Prop :=
  match r with
  | Ok _ => l = [PWrite i data true]
  | Err _ => ∃ n, l = [PWrite i (String.substring 0 n data) false]
  end.
Definition flushed i data (r : res string unit) l : Prop := l = [PWrite i data true; PFlush i (is_ok r)].

Lemma triple_write i k data : thread i i (ready k data (claimed (λ l, l = []))) (write_bytes i data)
  (λ r, ready k data (claimed (written i data r))).
Proof.
  intros acts q w Hw. exists []. rewrite app_nil_r. unfold write_bytes. case_match;
    (eapply winv_log; [exact Hw|done|by auto|]); intros it l s (Hst & Hf & -> & Hs); (split; [done|]); (split; [done|]);
    (split; [|done]); [by eexists|done].
Qed.

Lemma triple_flush i k data : thread i i (ready k data (claimed (written i data (Ok tt)))) (transport_flush i)
  (λ r, ready k data (claimed (flushed i data r))).
Proof.
  intros acts q w Hw. exists []. rewrite app_nil_r. unfold transport_flush. case_match;
    (eapply winv_log; [exact Hw|done|by auto|]); intros it l s (Hst & Hf & -> & Hs); unfold ready, claimed, flushed; destruct Hst as (? & ? & ?); by split_and!.
Qed.

Lemma triple_raised {A} cu rest i ph (c : eff _ string A) Q R : triple cu rest i ph c Q → (∀ b, stable (R b)) →
  (∀ r it l s, Q r it l s → R (negb (is_ok r)) it l s) → triple cu rest i ph (raised c) (returns R).
Proof.
  intros Hc HR Hi. apply (triple_try cu rest i ph _ _ (λ r, match r with Ok b => R b | Err _ => R true end)); [|intros b; split; [apply HR|done]|].
  - eapply triple_bind; [done| |]; intros a; [by apply triple_return; [apply (Hi (Ok a))|]|split; [done|apply (Hi (Err a))]].
  - intros e. by apply triple_return; [|apply HR].
Qed.

(** The physical outcome is true of what the transport did. *)
Lemma triple_write_out i k data it0 : it_prepare_error it0 = false → it_encoded it0 = Some data →
  thread i i (ready k data (claimed (λ l, l = []))) (write_out limits i it0)
    (returns (λ outcome, ready k data (claimed (λ l, tells i data outcome l ∧ (outcome = O_FLUSHED ∨ outcome = O_AMBIGUOUS))))).
Proof.
  intros Hpe He. unfold write_out. rewrite Hpe, He.
  apply (triple_seq [i] [] i _ _ _ (λ b : bool, ready k data (claimed (written i data (if b then Err "" else Ok tt))))); [| |auto].
  - eapply triple_raised; [apply triple_pause; [apply interfere_pausing|apply triple_write|intros r; cbv beta; auto]|auto|].
    intros [[]|e] it l s; done.
  - intros b. apply (triple_seq [i] [] i _ _ _ (λ b', ready k data (claimed (λ l,
      if (b : bool) then b' = false ∧ written i data (Err "") l else flushed i data (if b' then Err "" else Ok tt) l)))); [| |auto].
    + destruct b; [apply triple_return; [|apply ready_stable, claimed_stable]; intros it l s (? & ? & ? & ?); by repeat (split; [done|])|].
      eapply triple_raised; [apply triple_pause; [apply interfere_pausing|apply triple_flush|intros r; cbv beta; auto]|auto|].
      intros [[]|e] it l s; done.
    + intros b'. apply triple_return; [|apply ready_stable, claimed_stable]. intros it l s (Hst & Hf & Hl & Hs). split; [done|]. split; [done|]. split; [|done].
      destruct b; [destruct Hl as [-> [n ->]]|unfold flushed in Hl; subst l; destruct b']; simpl; split; eauto.
Qed.

(** Once the write is over: the send was given up meanwhile, or it takes the outcome. *)
Definition physical i data (outcome : SendOutcome) l : Prop := tells i data outcome l ∧ (outcome = O_FLUSHED ∨ outcome = O_AMBIGUOUS).

Lemma physical_ambiguous i data outcome l : physical i data outcome l → tells i data O_AMBIGUOUS l.
Proof. intros [Ht [->| ->]]; simpl in *; eauto. Qed.

Lemma triple_settle_claim i k data outcome : thread i i (ready k data (claimed (physical i data outcome))) (on_owner (owner_claim k))
  (λ r, match r with
        | Ok S_WRITE_STARTED | Ok S_AMBIGUOUS => ready k data (claimed (physical i data outcome))
        | _ => never
        end).
Proof.
  apply (triple_owner [i] [] i _ k _ _ _ (claim_owner k)).
  - by intros it l s [[? _] _].
  - intros [[]|e]; auto.
  - intros r it l s s' [Hst (Hf & Hl & [->| ->])] [-> ->]; by repeat (split; [done|]); auto.
Qed.

Lemma triple_settle_publish i k data outcome : thread i i (ready k data (claimed (physical i data outcome)))
  (on_owner (owner_publish k outcome)) (returns (λ _, ready k data (settled i data outcome))).
Proof.
  apply (triple_owner [i] [] i _ k _ _ _ (publish_owner k outcome)).
  - by intros it l s [[? _] _].
  - auto.
  - intros r it l s s' [Hst (Hf & [Hl Ho] & [->| ->])] [-> ->]; (split; [done|]); (split; [done|]); (split; [done|]).
    + split; [intros ->; by left|]. destruct Ho as [->| ->]; by intros ?.
    + split; [intros ->; by right|by intros ?].
Qed.

Lemma triple_give_in i k data outcome : thread i i (ready k data (claimed (physical i data outcome)))
  (eff_try (interfere limits ;;! on_owner (owner_publish k O_AMBIGUOUS)) (λ _, eff_ret tt) ;;! eff_ret O_AMBIGUOUS)
  (returns (λ o, ready k data (settled i data o))).
Proof.
  apply (triple_weaken [i] [] i _ (ready k data (claimed (physical i data O_AMBIGUOUS)))); [|auto|].
  { intros it l s (Hst & Hf & Hl & Hs). split; [done|]. split; [done|]. split; [|done]. split; [by eapply physical_ambiguous|by right]. }
  eapply triple_seq; [eapply triple_try; [apply triple_pause; [apply interfere_pausing|apply triple_settle_publish|auto]| |]| |auto].
  - intros a. split; [|by intros it l s Hx]. auto.
  - intros e. apply triple_return; [done|]. auto.
  - intros u. apply triple_return; [done|]. simpl. auto.
Qed.

Lemma triple_settle i k data outcome : thread i i (ready k data (claimed (physical i data outcome)))
  (settle_outcome limits k outcome) (returns (λ o, ready k data (settled i data o))).
Proof.
  apply (triple_try [i] [] i _ _ _ (λ r, match r with Ok o => ready k data (settled i data o) | Err _ => ready k data (claimed (physical i data outcome)) end)).
  - apply triple_pause; [apply interfere_pausing| |by intros []; auto].
    eapply triple_bind; [apply triple_settle_claim| |intros e; split; [auto|done]]. intros [].
    all: try (intros acts q w Hw; exfalso; by destruct (active_item _ _ _ _ _ _ _ Hw) as (it & _ & [] & _)).
    + apply triple_pause; [apply interfere_pausing| |by intros []; auto]. eapply triple_seq; [apply triple_settle_publish| |by intros []; auto].
      intros u. by apply triple_return; [|auto].
    + eapply (triple_bind _ _ _ _ _ _ (λ _, ready k data (claimed (physical i data outcome)))).
      * case_decide; [by apply triple_return; [|auto]|]. apply triple_pause; [apply interfere_pausing| |auto].
        apply (triple_owner [i] [] i _ k _ _ _ (diagnose_owner k outcome)); [by intros it l s [[? _] _]|auto|].
        by intros r it l s s' Hp ->.
      * intros u. apply triple_return; [|auto]. intros it l s (Hst & Hf & Hl & Hs). split; [done|]. split; [done|].
        split; [by eapply physical_ambiguous|]. split; [done|]. destruct Hs as [->| ->]; by intros ?.
      * auto.
  - auto.
  - intros e. apply triple_give_in.
Qed.

(** The item is completed with what was settled, and its token is released. *)
Lemma triple_finish i k data outcome : thread i i (ready k data (settled i data outcome))
  (interfere limits ;;! set_result i outcome ;;! interfere limits ;;! release_token i) (λ _, ended i).
Proof.
  apply triple_pause; [apply interfere_pausing| |auto]. apply (triple_seq [i] [] i _ _ _ (λ _, completed i)); [| |auto].
  - apply triple_set_result; [auto|by intros it l s (_ & -> & _)|].
    intros it l s ((? & ? & Hd) & Hf & Ht & Hs & Hh). split; [left; exists outcome; simpl; by rewrite Hd|simpl; by rewrite Hd].
  - intros _. apply triple_pause; [apply interfere_pausing|apply triple_release_token|auto].
Qed.

Lemma triple_suppress i k data : thread i i (ready k data cancelled)
  (interfere limits ;;! on_owner (owner_publish k O_SUPPRESSED) ;;! interfere limits ;;!
   complete_if_pending i O_SUPPRESSED ;;! interfere limits ;;! release_token i)
  (λ r, match r with Ok _ => ended i | Err _ => unwritten i end).
Proof.
  assert (∀ it l s, cancelled it l s → completed i it l s) as Hc by (intros it l s (Hf & Hl & Hs); split; [right; by rewrite Hf|by intros ?]).
  apply triple_pause; [apply interfere_pausing| |by intros []].
  apply (triple_bind [i] [] i _ _ _ (λ _, completed i)).
  - apply (triple_owner [i] [] i _ k _ _ _ (publish_owner k O_SUPPRESSED)); [by intros it l s [[? _] _]|auto|].
    intros r it l s s' [_ (Hf & Hl & Hs)] Hp. apply Hc. split; [done|]. split; [done|]. destruct s as [[]|]; simpl in Hp; naive_solver.
  - intros _. apply triple_pause; [apply interfere_pausing| |by intros []].
    apply (triple_seq [i] [] i _ _ _ (λ _, completed i)); [| |by intros []].
    + apply (triple_weaken _ _ _ _ (undelivered O_SUPPRESSED i)); [|auto|apply triple_give_up]. intros it l s ?. split; [by right|done].
    + intros _. apply triple_pause; [apply interfere_pausing| |by intros []].
      eapply triple_conseq; [apply triple_release_token|auto|done|by intros []|]. intros [] it l s [? ?]; [by split|by right].
  - intros e. split; [auto|]. intros it l s ?. by right.
Qed.

Lemma ended_unwritten i it l s : ended i it l s → unwritten i it l s.
Proof. intros [? _]. by right. Qed.

Lemma triple_process i k data : thread i i (ready k data waiting) (process_item limits i)
  (λ r, match r with Ok _ => ended i | Err _ => unwritten i end).
Proof.
  set (R := λ r : res string unit, _). assert (∀ r, stable (R r)) as HR by (intros []; simpl; auto).
  assert (∀ ph c, thread i i ph c (λ _, ended i) → thread i i ph c R) as Hended.
  { intros ph c Hc acts q w Hw. destruct (Hc acts q w Hw) as [q' H']. exists q'. eapply winv_weaken; [exact H'|apply HR|].
    destruct (c w) as [[] ?]; [done|apply ended_unwritten]. }
  apply triple_reading. intros it0 l0 s0 [(Hk & Hpe & Henc) _]. rewrite Hk.
  apply (triple_weaken [i] [] i _ (ready k data waiting)); [by intros it l s [_ ?]|auto|].
  apply triple_pause; [apply interfere_pausing| |done]. eapply triple_seq; [apply triple_set_running| |done]. intros [].
  - simpl negb. cbv iota. apply triple_pause; [apply interfere_pausing| |done].
    eapply triple_bind; [apply triple_start| |by intros e; split; [apply HR|]]. intros st.
    case_decide as Hsup; [subst st; apply Hended, triple_finish|].
    apply (triple_weaken [i] [] i _ (ready k data (claimed (λ l, l = [])))); [by destruct st|auto|].
    eapply triple_seq; [by apply triple_write_out| |done]. intros outcome.
    eapply triple_seq; [apply triple_settle| |done]. intros auth. apply Hended, triple_finish.
  - simpl negb. cbv iota. apply triple_suppress.
Qed.

(** Whatever happens to it, an item that is served has ended. *)
Lemma triple_serve_body i k data : thread i i (ready k data waiting)
  (eff_try (process_item limits i) (λ _, eff_try (fail_closed (interfere limits) i O_AMBIGUOUS) (λ _, eff_ret tt)))
  (returns (λ _, ended i)).
Proof.
  eapply triple_try; [apply triple_process|intros a; split; [apply ended_stable|done]|]. intros e.
  eapply triple_try; [apply triple_fail_closed; [apply interfere_pausing|done]|intros a; split; [apply ended_stable|done]|].
  intros e'. by apply triple_return; [|apply ended_stable].
Qed.

(** The head of the queue is taken. *)
Lemma winv_dequeue i q w : winv [] [] (i :: q) [] w → ∃ k data,
  winv [(i, ready k data waiting)] [i] q [] (set_queue (tail (w_queue w)) w).
Proof.
  intros []. simpl in *. destruct (lookup_lt_is_Some_2 (w_items w) i) as [it Hit]; [apply wi_range0; by left|].
  destruct (wi_holds0 i it) as (Hpe & data & r & Henc & _); [by left|done|]. exists (it_send_key it), data.
  constructor; simpl; try done.
  - by rewrite wi_queue0.
  - intros j it' Hj. apply wi_waiting0. by right.
  - intros j ph it' [[= -> ->]|[]%elem_of_nil]%elem_of_cons Hl. simplify_eq. split; [done|]. apply wi_waiting0; [by left|done].
  - apply Forall_singleton. simpl. auto.
  - intros e He. destruct (wi_log_range0 e He) as (? & _ & Hq). split; [done|]. split; [|intros j Hj; apply Hq; by right].
    intros j ->%list_elem_of_singleton. assert (event_item e < i)%nat by (apply Hq; by left). lia.
Qed.

(** The reservation of the item that was served is given back. *)
Lemma winv_release i q w : winv [(i, ended i)] [i] q [] w →
  (release_reservation i w).1 = Ok tt ∧ winv [] [] q [] (release_reservation i w).2.
Proof.
  intros Hw. pose proof Hw as []. simpl in *. destruct (active_item _ _ _ _ _ _ _ Hw) as (it & Hit & Hend & _).
  destruct (wi_holds0 i it) as (_ & data & r & _ & Hr & Hrv); [by left|done|].
  unfold release_reservation, eff_bind, get_item. rewrite Hit, Hr. split; [done|]. simpl.
  set (rv := mkReservation 1 (Z.of_nat (String.length data)) true).
  assert (release r (w_account w) = Admission.set_use (aa_count (w_account w) - 1) (aa_bytes (w_account w) - Z.of_nat (String.length data))
    (<[r := rv]> (aa_reservations (w_account w))) (w_account w)) as Hrel by (unfold release; by rewrite Hrv).
  assert (i ∉ q) as Hiq by (by apply NoDup_cons in wi_acts0 as [? _]).
  assert (∀ j it', j ∈ q → w_items w !! j = Some it' → it_reservation it' ≠ Some r) as Hother.
  { intros j it' Hj Hl Hr'. apply Hiq. rewrite (wi_distinct0 i j it it'); try done; [by left|by right|congruence]. }
  constructor; simpl; rewrite ?Hrel; simpl; try done.
  - by apply StronglySorted_inv in wi_ids0 as [? _].
  - by apply NoDup_cons in wi_acts0 as [_ ?].
  - intros j Hj. apply wi_range0. by right.
  - intros j it' Hj Hl. destruct (wi_holds0 j it') as (? & d & r' & ? & Hr' & ?); [by right|done|]. split; [done|].
    exists d, r'. split; [done|]. split; [done|]. simpl. rewrite ?Hrel. simpl. rewrite list_lookup_insert_ne; [done|].
    intros ->. by apply (Hother j it').
  - intros j j' it1 it2 Hj Hj'. apply wi_distinct0; by right.
  - intros r' rv' Hl Hun. destruct (decide (r' = r)) as [->|Hne].
    + rewrite list_lookup_insert_eq in Hl by (by eapply lookup_lt_Some). by simplify_eq.
    + rewrite list_lookup_insert_ne in Hl by done. destruct (wi_unreleased0 r' rv' Hl Hun) as (j & it' & [->|Hj]%elem_of_cons & Hlj & Hres).
      * congruence.
      * by exists j, it'.
  - lia.
  - rewrite <- Hrel. by apply release_inv.
  - by intros j ph it' Hj%elem_of_nil.
  - intros j it' Hl Hj. destruct (decide (j = i)) as [->|Hne]; [simplify_eq; exact Hend|].
    apply wi_settled0; [done|]. by apply not_elem_of_cons.
  - intros e He. destruct (wi_log_range0 e He) as (? & _ & ?). split; [done|]. split; [by intros j []%elem_of_nil|done].
Qed.

(** One turn of the thread. *)
Lemma serve_winv i q w : winv [] [] (i :: q) [] w →
  ∃ q', winv [] [] q' [] (serve limits i (set_queue (tail (w_queue w)) w)).2.
Proof.
  intros Hw. destruct (winv_dequeue i q w Hw) as (k & data & Hd).
  destruct (triple_serve_body i k data _ _ _ Hd) as [q1 H1]. unfold serve, eff_finally.
  destruct (eff_try _ _ _) as [r1 w1]. simpl in H1. destruct r1 as [u|e];
    [|exfalso; by destruct (active_item _ _ _ _ _ _ _ H1) as (it & _ & [] & _)]. simpl in H1.
  destruct (interfere_winv _ _ _ _ H1) as [Hok [q2 H2]]. unfold eff_bind. destruct (interfere limits w1) as [r2 w2]. simpl in *. subst r2.
  destruct (winv_release i _ w2 H2) as [Hok H3]. destruct (release_reservation i w2) as [r3 w3]. simpl in *. subst r3. by eexists.
Qed.

(** The thread ends at the sentinel, or waits with nothing to come: either way the queue
    holds no item. *)
Lemma run_winv fuel : ∀ q w, winv [] [] q [] w → (work w < fuel)%nat →
  ∃ stopped w', run limits fuel w = Some (stopped, w') ∧ w_queue w' = [] ∧ w_closed w' = stopped ∧
    (stopped = false → w_schedule w' = []) ∧ ∃ w0, winv [] [] [] [] w0 ∧ w' = set_queue [] w0.
Proof.
  induction fuel as [|fuel IH]; intros q w Hw Hf; [lia|]. simpl. unfold queue_get.
  destruct (get_loop_spec limits (λ w, ∃ q, winv [] [] q [] w) (length (w_schedule w)) w) as (w0 & [q0 H0] & Hwk & Hg); [|by eexists|done|].
  { intros w1 [q1 H1]. destruct (interfere_winv _ _ _ _ H1) as [_ [q2 H2]]. by eexists. }
  pose proof (wi_queue _ _ _ _ _ H0) as Hq. destruct (get_loop _ _ _) as [[[i|]|] w'].
  - destruct Hg as (rest & Hqr & ->). rewrite Hq in Hqr. destruct q0 as [|i' q0]; [by destruct (w_closed w0)|]. simpl in Hqr. simplify_eq.
    destruct (serve_winv i q0 w0 H0) as [q' H']. rewrite Hq in H'. simpl in H'.
    apply (IH q' _ H'). eapply Nat.le_lt_trans; [apply calm_serve|]. unfold work in *. rewrite Hq in Hwk. simpl in *. lia.
  - destruct Hg as (rest & Hqr & ->). exists true, (set_queue rest w0). rewrite Hq in Hqr.
    destruct q0; [|done]. simpl in Hqr. destruct (w_closed w0) eqn:Hc; [|done]. simplify_eq. split_and!; try done. by exists w0.
  - destruct Hg as (-> & Hqr & Hs). exists false, w0. split; [done|]. split; [done|]. rewrite Hq in Hqr.
    destruct q0; [|done]. simpl in Hqr. destruct (w_closed w0) eqn:Hc; [done|]. split_and!; try done. exists w0. split; [done|].
    destruct w0. simpl in *. by subst.
Qed.
End proofs.

(** * What the writer promises *)

Section promise.
Context {Own K : Type} `{Hlaws : SendOwnerLaws Own K} (limits : AdmissionLimits).

Lemma sumZ_zero (l : list Z) : Forall (λ z, z = 0) l → sumZ l = 0.
Proof. induction 1 as [|z l Hz _ IH]; [done|]. rewrite sumZ_cons. lia. Qed.

(** An empty queue: nothing is reserved, and every item has ended. *)
Lemma winv_idle keys rest (w : Writer (Own:=Own) (K:=K)) : winv limits keys [] [] [] rest w →
  aa_count (w_account w) = 0 ∧ aa_bytes (w_account w) = 0 ∧
  (∀ i it, w_items w !! i = Some it → phase_at (ended i) w i it) ∧
  ∀ k, so_state k (w_owner w) = Some S_FLUSHED → ∃ i it, w_items w !! i = Some it ∧ it_send_key it = k
    ∧ log_of i (w_log w) = [PWrite i (default "" (it_encoded it)) true; PFlush i true].
Proof.
  intros []. assert (∀ i it, w_items w !! i = Some it → phase_at (ended i) w i it) as Hend
    by (intros i it Hi; apply wi_settled0; [done|apply not_elem_of_nil]).
  split; [done|]. split; [|split; [done|]].
  2: { intros k Hk. destruct (decide (k ∈ it_send_key <$> w_items w)) as [Hin|Hn]; [|by destruct (wi_early0 k Hn)].
    apply list_elem_of_fmap in Hin as (it & -> & [i Hi]%list_elem_of_lookup). exists i, it. split; [done|]. split; [done|].
    destruct (Hend i it Hi) as [[_ Hh] _]. by apply Hh. }
  rewrite (ai_bytes _ wi_account0). apply sumZ_zero, Forall_fmap, Forall_forall. intros rv Hrv. unfold compose, held_size.
  destruct (rv_released rv) eqn:Hrel; [done|]. apply list_elem_of_lookup in Hrv as [r Hr].
  destruct (wi_unreleased0 r rv Hr Hrel) as (i & it & []%elem_of_nil & _).
Qed.

Lemma new_writer_winv (o : Own) faults schedule w : new_writer limits o faults schedule = Ok w → so_inv o →
  let keys := omap submitted_key (mjoin schedule) in
  (∀ k, early (so_state k o)) → Forall env_ok (mjoin schedule) → winv limits keys [] [] [] [] w ∧ work w = length (mjoin schedule).
Proof.
  unfold new_writer. intros Hn Ho Hearly Henv. inv_res. rename select (new_account _ _ _ _ _ = _) into Ha.
  apply new_account_inv in Ha as ([Hinv _ _ _] & L1 & L2 & L3 & L4 & E2 & _ & _ & E1). simpl in Hinv. split; [|done].
  constructor; simpl; rewrite ?E1; try done; try (by constructor).
  all: try (by intros j Hj%elem_of_nil); try (by intros j it Hj%elem_of_nil); try (by intros j ph it Hj%elem_of_nil).
Qed.

(** C11: for an owner of sends that keeps the laws, with send keys that are submitted once and
    not known to have ended before, and other threads that move sends lawfully and reject
    no message as flushed: whatever these threads do and however the transport fails, the
    writer's thread comes to an end or to an empty queue with nothing to come, and then
    every message that was submitted is settled, truthfully. Its future is done; a message
    reported as flushed was written whole and flushed, once; one reported as suppressed or
    failed never reached the transport; and of one reported as ambiguous a prefix or all of
    it was written at most once. What the owner knows as flushed is on the wire. Messages
    reach the transport in the order of their submission and are never interleaved, every
    writer's token was released, and no reservation is left. *)
Theorem writer_settles_everything (o : Own) faults schedule w0 :
  new_writer limits o faults schedule = Ok w0 → so_inv o →
  NoDup (omap submitted_key (mjoin schedule)) →
  (∀ k, early (so_state k o)) →
  Forall env_ok (mjoin schedule) →
  ∃ stopped w, run limits (S (length (mjoin schedule))) w0 = Some (stopped, w)
    ∧ (∀ i it, w_items w !! i = Some it →
         ended i it (log_of i (w_log w)) (so_state (it_send_key it) (w_owner w)))
    ∧ (∀ k, so_state k (w_owner w) = Some S_FLUSHED → ∃ i it, w_items w !! i = Some it ∧ it_send_key it = k
         ∧ log_of i (w_log w) = [PWrite i (default "" (it_encoded it)) true; PFlush i true])
    ∧ StronglySorted Nat.le (event_item <$> w_log w)
    ∧ aa_count (w_account w) = 0 ∧ aa_bytes (w_account w) = 0 ∧ w_queue w = [] ∧ w_closed w = stopped
    ∧ (stopped = false → it_send_key <$> w_items w = omap submitted_key (mjoin schedule)).
Proof.
  intros Hn Ho Hnd Hearly Henv. destruct (new_writer_winv _ _ _ _ Hn Ho Hearly Henv) as [Hw Hwk].
  destruct (run_winv limits _ Hnd _ _ _ Hw (ltac:(rewrite Hwk; lia) : (work w0 < S (length (mjoin schedule)))%nat))
    as (stopped & w & Hr & Hq & Hc & Hs & w1 & H1 & ->).
  destruct (winv_idle _ _ _ H1) as (Ec & Eb & Hend & Hfl). exists stopped, (set_queue [] w1).
  split_and!; try done; [apply (wi_log _ _ _ _ _ _ _ H1)|]. intros Hst. specialize (Hs Hst).
  pose proof (wi_keys _ _ _ _ _ _ _ H1) as Hk. unfold calls_left in Hk. simpl in Hs, Hk |- *. rewrite Hs in Hk. by rewrite app_nil_r in Hk.
Qed.
End promise.

(** * [EphemeralSendOwner] *)

Record EphemeralSlot := mkEphemeralSlot { es_authoritative : SendState; es_diagnostic : option SendOutcome }.

Section ephemeral.
Context {K : Type} `{EqDecision K}.
Abbreviation slots := (odict K EphemeralSlot).

Definition ephemeral_create_queued (k : K) (d : slots) : slots := od_set k (mkEphemeralSlot S_QUEUED None) d.
Definition ephemeral_state (state : SendState) (s : EphemeralSlot) : EphemeralSlot :=
  mkEphemeralSlot state (es_diagnostic s).
Definition ephemeral_suppress (k : K) (d : slots) : slots :=
  match od_get k d with
  | Some slot =>
      if decide (es_authoritative slot = S_QUEUED) then od_set k (ephemeral_state S_SUPPRESSED slot) d else d
  | None => d
  end.
Definition ephemeral_claim (k : K) : eff slots string SendState := λ d,
  match od_get k d with
  | None => (Err "KeyError", d)
  | Some slot =>
      if decide (es_authoritative slot = S_QUEUED)
      then (Ok S_WRITE_STARTED, od_set k (ephemeral_state S_WRITE_STARTED slot) d)
      else (Ok (es_authoritative slot), d)
  end.
Definition ephemeral_publish (k : K) (outcome : SendOutcome) : eff slots string unit := λ d,
  match od_get k d with
  | None => (Err "KeyError", d)
  | Some slot =>
      if terminal_state (es_authoritative slot) then (Ok tt, d)
      else (Ok tt, od_set k (ephemeral_state (state_of outcome) slot) d)
  end.
Definition ephemeral_diagnose (k : K) (outcome : SendOutcome) : eff slots string unit := λ d,
  match od_get k d with
  | None => (Err "KeyError", d)
  | Some slot => (Ok tt, od_set k (mkEphemeralSlot (es_authoritative slot) (Some outcome)) d)
  end.

(** Its sends carry no token. *)
#[export] Instance ephemeral_owner : SendOwner slots K := {|
  owner_claim := ephemeral_claim;
  owner_publish := ephemeral_publish;
  owner_diagnose := ephemeral_diagnose;
  owner_on_release := λ _, eff_ret tt
|}.

Definition ephemeral_of (k : K) (d : slots) : option SendState := es_authoritative <$> od_get k d.

Lemma ephemeral_set k k' s (d : slots) :
  ephemeral_of k (od_set k' s d) = if decide (k = k') then Some (es_authoritative s) else ephemeral_of k d.
Proof. unfold ephemeral_of. case_decide; [subst; by rewrite od_get_set_eq|by rewrite od_get_set_ne]. Qed.

#[export] Instance ephemeral_laws : SendOwnerLaws slots K.
Proof.
  refine {| so_state := ephemeral_of; so_inv := λ _, True |}.
  - intros k d _. simpl. unfold ephemeral_claim. destruct (od_get k d) as [slot|] eqn:Hg;
      unfold ephemeral_of at 3; rewrite Hg; simpl; [|split; [done|]; split; [done|]; split; [done|]; unfold ephemeral_of; by rewrite Hg].
    case_decide as Hs; [rewrite Hs|]; (split; [done|]); split; try done.
    + intros k' Hne. by rewrite ephemeral_set, decide_False.
    + left. split; [done|]. by rewrite ephemeral_set, decide_True.
    + unfold ephemeral_of. rewrite Hg. simpl. by destruct (es_authoritative slot).
  - intros k outcome d _. simpl. unfold ephemeral_publish. destruct (od_get k d) as [slot|] eqn:Hg;
      unfold ephemeral_of at 3; rewrite Hg; simpl; [|split; [done|]; split; [done|]; split; [done|]; unfold ephemeral_of; by rewrite Hg].
    destruct (terminal_state _) eqn:Ht; (split; [done|]); split; try done.
    + unfold ephemeral_of. rewrite Hg. simpl. by destruct (es_authoritative slot).
    + intros k' Hne. by rewrite ephemeral_set, decide_False.
    + rewrite ephemeral_set, decide_True by done. simpl. destruct (es_authoritative slot); try done; auto.
  - intros k outcome d _. simpl. unfold ephemeral_diagnose. destruct (od_get k d) as [slot|] eqn:Hg; (split; [done|]); [|done].
    intros k'. rewrite ephemeral_set. case_decide; [subst|done]. unfold ephemeral_of. by rewrite Hg.
  - done.
Defined.

Lemma ephemeral_suppress_moves k k' (d : slots) : moves (ephemeral_of k' d) (ephemeral_of k' (ephemeral_suppress k d)).
Proof.
  unfold ephemeral_suppress. destruct (od_get k d) as [slot|] eqn:Hg; [|constructor]. case_decide as Hs; [|constructor].
  rewrite ephemeral_set. case_decide; [subst|constructor]. unfold ephemeral_of. rewrite Hg. simpl. rewrite Hs. constructor.
Qed.
End ephemeral.

(** Three messages: one is flushed although its future is cancelled too late, one is
    suppressed by its owner, and the flush of one fails; then the writer is closed. *)
Definition three_sends : odict string EphemeralSlot :=
  foldl (λ d k, ephemeral_create_queued k d) [] ["a"; "b"; "c"].
Lemma three_sends_early k : early (ephemeral_of k three_sends).
Proof.
  unfold three_sends. cbn [foldl]. unfold ephemeral_create_queued. rewrite !ephemeral_set. by repeat case_decide.
Qed.
Definition three_schedule : list (list (env_call (Own:=odict string EphemeralSlot) (K:=string))) :=
  [ [EnvSubmit (Some [("id", JNumber "1")]) None "a" false REQUIRED O_CONCLUSIVE_FAILURE;
     EnvSubmit (Some [("id", JNumber "2")]) None "b" false ORDINARY O_SUPPRESSED];
    []; []; [EnvCancel 0%nat; EnvOwner (ephemeral_suppress "b")]; [];
    [EnvSubmit (Some [("id", JNumber "3")]) None "c" false REQUIRED O_CONCLUSIVE_FAILURE; EnvClose] ].
Definition three_faults : list (option nat) := [None; None; None; Some 0%nat].

Lemma writer_settles_everything_witness : ∃ w0, new_writer DEFAULT_LIMITS three_sends three_faults three_schedule = Ok w0
  ∧ (∃ stopped w, run DEFAULT_LIMITS 7 w0 = Some (stopped, w)
       ∧ (∀ i it, w_items w !! i = Some it →
            ended i it (log_of i (w_log w)) (so_state (it_send_key it) (w_owner w))) ∧ aa_count (w_account w) = 0)
  ∧ (match run DEFAULT_LIMITS 7 w0 with
     | Some (stopped, w) => (stopped, it_future <$> w_items w, event_item <$> w_log w)
     | None => (false, [], [])
     end)
    = (true, [FINISHED (mkSendCompletion "a" O_FLUSHED); FINISHED (mkSendCompletion "b" O_SUPPRESSED);
              FINISHED (mkSendCompletion "c" O_AMBIGUOUS)], [0; 0; 2; 2]%nat).
Proof.
  eexists. split; [vm_compute; reflexivity|]. split; [|vm_compute; reflexivity].
  destruct (writer_settles_everything DEFAULT_LIMITS three_sends three_faults three_schedule _ eq_refl) as (stopped & w & Hr & He & _ & _ & Hc & _).
  - exact I.
  - apply (bool_decide_unpack _). vm_compute. exact I.
  - intros k. apply three_sends_early.
  - repeat constructor; try done. intros k. apply ephemeral_suppress_moves.
  - exists stopped, w. split; [exact Hr|]. exact (conj He Hc).
Defined.
