(* ===== verification/TurnSends.v ===== *)
(** A turn and the outbound writer together: [TurnControl] (src/optimus/acp/lifecycle.py) is
    an owner of sends, so everything the writer promises holds of a turn's messages. The
    threads that work on the turn call its methods between the steps of the writer's
    thread. *)
From S2P Require Import Prelude AcpSettlement Admission TurnControl OutboundWriter.
From stdpp Require Import sorting.

Local Open Scope string_scope.
Local Open Scope Z_scope.

(** * The turn as an owner *)

(** Its sends carry no token. *)
#[export] Instance turn_owner : SendOwner TurnControl TurnSendKey := {|
  owner_claim := claim_write_started;
  owner_publish := publish_authoritative;
  owner_diagnose := publish_diagnostic;
  owner_on_release := λ _, eff_ret tt
|}.

Definition turn_state (k : TurnSendKey) (t : TurnControl) : option SendState :=
  slot_authoritative <$> od_get k (t_slots t).

Lemma state_set k k' s t :
  turn_state k (set_slot k' s t) = if decide (k = k') then Some (slot_authoritative s) else turn_state k t.
Proof. unfold turn_state, set_slot. simpl. case_decide; [subst; by rewrite od_get_set_eq|by rewrite od_get_set_ne]. Qed.

Lemma state_consequence k slot o t : turn_state k (apply_send_consequence slot o t) = turn_state k t.
Proof. unfold turn_state. by destruct (consequence_frame slot o t) as (_ & _ & -> & _). Qed.

(** What is kept of a turn: its invariant, and what delivery in full means. *)
Definition turn_kept (t : TurnControl) : Prop := turn_inv t ∧ flushed_means_all t.

Lemma kept_op op t : turn_kept t → declared_start op t → turn_kept (run_turn_op op t).
Proof. intros [Ht Hf] Hd. split; [by apply turn_op_inv|by apply flushed_op]. Qed.

#[export] Instance turn_laws : SendOwnerLaws TurnControl TurnSendKey.
Proof.
  refine {| so_state := turn_state; so_inv := turn_kept |}.
  - intros k t Ht. pose proof (kept_op (TClaim k) t Ht I) as Ht'. simpl in Ht' |- *. unfold claim_write_started in *.
    destruct (od_get k (t_slots t)) as [slot|] eqn:Hg; assert (turn_state k t = slot_authoritative <$> od_get k (t_slots t)) as Hk by done;
      rewrite Hg in Hk; simpl in Hk; rewrite Hk; [|by split_and!].
    case_decide as Hs; simpl in Ht'; (split; [done|]).
    + rewrite Hs. split; [intros k' Hne; by rewrite state_set, decide_False|]. left. split; [done|]. by rewrite state_set, decide_True.
    + split; [done|]. rewrite Hk. by destruct (slot_authoritative slot).
  - intros k outcome t Ht. pose proof (kept_op (TPublish k outcome) t Ht I) as Ht'. simpl in Ht' |- *. unfold publish_authoritative in *.
    destruct (od_get k (t_slots t)) as [slot|] eqn:Hg; assert (turn_state k t = slot_authoritative <$> od_get k (t_slots t)) as Hk by done;
      rewrite Hg in Hk; simpl in Hk; rewrite Hk; [|by split_and!].
    destruct (finalized (t_end t)) eqn:Hfin; [|destruct (terminal_state _) eqn:Hts]; simpl in Ht'; (split; [done|]).
    + split; [intros k' Hne; by rewrite state_set, decide_False|]. rewrite state_set, decide_True by done. simpl.
      pose proof (od_get_Forall _ _ _ _ (ti_settled _ (proj1 Ht) Hfin) Hg) as Hts. unfold slot_settled in Hts. simpl in Hts.
      by destruct (slot_authoritative slot).
    + split; [done|]. rewrite Hk. by destruct (slot_authoritative slot).
    + split; [intros k' Hne; by rewrite state_consequence, state_set, decide_False|].
      rewrite state_consequence, state_set, decide_True by done. simpl. destruct (slot_authoritative slot); try done; auto.
  - intros k outcome t Ht. pose proof (kept_op (TDiagnose k outcome) t Ht I) as Ht'. simpl in Ht' |- *. unfold publish_diagnostic in *.
    destruct (od_get k (t_slots t)) as [slot|] eqn:Hg; (split; [done|]); [|done]. intros k'. rewrite state_set. case_decide; [subst|done].
    unfold turn_state. by rewrite Hg.
  - done.
Defined.

(** * The other threads of the turn *)

(** They leave the outcomes to the writer, start a send once, and follow the protocol of the
    terminal messages: one is started after the lane was decided and the message declared,
    and, where the lane was declined, only while it is queued or suppressed. *)
Definition keeps_sends (op : turn_op) (t : TurnControl) : Prop :=
  match op with
  | TPublish _ _ => False
  | TStartSend kind i => turn_state (mkTurnSendKey (SendKind_value kind) i) t = None
  | TStartTerminal m fallback =>
      declared_start op t ∧ (terminal_lane (t_gate t) = GRANTED
        ∨ turn_state (mkTurnSendKey "terminal_set" m) t ∈ [Some S_QUEUED; Some S_SUPPRESSED])
  | TStartResponse => turn_state RESPONSE_KEY t = None
  | _ => True
  end.
#[export] Instance keeps_sends_dec op t : Decision (keeps_sends op t).
Proof. destruct op; simpl; apply _. Defined.

(** A step of another thread: the call, if the protocol allows it where the turn stands;
    a thread that follows the protocol does not make the call otherwise. *)
Definition other_thread (op : turn_op) (t : TurnControl) : TurnControl :=
  if decide (keeps_sends op t) then run_turn_op op t else t.

Lemma move_set k k' s t : moves (turn_state k' t) (Some (slot_authoritative s)) →
  moves (turn_state k t) (turn_state k (set_slot k' s t)).
Proof. intros Hm. rewrite state_set. case_decide; [by subst|constructor]. Qed.

Lemma move_fmap k (f : SendSlot → SendSlot) t slots : t_slots t = (λ ks, (ks.1, f ks.2)) <$> slots →
  (∀ s, moves (Some (slot_authoritative s)) (Some (slot_authoritative (f s)))) →
  moves (slot_authoritative <$> od_get k slots) (turn_state k t).
Proof.
  intros Hs Hf. unfold turn_state. rewrite Hs, (slots_get_fmap (λ ks, f ks.2)).
  destruct (od_get k slots) as [s|]; [apply Hf|constructor].
Qed.

Lemma settled_moves s : moves (Some (slot_authoritative s)) (Some (slot_authoritative (TurnControl.settled s))).
Proof. unfold TurnControl.settled, settled_state. simpl. destruct (slot_authoritative s); try constructor; auto. Qed.

Lemma declared_moves ids : ∀ (slots : odict TurnSendKey SendSlot) k,
  moves (slot_authoritative <$> od_get k slots) (slot_authoritative <$> od_get k
    (foldl (λ l m, if od_mem (mkTurnSendKey "terminal_set" m) l then l
       else od_set (mkTurnSendKey "terminal_set" m) (new_slot (mkTurnSendKey "terminal_set" m) S_QUEUED "terminal_set") l) slots ids)).
Proof.
  induction ids as [|m ids IH]; intros slots k; simpl; [constructor|]. eapply moves_trans; [|apply IH].
  unfold od_mem. case_bool_decide as Hm; [constructor|]. set (key := mkTurnSendKey "terminal_set" m) in *.
  destruct (decide (k = key)) as [->|Hne]; [|rewrite od_get_set_ne by done; constructor].
  rewrite od_get_set_eq. destruct (od_get key slots); [by destruct Hm|]. simpl. by apply move_create.
Qed.

Lemma keeps_declared op t : keeps_sends op t → declared_start op t.
Proof. destruct op; try done. by intros [? _]. Qed.

(** The sends of a turn move lawfully. *)
Lemma op_moves op t k : turn_inv t → keeps_sends op t → moves (turn_state k t) (turn_state k (run_turn_op op t)).
Proof.
  intros Ht Hk. assert (∀ u, t_slots u = t_slots t → moves (turn_state k t) (turn_state k u)) as Hsame
    by (intros u Hu; unfold turn_state; rewrite Hu; constructor).
  assert (∀ k' slot, od_get k' (t_slots t) = Some slot → turn_state k' t = Some (slot_authoritative slot)) as Hst
    by (intros k' slot Hg; unfold turn_state; by rewrite Hg).
  destruct op; simpl in *; try (by apply Hsame).
  - unfold try_start_directive. repeat case_match; by apply Hsame.
  - unfold try_start_send. case_match; simpl; apply move_set; rewrite Hk; by apply move_create.
  - unfold complete_directive. case_match; by apply Hsame.
  - unfold refresh_effect_state. simpl. case_match; by apply Hsame.
  - unfold request_session_cancel. case_decide; [|by apply Hsame].
    apply (move_fmap k (λ s, if bool_decide (slot_work_class s ∈ GATED_SENDS) && bool_decide (slot_authoritative s = S_QUEUED)
      then slot_with S_SUPPRESSED s else s) _ (t_slots t)); [done|].
    intros s. case_match eqn:Hc; [|constructor]. apply andb_true_iff in Hc as [_ Hc%bool_decide_eq_true]. rewrite Hc. constructor.
  - unfold seal_final_delivery. case_match; by apply Hsame.
  - unfold record_outcome. case_match; by apply Hsame.
  - unfold commit_conversation. repeat case_match; by apply Hsame.
  - unfold declare_terminal_messages. case_match; [by apply Hsame|]. apply declared_moves.
  - destruct Hk as [(_ & -> & slot & Hg) Hlane]. unfold start_terminal_message. destruct (finalized _); [constructor|].
    case_decide; [rewrite Hg; constructor|]. apply move_set. destruct Hlane as [?|Hlane]; [done|].
    apply elem_of_cons in Hlane as [->| ->%list_elem_of_singleton]; constructor.
  - unfold start_response_send. case_match; [constructor|]. case_match;
      (match goal with |- context [set_slot RESPONSE_KEY ?s ?u] => refine (move_set k RESPONSE_KEY s u _);
         change (turn_state RESPONSE_KEY u) with (turn_state RESPONSE_KEY t) end; rewrite Hk; by apply move_create).
  - unfold mark_write_started. destruct (od_get k0 (t_slots t)) as [slot|] eqn:Hg; [|constructor]. case_decide as Hs; [|constructor].
    apply move_set. rewrite (Hst _ _ Hg), Hs. constructor.
  - unfold claim_write_started. destruct (od_get k0 (t_slots t)) as [slot|] eqn:Hg; [|constructor]. case_decide as Hs; [|constructor].
    apply move_set. rewrite (Hst _ _ Hg), Hs. constructor.
  - unfold publish_diagnostic. destruct (od_get k0 (t_slots t)) as [slot|] eqn:Hg; [|constructor].
    apply move_set. rewrite (Hst _ _ Hg). constructor.
  - unfold request_transport_teardown. destruct (finalized _); [constructor|]. case_match; [constructor|]. simpl.
    destruct (teardown_frame t (ti_keys _ Ht)) as (_ & _ & _ & _ & _ & _ & Hs).
    case_match; (eapply (move_fmap k TurnControl.settled); [exact Hs|apply settled_moves]).
  - unfold finalize_once. case_match; [constructor|]. simpl. set (t2 := settle_slots _).
    assert (t_slots t2 = settled_slots (t_slots t)) as Hs by exact (proj1 (settle_slots_spec (set_frozen true (set_gate _ t)) (ti_keys _ Ht))).
    repeat case_match; (eapply (move_fmap k TurnControl.settled); [exact Hs|apply settled_moves]).
Qed.

Lemma other_thread_ok op : env_ok (EnvOwner (other_thread op)).
Proof.
  intros t Ht. unfold other_thread. case_decide as Hk; [|split; [done|constructor]].
  split; [apply kept_op; [done|by apply keeps_declared]|]. intros k. by apply op_moves; [apply Ht|].
Qed.

(** * What is committed was delivered *)

Abbreviation turn_call := (env_call (Own:=TurnControl) (K:=TurnSendKey)).

(** The calls of the threads of a turn. *)
Definition turn_call_ok (c : turn_call) : Prop :=
  match c with
  | EnvOwner step => ∃ op, step = other_thread op
  | EnvSubmit _ _ _ _ _ rejection => rejection ≠ O_FLUSHED
  | _ => True
  end.

Lemma turn_calls_ok (calls : list turn_call) : Forall turn_call_ok calls → Forall env_ok calls.
Proof. intros Hc. eapply Forall_impl; [exact Hc|]. intros [| | |step]; try done. intros [op ->]. apply other_thread_ok. Qed.

Lemma new_turn_kept : turn_kept new_turn.
Proof. split; [apply new_turn_inv|done]. Qed.

(** C12: a turn enters the conversation only if it reached the client. Let the threads of the
    turn call its methods in any interleaving with the writer's thread, leaving the outcomes
    of sends to the writer, starting each send once, and declaring the terminal messages,
    with the lane decided, before they start them ([keeps_sends]); let the transport fail
    as it may. If the conversation is committed when the writer has come to its end, then
    there are terminal messages, and the bytes of every one of them were written whole and
    flushed. *)
Theorem committed_turn_is_on_the_wire limits faults (schedule : list (list turn_call)) w0 stopped w t' :
  new_writer limits new_turn faults schedule = Ok w0 →
  NoDup (omap submitted_key (mjoin schedule)) → Forall turn_call_ok (mjoin schedule) →
  run limits (S (length (mjoin schedule))) w0 = Some (stopped, w) →
  commit_conversation (E:=string) (Ok tt) (w_owner w) = (Ok true, t') →
  terminal_slots (w_owner w) ≠ [] ∧
  ∀ k slot, od_get k (t_slots (w_owner w)) = Some slot → slot_work_class slot ∈ TERMINAL_CLASSES →
    ∃ i it, w_items w !! i = Some it ∧ it_send_key it = k
      ∧ log_of i (w_log w) = [PWrite i (default "" (it_encoded it)) true; PFlush i true].
Proof.
  intros Hn Hnd Hcalls Hr Hcommit.
  destruct (new_writer_winv (Hlaws:=turn_laws) limits new_turn faults schedule w0 Hn new_turn_kept) as [Hw Hwk];
    [done|by apply turn_calls_ok|].
  destruct (run_winv limits _ Hnd _ _ _ Hw (ltac:(rewrite Hwk; lia) : (work w0 < S (length (mjoin schedule)))%nat))
    as (stopped' & w' & Hr' & _ & _ & _ & w1 & H1 & ->).
  rewrite Hr in Hr'. simplify_eq. destruct (winv_idle _ _ _ _ H1) as (_ & _ & _ & Hfl). simpl in *.
  destruct (wi_owner _ _ _ _ _ _ _ H1) as [_ Hall]. unfold commit_conversation in Hcommit.
  destruct (finalized _ || _ || _) eqn:Hg; [by simplify_eq|].
  apply orb_false_iff in Hg as [[_ Hab]%orb_false_iff Hff%bool_decide_eq_false].
  destruct (Hall Hab (dec_stable Hff)) as [Hne Hforall]. split; [done|]. intros k slot Hk Hcls.
  apply Hfl. simpl. unfold turn_state. rewrite Hk. simpl. f_equal. rewrite Forall_forall in Hforall. apply Hforall.
  apply list_elem_of_filter. split; [done|]. apply list_elem_of_fmap. exists (k, slot). split; [done|]. by apply od_get_Some_in.
Qed.

(** Two terminal messages and a progress message; the turn is committed at the end. *)
Definition told_schedule : list (list turn_call) :=
  let submit m := EnvSubmit (Some [("text", Json.JString m)]) None (mkTurnSendKey "terminal_set" m) false REQUIRED O_CONCLUSIVE_FAILURE in
  [ [EnvOwner (other_thread (TStartSend K_PROGRESS "1")); EnvSubmit (Some []) None (mkTurnSendKey "progress" "1") false ORDINARY O_SUPPRESSED];
    [EnvOwner (other_thread TSeal); EnvOwner (other_thread (TDeclare ["plan"; "text"]))];
    [EnvOwner (other_thread (TStartTerminal "plan" false)); submit "plan"; EnvOwner (other_thread (TStartTerminal "text" false)); submit "text"];
    [EnvClose] ].

(** What the caller sees at the end: the answer of the commit, and the futures. *)
Definition turn_end limits (schedule : list (list turn_call)) : option (res string bool * list (FutureState (K:=TurnSendKey))) :=
  match new_writer limits new_turn [] schedule with
  | Ok w0 =>
      match run limits (S (length (mjoin schedule))) w0 with
      | Some (_, w) => Some ((commit_conversation (Ok tt) (w_owner w)).1, it_future <$> w_items w)
      | None => None
      end
  | Err _ => None
  end.

Lemma turn_end_run limits schedule r l : turn_end limits schedule = Some (r, l) → ∃ w0 stopped w t',
  new_writer limits new_turn [] schedule = Ok w0 ∧ run limits (S (length (mjoin schedule))) w0 = Some (stopped, w)
  ∧ commit_conversation (Ok tt) (w_owner w) = (r, t').
Proof.
  unfold turn_end. destruct (new_writer _ _ _ _) as [w0|]; [|done]. destruct (run _ _ _) as [[stopped w]|] eqn:Hr; [|done].
  destruct (commit_conversation _ _) as [r' t'] eqn:Hc. intros. simplify_eq/=. by exists w0, stopped, w, t'.
Qed.

Definition told_futures : list (FutureState (K:=TurnSendKey)) := (λ k, FINISHED (mkSendCompletion k O_FLUSHED)) <$>
  [mkTurnSendKey "progress" "1"; mkTurnSendKey "terminal_set" "plan"; mkTurnSendKey "terminal_set" "text"].

Lemma told_keys : NoDup (omap submitted_key (mjoin told_schedule)).
Proof. apply (bool_decide_unpack _). vm_compute. exact I. Qed.
Lemma told_calls : Forall turn_call_ok (mjoin told_schedule).
Proof. repeat constructor; try done; by eexists. Qed.

Lemma committed_turn_is_on_the_wire_witness :
  turn_end DEFAULT_LIMITS told_schedule = Some (Ok true, told_futures)
  ∧ ∃ w0 stopped w, new_writer DEFAULT_LIMITS new_turn [] told_schedule = Ok w0
    ∧ run DEFAULT_LIMITS (S (length (mjoin told_schedule))) w0 = Some (stopped, w)
    ∧ terminal_slots (w_owner w) ≠ [].
Proof.
  assert (turn_end DEFAULT_LIMITS told_schedule = Some (Ok true, told_futures)) as Hend by (vm_compute; reflexivity).
  split; [exact Hend|]. destruct (turn_end_run _ _ _ _ Hend) as (w0 & stopped & w & t' & Hn & Hr & Hc).
  exists w0, stopped, w. split; [exact Hn|]. split; [exact Hr|].
  exact (proj1 (committed_turn_is_on_the_wire DEFAULT_LIMITS [] told_schedule w0 stopped w t' Hn told_keys told_calls Hr Hc)).
Defined.
